(* ===== verification/_CoqProject ===== *)
-Q . S2P
Prelude.v
Float64.v
Types.v
GoStrings.v
GoParse.v
Config.v
Context.v
Trace.v
Codec.v
CircuitBreaker.v
Semaphore.v
Retry.v
Provider.v
Sse.v
Mock.v
OpenAI.v
Governance.v
Routing.v
Redis.v
RateLimit.v
Idempotency.v
Cache.v
RedisStore.v
Storage.v
Service.v
Gateway.v
Api.v
Exchange.v
Metrics.v
Main.v
Run.v
