(* ===== verification/Prelude.v ===== *)
(** * ModelGate: a verification library

    ModelGate is a gateway in front of providers of language models. A request
    passes the HTTP layer (internal/api) and reaches the gateway service
    (internal/service/gateway.go), which validates it, asks the rate limiter,
    reserves its idempotency key, consults the response cache, calls the
    provider, stores and records the outcome. The provider of the gateway is the
    router (internal/routing), which chooses among targets; each target is a
    governed provider (internal/governance), which puts a semaphore
    (internal/concurrency), a circuit breaker (internal/circuitbreaker) and a retry
    policy (internal/retry) around an upstream client. The rate limiter
    (internal/ratelimit) and the idempotency store (internal/idempotency) run Lua
    scripts in Redis; the cache (internal/cache) uses Redis keys; usage records and
    migrations (internal/storage) are PostgreSQL transactions.

    ** How the code is modelled

    Code is a function [M W A] from a world [W] to an outcome: it returns a value
    ([Ret]), panics ([Panic]) or waits for ever ([Block]), each with the final
    world (this file). [defer] runs on return and on panic. A mutable object is a
    reference [ref W A] into the world. Go interfaces are records of operations;
    an absent dependency (nil) is [None]. Errors are values of the inductive type
    [error], whose constructors are the dynamic types the program distinguishes;
    [errors.Is] and [errors.As] walk its chain (Types.v). Integers are [Z], kept at
    64 bits with [wrap64] wherever the code could overflow; float64 comparisons use
    IEEE 754 binary64 of the standard library (Float64.v). Strings are sequences of
    bytes with Go's UTF-8 decoding (GoStrings.v).

    The safety of code is stated with [wp] (the post-condition on return and on
    panic), total correctness with [twp] (it returns, and the result satisfies the
    post-condition). Critical sections under a mutex are single atomic functions,
    and concurrency is the interleaving of these atomic steps, given as inductive
    step relations over all callers.

    ** Files

    - Prelude.v: the monad, its rules and tactics, machine integers, counting.
    - Float64.v, GoStrings.v, GoParse.v: float64, strings and unicode, and the
      parsing of numbers, booleans and durations.
    - Types.v: the data types of internal/provider/provider.go and the errors of all
      packages.
    - Config.v: internal/config, [Load] over the environment.
    - Context.v: clock, contexts, timeouts and cancellation; the scheduler that
      decides how long a wait takes and which ready case of a select wins.
    - Trace.v: what code asks of its environment, in order ([traces]), also when it
      panics ([outcomes]) and in two logs of one run ([traces2]); what it returns
      ([yields]).
    - Codec.v: SHA-256 and JSON as parameters with laws.
    - CircuitBreaker.v: [circuitbreaker.Breaker]: [allowLocked], [completeLocked]
      and the other methods; a breaker shared by any number of callers ([step]),
      the abstract breaker with a sliding window, and the refinement.
    - Semaphore.v: [concurrency.Semaphore], a buffered channel as a counter.
    - Retry.v: [retry.Policy]: the loop of [do], backoff and jitter.
    - Provider.v: the interfaces of internal/provider/provider.go, the
      contract that a provider owes its callers ([Contract]), the texts and the
      classification of errors of internal/provider/error.go, and the consumer of
      a stream as a sequence of [Recv] and [Close].
    - Sse.v: the event-stream parser of internal/provider/sse_stream.go.
    - Mock.v: the mock provider.
    - OpenAI.v: the client of OpenAI-compatible upstreams and of DeepSeek.
    - Governance.v: [governance.Provider] and its managed stream.
    - Routing.v: [routing.Router], both strategies and both routing loops.
    - Redis.v: Redis as an abstract machine with hashes, expiry and a clock (the
      class [Redis], with laws and one instance), Lua numbers as rationals with a
      rounding of bounded relative error ([Rounding]), scripts and evaluators.
    - RateLimit.v: the token-bucket script and [RedisLimiter].
    - Idempotency.v: the three scripts and [RedisStore], and the abstract machine
      free / pending / completed with expiry.
    - Cache.v: [RedisCache] and [Policy.Key]; RedisStore.v: internal/redisstore.
    - Storage.v: [UsageRepository.Record] and [ApplyMigrations] over transactions,
      and the adapter of the pgx pool (transaction.go), which keeps the promise of a
      transaction ([Transactional]) if the driver does ([Driver]).
    - Service.v: [ValidateChatRequest] and [ChatService].
    - Gateway.v: [GatewayService.Chat] and [ChatStream], the metered stream.
    - Api.v: the handlers of internal/api and the request-id middleware.
    - Exchange.v: the handler over the gateway, from the body of a request to its
      response and its usage record.
    - Metrics.v: internal/metrics, what is reported under which labels.
    - Main.v: internal/provider/factory.go and [buildProviderRouter] of cmd/server,
      the composition of configuration, providers, governance and router.
    - Run.v: [run] and [main] of cmd/server, [NewRouter] of internal/api, and the
      theorem about a whole request.

    A definition has the name of the function or method it models; the function
    [Chat] of the gateway is split along its phases into [chatBody],
    [chatReserved], [chatCached] and [chatProvider], and loops and closures have
    names of their own.

    ** What the theorems show

    - Breaker: any interleaving of calls acts as the abstract breaker over the
      window of the last outcomes; never more probes than allowed; an open breaker
      rejects until its timeout and recovers after it; the default ratio is exact
      in float64; no panic. A NaN ratio is accepted and disables the breaker.
    - Semaphore: permits held are at most the capacity, a release never blocks.
    - Retry: number and conditions of the attempts, the result, ownership of the
      cancel function, termination, and the bounds of backoff and jitter.
    - Governed provider: slot and breaker permit are given back exactly once, for
      calls (on panics, the slot) and for every way to consume a stream.
    - Router: each target at most once, another target only after a refusal;
      exact shares and bounded deviation of smooth weighted round robin; fairness
      of round robin; validation of the configuration.
    - Rate limiter: the number of requests granted in every window is bounded,
      with an explicit rounding error; the announced wait suffices.
    - Idempotency: the scripts implement the abstract machine; mutual exclusion
      and replay against any number of clients.
    - Cache: keys separate clients, relative to the absence of SHA-256 collisions; a
      lookup returns what was stored until it expires.
    - Storage: records and migrations are all or nothing.
    - Validation accepts exactly the well-formed requests.
    - Configuration: a loaded configuration is valid, exactly the valid provider
      lists are read back from their notation, and a loaded configuration builds the
      router with everything the theorems about its parts require.
    - Upstream clients: at most one request, every body closed exactly once, results
      classified by the answer; the event-stream parser reads every well-formed
      stream and returns on every input; the mock stream says what its answer says.
    - HTTP: one JSON error per failed request with the status of its class and a
      public message; a stream is written in order, ended by [DONE] exactly at EOF
      and closed once, also when the response writer or the stream panics; what is
      written is read back by the program's own parser.
    - The whole request: one response, every stream closed, and one usage record with
      the identifier and the outcome that the client saw.
    - The whole provider: mock, upstream client, governed provider and router keep
      the contract that the gateway relies on, and so does the provider that is built
      from a loaded configuration.
    - Metrics: every attempt is counted once; the callback of the circuit gauge ends,
      and concurrent callbacks can leave the gauge stale.
    - Process: it serves at most one gateway, wired as the configuration says, and
      closes what it opened; a handler that panics does not end it.
    - Gateway: the trace of what a request asks of its dependencies. At most one
      provider call, only with the limiter's consent and only with the key
      acquired; reservations settled by the outcome; the origin of every answer;
      one matching usage record; a stream recorded exactly once.

    ** Parameters, fuel and bounds

    The loops are structural: the router's loop recurses on the targets not yet
    tried (it starts with their number and every iteration excludes one), the
    retry loop on the attempts that are left (it starts with MaxAttempts), the
    backoff loop on the attempt number, [ParseDuration] on the bytes left, and the
    loop of the event-stream parser on the lines left; no result depends on running
    out. The handler's loop over a stream has no bound in the code: its theorems hold
    for any fuel above the number of chunks. The callback of a state change may call
    itself through the breaker; two levels are proved to be enough. Lua
    numbers are exact up to 2^53, which bounds the clock, the rate and the burst in
    the theorems of RateLimit.v. Parameters, with their documented behaviour as
    classes or hypotheses and an instance of each in a witness: the scheduler and
    clock, the random source, SHA-256, JSON, Redis and its client, Lua rounding,
    PostgreSQL, the HTTP client and server, url.Parse and media types, decimal
    floating-point texts, the Prometheus client, and the observers.

    ** Not modelled

    The pgx driver, the export of the Prometheus registry, the logger and signals are
    library code. The texts of the errors of the network library are a parameter.
    The state of a stream is a value that [Recv] and [Close] pass on: where [Recv]
    itself panics, the deferred [Close] of the handler runs on the state from before
    that call. *)

From stdpp Require Import base gmap list strings.
From Stdlib Require Import ZArith Lia.

Create HintDb golib.
Create Rewrite HintDb golib.

Declare Scope go_scope.
Delimit Scope go_scope with go.
Local Open Scope Z_scope.

(** ** Machine integers *)

Definition min_int64 : Z := - 2 ^ 63.
Definition max_int64 : Z := 2 ^ 63 - 1.

(** Go's [int] and [int64] (two's complement, wrap-around on overflow). *)
Definition wrap64 (z : Z) : Z := (z + 2 ^ 63) `mod` 2 ^ 64 - 2 ^ 63.

(** Go's [uint64]. *)
Definition wrapu64 (z : Z) : Z := z `mod` 2 ^ 64.

Definition in_int64 (z : Z) : Prop := min_int64 <= z <= max_int64.

#[export] Instance in_int64_dec z : Decision (in_int64 z).
Proof. unfold in_int64. apply _. Defined.

(** [time.Time.Sub]: the difference saturates at the bounds of [Duration]. *)
Definition time_sub (a b : Z) : Z := Z.max min_int64 (Z.min max_int64 (a - b)).

(** Durations in nanoseconds. *)
Definition nanosecond : Z := 1.
Definition millisecond : Z := 1000000.
Definition second : Z := 1000 * millisecond.
Definition minute : Z := 60 * second.
Definition hour : Z := 60 * minute.

(** [Duration.Milliseconds]: integer division truncates toward zero. *)
Definition milliseconds (d : Z) : Z := Z.quot d millisecond.

(** ** Outcomes of a goroutine's code

    A Go function that touches shared state is a function from the world to an
    outcome: it returns, it panics, or it blocks for ever (a channel operation
    or [select] that never becomes ready). *)
Inductive outcome (W A : Type) : Type :=
| Ret (a : A) (w : W)
| Panic (w : W)
| Block (w : W).
Arguments Ret {W A} _ _.
Arguments Panic {W A} _.
Arguments Block {W A} _.

Definition M (W A : Type) : Type := W -> outcome W A.

Definition ret {W A} (a : A) : M W A := fun w => Ret a w.

Definition bind {W A B} (m : M W A) (f : A -> M W B) : M W B := fun w =>
  match m w with
  | Ret a w' => f a w'
  | Panic w' => Panic w'
  | Block w' => Block w'
  end.

Definition panic {W A} : M W A := fun w => Panic w.

(** [defer f] in a function whose remaining body is [m]: [f] runs when [m]
    returns and when it panics. *)
Definition defer {W A} (f : M W unit) (m : M W A) : M W A := fun w =>
  match m w with
  | Ret a w' => bind f (fun _ => ret a) w'
  | Panic w' => bind f (fun _ => panic) w'
  | Block w' => Block w'
  end.

(** The part of a deferred [f] that matters when [m] panics; the caller runs [f]
    itself when [m] returns, with what [m] returned. *)
Definition onPanic {W A} (f : M W unit) (m : M W A) : M W A := fun w =>
  match m w with
  | Panic w' => bind f (fun _ => panic) w'
  | o => o
  end.

(** Read a component of the world without changing it. *)
Definition gets {W A} (f : W -> A) : M W A := fun w => Ret (f w) w.

Notation "'let!' x := m 'in' k" := (bind m (fun x => k))
  (at level 10, x name, m at level 100, k at level 200) : go_scope.
Notation "'let!' ' p := m 'in' k" := (bind m (fun x => match x with p => k end))
  (at level 10, p pattern, m at level 100, k at level 200) : go_scope.
Notation "m ;! k" := (bind m (fun _ => k))
  (at level 100, k at level 200, right associativity) : go_scope.

(** ** Pointers

    A pointer to an object of type [A] in the world [W] is a getter and a
    setter with the usual laws. *)
Record ref (W A : Type) : Type := mkRef {
  ref_get : W -> A;
  ref_set : A -> W -> W;
}.
Arguments mkRef {W A} _ _.
Arguments ref_get {W A} _ _.
Arguments ref_set {W A} _ _ _.

Class RefOk {W A} (r : ref W A) : Prop := {
  ref_get_set : forall a w, ref_get r (ref_set r a w) = a;
  ref_set_get : forall w, ref_set r (ref_get r w) w = w;
  ref_set_set : forall a b w, ref_set r a (ref_set r b w) = ref_set r a w;
}.

(** Two pointers to different objects: a write through one is not seen by
    the other. *)
Class RefDisjoint {W A B} (r : ref W A) (s : ref W B) : Prop := {
  ref_disj_l : forall b w, ref_get r (ref_set s b w) = ref_get r w;
  ref_disj_r : forall a w, ref_get s (ref_set r a w) = ref_get s w;
}.

Definition load {W A} (r : ref W A) : M W A := gets (ref_get r).
Definition store {W A} (r : ref W A) (a : A) : M W unit := fun w => Ret tt (ref_set r a w).

(** Run a pure transformer of the object under the pointer. *)
Definition update {W A B} (r : ref W A) (f : A -> B * A) : M W B := fun w =>
  let '(b, a') := f (ref_get r w) in Ret b (ref_set r a' w).

(** ** Weakest preconditions

    [wp m Q R w]: running [m] from [w] ends in a state satisfying [Q] if it
    returns and [R] if it panics; a run that blocks for ever satisfies both. *)
Definition wp {W A} (m : M W A) (Q : A -> W -> Prop) (R : W -> Prop) (w : W) : Prop :=
  match m w with
  | Ret a w' => Q a w'
  | Panic w' => R w'
  | Block _ => True
  end.

Lemma wp_ret {W A} (a : A) Q R (w : W) : Q a w -> wp (ret a) Q R w.
Proof. done. Qed.

Lemma wp_gets {W A} (f : W -> A) Q R (w : W) : Q (f w) w -> wp (gets f) Q R w.
Proof. done. Qed.

Lemma wp_panic {W A} Q R (w : W) : R w -> wp (@panic W A) Q R w.
Proof. done. Qed.

Lemma wp_bind {W A B} (m : M W A) (f : A -> M W B) Q R w :
  wp m (fun a => wp (f a) Q R) R w -> wp (bind m f) Q R w.
Proof. unfold wp, bind. by destruct (m w). Qed.

Lemma wp_mono {W A} (m : M W A) (Q Q' : A -> W -> Prop) (R R' : W -> Prop) w :
  wp m Q R w -> (forall a w', Q a w' -> Q' a w') -> (forall w', R w' -> R' w') ->
  wp m Q' R' w.
Proof. unfold wp. destruct (m w); auto. Qed.

Lemma wp_conj {W A} (m : M W A) (Q Q' : A -> W -> Prop) (R R' : W -> Prop) w :
  wp m Q R w -> wp m Q' R' w ->
  wp m (fun a w' => Q a w' /\ Q' a w') (fun w' => R w' /\ R' w') w.
Proof. unfold wp. destruct (m w); auto. Qed.

Lemma wp_defer {W A} (f : M W unit) (m : M W A) Q R w :
  wp m (fun a => wp f (fun _ => Q a) R) (wp f (fun _ => R) R) w ->
  wp (defer f m) Q R w.
Proof.
  unfold wp, defer, bind. destruct (m w) as [a w'|w'|w']; try done.
  - by destruct (f w').
  - by destruct (f w').
Qed.

Lemma wp_store {W A} (r : ref W A) a Q R (w : W) :
  Q tt (ref_set r a w) -> wp (store r a) Q R w.
Proof. done. Qed.

Lemma wp_update {W A B} (r : ref W A) (f : A -> B * A) Q R (w : W) :
  Q (f (ref_get r w)).1 (ref_set r (f (ref_get r w)).2 w) -> wp (update r f) Q R w.
Proof. unfold wp, update. by destruct (f (ref_get r w)). Qed.

Lemma bind_Ret {W A B} (m : M W A) (f : A -> M W B) w b w'' :
  bind m f w = Ret b w'' <-> exists a w', m w = Ret a w' /\ f a w' = Ret b w''.
Proof.
  unfold bind. split.
  - destruct (m w) as [a w'|w'|w']; try done. eauto.
  - by intros (a & w' & -> & ?).
Qed.

(** Advance a [wp] goal through the monad's structure. *)
Ltac wp_step :=
  lazymatch goal with
  | |- wp (bind _ _) _ _ _ => apply wp_bind
  | |- wp (ret _) _ _ _ => apply wp_ret
  | |- wp (gets _) _ _ _ => apply wp_gets
  | |- wp (load _) _ _ _ => apply wp_gets
  | |- wp panic _ _ _ => apply wp_panic
  | |- wp (store _ _) _ _ _ => apply wp_store
  | |- wp (update _ _) _ _ _ => apply wp_update
  | |- wp (defer _ _) _ _ _ => apply wp_defer
  end; cbn beta iota.
Ltac wp_steps := repeat wp_step.

(** Split a hypothesis that a [bind] returned into its two halves. *)
Ltac inv_bind H :=
  apply bind_Ret in H;
  let a := fresh "a" in let w := fresh "w" in
  let H1 := fresh "Hm" in
  destruct H as (a & w & H1 & H).

(** ** Termination: code that returns from every world *)

Definition returns {W A} (m : M W A) : Prop := forall w, exists a w', m w = Ret a w'.

Lemma returns_ret {W A} (a : A) : returns (@ret W A a).
Proof. intros w. by do 2 eexists. Qed.

Lemma returns_gets {W A} (f : W -> A) : returns (gets f).
Proof. intros w. by do 2 eexists. Qed.

Lemma returns_store {W A} (r : ref W A) a : returns (store r a).
Proof. intros w. by do 2 eexists. Qed.

Lemma returns_update {W A B} (r : ref W A) (f : A -> B * A) : returns (update r f).
Proof. intros w. unfold update. destruct (f _). by do 2 eexists. Qed.

Lemma returns_bind {W A B} (m : M W A) (f : A -> M W B) :
  returns m -> (forall a, returns (f a)) -> returns (bind m f).
Proof. intros Hm Hf w. destruct (Hm w) as (a & w' & E). unfold bind. rewrite E. apply Hf. Qed.

#[export] Hint Resolve returns_ret returns_gets returns_store returns_update : golib.

(** Prove that a composition of terminating code terminates. *)
Ltac returns_steps :=
  repeat (cbn beta iota;
    first
    [ assumption
    | solve [eauto with golib]
    | apply returns_bind; [|intros ?]
    | match goal with |- returns (match ?x with _ => _ end) => destruct x end
    | match goal with |- returns (if ?x then _ else _) => destruct x end ]).

(** ** Total correctness

    [twp m Q w]: running [m] from [w] returns, in a state satisfying [Q]. *)
Definition twp {W A} (m : M W A) (Q : A -> W -> Prop) (w : W) : Prop :=
  match m w with
  | Ret a w' => Q a w'
  | _ => False
  end.

Lemma twp_ret {W A} (a : A) Q (w : W) : Q a w -> twp (ret a) Q w.
Proof. done. Qed.

Lemma twp_gets {W A} (f : W -> A) Q (w : W) : Q (f w) w -> twp (gets f) Q w.
Proof. done. Qed.

Lemma twp_bind {W A B} (m : M W A) (f : A -> M W B) Q w :
  twp m (fun a => twp (f a) Q) w -> twp (bind m f) Q w.
Proof. unfold twp, bind. by destruct (m w). Qed.

Lemma twp_mono {W A} (m : M W A) (Q Q' : A -> W -> Prop) w :
  twp m Q w -> (forall a w', Q a w' -> Q' a w') -> twp m Q' w.
Proof. unfold twp. destruct (m w); auto. Qed.

Lemma twp_defer {W A} (f : M W unit) (m : M W A) Q w :
  twp m (fun a => twp f (fun _ => Q a)) w -> twp (defer f m) Q w.
Proof.
  unfold twp, defer, bind. destruct (m w) as [a w'|w'|w']; try done. by destruct (f w').
Qed.

Lemma twp_update {W A B} (r : ref W A) (f : A -> B * A) Q (w : W) :
  Q (f (ref_get r w)).1 (ref_set r (f (ref_get r w)).2 w) -> twp (update r f) Q w.
Proof. unfold twp, update. by destruct (f (ref_get r w)). Qed.

Lemma twp_Ret {W A} (m : M W A) Q w :
  twp m Q w <-> exists a w', m w = Ret a w' /\ Q a w'.
Proof.
  unfold twp. split.
  - destruct (m w) as [a w'| |]; try done. eauto.
  - by intros (a & w' & -> & ?).
Qed.

Ltac twp_step :=
  lazymatch goal with
  | |- twp (bind _ _) _ _ => apply twp_bind
  | |- twp (ret _) _ _ => apply twp_ret
  | |- twp (gets _) _ _ => apply twp_gets
  | |- twp (load _) _ _ => apply twp_gets
  | |- twp (update _ _) _ _ => apply twp_update
  | |- twp (defer _ _) _ _ => apply twp_defer
  end; cbn beta iota.
Ltac twp_steps := repeat twp_step.

(** ** Lemmas on integers *)

Lemma wrap64_id z : in_int64 z -> wrap64 z = z.
Proof.
  unfold in_int64, wrap64, min_int64, max_int64. intros H.
  rewrite Z.mod_small; lia.
Qed.

Lemma wrap64_range z : in_int64 (wrap64 z).
Proof.
  unfold in_int64, wrap64, min_int64, max_int64.
  pose proof (Z.mod_pos_bound (z + 2 ^ 63) (2 ^ 64)). lia.
Qed.

Lemma wrapu64_id z : 0 <= z < 2 ^ 64 -> wrapu64 z = z.
Proof. apply Z.mod_small. Qed.

Lemma wrapu64_range z : 0 <= wrapu64 z < 2 ^ 64.
Proof. unfold wrapu64. apply Z.mod_pos_bound. lia. Qed.

#[export] Hint Resolve wrap64_range wrapu64_range : golib.
#[export] Hint Rewrite wrap64_id wrapu64_id using (unfold in_int64, min_int64, max_int64; lia) : golib.

(** ** Lemmas on lists *)

Section lists.
Context {A : Type}.
Implicit Types (l : list A).

(** The number of elements satisfying a boolean test. *)
Fixpoint count (p : A -> bool) (l : list A) : nat :=
  match l with
  | [] => 0
  | x :: l' => (if p x then 1 else 0) + count p l'
  end.

Lemma count_app p l1 l2 : count p (l1 ++ l2) = (count p l1 + count p l2)%nat.
Proof. induction l1; simpl; lia. Qed.

Lemma count_le_length p l : (count p l <= length l)%nat.
Proof. induction l; simpl; [lia | destruct (p a); lia]. Qed.

Lemma count_insert p l i x y :
  l !! i = Some x ->
  (count p (<[i:=y]> l) + (if p x then 1 else 0) = count p l + (if p y then 1 else 0))%nat.
Proof.
  revert i. induction l as [|z l IH]; intros [|i] H; simplify_eq/=; [lia |].
  specialize (IH i H). lia.
Qed.

Lemma count_pos p l i x : l !! i = Some x -> p x = true -> (1 <= count p l)%nat.
Proof.
  revert i. induction l as [|z l IH]; intros [|i] H Hp; simplify_eq/=.
  - rewrite Hp. lia.
  - specialize (IH i H Hp). lia.
Qed.

Lemma count_zero p l : Forall (fun x => p x = false) l -> count p l = 0%nat.
Proof. induction 1 as [|x l Hx _ IH]; simpl; [done |]. by rewrite Hx, IH. Qed.

Lemma filter_none (f : A -> bool) l :
  (forall x, x ∈ l -> f x = false) -> filter (fun x => f x = true) l = [].
Proof.
  induction l as [|x l IH]; intros H; [done|]. rewrite filter_cons_False.
  - apply IH. set_solver.
  - rewrite (H x) by set_solver. done.
Qed.

Lemma length_omap_all {B} (f : A -> option B) l :
  (forall x, x ∈ l -> is_Some (f x)) -> length (omap f l) = length l.
Proof.
  induction l as [|x l IH]; intros H; [done|]. simpl.
  destruct (H x) as [y ->]; [set_solver|]. simpl. f_equal. apply IH. set_solver.
Qed.

Lemma Forall_take_lookup (P : A -> Prop) k l :
  Forall P (take k l) <-> forall i x, (i < k)%nat -> l !! i = Some x -> P x.
Proof.
  rewrite Forall_lookup. split; intros H i x.
  - intros Hi Hx. apply (H i). rewrite lookup_take. by case_decide.
  - rewrite lookup_take. case_decide; [|done]. by apply H.
Qed.

End lists.
