(* ===== verification/Float64.v ===== *)
(** * IEEE-754 binary64 numbers

    Go's [float64] as the Standard Library's
    executable specification of binary64: 53 bits of precision, maximal
    exponent 1024, round to nearest even. *)

From stdpp Require Import base tactics.
From Stdlib Require Import ZArith SpecFloat Lia.

Local Open Scope Z_scope.

Definition float64 : Type := spec_float.

Definition float_prec : Z := 53.
Definition float_emax : Z := 1024.

(** The conversion [float64(n)] of an integer. *)
Definition float_of_Z (z : Z) : float64 := binary_normalize float_prec float_emax z 0 false.

Definition fadd (a b : float64) : float64 := SFadd float_prec float_emax a b.
Definition fmul (a b : float64) : float64 := SFmul float_prec float_emax a b.
Definition fdiv (a b : float64) : float64 := SFdiv float_prec float_emax a b.

(** The conversion to an integer truncates toward zero; NaN and infinities have
    no meaningful result. *)
Definition ftrunc (a : float64) : Z :=
  match a with
  | S754_finite s m e =>
      let n := if 0 <=? e then Z.pos m * 2 ^ e else Z.pos m / 2 ^ (- e) in
      if s then - n else n
  | _ => 0
  end.

(** Go's comparison operators; every comparison with NaN is false. *)
Definition fle (a b : float64) : bool := SFleb a b.
Definition flt (a b : float64) : bool := SFltb a b.
Definition feq (a b : float64) : bool := SFeqb a b.

Definition float_nan : float64 := S754_nan.

Lemma fle_nan_l a : fle float_nan a = false.
Proof. by destruct a. Qed.

Lemma flt_nan_r a : flt a float_nan = false.
Proof. by destruct a. Qed.

(** The conversion of a non-negative integer is not negative. *)
Lemma float_of_Z_nonneg z : 0 <= z -> flt (float_of_Z z) (float_of_Z 0) = false.
Proof.
  intros Hz. unfold float_of_Z, binary_normalize, flt. destruct z as [|p|p]; [done| |lia].
  assert (H : forall f, (exists b, f = S754_zero b) \/ f = S754_infinity false \/ f = S754_nan \/
    (exists m e, f = S754_finite false m e) -> SFltb f (S754_zero false) = false).
  { intros f [[[] ->]|[->|[->|(m & e & ->)]]]; done. }
  apply H. unfold binary_round, binary_round_aux. destruct (shl_align _ _ _) as [mz ez].
  destruct (shr_fexp _ _ _ _ _) as [mrs e']. destruct (shr_fexp _ _ _ _ _) as [mrs' e''].
  destruct (shr_m mrs') as [|m|m]; [left; by eexists| |auto]. destruct (_ <=? _); eauto 6.
Qed.
