(* ===== verification/Types.v ===== *)
(** * Data types of ModelGate

    The structs that cross package boundaries (internal/provider/provider.go,
    internal/ratelimit, internal/storage) and the error values of the whole
    program with Go's [errors.Is] and [errors.As]. *)

From stdpp Require Import base gmap list strings.
From Stdlib Require Import ZArith Lia.
From S2P Require Import Prelude Float64.

Local Open Scope Z_scope.

(** ** Chat requests, responses and stream chunks (provider.go) *)

Record ChatMessage : Type := mkChatMessage {
  Role : string;
  Content : string;
}.

Record ChatRequest : Type := mkChatRequest {
  Model : string;
  Messages : list ChatMessage;
  Temperature : option float64;
  TopP : option float64;
  MaxTokens : option Z;
  Stream : bool;
}.

Record ChatUsage : Type := mkChatUsage {
  PromptTokens : Z;
  CompletionTokens : Z;
  TotalTokens : Z;
}.

Record ChatChoice : Type := mkChatChoice {
  choice_Index : Z;
  choice_Message : ChatMessage;
  choice_FinishReason : string;
}.

Record ChatResponse : Type := mkChatResponse {
  resp_Provider : string;
  resp_ID : string;
  resp_Object : string;
  resp_Created : Z;
  resp_Model : string;
  resp_Choices : list ChatChoice;
  resp_Usage : ChatUsage;
}.

Record ChatDelta : Type := mkChatDelta {
  delta_Role : string;
  delta_Content : string;
}.

Record ChatStreamChoice : Type := mkChatStreamChoice {
  schoice_Index : Z;
  schoice_Delta : ChatDelta;
  schoice_FinishReason : option string;
}.

Record ChatStreamChunk : Type := mkChatStreamChunk {
  chunk_ID : string;
  chunk_Object : string;
  chunk_Created : Z;
  chunk_Model : string;
  chunk_Choices : list ChatStreamChoice;
  chunk_Usage : option ChatUsage;
}.

#[export] Instance ChatUsage_eq_dec : EqDecision ChatUsage.
Proof. solve_decision. Defined.
#[export] Instance ChatDelta_eq_dec : EqDecision ChatDelta.
Proof. solve_decision. Defined.
#[export] Instance ChatStreamChoice_eq_dec : EqDecision ChatStreamChoice.
Proof. solve_decision. Defined.
#[export] Instance ChatStreamChunk_eq_dec : EqDecision ChatStreamChunk.
Proof. solve_decision. Defined.

(** [response.Provider = name] *)
Definition set_resp_Provider (name : string) (r : ChatResponse) : ChatResponse :=
  mkChatResponse name (resp_ID r) (resp_Object r) (resp_Created r) (resp_Model r)
    (resp_Choices r) (resp_Usage r).

(** The zero value of [ChatUsage]. *)
Definition zeroUsage : ChatUsage := mkChatUsage 0 0 0.

(** ** Rate-limit decisions (ratelimit/redis.go) *)

Record Decision : Type := mkDecision {
  Allowed : bool;
  Limit : Z;
  Remaining : Z;
  RetryAfter : Z;
}.

(** [Decision{}] *)
Definition zeroDecision : Decision := mkDecision false 0 0 0.

(** ** Error values *)

(** The package-level error variables that the code compares with
    [errors.Is]: context.Canceled, context.DeadlineExceeded, io.EOF,
    io.ErrUnexpectedEOF, circuitbreaker.ErrOpen,
    routing.ErrNoHealthyProviders, redisstore.ErrNotFound and redis.Nil. *)
Inductive sentinel : Type :=
| Canceled
| DeadlineExceeded
| EOF
| ErrUnexpectedEOF
| ErrOpen
| ErrNoHealthyProviders
| ErrNotFound
| RedisNil.

#[export] Instance sentinel_eq_dec : EqDecision sentinel.
Proof. solve_decision. Defined.

Inductive ErrorKind : Type :=
| ErrorKindNone
| ErrorKindHTTPStatus
| ErrorKindNetwork
| ErrorKindInvalidResponse
| ErrorKindUnavailable.

#[export] Instance ErrorKind_eq_dec : EqDecision ErrorKind.
Proof. solve_decision. Defined.

(** [provider.UpstreamError]; [E] is the type of its [Cause]. *)
Record UpstreamErrorOf (E : Type) : Type := mkUpstreamError {
  ue_Provider : string;
  ue_Operation : string;
  ue_Kind : ErrorKind;
  ue_StatusCode : Z;
  ue_Retryable : bool;
  ue_Cause : option E;
}.
Arguments mkUpstreamError {E} _ _ _ _ _ _.
Arguments ue_Provider {E} _.
Arguments ue_Operation {E} _.
Arguments ue_Kind {E} _.
Arguments ue_StatusCode {E} _.
Arguments ue_Retryable {E} _.
Arguments ue_Cause {E} _.

(** The error values the program creates, inspects or receives. *)
#[warnings="-register-all"]
Inductive error : Type :=
| ESentinel (s : sentinel)
(** errors.New / fmt.Errorf without %w *)
| EText (msg : string)
(** fmt.Errorf with one %w *)
| EWrap (msg : string) (cause : error)
| EUpstream (u : UpstreamErrorOf error)
| EValidation (code message : string)
| EIdempotency (code : string)
| EDependency (code : string) (cause : option error)
| ERateLimit (d : Decision)
(** *net.DNSError, *net.OpError, and any other net.Error such as *url.Error *)
| EDNS (isTimeout : bool) (cause : option error)
| ENetOp (op : string) (timeout : bool) (cause : option error)
| ENet (timeout : bool) (cause : option error).

Abbreviation UpstreamError := (UpstreamErrorOf error).

(** [errors.Unwrap]: the next error of the chain. *)
Definition Unwrap (e : error) : option error :=
  match e with
  | EWrap _ c => Some c
  | EUpstream u => ue_Cause u
  | EDependency _ c | EDNS _ c | ENetOp _ _ c | ENet _ c => c
  | _ => None
  end.

(** Walk the chain of an error and return the first result of [f]. *)
Fixpoint find_chain {A} (f : error -> option A) (e : error) {struct e} : option A :=
  match f e with
  | Some a => Some a
  | None =>
      match e with
      | EWrap _ c => find_chain f c
      | EUpstream u =>
          match u with
          | mkUpstreamError _ _ _ _ _ (Some c) => find_chain f c
          | _ => None
          end
      | EDependency _ (Some c) | EDNS _ (Some c) | ENetOp _ _ (Some c) | ENet _ (Some c) =>
          find_chain f c
      | _ => None
      end
  end.

(** [errors.Is(err, target)] for a sentinel target, on a non-nil error. *)
Definition errors_Is (e : error) (s : sentinel) : bool :=
  match
    find_chain (fun e => match e with
                         | ESentinel s' => if decide (s' = s) then Some tt else None
                         | _ => None
                         end) e
  with Some _ => true | None => false end.

(** [errors.As(err, &upstreamErr)] and its siblings. *)
Definition as_upstream (e : error) : option UpstreamError :=
  find_chain (fun e => match e with EUpstream u => Some u | _ => None end) e.
Definition as_validation (e : error) : option (string * string) :=
  find_chain (fun e => match e with EValidation c m => Some (c, m) | _ => None end) e.
Definition as_idempotency (e : error) : option string :=
  find_chain (fun e => match e with EIdempotency c => Some c | _ => None end) e.
Definition as_dependency (e : error) : option (string * option error) :=
  find_chain (fun e => match e with EDependency c x => Some (c, x) | _ => None end) e.
Definition as_ratelimit (e : error) : option Decision :=
  find_chain (fun e => match e with ERateLimit d => Some d | _ => None end) e.
Definition as_dns (e : error) : option bool :=
  find_chain (fun e => match e with EDNS b _ => Some b | _ => None end) e.

(** [errors.As(err, &netErr)] finds the first error that implements
    [net.Error]; the result is its [Timeout()]. [context.DeadlineExceeded]
    implements the interface with [Timeout() == true]. *)
Definition as_net (e : error) : option bool :=
  find_chain (fun e => match e with
                       | EDNS b _ | ENetOp _ b _ | ENet b _ => Some b
                       | ESentinel DeadlineExceeded => Some true
                       | _ => None
                       end) e.
Definition as_netop (e : error) : option string :=
  find_chain (fun e => match e with ENetOp op _ _ => Some op | _ => None end) e.

(** ** Lemmas *)

(** Unfolding the chain walk one link at a time. *)
Lemma find_chain_unfold {A} (f : error -> option A) e :
  find_chain f e =
    match f e with
    | Some a => Some a
    | None => match Unwrap e with Some c => find_chain f c | None => None end
    end.
Proof.
  destruct e as [| | |[? ? ? ? ? []]| | |? []| |? []|? ? []|? []]; simpl; by destruct (f _).
Qed.

