(* ===== verification/GoStrings.v ===== *)
(** * Go strings

    The functions of the packages strings, unicode, unicode/utf8, strconv and
    encoding/hex that the program calls. A Go string is a sequence of bytes, so
    it is a [string] of the Standard Library, whose characters are bytes. *)

From stdpp Require Import base list strings pretty.
From Stdlib Require Import ZArith Ascii Lia.
From S2P Require Import Prelude.

Local Open Scope Z_scope.

(** ** Bytes *)

Definition byte_of (c : ascii) : Z := Z.of_N (N_of_ascii c).
Definition of_byte (z : Z) : ascii := ascii_of_N (Z.to_N z).

Definition bytes_of (s : string) : list Z := map byte_of (String.list_ascii_of_string s).
Definition of_bytes (l : list Z) : string := String.string_of_list_ascii (map of_byte l).

(** [len(s)] *)
Definition len (s : string) : Z := Z.of_nat (String.length s).

(** ** UTF-8 *)

Definition RuneError : Z := 65533.

Definition in_range (lo hi b : Z) : bool := (lo <=? b) && (b <=? hi).

(** A continuation byte, and its six payload bits. *)
Definition is_cont (b : Z) : bool := in_range 128 191 b.
Definition payload (b : Z) : Z := Z.land b 63.

(** [utf8.DecodeRune]: the first rune and its width. *)
Definition DecodeRune (l : list Z) : Z * nat :=
  match l with
  | [] => (RuneError, 0%nat)
  | b0 :: r =>
      if b0 <? 128 then (b0, 1%nat)
      else if in_range 194 223 b0 then
        match r with
        | b1 :: _ =>
            if is_cont b1 then (Z.lor (Z.shiftl (Z.land b0 31) 6) (payload b1), 2%nat)
            else (RuneError, 1%nat)
        | _ => (RuneError, 1%nat)
        end
      else if in_range 224 239 b0 then
        match r with
        | b1 :: b2 :: _ =>
            if in_range (if b0 =? 224 then 160 else 128) (if b0 =? 237 then 159 else 191) b1
               && is_cont b2
            then (Z.lor (Z.lor (Z.shiftl (Z.land b0 15) 12) (Z.shiftl (payload b1) 6)) (payload b2),
                  3%nat)
            else (RuneError, 1%nat)
        | _ => (RuneError, 1%nat)
        end
      else if in_range 240 244 b0 then
        match r with
        | b1 :: b2 :: b3 :: _ =>
            if in_range (if b0 =? 240 then 144 else 128) (if b0 =? 244 then 143 else 191) b1
               && is_cont b2 && is_cont b3
            then (Z.lor (Z.lor (Z.shiftl (Z.land b0 7) 18) (Z.shiftl (payload b1) 12))
                    (Z.lor (Z.shiftl (payload b2) 6) (payload b3)), 4%nat)
            else (RuneError, 1%nat)
        | _ => (RuneError, 1%nat)
        end
      else (RuneError, 1%nat)
  end.

(** [utf8.DecodeLastRune]: the last rune and its width; the lead byte is
    searched at most four bytes back. *)
Definition DecodeLastRune (l : list Z) : Z * nat :=
  match last l with
  | None => (RuneError, 0%nat)
  | Some b =>
      if b <? 128 then (b, 1%nat)
      else
        let n := length l in
        let starts k := (k <=? n)%nat &&
          match l !! (n - k)%nat with Some c => negb (is_cont c) | None => false end in
        match List.find starts [2; 3; 4]%nat with
        | Some k =>
            let '(r, size) := DecodeRune (drop (n - k) l) in
            if (size =? k)%nat then (r, k) else (RuneError, 1%nat)
        | None => (RuneError, 1%nat)
        end
  end.

(** The runes a [for _, r := range s] loop visits; [skip] bytes of the current
    rune are still to be passed over. *)
Fixpoint runes_from (skip : nat) (l : list Z) : list Z :=
  match l with
  | [] => []
  | _ :: l' =>
      match skip with
      | S skip => runes_from skip l'
      | O => let '(r, n) := DecodeRune l in r :: runes_from (n - 1) l'
      end
  end.

Definition runes (s : string) : list Z := runes_from 0 (bytes_of s).

(** [unicode.IsSpace] *)
Definition IsSpace (r : Z) : bool :=
  in_range 9 13 r || (r =? 32) || (r =? 133) || (r =? 160) || (r =? 5760) ||
  in_range 8192 8202 r || (r =? 8232) || (r =? 8233) || (r =? 8239) || (r =? 8287) || (r =? 12288).

Fixpoint trim_left (fuel : nat) (l : list Z) : list Z :=
  match fuel, l with
  | S fuel, _ :: _ =>
      let '(r, n) := DecodeRune l in
      if IsSpace r then trim_left fuel (drop n l) else l
  | _, _ => l
  end.

Fixpoint trim_right (fuel : nat) (l : list Z) : list Z :=
  match fuel, l with
  | S fuel, _ :: _ =>
      let '(r, n) := DecodeLastRune l in
      if IsSpace r then trim_right fuel (take (length l - n) l) else l
  | _, _ => l
  end.

(** [strings.TrimSpace] *)
Definition TrimSpace (s : string) : string :=
  let l := bytes_of s in
  let l := trim_left (length l) l in
  of_bytes (trim_right (length l) l).

(** Membership of an ASCII character in a set of ASCII characters:
    [strings.ContainsRune]. *)
Definition ContainsRune (set : string) (r : Z) : bool :=
  existsb (fun b => b =? r) (bytes_of set).

(** ** Parts of strings *)

(** [strings.HasPrefix], [TrimPrefix], [HasSuffix], [TrimSuffix] *)
Definition HasPrefix (s p : string) : bool := String.prefix p s.

Definition TrimPrefix (s p : string) : string :=
  if HasPrefix s p then String.substring (String.length p) (String.length s - String.length p) s
  else s.

Definition HasSuffix (s p : string) : bool :=
  let n := String.length s in
  let k := String.length p in
  (k <=? n)%nat && String.eqb (String.substring (n - k) k s) p.

Definition TrimSuffix (s p : string) : string :=
  if HasSuffix s p then String.substring 0 (String.length s - String.length p) s else s.

(** [strings.Split(s, sep)] for a one-byte separator. *)
Fixpoint Split (s : string) (sep : ascii) : list string :=
  match s with
  | EmptyString => [EmptyString]
  | String c s' =>
      if Ascii.eqb c sep then EmptyString :: Split s' sep
      else
        match Split s' sep with
        | [] => [String c EmptyString]
        | w :: ws => String c w :: ws
        end
  end.

(** [strings.Cut(s, sep)] for a one-byte separator. *)
Fixpoint Cut (s : string) (sep : ascii) : string * string * bool :=
  match s with
  | EmptyString => (EmptyString, EmptyString, false)
  | String c s' =>
      if Ascii.eqb c sep then (EmptyString, s', true)
      else let '(before, after, found) := Cut s' sep in (String c before, after, found)
  end.

(** [strings.Join] *)
Definition Join (l : list string) (sep : string) : string := String.concat sep l.

(** [strings.Fields]: [cur] is the field so far; [skip] bytes of the current rune
    are still to come, and [keep] tells whether they belong to the field. *)
Fixpoint fields_from (skip : nat) (keep : bool) (cur : list Z) (l : list Z) : list (list Z) :=
  match l with
  | [] => if bool_decide (cur = []) then [] else [cur]
  | b :: l' =>
      match skip with
      | S skip => fields_from skip keep (if keep then cur ++ [b] else cur) l'
      | O =>
          let '(r, n) := DecodeRune l in
          if IsSpace r then
            (if bool_decide (cur = []) then [] else [cur]) ++ fields_from (n - 1) false [] l'
          else fields_from (n - 1) true (cur ++ [b]) l'
      end
  end.

Definition Fields (s : string) : list string := of_bytes <$> fields_from 0 false [] (bytes_of s).

(** [strings.TrimRight(s, c)] for a single ASCII character. *)
Fixpoint TrimRight (s : string) (c : ascii) : string :=
  match s with
  | EmptyString => EmptyString
  | String x s' =>
      match TrimRight s' c with
      | EmptyString => if Ascii.eqb x c then EmptyString else String x EmptyString
      | t => String x t
      end
  end.

(** ** Numbers *)

(** [strconv.Itoa], [strconv.FormatInt(_, 10)] and the verb [%d] *)
Definition Itoa (z : Z) : string := pretty z.

Definition digit_of (c : ascii) : option Z :=
  let b := byte_of c in if in_range 48 57 b then Some (b - 48) else None.

Fixpoint parse_digits (acc : Z) (s : string) : option Z :=
  match s with
  | EmptyString => Some acc
  | String c s' =>
      match digit_of c with
      | Some d => parse_digits (acc * 10 + d) s'
      | None => None
      end
  end.

(** [strconv.ParseInt(s, 10, 64)] and [strconv.Atoi]: an optional sign and at
    least one decimal digit; a value out of range is an error. *)
Definition ParseInt (s : string) : option Z :=
  let '(sign, digits) :=
    match s with
    | String c s' =>
        if Ascii.eqb c "-" then (-1, s') else if Ascii.eqb c "+" then (1, s') else (1, s)
    | EmptyString => (1, s)
    end in
  match digits with
  | EmptyString => None
  | _ =>
      match parse_digits 0 digits with
      | Some n =>
          let v := sign * n in
          if (min_int64 <=? v) && (v <=? max_int64) then Some v else None
      | None => None
      end
  end.

(** [hex.EncodeToString] *)
Definition hex_digit (n : Z) : ascii :=
  if n <? 10 then of_byte (48 + n) else of_byte (87 + n).

Fixpoint EncodeToString (l : list Z) : string :=
  match l with
  | [] => EmptyString
  | b :: l =>
      String (hex_digit (Z.shiftr b 4)) (String (hex_digit (Z.land b 15)) (EncodeToString l))
  end.

(** ** Lemmas *)

Lemma byte_of_range c : 0 <= byte_of c < 256.
Proof. unfold byte_of. pose proof (N_ascii_bounded c). lia. Qed.

Lemma of_byte_of c : of_byte (byte_of c) = c.
Proof. unfold of_byte, byte_of. by rewrite N2Z.id, ascii_N_embedding. Qed.

Lemma byte_of_of_byte z : 0 <= z < 256 -> byte_of (of_byte z) = z.
Proof. intros H. unfold of_byte, byte_of. rewrite N_ascii_embedding; lia. Qed.

Lemma of_bytes_of s : of_bytes (bytes_of s) = s.
Proof.
  unfold of_bytes, bytes_of. rewrite map_map.
  rewrite (map_ext _ id) by (intros; apply of_byte_of). rewrite map_id.
  apply String.string_of_list_ascii_of_string.
Qed.

Lemma bytes_of_range s : Forall (fun b => 0 <= b < 256) (bytes_of s).
Proof.
  unfold bytes_of. apply Forall_forall. intros b Hb.
  apply list_elem_of_In, in_map_iff in Hb as (c & <- & _). apply byte_of_range.
Qed.

Lemma TrimSpace_examples :
  TrimSpace "  a b	" = "a b" /\ TrimSpace "   " = "" /\ TrimSpace "x" = "x" /\
  TrimSpace (of_bytes [194; 160; 65; 227; 128; 128]) = "A".
Proof. by vm_compute. Qed.

(** Two byte strings with the same hexadecimal form are equal. *)
Lemma hex_digit_inj a b : 0 <= a < 16 -> 0 <= b < 16 -> hex_digit a = hex_digit b -> a = b.
Proof.
  unfold hex_digit. intros Ha Hb H.
  destruct (Z.ltb_spec a 10), (Z.ltb_spec b 10);
    apply (f_equal byte_of) in H; rewrite !byte_of_of_byte in H; lia.
Qed.

Lemma nibbles b : 0 <= b < 256 ->
  0 <= Z.shiftr b 4 < 16 /\ 0 <= Z.land b 15 < 16 /\ b = 16 * Z.shiftr b 4 + Z.land b 15.
Proof.
  intros H. rewrite Z.shiftr_div_pow2 by lia. change 15 with (Z.ones 4).
  rewrite Z.land_ones by lia. change (2 ^ 4) with 16.
  pose proof (Z.div_mod b 16 ltac:(lia)). pose proof (Z.mod_pos_bound b 16 ltac:(lia)).
  split_and!; lia.
Qed.

Lemma EncodeToString_inj l1 l2 :
  Forall (fun b => 0 <= b < 256) l1 -> Forall (fun b => 0 <= b < 256) l2 ->
  EncodeToString l1 = EncodeToString l2 -> l1 = l2.
Proof.
  intros H1. revert l2. induction H1 as [|a l1 Ha _ IH]; intros l2 H2 E;
    destruct H2 as [|b l2 Hb H2]; simpl in E; try done.
  injection E as E1 E2 E3. destruct (nibbles a Ha) as (?&?&?), (nibbles b Hb) as (?&?&?).
  apply hex_digit_inj in E1; [|lia|lia]. apply hex_digit_inj in E2; [|lia|lia].
  f_equal; [lia|]. by apply IH.
Qed.

(** Concatenation and parts. *)

Lemma substring_0_app a b : String.substring 0 (String.length a) (a +:+ b) = a.
Proof. induction a as [|c a IH]; simpl; [by destruct b|by rewrite IH]. Qed.

Lemma substring_app a b n : String.substring (String.length a) n (a +:+ b) = String.substring 0 n b.
Proof. induction a as [|c a IH]; simpl; [done|by rewrite IH]. Qed.

Lemma substring_all a : String.substring 0 (String.length a) a = a.
Proof. induction a as [|c a IH]; simpl; [done|by rewrite IH]. Qed.

Lemma length_append a b : String.length (a +:+ b) = (String.length a + String.length b)%nat.
Proof. induction a as [|c a IH]; simpl; [done|by rewrite IH]. Qed.

Lemma append_assoc a b c : a +:+ b +:+ c = (a +:+ b) +:+ c.
Proof.
  induction a as [|x a IH]; [done|].
  change (String x (a +:+ b +:+ c) = String x ((a +:+ b) +:+ c)). by rewrite IH.
Qed.

Lemma append_empty_r a : a +:+ "" = a.
Proof. induction a as [|x a IH]; [done|]. change (String x (a +:+ "") = String x a). by rewrite IH. Qed.

Lemma bytes_of_app s t : bytes_of (s +:+ t) = bytes_of s ++ bytes_of t.
Proof.
  induction s as [|c s IH]; [done|]. unfold bytes_of in *. simpl. f_equal. apply IH.
Qed.

Lemma TrimSuffix_app a b : TrimSuffix (a +:+ b) b = a.
Proof.
  unfold TrimSuffix, HasSuffix. rewrite length_append.
  replace (String.length a + String.length b - String.length b)%nat with (String.length a) by lia.
  rewrite substring_app, substring_all, String.eqb_refl.
  rewrite (proj2 (Nat.leb_le _ _)) by lia. simpl. apply substring_0_app.
Qed.

Lemma TrimSuffix_none a b : HasSuffix a b = false -> TrimSuffix a b = a.
Proof. unfold TrimSuffix. by intros ->. Qed.

Lemma TrimPrefix_space s : TrimPrefix (String " " s) " " = s.
Proof. unfold TrimPrefix, HasPrefix. simpl. rewrite Nat.sub_0_r. destruct s; simpl; [done|]. by rewrite substring_all. Qed.

(** A text without the separator is cut at the end of it. *)
Lemma Cut_app a b sep :
  Forall (fun x => x <> byte_of sep) (bytes_of a) -> Cut (a +:+ String sep b) sep = (a, b, true).
Proof.
  induction a as [|c a IH]; simpl; intros H.
  - by rewrite Ascii.eqb_refl.
  - apply Forall_cons in H as [Hc H]. rewrite IH by done.
    destruct (Ascii.eqb_spec c sep) as [->|]; done.
Qed.
Lemma substring_split k s : (k <= String.length s)%nat ->
  s = String.substring 0 k s +:+ String.substring k (String.length s - k) s.
Proof.
  revert k. induction s as [|c s IH]; intros [|k] Hk; simpl in *; try done; try lia.
  - by rewrite substring_all.
  - change (String c s = String c (String.substring 0 k s +:+ String.substring k (String.length s - k) s)).
    by rewrite <-IH by lia.
Qed.

Lemma HasSuffix_split s p : HasSuffix s p = true -> exists a, s = a +:+ p.
Proof.
  unfold HasSuffix. intros [Hle%Nat.leb_le Heq%String.eqb_eq]%andb_true_iff.
  exists (String.substring 0 (String.length s - String.length p) s).
  rewrite <-Heq at 2.
  replace (String.length p) with (String.length s - (String.length s - String.length p))%nat at 3 by lia.
  apply substring_split. lia.
Qed.

(** ** ASCII texts *)

Lemma lor_128 a b : 0 <= a -> 0 <= b -> 128 <= a \/ 128 <= b -> 128 <= Z.lor a b.
Proof.
  intros Ha Hb H. assert (7 <= Z.log2 (Z.lor a b)) as Hlog.
  { rewrite Z.log2_lor by done. change 7 with (Z.log2 128).
    destruct H as [H|H]; apply Z.log2_le_mono in H; lia. }
  destruct (Z.le_gt_cases (Z.lor a b) 0) as [Hle|Hgt]; [rewrite Z.log2_nonpos in Hlog by lia; lia|].
  apply Z.log2_le_pow2 in Hlog; [done|done].
Qed.

(** The low bits of a byte. *)
Lemma land_low b k m : 0 <= k -> m * 2 ^ k <= b < (m + 1) * 2 ^ k -> Z.land b (Z.ones k) = b - m * 2 ^ k.
Proof.
  intros Hk Hb. rewrite Z.land_ones by done. symmetry. apply (Z.mod_unique_pos _ _ m); nia.
Qed.

(** A rune below 128 is a single byte. *)
Lemma DecodeRune_ascii b l r n : DecodeRune (b :: l) = (r, n) -> r < 128 -> r = b /\ n = 1%nat.
Proof.
  unfold DecodeRune. destruct (Z.ltb_spec b 128); [by intros [= <- <-]|]. unfold in_range, is_cont, payload.
  assert (Herr : forall r n, (RuneError, 1%nat) = (r, n) -> r < 128 -> r = b /\ n = 1%nat).
  { intros ? ? [= <- <-]. unfold RuneError. lia. }
  assert (Hpos : forall a c k, 0 <= c -> 0 <= Z.shiftl (Z.land a c) k).
  { intros a c k Hc. apply Z.shiftl_nonneg, Z.land_nonneg. by right. }
  destruct ((194 <=? b) && (b <=? 223)) eqn:E2.
  { apply andb_true_iff in E2 as [?%Z.leb_le ?%Z.leb_le]. destruct l as [|b1 l]; [apply Herr|].
    destruct (in_range 128 191 b1); [|apply Herr]. intros [= <- <-] Hr. exfalso.
    assert (128 <= Z.lor (Z.shiftl (Z.land b 31) 6) (Z.land b1 63)); [|lia].
    apply lor_128; [by apply Hpos|apply Z.land_nonneg; by right|left].
    change 31 with (Z.ones 5). rewrite (land_low b 5 6) by lia. rewrite Z.shiftl_mul_pow2 by done. lia. }
  destruct ((224 <=? b) && (b <=? 239)) eqn:E3.
  { apply andb_true_iff in E3 as [?%Z.leb_le ?%Z.leb_le]. destruct l as [|b1 [|b2 l]]; [apply Herr..|].
    destruct (_ && _ && _) eqn:E; [|apply Herr]. intros [= <- <-] Hr. exfalso.
    apply andb_true_iff in E as [[E1%Z.leb_le E1'%Z.leb_le]%andb_true_iff _].
    assert (128 <= Z.lor (Z.lor (Z.shiftl (Z.land b 15) 12) (Z.shiftl (Z.land b1 63) 6)) (Z.land b2 63)); [|lia].
    apply lor_128; [apply Z.lor_nonneg; split; by apply Hpos|apply Z.land_nonneg; by right|left].
    apply lor_128; [by apply Hpos..|]. change 15 with (Z.ones 4). change 63 with (Z.ones 6).
    rewrite (land_low b 4 14), !Z.shiftl_mul_pow2 by lia.
    destruct (Z.eqb_spec b 224) as [->|]; [right|left; lia].
    rewrite (land_low b1 6 2) by (destruct (224 =? 237); lia). lia. }
  destruct ((240 <=? b) && (b <=? 244)) eqn:E4; [|apply Herr].
  apply andb_true_iff in E4 as [?%Z.leb_le ?%Z.leb_le]. destruct l as [|b1 [|b2 [|b3 l]]]; [apply Herr..|].
  destruct (_ && _ && _ && _) eqn:E; [|apply Herr]. intros [= <- <-] Hr. exfalso.
  apply andb_true_iff in E as [[[E1%Z.leb_le E1'%Z.leb_le]%andb_true_iff _]%andb_true_iff _].
  assert (128 <= Z.lor (Z.lor (Z.shiftl (Z.land b 7) 18) (Z.shiftl (Z.land b1 63) 12))
                  (Z.lor (Z.shiftl (Z.land b2 63) 6) (Z.land b3 63))); [|lia].
  apply lor_128; [apply Z.lor_nonneg; split; by apply Hpos
    |apply Z.lor_nonneg; split; [by apply Hpos|apply Z.land_nonneg; by right]|left].
  apply lor_128; [by apply Hpos..|]. change 7 with (Z.ones 3). change 63 with (Z.ones 6).
  rewrite (land_low b 3 30), !Z.shiftl_mul_pow2 by lia.
  destruct (Z.eqb_spec b 240) as [->|]; [right|left; lia].
  rewrite (land_low b1 6 2) by (destruct (240 =? 244); lia). lia.
Qed.

(** A text whose runes are all below 128 has these runes as its bytes. *)
Lemma runes_ascii s : Forall (fun r => r < 128) (runes s) -> runes s = bytes_of s.
Proof.
  unfold runes. induction (bytes_of s) as [|b l IH]; [done|]. cbn [runes_from].
  destruct (DecodeRune (b :: l)) as [r n] eqn:E. intros [Hr H]%Forall_cons.
  destruct (DecodeRune_ascii _ _ _ _ E Hr) as [-> ->]. simpl in *. by rewrite IH.
Qed.

Lemma ascii_runes s : Forall (fun b => b < 128) (bytes_of s) -> runes s = bytes_of s.
Proof.
  unfold runes. induction 1 as [|b l Hb _ IH]; [done|]. cbn [runes_from].
  assert (E : DecodeRune (b :: l) = (b, 1%nat)) by (unfold DecodeRune; by rewrite (proj2 (Z.ltb_lt _ _))).
  rewrite E. simpl. by rewrite IH.
Qed.

(** A printing character. *)
Definition visible (b : Z) : Prop := 32 < b < 128.

Lemma visible_not_space b : visible b -> IsSpace b = false.
Proof.
  unfold visible, IsSpace, in_range. intros H.
  repeat match goal with |- context [?x <=? ?y] => destruct (Z.leb_spec x y); try lia
         | |- context [?x =? ?y] => destruct (Z.eqb_spec x y); try lia end; done.
Qed.

(** A text is not trimmed if its ends are no spaces. *)
Lemma TrimSpace_ends s b l c m :
  bytes_of s = b :: l -> bytes_of s = m ++ [c] -> visible b -> visible c -> TrimSpace s = s.
Proof.
  intros Eb Ec Hb Hc. unfold visible in Hb, Hc. unfold TrimSpace.
  assert (Hl : trim_left (length (bytes_of s)) (bytes_of s) = bytes_of s).
  { rewrite Eb. cbn [length trim_left].
    assert (E : DecodeRune (b :: l) = (b, 1%nat)) by (unfold DecodeRune; by rewrite (proj2 (Z.ltb_lt _ _)) by lia).
    by rewrite E, visible_not_space. }
  rewrite Hl.
  assert (Hr : trim_right (length (bytes_of s)) (bytes_of s) = bytes_of s).
  { rewrite Ec, length_app, Nat.add_comm. cbn [length Nat.add trim_right].
    assert (E : DecodeLastRune (m ++ [c]) = (c, 1%nat))
      by (unfold DecodeLastRune; by rewrite last_snoc, (proj2 (Z.ltb_lt _ _)) by lia).
    rewrite E, visible_not_space by done. by destruct m. }
  rewrite Hr. apply of_bytes_of.
Qed.

(** A text without spaces is not trimmed. *)
Lemma TrimSpace_visible s : Forall visible (bytes_of s) -> TrimSpace s = s.
Proof.
  intros H. destruct (bytes_of s) as [|b l] eqn:Eb.
  { rewrite <-(of_bytes_of s), Eb. done. }
  destruct (exists_last (l := bytes_of s)) as (m & c & Ec); [by rewrite Eb|].
  apply (TrimSpace_ends s b l c m Eb Ec); [by apply Forall_cons in H as [? _]|].
  rewrite <-Eb, Ec in H. by apply Forall_app in H as [_ [? _]%Forall_cons].
Qed.

Lemma hex_visible l : Forall (fun b => 0 <= b < 256) l -> Forall visible (bytes_of (EncodeToString l)).
Proof.
  assert (Hd : forall n, 0 <= n < 16 -> visible (byte_of (hex_digit n))).
  { intros n Hn. unfold hex_digit, visible. destruct (Z.ltb_spec n 10); rewrite byte_of_of_byte; lia. }
  induction 1 as [|b l Hb _ IH]; [constructor|]. destruct (nibbles b Hb) as (H1 & H2 & _).
  constructor; [by apply Hd|]. constructor; [by apply Hd|done].
Qed.

(** The fields of words joined by single spaces are the words. *)
Lemma fields_word cur w l : Forall visible w ->
  fields_from 0 true cur (w ++ l) = fields_from 0 true (cur ++ w) l /\
  (w <> [] -> fields_from 0 false cur (w ++ l) = fields_from 0 true (cur ++ w) l).
Proof.
  intros H. revert cur. induction H as [|b w Hb H IH]; intros cur; [by rewrite app_nil_r|].
  assert (E : DecodeRune (b :: w ++ l) = (b, 1%nat))
    by (unfold visible in Hb; unfold DecodeRune; by rewrite (proj2 (Z.ltb_lt _ _)) by lia).
  change ((b :: w) ++ l) with (b :: w ++ l). cbn [fields_from]. rewrite E, visible_not_space by done.
  change (1 - 1)%nat with 0%nat. destruct (IH (cur ++ [b])) as [-> _]. by rewrite <-app_assoc.
Qed.

Definition word (w : string) : Prop := w <> "" /\ Forall visible (bytes_of w).

Lemma bytes_of_nil s : bytes_of s = [] -> s = "".
Proof. intros H. by rewrite <-(of_bytes_of s), H. Qed.

Lemma Fields_Join ws : Forall word ws -> Fields (Join ws " ") = ws.
Proof.
  unfold Fields, Join. induction 1 as [|w ws [Hne Hv] H IH]; [done|].
  assert (Hb : bytes_of w <> []) by (by intros ?%bytes_of_nil). destruct ws as [|w' ws].
  - change (String.concat " " [w]) with w. rewrite <-(app_nil_r (bytes_of w)).
    rewrite (proj2 (fields_word [] _ [] Hv) Hb). cbn [fields_from]. rewrite bool_decide_false by done.
    simpl. by rewrite of_bytes_of.
  - change (String.concat " " (w :: w' :: ws)) with (w +:+ " " +:+ String.concat " " (w' :: ws)).
    rewrite bytes_of_app, (proj2 (fields_word [] _ _ Hv) Hb), bytes_of_app.
    change (bytes_of " ") with [32]. cbn [app]. cbn [fields_from].
    change (DecodeRune (32 :: ?l)) with (32, 1%nat). cbn iota. change (IsSpace 32) with true. cbn iota.
    rewrite bool_decide_false by done. change (1 - 1)%nat with 0%nat. cbn [app]. rewrite fmap_cons, IH, of_bytes_of. done.
Qed.

(** Splitting undoes joining, if no part contains the separator. *)
Lemma Split_none a sep : Forall (fun b => b <> byte_of sep) (bytes_of a) -> Split a sep = [a].
Proof.
  induction a as [|c a IH]; [done|]. intros [Hc H]%Forall_cons. simpl.
  destruct (Ascii.eqb_spec c sep) as [->|]; [done|]. by rewrite IH.
Qed.

Lemma Split_app a b sep :
  Forall (fun b => b <> byte_of sep) (bytes_of a) -> Split (a +:+ String sep b) sep = a :: Split b sep.
Proof.
  induction a as [|c a IH]; intros H.
  - simpl. by rewrite Ascii.eqb_refl.
  - apply Forall_cons in H as [Hc H]. change (String c a +:+ String sep b) with (String c (a +:+ String sep b)).
    cbn [Split]. rewrite IH by done. destruct (Ascii.eqb_spec c sep) as [->|]; done.
Qed.

Lemma Split_Join l sep :
  l <> [] -> Forall (fun a => Forall (fun b => b <> byte_of sep) (bytes_of a)) l ->
  Split (Join l (String sep EmptyString)) sep = l.
Proof.
  intros Hne H. induction H as [|a l Ha H IH]; [done|]. destruct l as [|b l]; [by apply Split_none|].
  change (Join (a :: b :: l) (String sep "")) with (a +:+ String sep (Join (b :: l) (String sep ""))).
  rewrite Split_app by done. by rewrite IH.
Qed.

Lemma Split_not_nil s sep : Split s sep <> [].
Proof. destruct s as [|c s]; simpl; [done|]. case_match; [done|]. by case_match. Qed.

(** ** Trimming a trimmed text *)

(** The end of a text is not a space. *)
Definition solid (l : list Z) : Prop := l <> [] /\ IsSpace (DecodeLastRune l).1 = false.

(** The distance from the end to the lead byte of the last rune. *)
Definition lead (l : list Z) : option nat :=
  List.find (fun k => (k <=? length l)%nat &&
    match l !! (length l - k)%nat with Some c => negb (is_cont c) | None => false end) [2; 3; 4]%nat.

Lemma lead_app p l : lead l = None \/ lead (p ++ l) = lead l /\ exists k, lead l = Some k /\ (k <= length l)%nat.
Proof.
  unfold lead.
  assert (Hin : forall j, (j <= length l)%nat -> (p ++ l) !! (length (p ++ l) - j)%nat = l !! (length l - j)%nat).
  { intros j Hj. rewrite length_app, lookup_app_r by lia. f_equal. lia. }
  cbn [List.find].
  destruct (Nat.leb_spec 2 (length l)) as [H2|H2]; cbn [andb].
  2:{ rewrite !(proj2 (Nat.leb_gt _ _)) by lia. by left. }
  rewrite (proj2 (Nat.leb_le 2 (length (p ++ l)))), (Hin 2%nat) by (rewrite ?length_app; lia). cbn [andb].
  destruct (match l !! (length l - 2)%nat with Some c => negb (is_cont c) | None => false end);
    [right; split; [done|]; by exists 2%nat|].
  destruct (Nat.leb_spec 3 (length l)) as [H3|H3]; cbn [andb].
  2:{ rewrite !(proj2 (Nat.leb_gt _ _)) by lia. by left. }
  rewrite (proj2 (Nat.leb_le 3 (length (p ++ l)))), (Hin 3%nat) by (rewrite ?length_app; lia). cbn [andb].
  destruct (match l !! (length l - 3)%nat with Some c => negb (is_cont c) | None => false end);
    [right; split; [done|]; by exists 3%nat|].
  destruct (Nat.leb_spec 4 (length l)) as [H4|H4]; cbn [andb]; [|by left].
  rewrite (proj2 (Nat.leb_le 4 (length (p ++ l)))), (Hin 4%nat) by (rewrite ?length_app; lia). cbn [andb].
  destruct (match l !! (length l - 4)%nat with Some c => negb (is_cont c) | None => false end);
    [right; split; [done|]; by exists 4%nat|by left].
Qed.

Lemma DecodeLastRune_lead l :
  DecodeLastRune l =
    match last l with
    | None => (RuneError, 0%nat)
    | Some b =>
        if b <? 128 then (b, 1%nat)
        else
          match lead l with
          | Some k => let '(r, size) := DecodeRune (drop (length l - k) l) in
                      if (size =? k)%nat then (r, k) else (RuneError, 1%nat)
          | None => (RuneError, 1%nat)
          end
    end.
Proof. done. Qed.

(** Whether the end is a space does not depend on what comes before it. *)
Lemma solid_app p l : solid (p ++ l) -> l <> [] -> solid l.
Proof.
  intros [_ H] Hne. split; [done|]. rewrite DecodeLastRune_lead in *.
  destruct l as [|b l _] using rev_ind; [done|]. rewrite app_assoc, last_snoc, <-app_assoc in H. rewrite last_snoc.
  destruct (b <? 128); [done|].
  destruct (lead_app p (l ++ [b])) as [->|(E & k & Hk & Hle)]; [done|]. rewrite E, Hk in H. rewrite Hk.
  rewrite length_app, drop_app_ge in H by lia.
  by replace (length p + length (l ++ [b]) - k - length p)%nat with (length (l ++ [b]) - k)%nat in H by lia.
Qed.

(** A rune that takes the whole text is its last rune. *)
Lemma DecodeRune_last l r n : l <> [] -> DecodeRune l = (r, n) -> drop n l = [] -> IsSpace r = true ->
  (DecodeLastRune l).1 = r.
Proof.
  intros Hne E Hd Hs. assert (Hr : r <> RuneError) by (intros ->; by vm_compute in Hs).
  pose proof E as E0. unfold DecodeRune in E. destruct l as [|b0 l]; [done|].
  destruct (Z.ltb_spec b0 128) as [Hlt|Hge].
  { simplify_eq. destruct l; [|done]. unfold DecodeLastRune. simpl. by rewrite (proj2 (Z.ltb_lt _ _)). }
  assert (Hcont : in_range 194 223 b0 || in_range 224 239 b0 || in_range 240 244 b0 = true -> is_cont b0 = false).
  { unfold is_cont, in_range. destruct (Z.leb_spec b0 191); [|by rewrite andb_false_r].
    rewrite !(proj2 (Z.leb_gt _ b0)) by lia. done. }
  assert (Hin : forall lo hi b, in_range lo hi b = true -> 128 <= lo -> hi <= 191 -> is_cont b = true /\ (b <? 128) = false).
  { unfold is_cont, in_range. intros lo hi b [?%Z.leb_le ?%Z.leb_le]%andb_true_iff ? ?.
    rewrite !(proj2 (Z.leb_le _ _)), (proj2 (Z.ltb_ge _ _)) by lia. done. }
  assert (Hc : forall b, is_cont b = true -> (b <? 128) = false).
  { intros b H. apply (Hin 128 191 b H); lia. }
  destruct (in_range 194 223 b0) eqn:R2.
  { destruct l as [|b1 l]; [congruence|]. destruct (is_cont b1) eqn:C1; [|congruence].
    assert (n = 2%nat) as -> by congruence. destruct l as [|]; [|done].
    rewrite DecodeLastRune_lead. cbn -[DecodeRune is_cont Z.ltb]. rewrite (Hc b1 C1).
    unfold lead. cbn -[DecodeRune is_cont Z.ltb]. rewrite Hcont by done. cbn -[DecodeRune]. by rewrite E0. }
  destruct (in_range 224 239 b0) eqn:R3.
  { destruct l as [|b1 [|b2 l]]; try congruence. destruct (_ && _) eqn:C; [|congruence].
    apply andb_true_iff in C as [C1 C2]. assert (n = 3%nat) as -> by congruence. destruct l as [|]; [|done].
    destruct (Hin _ _ _ C1) as [C1' _]; [by destruct (b0 =? 224)|by destruct (b0 =? 237)|].
    rewrite DecodeLastRune_lead. cbn -[DecodeRune is_cont Z.ltb]. rewrite (Hc b2 C2).
    unfold lead. cbn -[DecodeRune is_cont Z.ltb]. rewrite C1', Hcont by done. cbn -[DecodeRune]. by rewrite E0. }
  destruct (in_range 240 244 b0) eqn:R4; [|congruence].
  destruct l as [|b1 [|b2 [|b3 l]]]; try congruence. destruct (_ && _ && _) eqn:C; [|congruence].
  apply andb_true_iff in C as [[C1 C2]%andb_true_iff C3]. assert (n = 4%nat) as -> by congruence. destruct l as [|]; [|done].
  destruct (Hin _ _ _ C1) as [C1' _]; [by destruct (b0 =? 240)|by destruct (b0 =? 244)|].
  rewrite DecodeLastRune_lead. cbn -[DecodeRune is_cont Z.ltb]. rewrite (Hc b3 C3).
  unfold lead. cbn -[DecodeRune is_cont Z.ltb]. rewrite C2, C1', Hcont by done. cbn -[DecodeRune]. by rewrite E0.
Qed.

Lemma trim_left_solid fuel l : solid l -> solid (trim_left fuel l).
Proof.
  revert l. induction fuel as [|fuel IH]; intros l H; [done|]. destruct l as [|b l]; [done|].
  cbn [trim_left]. destruct (DecodeRune (b :: l)) as [r n] eqn:E. destruct (IsSpace r) eqn:Hs; [|done].
  apply IH. destruct (decide (drop n (b :: l) = [])) as [Hd|Hd].
  - exfalso. destruct H as [Hne H]. by rewrite (DecodeRune_last _ _ _ Hne E Hd Hs), Hs in H.
  - apply (solid_app (take n (b :: l))); [by rewrite take_drop|done].
Qed.

Lemma DecodeLastRune_width l : l <> [] -> (1 <= (DecodeLastRune l).2)%nat.
Proof.
  rewrite DecodeLastRune_lead. destruct (last l) eqn:E; [|by apply last_None in E].
  intros _. destruct (_ <? _); [done|]. destruct (lead l) as [k|] eqn:Hk; [|done].
  destruct (DecodeRune _) as [r size]. destruct (Nat.eqb_spec size k) as [->|]; [|done].
  unfold lead in Hk. apply List.find_some in Hk as [Hk _]. simpl in Hk |- *. lia.
Qed.

Lemma trim_right_solid fuel l : (length l <= fuel)%nat -> trim_right fuel l = [] \/ solid (trim_right fuel l).
Proof.
  revert l. induction fuel as [|fuel IH]; intros [|b l] Hf; simpl in Hf; try lia; [by left..|].
  cbn [trim_right]. destruct (DecodeLastRune (b :: l)) as [r n] eqn:E. destruct (IsSpace r) eqn:Hs.
  - apply IH. pose proof (DecodeLastRune_width (b :: l)) as Hw. rewrite E in Hw. simpl in Hw.
    rewrite length_take. specialize (Hw ltac:(done)). simpl. lia.
  - right. split; [done|]. by rewrite E.
Qed.

Lemma trim_right_id fuel l : solid l -> trim_right fuel l = l.
Proof.
  intros [Hne H]. destruct fuel, l; try done. cbn [trim_right].
  destruct (DecodeLastRune _) as [r n]. simpl in H. by rewrite H.
Qed.

Lemma bytes_of_bytes l : Forall (fun b => 0 <= b < 256) l -> bytes_of (of_bytes l) = l.
Proof.
  intros H. unfold bytes_of, of_bytes. rewrite String.list_ascii_of_string_of_list_ascii, map_map.
  induction H as [|b l Hb _ IH]; [done|]. simpl. by rewrite byte_of_of_byte, IH.
Qed.

Lemma trim_left_Forall (P : Z -> Prop) fuel l : Forall P l -> Forall P (trim_left fuel l).
Proof.
  revert l. induction fuel as [|fuel IH]; intros [|b l] H; try done. cbn [trim_left].
  destruct (DecodeRune _) as [r n]. destruct (IsSpace r); [|done]. by apply IH, Forall_drop.
Qed.

Lemma trim_right_Forall (P : Z -> Prop) fuel l : Forall P l -> Forall P (trim_right fuel l).
Proof.
  revert l. induction fuel as [|fuel IH]; intros [|b l] H; try done. cbn [trim_right].
  destruct (DecodeLastRune _) as [r n]. destruct (IsSpace r); [|done]. by apply IH, Forall_take.
Qed.

(** Trimming a text that was trimmed, and is not empty, leaves something. *)
Lemma TrimSpace_twice s : TrimSpace s <> "" -> TrimSpace (TrimSpace s) <> "".
Proof.
  unfold TrimSpace. set (tl := trim_left _ (bytes_of s)). set (tr := trim_right _ tl). intros Hne.
  assert (Hb : bytes_of (of_bytes tr) = tr).
  { apply bytes_of_bytes, trim_right_Forall, trim_left_Forall, bytes_of_range. }
  rewrite Hb. assert (Hs : solid tr).
  { destruct (trim_right_solid (length tl) tl) as [E|]; [done| |done]. unfold tr in Hne. by rewrite E in Hne. }
  apply (trim_left_solid (length tr)) in Hs. rewrite trim_right_id by done. intros E.
  destruct Hs as [Hs _]. by destruct (trim_left (length tr) tr).
Qed.

Lemma ParseInt_range s v : ParseInt s = Some v -> in_int64 v.
Proof.
  unfold ParseInt, in_int64. destruct (match s with String _ _ => _ | _ => _ end) as [sign digits].
  destruct digits; [done|]. destruct (parse_digits _ _); [|done].
  destruct (_ && _) eqn:E; [|done]. intros [= <-]. apply andb_true_iff in E as [?%Z.leb_le ?%Z.leb_le]. done.
Qed.
