(* ===== verification/GoParse.v ===== *)
(** * Parsing of configuration values

    The functions of the packages strconv, time, strings and net that the
    configuration calls: [ParseBool], [ParseUint], [ParseDuration], [ToLower] and
    [JoinHostPort]. *)

From stdpp Require Import base list strings.
From Stdlib Require Import ZArith Ascii Lia.
From S2P Require Import Prelude Float64 GoStrings.

Local Open Scope Z_scope.

(** ** [strconv] *)

Definition ParseBool (s : string) : option bool :=
  if bool_decide (s ∈ ["1"; "t"; "T"; "TRUE"; "true"; "True"]) then Some true
  else if bool_decide (s ∈ ["0"; "f"; "F"; "FALSE"; "false"; "False"]) then Some false
  else None.

(** [ParseUint(s, 10, bits)]: decimal digits only. *)
Definition ParseUint (s : string) (bits : Z) : option Z :=
  match s with
  | EmptyString => None
  | _ =>
      match parse_digits 0 s with
      | Some n => if n <? 2 ^ bits then Some n else None
      | None => None
      end
  end.

(** [ParseFloat] and [FormatFloat(_, 'f', -1, 64)]: the shortest decimal text that
    is read back as the same number. *)
Class Floats : Type := {
  ParseFloat : string -> option float64;
  FormatFloat : float64 -> string;
}.
Definition one_half : float64 := fdiv (float_of_Z 1) (float_of_Z 2).
Class FloatsOk `{!Floats} : Prop :=
  format_parse : ParseFloat (FormatFloat one_half) = Some one_half.

(** ** [strings.ToLower]

    ASCII texts are mapped byte by byte; for the others the Unicode tables decide. *)
Class Unicode : Type := ToLower_unicode : string -> string.

Definition lower_byte (b : Z) : Z := if in_range 65 90 b then b + 32 else b.

Definition is_ascii (s : string) : bool := forallb (fun b => b <? 128) (bytes_of s).

Definition ToLower `{!Unicode} (s : string) : string :=
  if is_ascii s then of_bytes (map lower_byte (bytes_of s)) else ToLower_unicode s.

(** ** [time.ParseDuration] *)

Definition is_digit (b : Z) : bool := in_range 48 57 b.

(** The leading digits as a number, and the rest; [None]: overflow. *)
Fixpoint leadingInt (x : Z) (l : list Z) : option (Z * list Z) :=
  match l with
  | b :: l' =>
      if is_digit b then
        if 2 ^ 63 / 10 <? x then None
        else
          let x := x * 10 + (b - 48) in
          if 2 ^ 63 <? x then None else leadingInt x l'
      else Some (x, l)
  | [] => Some (x, l)
  end.

(** The digits of a fraction, and their scale; digits that do not fit are
    ignored. *)
Fixpoint leadingFraction (x : Z) (scale : float64) (overflow : bool) (l : list Z) : Z * float64 * list Z :=
  match l with
  | b :: l' =>
      if is_digit b then
        if overflow then leadingFraction x scale true l'
        else if (2 ^ 63 - 1) / 10 <? x then leadingFraction x scale true l'
        else
          let y := x * 10 + (b - 48) in
          if 2 ^ 63 <? y then leadingFraction x scale true l'
          else leadingFraction y (fmul scale (float_of_Z 10)) false l'
      else (x, scale, l)
  | [] => (x, scale, l)
  end.

Fixpoint leadingUnit (l : list Z) : list Z * list Z :=
  match l with
  | b :: l' => if (b =? 46) || is_digit b then ([], l) else let '(u, r) := leadingUnit l' in (b :: u, r)
  | [] => ([], [])
  end.

Definition unitMap (u : list Z) : option Z :=
  let u := of_bytes u in
  if bool_decide (u = "ns") then Some nanosecond
  else if bool_decide (u ∈ ["us"; "µs"; "μs"]) then Some (1000 * nanosecond)
  else if bool_decide (u = "ms") then Some millisecond
  else if bool_decide (u = "s") then Some second
  else if bool_decide (u = "m") then Some minute
  else if bool_decide (u = "h") then Some hour
  else None.

(** One number with its unit: its value in nanoseconds, and the rest. *)
Definition durationTerm (l : list Z) : option (Z * list Z) :=
  match l with
  | [] => None
  | b :: _ =>
      if (b =? 46) || is_digit b then
        match leadingInt 0 l with
        | None => None
        | Some (v, l1) =>
            let pre := negb (length l1 =? length l)%nat in
            let '(f, scale, post, l2) :=
              match l1 with
              | 46 :: l1' =>
                  let '(f, scale, l2) := leadingFraction 0 (float_of_Z 1) false l1' in
                  (f, scale, negb (length l2 =? length l1')%nat, l2)
              | _ => (0, float_of_Z 1, false, l1)
              end in
            if negb pre && negb post then None
            else
              let '(u, rest) := leadingUnit l2 in
              match u with
              | [] => None
              | _ =>
                  match unitMap u with
                  | None => None
                  | Some unit =>
                      if 2 ^ 63 / unit <? v then None
                      else
                        let v := v * unit in
                        let v := if 0 <? f then v + ftrunc (fmul (float_of_Z f) (fdiv (float_of_Z unit) scale))
                                 else v in
                        if 2 ^ 63 <? v then None else Some (v, rest)
                  end
              end
        end
      else None
  end.

Fixpoint durationTerms (fuel : nat) (d : Z) (l : list Z) : option Z :=
  match l, fuel with
  | [], _ => Some d
  | _, O => None
  | _, S fuel =>
      match durationTerm l with
      | None => None
      | Some (v, rest) =>
          let d := wrapu64 (d + v) in
          if 2 ^ 63 <? d then None else durationTerms fuel d rest
      end
  end.

(** Every term takes at least one byte, so the length is enough fuel. *)
Definition ParseDuration (s : string) : option Z :=
  let l := bytes_of s in
  let '(neg, l) :=
    match l with
    | 45 :: l' => (true, l')
    | 43 :: l' => (false, l')
    | _ => (false, l)
    end in
  if bool_decide (l = [48]) then Some 0
  else if bool_decide (l = []) then None
  else
    match durationTerms (length l) 0 l with
    | None => None
    | Some d => if neg then Some (- d) else if max_int64 <? d then None else Some d
    end.

Example ParseDuration_examples :
  ParseDuration "30s" = Some (30 * second) /\ ParseDuration "100ms" = Some (100 * millisecond) /\
  ParseDuration "24h" = Some (24 * hour) /\ ParseDuration "1h15m30.918273645s" = Some 4530918273645 /\
  ParseDuration "-1.5h" = Some (- 5400 * second) /\ ParseDuration ".5s" = Some (500 * millisecond) /\
  ParseDuration "3" = None /\ ParseDuration "1x" = None /\ ParseDuration "9223372036854775808ns" = None.
Proof. by vm_compute. Qed.

(** ** [net.JoinHostPort] *)
Definition JoinHostPort (host port : string) : string :=
  if existsb (fun b => b =? 58) (bytes_of host) then "[" +:+ host +:+ "]:" +:+ port
  else host +:+ ":" +:+ port.

(** ** Lemmas *)

Lemma durationTerms_range fuel d l d' :
  0 <= d <= 2 ^ 63 -> durationTerms fuel d l = Some d' -> 0 <= d' <= 2 ^ 63.
Proof.
  revert d l. induction fuel as [|fuel IH]; intros d [|b l] Hd; cbn [durationTerms]; try (by intros [= <-]); try done.
  destruct (durationTerm (b :: l)) as [[v rest]|]; [|done].
  destruct (Z.ltb_spec (2 ^ 63) (wrapu64 (d + v))); [done|]. apply IH.
  pose proof (wrapu64_range (d + v)). lia.
Qed.

(** A duration is a 64-bit integer. *)
Lemma ParseDuration_range s d : ParseDuration s = Some d -> in_int64 d.
Proof.
  unfold ParseDuration, in_int64, min_int64, max_int64.
  destruct (match bytes_of s with [] => _ | _ => _ end) as [neg l].
  case_bool_decide; [intros [= <-]; lia|]. case_bool_decide; [done|].
  destruct (durationTerms _ _ _) as [d'|] eqn:E; [|done]. apply durationTerms_range in E; [|lia].
  destruct neg; [intros [= <-]; lia|]. destruct (Z.ltb_spec (2 ^ 63 - 1) d'); [done|]. intros [= <-]. lia.
Qed.
