(* ===== verification/Config.v ===== *)
(** * Configuration (internal/config/config.go)

    Reading the configuration from the environment, and what a configuration
    that was read satisfies. *)

From stdpp Require Import base gmap list strings.
From Stdlib Require Import ZArith Ascii Lia.
From S2P Require Import Prelude Float64 GoStrings GoParse.

Local Open Scope Z_scope.

Module config.

Definition ProviderMock : string := "mock".
Definition ProviderDeepSeek : string := "deepseek".
Definition ProviderOpenAICompatible : string := "openai-compatible".
Definition RoutingRoundRobin : string := "round_robin".
Definition RoutingWeightedRoundRobin : string := "weighted_round_robin".

Record ProviderTarget : Type := mkTarget {
  Name : string;
  Kind : string;
  Weight : Z;
}.

Record Config : Type := mkConfig {
  HTTPAddr : string;
  Provider : string;
  Providers : list ProviderTarget;
  RoutingStrategy : string;
  RequestTimeout : Z;
  UpstreamAttemptTimeout : Z;
  RetryMaxAttempts : Z;
  RetryBaseBackoff : Z;
  RetryMaxBackoff : Z;
  CircuitBreakerWindowSize : Z;
  CircuitBreakerMinimumRequests : Z;
  CircuitBreakerFailureRatio : float64;
  CircuitBreakerOpenTimeout : Z;
  CircuitBreakerHalfOpenMaxRequests : Z;
  ProviderMaxConcurrency : Z;
  LogLevel : string;
  DeepSeekBaseURL : string;
  DeepSeekAPIKey : string;
  OpenAIBaseURL : string;
  OpenAIAPIKey : string;
  ShutdownGracePeriod : Z;
  RedisEnabled : bool;
  RedisAddr : string;
  RedisPassword : string;
  RedisDB : Z;
  RedisTimeout : Z;
  RateLimitRPM : Z;
  RateLimitBurst : Z;
  RateLimitFailOpen : bool;
  IdempotencyTTL : Z;
  IdempotencyLockTTL : Z;
  CacheTTL : Z;
  PostgresEnabled : bool;
  PostgresDSN : string;
  PostgresMaxConns : Z;
  StorageTimeout : Z;
}.

(** Errors are their messages. *)
Definition result (A : Type) : Type := string + A.

Definition bind {A B} (r : result A) (f : A -> result B) : result B :=
  match r with inl e => inl e | inr a => f a end.
Notation "'let?' x := r 'in' k" := (bind r (fun x => k)) (at level 200, x pattern, right associativity).

(** [if cond { return err }] *)
Definition reject (cond : bool) (msg : string) : result unit := if cond then inl msg else inr tt.

(** The verb [%q] on a text without special characters. *)
Definition quote (s : string) : string := String (of_byte 34) s +:+ String (of_byte 34) EmptyString.

(** [url.URL] and [url.Values.Encode] of one pair: the escaping is the library's. *)
Record URL : Type := mkURL {
  Scheme : string;
  User : string;
  Password : option string;
  Host : string;
  Path : string;
  RawQuery : string;
}.
Class Urls : Type := {
  URL_String : URL -> string;
  Values_Encode : string -> string -> string;
}.

Section load.
Context `{!Floats, !Unicode, !Urls}.
(** [os.Getenv]: an unset variable is empty. *)
Variable Getenv : string -> string.

Definition envOrDefault (name fallback : string) : string :=
  let value := TrimSpace (Getenv name) in
  if bool_decide (value = "") then fallback else value.

Definition positiveDuration (name fallback : string) : result Z :=
  match ParseDuration (envOrDefault name fallback) with
  | Some value => if value <=? 0 then inl (name +:+ " must be a positive Go duration") else inr value
  | None => inl (name +:+ " must be a positive Go duration")
  end.

Definition boolean (name : string) (fallback : bool) : result bool :=
  let raw := TrimSpace (Getenv name) in
  if bool_decide (raw = "") then inr fallback
  else
    match ParseBool raw with
    | Some value => inr value
    | None => inl (name +:+ " must be true or false")
    end.

Definition positiveInt (name : string) (fallback : Z) : result Z :=
  match ParseInt (envOrDefault name (Itoa fallback)) with
  | Some value => if value <=? 0 then inl (name +:+ " must be a positive integer") else inr value
  | None => inl (name +:+ " must be a positive integer")
  end.

Definition positiveRatio (name : string) (fallback : float64) : result float64 :=
  match ParseFloat (envOrDefault name (FormatFloat fallback)) with
  | Some value =>
      if fle value (float_of_Z 0) || flt (float_of_Z 1) value
      then inl (name +:+ " must be a number in (0, 1]") else inr value
  | None => inl (name +:+ " must be a number in (0, 1]")
  end.

Definition nonNegativeInt (name : string) (fallback : Z) : result Z :=
  match ParseInt (envOrDefault name (Itoa fallback)) with
  | Some value => if value <? 0 then inl (name +:+ " must be a non-negative integer") else inr value
  | None => inl (name +:+ " must be a non-negative integer")
  end.

Definition postgresDSN : result string :=
  let dsn := TrimSpace (Getenv "POSTGRES_DSN") in
  if negb (bool_decide (dsn = "")) then inr dsn
  else
    let host := envOrDefault "POSTGRES_HOST" "127.0.0.1" in
    let port := envOrDefault "POSTGRES_PORT" "5432" in
    match ParseUint port 16 with
    | None | Some 0 => inl "POSTGRES_PORT must be a valid TCP port"
    | Some _ =>
        let user := TrimSpace (Getenv "POSTGRES_USER") in
        let database := TrimSpace (Getenv "POSTGRES_DB") in
        if bool_decide (user = "") || bool_decide (database = "") then
          inl "POSTGRES_USER and POSTGRES_DB are required when POSTGRES_ENABLED=true"
        else
          let password := Getenv "POSTGRES_PASSWORD" in
          inr (URL_String (mkURL "postgres" user
            (if bool_decide (password = "") then None else Some password)
            (JoinHostPort host port) ("/" +:+ database)
            (Values_Encode "sslmode" (envOrDefault "POSTGRES_SSLMODE" "disable"))))
    end.

Definition name_character (c : Z) : bool :=
  in_range 97 122 c || in_range 65 90 c || in_range 48 57 c || ContainsRune "._-" c.

Definition validProviderName (value : string) : bool :=
  if bool_decide (value = "") || (64 <? len value) then false
  else forallb name_character (runes value).

Definition providerKind (value : string) : result string :=
  let kind := ToLower (TrimSpace value) in
  if bool_decide (kind ∈ [ProviderMock; ProviderDeepSeek; ProviderOpenAICompatible]) then inr kind
  else inl ("type must be one of " +:+ quote ProviderMock +:+ ", " +:+ quote ProviderDeepSeek +:+ ", or " +:+
            quote ProviderOpenAICompatible).

(** The loop over the entries; [index] and [names] of the ones before. *)
Fixpoint parseTargets (index : Z) (names : gset string) (parts : list string) : result (list ProviderTarget) :=
  match parts with
  | [] => inr []
  | part :: parts =>
      let entry := "MODEL_PROVIDERS entry " +:+ Itoa (index + 1) in
      match Split (TrimSpace part) ":" with
      | [f0; f1; f2] =>
          let name := TrimSpace f0 in
          let? _ := reject (negb (validProviderName name)) (entry +:+ " has an invalid name") in
          let? _ := reject (bool_decide (name ∈ names))
                      ("MODEL_PROVIDERS provider name " +:+ quote name +:+ " is duplicated") in
          match providerKind (TrimSpace f1) with
          | inl e => inl (entry +:+ " " +:+ e)
          | inr kind =>
              match ParseInt (TrimSpace f2) with
              | Some weight =>
                  let? _ := reject ((weight <=? 0) || (100 <? weight))
                              (entry +:+ " weight must be between 1 and 100") in
                  let? targets := parseTargets (index + 1) ({[name]} ∪ names) parts in
                  inr (mkTarget name kind weight :: targets)
              | None => inl (entry +:+ " weight must be between 1 and 100")
              end
          end
      | _ => inl (entry +:+ " must use name:type:weight")
      end
  end.

Definition providerTargets (legacyProvider : string) : result (list ProviderTarget) :=
  let raw := TrimSpace (Getenv "MODEL_PROVIDERS") in
  if bool_decide (raw = "") then
    match providerKind legacyProvider with
    | inl e => inl ("MODEL_PROVIDER " +:+ e)
    | inr kind => inr [mkTarget kind kind 1]
    end
  else parseTargets 0 ∅ (Split raw ",").

(** The keys that the targets need. *)
Fixpoint checkKeys (deepSeekKey openAIKey : string) (targets : list ProviderTarget) : result unit :=
  match targets with
  | [] => inr tt
  | t :: targets =>
      let? _ := reject (bool_decide (Kind t = ProviderDeepSeek) && bool_decide (deepSeekKey = ""))
                  ("DEEPSEEK_API_KEY is required for deepseek provider " +:+ quote (Name t)) in
      let? _ := reject (bool_decide (Kind t = ProviderOpenAICompatible) && bool_decide (openAIKey = ""))
                  ("OPENAI_API_KEY is required for openai-compatible provider " +:+ quote (Name t)) in
      checkKeys deepSeekKey openAIKey targets
  end.

Definition Load : result Config :=
  let httpAddr := envOrDefault "HTTP_ADDR" ":8080" in
  let legacy := ToLower (envOrDefault "MODEL_PROVIDER" ProviderMock) in
  let routingStrategy := ToLower (envOrDefault "ROUTING_STRATEGY" RoutingRoundRobin) in
  let logLevel := ToLower (envOrDefault "LOG_LEVEL" "info") in
  let deepSeekBaseURL := envOrDefault "DEEPSEEK_BASE_URL" "https://api.deepseek.com" in
  let deepSeekAPIKey := TrimSpace (Getenv "DEEPSEEK_API_KEY") in
  let openAIBaseURL := envOrDefault "OPENAI_COMPATIBLE_BASE_URL" "https://api.openai.com/v1" in
  let openAIAPIKey := TrimSpace (Getenv "OPENAI_API_KEY") in
  let redisAddr := envOrDefault "REDIS_ADDR" "127.0.0.1:6379" in
  let redisPassword := Getenv "REDIS_PASSWORD" in
  let? requestTimeout := positiveDuration "REQUEST_TIMEOUT" "30s" in
  let? attemptTimeout := positiveDuration "UPSTREAM_ATTEMPT_TIMEOUT" "10s" in
  let? maxAttempts := positiveInt "UPSTREAM_MAX_ATTEMPTS" 3 in
  let? _ := reject (10 <? maxAttempts) "UPSTREAM_MAX_ATTEMPTS must not exceed 10" in
  let? baseBackoff := positiveDuration "RETRY_BASE_BACKOFF" "100ms" in
  let? maxBackoff := positiveDuration "RETRY_MAX_BACKOFF" "2s" in
  let? _ := reject (maxBackoff <? baseBackoff) "RETRY_MAX_BACKOFF must not be below RETRY_BASE_BACKOFF" in
  let? _ := reject (requestTimeout <? attemptTimeout) "UPSTREAM_ATTEMPT_TIMEOUT must not exceed REQUEST_TIMEOUT" in
  let? windowSize := positiveInt "CIRCUIT_BREAKER_WINDOW_SIZE" 20 in
  let? minimumRequests := positiveInt "CIRCUIT_BREAKER_MINIMUM_REQUESTS" 10 in
  let? _ := reject (windowSize <? minimumRequests)
              "CIRCUIT_BREAKER_MINIMUM_REQUESTS must not exceed CIRCUIT_BREAKER_WINDOW_SIZE" in
  let? failureRatio := positiveRatio "CIRCUIT_BREAKER_FAILURE_RATIO" one_half in
  let? openTimeout := positiveDuration "CIRCUIT_BREAKER_OPEN_TIMEOUT" "30s" in
  let? halfOpenMax := positiveInt "CIRCUIT_BREAKER_HALF_OPEN_MAX_REQUESTS" 1 in
  let? maxConcurrency := positiveInt "PROVIDER_MAX_CONCURRENCY" 50 in
  let? _ := reject (10000 <? maxConcurrency) "PROVIDER_MAX_CONCURRENCY must not exceed 10000" in
  let? redisEnabled := boolean "REDIS_ENABLED" false in
  let? redisDB := nonNegativeInt "REDIS_DB" 0 in
  let? redisTimeout := positiveDuration "REDIS_TIMEOUT" "2s" in
  let? rpm := positiveInt "RATE_LIMIT_REQUESTS_PER_MINUTE" 60 in
  let? burst := positiveInt "RATE_LIMIT_BURST" rpm in
  let? failOpen := boolean "RATE_LIMIT_FAIL_OPEN" true in
  let? idempotencyTTL := positiveDuration "IDEMPOTENCY_TTL" "24h" in
  let? lockTTL := positiveDuration "IDEMPOTENCY_LOCK_TTL" "30s" in
  let? cacheTTL := positiveDuration "CACHE_TTL" "5m" in
  let? postgresEnabled := boolean "POSTGRES_ENABLED" false in
  let? maxConns := positiveInt "POSTGRES_MAX_CONNS" 10 in
  let? _ := reject (100 <? maxConns) "POSTGRES_MAX_CONNS must not exceed 100" in
  let? storageTimeout := positiveDuration "STORAGE_TIMEOUT" "2s" in
  let? dsn := (if postgresEnabled then postgresDSN else inr "") in
  let? _ := reject (negb (bool_decide (routingStrategy = RoutingRoundRobin)) &&
                    negb (bool_decide (routingStrategy = RoutingWeightedRoundRobin)))
              ("ROUTING_STRATEGY must be " +:+ quote RoutingRoundRobin +:+ " or " +:+
               quote RoutingWeightedRoundRobin) in
  let? _ := reject (negb (bool_decide (logLevel ∈ ["debug"; "info"; "warn"; "error"])))
              "LOG_LEVEL must be debug, info, warn, or error" in
  let? providers := providerTargets legacy in
  (* [Split] returns at least one part, so that [cfg.Providers[0]] exists *)
  let provider :=
    if bool_decide (TrimSpace (Getenv "MODEL_PROVIDERS") = "") then legacy
    else match providers with t :: _ => Kind t | [] => legacy end in
  let? _ := checkKeys deepSeekAPIKey openAIAPIKey providers in
  inr (mkConfig httpAddr provider providers routingStrategy requestTimeout attemptTimeout maxAttempts
         baseBackoff maxBackoff windowSize minimumRequests failureRatio openTimeout halfOpenMax
         maxConcurrency logLevel deepSeekBaseURL deepSeekAPIKey openAIBaseURL openAIAPIKey (10 * second)
         redisEnabled redisAddr redisPassword redisDB redisTimeout rpm burst failOpen idempotencyTTL lockTTL
         cacheTTL postgresEnabled dsn maxConns storageTimeout).

End load.

(** ** What a loaded configuration satisfies *)

Definition positive64 (z : Z) : Prop := 0 < z <= max_int64.

Definition known_kind (k : string) : Prop := k ∈ [ProviderMock; ProviderDeepSeek; ProviderOpenAICompatible].

(** A name of 1 to 64 ASCII letters, digits and [._-], a known kind, and a weight
    between 1 and 100. *)
Record valid_target (t : ProviderTarget) : Prop := {
  vt_name : Name t <> "" /\ len (Name t) <= 64;
  vt_characters : Forall (fun b => name_character b = true) (bytes_of (Name t));
  vt_kind : known_kind (Kind t);
  vt_weight : 1 <= Weight t <= 100;
}.

Definition valid_targets (ts : list ProviderTarget) : Prop :=
  ts <> [] /\ Forall valid_target ts /\ NoDup (Name <$> ts).

Record valid (cfg : Config) : Prop := {
  v_timeouts : 0 < UpstreamAttemptTimeout cfg <= RequestTimeout cfg /\ positive64 (RequestTimeout cfg);
  v_attempts : 1 <= RetryMaxAttempts cfg <= 10;
  v_backoff : 0 < RetryBaseBackoff cfg <= RetryMaxBackoff cfg /\ positive64 (RetryMaxBackoff cfg);
  v_window : 0 < CircuitBreakerMinimumRequests cfg <= CircuitBreakerWindowSize cfg /\
             positive64 (CircuitBreakerWindowSize cfg);
  v_ratio : fle (CircuitBreakerFailureRatio cfg) (float_of_Z 0) = false /\
            flt (float_of_Z 1) (CircuitBreakerFailureRatio cfg) = false;
  v_open : positive64 (CircuitBreakerOpenTimeout cfg) /\ positive64 (CircuitBreakerHalfOpenMaxRequests cfg);
  v_concurrency : 1 <= ProviderMaxConcurrency cfg <= 10000;
  v_redis : 0 <= RedisDB cfg <= max_int64 /\ positive64 (RedisTimeout cfg);
  v_limit : positive64 (RateLimitRPM cfg) /\ positive64 (RateLimitBurst cfg);
  v_ttls : positive64 (IdempotencyTTL cfg) /\ positive64 (IdempotencyLockTTL cfg) /\ positive64 (CacheTTL cfg);
  v_postgres : 1 <= PostgresMaxConns cfg <= 100 /\ positive64 (StorageTimeout cfg);
  v_strategy : RoutingStrategy cfg ∈ [RoutingRoundRobin; RoutingWeightedRoundRobin];
  v_level : LogLevel cfg ∈ ["debug"; "info"; "warn"; "error"];
  v_targets : valid_targets (Providers cfg);
  v_keys : forall t, t ∈ Providers cfg ->
    (Kind t = ProviderDeepSeek -> TrimSpace (DeepSeekAPIKey cfg) <> "") /\
    (Kind t = ProviderOpenAICompatible -> TrimSpace (OpenAIAPIKey cfg) <> "");
}.

(** How a list of targets is written in MODEL_PROVIDERS. *)
Definition target_text (t : ProviderTarget) : string :=
  Join [Name t; Kind t; Itoa (Weight t)] ":".
Definition targets_text (ts : list ProviderTarget) : string := Join (target_text <$> ts) ",".

Definition with_env (env : string -> string) (name value : string) : string -> string :=
  fun n => if bool_decide (n = name) then value else env n.

(** ** Lemmas *)

Lemma with_env_same env name value : with_env env name value name = value.
Proof. unfold with_env. by rewrite bool_decide_true. Qed.

Lemma bind_inr {A B} (r : result A) (f : A -> result B) b :
  bind r f = inr b -> exists a, r = inr a /\ f a = inr b.
Proof. destruct r as [e|a]; [done|]. simpl. eauto. Qed.

Lemma reject_inr c m u : reject c m = inr u -> c = false.
Proof. by destruct c. Qed.

(** Name the results of the steps before a result. *)
Ltac inv_result H :=
  repeat match type of H with
  | bind (reject _ _) _ = inr _ =>
      let H1 := fresh "Hrej" in apply bind_inr in H as (? & H1 & H); apply reject_inr in H1
  | bind _ _ = inr _ => let H1 := fresh "Hstep" in apply bind_inr in H as (? & H1 & H)
  end.

Lemma name_character_visible c : name_character c = true -> visible c /\ c <> 58 /\ c <> 44.
Proof.
  unfold name_character, in_range, visible, ContainsRune.
  change (bytes_of "._-") with [46; 95; 45]. cbn [existsb].
  rewrite orb_false_r, !orb_true_iff, !andb_true_iff, !Z.leb_le, !Z.eqb_eq. intros H.
  assert (45 <= c <= 122 /\ c <> 58) by (intuition (subst; lia || done)). lia.
Qed.

Lemma name_characters s :
  Forall (fun b => name_character b = true) (bytes_of s) -> runes s = bytes_of s /\ TrimSpace s = s.
Proof.
  intros H. split.
  - apply ascii_runes. eapply Forall_impl; [done|]. intros b [[] _]%name_character_visible. lia.
  - apply TrimSpace_visible. eapply Forall_impl; [done|]. by intros b [? _]%name_character_visible.
Qed.

Lemma validProviderName_spec s :
  validProviderName s = true <->
  (s <> "" /\ len s <= 64) /\ Forall (fun b => name_character b = true) (bytes_of s).
Proof.
  unfold validProviderName. split.
  - case_bool_decide; [done|]. destruct (Z.ltb_spec 64 (len s)); [done|]. simpl. intros Hall.
    assert (Hr : Forall (fun r => name_character r = true) (runes s)).
    { apply Forall_forall. intros r Hin. by apply (proj1 (forallb_forall _ _) Hall), list_elem_of_In. }
    rewrite <-runes_ascii; [done|]. eapply Forall_impl; [done|]. intros r [[] _]%name_character_visible. lia.
  - intros [[Hne Hlen] H]. rewrite bool_decide_false by done. rewrite (proj2 (Z.ltb_ge _ _)) by done. simpl.
    destruct (name_characters s H) as [-> _]. apply forallb_forall. intros b Hb.
    by apply (proj1 (Forall_forall _ _) H), list_elem_of_In.
Qed.

Section lemmas.
Context {HF : Floats} {HU : Unicode} {HL : Urls}.
Implicit Types env : string -> string.

Lemma positiveDuration_inr env name fallback d :
  positiveDuration env name fallback = inr d -> positive64 d.
Proof using Type.
  unfold positiveDuration, positive64. destruct (ParseDuration _) as [v|] eqn:E; [|done].
  destruct (Z.leb_spec v 0); [done|]. intros [= <-]. apply ParseDuration_range in E. unfold in_int64 in E. lia.
Qed.

Lemma positiveInt_inr env name fallback v : positiveInt env name fallback = inr v -> positive64 v.
Proof using Type.
  unfold positiveInt, positive64. destruct (ParseInt _) as [n|] eqn:E; [|done].
  destruct (Z.leb_spec n 0); [done|]. intros [= <-]. apply ParseInt_range in E. unfold in_int64 in E. lia.
Qed.

Lemma nonNegativeInt_inr env name fallback v : nonNegativeInt env name fallback = inr v -> 0 <= v <= max_int64.
Proof using Type.
  unfold nonNegativeInt. destruct (ParseInt _) as [n|] eqn:E; [|done].
  destruct (Z.ltb_spec n 0); [done|]. intros [= <-]. apply ParseInt_range in E. unfold in_int64 in E. lia.
Qed.

Lemma positiveRatio_inr env name fallback v : positiveRatio env name fallback = inr v ->
  fle v (float_of_Z 0) = false /\ flt (float_of_Z 1) v = false.
Proof using Type.
  unfold positiveRatio. destruct (ParseFloat _) as [n|]; [|done].
  destruct (_ || _) eqn:E; [done|]. intros [= <-]. by apply orb_false_iff in E.
Qed.

Lemma providerKind_inr value k : providerKind value = inr k -> known_kind k.
Proof using Type. unfold providerKind. case_bool_decide; [|done]. by intros [= <-]. Qed.

Lemma providerKind_known k : known_kind k -> providerKind k = inr k.
Proof using Type. unfold known_kind. rewrite !elem_of_cons, elem_of_nil. intros [->|[->|[->|[]]]]; reflexivity. Qed.

(** The loop accepts only valid targets with new names, and never drops one. *)
Lemma parseTargets_inr index names parts ts :
  parseTargets index names parts = inr ts ->
  length ts = length parts /\ Forall valid_target ts /\ NoDup (Name <$> ts) /\
  Forall (fun t => Name t ∉ names) ts.
Proof using Type.
  revert index names ts. induction parts as [|part parts IH]; intros index names ts H; cbn [parseTargets] in H.
  { simplify_eq. split_and!; done || constructor. }
  destruct (Split _ _) as [|f0 [|f1 [|f2 [|]]]]; try done. inv_result H.
  apply negb_false_iff, validProviderName_spec in Hrej as [Hname Hchars]. apply bool_decide_eq_false in Hrej0.
  destruct (providerKind _) as [|kind] eqn:Hk; [done|]. destruct (ParseInt _) as [weight|]; [|done].
  inv_result H. simplify_eq. apply orb_false_iff in Hrej as [?%Z.leb_gt ?%Z.ltb_ge].
  destruct (IH _ _ _ Hstep) as (Hlen & Hv & Hnd & Hnew). split_and!.
  - simpl. by rewrite Hlen.
  - constructor; [|done]. constructor; simpl; [done..|by eapply providerKind_inr|lia].
  - rewrite fmap_cons. constructor; [|done]. rewrite list_elem_of_fmap. intros (t & Ht & Hin).
    rewrite Forall_forall in Hnew. apply (Hnew t Hin). simpl in Ht. rewrite <-Ht. set_solver.
  - constructor; [done|]. eapply Forall_impl; [done|]. simpl. set_solver.
Qed.

Lemma valid_name_kind k : known_kind k -> valid_target (mkTarget k k 1).
Proof using Type.
  intros H. assert (validProviderName k = true) as [Hn Hc]%validProviderName_spec.
  { unfold known_kind in H. rewrite !elem_of_cons, elem_of_nil in H. by destruct H as [->|[->|[->|[]]]]. }
  constructor; simpl; [done..|lia].
Qed.

Lemma providerTargets_inr env legacy ts : providerTargets env legacy = inr ts -> valid_targets ts.
Proof using Type.
  unfold providerTargets, valid_targets. case_bool_decide.
  - destruct (providerKind legacy) as [|kind] eqn:E; [done|]. intros [= <-].
    apply providerKind_inr, valid_name_kind in E. split_and!; [done|by constructor|apply NoDup_singleton].
  - intros (Hlen & Hv & Hnd & _)%parseTargets_inr. split_and!; [|done..]. intros ->. simpl in Hlen.
    symmetry in Hlen. apply nil_length_inv in Hlen. by apply Split_not_nil in Hlen.
Qed.

Lemma checkKeys_inr dk ok ts u : checkKeys dk ok ts = inr u ->
  forall t, t ∈ ts -> (Kind t = ProviderDeepSeek -> dk <> "") /\ (Kind t = ProviderOpenAICompatible -> ok <> "").
Proof using Type.
  induction ts as [|t ts IH]; cbn [checkKeys]; intros H x; [by rewrite elem_of_nil|]. inv_result H.
  rewrite elem_of_cons. intros [->|Hx]; [|by apply IH].
  apply andb_false_iff in Hrej as [?%bool_decide_eq_false|?%bool_decide_eq_false];
  apply andb_false_iff in Hrej0 as [?%bool_decide_eq_false|?%bool_decide_eq_false]; done.
Qed.

(** The texts of a weight and of a kind. *)
Definition field_text (s : string) : bool :=
  forallb (fun b => (32 <? b) && (b <? 128) && negb (b =? 58) && negb (b =? 44)) (bytes_of s).

Lemma field_text_spec s :
  field_text s = true -> Forall (fun b => visible b /\ b <> 58 /\ b <> 44) (bytes_of s).
Proof using Type.
  intros H. apply Forall_forall. intros b Hb. apply list_elem_of_In, (proj1 (forallb_forall _ _) H) in Hb.
  apply andb_true_iff in Hb as [[[?%Z.ltb_lt ?%Z.ltb_lt]%andb_true_iff ?%negb_true_iff%Z.eqb_neq]%andb_true_iff
    ?%negb_true_iff%Z.eqb_neq]. done.
Qed.

Lemma weight_text w : 1 <= w <= 100 -> field_text (Itoa w) = true /\ ParseInt (Itoa w) = Some w.
Proof using Type.
  intros Hw.
  assert (H : forallb (fun n => field_text (Itoa (Z.of_nat n)) && bool_decide (ParseInt (Itoa (Z.of_nat n)) = Some (Z.of_nat n)))
            (seq 1 100) = true) by (by vm_compute).
  assert (Hin : In (Z.to_nat w) (seq 1 100)) by (apply in_seq; lia).
  apply (proj1 (forallb_forall _ _) H) in Hin. rewrite Z2Nat.id in Hin by lia.
  apply andb_true_iff in Hin as [? ?%bool_decide_eq_true]. done.
Qed.

Definition no_byte (b : Z) (s : string) : Prop := Forall (fun x => x <> b) (bytes_of s).

Lemma no_byte_append b s t : no_byte b s -> no_byte b t -> no_byte b (s +:+ t).
Proof using Type. intros Hs Ht. unfold no_byte. rewrite bytes_of_app. by apply Forall_app. Qed.

(** Each field of a valid target is read back as it was written. *)
Lemma target_fields t : valid_target t ->
  Forall (fun s => Forall (fun b => visible b /\ b <> 58 /\ b <> 44) (bytes_of s))
    [Name t; Kind t; Itoa (Weight t)].
Proof using Type.
  intros [_ Hc Hk Hw]. repeat constructor.
  - eapply Forall_impl; [done|]. by intros b ?%name_character_visible.
  - apply field_text_spec. unfold known_kind in Hk. rewrite !elem_of_cons, elem_of_nil in Hk.
    by destruct Hk as [->|[->|[->|[]]]].
  - by apply field_text_spec, weight_text.
Qed.

Lemma target_text_visible t : valid_target t ->
  Forall visible (bytes_of (target_text t)) /\ no_byte 44 (target_text t) /\
  Split (target_text t) ":" = [Name t; Kind t; Itoa (Weight t)].
Proof using Type.
  intros H. pose proof (target_fields t H) as Hf. split_and!.
  - unfold target_text, Join. simpl. rewrite !bytes_of_app, !Forall_app. rewrite !Forall_cons in Hf.
    destruct Hf as (Hn & Hk & Hw & _).
    split_and!; first [by vm_compute; repeat constructor | eapply Forall_impl; [done|]; naive_solver].
  - unfold target_text, Join. simpl. rewrite !Forall_cons in Hf. destruct Hf as (Hn & Hk & Hw & _).
    repeat apply no_byte_append; first [by repeat constructor | eapply Forall_impl; [done|]; naive_solver].
  - apply Split_Join; [done|]. eapply Forall_impl; [done|]. intros s Hs. eapply Forall_impl; [exact Hs|].
    intros b (_ & ? & _). done.
Qed.

Lemma parseTargets_text index names ts :
  Forall valid_target ts -> NoDup (Name <$> ts) -> Forall (fun t => Name t ∉ names) ts ->
  parseTargets index names (target_text <$> ts) = inr ts.
Proof using Type.
  revert index names. induction ts as [|t ts IH]; intros index names; [done|].
  intros [Hv Hvs]%Forall_cons. rewrite fmap_cons. intros [Hnin Hnd]%NoDup_cons [Hnew Hnews]%Forall_cons.
  destruct (target_text_visible t Hv) as (Hvis & _ & Hsplit). pose proof (target_fields t Hv) as Hf.
  rewrite fmap_cons. cbn [parseTargets]. rewrite (TrimSpace_visible _ Hvis), Hsplit.
  rewrite !Forall_cons in Hf. destruct Hf as (Hn & Hk & Hw & _).
  rewrite !TrimSpace_visible by (eapply Forall_impl; [done|]; naive_solver).
  destruct Hv as [Hname Hchars Hkind Hweight]. destruct (weight_text _ Hweight) as [_ ->].
  rewrite (proj2 (validProviderName_spec _)) by done. rewrite bool_decide_false by done.
  rewrite providerKind_known by done. rewrite (proj2 (Z.leb_gt _ _)), (proj2 (Z.ltb_ge _ _)) by lia. simpl.
  rewrite IH; [by destruct t|done..|]. apply Forall_forall. intros x Hx. rewrite Forall_forall in Hnews.
  rewrite not_elem_of_union, not_elem_of_singleton. split; [|by apply Hnews]. intros E. apply Hnin.
  rewrite <-E. by apply list_elem_of_fmap_2.
Qed.

Lemma targets_text_visible ts : Forall valid_target ts -> Forall visible (bytes_of (targets_text ts)).
Proof using Type.
  intros H. unfold targets_text, Join. induction H as [|t ts Ht H IH]; [by constructor|].
  destruct (target_text_visible t Ht) as (Hvis & _). destruct ts as [|u ts]; [done|].
  change (Forall visible (bytes_of (target_text t +:+ "," +:+ String.concat "," (target_text <$> u :: ts)))).
  rewrite !bytes_of_app, !Forall_app. split_and!; [done|by repeat constructor|done].
Qed.

(** C25: Reading the provider list back. A list of targets is what the program
    reads from its own notation in MODEL_PROVIDERS (name:type:weight, separated by
    commas), exactly when it is a list that the program accepts: not empty, with
    distinct names of 1 to 64 letters, digits, dots, dashes and underscores, known
    types, and weights from 1 to 100. *)
Theorem provider_list_roundtrip env legacy ts :
  providerTargets (with_env env "MODEL_PROVIDERS" (targets_text ts)) legacy = inr ts <-> valid_targets ts.
Proof using Type.
  split; [apply providerTargets_inr|]. intros (Hne & Hv & Hnd). unfold providerTargets.
  rewrite with_env_same,  (TrimSpace_visible _ (targets_text_visible ts Hv)).
  assert (Hsplit : Split (targets_text ts) "," = target_text <$> ts).
  { apply Split_Join; [by destruct ts|]. apply Forall_fmap. eapply Forall_impl; [done|].
    intros t (_ & Ht & _)%target_text_visible. done. }
  rewrite bool_decide_false.
  - rewrite Hsplit. apply parseTargets_text; [done..|]. apply Forall_forall. set_solver.
  - destruct ts as [|t ts]; [done|]. apply Forall_cons in Hv as [Hv _].
    apply target_fields in Hv. unfold targets_text, target_text, Join. intros E.
    apply (f_equal String.length) in E. destruct ts; simpl in E; rewrite ?length_append in E; simpl in E;
      rewrite ?length_append in E; simpl in E; lia.
Qed.

(** What every loaded configuration satisfies. *)
Lemma loaded_valid env cfg : Load env = inr cfg -> valid cfg.
Proof using Type.
  unfold Load. intros H. inv_result H. injection H as <-.
  repeat match goal with
  | E : positiveDuration _ _ _ = inr _ |- _ => apply positiveDuration_inr in E
  | E : positiveInt _ _ _ = inr _ |- _ => apply positiveInt_inr in E
  | E : nonNegativeInt _ _ _ = inr _ |- _ => apply nonNegativeInt_inr in E
  | E : positiveRatio _ _ _ = inr _ |- _ => apply positiveRatio_inr in E
  | E : providerTargets _ _ = inr _ |- _ => apply providerTargets_inr in E
  | E : (_ <? _) = false |- _ => apply Z.ltb_ge in E
  end.
  constructor; simpl; try done; unfold positive64 in *; try lia.
  - apply andb_false_iff in Hrej5 as [E|E]; apply negb_false_iff, bool_decide_eq_true in E; set_solver.
  - by apply negb_false_iff, bool_decide_eq_true in Hrej6.
  - intros t Ht. match goal with E : checkKeys _ _ _ = inr _ |- _ => apply (checkKeys_inr _ _ _ _ E) in Ht end.
    split; intros Hk; apply TrimSpace_twice; by apply Ht.
Qed.


(** The defaults. Without any variable the gateway starts with a single mock
    provider, round robin, and Redis and PostgreSQL switched off. *)
Theorem load_defaults : FloatsOk ->
  Load (fun _ => "") = inr (mkConfig ":8080" "mock" [mkTarget "mock" "mock" 1] "round_robin"
    (30 * second) (10 * second) 3 (100 * millisecond) (2 * second) 20 10 one_half (30 * second) 1 50 "info"
    "https://api.deepseek.com" "" "https://api.openai.com/v1" "" (10 * second)
    false "127.0.0.1:6379" "" 0 (2 * second) 60 60 true (24 * hour) (30 * second) (5 * minute)
    false "" 10 (2 * second)).
Proof using Type.
  intros Hok.
  assert (Hratio : positiveRatio (fun _ => "") "CIRCUIT_BREAKER_FAILURE_RATIO" one_half = inr one_half)
    by (unfold positiveRatio; change (envOrDefault _ _ _) with (FormatFloat one_half); by rewrite Hok).
  unfold Load. rewrite Hratio. by vm_compute.
Qed.

End lemmas.

Module witnesses.

(** A library that knows the number 0.5. *)
#[local] Instance half_only : Floats := {|
  ParseFloat s := if bool_decide (s = "0.5") then Some one_half else None;
  FormatFloat _ := "0.5";
|}.
#[local] Instance no_unicode : Unicode := fun s => s.
#[local] Instance plain_urls : Urls := {|
  URL_String u := Scheme u +:+ "://" +:+ User u +:+ "@" +:+ Host u +:+ Path u +:+ "?" +:+ RawQuery u;
  Values_Encode k v := k +:+ "=" +:+ v;
|}.

(** Two weighted providers and a database. *)
Definition demo_env (name : string) : string :=
  if bool_decide (name = "MODEL_PROVIDERS") then " a:mock:3 , b.2:DeepSeek: 97"
  else if bool_decide (name = "DEEPSEEK_API_KEY") then " key "
  else if bool_decide (name = "ROUTING_STRATEGY") then "Weighted_Round_Robin"
  else if bool_decide (name = "POSTGRES_ENABLED") then "true"
  else if bool_decide (name = "POSTGRES_USER") then "u"
  else if bool_decide (name = "POSTGRES_DB") then "d"
  else "".


Lemma load_defaults_witness : exists cfg, Load (fun _ => "") = inr cfg /\ Providers cfg = [mkTarget "mock" "mock" 1].
Proof. eexists. split; [by apply load_defaults|done]. Defined.

End witnesses.

End config.
