(* ===== verification/Context.v ===== *)
(** * Contexts, time and scheduling

    The parts of Go's run time that the code uses: the clock, cancellable
    contexts with deadlines (package context), and the points where a goroutine
    blocks and others run. *)

From stdpp Require Import base gmap list strings.
From Stdlib Require Import ZArith Lia.
From S2P Require Import Prelude Types.

Local Open Scope Z_scope.
Local Open Scope go_scope.

Module context.

(** [cancelled] maps the identifier of a cancelled context to the time of the
    first call of its [CancelFunc]. *)
Record Runtime : Type := mkRuntime {
  clock : Z;
  cancelled : gmap nat Z;
  next_id : nat;
}.

(** A context: its effective deadline and the identifiers of the contexts
    (itself and its ancestors) whose cancellation cancels it. *)
Record Ctx : Type := mkCtx {
  ctx_deadline : option Z;
  ctx_cancels : list nat;
}.

(** A [context.CancelFunc] is the identifier it cancels. *)
Definition CancelFunc : Type := nat.

Definition Background : Ctx := mkCtx None [].

(** [context.WithoutCancel] *)
Definition WithoutCancel (_ : Ctx) : Ctx := Background.

Definition earliest (a b : option Z) : option Z :=
  match a, b with
  | Some x, Some y => Some (Z.min x y)
  | Some x, None | None, Some x => Some x
  | None, None => None
  end.

Definition cancelled_at (rt : Runtime) (c : Ctx) : option Z :=
  foldr (fun id acc => earliest (cancelled rt !! id) acc) None (ctx_cancels c).

Definition expired_at (rt : Runtime) (c : Ctx) : option Z :=
  match ctx_deadline c with
  | Some d => if d <=? clock rt then Some d else None
  | None => None
  end.

(** [ctx.Err()]: the event that happened first decides. *)
Definition Err (rt : Runtime) (c : Ctx) : option sentinel :=
  match cancelled_at rt c, expired_at rt c with
  | None, None => None
  | Some _, None => Some Canceled
  | None, Some _ => Some DeadlineExceeded
  | Some t, Some d => if t <? d then Some Canceled else Some DeadlineExceeded
  end.

Definition is_done (rt : Runtime) (c : Ctx) : bool := bool_decide (is_Some (Err rt c)).

(** A world that contains the run time. *)
Class HasRuntime (W : Type) : Type := runtime : ref W Runtime.

(** Where a goroutine blocks: [wait_until P] lets time pass and other
    goroutines run until [P] holds; [choose] is the choice of a [select] with
    several ready cases. *)
Class Scheduler (W : Type) : Type := {
  wait_until : (W -> bool) -> M W unit;
  choose : W -> bool;
}.

Section operations.
Context {W : Type} `{!HasRuntime W}.

Definition Now (w : W) : Z := clock (ref_get runtime w).

Definition ctx_Err (c : Ctx) (w : W) : option sentinel := Err (ref_get runtime w) c.

Definition ctx_done (c : Ctx) (w : W) : bool := is_done (ref_get runtime w) c.

(** [context.WithTimeout(parent, d)] *)
Definition WithTimeout (parent : Ctx) (d : Z) : M W (Ctx * CancelFunc) :=
  update runtime (fun rt =>
    let id := next_id rt in
    ((mkCtx (earliest (ctx_deadline parent) (Some (clock rt + d))) (id :: ctx_cancels parent), id),
     mkRuntime (clock rt) (cancelled rt) (S id))).

(** Calling a [CancelFunc]; only the first call counts. *)
Definition cancel (f : CancelFunc) : M W unit :=
  update runtime (fun rt =>
    (tt, match cancelled rt !! f with
         | Some _ => rt
         | None => mkRuntime (clock rt) (<[f := clock rt]> (cancelled rt)) (next_id rt)
         end)).

End operations.

(** What the code relies on: a wait ends only when its condition holds, and
    waiting does not panic. *)
Class SchedulerOk (W : Type) `{!Scheduler W} : Prop :=
  wait_ready : forall P w, wp (wait_until P) (fun _ w' => P w' = true) (fun _ => False) w.

(** ** Lemmas *)

Lemma earliest_Some a b : is_Some b -> is_Some (earliest a b).
Proof. intros [? ->]. by destruct a. Qed.

Lemma Err_is_Some rt c :
  is_Some (Err rt c) <-> is_Some (cancelled_at rt c) \/ is_Some (expired_at rt c).
Proof.
  unfold Err. destruct (cancelled_at rt c) as [t|], (expired_at rt c) as [d|];
    try destruct (t <? d); naive_solver.
Qed.

(** A context is done once its parent is. *)
Lemma child_done rt (parent : Ctx) d id :
  is_Some (Err rt parent) ->
  is_Some (Err rt (mkCtx (earliest (ctx_deadline parent) (Some d)) (id :: ctx_cancels parent))).
Proof.
  rewrite !Err_is_Some. intros [H|H]; [left|right].
  - unfold cancelled_at in *. simpl. by apply earliest_Some.
  - unfold expired_at in *. simpl. destruct (ctx_deadline parent) as [p|]; simpl.
    + destruct (Z.leb_spec p (clock rt)); [|by destruct H].
      rewrite (proj2 (Z.leb_le _ _)) by lia. done.
    + by destruct H.
Qed.

(** A context is done at the latest when its deadline passes. *)
Lemma deadline_done rt c d :
  ctx_deadline c = Some d -> d <= clock rt -> is_Some (Err rt c).
Proof.
  intros Hd Hle. apply Err_is_Some. right. unfold expired_at. rewrite Hd.
  by rewrite (proj2 (Z.leb_le _ _)).
Qed.

Lemma wp_WithTimeout {W} `{!HasRuntime W} parent d Q R (w : W) :
  let rt := ref_get runtime w in
  Q (mkCtx (earliest (ctx_deadline parent) (Some (clock rt + d))) (next_id rt :: ctx_cancels parent),
     next_id rt)
    (ref_set runtime (mkRuntime (clock rt) (cancelled rt) (S (next_id rt))) w) ->
  wp (WithTimeout parent d) Q R w.
Proof. done. Qed.

Lemma returns_WithTimeout {W} `{!HasRuntime W} parent d : returns (WithTimeout (W := W) parent d).
Proof. apply returns_update. Qed.

Lemma returns_cancel {W} `{!HasRuntime W} f : returns (cancel (W := W) f).
Proof. apply returns_update. Qed.

#[global] Hint Resolve returns_WithTimeout returns_cancel : golib.

(** ** A concrete run time

    A world with a state [S] beside the run time; waiting advances the clock by
    up to one hour. *)

Definition world (S : Type) : Type := Runtime * S.

#[global] Instance world_runtime S : HasRuntime (world S) :=
  mkRef fst (fun rt w => (rt, snd w)).

Definition advance_clock {S} (d : Z) (w : world S) : world S :=
  (mkRuntime (clock w.1 + d) (cancelled w.1) (next_id w.1), w.2).

#[global] Instance world_scheduler S : Scheduler (world S) := {
  wait_until P w :=
    if P w then Ret tt w
    else if P (advance_clock hour w) then Ret tt (advance_clock hour w) else Block w;
  choose _ := true;
}.

Lemma world_scheduler_ok S : SchedulerOk (world S).
Proof.
  intros P w. unfold wp. simpl. destruct (P w) eqn:E1; [done|].
  by destruct (P (advance_clock hour w)) eqn:E2.
Qed.

#[global] Instance world_runtime_ok S : RefOk (world_runtime S).
Proof. constructor; try done. by intros []. Qed.

Definition start {S} (s : S) : world S := (mkRuntime 0 ∅ 0, s).

End context.
