(* ===== verification/Trace.v ===== *)
(** * Traces

    What code asks of its environment, in order: the world carries a log, and
    [traces m P] says that [m] returns and that [P] holds of its result and of
    what it added to the log. [outcomes] is the same for code that may panic,
    [mute] is code that leaves a log alone, [traces2] follows two logs of one run,
    and [yields] is about results only. *)

From stdpp Require Import base list.
From S2P Require Import Prelude.

(** ** What code returns

    [yields m Q]: what [m] returns, if it returns, satisfies [Q]. *)
Section yields.
Context {W : Type}.

Definition yields {A} (m : M W A) (Q : A -> Prop) : Prop := forall w a w', m w = Ret a w' -> Q a.

Lemma yields_ret {A} (a : A) (Q : A -> Prop) : Q a -> yields (ret a) Q.
Proof using Type. by intros H w ? ? [= <- _]. Qed.

Lemma yields_panic {A} (Q : A -> Prop) : yields panic Q.
Proof using Type. by intros w ? ?. Qed.

Lemma yields_block {A} (Q : A -> Prop) : yields (fun w => Block w) Q.
Proof using Type. by intros w ? ?. Qed.

Lemma yields_mono {A} (m : M W A) (P Q : A -> Prop) : yields m P -> (forall a, P a -> Q a) -> yields m Q.
Proof using Type. intros H HPQ w a w' E. eapply HPQ, H, E. Qed.

Lemma yields_bind {A B} (m : M W A) (f : A -> M W B) (P : A -> Prop) (Q : B -> Prop) :
  yields m P -> (forall a, P a -> yields (f a) Q) -> yields (bind m f) Q.
Proof using Type.
  intros Hm Hf w b w' E. unfold bind in E. destruct (m w) as [a w1| |] eqn:E1; [|done..].
  eapply Hf; [by eapply Hm|exact E].
Qed.

Lemma yields_then {A B} (m : M W A) (f : A -> M W B) (Q : B -> Prop) :
  (forall a, yields (f a) Q) -> yields (bind m f) Q.
Proof using Type. intros Hf. apply (yields_bind _ _ (fun _ => True)); [by intros ? ? ? ?|auto]. Qed.

Lemma yields_defer {A} (f : M W unit) (m : M W A) (Q : A -> Prop) : yields m Q -> yields (defer f m) Q.
Proof using Type.
  intros Hm w a w' E. unfold defer, bind, ret, panic in E. destruct (m w) as [x w1|w1|w1] eqn:E1; [| |done].
  - destruct (f w1); [|done..]. injection E as <- _. by eapply Hm.
  - by destruct (f w1).
Qed.

End yields.

(** Step through code, keeping what is known of the values that matter. *)
Ltac yields_step :=
  match goal with
  | |- yields (ret _) _ => apply yields_ret
  | |- yields panic _ => apply yields_panic
  | |- yields (fun w => Block w) _ => apply yields_block
  | |- yields (match ?x with _ => _ end) _ => destruct x eqn:?
  | |- yields (bind _ _) _ => apply yields_then; intros ?
  | |- yields (defer _ _) _ => apply yields_defer
  end.

Section traces.
Context {W E : Type} (log : W -> list E).

(** [m] returns from every world, and what it asks is described by [P]. *)
Definition traces {A} (m : M W A) (P : A -> list E -> Prop) : Prop :=
  forall w, twp m (fun a w' => exists evs, log w' = log w ++ evs /\ P a evs) w.

Definition silent {A} (m : M W A) : Prop := traces m (fun _ evs => evs = []).

Lemma traces_mono {A} (m : M W A) (P Q : A -> list E -> Prop) :
  traces m P -> (forall a evs, P a evs -> Q a evs) -> traces m Q.
Proof using Type. intros H HPQ w. eapply twp_mono; [apply H|]. naive_solver. Qed.

Lemma traces_ret {A} (a : A) (P : A -> list E -> Prop) : P a [] -> traces (ret a) P.
Proof using Type. intros H w. apply twp_ret. exists []. by rewrite app_nil_r. Qed.

Lemma traces_bind {A B} (m : M W A) (f : A -> M W B) P (Q : B -> list E -> Prop) :
  traces m P -> (forall a evs, P a evs -> traces (f a) (fun b evs' => Q b (evs ++ evs'))) ->
  traces (bind m f) Q.
Proof using Type.
  intros Hm Hf w. apply twp_bind. eapply twp_mono; [apply Hm|].
  intros a w1 (evs & Hl & HP). eapply twp_mono; [by apply Hf|].
  intros b w2 (evs' & Hl' & HQ). exists (evs ++ evs'). by rewrite Hl', Hl, app_assoc.
Qed.

Lemma traces_silent {A B} (m : M W A) (f : A -> M W B) (Q : B -> list E -> Prop) :
  silent m -> (forall a, traces (f a) Q) -> traces (bind m f) Q.
Proof using Type. intros Hm Hf. eapply traces_bind; [apply Hm|]. by intros a evs ->. Qed.

Lemma traces_yields {A} (m : M W A) (P : A -> list E -> Prop) (Q : A -> Prop) :
  traces m P -> yields m Q -> traces m (fun a evs => P a evs /\ Q a).
Proof using Type.
  intros H HQ w. specialize (H w). unfold twp in *. destruct (m w) as [a w'| |] eqn:Em; [|done..].
  destruct H as (evs & Hl & HP). exists evs. split_and!; [done..|]. by eapply HQ.
Qed.

Lemma traces_defer {A} (f : M W unit) (m : M W A) (P : A -> list E -> Prop) :
  silent f -> traces m P -> traces (defer f m) P.
Proof using Type.
  intros Hf Hm w. apply twp_defer. eapply twp_mono; [apply Hm|].
  intros a w1 (evs & Hl & HP). eapply twp_mono; [apply Hf|].
  intros ? w2 (evs' & Hl' & ->). exists evs. by rewrite Hl', app_nil_r.
Qed.

(** The events of a deferred call come last. *)
Lemma traces_defer_last {A} (f : M W unit) (m : M W A) (P : A -> list E -> Prop) (F : list E) :
  traces f (fun _ evs => evs = F) -> traces m P ->
  traces (defer f m) (fun a evs => exists before, evs = before ++ F /\ P a before).
Proof using Type.
  intros Hf Hm w. apply twp_defer. eapply twp_mono; [apply Hm|].
  intros a w1 (evs & Hl & HP). eapply twp_mono; [apply Hf|].
  intros ? w2 (evs' & Hl' & ->). exists (evs ++ F). rewrite Hl', Hl, app_assoc. split; [done|]. by exists evs.
Qed.

Lemma silent_gets {A} (f : W -> A) : silent (gets f).
Proof using Type. intros w. apply twp_gets. exists []. by rewrite app_nil_r. Qed.

Lemma silent_ret {A} (a : A) : silent (ret a).
Proof using Type. by apply traces_ret. Qed.

(** *** Code that may panic

    [outcomes m P X]: [m] returns, as [P] describes, or panics, with [X] of what
    it asked until then; it does not block. *)
Definition outcomes {A} (m : M W A) (P : A -> list E -> Prop) (X : list E -> Prop) : Prop :=
  forall w,
    match m w with
    | Ret a w' => exists evs, log w' = log w ++ evs /\ P a evs
    | Panic w' => exists evs, log w' = log w ++ evs /\ X evs
    | Block _ => False
    end.

Lemma outcomes_mono {A} (m : M W A) (P P' : A -> list E -> Prop) (X X' : list E -> Prop) :
  outcomes m P X -> (forall a evs, P a evs -> P' a evs) -> (forall evs, X evs -> X' evs) -> outcomes m P' X'.
Proof using Type. intros H HP HX w. specialize (H w). destruct (m w); [naive_solver..|done]. Qed.

Lemma outcomes_ret {A} (a : A) (P : A -> list E -> Prop) X : P a [] -> outcomes (ret a) P X.
Proof using Type. intros H w. exists []. by rewrite app_nil_r. Qed.

Lemma outcomes_traces {A} (m : M W A) P X : traces m P -> outcomes m P X.
Proof using Type. intros H w. specialize (H w). unfold twp in H. by destruct (m w). Qed.

Lemma outcomes_bind {A B} (m : M W A) (f : A -> M W B) P (Q : B -> list E -> Prop) (X : list E -> Prop) :
  outcomes m P X ->
  (forall a evs, P a evs -> outcomes (f a) (fun b evs' => Q b (evs ++ evs')) (fun evs' => X (evs ++ evs'))) ->
  outcomes (bind m f) Q X.
Proof using Type.
  intros Hm Hf w. specialize (Hm w). unfold bind. destruct (m w) as [a w1|w1|w1]; [|done..].
  destruct Hm as (evs & Hl & HP). specialize (Hf a evs HP w1).
  destruct (f a w1) as [b w2|w2|w2]; [..|done]; destruct Hf as (evs' & Hl' & H);
    exists (evs ++ evs'); by rewrite Hl', Hl, app_assoc.
Qed.

(** What a deferred call that returns adds to a panic. *)
Lemma outcomes_onPanic {A} (f : M W unit) (m : M W A) (P : A -> list E -> Prop) (X Y : list E -> Prop) :
  outcomes m P X -> traces f (fun _ evs => Y evs) ->
  outcomes (onPanic f m) P (fun evs => exists before after, evs = before ++ after /\ X before /\ Y after).
Proof using Type.
  intros Hm Hf w. specialize (Hm w). unfold onPanic, bind. destruct (m w) as [a w1|w1|w1]; [done| |done].
  destruct Hm as (evs & Hl & HX). specialize (Hf w1). unfold twp in Hf.
  destruct (f w1) as [u w2| |]; [|done..]. destruct Hf as (evs' & Hl' & HY).
  exists (evs ++ evs'). split; [by rewrite Hl', Hl, app_assoc|]. by exists evs, evs'.
Qed.

End traces.

(** ** Code that leaves a log alone

    [mute log m]: if [m] returns, the log is what it was. *)
Section mute.
Context {W E : Type} (log : W -> list E).

Definition mute {A} (m : M W A) : Prop := forall w a w', m w = Ret a w' -> log w' = log w.

Lemma mute_ret {A} (a : A) : mute (ret a).
Proof using Type. by intros w ? ? [= _ <-]. Qed.

Lemma mute_panic {A} : mute (@panic W A).
Proof using Type. by intros w ? ?. Qed.

Lemma mute_gets {A} (f : W -> A) : mute (gets f).
Proof using Type. by intros w ? ? [= _ <-]. Qed.

Lemma mute_bind {A B} (m : M W A) (f : A -> M W B) : mute m -> (forall a, mute (f a)) -> mute (bind m f).
Proof using Type.
  intros Hm Hf w b w' H. unfold bind in H. destruct (m w) as [a w1| |] eqn:E1; [|done..].
  by rewrite (Hf a w1 b w' H), (Hm w a w1 E1).
Qed.

Lemma mute_defer {A} (f : M W unit) (m : M W A) : mute f -> mute m -> mute (defer f m).
Proof using Type.
  intros Hf Hm w a w' H. unfold defer, bind, ret, panic in H. destruct (m w) as [x w1|w1|w1] eqn:E1; [| |done].
  - destruct (f w1) as [u w2| |] eqn:E2; [|done..]. injection H as <- <-. by rewrite (Hf _ _ _ E2), (Hm _ _ _ E1).
  - by destruct (f w1).
Qed.

Lemma mute_update {A B} (r : ref W A) (f : A -> B * A) :
  (forall a w, log (ref_set r a w) = log w) -> mute (update r f).
Proof using Type. intros H w b w'. unfold update. destruct (f _). intros [= _ <-]. apply H. Qed.

Lemma silent_mute {A} (m : M W A) : silent log m -> mute m.
Proof using Type.
  intros H w a w' E1. specialize (H w). unfold twp in H. rewrite E1 in H. destruct H as (evs & -> & ->). apply app_nil_r.
Qed.

End mute.

(** Step through code whose calls are mute by the hypotheses at hand. *)
Ltac mute_step :=
  match goal with
  | |- mute _ (ret _) => apply mute_ret
  | |- mute _ panic => apply mute_panic
  | |- mute _ (gets _) => apply mute_gets
  | |- mute _ (bind _ _) => apply mute_bind; [|intros ?]
  | |- mute _ (defer _ _) => apply mute_defer
  | |- mute _ (match ?x with _ => _ end) => destruct x eqn:?
  end.

(** ** Two logs side by side *)
Section traces2.
Context {W E F : Type} (log1 : W -> list E) (log2 : W -> list F).

Definition traces2 {A} (m : M W A) (P : A -> list E -> list F -> Prop) : Prop :=
  forall w, twp m (fun a w' => exists e1 e2, log1 w' = log1 w ++ e1 /\ log2 w' = log2 w ++ e2 /\ P a e1 e2) w.

Lemma traces2_mono {A} (m : M W A) (P Q : A -> list E -> list F -> Prop) :
  traces2 m P -> (forall a e1 e2, P a e1 e2 -> Q a e1 e2) -> traces2 m Q.
Proof using Type. intros H HPQ w. eapply twp_mono; [apply H|]. naive_solver. Qed.

Lemma traces2_ret {A} (a : A) (P : A -> list E -> list F -> Prop) : P a [] [] -> traces2 (ret a) P.
Proof using Type. intros H w. apply twp_ret. exists [], []. by rewrite !app_nil_r. Qed.

Lemma traces2_bind {A B} (m : M W A) (f : A -> M W B) P (Q : B -> list E -> list F -> Prop) :
  traces2 m P ->
  (forall a e1 e2, P a e1 e2 -> traces2 (f a) (fun b e1' e2' => Q b (e1 ++ e1') (e2 ++ e2'))) ->
  traces2 (bind m f) Q.
Proof using Type.
  intros Hm Hf w. apply twp_bind. eapply twp_mono; [apply Hm|].
  intros a w1 (e1 & e2 & H1 & H2 & HP). eapply twp_mono; [by apply Hf|].
  intros b w2 (e1' & e2' & H1' & H2' & HQ). exists (e1 ++ e1'), (e2 ++ e2').
  by rewrite H1', H2', H1, H2, !app_assoc.
Qed.

(** What is known of each log separately. *)
Lemma traces2_both {A} (m : M W A) P Q :
  traces log1 m P -> traces log2 m Q -> traces2 m (fun a e1 e2 => P a e1 /\ Q a e2).
Proof using Type.
  intros H1 H2 w. specialize (H1 w). specialize (H2 w). unfold twp in *. destruct (m w); [|done..].
  destruct H1 as (e1 & ? & ?), H2 as (e2 & ? & ?). by exists e1, e2.
Qed.

Lemma traces2_left {A} (m : M W A) P : traces log1 m P -> mute log2 m -> traces2 m (fun a e1 e2 => P a e1 /\ e2 = []).
Proof using Type.
  intros H1 H2 w. specialize (H1 w). unfold twp in *. destruct (m w) as [a w'| |] eqn:Em; [|done..].
  destruct H1 as (e1 & ? & ?). exists e1, []. rewrite app_nil_r. split_and!; [done|by eapply H2|done..].
Qed.

Lemma traces2_right {A} (m : M W A) P : mute log1 m -> traces log2 m P -> traces2 m (fun a e1 e2 => e1 = [] /\ P a e2).
Proof using Type.
  intros H1 H2 w. specialize (H2 w). unfold twp in *. destruct (m w) as [a w'| |] eqn:Em; [|done..].
  destruct H2 as (e2 & ? & ?). exists [], e2. rewrite app_nil_r. split_and!; [by eapply H1|done..].
Qed.

(** The events of a run are determined, so that what is known of them adds up. *)
Lemma traces2_and {A} (m : M W A) (P Q : A -> list E -> list F -> Prop) :
  traces2 m P -> traces2 m Q -> traces2 m (fun a e1 e2 => P a e1 e2 /\ Q a e1 e2).
Proof using Type.
  intros H1 H2 w. specialize (H1 w). specialize (H2 w). unfold twp in *. destruct (m w); [|done..].
  destruct H1 as (e1 & e2 & H1 & H2' & HP), H2 as (e1' & e2' & H3 & H4 & HQ).
  rewrite H1 in H3. rewrite H2' in H4. apply app_inv_head in H3, H4. subst. by exists e1', e2'.
Qed.

Lemma traces2_with {A} (m : M W A) P Q :
  traces2 m P -> traces log2 m Q -> traces2 m (fun a e1 e2 => P a e1 e2 /\ Q a e2).
Proof using Type.
  intros H1 H2 w. specialize (H1 w). specialize (H2 w). unfold twp in *. destruct (m w); [|done..].
  destruct H1 as (e1 & e2 & H1 & H2' & HP), H2 as (e2' & H4 & HQ).
  rewrite H2' in H4. apply app_inv_head in H4. subst. by exists e1, e2'.
Qed.

Lemma traces2_snd {A} (m : M W A) P (Q : A -> list F -> Prop) :
  traces2 m P -> (forall a e1 e2, P a e1 e2 -> Q a e2) -> traces log2 m Q.
Proof using Type. intros H HPQ w. eapply twp_mono; [apply H|]. naive_solver. Qed.

End traces2.
