(* ===== verification/Codec.v ===== *)
(** * Hashing and encoding

    SHA-256 and the JSON encoder are library code: they are parameters of the
    development, with the properties the program relies on as laws. *)

From stdpp Require Import base list strings.
From Stdlib Require Import ZArith.
From S2P Require Import Prelude Types GoStrings.

Local Open Scope Z_scope.

Module codec.

(** [sha256.Sum256]: the digest of a byte string. *)
Class Sha256 : Type := Sum256 : string -> list Z.

(** A digest is 32 bytes. *)
Class Sha256Ok `{!Sha256} : Prop := {
  sum_length : forall s, length (Sum256 s) = 32%nat;
  sum_bytes : forall s, Forall (fun b => 0 <= b < 256) (Sum256 s);
}.

(** [hex.EncodeToString(digest[:])] *)
Definition hex_digest `{!Sha256} (s : string) : string := EncodeToString (Sum256 s).

(** No two of the inputs of interest have the same digest. *)
Definition collision_free `{!Sha256} (P : string -> Prop) : Prop :=
  forall s t, P s -> P t -> Sum256 s = Sum256 t -> s = t.

Lemma hex_digest_inj `{!Sha256, !Sha256Ok} (P : string -> Prop) s t :
  collision_free P -> P s -> P t -> hex_digest s = hex_digest t -> s = t.
Proof.
  intros Hc Hs Ht Heq. apply Hc; [done..|]. apply EncodeToString_inj; [apply sum_bytes..|done].
Qed.

(** [json.Marshal] and [json.Unmarshal] on the types the program encodes. *)
Class Json : Type := {
  MarshalRequest : ChatRequest -> error + string;
  MarshalResponse : ChatResponse -> error + string;
  UnmarshalResponse : string -> error + ChatResponse;
  MarshalChunk : ChatStreamChunk -> error + string;
  UnmarshalChunk : string -> error + ChatStreamChunk;
}.

(** [Provider] has the tag [json:"-"]: it is not encoded. *)
Class JsonOk `{!Json} : Prop := {
  response_roundtrip : forall r s, MarshalResponse r = inr s ->
    UnmarshalResponse s = inr (set_resp_Provider "" r);
  request_no_nul : forall r s, MarshalRequest r = inr s -> Forall (fun b => b <> 0) (bytes_of s);
  chunk_roundtrip : forall c s, MarshalChunk c = inr s -> UnmarshalChunk s = inr c;
  chunk_no_newline : forall c s, MarshalChunk c = inr s ->
    Forall (fun b => b <> 10 /\ b <> 13) (bytes_of s);
  (** the encoding of a struct is an object, in braces *)
  chunk_object : forall c s, MarshalChunk c = inr s -> TrimSpace s <> "[DONE]";
}.

End codec.
