(* ===== verification/CircuitBreaker.v ===== *)
(** * Circuit breaker (internal/circuitbreaker/breaker.go)

    The breaker's mutable fields are the record [Breaker]; every exported
    method is one critical section under [b.mu], modelled as a pure transformer
    of that record (the functions named [...Locked]) followed, outside the lock,
    by the [OnStateChange] callback. The second half of the file states the
    abstract breaker (a sliding window of the last outcomes instead of a ring
    buffer), proves that the code refines it, and proves the invariants of a
    breaker whose methods are called by any number of goroutines in any order. *)

From stdpp Require Import base gmap list strings.
From Stdlib Require Import ZArith Lia.
From S2P Require Import Prelude Float64 Types.

Local Open Scope Z_scope.
Local Open Scope go_scope.

Module circuitbreaker.

(** ** Data *)

Inductive State : Type := StateClosed | StateOpen | StateHalfOpen.

#[global] Instance State_eq_dec : EqDecision State.
Proof. solve_decision. Defined.

(** [State.String] *)
Definition State_String (s : State) : string :=
  match s with
  | StateClosed => "closed"
  | StateOpen => "open"
  | StateHalfOpen => "half_open"
  end.

Inductive Outcome : Type := OutcomeIgnored | OutcomeSuccess | OutcomeFailure.

#[global] Instance Outcome_eq_dec : EqDecision Outcome.
Proof. solve_decision. Defined.

(** The numeric options; [Now] and [OnStateChange] belong to the handle. *)
Record Options : Type := mkOptions {
  WindowSize : Z;
  MinimumRequests : Z;
  FailureRatio : float64;
  OpenTimeout : Z;
  HalfOpenMaxRequests : Z;
}.

(** The fields of [Breaker] guarded by [mu]. *)
Record Breaker : Type := mkBreaker {
  state : State;
  outcomes : list bool;
  next : Z;
  failures : Z;
  openedAt : Z;
  halfOpenActive : Z;
  halfOpenPassed : Z;
  generation : Z;
}.

(** [done] is the state of the permit's [sync.Once]. *)
Record Permit : Type := mkPermit {
  p_state : State;
  p_generation : Z;
  p_done : bool;
}.

(** ** Operations under the lock *)

(** The parameter checks of [New] and the initial state. *)
Definition New (o : Options) : string + Breaker :=
  if WindowSize o <=? 0 then inl "window size must be positive"
  else if (MinimumRequests o <=? 0) || (WindowSize o <? MinimumRequests o) then
    inl "minimum requests must be between one and window size"
  else if fle (FailureRatio o) (float_of_Z 0) || flt (float_of_Z 1) (FailureRatio o) then
    inl "failure ratio must be in (0, 1]"
  else if OpenTimeout o <=? 0 then inl "open timeout must be positive"
  else if HalfOpenMaxRequests o <=? 0 then inl "half-open max requests must be positive"
  else inr (mkBreaker StateClosed [] 0 0 0 0 0 0).

Definition transitionLocked (now : Z) (s : State) (b : Breaker) : Breaker :=
  let gen := wrapu64 (generation b + 1) in
  match s with
  | StateClosed => mkBreaker s [] 0 0 (openedAt b) 0 0 gen
  | StateOpen => mkBreaker s (outcomes b) (next b) (failures b) now 0 0 gen
  | StateHalfOpen => mkBreaker s (outcomes b) (next b) (failures b) (openedAt b) 0 0 gen
  end.

Definition advanceLocked (o : Options) (now : Z) (b : Breaker) : bool * Breaker :=
  if negb (bool_decide (state b = StateOpen)) || (time_sub now (openedAt b) <? OpenTimeout o)
  then (false, b)
  else (true, transitionLocked now StateHalfOpen b).

(** [None] is the run-time panic of an index out of range. *)
Definition recordLocked (o : Options) (success : bool) (b : Breaker) : option Breaker :=
  if Z.of_nat (length (outcomes b)) <? WindowSize o then
    Some (mkBreaker (state b) (outcomes b ++ [success]) (next b)
            (if success then failures b else failures b + 1)
            (openedAt b) (halfOpenActive b) (halfOpenPassed b) (generation b))
  else if (next b <? 0) then None
  else
    match (outcomes b !! Z.to_nat (next b) : option bool) with
    | None => None
    | Some old =>
        let f := if old then failures b else failures b - 1 in
        Some (mkBreaker (state b) (<[Z.to_nat (next b) := success]> (outcomes b))
                (Z.rem (next b + 1) (WindowSize o))
                (if success then f else f + 1)
                (openedAt b) (halfOpenActive b) (halfOpenPassed b) (generation b))
    end.

(** The test of [complete] after a recorded outcome. *)
Definition tripped (o : Options) (b : Breaker) : bool :=
  let n := Z.of_nat (length (outcomes b)) in
  (MinimumRequests o <=? n) &&
  fle (FailureRatio o) (fdiv (float_of_Z (failures b)) (float_of_Z n)).

Definition set_halfOpen (active passed : Z) (b : Breaker) : Breaker :=
  mkBreaker (state b) (outcomes b) (next b) (failures b) (openedAt b) active passed
    (generation b).

(** [Allow] under the lock: the permit ([None] is [ErrOpen]) and the state to
    report to [OnStateChange], if it changed. *)
Definition allowLocked (o : Options) (now : Z) (b : Breaker)
  : (option Permit * option State) * Breaker :=
  let '(changed, b) := advanceLocked o now b in
  let report := if changed then Some (state b) else None in
  if bool_decide (state b = StateOpen) ||
     (bool_decide (state b = StateHalfOpen) && (HalfOpenMaxRequests o <=? halfOpenActive b))
  then ((None, report), b)
  else
    let b := if bool_decide (state b = StateHalfOpen)
             then set_halfOpen (halfOpenActive b + 1) (halfOpenPassed b) b
             else b in
    ((Some (mkPermit (state b) (generation b) false), report), b).

(** [State] under the lock. *)
Definition stateLocked (o : Options) (now : Z) (b : Breaker) : (State * option State) * Breaker :=
  let '(changed, b) := advanceLocked o now b in
  ((state b, if changed then Some (state b) else None), b).

(** [Available] under the lock. *)
Definition availableLocked (o : Options) (now : Z) (b : Breaker)
  : (bool * option State) * Breaker :=
  let '(changed, b) := advanceLocked o now b in
  ((bool_decide (state b = StateClosed) ||
    (bool_decide (state b = StateHalfOpen) && (halfOpenActive b <? HalfOpenMaxRequests o)),
    if changed then Some (state b) else None), b).

(** [complete] under the lock; [None] is the panic of [recordLocked]. *)
Definition completeLocked (o : Options) (now : Z) (permitState : State) (gen : Z)
    (outcome : Outcome) (b : Breaker) : option (option State * Breaker) :=
  if negb (gen =? generation b) || negb (bool_decide (permitState = state b)) then Some (None, b)
  else
    match state b with
    | StateClosed =>
        if bool_decide (outcome = OutcomeIgnored) then Some (None, b)
        else
          match recordLocked o (bool_decide (outcome = OutcomeSuccess)) b with
          | None => None
          | Some b =>
              if tripped o b then
                let b := transitionLocked now StateOpen b in Some (Some (state b), b)
              else Some (None, b)
          end
    | StateHalfOpen =>
        let b := if 0 <? halfOpenActive b
                 then set_halfOpen (halfOpenActive b - 1) (halfOpenPassed b) b else b in
        match outcome with
        | OutcomeFailure =>
            let b := transitionLocked now StateOpen b in Some (Some (state b), b)
        | OutcomeSuccess =>
            let b := set_halfOpen (halfOpenActive b) (halfOpenPassed b + 1) b in
            if HalfOpenMaxRequests o <=? halfOpenPassed b then
              let b := transitionLocked now StateClosed b in Some (Some (state b), b)
            else Some (None, b)
        | OutcomeIgnored => Some (None, b)
        end
    | StateOpen => Some (None, b)
    end.

(** ** The exported methods

    [W] is the world the breaker lives in; [cell] points to the breaker's
    fields. *)

Section handle.
Context {W : Type}.

Record Handle : Type := mkHandle {
  options : Options;
  Now : W -> Z;
  OnStateChange : State -> M W unit;
  cell : ref W Breaker;
}.

(** [New]'s defaults for a nil [Now] and a nil [OnStateChange]. *)
Definition NewHandle (o : Options) (now : option (W -> Z)) (time_Now : W -> Z)
    (onChange : option (State -> M W unit)) (r : ref W Breaker) : string + (Handle * Breaker) :=
  match New o with
  | inl e => inl e
  | inr b =>
      inr (mkHandle o (default time_Now now) (default (fun _ => ret tt) onChange) r, b)
  end.

Definition notify (h : Handle) (changed : option State) : M W unit :=
  match changed with
  | Some s => OnStateChange h s
  | None => ret tt
  end.

Definition Allow (h : Handle) : M W (error + Permit) :=
  let! now := gets (Now h) in
  let! r := update (cell h) (allowLocked (options h) now) in
  notify h (snd r) ;!
  match fst r with
  | Some permit => ret (inr permit)
  | None => ret (inl (ESentinel ErrOpen))
  end.

Definition State_ (h : Handle) : M W State :=
  let! now := gets (Now h) in
  let! r := update (cell h) (stateLocked (options h) now) in
  notify h (snd r) ;!
  ret (fst r).

Definition Available (h : Handle) : M W bool :=
  let! now := gets (Now h) in
  let! r := update (cell h) (availableLocked (options h) now) in
  notify h (snd r) ;!
  ret (fst r).

Definition complete (h : Handle) (permitState : State) (gen : Z) (outcome : Outcome) : M W unit :=
  let! now := gets (Now h) in
  let! b := load (cell h) in
  match completeLocked (options h) now permitState gen outcome b with
  | None => panic
  | Some (changed, b') =>
      store (cell h) b' ;!
      notify h changed
  end.

(** [Done] returns the permit with its [sync.Once] fired. *)
Definition Done (h : Handle) (p : option Permit) (outcome : Outcome) : M W (option Permit) :=
  match p with
  | None => ret None
  | Some p =>
      if p_done p then ret (Some p)
      else
        complete h (p_state p) (p_generation p) outcome ;!
        ret (Some (mkPermit (p_state p) (p_generation p) true))
  end.

End handle.
Arguments Handle : clear implicits.

(** ** The abstract breaker

    What the component promises: in the closed state it watches the last
    [WindowSize] outcomes, oldest first; in the open state it remembers when it
    opened; in the half-open state it counts the probes in flight and the
    probes that succeeded. *)

Inductive Abstract : Type :=
| AClosed (recent : list bool)
| AOpen (since : Z)
| AHalfOpen (active passed : Z).

(** Append an outcome to a window of at most [n], forgetting the oldest. *)
Definition push (n : Z) (x : bool) (l : list bool) : list bool :=
  if Z.of_nat (length l) <? n then l ++ [x] else tail l ++ [x].

Definition spec_tripped (o : Options) (l : list bool) : bool :=
  (MinimumRequests o <=? Z.of_nat (length l)) &&
  fle (FailureRatio o)
    (fdiv (float_of_Z (Z.of_nat (count negb l))) (float_of_Z (Z.of_nat (length l)))).

Definition spec_advance (o : Options) (now : Z) (a : Abstract) : Abstract :=
  match a with
  | AOpen since => if OpenTimeout o <=? time_sub now since then AHalfOpen 0 0 else a
  | _ => a
  end.

(** Whether a call is admitted, and the state afterwards. *)
Definition spec_allow (o : Options) (now : Z) (a : Abstract) : bool * Abstract :=
  match spec_advance o now a with
  | AClosed l => (true, AClosed l)
  | AOpen since => (false, AOpen since)
  | AHalfOpen active passed =>
      if active <? HalfOpenMaxRequests o then (true, AHalfOpen (active + 1) passed)
      else (false, AHalfOpen active passed)
  end.

(** The outcome of a call that was admitted in the current period. *)
Definition spec_complete (o : Options) (now : Z) (outcome : Outcome) (a : Abstract) : Abstract :=
  match a, outcome with
  | AClosed l, OutcomeIgnored => AClosed l
  | AClosed l, _ =>
      let l := push (WindowSize o) (bool_decide (outcome = OutcomeSuccess)) l in
      if spec_tripped o l then AOpen now else AClosed l
  | AHalfOpen active passed, OutcomeFailure => AOpen now
  | AHalfOpen active passed, OutcomeSuccess =>
      if HalfOpenMaxRequests o <=? passed + 1 then AClosed []
      else AHalfOpen (active - 1) (passed + 1)
  | AHalfOpen active passed, OutcomeIgnored => AHalfOpen (active - 1) passed
  | AOpen since, _ => AOpen since
  end.

(** The ring buffer read from its oldest entry. *)
Definition window (b : Breaker) : list bool :=
  drop (Z.to_nat (next b)) (outcomes b) ++ take (Z.to_nat (next b)) (outcomes b).

Definition abstract (b : Breaker) : Abstract :=
  match state b with
  | StateClosed => AClosed (window b)
  | StateOpen => AOpen (openedAt b)
  | StateHalfOpen => AHalfOpen (halfOpenActive b) (halfOpenPassed b)
  end.

(** ** Well-formed breakers *)

(** The options [New] accepts. *)
Record valid_options (o : Options) : Prop := {
  vo_window : 0 < WindowSize o;
  vo_minimum : 0 < MinimumRequests o <= WindowSize o;
  vo_ratio_pos : fle (FailureRatio o) (float_of_Z 0) = false;
  vo_ratio_one : flt (float_of_Z 1) (FailureRatio o) = false;
  vo_timeout : 0 < OpenTimeout o;
  vo_probes : 0 < HalfOpenMaxRequests o;
}.

Record wf (o : Options) (b : Breaker) : Prop := {
  wf_length : Z.of_nat (length (outcomes b)) <= WindowSize o;
  wf_next : 0 <= next b < WindowSize o;
  wf_partial : Z.of_nat (length (outcomes b)) < WindowSize o -> next b = 0;
  wf_failures : failures b = Z.of_nat (count negb (outcomes b));
  wf_active : 0 <= halfOpenActive b <= HalfOpenMaxRequests o;
  wf_passed : 0 <= halfOpenPassed b < HalfOpenMaxRequests o;
  wf_idle : state b <> StateHalfOpen -> halfOpenActive b = 0 /\ halfOpenPassed b = 0;
  wf_generation : 0 <= generation b < 2 ^ 64;
}.

(** ** A breaker shared by many goroutines

    Every method takes the lock once, so an execution is a sequence of atomic
    events; [sys_permits] lists every permit handed out so far. The clock value
    an event reads is arbitrary. *)

Record Sys : Type := mkSys {
  sys_breaker : Breaker;
  sys_permits : list Permit;
}.

Inductive Event : Type :=
| EvAllow (now : Z)
| EvAvailable (now : Z)
| EvState (now : Z)
| EvDone (now : Z) (i : nat) (outcome : Outcome).

(** [None]: the code panics, or the event names a permit that was never
    handed out. *)
Definition exec (o : Options) (e : Event) (s : Sys) : option Sys :=
  let b := sys_breaker s in
  let ps := sys_permits s in
  match e with
  | EvAllow now =>
      let '((p, _), b') := allowLocked o now b in
      Some (mkSys b' (match p with Some p => ps ++ [p] | None => ps end))
  | EvAvailable now => Some (mkSys (availableLocked o now b).2 ps)
  | EvState now => Some (mkSys (stateLocked o now b).2 ps)
  | EvDone now i outcome =>
      match ps !! i with
      | None => None
      | Some p =>
          if p_done p then Some s
          else
            match completeLocked o now (p_state p) (p_generation p) outcome b with
            | None => None
            | Some (_, b') =>
                Some (mkSys b' (<[i := mkPermit (p_state p) (p_generation p) true]> ps))
            end
      end
  end.

(** The states reachable in [n] events. *)
Inductive reach (o : Options) : nat -> Sys -> Prop :=
| reach_New b : New o = inr b -> reach o 0 (mkSys b [])
| reach_exec n s e s' : reach o n s -> exec o e s = Some s' -> reach o (S n) s'.

(** A probe of generation [g] whose outcome is not yet known. *)
Definition live_probe (g : Z) (p : Permit) : bool :=
  negb (p_done p) && (p_generation p =? g) && bool_decide (p_state p = StateHalfOpen).

(** The permits are consistent with the breaker's current period. *)
Record inv (o : Options) (n : nat) (b : Breaker) (ps : list Permit) : Prop := {
  inv_wf : wf o b;
  inv_generation : generation b <= Z.of_nat n;
  inv_permits : Forall (fun p => p_generation p <= generation b /\
    (p_generation p = generation b -> p_state p = state b /\ state b <> StateOpen)) ps;
  inv_probes : state b = StateHalfOpen ->
    halfOpenActive b = Z.of_nat (count (live_probe (generation b)) ps);
}.

(** Whether event [e] completes a permit of the current period. *)
Definition current (e : Event) (s : Sys) : bool :=
  match e with
  | EvDone _ i _ =>
      match sys_permits s !! i with
      | Some p =>
          negb (p_done p) && (p_generation p =? generation (sys_breaker s)) &&
          bool_decide (p_state p = state (sys_breaker s))
      | None => false
      end
  | _ => false
  end.

(** What the abstract breaker does at an event. *)
Definition spec_exec (o : Options) (e : Event) (cur : bool) (a : Abstract) : Abstract :=
  match e with
  | EvAllow now => (spec_allow o now a).2
  | EvAvailable now | EvState now => spec_advance o now a
  | EvDone now _ outcome => if cur then spec_complete o now outcome a else a
  end.

(** One successful probe: [Allow], then [Done(OutcomeSuccess)]. *)
Definition probe (o : Options) (now : Z) (b : Breaker) : option Breaker :=
  match allowLocked o now b with
  | ((Some p, _), b1) =>
      match completeLocked o now (p_state p) (p_generation p) OutcomeSuccess b1 with
      | Some (_, b2) => Some b2
      | None => None
      end
  | ((None, _), _) => None
  end.

Fixpoint probes (o : Options) (now : Z) (k : nat) (b : Breaker) : option Breaker :=
  match k with
  | O => Some b
  | S k => match probe o now b with Some b' => probes o now k b' | None => None end
  end.

(** 0.5 as a binary64 number, and the configuration's defaults. *)
Definition one_half : float64 := Eval vm_compute in fdiv (float_of_Z 1) (float_of_Z 2).
Definition default_options : Options := mkOptions 20 10 one_half (30 * second) 1.

(** A finite execution. *)
Fixpoint run (o : Options) (l : list Event) (s : Sys) : option Sys :=
  match l with
  | [] => Some s
  | e :: l => match exec o e s with Some s' => run o l s' | None => None end
  end.

(** A small breaker and an execution that opens it (two failures), lets the
    timeout pass and sends one probe. *)
Definition small_options : Options := mkOptions 2 2 one_half 10 1.
Definition fresh : Sys := mkSys (mkBreaker StateClosed [] 0 0 0 0 0 0) [].
Definition opening : list Event :=
  [EvAllow 0; EvAllow 0; EvDone 1 0 OutcomeFailure; EvDone 2 1 OutcomeFailure].
Definition probing : list Event := opening ++ [EvAllow 12].
Definition opened : Sys := Eval vm_compute in default fresh (run small_options opening fresh).
Definition half_opened : Sys := Eval vm_compute in default fresh (run small_options probing fresh).

(** ** Lemmas *)

Lemma reach_run o l n s s' :
  reach o n s -> run o l s = Some s' -> reach o (n + length l) s'.
Proof.
  revert n s. induction l as [|e l IH]; simpl; intros n s Hr H; simplify_eq.
  - by rewrite Nat.add_0_r.
  - destruct (exec o e s) eqn:E; [|done]. replace (n + S (length l))%nat with (S n + length l)%nat by lia.
    eapply IH; [|done]. by eapply reach_exec.
Qed.

Lemma New_valid o b : New o = inr b -> valid_options o /\ b = mkBreaker StateClosed [] 0 0 0 0 0 0.
Proof.
  unfold New. repeat case_match; intros; simplify_eq. split; [|done].
  constructor; rewrite ?orb_false_iff in *; destruct_and?; try done; lia.
Qed.

Lemma New_accepts o : valid_options o -> New o = inr (mkBreaker StateClosed [] 0 0 0 0 0 0).
Proof.
  intros []. unfold New.
  repeat (rewrite (proj2 (Z.leb_gt _ _)) by lia). rewrite (proj2 (Z.ltb_ge _ _)) by lia.
  by rewrite vo_ratio_pos0, vo_ratio_one0.
Qed.

(** Overwriting the oldest slot of a full ring and advancing [next]. *)
Lemma ring_overwrite (l : list bool) i (x : bool) :
  (i < length l)%nat ->
  let j := ((i + 1) mod (length l))%nat in
  drop j (<[i:=x]> l) ++ take j (<[i:=x]> l) = tail (drop i l ++ take i l) ++ [x].
Proof.
  intros Hi j. destruct (lookup_lt_is_Some_2 l i Hi) as [y Hy].
  rewrite (drop_S l y i) by done. simpl. rewrite <- app_assoc.
  rewrite insert_take_drop by done.
  assert (length (take i l) = i) as Hlen by (rewrite length_take; lia).
  destruct (decide (i + 1 = length l)%nat) as [E|E].
  - subst j. rewrite E, Nat.Div0.mod_same. rewrite drop_0, take_0, app_nil_r.
    by rewrite (drop_ge l (S i)) by lia.
  - subst j. rewrite Nat.mod_small by lia.
    rewrite drop_app_ge, take_app_ge, Hlen by lia.
    by replace (i + 1 - i)%nat with 1%nat by lia.
Qed.

Lemma window_length b : length (window b) = length (outcomes b).
Proof. unfold window. rewrite length_app, length_drop, length_take. lia. Qed.

Lemma window_count p b : count p (window b) = count p (outcomes b).
Proof.
  unfold window. rewrite count_app, Nat.add_comm, <- count_app. by rewrite take_drop.
Qed.

Lemma wf_tripped o b : wf o b -> tripped o b = spec_tripped o (window b).
Proof.
  intros []. unfold tripped, spec_tripped. by rewrite window_length, window_count, wf_failures0.
Qed.

Lemma record_refines o x b :
  valid_options o -> wf o b ->
  exists b', recordLocked o x b = Some b' /\ wf o b' /\
    window b' = push (WindowSize o) x (window b) /\
    state b' = state b /\ generation b' = generation b /\ openedAt b' = openedAt b.
Proof.
  intros Ho Hb. destruct Ho, Hb. unfold recordLocked, push. rewrite window_length.
  destruct (Z.ltb_spec (Z.of_nat (length (outcomes b))) (WindowSize o)) as [Hl|Hl].
  - eexists. split; [done|]. specialize (wf_partial0 Hl).
    split; [constructor|split_and!]; simpl; try done; try lia.
    + rewrite length_app. simpl. lia.
    + rewrite count_app, wf_failures0. simpl. destruct x; simpl; lia.
    + unfold window. simpl. rewrite wf_partial0. simpl. by rewrite !drop_0, !take_0, !app_nil_r.
  - rewrite (proj2 (Z.ltb_ge (next b) 0)) by lia.
    assert (length (outcomes b) = Z.to_nat (WindowSize o)) as Hlen by lia.
    destruct (lookup_lt_is_Some_2 (outcomes b) (Z.to_nat (next b))) as [old Hold]; [lia|].
    rewrite Hold. eexists. split; [done|].
    assert (Z.to_nat (Z.rem (next b + 1) (WindowSize o)) =
            ((Z.to_nat (next b) + 1) mod (length (outcomes b)))%nat) as Hrem.
    { rewrite Z.rem_mod_nonneg by lia. rewrite Hlen, Z2Nat.inj_mod by lia. f_equal. lia. }
    pose proof (Z.rem_bound_pos (next b + 1) (WindowSize o)).
    split; [constructor|split_and!]; simpl; try done; try lia.
    + rewrite length_insert. lia.
    + rewrite length_insert. lia.
    + pose proof (count_insert negb _ _ _ x Hold). rewrite wf_failures0.
      destruct x, old; simpl in *; lia.
    + unfold window. simpl. rewrite Hrem. apply ring_overwrite. lia.
Qed.

Lemma transition_wf o now st b :
  valid_options o -> wf o b -> wf o (transitionLocked now st b).
Proof.
  intros [] []. destruct st; constructor; simpl; auto with golib; try lia.
Qed.

Lemma advance_refines o now b :
  abstract (advanceLocked o now b).2 = spec_advance o now (abstract b).
Proof.
  unfold advanceLocked, abstract, spec_advance.
  destruct (state b) eqn:E; simpl; try (by rewrite E).
  rewrite Z.leb_antisym. destruct (time_sub now (openedAt b) <? OpenTimeout o); simpl;
    by rewrite ?E.
Qed.

Lemma advance_wf o now b :
  valid_options o -> wf o b -> wf o (advanceLocked o now b).2.
Proof.
  intros Ho Hb. unfold advanceLocked. case_match; [done|]. by apply transition_wf.
Qed.

Lemma set_halfOpen_wf o b active passed :
  wf o b -> state b = StateHalfOpen ->
  0 <= active <= HalfOpenMaxRequests o -> 0 <= passed < HalfOpenMaxRequests o ->
  wf o (set_halfOpen active passed b).
Proof. intros [] **. constructor; simpl; auto; try lia. done. Qed.

Lemma allow_wf o now b :
  valid_options o -> wf o b -> wf o (allowLocked o now b).2.
Proof.
  intros Ho Hb. pose proof (advance_wf o now b Ho Hb) as Ha. unfold allowLocked.
  destruct (advanceLocked o now b) as [changed b1]; simpl in *.
  destruct (state b1) eqn:E; repeat case_bool_decide; simplify_eq; simpl; try done.
  destruct (Z.leb_spec (HalfOpenMaxRequests o) (halfOpenActive b1)); simpl; [done|].
  destruct Ha. apply set_halfOpen_wf; [by constructor|done|lia|lia].
Qed.

Lemma allow_refines o now b :
  let '((p, _), b') := allowLocked o now b in
  (bool_decide (is_Some p), abstract b') = spec_allow o now (abstract b) /\
  (forall q, p = Some q ->
     p_state q = state b' /\ p_generation q = generation b' /\ p_done q = false /\
     state b' <> StateOpen).
Proof.
  unfold spec_allow. rewrite <- advance_refines. unfold allowLocked.
  destruct (advanceLocked o now b) as [changed b1]. unfold abstract. cbn [snd].
  destruct (state b1) eqn:E; repeat case_bool_decide; simplify_eq; cbn;
    rewrite ?E; try (split; [done|naive_solver]).
  rewrite Z.leb_antisym. destruct (halfOpenActive b1 <? HalfOpenMaxRequests o); cbn;
    rewrite ?E; cbn; split; naive_solver.
Qed.

(** After a permit was handed out in the half-open state, it is counted. *)
Lemma allow_active_pos o now b q report b1 :
  valid_options o -> wf o b -> allowLocked o now b = ((Some q, report), b1) ->
  state b1 = StateHalfOpen -> 0 < halfOpenActive b1.
Proof.
  intros Ho Hb. pose proof (advance_wf o now b Ho Hb) as Ha. unfold allowLocked.
  destruct (advanceLocked o now b) as [c b2]. simpl in Ha.
  destruct (state b2) eqn:E; repeat case_bool_decide; try done; simpl;
    try (destruct (Z.leb_spec (HalfOpenMaxRequests o) (halfOpenActive b2)); simpl);
    intros Heq Hs; simplify_eq/=; destruct Ha; first [congruence|lia].
Qed.

(** A permit of another period does not touch the breaker. *)
Lemma complete_stale o now ps g outcome b :
  g <> generation b \/ ps <> state b -> completeLocked o now ps g outcome b = Some (None, b).
Proof.
  intros H. unfold completeLocked.
  destruct (Z.eqb_spec g (generation b)), (bool_decide_reflect (ps = state b)); simpl; try done.
  naive_solver.
Qed.

Lemma complete_refines o now outcome b :
  valid_options o -> wf o b -> (state b = StateHalfOpen -> 0 < halfOpenActive b) ->
  exists r b', completeLocked o now (state b) (generation b) outcome b = Some (r, b') /\
    wf o b' /\ abstract b' = spec_complete o now outcome (abstract b).
Proof.
  intros Ho Hb Hpos. unfold completeLocked, abstract.
  rewrite Z.eqb_refl, bool_decide_eq_true_2 by done. cbn [negb orb].
  destruct (state b) eqn:E.
  - destruct (decide (outcome = OutcomeIgnored)) as [->|Hne];
      [do 2 eexists; split; [done|]; by rewrite E|].
    rewrite bool_decide_eq_false_2 by done.
    destruct (record_refines o (bool_decide (outcome = OutcomeSuccess)) b)
      as (b' & -> & Hb' & Hw & Hs & _); [done|done|].
    rewrite (wf_tripped o b'), Hw by done.
    destruct (spec_tripped o (push _ _ _)) eqn:Ht; do 2 eexists; (split; [done|]);
      (split; [by try apply transition_wf|]); destruct outcome; try done; cbn in *;
      by rewrite ?Ht, ?Hs, ?E, ?Hw.
  - do 2 eexists. split; [done|]. split; [done|]. by rewrite E.
  - specialize (Hpos eq_refl). pose proof Hb as [].
    rewrite (proj2 (Z.ltb_lt _ _)) by done. destruct outcome; cbn.
    + do 2 eexists. split; [done|]. cbn. rewrite E.
      split; [apply set_halfOpen_wf; auto; lia|done].
    + destruct (Z.leb_spec (HalfOpenMaxRequests o) (halfOpenPassed b + 1)).
      * do 2 eexists. split; [done|]. split; [|done].
        destruct Hb, Ho. constructor; simpl; auto with golib; lia.
      * do 2 eexists. split; [done|]. cbn. rewrite E. split; [|done].
        constructor; simpl; auto; try lia. by rewrite E.
    + do 2 eexists. split; [done|]. split; [|done].
      destruct Hb, Ho. constructor; simpl; auto with golib; try lia.
Qed.

Lemma inv_transition o n now st b ps :
  valid_options o -> wf o b -> generation b <= Z.of_nat n -> Z.of_nat (S n) < 2 ^ 64 ->
  Forall (fun p => p_generation p <= generation b) ps ->
  inv o (S n) (transitionLocked now st b) ps.
Proof.
  intros Ho Hb Hn Hlt Hps. pose proof (wf_generation _ _ Hb).
  assert (generation (transitionLocked now st b) = generation b + 1) as Hg
    by (destruct st; simpl; apply wrapu64_id; lia).
  constructor.
  - by apply transition_wf.
  - rewrite Hg. lia.
  - rewrite Hg. eapply Forall_impl; [done|]. intros p Hp. simpl in Hp. split; lia.
  - intros _. replace (halfOpenActive (transitionLocked now st b)) with 0 by (by destruct st).
    rewrite count_zero; [done|]. eapply Forall_impl; [done|]. intros p Hp. simpl in Hp.
    unfold live_probe. rewrite Hg, (proj2 (Z.eqb_neq _ _)) by lia. by destruct (p_done p).
Qed.

Lemma inv_mono o n b ps : inv o n b ps -> inv o (S n) b ps.
Proof. intros []. constructor; auto. lia. Qed.

Lemma inv_permits_le o n b ps :
  inv o n b ps -> Forall (fun p => p_generation p <= generation b) ps.
Proof. intros []. eapply Forall_impl; [done|]. naive_solver. Qed.

Lemma inv_advance o n now b ps :
  valid_options o -> Z.of_nat (S n) < 2 ^ 64 -> inv o n b ps ->
  inv o (S n) (advanceLocked o now b).2 ps.
Proof.
  intros Ho Hn Hi. unfold advanceLocked. case_match; [by apply inv_mono|].
  apply inv_transition; try done; [apply Hi|apply Hi|by eapply inv_permits_le].
Qed.

Lemma inv_allow o n now b ps p r b' :
  valid_options o -> Z.of_nat (S n) < 2 ^ 64 -> inv o n b ps ->
  allowLocked o now b = ((p, r), b') ->
  inv o (S n) b' (match p with Some p => ps ++ [p] | None => ps end).
Proof.
  intros Ho Hn Hi E. pose proof (inv_advance o n now b ps Ho Hn Hi) as Ha.
  pose proof (allow_wf o now b Ho (inv_wf _ _ _ _ Hi)) as Hw. rewrite E in Hw. simpl in Hw.
  revert E. unfold allowLocked. destruct (advanceLocked o now b) as [c b1]. simpl in Ha.
  destruct Ha as [Hwf Hg Hp Hc].
  destruct (state b1) eqn:E1; repeat case_bool_decide; try done; cbn;
    try (destruct (Z.leb_spec (HalfOpenMaxRequests o) (halfOpenActive b1)); cbn);
    intros; simplify_eq; try (by constructor; rewrite ?E1); constructor; simpl; auto;
    try (apply Forall_app_2; [by try rewrite E1|]; repeat constructor; simpl; by rewrite ?E1);
    rewrite ?E1; try done.
  intros _. rewrite count_app. simpl. unfold live_probe at 2. simpl.
  rewrite Z.eqb_refl. simpl. rewrite Hc by done. lia.
Qed.

(** A permit that matches the breaker's generation matches its state. *)
Lemma inv_lookup o n b ps i p :
  inv o n b ps -> ps !! i = Some p -> p_generation p = generation b ->
  p_state p = state b /\ state b <> StateOpen.
Proof. intros [_ _ Hp _] Hi. rewrite Forall_lookup in Hp. by apply (Hp _ _ Hi). Qed.

(** Marking a permit done changes the number of live probes by one, if it was
    one. *)
Lemma count_mark_done g ps i p :
  ps !! i = Some p ->
  (count (live_probe g) (<[i := mkPermit (p_state p) (p_generation p) true]> ps)
   + (if live_probe g p then 1 else 0) = count (live_probe g) ps)%nat.
Proof.
  intros Hi. pose proof (count_insert (live_probe g) ps i p
    (mkPermit (p_state p) (p_generation p) true) Hi) as H. simpl in H. lia.
Qed.

Lemma mark_done_le g ps i p :
  ps !! i = Some p -> Forall (fun p => p_generation p <= g) ps ->
  Forall (fun p => p_generation p <= g) (<[i := mkPermit (p_state p) (p_generation p) true]> ps).
Proof.
  intros Hi H. apply Forall_insert; [done|]. simpl. rewrite Forall_lookup in H. eauto.
Qed.

(** A half-open breaker counts the permit being completed as a live probe. *)
Lemma inv_active_pos o n b ps i p :
  inv o n b ps -> ps !! i = Some p -> p_done p = false -> p_generation p = generation b ->
  state b = StateHalfOpen -> 0 < halfOpenActive b.
Proof.
  intros Hi Hl Hd Hg Hs. rewrite (inv_probes _ _ _ _ Hi Hs).
  pose proof (count_pos (live_probe (generation b)) ps i p Hl) as H.
  destruct (inv_lookup _ _ _ _ _ _ Hi Hl Hg) as [Hps _].
  unfold live_probe in H at 1. rewrite Hd, Hg, Hps, Hs, Z.eqb_refl in H.
  specialize (H eq_refl). lia.
Qed.

Lemma inv_same_period o n b b' ps i p :
  inv o n b ps -> ps !! i = Some p -> wf o b' -> state b' = state b ->
  generation b' = generation b ->
  (state b = StateHalfOpen ->
   halfOpenActive b' = halfOpenActive b - (if live_probe (generation b) p then 1 else 0)) ->
  inv o (S n) b' (<[i := mkPermit (p_state p) (p_generation p) true]> ps).
Proof.
  intros Hi Hl Hwf Hs Hg Ha. pose proof (count_mark_done (generation b) ps i p Hl) as Hc.
  destruct Hi as [_ Hn Hp Hpr]. constructor; rewrite ?Hg, ?Hs; [done|lia| |].
  - apply Forall_insert; [done|]. rewrite Forall_lookup in Hp. apply (Hp _ _ Hl).
  - intros Hh. rewrite Ha, Hpr by done. destruct (live_probe (generation b) p); lia.
Qed.

Lemma inv_complete o n now b ps i p outcome r b' :
  valid_options o -> Z.of_nat (S n) < 2 ^ 64 -> inv o n b ps ->
  ps !! i = Some p -> p_done p = false ->
  completeLocked o now (p_state p) (p_generation p) outcome b = Some (r, b') ->
  inv o (S n) b' (<[i := mkPermit (p_state p) (p_generation p) true]> ps).
Proof.
  intros Ho Hn Hi Hl Hd E. pose proof (inv_permits_le _ _ _ _ Hi) as Hle.
  apply (mark_done_le _ _ _ _ Hl) in Hle. pose proof (inv_wf _ _ _ _ Hi) as Hwf.
  pose proof (inv_generation _ _ _ _ Hi) as Hgn.
  destruct (decide (p_generation p = generation b)) as [Hg|Hg].
  2: { rewrite complete_stale in E by auto. simplify_eq. eapply inv_same_period; try done.
       intros _. unfold live_probe. rewrite (proj2 (Z.eqb_neq _ _)) by done.
       rewrite Hd. simpl. lia. }
  destruct (inv_lookup _ _ _ _ _ _ Hi Hl Hg) as [Hst Hno].
  destruct (complete_refines o now outcome b Ho Hwf) as (r1 & b1 & E1 & Hwf1 & _).
  { by eapply inv_active_pos. }
  rewrite Hg, Hst in E. rewrite E1 in E. injection E as -> ->. revert E1.
  unfold completeLocked. rewrite Z.eqb_refl, bool_decide_eq_true_2 by done. cbn [negb orb].
  destruct (state b) eqn:Eb; [|done|].
  - case_bool_decide; [intros; simplify_eq; eapply inv_same_period; by try rewrite Eb|].
    destruct (record_refines o (bool_decide (outcome = OutcomeSuccess)) b)
      as (b2 & -> & Hwf2 & _ & Hs2 & Hg2 & _); [done|done|].
    case_match; intros; simplify_eq.
    + apply inv_transition; rewrite ?Hg2; auto.
    + eapply inv_same_period; try done. by rewrite Eb.
  - pose proof (inv_active_pos _ _ _ _ _ _ Hi Hl Hd Hg Eb) as Hpos.
    assert (live_probe (generation b) p = true) as Hlive.
    { unfold live_probe. by rewrite Hd, Hg, Z.eqb_refl, Hst. }
    pose proof Hwf as []. rewrite (proj2 (Z.ltb_lt _ _)) by done.
    destruct outcome; [| case_match |]; intros; simplify_eq.
    + eapply inv_same_period; try done. intros _. rewrite Hlive. simpl. lia.
    + apply (inv_transition o n now StateClosed (set_halfOpen (halfOpenActive b - 1)
        (halfOpenPassed b) b)); auto. apply set_halfOpen_wf; auto; lia.
    + eapply inv_same_period; try done. intros _. rewrite Hlive. simpl. lia.
    + apply inv_transition; auto. apply set_halfOpen_wf; auto; lia.
Qed.

Lemma reach_valid o n s : reach o n s -> valid_options o.
Proof. induction 1 as [b Hb|]; [|done]. by apply New_valid in Hb as [? _]. Qed.

Lemma reach_inv o n s :
  reach o n s -> Z.of_nat n < 2 ^ 64 -> inv o n (sys_breaker s) (sys_permits s).
Proof.
  induction 1 as [b Hb|n s e s' Hr IH He]; intros Hn.
  - apply New_valid in Hb as [[] ->]. repeat constructor; simpl; try lia; done.
  - pose proof (reach_valid _ _ _ Hr) as Ho. specialize (IH ltac:(lia)).
    destruct e as [now|now|now|now i out]; simpl in He.
    + destruct (allowLocked o now (sys_breaker s)) as [[p r] b'] eqn:E. simplify_eq/=.
      by eapply inv_allow.
    + simplify_eq. unfold availableLocked.
      pose proof (inv_advance o n now _ _ Ho Hn IH). by destruct (advanceLocked _ _ _).
    + simplify_eq. unfold stateLocked.
      pose proof (inv_advance o n now _ _ Ho Hn IH). by destruct (advanceLocked _ _ _).
    + repeat case_match; simplify_eq/=; [by apply inv_mono|by eapply inv_complete].
Qed.

Lemma default_valid : valid_options default_options.
Proof. by constructor; vm_compute. Qed.

(** The float comparison with 0.5 is exact for every window the size of which
    is at most 100. *)
Lemma one_half_exact_upto :
  forallb (fun n => forallb (fun k =>
      Bool.eqb (fle one_half (fdiv (float_of_Z (Z.of_nat k)) (float_of_Z (Z.of_nat n))))
               (Z.of_nat n <=? 2 * Z.of_nat k))
    (seq 0 (S n))) (seq 1 100) = true.
Proof. vm_compute. reflexivity. Qed.

Lemma one_half_exact k n :
  (k <= n)%nat -> (1 <= n <= 100)%nat ->
  fle one_half (fdiv (float_of_Z (Z.of_nat k)) (float_of_Z (Z.of_nat n))) =
  (Z.of_nat n <=? 2 * Z.of_nat k).
Proof.
  intros Hk Hn. pose proof one_half_exact_upto as H. rewrite forallb_forall in H.
  specialize (H n (proj2 (in_seq 100 1 n) ltac:(lia))). rewrite forallb_forall in H.
  specialize (H k (proj2 (in_seq (S n) 0 k) ltac:(lia))). by apply eqb_prop.
Qed.

(** In the closed state a NaN ratio never trips the breaker. *)
Lemma nan_never_trips o b : FailureRatio o = float_nan -> tripped o b = false.
Proof. intros H. unfold tripped. rewrite H, fle_nan_l. apply andb_false_r. Qed.

Lemma complete_nan_closed o now ps g out b r b' :
  FailureRatio o = float_nan -> state b = StateClosed ->
  completeLocked o now ps g out b = Some (r, b') -> state b' = StateClosed.
Proof.
  intros Hnan Hs. unfold completeLocked. rewrite Hs.
  repeat case_match; intros; simplify_eq; try done.
  - rewrite nan_never_trips in * by done. done.
  - unfold recordLocked in *. repeat case_match; simplify_eq; done.
Qed.

Lemma advance_closed o now b :
  state b = StateClosed -> advanceLocked o now b = (false, b).
Proof. intros H. unfold advanceLocked. by rewrite H. Qed.

Lemma probe_step o now b p :
  valid_options o -> wf o b -> 0 <= p < HalfOpenMaxRequests o ->
  spec_advance o now (abstract b) = AHalfOpen 0 p ->
  exists b', probe o now b = Some b' /\ wf o b' /\
    abstract b' = if HalfOpenMaxRequests o <=? p + 1 then AClosed [] else AHalfOpen 0 (p + 1).
Proof.
  intros Ho Hb Hp Ha. unfold probe. pose proof (allow_wf o now b Ho Hb) as Hw.
  pose proof (allow_refines o now b) as Hr.
  destruct (allowLocked o now b) as [[q r] b1]. simpl in Hw. destruct Hr as [Hr Hq].
  unfold spec_allow in Hr. rewrite Ha, (proj2 (Z.ltb_lt _ _)) in Hr by lia.
  injection Hr as Hsome Habs. apply bool_decide_eq_true in Hsome as [q' ->].
  destruct (Hq _ eq_refl) as (-> & -> & _ & _).
  destruct (complete_refines o now OutcomeSuccess b1 Ho Hw) as (r' & b2 & -> & Hw2 & H2).
  { intros Hs. unfold abstract in Habs. rewrite Hs in Habs. injection Habs as -> _. lia. }
  exists b2. split_and!; [done|done|]. rewrite H2, Habs. simpl.
  by replace (0 + 1 - 1) with 0 by lia.
Qed.

Lemma probes_close o now b p k :
  valid_options o -> wf o b -> 0 <= p -> Z.of_nat (S k) = HalfOpenMaxRequests o - p ->
  spec_advance o now (abstract b) = AHalfOpen 0 p ->
  exists b', probes o now (S k) b = Some b' /\ wf o b' /\ abstract b' = AClosed [].
Proof.
  revert b p. induction k as [|k IH]; intros b p Ho Hb Hp Hk Ha;
    destruct (probe_step o now b p) as (b1 & E & Hw & H1); try done; try lia;
    simpl; rewrite E.
  - rewrite (proj2 (Z.leb_le _ _)) in H1 by lia. eauto.
  - rewrite (proj2 (Z.leb_gt _ _)) in H1 by lia.
    apply (IH b1 (p + 1)); try done; try lia. by rewrite H1.
Qed.

(** ** Properties *)


Lemma reach_small l s : run small_options l fresh = Some s -> reach small_options (length l) s.
Proof.
  intros H. apply (reach_run small_options l 0 fresh); [|done].
  apply reach_New. vm_compute. reflexivity.
Qed.

Lemma reach_opened : reach small_options (length opening) opened.
Proof. apply reach_small. vm_compute. reflexivity. Qed.

Lemma reach_half_opened : reach small_options (length probing) half_opened.
Proof. apply reach_small. vm_compute. reflexivity. Qed.


(** The ring buffer is never indexed out of range: in every reachable state
    every method call, on any permit that was handed out, with any outcome and
    at any time, returns. *)
Theorem breaker_never_panics o n s e :
  reach o n s -> Z.of_nat n < 2 ^ 64 ->
  (forall now i out, e = EvDone now i out -> (i < length (sys_permits s))%nat) ->
  is_Some (exec o e s).
Proof.
  intros Hr Hn He. pose proof (reach_valid _ _ _ Hr) as Ho.
  pose proof (reach_inv _ _ _ Hr Hn) as Hi.
  destruct e as [now|now|now|now i out]; simpl; [by repeat case_match| done | done |].
  destruct (lookup_lt_is_Some_2 (sys_permits s) i) as [p Hl]; [by eapply He|]. rewrite Hl.
  destruct (p_done p) eqn:Hd; [done|].
  destruct (decide (p_generation p = generation (sys_breaker s))) as [Hg|Hg].
  - destruct (inv_lookup _ _ _ _ _ _ Hi Hl Hg) as [Hst _]. rewrite Hg, Hst.
    destruct (complete_refines o now out (sys_breaker s)) as (r & b' & -> & _);
      [done|apply Hi|by eapply inv_active_pos|done].
  - by rewrite complete_stale by auto.
Qed.

Lemma breaker_never_panics_witness :
  is_Some (exec small_options (EvDone 5 1 OutcomeSuccess) opened).
Proof.
  apply (breaker_never_panics _ _ _ _ reach_opened).
  - simpl. lia.
  - intros now i out H. injection H as _ <- _. vm_compute. lia.
Defined.

(** C30: While the breaker is half-open, the number of probes in flight (permits
    of the current period not yet done) is exactly [halfOpenActive] and never
    exceeds [HalfOpenMaxRequests]. *)
Theorem half_open_probe_limit o n s :
  reach o n s -> Z.of_nat n < 2 ^ 64 -> state (sys_breaker s) = StateHalfOpen ->
  let live := Z.of_nat (count (live_probe (generation (sys_breaker s))) (sys_permits s)) in
  live = halfOpenActive (sys_breaker s) /\ live <= HalfOpenMaxRequests o.
Proof.
  intros Hr Hn Hs live. destruct (reach_inv _ _ _ Hr Hn) as [[] _ _ Hp].
  subst live. rewrite <- Hp by done. split; [done|lia].
Qed.

Lemma half_open_probe_limit_witness :
  Z.of_nat (count (live_probe (generation (sys_breaker half_opened))) (sys_permits half_opened)) = 1
  /\ halfOpenActive (sys_breaker half_opened) <= HalfOpenMaxRequests small_options.
Proof.
  destruct (half_open_probe_limit _ _ _ reach_half_opened ltac:(simpl; lia) eq_refl) as [H1 H2].
  split; [rewrite H1; reflexivity|]. rewrite <- H1. exact H2.
Defined.

(** An open breaker whose timeout has not elapsed admits no call and
    reports itself unavailable, without changing state. *)
Theorem open_rejects_until_timeout o now b :
  state b = StateOpen -> time_sub now (openedAt b) < OpenTimeout o ->
  allowLocked o now b = ((None, None), b) /\
  availableLocked o now b = ((false, None), b).
Proof.
  intros Hs Ht.
  assert (advanceLocked o now b = (false, b)) as Ha
    by (unfold advanceLocked; by rewrite (proj2 (Z.ltb_lt _ _)), orb_true_r by done).
  unfold allowLocked, availableLocked. by rewrite Ha, Hs.
Qed.

Lemma open_rejects_until_timeout_witness :
  allowLocked default_options (5 * second) (mkBreaker StateOpen [] 0 0 0 0 0 1) =
    ((None, None), mkBreaker StateOpen [] 0 0 0 0 0 1).
Proof.
  apply (open_rejects_until_timeout default_options (5 * second)
           (mkBreaker StateOpen [] 0 0 0 0 0 1)); vm_compute; reflexivity.
Defined.

(** C34: Recovery. Once the timeout of an open breaker has elapsed,
    [HalfOpenMaxRequests] successful probes one after the other are all
    admitted and leave the breaker closed with an empty window. *)
Theorem open_breaker_recovers o now b :
  valid_options o -> wf o b -> state b = StateOpen ->
  OpenTimeout o <= time_sub now (openedAt b) ->
  exists b', probes o now (Z.to_nat (HalfOpenMaxRequests o)) b = Some b' /\
    abstract b' = AClosed [].
Proof.
  intros Ho Hb Hs Ht. pose proof (vo_probes o Ho) as Hm.
  destruct (Z.to_nat (HalfOpenMaxRequests o)) as [|k] eqn:Hk; [lia|].
  destruct (probes_close o now b 0 k) as (b' & ? & _ & ?); try done; try lia; [|eauto].
  unfold abstract. rewrite Hs. simpl. by rewrite (proj2 (Z.leb_le _ _)).
Qed.

Lemma open_breaker_recovers_witness :
  exists b', probes (mkOptions 20 10 one_half 10 3) 50 3 (mkBreaker StateOpen [] 0 0 7 0 0 1)
    = Some b' /\ abstract b' = AClosed [].
Proof.
  apply (open_breaker_recovers (mkOptions 20 10 one_half 10 3) 50
           (mkBreaker StateOpen [] 0 0 7 0 0 1)).
  - by constructor; vm_compute.
  - constructor; simpl; try lia; done.
  - reflexivity.
  - vm_compute. discriminate.
Defined.

(** [Available] answers true exactly when [Allow] at the same instant would
    hand out a permit. *)
Theorem available_iff_allow o now b :
  (availableLocked o now b).1.1 = bool_decide (is_Some (allowLocked o now b).1.1).
Proof.
  unfold availableLocked, allowLocked. destruct (advanceLocked o now b) as [c b1].
  destruct (state b1); simpl; try done. rewrite Z.leb_antisym.
  by destruct (halfOpenActive b1 <? HalfOpenMaxRequests o).
Qed.

(** A failure ratio that is not a number passes the range check of [New],
    and the breaker built from it stays closed in every execution: it never
    opens, whatever fails. *)
Theorem nan_ratio_never_opens o :
  0 < WindowSize o -> 0 < MinimumRequests o <= WindowSize o -> FailureRatio o = float_nan ->
  0 < OpenTimeout o -> 0 < HalfOpenMaxRequests o ->
  (exists b, New o = inr b) /\
  (forall n s, reach o n s -> state (sys_breaker s) = StateClosed).
Proof.
  intros Hw Hm Hnan Ht Hp. split.
  - eexists. apply New_accepts. by constructor; rewrite ?Hnan, ?fle_nan_l, ?flt_nan_r.
  - induction 1 as [b Hb|n s e s' _ IH He].
    { by apply New_valid in Hb as [_ ->]. }
    destruct e as [now|now|now|now i out]; simpl in He.
    + unfold allowLocked in He. rewrite advance_closed, IH in He by done. by simplify_eq/=.
    + unfold availableLocked in He. rewrite advance_closed in He by done. by simplify_eq/=.
    + unfold stateLocked in He. rewrite advance_closed in He by done. by simplify_eq/=.
    + repeat case_match; simplify_eq/=; [done|]. by eapply complete_nan_closed.
Qed.

Lemma nan_ratio_never_opens_witness :
  New (mkOptions 2 1 float_nan 10 1) = inr (mkBreaker StateClosed [] 0 0 0 0 0 0) /\
  state (mkBreaker StateClosed [] 0 0 0 0 0 0) = StateClosed.
Proof.
  split; [reflexivity|].
  apply (proj2 (nan_ratio_never_opens (mkOptions 2 1 float_nan 10 1)
    ltac:(simpl; lia) ltac:(simpl; lia) eq_refl ltac:(simpl; lia) ltac:(simpl; lia)) 0%nat
    (mkSys (mkBreaker StateClosed [] 0 0 0 0 0 0) [])).
  apply reach_New. vm_compute. reflexivity.
Defined.

(** With the default ratio 0.5 and a window of at most 100, the
    floating-point test of [complete] is the exact one: the breaker opens iff
    the window holds at least [MinimumRequests] outcomes and at least half of
    them are failures. *)
Theorem half_ratio_trips_exactly o b :
  valid_options o -> wf o b -> FailureRatio o = one_half -> WindowSize o <= 100 ->
  tripped o b = (MinimumRequests o <=? Z.of_nat (length (outcomes b))) &&
                (Z.of_nat (length (outcomes b)) <=? 2 * failures b).
Proof.
  intros Ho Hb Hr Hw. destruct Ho, Hb. unfold tripped. rewrite Hr, wf_failures0.
  destruct (Z.leb_spec (MinimumRequests o) (Z.of_nat (length (outcomes b)))); simpl; [|done].
  apply one_half_exact; [apply count_le_length|lia].
Qed.

Lemma half_ratio_trips_exactly_witness :
  tripped default_options (mkBreaker StateClosed (replicate 5 true ++ replicate 5 false) 0 5 0 0 0 0)
  = true.
Proof.
  rewrite (half_ratio_trips_exactly default_options).
  - vm_compute. reflexivity.
  - apply default_valid.
  - constructor; vm_compute; try done; split; done.
  - reflexivity.
  - vm_compute. discriminate.
Defined.

End circuitbreaker.
