(* ===== verification/Semaphore.v ===== *)
(** * Per-provider concurrency limit (internal/concurrency/semaphore.go)

    The buffered channel of empty structs is its length and its capacity. *)

From stdpp Require Import base gmap list strings.
From Stdlib Require Import ZArith Lia.
From S2P Require Import Prelude Types Context.

Local Open Scope Z_scope.
Local Open Scope go_scope.

Module concurrency.

(** [len(slots)] and [cap(slots)] *)
Record Semaphore : Type := mkSemaphore {
  in_flight : Z;
  max_concurrent : Z;
}.

(** [released] is the state of the permit's [sync.Once]. *)
Record Permit : Type := mkPermit { released : bool }.

Definition New (maxConcurrent : Z) : string + Semaphore :=
  if maxConcurrent <=? 0 then inl "max concurrent requests must be positive"
  else inr (mkSemaphore 0 maxConcurrent).

(** [s.slots <- struct{}{}]; [None]: the channel is full. *)
Definition send (s : Semaphore) : option Semaphore :=
  if in_flight s <? max_concurrent s
  then Some (mkSemaphore (in_flight s + 1) (max_concurrent s)) else None.

(** [<-p.semaphore.slots]; [None]: the channel is empty. *)
Definition receive (s : Semaphore) : option Semaphore :=
  if 0 <? in_flight s
  then Some (mkSemaphore (in_flight s - 1) (max_concurrent s)) else None.

Definition InFlight (s : Semaphore) : Z := in_flight s.
Definition Capacity (s : Semaphore) : Z := max_concurrent s.

Section operations.
Context {W : Type} `{!context.HasRuntime W, !context.Scheduler W}.
Implicit Types (r : ref W Semaphore).

(** The goroutine blocks until the channel has room or the context is done;
    with both ready the run time chooses. *)
Definition Acquire r (ctx : context.Ctx) : M W (error + Permit) :=
  context.wait_until (fun w =>
    bool_decide (is_Some (send (ref_get r w))) || context.ctx_done ctx w) ;!
  let! s := load r in
  let! done := gets (context.ctx_Err ctx) in
  let! slot := gets context.choose in
  match send s, done with
  | Some s', None => store r s' ;! ret (inr (mkPermit false))
  | Some s', Some e =>
      if slot then store r s' ;! ret (inr (mkPermit false)) else ret (inl (ESentinel e))
  | None, Some e => ret (inl (ESentinel e))
  | None, None => fun w => Block w
  end.

(** [Release] returns the permit with its [sync.Once] fired. *)
Definition Release r (p : option Permit) : M W (option Permit) :=
  match p with
  | None => ret None
  | Some p =>
      if released p then ret (Some p)
      else
        let! s := load r in
        match receive s with
        | Some s' => store r s' ;! ret (Some (mkPermit true))
        | None => fun w => Block w
        end
  end.

End operations.

(** ** A semaphore shared by many goroutines *)

Record Sys : Type := mkSys {
  sys_sem : Semaphore;
  sys_permits : list Permit;
}.

Inductive step : Sys -> Sys -> Prop :=
| step_acquire s s' ps :
    send s = Some s' -> step (mkSys s ps) (mkSys s' (ps ++ [mkPermit false]))
| step_release s s' ps i :
    ps !! i = Some (mkPermit false) -> receive s = Some s' ->
    step (mkSys s ps) (mkSys s' (<[i := mkPermit true]> ps))
| step_release_again s ps i :
    ps !! i = Some (mkPermit true) -> step (mkSys s ps) (mkSys s ps).

Inductive reach (max : Z) : Sys -> Prop :=
| reach_New s : New max = inr s -> reach max (mkSys s [])
| reach_step s s' : reach max s -> step s s' -> reach max s'.

Definition held (p : Permit) : bool := negb (released p).

(** ** Lemmas *)

Lemma semaphore_reach_inv max s :
  reach max s ->
  max_concurrent (sys_sem s) = max /\ 0 < max /\
  in_flight (sys_sem s) = Z.of_nat (count held (sys_permits s)) /\
  in_flight (sys_sem s) <= max.
Proof.
  induction 1 as [s Hs|s s' _ IH Hst].
  - unfold New in Hs. case_match; simplify_eq/=. lia.
  - destruct IH as (Hm & Hp & Hc & Hle).
    inversion Hst as [s0 s1 ps E|s0 s1 ps i Hl E|s0 ps i Hl]; subst; simpl in *.
    + unfold send in E. case_match; simplify_eq/=. rewrite count_app. simpl. lia.
    + unfold receive in E. case_match; simplify_eq/=.
      pose proof (count_insert held ps i _ (mkPermit true) Hl) as H0. simpl in H0. lia.
    + done.
Qed.

(** [Acquire] either takes a slot or returns the context's error, in a world
    [w1] that satisfies whatever holds after waiting. *)
Lemma wp_Acquire {W} `{!context.HasRuntime W, !context.Scheduler W}
    (r : ref W Semaphore) ctx (I : W -> Prop) (Q : error + Permit -> W -> Prop) R w :
  (forall P, wp (context.wait_until P) (fun _ => I) R w) ->
  (forall w1 s', I w1 -> send (ref_get r w1) = Some s' ->
     Q (inr (mkPermit false)) (ref_set r s' w1)) ->
  (forall w1 e, I w1 -> context.ctx_Err ctx w1 = Some e -> Q (inl (ESentinel e)) w1) ->
  wp (Acquire r ctx) Q R w.
Proof.
  intros Hw Hok Herr. unfold Acquire. wp_step.
  eapply wp_mono; [apply Hw| |done]. intros [] w1 HI. wp_steps.
  destruct (send (ref_get r w1)) as [s'|] eqn:Es, (context.ctx_Err ctx w1) as [e|] eqn:Ee;
    [destruct (context.choose w1)| | |]; wp_steps; eauto. done.
Qed.

(** ** Properties *)



End concurrency.
