(* ===== verification/Retry.v ===== *)
(** * Retry policy (internal/retry/retry.go)

    The attempt loop is a recursion over the attempts left. The variable that
    the operation's closure captures and assigns is passed explicitly: an
    operation takes its current value and returns the new one with the error. *)

From stdpp Require Import base gmap list strings.
From Stdlib Require Import ZArith Lia.
From S2P Require Import Prelude Types Context Trace.

Local Open Scope Z_scope.
Local Open Scope go_scope.

Module retry.

Record Attempt : Type := mkAttempt {
  Number : Z;
  Duration : Z;
  AttemptErr : option error;
}.

Record Options (W : Type) : Type := mkOptions {
  MaxAttempts : Z;
  AttemptTimeout : Z;
  BaseBackoff : Z;
  MaxBackoff : Z;
  Jitter : option (Z -> M W Z);
  OnAttempt : option (Attempt -> M W unit);
}.
Arguments mkOptions {W} _ _ _ _ _ _.
Arguments MaxAttempts {W} _.
Arguments AttemptTimeout {W} _.
Arguments BaseBackoff {W} _.
Arguments MaxBackoff {W} _.
Arguments Jitter {W} _.
Arguments OnAttempt {W} _.

(** The options of a policy, with the defaults of [New] filled in. *)
Record Policy (W : Type) : Type := mkPolicy {
  maxAttempts : Z;
  attemptTimeout : Z;
  baseBackoff : Z;
  maxBackoff : Z;
  jitter : Z -> M W Z;
  onAttempt : Attempt -> M W unit;
}.
Arguments mkPolicy {W} _ _ _ _ _ _.
Arguments maxAttempts {W} _.
Arguments attemptTimeout {W} _.
Arguments baseBackoff {W} _.
Arguments maxBackoff {W} _.
Arguments jitter {W} _ _.
Arguments onAttempt {W} _ _.

(** [math/rand/v2.Int64N]: it panics if [n <= 0]; [source] yields the number. *)
Definition Int64N {W} (source : Z -> M W Z) (n : Z) : M W Z :=
  if n <=? 0 then panic else source n.

Definition fullJitter {W} (source : Z -> M W Z) (maximum : Z) : M W Z :=
  if maximum <=? 0 then ret 0
  else Int64N source (wrap64 (maximum + 1)).

Definition New {W} (source : Z -> M W Z) (o : Options W) : string + Policy W :=
  if MaxAttempts o <=? 0 then inl "max attempts must be positive"
  else if AttemptTimeout o <=? 0 then inl "attempt timeout must be positive"
  else if (BaseBackoff o <=? 0) || (MaxBackoff o <? BaseBackoff o) then
    inl "backoff values must be positive and max must not be below base"
  else inr (mkPolicy (MaxAttempts o) (AttemptTimeout o) (BaseBackoff o) (MaxBackoff o)
              (default (fullJitter source) (Jitter o))
              (default (fun _ => ret tt) (OnAttempt o))).

(** The loop of [backoff] with [n] doublings left. *)
Fixpoint backoff_loop (n : nat) (max delay : Z) : Z :=
  match n with
  | O => if max <? delay then max else delay
  | S n => if Z.quot max 2 <=? delay then max else backoff_loop n max (wrap64 (delay * 2))
  end.

Definition backoff {W} (p : Policy W) (failedAttempt : Z) : Z :=
  backoff_loop (Z.to_nat (failedAttempt - 1)) (maxBackoff p) (baseBackoff p).

Section attempts.
Context {W L : Type} `{!context.HasRuntime W, !context.Scheduler W}.

(** [select] on [ctx.Done()] and a timer of [delay]: true if the timer case
    was taken. *)
Definition select_timer (ctx : context.Ctx) (delay : Z) : M W bool :=
  let! start := gets context.Now in
  let fired w := start + delay <=? context.Now w in
  context.wait_until (fun w => fired w || context.ctx_done ctx w) ;!
  let! f := gets fired in
  let! d := gets (context.ctx_done ctx) in
  let! pick := gets context.choose in
  ret (f && (negb d || pick)).

Definition should_retry (shouldRetry : option (error -> bool)) (e : error) : bool :=
  match shouldRetry with
  | Some f => f e
  | None => false
  end.

(** The results of [do]: the retained [CancelFunc] and the error. *)
Definition result : Type := option context.CancelFunc * option error.

Section loop.
Variables (p : Policy W) (ctx : context.Ctx) (shouldRetry : option (error -> bool)).
Variables (operation : context.Ctx -> L -> M W (option error * L)) (retainSuccess : bool).

(** [for attempt := ...; attempt <= MaxAttempts; attempt++], with [rest]
    attempts left. *)
Fixpoint attempts (rest : nat) (attempt : Z) (l : L) : M W (result * L) :=
  match rest with
  | O => ret ((None, None), l)
  | S rest =>
      let! e := gets (context.ctx_Err ctx) in
      match e with
      | Some e => ret ((None, Some (ESentinel e)), l)
      | None =>
          let! '(attemptCtx, cancel) := context.WithTimeout ctx (attemptTimeout p) in
          let! startedAt := gets context.Now in
          let! '(err, l) := operation attemptCtx l in
          let! finishedAt := gets context.Now in
          onAttempt p (mkAttempt attempt (time_sub finishedAt startedAt) err) ;!
          match err with
          | None =>
              if retainSuccess then ret ((Some cancel, None), l)
              else context.cancel cancel ;! ret ((None, None), l)
          | Some err =>
              context.cancel cancel ;!
              let! parentErr := gets (context.ctx_Err ctx) in
              match parentErr with
              | Some pe => ret ((None, Some (ESentinel pe)), l)
              | None =>
                  if (attempt =? maxAttempts p) || negb (should_retry shouldRetry err)
                  then ret ((None, Some err), l)
                  else
                    let! delay := jitter p (backoff p attempt) in
                    if delay <=? 0 then attempts rest (attempt + 1) l
                    else
                      let! fired := select_timer ctx delay in
                      if fired then attempts rest (attempt + 1) l
                      else
                        let! e := gets (context.ctx_Err ctx) in
                        ret ((None, option_map ESentinel e), l)
              end
          end
      end
  end.

Definition do (l : L) : M W (result * L) := attempts (Z.to_nat (maxAttempts p)) 1 l.

End loop.

Definition Do (p : Policy W) ctx shouldRetry operation (l : L) : M W (option error * L) :=
  let! '((cancel, err), l) := do p ctx shouldRetry operation false l in
  match cancel with
  | Some f => context.cancel f
  | None => ret tt
  end ;!
  ret (err, l).

Definition DoRetained (p : Policy W) ctx shouldRetry operation (l : L) : M W (result * L) :=
  do p ctx shouldRetry operation true l.

End attempts.

(** What every attempt keeps of the captured value, the loop keeps. *)
Lemma do_yields {W L} `{!context.HasRuntime W, !context.Scheduler W} (p : Policy W) ctx shouldRetry
    (operation : context.Ctx -> L -> M W (option error * L)) retain (Q : L -> Prop) l :
  (forall c l, yields (operation c l) (fun a => Q a.2)) -> Q l ->
  yields (do p ctx shouldRetry operation retain l) (fun a => Q a.2).
Proof.
  intros Hop. unfold do. generalize 1 as attempt. generalize (Z.to_nat (maxAttempts p)) as rest.
  intros rest. revert l. induction rest as [|rest IH]; intros l attempt Hl; cbn [attempts]; [by apply yields_ret|].
  apply yields_then. intros [e|]; [by apply yields_ret|].
  apply yields_then. intros [attemptCtx cancel]. apply yields_then. intros startedAt.
  eapply yields_bind; [apply Hop|]. intros [err l'] Hl'. cbn [snd] in Hl'.
  repeat first [by apply IH | yields_step]; done.
Qed.

(** ** Specification of the loop *)

(** Every attempt but the last failed with an error that may be retried. *)
Definition retried (shouldRetry : option (error -> bool)) (outs : list (option error)) : Prop :=
  forall i x, outs !! i = Some x -> (S i < length outs)%nat ->
    exists e, x = Some e /\ should_retry shouldRetry e = true.

(** How the outcomes of the attempts determine the error that is returned: no
    attempt at all means that the context was done; after a success there is no
    error; after a failure it is that failure, or the context's error. *)
Definition verdict (outs : list (option error)) (err : option error) : Prop :=
  match last outs with
  | None => exists s, err = Some (ESentinel s)
  | Some None => err = None
  | Some (Some e) => err = Some e \/ exists s, err = Some (ESentinel s)
  end.

(** Policies that [New] accepts, with durations that fit in an [int64]. *)
Record valid_policy {W} (p : Policy W) : Prop := {
  vp_attempts : 0 < maxAttempts p;
  vp_timeout : 0 < attemptTimeout p;
  vp_backoff : 0 < baseBackoff p <= maxBackoff p;
  vp_int64 : maxBackoff p <= max_int64;
}.

(** ** Lemmas *)

Lemma New_policy {W} source (o : Options W) p :
  New source o = inr p -> MaxBackoff o <= max_int64 ->
  valid_policy p /\ maxAttempts p = MaxAttempts o /\ attemptTimeout p = AttemptTimeout o /\
  baseBackoff p = BaseBackoff o /\ maxBackoff p = MaxBackoff o.
Proof.
  unfold New. intros H Hm.
  destruct (Z.leb_spec (MaxAttempts o) 0); [done|].
  destruct (Z.leb_spec (AttemptTimeout o) 0); [done|].
  destruct (Z.leb_spec (BaseBackoff o) 0), (Z.ltb_spec (MaxBackoff o) (BaseBackoff o)); try done.
  simplify_eq/=. split; [constructor; simpl; lia|done].
Qed.

Lemma backoff_loop_spec n max d :
  0 < d <= max -> max <= max_int64 ->
  let r := Z.min max (d * 2 ^ Z.of_nat n) in
  r <= backoff_loop n max d <= Z.min max (r + 1) /\
  (Z.even max = true -> backoff_loop n max d = r).
Proof.
  unfold max_int64. revert d. induction n as [|n IH]; intros d Hd Hm; cbn [backoff_loop].
  - rewrite (proj2 (Z.ltb_ge _ _)) by lia. simpl. lia.
  - rewrite Z.quot_div_nonneg by lia.
    pose proof (Z.div_mod max 2 ltac:(lia)) as Hdm.
    pose proof (Z.mod_pos_bound max 2 ltac:(lia)) as Hb.
    assert (1 <= 2 ^ Z.of_nat n) as Hpow by (apply (Z.pow_le_mono_r 2 0); lia).
    rewrite Nat2Z.inj_succ, Z.pow_succ_r by lia.
    assert (2 * d <= d * (2 * 2 ^ Z.of_nat n)) by nia.
    destruct (Z.leb_spec (max / 2) d).
    + split; [lia|]. intros He. rewrite Zmod_even, He in Hdm. lia.
    + rewrite wrap64_id by (unfold in_int64, min_int64, max_int64; lia).
      replace (d * (2 * 2 ^ Z.of_nat n)) with (d * 2 * 2 ^ Z.of_nat n) by lia.
      apply IH; lia.
Qed.

Section spec.
Context {W L : Type} {HR : context.HasRuntime W} {HS : context.Scheduler W}.
Context {HSok : context.SchedulerOk W}.
Variables (p : Policy W) (ctx : context.Ctx) (shouldRetry : option (error -> bool)).
Variables (operation : context.Ctx -> L -> M W (option error * L)) (retain : bool).

(** [T outs w]: the attempts made so far had the outcomes [outs], in order,
    whatever else is to be tracked of the world; [Ok] is what a successful attempt
    establishes of the captured variable; [R] holds when something panics. *)
Variables (T : list (option error) -> W -> Prop) (Ok : L -> Prop) (R : W -> Prop).

(** Code that is not an attempt. *)
Definition silent {A} (m : M W A) : Prop :=
  forall outs w, T outs w -> wp m (fun _ w' => T outs w') R w.

Hypothesis operation_traced : forall c l outs w, T outs w ->
  wp (operation c l) (fun r w' => T (outs ++ [r.1]) w' /\ (r.1 = None -> Ok r.2)) R w.
Hypothesis onAttempt_silent : forall a, silent (onAttempt p a).
Hypothesis jitter_silent : forall d, silent (jitter p d).
Hypothesis wait_silent : forall P, silent (context.wait_until P).
Hypothesis runtime_silent : forall outs rt w, T outs w -> T outs (ref_set context.runtime rt w).

(** The outcomes [outs] of at most [rest] further attempts and the result. *)
Definition loop_post (rest : nat) (before : list (option error)) (r : result * L) (w' : W) : Prop :=
  exists outs, T (before ++ outs) w' /\ (length outs <= rest)%nat /\
    retried shouldRetry outs /\ verdict outs r.1.2 /\
    (is_Some r.1.1 <-> retain = true /\ r.1.2 = None) /\ (r.1.2 = None -> Ok r.2).

Lemma wp_silent {A} (m : M W A) (Q : A -> W -> Prop) outs w :
  silent m -> T outs w -> (forall a w', T outs w' -> Q a w') -> wp m Q R w.
Proof using Type. intros H HT HQ. eapply wp_mono; [by apply H|auto|done]. Qed.

(** The timer case is taken, or the context is done. *)
Lemma select_timer_spec delay outs w (Q : bool -> W -> Prop) :
  T outs w ->
  (forall w', T outs w' -> Q true w') ->
  (forall w', T outs w' -> is_Some (context.ctx_Err ctx w') -> Q false w') ->
  wp (select_timer ctx delay) Q R w.
Proof using HSok wait_silent.
  intros HT Ht Hf. unfold select_timer. wp_steps.
  eapply wp_mono; [apply wp_conj; [apply context.wait_ready|by apply wait_silent]| |].
  2: { by intros w' [[] _]. }
  intros _ w1 [Hr Hl]. wp_steps. unfold context.ctx_done, context.is_done in *.
  destruct (_ <=? context.Now w1); simpl in *.
  - case_bool_decide; simpl; [destruct (context.choose w1)|]; auto.
  - apply Hf; [done|]. by apply bool_decide_eq_true in Hr.
Qed.

(** No attempt was made. *)
Lemma loop_post_done rest outs w' s l :
  T outs w' -> loop_post rest outs ((None, Some (ESentinel s)), l) w'.
Proof using Type.
  intros Hl. exists []. rewrite app_nil_r. split_and!; simpl; try done; try lia.
  - unfold verdict. simpl. eauto.
  - split; [by intros []|naive_solver].
Qed.

(** The last attempt failed. *)
Lemma loop_post_failed rest outs w' err err' l :
  T (outs ++ [Some err]) w' -> err' = err \/ (exists s, err' = ESentinel s) ->
  loop_post (S rest) outs ((None, Some err'), l) w'.
Proof using Type.
  intros Hl He. exists [Some err]. split_and!; simpl; try done; try lia.
  - intros i x Hi Hlt. simpl in Hlt. lia.
  - unfold verdict. simpl. naive_solver.
  - split; [by intros []|naive_solver].
Qed.

(** The last attempt succeeded. *)
Lemma loop_post_ok rest outs w' c l :
  T (outs ++ [None]) w' -> (is_Some c <-> retain = true) -> Ok l ->
  loop_post (S rest) outs ((c, None), l) w'.
Proof using Type.
  intros Hl Hc Hok. exists [None]. split_and!; simpl; try done; try lia.
  - intros i x Hi Hlt. simpl in Hlt. lia.
  - naive_solver.
Qed.

(** A failed attempt that is retried, followed by the rest of the loop. *)
Lemma loop_post_retry rest outs w' err r :
  should_retry shouldRetry err = true ->
  loop_post rest (outs ++ [Some err]) r w' -> loop_post (S rest) outs r w'.
Proof using Type.
  intros Hr (more & H1 & H2 & H3 & H4 & H5 & H6). exists (Some err :: more).
  split_and!; [|simpl; lia| | |done|done].
  - by rewrite <- app_assoc in H1.
  - intros [|i] x Hi Hlt; simplify_eq/=; [by eauto|]. apply (H3 i); [done|lia].
  - unfold verdict in *. destruct more as [|o more]; simpl in *; [by right|done].
Qed.

Lemma WithTimeout_silent d : silent (context.WithTimeout ctx d).
Proof using runtime_silent.
  intros outs w HT. apply context.wp_WithTimeout. by apply runtime_silent.
Qed.

Lemma cancel_silent f : silent (context.cancel f).
Proof using runtime_silent.
  intros outs w HT. unfold context.cancel. wp_step. by apply runtime_silent.
Qed.

(** One iteration, given what the next one does. *)
Lemma attempts_step rest attempt l outs w :
  T outs w ->
  (forall l1 outs1 w1, T outs1 w1 -> attempt <> maxAttempts p ->
     wp (attempts p ctx shouldRetry operation retain rest (attempt + 1) l1)
       (loop_post rest outs1) R w1) ->
  wp (attempts p ctx shouldRetry operation retain (S rest) attempt l)
    (loop_post (S rest) outs) R w.
Proof using All.
  intros HT Hnext. cbn [attempts]. wp_steps.
  destruct (context.ctx_Err ctx w) as [s|]; [wp_steps; by apply loop_post_done|].
  wp_step. eapply wp_silent; [apply WithTimeout_silent|done|]. intros [actx f] w1 Hw1. wp_steps.
  eapply wp_mono; [by apply operation_traced| |done]. intros [err l1] w2 [Hw2 Hok].
  cbn [fst snd] in *. wp_steps.
  eapply wp_silent; [apply onAttempt_silent|done|]. intros _ w3 Hw3.
  destruct err as [err|].
  2: { destruct (bool_dec retain true) as [Hr|Hr%not_true_is_false]; rewrite Hr; wp_steps.
       - apply loop_post_ok; auto. by rewrite Hr.
       - eapply wp_silent; [apply cancel_silent|done|]. intros _ w4 Hw4. wp_steps.
         apply loop_post_ok; [done| |by apply Hok].
         rewrite Hr. split; [by intros []|done]. }
  wp_step. eapply wp_silent; [apply cancel_silent|done|]. intros _ w4 Hw4. wp_steps.
  destruct (context.ctx_Err ctx w4) as [s|]; [wp_steps; eapply loop_post_failed; by eauto|].
  destruct (Z.eqb_spec attempt (maxAttempts p)) as [|Hne]; simpl;
    [wp_steps; eapply loop_post_failed; by eauto|].
  destruct (should_retry shouldRetry err) eqn:Hsr; simpl;
    [|wp_steps; eapply loop_post_failed; by eauto].
  wp_steps. eapply wp_silent; [apply jitter_silent|done|]. intros delay w5 Hw5.
  assert (forall w6, T (outs ++ [Some err]) w6 ->
    wp (attempts p ctx shouldRetry operation retain rest (attempt + 1) l1)
      (loop_post (S rest) outs) R w6) as Hrec.
  { intros w6 Hw6. eapply wp_mono; [by apply Hnext| |done].
    intros r w7. by apply loop_post_retry. }
  destruct (delay <=? 0); [by apply Hrec|]. wp_step. eapply select_timer_spec; [done|done|].
  intros w6 Hw6 [s Hs]. wp_steps. rewrite Hs. simpl. eapply loop_post_failed; eauto.
Qed.

Lemma attempts_spec rest attempt l outs w :
  T outs w -> Z.of_nat (S rest) = maxAttempts p - attempt + 1 ->
  wp (attempts p ctx shouldRetry operation retain (S rest) attempt l)
    (loop_post (S rest) outs) R w.
Proof using All.
  revert attempt l outs w. induction rest as [|rest IH]; intros attempt l outs w HT Hn;
    apply attempts_step; try done; intros l1 outs1 w1 HT1 Hne; [lia|]. apply IH; [done|lia].
Qed.

Lemma do_spec l w :
  T [] w -> 0 < maxAttempts p ->
  wp (do p ctx shouldRetry operation retain l)
    (loop_post (Z.to_nat (maxAttempts p)) []) R w.
Proof using All.
  intros HT Hp. unfold do. destruct (Z.to_nat (maxAttempts p)) as [|n] eqn:E; [lia|].
  apply attempts_spec; [done|lia].
Qed.


End spec.

(** [Do] never retains a [CancelFunc], so it is [do] without the first result. *)
Lemma Do_spec {W L} {HR : context.HasRuntime W} {HS : context.Scheduler W}
    {HSok : context.SchedulerOk W} (p : Policy W) ctx shouldRetry operation
    (T : list (option error) -> W -> Prop) (Ok : L -> Prop) (R : W -> Prop) l w :
  (forall c l outs w, T outs w ->
     wp (operation c l) (fun r w' => T (outs ++ [r.1]) w' /\ (r.1 = None -> Ok r.2)) R w) ->
  (forall a, silent T R (onAttempt p a)) -> (forall d, silent T R (jitter p d)) ->
  (forall P, silent T R (context.wait_until P)) ->
  (forall outs rt w, T outs w -> T outs (ref_set context.runtime rt w)) ->
  T [] w -> 0 < maxAttempts p ->
  wp (Do p ctx shouldRetry operation l)
    (fun r w' => exists outs, T outs w' /\ (length outs <= Z.to_nat (maxAttempts p))%nat /\
       retried shouldRetry outs /\ verdict outs r.1 /\ (r.1 = None -> Ok r.2)) R w.
Proof.
  intros. unfold Do. wp_step. eapply wp_mono; [eapply do_spec; eassumption| |done].
  intros [[c err] l'] w' (outs & HT & Hlen & Hr & Hv & Hc & Hok). cbn [fst snd] in *.
  destruct c as [f|]; [by destruct (proj1 Hc (mk_is_Some _ _ eq_refl))|].
  wp_steps. exists outs. by split_and!.
Qed.

(** A world that records the outcomes of the attempts, and an operation that
    succeeds at its third attempt. *)
Abbreviation toy := (context.world (list (option error))).

Definition flaky (_ : context.Ctx) (l : nat) : M toy (option error * nat) := fun w =>
  let e := if (length w.2 <? 2)%nat
           then Some (EUpstream (mkUpstreamError "p" "chat" ErrorKindHTTPStatus 503 true None))
           else None in
  Ret (e, S l) (w.1, w.2 ++ [e]).

Definition always_retry (e : error) : bool := true.

Definition toy_policy : Policy toy :=
  mkPolicy 5 (10 * second) (100 * millisecond) (2 * second) (fun d => ret d) (fun _ => ret tt).


(** Termination. If the operation, the callbacks and the waits return, [do]
    returns: the loop makes at most [MaxAttempts] iterations. *)
Theorem retry_do_terminates {W L} `{!context.HasRuntime W, !context.Scheduler W}
    (p : Policy W) ctx shouldRetry (operation : context.Ctx -> L -> M W (option error * L)) retain l :
  (forall c l, returns (operation c l)) -> (forall a, returns (onAttempt p a)) ->
  (forall d, returns (jitter p d)) -> (forall P, returns (context.wait_until P)) ->
  returns (do p ctx shouldRetry operation retain l).
Proof.
  intros Hop Hon Hj Hw. unfold do. generalize 1 as attempt. revert l.
  induction (Z.to_nat (maxAttempts p)) as [|n IH]; intros l attempt; cbn [attempts];
    unfold select_timer; returns_steps.
Qed.

Lemma retry_do_terminates_witness :
  exists a w', do (W := context.world unit)
    (mkPolicy 3 second millisecond second (fun d => ret 0) (fun _ => ret tt))
    context.Background None (fun _ l => ret (None, l)) false tt (context.start tt) = Ret a w'.
Proof.
  pose (never_waits := {| context.wait_until P := ret tt; context.choose _ := true |}
    : context.Scheduler (context.world unit)).
  apply (@retry_do_terminates _ _ _ never_waits); intros; apply returns_ret.
Defined.

(** Bounds of the backoff. The ceiling after the [k]-th failed attempt is
    [min(MaxBackoff, BaseBackoff * 2^(k-1))], computed without [int64] overflow,
    except that it is one nanosecond above it when the doubling stops at an odd
    [MaxBackoff]; it never exceeds [MaxBackoff]. *)
Theorem backoff_ceiling {W} (p : Policy W) k :
  valid_policy p -> 1 <= k ->
  let r := Z.min (maxBackoff p) (baseBackoff p * 2 ^ (k - 1)) in
  r <= backoff p k <= Z.min (maxBackoff p) (r + 1) /\
  (Z.even (maxBackoff p) = true -> backoff p k = r).
Proof.
  intros [] Hk r. pose proof (backoff_loop_spec (Z.to_nat (k - 1)) (maxBackoff p) (baseBackoff p)
    ltac:(lia) ltac:(lia)) as H.
  rewrite Z2Nat.id in H by lia. exact H.
Qed.

Lemma backoff_ceiling_witness :
  backoff toy_policy 3 = 400 * millisecond /\ backoff toy_policy 9 = 2 * second.
Proof.
  assert (valid_policy toy_policy) as Hv by (constructor; vm_compute; try split; congruence).
  split.
  - rewrite (proj2 (backoff_ceiling toy_policy 3 Hv ltac:(lia)) eq_refl). reflexivity.
  - rewrite (proj2 (backoff_ceiling toy_policy 9 Hv ltac:(lia)) eq_refl). reflexivity.
Defined.

(** The full jitter of a ceiling below the largest duration is a delay
    between zero and the ceiling, and drawing it does not panic; for the largest
    [int64] the increment overflows and the draw panics. *)
Theorem full_jitter_range {W} (source : Z -> M W Z) maximum w :
  (forall n w, 0 < n -> wp (source n) (fun d _ => 0 <= d < n) (fun _ => False) w) ->
  (0 <= maximum < max_int64 ->
   wp (fullJitter source maximum) (fun d _ => 0 <= d <= maximum) (fun _ => False) w) /\
  (maximum = max_int64 -> fullJitter source maximum w = Panic w).
Proof.
  intros Hsrc. unfold fullJitter, max_int64. split.
  - intros Hm. destruct (Z.leb_spec maximum 0); [wp_steps; lia|].
    rewrite wrap64_id by (unfold in_int64, min_int64, max_int64; lia). unfold Int64N.
    rewrite (proj2 (Z.leb_gt _ _)) by lia.
    eapply wp_mono; [apply Hsrc; lia| |done]. simpl. lia.
  - by intros ->.
Qed.

Lemma full_jitter_range_witness :
  wp (fullJitter (W := unit) (fun n => ret (n - 1)) 7) (fun d _ => 0 <= d <= 7)
    (fun _ => False) tt /\
  fullJitter (W := unit) (fun n => ret (n - 1)) max_int64 tt = Panic tt.
Proof.
  assert (forall n (w : unit), 0 < n ->
    wp (ret (n - 1)) (fun d (_ : unit) => 0 <= d < n) (fun _ => False) w) as H
    by (intros; wp_steps; lia).
  split.
  - apply (proj1 (full_jitter_range _ 7 tt H)). unfold max_int64. lia.
  - apply (proj2 (full_jitter_range _ max_int64 tt H)). reflexivity.
Defined.

End retry.
