(* ===== verification/Provider.v ===== *)
(** * Providers: interfaces and error classification
    (internal/provider/provider.go, internal/provider/error.go)

    A Go interface value is a record of operations on the world. A stream is an
    object with a private state: each operation takes the state and returns the
    new one. [Contract] is what a provider owes to its callers; the mock, the
    upstream client, the governed provider and the router keep it. *)

From stdpp Require Import base gmap list strings.
From Stdlib Require Import ZArith Lia.
From S2P Require Import Prelude Types GoStrings Context Trace.

Local Open Scope Z_scope.
Local Open Scope go_scope.

Module provider.

(** [Recv] and [Close] of a stream; [stream_name] is [ProviderName()] when the
    dynamic type implements [NamedStream]. *)
Record Stream (W : Type) : Type := mkStream {
  stream_state : Type;
  stream_init : stream_state;
  Recv : stream_state -> M W ((option ChatStreamChunk * option error) * stream_state);
  Close : stream_state -> M W (option error * stream_state);
  stream_name : option string;
}.
Arguments mkStream {W} _ _ _ _ _.
Arguments stream_state {W} _.
Arguments stream_init {W} _.
Arguments Recv {W} _ _.
Arguments Close {W} _ _.
Arguments stream_name {W} _.

(** The [Provider] interface: the results are Go's pair of a pointer and an
    error, either of which may be nil. *)
Record Provider (W : Type) : Type := mkProvider {
  Chat : context.Ctx -> ChatRequest -> M W (option ChatResponse * option error);
  ChatStream : context.Ctx -> ChatRequest -> M W (option (Stream W) * option error);
}.
Arguments mkProvider {W} _ _.
Arguments Chat {W} _ _ _.
Arguments ChatStream {W} _ _ _.

Definition StreamProviderName {W} (stream : Stream W) : string :=
  match stream_name stream with
  | Some name => name
  | None => "unknown"
  end.

(** ** The contract of a provider *)

(** A response with an identifier and a choice; a chunk with its identifier. *)
Definition complete_response (r : ChatResponse) : Prop := resp_ID r <> "" /\ resp_Choices r <> [].
Definition complete_chunk (c : ChatStreamChunk) : Prop :=
  chunk_ID c <> "" /\ chunk_Object c = "chat.completion.chunk".

(** Go's convention for a result and an error: exactly one of them is not nil. *)
Definition result_or_error {A} (P : A -> Prop) (r : option A * option error) : Prop :=
  match r with
  | (Some a, None) => P a
  | (None, Some _) => True
  | _ => False
  end.

(** A stream whose [Recv] keeps the convention with complete chunks. *)
Definition sound {W} (st : Stream W) : Prop :=
  forall s, yields (Recv st s) (fun r => result_or_error complete_chunk r.1).

(** What the callers of a provider rely on: responses are complete, streams are
    sound, and both carry a name that satisfies [named]. *)
Class Contract {W} (named : string -> Prop) (p : Provider W) : Prop := {
  contract_chat : forall ctx r, yields (Chat p ctx r)
    (result_or_error (fun resp => complete_response resp /\ named (resp_Provider resp)));
  contract_stream : forall ctx r, yields (ChatStream p ctx r)
    (result_or_error (fun st => sound st /\ named (StreamProviderName st)));
}.

Lemma result_or_error_mono {A} (P Q : A -> Prop) r :
  result_or_error P r -> (forall a, P a -> Q a) -> result_or_error Q r.
Proof. destruct r as [[a|] [e|]]; simpl; auto. Qed.

Lemma contract_mono {W} (P Q : string -> Prop) (p : Provider W) :
  (forall n, P n -> Q n) -> Contract P p -> Contract Q p.
Proof.
  intros HPQ [H1 H2]. split; intros ctx r; (eapply yields_mono; [apply H1 || apply H2|]);
    intros a Ha; (eapply result_or_error_mono; [exact Ha|]); naive_solver.
Qed.

(** ** The consumer of a stream *)

(** What the consumer of a stream does, and what it observes. *)
Inductive stream_op : Type := OpRecv | OpClose.
Inductive op_result : Type :=
| RRecv (chunk : option ChatStreamChunk) (err : option error)
| RClose (err : option error).

Definition run_op {W} (st : Stream W) (op : stream_op) (s : stream_state st)
  : M W (op_result * stream_state st) :=
  match op with
  | OpRecv => let! '((chunk, err), s) := Recv st s in ret (RRecv chunk err, s)
  | OpClose => let! '(err, s) := Close st s in ret (RClose err, s)
  end.

Fixpoint run_ops {W} (st : Stream W) (ops : list stream_op) (s : stream_state st)
  : M W (list op_result * stream_state st) :=
  match ops with
  | [] => ret ([], s)
  | op :: ops =>
      let! '(r, s) := run_op st op s in
      let! '(rs, s) := run_ops st ops s in
      ret (r :: rs, s)
  end.

(** ** Texts of errors *)

(** [errors.New] of the package-level variables. *)
Definition sentinel_text (s : sentinel) : string :=
  match s with
  | Canceled => "context canceled"
  | DeadlineExceeded => "context deadline exceeded"
  | EOF => "EOF"
  | ErrUnexpectedEOF => "unexpected EOF"
  | ErrOpen => "circuit breaker is open"
  | ErrNoHealthyProviders => "no healthy providers are available"
  | ErrNotFound => "redis key not found"
  | RedisNil => "redis: nil"
  end.

(** [err.Error()]; [net_text] is the text of the errors of the network library. *)
Fixpoint Error (net_text : error -> string) (err : error) {struct err} : string :=
  match err with
  | ESentinel s => sentinel_text s
  | EText msg => msg
  | EWrap msg cause => msg +:+ ": " +:+ Error net_text cause
  | EUpstream u =>
      match u with
      | mkUpstreamError prov operation _ status _ cause =>
          if 0 <? status then prov +:+ " provider returned HTTP " +:+ Itoa status
          else
            match cause with
            | Some cause => prov +:+ " " +:+ operation +:+ " failed: " +:+ Error net_text cause
            | None => prov +:+ " " +:+ operation +:+ " failed"
            end
      end
  | EValidation _ message => message
  | EIdempotency code => code
  | EDependency code _ => code
  | ERateLimit _ => "rate limit exceeded"
  | EDNS _ _ | ENetOp _ _ _ | ENet _ _ => net_text err
  end.

(** ** Classification of errors *)

Definition IsRetryable (err : error) : bool :=
  if errors_Is err Canceled then false
  else if errors_Is err DeadlineExceeded then true
  else
    match as_upstream err with
    | Some u => ue_Retryable u
    | None => false
    end.

Definition IsCircuitFailure (err : option error) : bool :=
  match err with
  | None => false
  | Some err =>
      if errors_Is err Canceled then false
      else
        match as_upstream err with
        | None => true
        | Some u =>
            bool_decide (ue_Kind u = ErrorKindNetwork) ||
            bool_decide (ue_Kind u = ErrorKindInvalidResponse) ||
            (ue_StatusCode u =? 429) ||
            (500 <=? ue_StatusCode u)
        end
  end.

Definition ErrorCode (err : error) : string :=
  if errors_Is err DeadlineExceeded then "upstream_timeout"
  else if errors_Is err Canceled then "request_canceled"
  else
    match as_upstream err with
    | None => "provider_request_failed"
    | Some u =>
        if ue_StatusCode u =? 429 then "provider_rate_limited"
        else if ue_StatusCode u =? 503 then "provider_unavailable"
        else if bool_decide (ue_Kind u = ErrorKindNetwork) && errors_Is err DeadlineExceeded then
          "upstream_timeout"
        else if bool_decide (ue_Kind u = ErrorKindNetwork) then "provider_network_error"
        else if bool_decide (ue_Kind u = ErrorKindInvalidResponse) then "invalid_provider_response"
        else if bool_decide (ue_Kind u = ErrorKindUnavailable) then "no_healthy_provider"
        else "provider_request_failed"
    end.

Definition retryableTransportError (err : option error) : bool :=
  match err with
  | None => false
  | Some err =>
      if errors_Is err Canceled then false
      else if errors_Is err DeadlineExceeded || errors_Is err ErrUnexpectedEOF then true
      else
        match as_dns err with
        | Some isTimeout => isTimeout
        | None =>
            match as_net err with
            | Some true => true
            | _ =>
                match as_netop err with
                | Some op =>
                    bool_decide (op = "dial") || bool_decide (op = "read") ||
                    bool_decide (op = "write")
                | None => false
                end
            end
        end
  end.

(** The error of a call that returned HTTP status [code]
    (openai_compatible.go, [doRequest]). *)
Definition status_error (name : string) (code : Z) : error :=
  EUpstream (mkUpstreamError name "request" ErrorKindHTTPStatus code
    ((code =? 429) || (code =? 503)) None).

(** The error of a transport failure [cause] during [operation]. *)
Definition transport_error (name operation : string) (cause : error) : error :=
  EUpstream (mkUpstreamError name operation ErrorKindNetwork 0
    (retryableTransportError (Some cause)) (Some cause)).

(** ** Lemmas *)

Lemma errors_Is_unfold e s :
  errors_Is e s =
    match e with
    | ESentinel s' => bool_decide (s' = s)
    | _ => match Unwrap e with Some c => errors_Is c s | None => false end
    end.
Proof.
  unfold errors_Is at 1. rewrite find_chain_unfold.
  destruct e as [s0| | |u| | |k o| |b o|op b o|b o]; simpl; try done.
  - destruct (decide (s0 = s)); by case_bool_decide.
  - unfold errors_Is. by destruct (ue_Cause u).
  - unfold errors_Is. by destruct o.
  - unfold errors_Is. by destruct o.
  - unfold errors_Is. by destruct o.
  - unfold errors_Is. by destruct o.
Qed.

Lemma as_upstream_EUpstream u : as_upstream (EUpstream u) = Some u.
Proof. unfold as_upstream. by rewrite find_chain_unfold. Qed.

Lemma transport_retryable_not_canceled c :
  retryableTransportError (Some c) = true -> errors_Is c Canceled = false.
Proof. simpl. by destruct (errors_Is c Canceled). Qed.

(** ** Properties *)

(** The classification of the errors an upstream call produces. An HTTP
    status is retried exactly for 429 and 503 and counts against the circuit
    exactly for 429 and the 5xx codes; a transport failure is retried exactly
    when it is a timeout or a transient network failure, and counts against the
    circuit unless the caller canceled; whatever is retried also counts against
    the circuit. *)
Theorem upstream_error_classification name operation code cause :
  IsRetryable (status_error name code) = (code =? 429) || (code =? 503) /\
  IsCircuitFailure (Some (status_error name code)) = (code =? 429) || (500 <=? code) /\
  IsRetryable (transport_error name operation cause) = retryableTransportError (Some cause) /\
  IsCircuitFailure (Some (transport_error name operation cause)) = negb (errors_Is cause Canceled) /\
  (IsRetryable (status_error name code) = true ->
   IsCircuitFailure (Some (status_error name code)) = true) /\
  (IsRetryable (transport_error name operation cause) = true ->
   IsCircuitFailure (Some (transport_error name operation cause)) = true).
Proof.
  assert (IsRetryable (status_error name code) = (code =? 429) || (code =? 503)) as H1.
  { unfold IsRetryable. by rewrite !errors_Is_unfold. }
  assert (IsCircuitFailure (Some (status_error name code)) = (code =? 429) || (500 <=? code)) as H2.
  { unfold IsCircuitFailure. by rewrite !errors_Is_unfold. }
  assert (IsRetryable (transport_error name operation cause) =
          retryableTransportError (Some cause)) as H3.
  { unfold IsRetryable. rewrite !errors_Is_unfold. unfold transport_error.
    rewrite as_upstream_EUpstream. cbn [Unwrap ue_Cause ue_Retryable retryableTransportError].
    destruct (errors_Is cause Canceled), (errors_Is cause DeadlineExceeded); done. }
  assert (IsCircuitFailure (Some (transport_error name operation cause)) =
          negb (errors_Is cause Canceled)) as H4.
  { unfold IsCircuitFailure, transport_error. rewrite errors_Is_unfold, as_upstream_EUpstream.
    cbn [Unwrap ue_Cause]. by destruct (errors_Is cause Canceled). }
  split_and!; try done.
  - rewrite H1, H2. intros Hr. destruct (Z.eqb_spec code 429); [done|]. simpl in *.
    apply Z.leb_le. lia.
  - rewrite H3, H4. intros Hr. by rewrite (transport_retryable_not_canceled _ Hr).
Qed.

End provider.
