(* ===== verification/Sse.v ===== *)
(** * Reading event streams (internal/provider/sse_stream.go)

    The stream that parses the server-sent events of an upstream provider, over
    [bufio.Scanner], and that it reads back what the gateway's own encoding of a
    stream writes. *)

From stdpp Require Import base gmap list strings.
From Stdlib Require Import ZArith Ascii Lia.
From S2P Require Import Prelude Types GoStrings Context Codec Provider Trace.

Local Open Scope Z_scope.
Local Open Scope go_scope.

Module sse.

Definition newline : ascii := of_byte 10.
Definition lf : string := String newline EmptyString.
Definition cr : string := String (of_byte 13) EmptyString.

(** ** [bufio.Scanner] with [ScanLines]

    The reader delivers the bytes [sc_unread] and then [sc_end] (io.EOF, or the
    error of the transport); how they are cut into reads makes no difference.
    [sc_err] is the scanner's error once it has one. *)
Record Scanner : Type := mkScanner {
  sc_unread : string;
  sc_end : error;
  sc_err : option error;
}.

Definition maxSSEEventBytes : Z := 2 ^ 20.

Definition ErrTooLong : error := EText "bufio.Scanner: token too long".

Definition dropCR (s : string) : string := TrimSuffix s cr.

(** [Scan] and [Text]. A line must fit into the buffer together with its newline;
    if it does not, the buffer is kept, and a later call hands it out. *)
Definition Scan (s : Scanner) : option string * Scanner :=
  match sc_err s with
  | Some _ =>
      if bool_decide (sc_unread s = "") then (None, s)
      else (Some (dropCR (sc_unread s)), mkScanner "" (sc_end s) (sc_err s))
  | None =>
      let '(line, rest, found) := Cut (sc_unread s) newline in
      if found && (len line <? maxSSEEventBytes) then (Some (dropCR line), mkScanner rest (sc_end s) None)
      else if len (sc_unread s) <? maxSSEEventBytes then
        (if bool_decide (sc_unread s = "") then None else Some (dropCR (sc_unread s)),
         mkScanner "" (sc_end s) (Some (sc_end s)))
      else
        (None, mkScanner (String.substring 0 (Z.to_nat maxSSEEventBytes) (sc_unread s)) (sc_end s)
                 (Some ErrTooLong))
  end.

(** [Err] hides io.EOF. *)
Definition scan_Err (s : Scanner) : option error :=
  match sc_err s with
  | Some (ESentinel EOF) | None => None
  | Some e => Some e
  end.

(** ** The stream *)

Definition decodeSSEData `{!codec.Json} (dataLines : list string) : option ChatStreamChunk * option error :=
  let data := Join dataLines lf in
  if bool_decide (TrimSpace data = "[DONE]") then (None, Some (ESentinel EOF))
  else
    match codec.UnmarshalChunk data with
    | inl err => (None, Some (EWrap "decode SSE chunk" err))
    | inr chunk =>
        if bool_decide (chunk_ID chunk = "") || negb (bool_decide (chunk_Object chunk = "chat.completion.chunk"))
        then (None, Some (EText "provider returned an incomplete SSE chunk"))
        else (Some chunk, None)
    end.

(** [err == io.EOF] *)
Definition is_eof (err : option error) : bool :=
  match err with Some (ESentinel EOF) => true | _ => false end.

(** The fields of [sseStream] that change. *)
Record sseState : Type := mkState {
  st_scanner : Scanner;
  st_closed : bool;
  st_err : option error;
  st_done : bool;
}.

(** The value of a data field. *)
Definition data_field (line : string) : option string :=
  if HasPrefix line ":" then None
  else
    let '(field, value, found) := Cut line ":"%char in
    if negb found || negb (bool_decide (field = "data")) then None
    else Some (TrimPrefix value " ").

Section operations.
Context {W : Type} {HR : context.HasRuntime W} `{!codec.Json}.
(** The request's context, the wait for the network before a line is there, and
    the closing of the body. *)
Context (ctx : context.Ctx) (await : M W unit) (body_Close : M W (option error)).

Abbreviation received := (M W ((option ChatStreamChunk * option error) * sseState)).

(** [decode] marks the stream as done at its end. *)
Definition decode (dataLines : list string) (s : sseState) : (option ChatStreamChunk * option error) * sseState :=
  let '(chunk, err) := decodeSSEData dataLines in
  ((chunk, err),
   if is_eof err then mkState (st_scanner s) (st_closed s) (st_err s) true else s).

(** The loop of [Recv]; every iteration takes a line, so the number of bytes left
    bounds them. *)
Fixpoint recvLoop (fuel : nat) (dataLines : list string) (eventBytes : Z) (s : sseState) : received :=
  match fuel with
  | O => fun w => Block w
  | S fuel =>
      let! e := gets (context.ctx_Err ctx) in
      match e with
      | Some e => ret ((None, Some (ESentinel e)), s)
      | None =>
          await ;!
          let '(token, sc) := Scan (st_scanner s) in
          let s := mkState sc (st_closed s) (st_err s) (st_done s) in
          match token with
          | None =>
              match scan_Err sc with
              | Some err =>
                  let! e := gets (context.ctx_Err ctx) in
                  match e with
                  | Some e => ret ((None, Some (ESentinel e)), s)
                  | None => ret ((None, Some (EWrap "read SSE stream" err)), s)
                  end
              | None =>
                  if bool_decide (dataLines = []) then
                    ret ((None, Some (ESentinel EOF)), mkState sc (st_closed s) (st_err s) true)
                  else ret (decode dataLines s)
              end
          | Some text =>
              let line := TrimSuffix text cr in
              let eventBytes := eventBytes + len line + 1 in
              if maxSSEEventBytes <? eventBytes then
                ret ((None, Some (EText "SSE event exceeds 1048576 bytes")), s)
              else if bool_decide (line = "") then
                if bool_decide (dataLines = []) then recvLoop fuel dataLines 0 s
                else ret (decode dataLines s)
              else
                match data_field line with
                | None => recvLoop fuel dataLines eventBytes s
                | Some value => recvLoop fuel (dataLines ++ [value]) eventBytes s
                end
          end
      end
  end.

Definition Recv (s : sseState) : received :=
  if st_done s then ret ((None, Some (ESentinel EOF)), s)
  else recvLoop (S (String.length (sc_unread (st_scanner s)))) [] 0 s.

Definition Close (s : sseState) : M W (option error * sseState) :=
  if st_closed s then ret (st_err s, s)
  else
    let! err := body_Close in
    ret (err, mkState (st_scanner s) true err (st_done s)).

(** [newSSEStream], on a body that delivers [text] and then [stop]. *)
Definition newSSEStream (text : string) (stop : error) : provider.Stream W :=
  provider.mkStream sseState (mkState (mkScanner text stop None) false None false) Recv Close None.

End operations.

(** ** The contract of a stream *)

Lemma decode_contract `{!codec.Json} dataLines :
  provider.result_or_error provider.complete_chunk (decodeSSEData dataLines).
Proof.
  unfold decodeSSEData. case_bool_decide; [done|]. destruct (codec.UnmarshalChunk _) as [e|c]; [done|].
  destruct (_ || _) eqn:E; [done|]. apply orb_false_iff in E as [E1 E2].
  apply bool_decide_eq_false in E1. apply negb_false_iff, bool_decide_eq_true in E2. by split.
Qed.

Lemma newSSEStream_sound {W} {HR : context.HasRuntime W} `{!codec.Json} ctx (await : M W unit) body_Close text stop :
  provider.sound (newSSEStream ctx await body_Close text stop).
Proof.
  intros s. cbn [provider.Recv newSSEStream]. unfold Recv. destruct (st_done s); [by apply yields_ret|].
  generalize (S (String.length (sc_unread (st_scanner s)))) as fuel. generalize (@nil string) as dataLines.
  generalize 0 as eventBytes. intros eventBytes dataLines fuel. revert eventBytes dataLines s.
  induction fuel as [|fuel IH]; intros eventBytes dataLines s; cbn [recvLoop]; [apply yields_block|].
  assert (Hdec : forall s, yields (W := W) (ret (decode dataLines s))
    (fun r => provider.result_or_error provider.complete_chunk r.1)).
  { intros s'. apply yields_ret. unfold decode. pose proof (decode_contract dataLines) as Hd.
    destruct (decodeSSEData dataLines) as [[c|] [e|]]; try done; simpl; by destruct (is_eof _). }
  repeat first [apply Hdec | apply IH | yields_step]; done.
Qed.

(** ** Lemmas *)

(** A text without carriage returns does not end with one. *)
Lemma no_cr_suffix s : Forall (fun b => b <> 13) (bytes_of s) -> HasSuffix s cr = false.
Proof.
  intros H. destruct (HasSuffix s cr) eqn:E; [|done]. apply HasSuffix_split in E as [a ->].
  rewrite bytes_of_app in H. apply Forall_app in H as [_ H]. apply Forall_cons in H as [H _]. done.
Qed.

(** ** Events *)

(** A line as it is written: its text and whether it ends with CR LF. *)
Definition line_text (l : string * bool) : string := l.1 +:+ (if l.2 then cr else "") +:+ lf.

Definition lines_text (ls : list (string * bool)) : string := String.concat "" (line_text <$> ls).

(** The lines of an event and the end of its blank line. *)
Record event : Type := mkEvent {
  ev_lines : list (string * bool);
  ev_cr : bool;
}.

Definition event_text (e : event) : string := lines_text (ev_lines e) +:+ line_text ("", ev_cr e).
Definition events_text (es : list event) : string := String.concat "" (event_text <$> es).

Definition data_of (e : event) : list string := omap data_field (ev_lines e).*1.

(** Lines that are not blank, without line breaks. *)
Definition line_ok (l : string) : Prop :=
  l <> "" /\ Forall (fun b => b <> 10) (bytes_of l) /\ HasSuffix l cr = false.

(** The bytes that count against the limit. *)
Definition lines_bytes (ls : list (string * bool)) : Z := foldr (fun l n => len l.1 + 1 + n) 0 ls.

Definition event_ok (e : event) : Prop :=
  Forall (fun l => line_ok l.1) (ev_lines e) /\ lines_bytes (ev_lines e) + 1 < maxSSEEventBytes.

(** What a consumer that calls [Recv] [n] times sees. *)
Fixpoint expected `{!codec.Json} (n : nat) (es : list (list string)) : list provider.op_result :=
  match n with
  | O => []
  | S n' =>
      match es with
      | [] => replicate n (provider.RRecv None (Some (ESentinel EOF)))
      | data :: es =>
          let '(chunk, err) := decodeSSEData data in
          if is_eof err then replicate n (provider.RRecv None (Some (ESentinel EOF)))
          else provider.RRecv chunk err :: expected n' es
      end
  end.

Lemma concat_cons s l : String.concat "" (s :: l) = s +:+ String.concat "" l.
Proof. destruct l; simpl; [by rewrite append_empty_r|done]. Qed.

Lemma len_append a b : len (a +:+ b) = len a + len b.
Proof. unfold len. rewrite length_append. lia. Qed.

Lemma len_nonneg s : 0 <= len s.
Proof. unfold len. lia. Qed.

(** One line is scanned. *)
Lemma Scan_line l c rest stop :
  Forall (fun b => b <> 10) (bytes_of l) -> HasSuffix l cr = false -> len l + 1 < maxSSEEventBytes ->
  Scan (mkScanner (line_text (l, c) +:+ rest) stop None) = (Some l, mkScanner rest stop None).
Proof.
  intros Hl Hcr Hlen. unfold Scan, line_text. cbn [sc_err sc_unread sc_end fst snd].
  assert (Ht : (l +:+ (if c then cr else "") +:+ lf) +:+ rest =
    (l +:+ (if c then cr else "")) +:+ String newline rest) by (by rewrite <-!append_assoc).
  rewrite Ht, Cut_app.
  - destruct c; rewrite ?append_empty_r, ?len_append.
    + rewrite (proj2 (Z.ltb_lt _ _)) by (change (len cr) with 1; lia). simpl.
      unfold dropCR. by rewrite TrimSuffix_app.
    + rewrite (proj2 (Z.ltb_lt _ _)) by lia. simpl. unfold dropCR. by rewrite TrimSuffix_none.
  - rewrite bytes_of_app. apply Forall_app. split; [exact Hl|]. destruct c; by repeat constructor.
Qed.

Lemma length_lf_pos l : (0 < String.length (line_text l))%nat.
Proof. unfold line_text. rewrite !length_append. simpl. lia. Qed.

Section reading.
Context {W : Type} {HR : context.HasRuntime W} {J : codec.Json}.
Context (ctx : context.Ctx) (await : M W unit) (body_Close : M W (option error)).

Abbreviation live := (fun w : W => context.ctx_Err ctx w = None).

(** Waiting for the network ends, and the context stays alive. *)
Hypothesis await_live : forall w, live w -> twp await (fun _ => live) w.

Abbreviation loop := (recvLoop ctx await).

(** The state after the text up to [rest] was read. *)
Definition at_rest (rest : string) (stop : error) (s : sseState) : sseState :=
  mkState (mkScanner rest stop None) (st_closed s) (st_err s) (st_done s).

(** One step of the loop on a line. *)
Lemma loop_line fuel data n l c rest stop s w Q :
  live w -> Forall (fun b => b <> 10) (bytes_of l) -> HasSuffix l cr = false ->
  len l + 1 < maxSSEEventBytes ->
  (forall w', live w' ->
     twp (let s := at_rest rest stop s in
          let n := n + len l + 1 in
          if maxSSEEventBytes <? n then
            ret ((None, Some (EText "SSE event exceeds 1048576 bytes")), s)
          else if bool_decide (l = "") then
            if bool_decide (data = []) then loop fuel data 0 s else ret (decode data s)
          else match data_field l with
               | None => loop fuel data n s
               | Some value => loop fuel (data ++ [value]) n s
               end) Q w') ->
  twp (loop (S fuel) data n (at_rest (line_text (l, c) +:+ rest) stop s)) Q w.
Proof using await_live.
  intros Hw Hl Hcr Hlen HQ. cbn [recvLoop]. twp_steps. rewrite Hw. apply twp_bind.
  eapply twp_mono; [by apply await_live|]. intros u w' Hw'. cbn beta.
  unfold at_rest at 1. cbn [st_scanner]. rewrite Scan_line by done.
  rewrite (TrimSuffix_none l cr) by done. by apply HQ.
Qed.

(** The lines of an event and its blank line. *)
Lemma loop_event ls : forall fuel data n c rest stop s w Q,
  live w -> Forall (fun l => line_ok l.1) ls ->
  0 <= n -> n + lines_bytes ls + 1 < maxSSEEventBytes ->
  (String.length (lines_text ls +:+ line_text ("", c)) < fuel)%nat ->
  (forall fuel' w', live w' -> (fuel <= fuel' + String.length (lines_text ls +:+ line_text ("", c)))%nat ->
     twp (let data := data ++ omap data_field ls.*1 in
          if bool_decide (data = []) then loop fuel' data 0 (at_rest rest stop s)
          else ret (decode data (at_rest rest stop s))) Q w') ->
  twp (loop fuel data n (at_rest (lines_text ls +:+ line_text ("", c) +:+ rest) stop s)) Q w.
Proof using await_live.
  induction ls as [|[l b] ls IH]; intros fuel data n c rest stop s w Q Hw Hls Hn Hbytes Hfuel HQ;
    (destruct fuel as [|fuel]; [lia|]).
  - change (lines_text [] +:+ line_text ("", c) +:+ rest) with (line_text ("", c) +:+ rest).
    change (lines_text [] +:+ line_text ("", c)) with (line_text ("", c)) in *.
    simpl lines_bytes in Hbytes. apply loop_line; [done|by constructor|done|change (len "") with 0; lia|].
    intros w' Hw'. change (len "") with 0. cbn beta zeta.
    destruct (Z.ltb_spec maxSSEEventBytes (n + 0 + 1)) as [?|_]; [lia|]. simpl bool_decide.
    specialize (HQ fuel w' Hw'). simpl omap in HQ. rewrite app_nil_r in HQ. apply HQ.
    pose proof (length_lf_pos ("", c)). lia.
  - apply Forall_cons in Hls as [(Hne & Hl & Hcr) Hls]. cbn [fst] in *.
    assert (Ht : lines_text ((l, b) :: ls) = line_text (l, b) +:+ lines_text ls)
      by (unfold lines_text; by rewrite fmap_cons, concat_cons).
    rewrite Ht, <-append_assoc. rewrite Ht, <-append_assoc, length_append in Hfuel. rewrite Ht in HQ.
    pose proof (length_lf_pos (l, b)) as Hpos. cbn [lines_bytes foldr fst] in Hbytes. fold (lines_bytes ls) in Hbytes.
    assert (0 <= lines_bytes ls) as Hb.
    { clear. induction ls as [|x ls IH]; [done|]. cbn [lines_bytes foldr]. pose proof (len_nonneg x.1).
      fold (lines_bytes ls). lia. }
    apply loop_line; [done|done|done|lia|].
    intros w' Hw'. cbn beta zeta. destruct (Z.ltb_spec maxSSEEventBytes (n + len l + 1)) as [?|_]; [lia|].
    rewrite bool_decide_eq_false_2 by done. pose proof (len_nonneg l) as Hlen.
    assert (Hk : forall data' fuel' w', live w' ->
      (fuel <= fuel' + String.length (lines_text ls +:+ line_text ("", c)))%nat ->
      data' ++ omap data_field ls.*1 = data ++ omap data_field ((l, b) :: ls).*1 ->
      twp (let data := data' ++ omap data_field ls.*1 in
           if bool_decide (data = []) then loop fuel' data 0 (at_rest rest stop s)
           else ret (decode data (at_rest rest stop s))) Q w').
    { intros data' fuel' w2 Hw2 Hf Heq. rewrite Heq. apply HQ; [done|]. rewrite <-append_assoc, length_append. lia. }
    destruct (data_field l) as [v|] eqn:Ed;
      (apply IH; [done|done|lia|lia|lia|]); intros fuel' w2 Hw2 Hf; apply Hk; try done; simpl; rewrite Ed; [|done].
    by rewrite <-app_assoc.
Qed.

(** The next event with data, and the events after it. *)
Fixpoint next_event (es : list event) : option (list string * list event) :=
  match es with
  | [] => None
  | e :: es => if bool_decide (data_of e = []) then next_event es else Some (data_of e, es)
  end.

Abbreviation with_data es := (filter (fun d => d <> []) (data_of <$> es)).

Lemma next_event_spec es :
  (next_event es = None /\ with_data es = []) \/
  exists data es', next_event es = Some (data, es') /\ with_data es = data :: with_data es' /\
    (Forall event_ok es -> Forall event_ok es').
Proof using Type.
  clear. induction es as [|e es IH]; [by left|]. cbn [next_event]. rewrite fmap_cons, filter_cons.
  case_bool_decide as He.
  - rewrite decide_False by (by intros []). destruct IH as [?|(data & es' & ? & ? & H)]; [by left|right].
    exists data, es'. split_and!; [done..|]. intros [_ ?]%Forall_cons. auto.
  - rewrite decide_True by done. right. exists (data_of e), es. split_and!; [done..|]. by intros [_ ?]%Forall_cons.
Qed.

Lemma decode_eof data chunk err :
  decodeSSEData data = (chunk, err) -> is_eof err = true -> chunk = None /\ err = Some (ESentinel EOF).
Proof using Type.
  clear. unfold decodeSSEData. case_bool_decide; [by intros [= <- <-]|].
  destruct (codec.UnmarshalChunk _) as [e|c]; [by intros [= <- <-]|].
  destruct (_ || _); by intros [= <- <-].
Qed.

Abbreviation at_events es s := (at_rest (events_text es) (ESentinel EOF) s).

Definition read_event (es : list event) (s : sseState) : (option ChatStreamChunk * option error) * sseState :=
  match next_event es with
  | None =>
      ((None, Some (ESentinel EOF)),
       mkState (mkScanner "" (ESentinel EOF) (Some (ESentinel EOF))) (st_closed s) (st_err s) true)
  | Some (data, es) => decode data (at_events es s)
  end.

Lemma loop_events es : forall fuel s w,
  live w -> Forall event_ok es -> (String.length (events_text es) < fuel)%nat ->
  twp (loop fuel [] 0 (at_events es s)) (fun r w' => live w' /\ r = read_event es s) w.
Proof using await_live.
  induction es as [|e es IH]; intros fuel s w Hw Hes Hfuel.
  - destruct fuel as [|fuel]; [lia|]. cbn [recvLoop]. twp_steps. rewrite Hw. apply twp_bind.
    eapply twp_mono; [by apply await_live|]. intros u w' Hw'. cbn beta.
    change (Scan (st_scanner (at_events [] s))) with
      (@None string, mkScanner "" (ESentinel EOF) (Some (ESentinel EOF))).
    by twp_steps.
  - apply Forall_cons in Hes as [[Hls Hb] Hes].
    assert (Ht : events_text (e :: es) = lines_text (ev_lines e) +:+ line_text ("", ev_cr e) +:+ events_text es)
      by (unfold events_text; rewrite fmap_cons, concat_cons; unfold event_text; by rewrite append_assoc).
    rewrite Ht. rewrite Ht, append_assoc, length_append in Hfuel.
    apply loop_event; [done|done|done|lia|lia|]. intros fuel' w' Hw' Hf. cbn [app]. cbn zeta.
    unfold read_event. cbn [next_event]. fold (data_of e).
    case_bool_decide as Hd; [|by twp_steps]. rewrite Hd. apply IH; [done|done|lia].
Qed.

Lemma Recv_events es s w :
  live w -> Forall event_ok es -> st_done s = false ->
  twp (Recv ctx await (at_events es s)) (fun r w' => live w' /\ r = read_event es s) w.
Proof using await_live.
  intros Hw Hes Hd. unfold Recv. cbn [at_rest st_done st_scanner sc_unread]. rewrite Hd.
  apply loop_events; [done|done|lia].
Qed.

Abbreviation eof := (provider.RRecv None (Some (ESentinel EOF))).

Abbreviation reader s := (provider.mkStream sseState s (Recv ctx await) (Close body_Close) None).

(** At its end a stream stays at its end. *)
Lemma done_ops n s (t : sseState) w :
  live w -> st_done t = true ->
  twp (provider.run_ops (reader s) (replicate n provider.OpRecv) t)
    (fun r w' => live w' /\ r.1 = replicate n eof) w.
Proof using Type.
  clear await_live. intros Hw Ht. induction n as [|n IH]; cbn [replicate provider.run_ops].
  { by twp_steps. }
  apply twp_bind. cbn [provider.run_op provider.Recv]. apply twp_bind.
  assert (Hrecv : Recv ctx await t = ret ((None, Some (ESentinel EOF)), t)) by (unfold Recv; by rewrite Ht).
  rewrite Hrecv. twp_steps. eapply twp_mono; [by apply IH|]. intros [rs t'] w' [Hw' Hr]. twp_steps.
  cbn [fst] in *. by rewrite Hr.
Qed.

Lemma events_ops n es s t w :
  live w -> Forall event_ok es -> st_done t = false ->
  twp (provider.run_ops (reader s) (replicate n provider.OpRecv) (at_events es t))
    (fun r w' => live w' /\ r.1 = expected n (with_data es)) w.
Proof using await_live.
  revert es t w. induction n as [|n IH]; intros es t w Hw Hes Hd; cbn [replicate provider.run_ops].
  { by twp_steps. }
  apply twp_bind. cbn [provider.run_op provider.Recv]. apply twp_bind.
  eapply twp_mono; [by apply Recv_events|]. intros r w1 [Hw1 ->].
  unfold read_event. destruct (next_event_spec es) as [[-> ->]|(data & es' & -> & -> & Hsub)].
  - twp_steps. eapply twp_mono; [by apply done_ops|]. intros [rs t'] w2 [Hw2 Hr]. twp_steps.
    cbn [fst] in *. by rewrite Hr.
  - unfold decode. cbn [expected]. destruct (decodeSSEData data) as [chunk err] eqn:Edec. twp_steps.
    destruct (is_eof err) eqn:Ee.
    + apply decode_eof in Edec as [-> ->]; [|done]. eapply twp_mono; [by apply done_ops|].
      intros [rs t'] w2 [Hw2 Hr]. twp_steps. cbn [fst] in *. by rewrite Hr.
    + eapply twp_mono; [apply (IH es'); [done|by apply Hsub|done]|]. intros [rs t'] w2 [Hw2 Hr]. twp_steps. cbn [fst] in *. by rewrite Hr.
Qed.

(** Every line that is scanned shortens what is left. *)
Lemma Cut_shorter a sep before after :
  Cut a sep = (before, after, true) -> (String.length after < String.length a)%nat.
Proof using Type.
  clear. revert before. induction a as [|c a IH]; intros before; simpl; [by intros [=]|].
  destruct (Ascii.eqb c sep); [intros [= <- <-]; lia|].
  destruct (Cut a sep) as [[b r] f] eqn:E. intros [= <- <- ->]. specialize (IH b eq_refl). lia.
Qed.

Lemma Scan_shorter s t s' :
  Scan s = (Some t, s') -> (String.length (sc_unread s') < String.length (sc_unread s))%nat.
Proof using Type.
  clear. unfold Scan. assert (Hpos : sc_unread s <> "" -> (0 < String.length (sc_unread s))%nat)
    by (destruct (sc_unread s); simpl; [done|lia]).
  destruct (sc_err s); [case_bool_decide; [done|]; intros [= <- <-]; by apply Hpos|].
  destruct (Cut _ _) as [[line rest] found] eqn:E. destruct (found && _) eqn:Ef.
  - apply andb_true_iff in Ef as [-> _]. intros [= <- <-]. by apply Cut_shorter in E.
  - clear Ef. destruct (_ <? _); [|discriminate]. case_bool_decide; [discriminate|]. intros [= <- <-]. by apply Hpos.
Qed.

Lemma loop_returns fuel : forall data n s w,
  live w -> (String.length (sc_unread (st_scanner s)) < fuel)%nat ->
  twp (loop fuel data n s) (fun _ _ => True) w.
Proof using await_live.
  induction fuel as [|fuel IH]; intros data n s w Hw Hf; [lia|]. cbn [recvLoop]. twp_steps. rewrite Hw.
  apply twp_bind. eapply twp_mono; [by apply await_live|]. intros u w' Hw'. cbn beta.
  destruct (Scan (st_scanner s)) as [[text|] sc] eqn:E.
  - apply Scan_shorter in E. destruct (_ <? _); [by twp_steps|].
    case_bool_decide; [case_bool_decide; [|by twp_steps]|destruct (data_field _)]; apply IH; simpl; done || lia.
  - destruct (scan_Err sc); [twp_steps; destruct (context.ctx_Err ctx w'); by twp_steps|].
    case_bool_decide; by twp_steps.
Qed.

Lemma Recv_returns s w : live w -> twp (Recv ctx await s) (fun _ _ => True) w.
Proof using await_live.
  intros Hw. unfold Recv. destruct (st_done s); [by twp_steps|]. apply loop_returns; [done|lia].
Qed.

(** From the beginning of the stream. *)
Lemma events_read n es w :
  live w -> Forall event_ok es ->
  twp (provider.run_ops (newSSEStream ctx await body_Close (events_text es) (ESentinel EOF))
         (replicate n provider.OpRecv)
         (provider.stream_init (newSSEStream ctx await body_Close (events_text es) (ESentinel EOF))))
    (fun r _ => r.1 = expected n (with_data es)) w.
Proof using await_live.
  intros Hw Hes. eapply twp_mono;
    [apply (events_ops n es _ (mkState (mkScanner "" (ESentinel EOF) None) false None false))|]; [done..|].
  by intros r w' [_ ?].
Qed.

(** C27: The parser reads event streams. For every text made of events, each a
    sequence of lines ended by LF or CR LF and a blank line, of at most 1 MiB, the
    consumer gets event by event the decoding of its data fields joined by
    newlines: comments, other fields and events without data are skipped, a
    decoding error does not end the stream, "[DONE]" or the end of the text does,
    and after that every [Recv] reports EOF. On any other input [Recv] returns,
    too. *)
Theorem sse_reads_events n es w :
  live w -> Forall event_ok es ->
  (forall s, twp (Recv ctx await s) (fun _ _ => True) w) /\
  twp (provider.run_ops (newSSEStream ctx await body_Close (events_text es) (ESentinel EOF))
         (replicate n provider.OpRecv)
         (provider.stream_init (newSSEStream ctx await body_Close (events_text es) (ESentinel EOF))))
    (fun r _ => r.1 = expected n (with_data es)) w.
Proof using await_live.
  intros Hw Hes. split; [intros s; by apply Recv_returns|by apply events_read].
Qed.

End reading.

(** ** Frames

    The encoding of one payload that a server of this protocol writes. *)

Definition frame (payload : string) : string := "data: " +:+ payload +:+ lf +:+ lf.

Definition frame_event (payload : string) : event := mkEvent [("data: " +:+ payload, false)] false.

Lemma frame_text p : event_text (frame_event p) = frame p.
Proof.
  unfold event_text, lines_text, line_text, frame. simpl.
  by rewrite <-!append_assoc.
Qed.

Lemma frames_text ps : events_text (frame_event <$> ps) = String.concat "" (frame <$> ps).
Proof.
  unfold events_text. f_equal. rewrite <-list_fmap_compose. apply list_fmap_ext. intros ? p _. apply frame_text.
Qed.

Lemma frame_data p : data_of (frame_event p) = [p].
Proof.
  assert (H : data_field ("data: " +:+ p) = Some (TrimPrefix (String " " p) " ")) by done.
  rewrite TrimPrefix_space in H. change (match data_field ("data: " +:+ p) with Some v => [v] | None => [] end = [p]).
  by rewrite H.
Qed.

Lemma frames_with_data (ps : list string) :
  filter (fun d => d <> []) (data_of <$> (frame_event <$> ps)) = (fun p => [p]) <$> ps.
Proof.
  induction ps as [|p ps IH]; [done|]. rewrite !fmap_cons, frame_data, filter_cons, decide_True by done. by f_equal.
Qed.

(** A payload that fits on a line. *)
Definition payload_ok (p : string) : Prop :=
  Forall (fun b => b <> 10 /\ b <> 13) (bytes_of p) /\ len p + 8 < maxSSEEventBytes.

Lemma frame_ok p : payload_ok p -> event_ok (frame_event p).
Proof.
  intros [Hb Hl].
  assert (Hline : Forall (fun b => b <> 10 /\ b <> 13) (bytes_of ("data: " +:+ p))).
  { rewrite bytes_of_app. apply Forall_app. split; [by repeat constructor|done]. }
  split.
  - constructor; [|constructor]. split_and!; [done| |apply no_cr_suffix];
      (eapply Forall_impl; [exact Hline|]); by intros ? [? ?].
  - cbn [frame_event ev_lines lines_bytes foldr fst]. rewrite len_append. change (len "data: ") with 6. lia.
Qed.

Lemma decode_payload `{!codec.Json, !codec.JsonOk} c p :
  codec.MarshalChunk c = inr p -> provider.complete_chunk c -> decodeSSEData [p] = (Some c, None).
Proof.
  intros Hm [Hid Hobj]. unfold decodeSSEData. simpl Join.
  rewrite bool_decide_eq_false_2 by (by eapply codec.chunk_object).
  rewrite (codec.chunk_roundtrip _ _ Hm), bool_decide_eq_false_2, bool_decide_eq_true_2 by done. done.
Qed.

Definition eof_result : provider.op_result := provider.RRecv None (Some (ESentinel EOF)).
Definition chunk_result (c : ChatStreamChunk) : provider.op_result := provider.RRecv (Some c) None.

(** The frames of a list of chunks, and of the end, are read back. *)
Lemma expected_frames `{!codec.Json, !codec.JsonOk} chunks payloads k :
  Forall2 (fun c p => codec.MarshalChunk c = inr p /\ provider.complete_chunk c) chunks payloads ->
  expected (length chunks + S k) (((fun p => [p]) <$> payloads) ++ [["[DONE]"]]) =
    (chunk_result <$> chunks) ++ replicate (S k) eof_result.
Proof.
  induction 1 as [|c p chunks payloads [Hm Hc] _ IH]; [done|].
  cbn [length Nat.add fmap list_fmap app expected]. rewrite (decode_payload _ _ Hm Hc). simpl.
  f_equal. exact IH.
Qed.

(** ** A concrete stream *)

Module witnesses.

(** Chunks are encoded by their identifier, in braces. *)
#[global] Instance chunk_json : codec.Json := {
  codec.MarshalRequest _ := inl (EText "unsupported");
  codec.MarshalResponse _ := inl (EText "unsupported");
  codec.UnmarshalResponse _ := inl (EText "unsupported");
  codec.MarshalChunk c :=
    if bool_decide (c = mkChatStreamChunk "1" "chat.completion.chunk" 0 "m" [] None) then inr "{1}"
    else inl (EText "unsupported");
  codec.UnmarshalChunk s :=
    if bool_decide (s = "{1}") then inr (mkChatStreamChunk "1" "chat.completion.chunk" 0 "m" [] None)
    else inl (EText "unsupported");
}.

#[global] Instance chunk_json_ok : codec.JsonOk.
Proof.
  split; try done; intros c s H; simpl in H; case_bool_decide as Hc; try done; injection H as <-.
  - by subst.
  - by repeat constructor.
  - by vm_compute.
Qed.

(** A comment, an event of another kind, a chunk, and the end, with both line
    ends. *)
Definition demo_events : list event :=
  [mkEvent [(": keep-alive", false)] false; mkEvent [("event: message", true); ("data: {1}", true)] true;
   frame_event "[DONE]"].

Abbreviation W := (context.world unit).
Definition demo_stream : provider.Stream W :=
  newSSEStream context.Background (ret tt) (ret None) (events_text demo_events) (ESentinel EOF).

Lemma sse_reads_events_witness :
  match provider.run_ops demo_stream (replicate 3 provider.OpRecv) (provider.stream_init demo_stream)
          (context.start tt) with
  | Ret r _ => r.1 = [chunk_result (mkChatStreamChunk "1" "chat.completion.chunk" 0 "m" [] None);
                      eof_result; eof_result]
  | _ => False
  end.
Proof.
  assert (Hok : Forall event_ok demo_events).
  { repeat constructor; simpl; (done || by repeat constructor). }
  destruct (sse_reads_events (W := W) context.Background (ret tt) (ret None)
    ltac:(intros w Hw; apply twp_ret; exact Hw) 3 demo_events (context.start tt) eq_refl Hok) as [_ H].
  exact H.
Defined.

End witnesses.

End sse.
