(* ===== verification/Mock.v ===== *)
(** * The mock provider (internal/provider/mock.go)

    The provider that answers without an upstream, and that its stream says what
    its plain answer says. *)

From stdpp Require Import base gmap list strings.
From Stdlib Require Import ZArith Ascii Lia.
From S2P Require Import Prelude Types GoStrings Context Provider Trace.

Local Open Scope Z_scope.
Local Open Scope go_scope.

Module mock.

(** The loop runs from the last message to the first. *)
Fixpoint lastUser (reversed : list ChatMessage) : option string :=
  match reversed with
  | [] => None
  | m :: rest => if bool_decide (Role m = "user") then Some (Content m) else lastUser rest
  end.

Definition mockContent (messages : list ChatMessage) : string :=
  match lastUser (rev messages) with
  | Some content => "Mock response: " +:+ TrimSpace content
  | None => "ModelGate mock response"
  end.

Definition splitMockContent (content : string) : list string :=
  match Fields content with
  | [] => []
  | first :: words => first :: ((fun word => " " +:+ word) <$> words)
  end.

(** The fields of [mockStream] that change. *)
Record mockState : Type := mkState {
  index : nat;
  closed : bool;
}.

Section operations.
Context {W : Type} {HR : context.HasRuntime W}.
(** [p.sequence]: an [atomic.Uint64]. *)
Context (sequence : ref W Z).

Definition sequence_Add : M W Z := update sequence (fun n => let n := wrapu64 (n + 1) in (n, n)).

(** [time.Now().Unix()] *)
Definition now_Unix : M W Z := gets (fun w => context.Now w / second).

Definition mock_id (n : Z) : string := "chatcmpl-mock-" +:+ Itoa n.

Definition Chat (ctx : context.Ctx) (req : ChatRequest) : M W (option ChatResponse * option error) :=
  let! e := gets (context.ctx_Err ctx) in
  match e with
  | Some e => ret (None, Some (ESentinel e))
  | None =>
      let content := mockContent (Messages req) in
      let! n := sequence_Add in
      let! created := now_Unix in
      ret (Some (mkChatResponse "" (mock_id n) "chat.completion" created (Model req)
                   [mkChatChoice 0 (mkChatMessage "assistant" content) "stop"] zeroUsage), None)
  end.

Definition mockRecv (ctx : context.Ctx) (chunks : list ChatStreamChunk) (s : mockState)
  : M W ((option ChatStreamChunk * option error) * mockState) :=
  match (if closed s then None else chunks !! index s) with
  | None => ret ((None, Some (ESentinel EOF)), s)
  | Some chunk =>
      let! e := gets (context.ctx_Err ctx) in
      match e with
      | Some e => ret ((None, Some (ESentinel e)), s)
      | None => ret ((Some chunk, None), mkState (S (index s)) (closed s))
      end
  end.

Definition mockClose (s : mockState) : M W (option error * mockState) :=
  ret (None, mkState (index s) true).

Definition mockStream (ctx : context.Ctx) (chunks : list ChatStreamChunk) : provider.Stream W :=
  provider.mkStream mockState (mkState 0 false) (mockRecv ctx chunks) mockClose None.

Definition mockChunk (id : string) (created : Z) (model : string) (delta : ChatDelta)
    (finish : option string) : ChatStreamChunk :=
  mkChatStreamChunk id "chat.completion.chunk" created model [mkChatStreamChoice 0 delta finish] None.

Definition mockChunks (id : string) (created : Z) (model content : string) : list ChatStreamChunk :=
  [mockChunk id created model (mkChatDelta "assistant" "") None] ++
  ((fun part => mockChunk id created model (mkChatDelta "" part) None) <$> splitMockContent content) ++
  [mockChunk id created model (mkChatDelta "" "") (Some "stop")].

Definition ChatStream (ctx : context.Ctx) (req : ChatRequest)
  : M W (option (provider.Stream W) * option error) :=
  let! e := gets (context.ctx_Err ctx) in
  match e with
  | Some e => ret (None, Some (ESentinel e))
  | None =>
      let content := mockContent (Messages req) in
      let! n := sequence_Add in
      let! created := now_Unix in
      ret (Some (mockStream ctx (mockChunks (mock_id n) created (Model req) content)), None)
  end.

Definition NewMockProvider : provider.Provider W := provider.mkProvider Chat ChatStream.

End operations.

(** ** The contract of a provider *)

Lemma mock_id_nonempty n : mock_id n <> "".
Proof. done. Qed.

Lemma mockChunks_complete id created model content :
  id <> "" -> Forall provider.complete_chunk (mockChunks id created model content).
Proof.
  intros Hid. unfold mockChunks. apply Forall_cons. split; [done|]. apply Forall_app. split; [|by repeat constructor].
  apply Forall_fmap, Forall_true. intros part. by split.
Qed.

Lemma mockStream_sound {W} {HR : context.HasRuntime W} ctx chunks :
  Forall provider.complete_chunk chunks -> provider.sound (mockStream (W := W) ctx chunks).
Proof.
  intros Hc s. cbn [provider.Recv mockStream]. unfold mockRecv.
  destruct (if closed s then None else chunks !! index s) as [c|] eqn:E; [|by apply yields_ret].
  apply yields_then. intros [e|]; apply yields_ret; [done|].
  destruct (closed s); [done|]. by apply (Forall_lookup_1 _ _ _ _ Hc E).
Qed.

#[global] Instance mock_contract {W} {HR : context.HasRuntime W} (sequence : ref W Z) :
  provider.Contract (fun _ => True) (NewMockProvider sequence).
Proof.
  split; intros ctx r; cbn [NewMockProvider provider.Chat provider.ChatStream]; unfold Chat, ChatStream;
    repeat yields_step; try done.
  split; [|done]. by apply mockStream_sound, mockChunks_complete.
Qed.

(** ** What a consumer sees *)

(** The chunks in order, then io.EOF; after [Close] nothing but io.EOF. *)
Fixpoint replay (chunks : list ChatStreamChunk) (ops : list provider.stream_op) : list provider.op_result :=
  match ops with
  | [] => []
  | provider.OpClose :: ops => provider.RClose None :: replay [] ops
  | provider.OpRecv :: ops =>
      match chunks with
      | [] => provider.RRecv None (Some (ESentinel EOF)) :: replay [] ops
      | c :: cs => provider.RRecv (Some c) None :: replay cs ops
      end
  end.

(** The text of the deltas. *)
Definition streamed (chunks : list ChatStreamChunk) : string :=
  String.concat "" ((fun ch => delta_Content (schoice_Delta ch)) <$> (chunks ≫= chunk_Choices)).

(** The text of a response. *)
Definition answered (r : ChatResponse) : string :=
  String.concat "" ((fun ch => Content (choice_Message ch)) <$> resp_Choices r).

(** ** Lemmas *)

Lemma concat_app a b : String.concat "" (a ++ b) = String.concat "" a +:+ String.concat "" b.
Proof.
  induction a as [|x a IH]; [done|]. destruct a as [|y a].
  - destruct b as [|z b]; simpl; [by rewrite append_empty_r|done].
  - change (String.concat "" ((x :: y :: a) ++ b)) with (x +:+ "" +:+ String.concat "" ((y :: a) ++ b)).
    rewrite IH. change (String.concat "" (x :: y :: a)) with (x +:+ "" +:+ String.concat "" (y :: a)).
    by rewrite !append_assoc.
Qed.

(** The parts of a text put together are its words with single spaces. *)
Lemma splitMockContent_concat content :
  String.concat "" (splitMockContent content) = Join (Fields content) " ".
Proof.
  unfold splitMockContent, Join. destruct (Fields content) as [|w ws]; [done|].
  revert w. induction ws as [|v ws IH]; intros w; [done|]. rewrite fmap_cons.
  change (String.concat " " (w :: v :: ws)) with (w +:+ " " +:+ String.concat " " (v :: ws)). rewrite <-(IH v).
  change (w +:+ String.concat "" ((" " +:+ v) :: ((fun word => " " +:+ word) <$> ws)) =
          w +:+ " " +:+ String.concat "" (v :: ((fun word => " " +:+ word) <$> ws))).
  f_equal. destruct ws as [|u ws]; [done|].
  change ((" " +:+ v) +:+ String.concat "" ((fun word => " " +:+ word) <$> u :: ws) =
          " " +:+ v +:+ String.concat "" ((fun word => " " +:+ word) <$> u :: ws)).
  by rewrite append_assoc.
Qed.

Lemma mockChunks_streamed id created model content :
  streamed (mockChunks id created model content) = Join (Fields content) " ".
Proof.
  rewrite <-splitMockContent_concat. unfold streamed, mockChunks.
  rewrite !bind_app, !fmap_app, !concat_app.
  assert (E : forall ps, (fun ch => delta_Content (schoice_Delta ch)) <$>
    (((fun part => mockChunk id created model (mkChatDelta "" part) None) <$> ps) ≫= chunk_Choices) = ps)
    by (induction ps as [|p ps IH]; [done|]; by rewrite fmap_cons, bind_cons, fmap_app, IH).
  rewrite E. simpl. by rewrite append_empty_r.
Qed.

(** Words joined by spaces are not trimmed. *)
Lemma Join_trimmed ws : ws <> [] -> Forall word ws -> TrimSpace (Join ws " ") = Join ws " ".
Proof.
  intros Hne H.
  assert (Hends : exists b l c m, bytes_of (Join ws " ") = b :: l /\ bytes_of (Join ws " ") = m ++ [c] /\
    visible b /\ visible c).
  { induction H as [|w ws [Hw Hv] H IH]; [done|]. assert (Hb : bytes_of w <> []) by (by intros ?%bytes_of_nil).
    destruct (exists_last Hb) as (m & c & Ec). destruct (bytes_of w) as [|b l] eqn:Eb; [done|].
    assert (visible b) by (by apply Forall_cons in Hv as [? _]).
    destruct ws as [|v ws].
    - exists b, l, c, m. change (Join [w] " ") with w. rewrite Eb. split_and!; [done..|].
      rewrite Ec in Hv. by apply Forall_app in Hv as [_ [? _]%Forall_cons].
    - destruct IH as (b' & l' & c' & m' & _ & Ec' & _ & Hc'); [done|].
      change (Join (w :: v :: ws) " ") with (w +:+ " " +:+ Join (v :: ws) " ").
      rewrite !bytes_of_app, Eb, Ec'. exists b, (l ++ bytes_of " " ++ m' ++ [c']), c', ((b :: l) ++ bytes_of " " ++ m').
      split_and!; [done|by rewrite <-!app_assoc|done..]. }
  destruct Hends as (b & l & c & m & Eb & Ec & Hb & Hc). by apply (TrimSpace_ends _ b l c m).
Qed.

Section lemmas.
Context {W : Type} {HR : context.HasRuntime W} (sequence : ref W Z).

Lemma run_ops_mock ctx chunks ops i (w : W) : context.ctx_Err ctx w = None ->
  exists s', provider.run_ops (mockStream ctx chunks) ops (mkState i false) w = Ret (replay (drop i chunks) ops, s') w.
Proof using Type.
  intros Hctx.
  assert (Hclosed : forall ops i, exists s',
    provider.run_ops (mockStream ctx chunks) ops (mkState i true) w = Ret (replay [] ops, s') w).
  { induction ops0 as [|[] ops0 IH]; intros j; [by eexists| |]; destruct (IH j) as [s' E]; exists s';
      cbn; unfold bind, ret in *; simpl; by rewrite E. }
  revert i. induction ops as [|[] ops IH]; intros i; [by eexists| |].
  - destruct (chunks !! i) as [c|] eqn:Hc.
    + assert (Hr : mockRecv ctx chunks (mkState i false) w = Ret ((Some c, None), mkState (S i) false) w).
      { unfold mockRecv. cbn [closed index]. rewrite Hc. unfold bind, gets. by rewrite Hctx. }
      destruct (IH (S i)) as [s' E]. exists s'. rewrite (drop_S _ _ _ Hc). cbn.
      unfold bind, ret in *. rewrite Hr. cbn. by rewrite E.
    + assert (Hr : mockRecv ctx chunks (mkState i false) w = Ret ((None, Some (ESentinel EOF)), mkState i false) w).
      { unfold mockRecv. cbn [closed index]. by rewrite Hc. }
      destruct (IH i) as [s' E]. exists s'. rewrite drop_ge in * by by apply lookup_ge_None. cbn.
      unfold bind, ret in *. rewrite Hr. cbn. by rewrite E.
  - destruct (Hclosed ops i) as [s' E]. exists s'. cbn. unfold bind, ret in *. simpl. by rewrite E.
Qed.

(** The stream of the mock provider. While the context lives it delivers, to
    every sequence of [Recv] and [Close], a chunk with the role, one chunk per word,
    a chunk with the finish reason and then io.EOF; nothing after [Close]. All
    chunks carry the same identifier, which is not empty, the model of the request
    and the object tag the gateway's own reader requires, and their text is the
    answer with its words separated by single spaces. *)
Theorem mock_stream_delivers `{!RefDisjoint context.runtime sequence} ctx req (w : W) :
  context.ctx_Err ctx w = None ->
  exists st chunks w',
    ChatStream sequence ctx req w = Ret (Some st, None) w' /\
    (forall ops, exists s', provider.run_ops st ops (provider.stream_init st) w' = Ret (replay chunks ops, s') w') /\
    length chunks = S (S (length (Fields (mockContent (Messages req))))) /\
    streamed chunks = Join (Fields (mockContent (Messages req))) " " /\
    Forall (fun c => chunk_ID c = mock_id (wrapu64 (ref_get sequence w + 1)) /\ chunk_ID c <> "" /\
                     chunk_Object c = "chat.completion.chunk" /\ chunk_Model c = Model req) chunks.
Proof using Type.
  intros Hctx. unfold ChatStream, sequence_Add, now_Unix, update, gets, bind, ret. rewrite Hctx. cbn beta iota.
  set (n := wrapu64 (ref_get sequence w + 1)). set (w' := ref_set sequence n w).
  assert (Hctx' : context.ctx_Err ctx w' = None) by (unfold context.ctx_Err, w' in *; by rewrite ref_disj_l).
  eexists _, (mockChunks (mock_id n) (context.Now w' / second) (Model req) (mockContent (Messages req))), w'.
  split; [done|]. split_and!.
  - intros ops. apply (run_ops_mock ctx _ ops 0 w' Hctx').
  - unfold mockChunks, splitMockContent. rewrite !length_app, length_fmap. simpl. f_equal.
    destruct (Fields _); simpl; [done|]. rewrite length_fmap. lia.
  - apply mockChunks_streamed.
  - unfold mockChunks. rewrite !Forall_app, Forall_fmap. split_and!;
      [by repeat constructor|by apply Forall_true|by repeat constructor].
Qed.


End lemmas.

Module witnesses.

Definition demo : Type := context.world Z.
Definition demo_sequence : ref demo Z := mkRef snd (fun n w => (fst w, n)).

#[local] Instance demo_disjoint : RefDisjoint (@context.runtime demo _) demo_sequence.
Proof. by constructor. Qed.

Definition demo_request : ChatRequest :=
  mkChatRequest "m" [mkChatMessage "user" "old"; mkChatMessage "user" "hello there"; mkChatMessage "system" "x"]
    None None None true.

Lemma mock_stream_delivers_witness : exists st chunks w',
  ChatStream demo_sequence context.Background demo_request (context.start 0) = Ret (Some st, None) w' /\
  streamed chunks = "Mock response: hello there" /\ length chunks = 6%nat.
Proof.
  destruct (mock_stream_delivers demo_sequence context.Background demo_request (context.start 0) eq_refl)
    as (st & chunks & w' & E & _ & Hlen & Hs & _).
  exists st, chunks, w'. split; [done|]. rewrite Hs, Hlen. by vm_compute.
Defined.


End witnesses.

End mock.
