(* ===== verification/OpenAI.v ===== *)
(** * OpenAI-compatible providers (internal/provider/openai_compatible.go, deepseek.go)

    The client of an upstream that speaks the protocol of OpenAI. The HTTP client,
    [url.Parse] and [mime.ParseMediaType] are library code; they are parameters. *)

From stdpp Require Import base gmap list strings.
From Stdlib Require Import ZArith Ascii Lia.
From S2P Require Import Prelude Types GoStrings Context Trace Codec Provider Sse.

Local Open Scope Z_scope.
Local Open Scope go_scope.

Module openai.

Definition maxUpstreamResponseBytes : Z := 4 * 2 ^ 20.

(** ** The libraries *)

(** [url.Parse]: the scheme and the host. *)
Class UrlParser : Type := url_Parse : string -> error + (string * string).

(** [mime.ParseMediaType]: the media type. *)
Class MediaTypes : Type := ParseMediaType : string -> error + string.

(** [http.Request], as far as the code sets it, and [http.Client]. *)
Record Request : Type := mkRequest {
  Method : string;
  Url : string;
  Authorization : string;
  ContentType : string;
  Accept : string;
  ReqBody : string;
}.
Record Client : Type := mkClient { Timeout : Z }.

(** A response: its body delivers [body_text] and then [body_stop] (io.EOF, or the
    error of the transport); [body_wait] is the wait for it. *)
Record Response (W : Type) : Type := mkResponse {
  StatusCode : Z;
  contentType : string;
  body_text : string;
  body_stop : error;
  body_wait : M W unit;
  body_Close : M W (option error);
}.
Arguments mkResponse {W} _ _ _ _ _ _.
Arguments StatusCode {W} _.
Arguments contentType {W} _.
Arguments body_text {W} _.
Arguments body_stop {W} _.
Arguments body_wait {W} _.
Arguments body_Close {W} _.

(** [client.Do] *)
Class HttpClient (W : Type) : Type := Do : Client -> context.Ctx -> Request -> M W (error + Response W).

(** [io.ReadAll(io.LimitReader(body, n))] on a body that delivers [text] and then
    [stop]. *)
Definition ReadAllLimited (n : Z) (text : string) (stop : error) : string * option error :=
  if n <=? len text then (String.substring 0 (Z.to_nat n) text, None)
  else (text, if sse.is_eof (Some stop) then None else Some stop).

(** ** The provider *)

Record OpenAICompatibleProvider : Type := mkProvider {
  name : string;
  endpoint : string;
  apiKey : string;
  client : Client;
}.

Definition NewOpenAICompatibleProvider `{!UrlParser} (nm baseURL key : string) (cl : option Client)
  : string + OpenAICompatibleProvider :=
  let nm := TrimSpace nm in
  let baseURL := TrimRight (TrimSpace baseURL) "/" in
  let key := TrimSpace key in
  if bool_decide (nm = "") then inl "provider name is required"
  else
    match url_Parse baseURL with
    | inl _ => inl "provider base URL must be an absolute URL"
    | inr (scheme, host) =>
        if bool_decide (scheme = "") || bool_decide (host = "") then
          inl "provider base URL must be an absolute URL"
        else if negb (bool_decide (scheme = "http")) && negb (bool_decide (scheme = "https")) then
          inl "provider base URL must use http or https"
        else if bool_decide (key = "") then inl "provider API key is required"
        else
          match cl with
          | None => inl "HTTP client is required"
          | Some cl => inr (mkProvider nm (baseURL +:+ "/chat/completions") key cl)
          end
    end.

(** [NewDeepSeekProvider]: the embedded provider. *)
Definition NewDeepSeekProvider `{!UrlParser} (baseURL key : string) (cl : option Client)
  : string + OpenAICompatibleProvider :=
  NewOpenAICompatibleProvider "deepseek" baseURL key cl.

Definition invalid_response (nm operation : string) (cause : error) : error :=
  EUpstream (mkUpstreamError nm operation ErrorKindInvalidResponse 0 false (Some cause)).

Definition set_Stream (b : bool) (req : ChatRequest) : ChatRequest :=
  mkChatRequest (Model req) (Messages req) (Temperature req) (TopP req) (MaxTokens req) b.

Section operations.
Context {W : Type} {HR : context.HasRuntime W} `{!codec.Json, !UrlParser, !MediaTypes, !HttpClient W}.
Implicit Types p : OpenAICompatibleProvider.

Definition httpRequest p (accept body : string) : Request :=
  mkRequest "POST" (endpoint p) ("Bearer " +:+ apiKey p) "application/json" accept body.

Definition doRequest p ctx (req : ChatRequest) (accept : string) : M W (error + Response W) :=
  match codec.MarshalRequest req with
  | inl err => ret (inl (EWrap ("encode " +:+ name p +:+ " request") err))
  | inr body =>
      match url_Parse (endpoint p) with
      | inl err => ret (inl (EWrap ("create " +:+ name p +:+ " request") err))
      | inr _ =>
          let! answer := Do (client p) ctx (httpRequest p accept body) in
          match answer with
          | inl err => ret (inl (provider.transport_error (name p) "request" err))
          | inr resp =>
              if (StatusCode resp <? 200) || (300 <=? StatusCode resp) then
                body_Close resp ;! ret (inl (provider.status_error (name p) (StatusCode resp)))
              else ret (inr resp)
          end
      end
  end.

(** [Chat] after the response arrived. *)
Definition readResponse p (resp : Response W) : M W (option ChatResponse * option error) :=
  body_wait resp ;!
  let '(body, err) := ReadAllLimited (maxUpstreamResponseBytes + 1) (body_text resp) (body_stop resp) in
  match err with
  | Some err => ret (None, Some (provider.transport_error (name p) "read response" err))
  | None =>
      if maxUpstreamResponseBytes <? len body then
        ret (None, Some (invalid_response (name p) "read response" (EText "response exceeds 4194304 bytes")))
      else
        match codec.UnmarshalResponse body with
        | inl err => ret (None, Some (invalid_response (name p) "decode response" err))
        | inr r =>
            if bool_decide (resp_ID r = "") || bool_decide (resp_Choices r = []) then
              ret (None, Some (invalid_response (name p) "validate response"
                (EText "provider returned an incomplete response")))
            else ret (Some (set_resp_Provider (name p) r), None)
        end
  end.

Definition Chat p ctx (req : ChatRequest) : M W (option ChatResponse * option error) :=
  let! answer := doRequest p ctx req "application/json" in
  match answer with
  | inl err => ret (None, Some err)
  | inr resp => defer (body_Close resp ;! ret tt) (readResponse p resp)
  end.

Definition ChatStream p ctx (req : ChatRequest) : M W (option (provider.Stream W) * option error) :=
  let! answer := doRequest p ctx (set_Stream true req) "text/event-stream" in
  match answer with
  | inl err => ret (None, Some err)
  | inr resp =>
      let non_sse :=
        body_Close resp ;!
        ret (None, Some (invalid_response (name p) "validate stream response"
          (EText "provider returned a non-SSE response"))) in
      match ParseMediaType (contentType resp) with
      | inl _ => non_sse
      | inr mediaType =>
          if bool_decide (mediaType = "text/event-stream") then
            ret (Some (sse.newSSEStream ctx (body_wait resp) (body_Close resp) (body_text resp) (body_stop resp)), None)
          else non_sse
      end
  end.

Definition toProvider p : provider.Provider W := provider.mkProvider (Chat p) (ChatStream p).

End operations.

(** ** The contract of a provider *)

#[global] Instance openai_contract {W} {HR : context.HasRuntime W} `{!codec.Json, !UrlParser, !MediaTypes, !HttpClient W}
    (p : OpenAICompatibleProvider) : provider.Contract (fun _ => True) (toProvider p).
Proof.
  split; intros ctx r; cbn [toProvider provider.Chat provider.ChatStream].
  - unfold Chat. apply yields_then. intros [e|resp]; [by apply yields_ret|]. unfold readResponse.
    repeat yields_step; try done.
    match goal with H : _ || _ = false |- _ => apply orb_false_iff in H as [Hid Hch] end.
    apply bool_decide_eq_false in Hid, Hch. by split.
  - unfold ChatStream. apply yields_then. intros [e|resp]; [by apply yields_ret|]. cbn zeta.
    repeat yields_step; try done. split; [apply sse.newSSEStream_sound|done].
Qed.

(** ** What the provider does with its client *)

(** An answer without its body's operations. *)
Inductive answer : Type :=
| Failed (err : error)
| Answered (status : Z) (ctype text : string) (stop : error).

Definition answer_of {W} (r : error + Response W) : answer :=
  match r with
  | inl e => Failed e
  | inr resp => Answered (StatusCode resp) (contentType resp) (body_text resp) (body_stop resp)
  end.

(** A request with its answer, and the closing of a body. *)
Inductive event : Type :=
| Exchanged (req : Request) (a : answer)
| Closed.

(** The answers of a chat call. *)
Inductive chat_answer `{!codec.Json} (nm : string) : answer -> option ChatResponse * option error -> Prop :=
| chat_transport err : chat_answer nm (Failed err) (None, Some (provider.transport_error nm "request" err))
| chat_status code ctype text stop : ~ (200 <= code < 300) ->
    chat_answer nm (Answered code ctype text stop) (None, Some (provider.status_error nm code))
| chat_cut code ctype text stop : 200 <= code < 300 -> len text <= maxUpstreamResponseBytes ->
    stop <> ESentinel EOF ->
    chat_answer nm (Answered code ctype text stop) (None, Some (provider.transport_error nm "read response" stop))
| chat_long code ctype text stop cause : 200 <= code < 300 -> maxUpstreamResponseBytes < len text ->
    chat_answer nm (Answered code ctype text stop) (None, Some (invalid_response nm "read response" cause))
| chat_invalid code ctype text operation cause : 200 <= code < 300 ->
    (forall r, codec.UnmarshalResponse text = inr r -> resp_ID r = "" \/ resp_Choices r = []) ->
    chat_answer nm (Answered code ctype text (ESentinel EOF)) (None, Some (invalid_response nm operation cause))
| chat_ok code ctype text r : 200 <= code < 300 -> len text <= maxUpstreamResponseBytes ->
    codec.UnmarshalResponse text = inr r -> resp_ID r <> "" -> resp_Choices r <> [] ->
    chat_answer nm (Answered code ctype text (ESentinel EOF)) (Some (set_resp_Provider nm r), None).

Section properties.
Context {W : Type} {HR : context.HasRuntime W} {HJ : codec.Json} {HU : UrlParser} {HM : MediaTypes}
  {HC : HttpClient W} (log : W -> list event).

(** The documented behaviour of the client: one exchange per call; a body is
    readable and can be closed. *)
Definition body_ok (resp : Response W) : Prop :=
  silent log (body_wait resp) /\ traces log (body_Close resp) (fun _ evs => evs = [Closed]).

Class ClientOk : Prop := do_traces : forall cl ctx req,
  traces log (Do cl ctx req) (fun r evs =>
    evs = [Exchanged req (answer_of r)] /\ forall resp, r = inr resp -> body_ok resp).
Context {HCok : ClientOk}.

Implicit Types p : OpenAICompatibleProvider.

(** Nothing was sent: the request could not be encoded, or the endpoint is not a
    URL. *)
Definition not_sent p (req : ChatRequest) : Prop :=
  (exists e, codec.MarshalRequest req = inl e) \/ (exists e, url_Parse (endpoint p) = inl e).

Lemma doRequest_traces p ctx req accept :
  traces log (doRequest p ctx req accept) (fun r evs =>
    (not_sent p req /\ evs = [] /\ exists m e, r = inl (EWrap m e)) \/
    exists body a, codec.MarshalRequest req = inr body /\
      ((evs = [Exchanged (httpRequest p accept body) a] /\
        ((exists e, a = Failed e /\ r = inl (provider.transport_error (name p) "request" e)) \/
         (exists resp, r = inr resp /\ a = answer_of (inr resp) /\ 200 <= StatusCode resp < 300 /\ body_ok resp))) \/
       (evs = [Exchanged (httpRequest p accept body) a; Closed] /\
        exists code ctype text stop, a = Answered code ctype text stop /\ ~ (200 <= code < 300) /\
          r = inl (provider.status_error (name p) code)))).
Proof using All.
  unfold doRequest. destruct (codec.MarshalRequest req) as [err|body] eqn:Hm.
  { apply traces_ret. left. split_and!; [left; by eexists|done|by do 2 eexists]. }
  destruct (url_Parse (endpoint p)) as [err|u] eqn:Hu.
  { apply traces_ret. left. split_and!; [right; by eexists|done|by do 2 eexists]. }
  eapply traces_bind; [apply do_traces|]. intros r evs [-> Hok]. destruct r as [err|resp].
  { apply traces_ret. right. exists body, (Failed err). split; [done|]. left. split; [done|]. left. by eexists. }
  destruct (_ || _) eqn:Hc.
  - destruct (Hok resp eq_refl) as [_ Hclose]. eapply traces_bind; [apply Hclose|]. intros err evs ->.
    apply traces_ret. right. exists body, (answer_of (inr resp)). split; [done|]. right. split; [done|].
    do 4 eexists. split; [done|]. split; [|done].
    apply orb_true_iff in Hc as [?%Z.ltb_lt|?%Z.leb_le]; lia.
  - apply orb_false_iff in Hc as [?%Z.ltb_ge ?%Z.leb_gt]. apply traces_ret. right.
    exists body, (answer_of (inr resp)). split; [done|]. left. split; [done|]. right. exists resp.
    split_and!; [done|done|lia|lia|by apply Hok].
Qed.

Lemma len_substring n s : 0 <= n <= len s -> len (String.substring 0 (Z.to_nat n) s) = n.
Proof using Type.
  unfold len. intros H. assert (E : forall k t, (k <= String.length t)%nat -> String.length (String.substring 0 k t) = k).
  { induction k as [|k IH]; intros [|c t] Hk; simpl in *; try done; try lia. by rewrite IH by lia. }
  rewrite E by lia. lia.
Qed.

Lemma readResponse_traces p resp : 200 <= StatusCode resp < 300 -> silent log (body_wait resp) ->
  traces log (readResponse p resp) (fun r evs => evs = [] /\ chat_answer (name p) (answer_of (inr resp)) r).
Proof using Type.
  intros Hst Hw. unfold readResponse. apply traces_silent; [done|]. intros _. unfold ReadAllLimited. cbn [answer_of].
  destruct (Z.leb_spec (maxUpstreamResponseBytes + 1) (len (body_text resp))) as [Hl|Hl].
  { rewrite len_substring by (unfold maxUpstreamResponseBytes in *; lia). rewrite (proj2 (Z.ltb_lt _ _)) by lia.
    apply traces_ret. split; [done|]. apply chat_long; [done|lia]. }
  destruct (sse.is_eof (Some (body_stop resp))) eqn:He.
  - assert (body_stop resp = ESentinel EOF) as -> by (destruct (body_stop resp) as [[]| | | | | | | | | |]; done).
    rewrite (proj2 (Z.ltb_ge _ _)) by lia.
    destruct (codec.UnmarshalResponse (body_text resp)) as [err|r] eqn:Hr.
    { apply traces_ret. split; [done|]. apply chat_invalid; [done|]. by rewrite Hr. }
    destruct (_ || _) eqn:Hb.
    + apply traces_ret. split; [done|]. apply chat_invalid; [done|]. rewrite Hr. intros r' [= <-].
      apply orb_true_iff in Hb as [?%bool_decide_eq_true|?%bool_decide_eq_true]; auto.
    + apply orb_false_iff in Hb as [?%bool_decide_eq_false ?%bool_decide_eq_false].
      apply traces_ret. split; [done|]. apply chat_ok; [done|lia|done..].
  - apply traces_ret. split; [done|]. apply chat_cut; [done|lia|]. intros E. by rewrite E in He.
Qed.

(** C22: What a call of an upstream does. At most one request is sent, with the
    provider's endpoint and key and the encoded request; nothing is sent if the
    request cannot be built. The body of every response is closed exactly once,
    on errors too. The result is the one the answer calls for: a response only for a
    2xx status with a complete, valid body of at most 4 MiB, with the provider's
    name on it; otherwise an upstream error of the right kind. *)
Theorem upstream_chat p ctx req :
  traces log (Chat p ctx req) (fun r evs =>
    (not_sent p req /\ evs = [] /\ exists m e, r = (None, Some (EWrap m e))) \/
    exists body a, codec.MarshalRequest req = inr body /\ chat_answer (name p) a r /\
      evs = Exchanged (httpRequest p "application/json" body) a ::
            match a with Failed _ => [] | Answered _ _ _ _ => [Closed] end).
Proof using All.
  unfold Chat. eapply traces_bind; [apply doRequest_traces|].
  intros r evs [(Hn & -> & m & e & ->)|(body & a & Hm & H)].
  { apply traces_ret. left. split_and!; [done..|by do 2 eexists]. }
  destruct H as [[-> [(e & -> & ->)|(resp & -> & -> & Hst & Hok)]]|(-> & code & ctype & text & stop & -> & Hst & ->)].
  - apply traces_ret. right. exists body, (Failed e). split_and!; [done|constructor|done].
  - destruct Hok as [Hw Hclose]. intros w. apply twp_defer.
    eapply twp_mono; [by apply readResponse_traces|]. intros r w1 (evs & Hl & -> & Hr).
    apply twp_bind. eapply twp_mono; [apply Hclose|]. intros err w2 (evs & Hl2 & ->). apply twp_ret.
    exists [Closed]. rewrite Hl2, Hl, app_nil_r. split; [done|]. right. exists body, (answer_of (inr resp)). done.
  - apply traces_ret. right. do 2 eexists. split_and!; [done|by constructor|done].
Qed.

(** ** The stream owns its body *)

Lemma loop_silent ctx wait fuel data n s :
  silent log wait -> (String.length (sse.sc_unread (sse.st_scanner s)) < fuel)%nat ->
  traces log (sse.recvLoop ctx wait fuel data n s)
    (fun r evs => evs = [] /\ sse.st_closed r.2 = sse.st_closed s).
Proof using Type.
  intros Hw. revert data n s. induction fuel as [|fuel IH]; intros data n s Hf; [lia|]. cbn [sse.recvLoop].
  apply traces_silent; [apply silent_gets|]. intros [e|]; [by apply traces_ret|].
  apply traces_silent; [done|]. intros _.
  destruct (sse.Scan (sse.st_scanner s)) as [[text|] sc] eqn:E.
  - apply sse.Scan_shorter in E. destruct (_ <? _); [by apply traces_ret|].
    case_bool_decide; [case_bool_decide|destruct (sse.data_field _)];
      try (eapply traces_mono; [apply IH; simpl; lia|done]).
    unfold sse.decode. destruct (sse.decodeSSEData _). apply traces_ret. split; [done|]. by destruct (sse.is_eof _).
  - destruct (sse.scan_Err sc).
    + apply traces_silent; [apply silent_gets|]. intros [e'|]; by apply traces_ret.
    + case_bool_decide; [by apply traces_ret|].
      unfold sse.decode. destruct (sse.decodeSSEData _). apply traces_ret. split; [done|]. by destruct (sse.is_eof _).
Qed.

(** What the consumer's operations add to the trace. *)
Definition closes (closed : bool) (ops : list provider.stream_op) : list event :=
  if closed then [] else if existsb (fun op => match op with provider.OpClose => true | _ => false end) ops then [Closed] else [].

Lemma stream_closes ctx resp ops s : body_ok resp ->
  traces log (provider.run_ops (sse.newSSEStream ctx (body_wait resp) (body_Close resp) (body_text resp) (body_stop resp)) ops s)
    (fun _ evs => evs = closes (sse.st_closed s) ops).
Proof using Type.
  intros [Hw Hclose]. revert s. induction ops as [|[] ops IH]; intros s; cbn [provider.run_ops provider.run_op].
  - apply traces_ret. unfold closes. by destruct (sse.st_closed s).
  - eapply (traces_bind log _ _ (fun r evs => evs = [] /\ sse.st_closed r.2 = sse.st_closed s)).
    + cbn [provider.Recv sse.newSSEStream]. unfold sse.Recv. destruct (sse.st_done s).
      { apply traces_bind with (P := fun r evs => r.2 = s /\ evs = []); [by apply traces_ret|].
        intros [[c e] t] evs [? ->]. simpl in *. subst. by apply traces_ret. }
      eapply traces_bind; [apply loop_silent; [done|lia]|]. intros [[c e] t] evs [-> Ht]. by apply traces_ret.
    + intros [r t] evs [-> Ht]. simpl in Ht. eapply traces_bind; [apply IH|]. intros [rs t'] evs ->.
      apply traces_ret. rewrite app_nil_r. simpl in *. by rewrite Ht.
  - eapply (traces_bind log _ _ (fun r evs => evs = closes (sse.st_closed s) [provider.OpClose] /\ sse.st_closed r.2 = true)).
    + cbn [provider.Close sse.newSSEStream]. unfold sse.Close. destruct (sse.st_closed s) eqn:Hs.
      { apply traces_bind with (P := fun r evs => r.2 = s /\ evs = []); [by apply traces_ret|].
        intros [e t] evs [? ->]. simpl in *. subst. by apply traces_ret. }
      apply traces_bind with (P := fun r evs => sse.st_closed r.2 = true /\ evs = [Closed]).
      * eapply traces_bind; [apply Hclose|]. intros e evs ->. by apply traces_ret.
      * intros [e t] evs [? ->]. by apply traces_ret.
    + intros [r t] evs [-> Ht]. simpl in Ht. eapply traces_bind; [apply IH|]. intros [rs t'] evs ->.
      apply traces_ret. simpl. rewrite Ht. unfold closes. simpl. by rewrite !app_nil_r.
Qed.

(** C23: What opening a stream does. At most one request is sent, which asks for a
    stream of events. If no stream is returned, the body of the response, if there
    was one, has been closed; if one is returned, the status was 2xx and the media
    type text/event-stream, the body is open, and over every sequence of [Recv] and
    [Close] of its consumer it is closed at most once, and exactly once if the
    consumer closes the stream at all. *)
Theorem upstream_stream p ctx req :
  traces log (ChatStream p ctx req) (fun r evs =>
    (not_sent p (set_Stream true req) /\ evs = [] /\ exists m e, r = (None, Some (EWrap m e))) \/
    exists body a, codec.MarshalRequest (set_Stream true req) = inr body /\
      ((exists st code ctype text stop, r = (Some st, None) /\ a = Answered code ctype text stop /\
          200 <= code < 300 /\ ParseMediaType ctype = inr "text/event-stream" /\
          evs = [Exchanged (httpRequest p "text/event-stream" body) a] /\
          forall ops, traces log (provider.run_ops st ops (provider.stream_init st))
                        (fun _ evs => evs = closes false ops)) \/
       (exists u, r = (None, Some (EUpstream u)) /\ ue_Provider u = name p /\
          evs = Exchanged (httpRequest p "text/event-stream" body) a ::
                match a with Failed _ => [] | Answered _ _ _ _ => [Closed] end))).
Proof using All.
  unfold ChatStream. eapply traces_bind; [apply doRequest_traces|].
  intros r evs [(Hn & -> & m & e & ->)|(body & a & Hm & H)].
  { apply traces_ret. left. split_and!; [done..|by do 2 eexists]. }
  destruct H as [[-> [(e & -> & ->)|(resp & -> & -> & Hst & Hok)]]|(-> & code & ctype & text & stop & -> & Hst & ->)].
  - apply traces_ret. right. exists body, (Failed e). split; [done|]. right. by eexists.
  - assert (Hbad : forall u, ue_Provider u = name p ->
      traces log (body_Close resp ;! ret (None, Some (EUpstream u)))
        (fun r evs => (exists u, r = (@None (provider.Stream W), Some (EUpstream u)) /\ ue_Provider u = name p) /\ evs = [Closed])).
    { intros u Hu. destruct Hok as [_ Hclose]. eapply traces_bind; [apply Hclose|]. intros err evs ->.
      apply traces_ret. split; [by exists u|done]. }
    destruct (ParseMediaType (contentType resp)) as [err|mediaType] eqn:Hp; [|case_bool_decide].
    1,3: eapply traces_mono; [by apply Hbad|]; intros r evs [(u & -> & Hu) ->]; right;
      exists body, (answer_of (inr resp)); split; [done|]; right; by exists u.
    apply traces_ret. right. exists body, (answer_of (inr resp)). split; [done|]. left.
    do 5 eexists. split_and!; [done|done|lia|lia|by simplify_eq|done|]. intros ops. by apply stream_closes.
  - apply traces_ret. right. exists body, (Answered code ctype text stop). split; [done|]. right. by eexists.
Qed.

End properties.

Module witnesses.

Definition demo : Type := context.world (list event).
Definition demo_log (w : demo) : list event := snd w.
Definition push (e : event) : M demo unit := fun w => Ret tt (fst w, snd w ++ [e]).

(** An upstream that answers every request with a stream of one event. *)
Definition demo_response : Response demo :=
  mkResponse 200 "text/event-stream" ("data: x" +:+ sse.lf +:+ sse.lf) (ESentinel EOF)
    (ret tt) (push Closed ;! ret None).
#[local] Instance demo_client : HttpClient demo := fun _ _ req =>
  push (Exchanged req (answer_of (inr demo_response))) ;! ret (inr demo_response).
#[local] Instance demo_urls : UrlParser := fun _ => inr ("https", "h").
#[local] Instance demo_media : MediaTypes := fun s => inr s.
#[local] Instance demo_json : codec.Json := {|
  codec.MarshalRequest _ := inr "{}";
  codec.MarshalResponse _ := inr "{}";
  codec.UnmarshalResponse _ := inl (EText "syntax");
  codec.MarshalChunk _ := inr "{}";
  codec.UnmarshalChunk _ := inl (EText "syntax");
|}.

Lemma demo_client_ok : ClientOk demo_log.
Proof.
  intros cl ctx req w. cbn. eexists. split; [done|]. split; [done|]. intros resp [= <-].
  split; [apply silent_ret|]. intros w'. cbn. by eexists.
Qed.

Definition demo_provider : OpenAICompatibleProvider := mkProvider "up" "https://h/chat/completions" "k" (mkClient second).
Definition demo_request : ChatRequest := mkChatRequest "m" [mkChatMessage "user" "hi"] None None None false.

(** The body is not JSON: the call fails, and the body is closed. *)
Lemma upstream_chat_witness : exists r w',
  Chat demo_provider context.Background demo_request (context.start []) = Ret (None, Some r) w' /\
  exists a, demo_log w' = [Exchanged (httpRequest demo_provider "application/json" "{}") a; Closed].
Proof.
  pose proof (upstream_chat demo_log (HCok := demo_client_ok) demo_provider context.Background demo_request (context.start []))
    as H.
  apply twp_Ret in H as (r & w' & E & evs & Hl & [(Hn & _)|(body & a & Hb & Ha & ->)]).
  - exfalso. destruct Hn as [[e He]|[e He]]; discriminate He.
  - vm_compute in E. injection E as <- <-. do 2 eexists. split; [done|]. eexists. done.
Defined.

Lemma upstream_stream_witness : exists st w',
  ChatStream demo_provider context.Background demo_request (context.start []) = Ret (Some st, None) w' /\
  traces demo_log (provider.run_ops st [provider.OpClose; provider.OpClose] (provider.stream_init st))
    (fun _ evs => evs = [Closed]).
Proof.
  pose proof (upstream_stream demo_log (HCok := demo_client_ok) demo_provider context.Background demo_request (context.start []))
    as H.
  apply twp_Ret in H as (r & w' & E & evs & Hl & [(Hn & _)|(body & a & Hb & [Hok|(u & -> & _)])]).
  - exfalso. destruct Hn as [[e He]|[e He]]; discriminate He.
  - destruct Hok as (st & code & ctype & text & stop & -> & _ & _ & _ & _ & Hst).
    exists st, w'. split; [done|]. apply Hst.
  - exfalso. apply (f_equal (fun o => match o with Ret (Some _, _) _ => true | _ => false end)) in E.
    vm_compute in E. discriminate E.
Defined.

End witnesses.

End openai.
