(* ===== verification/Governance.v ===== *)
(** * Governed providers (internal/governance/provider.go)

    The wrapper that puts a concurrency limit, a circuit breaker and a retry
    policy around a provider, for calls and for streams. *)

From stdpp Require Import base gmap list strings.
From Stdlib Require Import ZArith Lia.
From S2P Require Import Prelude Types GoStrings Context CircuitBreaker Semaphore Retry Provider Trace.

Local Open Scope Z_scope.
Local Open Scope go_scope.

Module governance.

(** [breaker] and [semaphore] point into the world. *)
Record Provider (W : Type) : Type := mkProvider {
  name : string;
  inner : provider.Provider W;
  retryPolicy : retry.Policy W;
  breaker : circuitbreaker.Handle W;
  semaphore : ref W concurrency.Semaphore;
}.
Arguments mkProvider {W} _ _ _ _ _.
Arguments name {W} _.
Arguments inner {W} _.
Arguments retryPolicy {W} _.
Arguments breaker {W} _.
Arguments semaphore {W} _.

(** [None] arguments are nil pointers. *)
Definition NewProvider {W} (nm : string) (inner : option (provider.Provider W))
    (policy : option (retry.Policy W)) (brk : option (circuitbreaker.Handle W))
    (sem : option (ref W concurrency.Semaphore)) : string + Provider W :=
  let nm := TrimSpace nm in
  if bool_decide (nm = "") then inl "provider name is required"
  else
    match inner, policy, brk, sem with
    | Some i, Some p, Some b, Some s => inr (mkProvider nm i p b s)
    | _, _, _, _ => inl "provider, retry policy, breaker, and semaphore are required"
    end.

Definition circuitOutcome (err : option error) : circuitbreaker.Outcome :=
  match err with
  | None => circuitbreaker.OutcomeSuccess
  | Some _ =>
      if provider.IsCircuitFailure err then circuitbreaker.OutcomeFailure
      else circuitbreaker.OutcomeIgnored
  end.

(** The error for a provider that returns neither a result nor an error. *)
Definition nil_result (nm operation what : string) : error :=
  EUpstream (mkUpstreamError nm operation ErrorKindInvalidResponse 0 false
    (Some (EText what))).

Section operations.
Context {W : Type} `{!context.HasRuntime W, !context.Scheduler W}.
Implicit Types (p : Provider W).

Definition Name p : string := name p.
Definition Available p : M W bool := circuitbreaker.Available (breaker p).
Definition CircuitState p : M W circuitbreaker.State := circuitbreaker.State_ (breaker p).

(** The closure passed to [retry.Do]; the captured [response] is the last
    argument. *)
Definition chatAttempt p (request : ChatRequest) (attemptCtx : context.Ctx)
    (_ : option ChatResponse) : M W (option error * option ChatResponse) :=
  let! '(response, callErr) := provider.Chat (inner p) attemptCtx request in
  match callErr, response with
  | None, None => ret (Some (nil_result (name p) "chat" "provider returned a nil response"), response)
  | _, _ => ret (callErr, response)
  end.

Definition release p (permit : concurrency.Permit) : M W unit :=
  concurrency.Release (semaphore p) (Some permit) ;! ret tt.

(** [Chat] after the semaphore was acquired. *)
Definition chatAdmitted p ctx (request : ChatRequest) : M W (option ChatResponse * option error) :=
  let! allowed := circuitbreaker.Allow (breaker p) in
  match allowed with
  | inl err => ret (None, Some err)
  | inr circuitPermit =>
      let! '(err, response) :=
        retry.Do (retryPolicy p) ctx (Some provider.IsRetryable) (chatAttempt p request) None in
      circuitbreaker.Done (breaker p) (Some circuitPermit) (circuitOutcome err) ;!
      match err with
      | Some e => ret (None, Some e)
      | None =>
          match response with
          | Some r => ret (Some (set_resp_Provider (name p) r), None)
          | None => panic
          end
      end
  end.

Definition Chat p ctx (request : ChatRequest) : M W (option ChatResponse * option error) :=
  let! acquired := concurrency.Acquire (semaphore p) ctx in
  match acquired with
  | inl err => ret (None, Some err)
  | inr concurrencyPermit => defer (release p concurrencyPermit) (chatAdmitted p ctx request)
  end.

(** ** Streams *)

(** The fields of [managedStream] that change: the inner stream, the [sync.Once]
    and the two permits. *)
Record managedState (S : Type) : Type := mkManaged {
  ms_inner : S;
  ms_finished : bool;
  ms_circuit : option circuitbreaker.Permit;
  ms_concurrency : option concurrency.Permit;
}.
Arguments mkManaged {S} _ _ _ _.
Arguments ms_inner {S} _.
Arguments ms_finished {S} _.
Arguments ms_circuit {S} _.
Arguments ms_concurrency {S} _.

Definition finish {S} p (cancel : context.CancelFunc) (outcome : circuitbreaker.Outcome)
    (s : managedState S) : M W (managedState S) :=
  if ms_finished s then ret s
  else
    context.cancel cancel ;!
    let! circuit := circuitbreaker.Done (breaker p) (ms_circuit s) outcome in
    let! conc := concurrency.Release (semaphore p) (ms_concurrency s) in
    ret (mkManaged (ms_inner s) true circuit conc).

Definition managedRecv p cancel (inner : provider.Stream W)
    (s : managedState (provider.stream_state inner))
  : M W ((option ChatStreamChunk * option error) * managedState (provider.stream_state inner)) :=
  let! '((chunk, err), i) := provider.Recv inner (ms_inner s) in
  let s := mkManaged i (ms_finished s) (ms_circuit s) (ms_concurrency s) in
  match err with
  | None => ret ((chunk, err), s)
  | Some e =>
      let! s := (if errors_Is e EOF
                 then finish p cancel circuitbreaker.OutcomeSuccess s
                 else finish p cancel (circuitOutcome err) s) in
      ret ((chunk, err), s)
  end.

Definition managedClose p cancel (inner : provider.Stream W)
    (s : managedState (provider.stream_state inner))
  : M W (option error * managedState (provider.stream_state inner)) :=
  let! '(err, i) := provider.Close inner (ms_inner s) in
  let s := mkManaged i (ms_finished s) (ms_circuit s) (ms_concurrency s) in
  let! s := (match err with
             | Some _ => finish p cancel circuitbreaker.OutcomeFailure s
             | None => finish p cancel circuitbreaker.OutcomeIgnored s
             end) in
  ret (err, s).

Definition managedStream p cancel (inner : provider.Stream W)
    (circuit : circuitbreaker.Permit) (conc : concurrency.Permit) : provider.Stream W :=
  provider.mkStream (managedState (provider.stream_state inner))
    (mkManaged (provider.stream_init inner) false (Some circuit) (Some conc))
    (managedRecv p cancel inner) (managedClose p cancel inner) (Some (name p)).

Definition streamAttempt p (request : ChatRequest) (attemptCtx : context.Ctx)
    (_ : option (provider.Stream W)) : M W (option error * option (provider.Stream W)) :=
  let! '(stream, callErr) := provider.ChatStream (inner p) attemptCtx request in
  match callErr, stream with
  | None, None => ret (Some (nil_result (name p) "chat stream" "provider returned a nil stream"), stream)
  | _, _ => ret (callErr, stream)
  end.

Definition ChatStream p ctx (request : ChatRequest)
  : M W (option (provider.Stream W) * option error) :=
  let! acquired := concurrency.Acquire (semaphore p) ctx in
  match acquired with
  | inl err => ret (None, Some err)
  | inr concurrencyPermit =>
      let! allowed := circuitbreaker.Allow (breaker p) in
      match allowed with
      | inl err => release p concurrencyPermit ;! ret (None, Some err)
      | inr circuitPermit =>
          let! '((attemptCancel, err), stream) :=
            retry.DoRetained (retryPolicy p) ctx (Some provider.IsRetryable)
              (streamAttempt p request) None in
          match err with
          | Some e =>
              circuitbreaker.Done (breaker p) (Some circuitPermit) (circuitOutcome err) ;!
              release p concurrencyPermit ;!
              ret (None, Some e)
          | None =>
              match attemptCancel, stream with
              | Some cancel, Some inner =>
                  ret (Some (managedStream p cancel inner circuitPermit concurrencyPermit), None)
              | _, _ => panic
              end
          end
      end
  end.

End operations.

Arguments mkManaged {S} _ _ _ _.
Arguments ms_inner {S} _.
Arguments ms_finished {S} _.
Arguments ms_circuit {S} _.
Arguments ms_concurrency {S} _.

(** ** The contract of a provider *)

(** The governed provider as a provider. *)
Definition toProvider {W} `{!context.HasRuntime W, !context.Scheduler W} (p : Provider W) : provider.Provider W :=
  provider.mkProvider (Chat p) (ChatStream p).

Section contract.
Context {W : Type} {HR : context.HasRuntime W} {HS : context.Scheduler W}.
Context (p : Provider W) {named : string -> Prop} {Hinner : provider.Contract named (inner p)}.

Lemma attempt_response request c l :
  yields (chatAttempt p request c l) (fun a => forall r, a.2 = Some r -> provider.complete_response r).
Proof using Hinner.
  unfold chatAttempt. eapply yields_bind; [apply provider.contract_chat|].
  intros [[r|] [e|]]; simpl; try done; intros H; apply yields_ret; [|done]. intros ? [= <-]. apply H.
Qed.

Lemma attempt_stream request c l :
  yields (streamAttempt p request c l) (fun a => forall st, a.2 = Some st -> provider.sound st).
Proof using Hinner.
  unfold streamAttempt. eapply yields_bind; [apply provider.contract_stream|].
  intros [[r|] [e|]]; simpl; try done; intros H; apply yields_ret; [|done]. intros ? [= <-]. apply H.
Qed.

Lemma managedStream_sound cancel st circuit conc :
  provider.sound st -> provider.sound (managedStream p cancel st circuit conc).
Proof using Type.
  intros Hst s. cbn [provider.Recv managedStream]. unfold managedRecv. eapply yields_bind; [apply Hst|].
  intros [[chunk err] i] H. cbn [fst] in H. repeat yields_step; done.
Qed.

(** A governed provider keeps the contract under its own name. *)
#[global] Instance governed_contract : provider.Contract (fun n => n = name p) (toProvider p).
Proof using Hinner.
  split; intros ctx r; cbn [toProvider provider.Chat provider.ChatStream].
  - unfold Chat, chatAdmitted, retry.Do. apply yields_then. intros [e|permit]; [by apply yields_ret|]. apply yields_defer.
    apply yields_then. intros [e|circuit]; [by apply yields_ret|].
    eapply (yields_bind _ _ (fun a => forall r, a.2 = Some r -> provider.complete_response r)).
    { eapply yields_bind; [apply (retry.do_yields _ _ _ _ _ (fun l => forall r, l = Some r -> provider.complete_response r));
        [apply attempt_response|done]|].
      intros [[cancel err] l] Hl. by repeat yields_step. }
    intros [err response] Hr. cbn [snd] in Hr. repeat yields_step; try done. subst. split; [|done].
    exact (Hr _ eq_refl).
  - unfold ChatStream, retry.DoRetained. apply yields_then. intros [e|permit]; [by apply yields_ret|].
    apply yields_then. intros [e|circuit]; [by repeat yields_step|].
    eapply yields_bind; [apply (retry.do_yields _ _ _ _ _ (fun l => forall st, l = Some st -> provider.sound st));
      [apply attempt_stream|done]|].
    intros [[cancel err] st] Hst. cbn [snd] in Hst. repeat yields_step; try done. subst.
    split; [|done]. by apply managedStream_sound, Hst.
Qed.

End contract.

(** ** Specification *)

(** The outcome that ends a stream: EOF is a success, an error is classified,
    [Close] before the end is ignored unless it fails. *)
Definition terminal (r : provider.op_result) : option circuitbreaker.Outcome :=
  match r with
  | provider.RRecv _ None => None
  | provider.RRecv _ (Some e) =>
      Some (if errors_Is e EOF then circuitbreaker.OutcomeSuccess else circuitOutcome (Some e))
  | provider.RClose None => Some circuitbreaker.OutcomeIgnored
  | provider.RClose (Some _) => Some circuitbreaker.OutcomeFailure
  end.

Definition first_of (t : option circuitbreaker.Outcome) (rs : list provider.op_result)
  : option circuitbreaker.Outcome :=
  foldl (fun t r => match t with Some _ => t | None => terminal r end) t rs.

Section spec.
Context {W : Type} {HR : context.HasRuntime W} {HS : context.Scheduler W}.
Variable p : Provider W.

Abbreviation sem w := (ref_get (semaphore p) w).
Abbreviation brk w := (ref_get (circuitbreaker.cell (breaker p)) w).
Abbreviation opts := (circuitbreaker.options (breaker p)).

(** Code outside the wrapper that leaves this provider's semaphore and breaker
    as they are; it may panic only if [may_panic]. *)
Definition quiet (may_panic : Prop) {A} (m : M W A) : Prop :=
  forall w, wp m (fun _ w' => sem w' = sem w /\ brk w' = brk w)
    (fun w' => may_panic /\ sem w' = sem w /\ brk w' = brk w) w.

(** What the wrapper relies on: its two objects are distinct, and the inner
    provider, the callbacks and the scheduler do not touch them. *)
Class Isolated (may_panic : Prop) : Prop := {
  iso_sched :: context.SchedulerOk W;
  iso_sem :: RefOk (semaphore p);
  iso_cell :: RefOk (circuitbreaker.cell (breaker p));
  iso_sem_cell :: RefDisjoint (semaphore p) (circuitbreaker.cell (breaker p));
  iso_sem_rt :: RefDisjoint (semaphore p) context.runtime;
  iso_cell_rt :: RefDisjoint (circuitbreaker.cell (breaker p)) context.runtime;
  iso_options : circuitbreaker.valid_options opts;
  iso_attempts : 0 < retry.maxAttempts (retryPolicy p);
  iso_chat : forall c r, quiet may_panic (provider.Chat (inner p) c r);
  iso_stream : forall c r, quiet may_panic (provider.ChatStream (inner p) c r);
  iso_notify : forall s, quiet may_panic (circuitbreaker.OnStateChange (breaker p) s);
  iso_onAttempt : forall a, quiet may_panic (retry.onAttempt (retryPolicy p) a);
  iso_jitter : forall d, quiet may_panic (retry.jitter (retryPolicy p) d);
  iso_wait : forall P, quiet may_panic (context.wait_until P);
}.

(** The breaker after a call that was admitted and completed with the error
    [err]: exactly one [Allow] and one [Done] with the outcome of [err]. *)
Definition completed (b : circuitbreaker.Breaker) (err : option error)
    (b' : circuitbreaker.Breaker) : Prop :=
  exists now now' report q b1 report',
    circuitbreaker.allowLocked opts now b = ((Some q, report), b1) /\
    circuitbreaker.completeLocked opts now' (circuitbreaker.p_state q)
      (circuitbreaker.p_generation q) (circuitOutcome err) b1 = Some (report', b').

(** The breaker after a call that it refused. *)
Definition refused (b b' : circuitbreaker.Breaker) : Prop :=
  exists now report, circuitbreaker.allowLocked opts now b = ((None, report), b').

(** The results and the effect on the breaker of [Chat]. *)
Definition chat_effect (b : circuitbreaker.Breaker) (r : option ChatResponse * option error)
    (b' : circuitbreaker.Breaker) : Prop :=
  (exists s, r = (None, Some (ESentinel s)) /\ b' = b) \/
  (r = (None, Some (ESentinel ErrOpen)) /\ refused b b') \/
  (completed b r.2 b' /\
   ((exists resp, r = (Some resp, None) /\ resp_Provider resp = name p) \/
    (exists e, r = (None, Some e)))).

Section proofs.
Context (may_panic : Prop) `{!Isolated may_panic}.

Lemma wp_quiet {A} (m : M W A) (Q : A -> W -> Prop) R w :
  quiet may_panic m ->
  (forall a w', sem w' = sem w -> brk w' = brk w -> Q a w') ->
  (forall w', may_panic -> sem w' = sem w -> brk w' = brk w -> R w') ->
  wp m Q R w.
Proof using Type. intros H HQ HRr. eapply wp_mono; [apply H|naive_solver..]. Qed.

Lemma notify_quiet s : quiet may_panic (circuitbreaker.notify (breaker p) s).
Proof using Isolated0. destruct s; simpl; [apply iso_notify|]. intros w. by wp_steps. Qed.

Lemma runtime_sem rt w : sem (ref_set context.runtime rt w) = sem w.
Proof using Isolated0. apply ref_disj_l. Qed.

Lemma runtime_brk rt w : brk (ref_set context.runtime rt w) = brk w.
Proof using Isolated0. apply ref_disj_l. Qed.

(** [Allow]: the breaker moves by [allowLocked], the semaphore is untouched. *)
Lemma wp_Allow (Q : error + circuitbreaker.Permit -> W -> Prop) R w :
  (forall now q report b1 w',
     circuitbreaker.allowLocked opts now (brk w) = ((Some q, report), b1) ->
     sem w' = sem w -> brk w' = b1 -> Q (inr q) w') ->
  (forall now report b1 w',
     circuitbreaker.allowLocked opts now (brk w) = ((None, report), b1) ->
     sem w' = sem w -> brk w' = b1 -> Q (inl (ESentinel ErrOpen)) w') ->
  (forall w', may_panic -> sem w' = sem w -> R w') ->
  wp (circuitbreaker.Allow (breaker p)) Q R w.
Proof using Isolated0.
  intros Hok Hno Hp. unfold circuitbreaker.Allow. wp_steps.
  destruct (circuitbreaker.allowLocked _ _ _) as [[q report] b1] eqn:E. cbn [fst snd].
  eapply wp_quiet; [apply notify_quiet| |];
    intros; rewrite ?ref_get_set, ?ref_disj_l in *; [|eauto].
  destruct q; wp_steps; eauto.
Qed.

(** [Done] of the permit that [Allow] just handed out: the breaker moves by
    [completeLocked], which does not panic. *)
Lemma wp_Done outcome now q report b (Q : option circuitbreaker.Permit -> W -> Prop) R w :
  circuitbreaker.wf opts b ->
  circuitbreaker.allowLocked opts now b = ((Some q, report), brk w) ->
  (forall now' report' b2 w',
     circuitbreaker.completeLocked opts now' (circuitbreaker.p_state q)
       (circuitbreaker.p_generation q) outcome (brk w) = Some (report', b2) ->
     sem w' = sem w -> brk w' = b2 ->
     Q (Some (circuitbreaker.mkPermit (circuitbreaker.p_state q)
          (circuitbreaker.p_generation q) true)) w') ->
  (forall w', may_panic -> sem w' = sem w -> R w') ->
  wp (circuitbreaker.Done (breaker p) (Some q) outcome) Q R w.
Proof using Isolated0.
  intros Hwf Ea Hok Hp. pose proof iso_options as Ho.
  pose proof (circuitbreaker.allow_refines opts now b) as Hr.
  pose proof (circuitbreaker.allow_wf opts now b Ho Hwf) as Hw.
  rewrite Ea in Hr, Hw. destruct Hr as [Habs Hq]. destruct (Hq q eq_refl) as (Hs & Hg & Hd & _).
  destruct (circuitbreaker.complete_refines opts (circuitbreaker.Now (breaker p) w) outcome (brk w)
              Ho Hw) as (rep & b2 & E & _).
  { exact (circuitbreaker.allow_active_pos opts now b q report _ Ho Hwf Ea). }
  unfold circuitbreaker.Done. rewrite Hd. unfold circuitbreaker.complete. wp_steps.
  rewrite Hs, Hg, E. wp_steps. eapply wp_quiet; [apply notify_quiet| |];
    intros; rewrite ?ref_get_set, ?ref_disj_l in *; [|eauto].
  wp_steps. rewrite <- Hs, <- Hg. eapply Hok; [|done|done]. by rewrite Hs, Hg.
Qed.

(** [Release] of a held permit gives the slot back. *)
Lemma wp_release permit (Q : unit -> W -> Prop) R w s' :
  concurrency.released permit = false -> concurrency.receive (sem w) = Some s' ->
  Q tt (ref_set (semaphore p) s' w) -> wp (release p permit) Q R w.
Proof using Type.
  intros Hp E HQ. unfold release, concurrency.Release. rewrite Hp. wp_steps. rewrite E.
  by wp_steps.
Qed.

Lemma send_receive s s' :
  0 <= concurrency.in_flight s -> concurrency.send s = Some s' -> concurrency.receive s' = Some s.
Proof using Type.
  unfold concurrency.send, concurrency.receive. intros Hs E. case_match; simplify_eq/=.
  rewrite (proj2 (Z.ltb_lt _ _)) by lia. f_equal. destruct s; simpl. f_equal. lia.
Qed.

(** The invariant of the retry loop: the semaphore and the breaker are as at
    its start. *)
Definition same_as (w : W) (_ : list (option error)) (w' : W) : Prop :=
  sem w' = sem w /\ brk w' = brk w.

Definition panicked_from (w w' : W) : Prop := may_panic /\ sem w' = sem w.

Lemma quiet_silent {A} (m : M W A) w :
  quiet may_panic m -> retry.silent (same_as w) (panicked_from w) m.
Proof using Type.
  intros Hm outs w1 [H1 H2]. eapply wp_quiet; [done| |];
    intros; unfold same_as, panicked_from; split; congruence.
Qed.

Lemma same_as_runtime w outs rt w' :
  same_as w outs w' -> same_as w outs (ref_set context.runtime rt w').
Proof using Isolated0. unfold same_as. by rewrite runtime_sem, runtime_brk. Qed.

(** An attempt leaves both alone and succeeds only with a result. *)
Lemma chatAttempt_traced request w c l outs w1 :
  same_as w outs w1 ->
  wp (chatAttempt p request c l)
    (fun r w' => same_as w (outs ++ [r.1]) w' /\ (r.1 = None -> is_Some r.2)) (panicked_from w) w1.
Proof using Isolated0.
  intros [H1 H2]. unfold chatAttempt. wp_step. eapply wp_quiet; [apply iso_chat| |].
  - intros [resp err] w2 H3 H4. cbn beta iota.
    destruct err, resp; wp_steps; simpl; (split; [split; congruence|done]).
  - intros; split; congruence.
Qed.

Lemma streamAttempt_traced request w c l outs w1 :
  same_as w outs w1 ->
  wp (streamAttempt p request c l)
    (fun r w' => same_as w (outs ++ [r.1]) w' /\ (r.1 = None -> is_Some r.2)) (panicked_from w) w1.
Proof using Isolated0.
  intros [H1 H2]. unfold streamAttempt. wp_step. eapply wp_quiet; [apply iso_stream| |].
  - intros [st err] w2 H3 H4. cbn beta iota.
    destruct err, st; wp_steps; simpl; (split; [split; congruence|done]).
  - intros; split; congruence.
Qed.

(** The retry loop around the attempts leaves the semaphore and the breaker
    alone, and ends without an error only with a response. *)
Lemma wp_retry_chat ctx request (Q : option error * option ChatResponse -> W -> Prop) R w :
  (forall err resp w', sem w' = sem w -> brk w' = brk w -> (err = None -> is_Some resp) ->
     Q (err, resp) w') ->
  (forall w', may_panic -> sem w' = sem w -> R w') ->
  wp (retry.Do (retryPolicy p) ctx (Some provider.IsRetryable) (chatAttempt p request) None) Q R w.
Proof using Isolated0.
  intros HQ Hp.
  eapply wp_mono; [apply (retry.Do_spec (HSok := iso_sched (may_panic := may_panic)) (retryPolicy p)
    ctx _ _ (same_as w) (fun l => is_Some l) (panicked_from w))| |].
  - intros. by apply chatAttempt_traced.
  - intros a. apply quiet_silent, iso_onAttempt.
  - intros d. apply quiet_silent, iso_jitter.
  - intros P. apply quiet_silent, iso_wait.
  - apply same_as_runtime.
  - done.
  - apply iso_attempts.
  - intros [err resp] w' (outs & [H1 H2] & _ & _ & _ & Hok). by apply HQ.
  - intros w' [H1 H2]. by apply Hp.
Qed.

Lemma wp_retry_stream ctx request
    (Q : retry.result * option (provider.Stream W) -> W -> Prop) R w :
  (forall c err st w', sem w' = sem w -> brk w' = brk w ->
     (err = None -> is_Some c /\ is_Some st) -> Q ((c, err), st) w') ->
  (forall w', may_panic -> sem w' = sem w -> R w') ->
  wp (retry.DoRetained (retryPolicy p) ctx (Some provider.IsRetryable) (streamAttempt p request) None)
    Q R w.
Proof using Isolated0.
  intros HQ Hp. unfold retry.DoRetained.
  eapply wp_mono; [apply (retry.do_spec (HSok := iso_sched (may_panic := may_panic)) (retryPolicy p)
    ctx _ _ true (same_as w) (fun l => is_Some l) (panicked_from w))| |].
  - intros. by apply streamAttempt_traced.
  - intros a. apply quiet_silent, iso_onAttempt.
  - intros d. apply quiet_silent, iso_jitter.
  - intros P. apply quiet_silent, iso_wait.
  - apply same_as_runtime.
  - done.
  - apply iso_attempts.
  - intros [[c err] st] w' (outs & [H1 H2] & _ & _ & _ & Hc & Hok). cbn [fst snd] in *.
    apply HQ; [done|done|]. intros E. split; [by apply Hc|by apply Hok].
  - intros w' [H1 H2]. by apply Hp.
Qed.

Lemma chatAdmitted_spec ctx request w :
  circuitbreaker.wf opts (brk w) ->
  wp (chatAdmitted p ctx request)
    (fun r w' => sem w' = sem w /\ chat_effect (brk w) r (brk w'))
    (fun w' => may_panic /\ sem w' = sem w) w.
Proof using Isolated0.
  intros Hwf. unfold chatAdmitted. wp_step. apply wp_Allow; [| |done].
  2: { intros now report b1 w1 E Hs Hb. wp_steps. split; [done|]. right; left.
       split; [done|]. rewrite Hb. by exists now, report. }
  intros now q report b1 w1 E Hs Hb. wp_step. apply wp_retry_chat; [|intros; split; congruence].
  intros err resp w2 Hs2 Hb2 Hok. cbn beta iota. wp_step.
  eapply (wp_Done _ now q report (brk w)); [done|by rewrite Hb2, Hb| |intros; split; congruence].
  intros now' report' b2 w3 E3 Hs3 Hb3. rewrite Hb2, Hb in E3.
  assert (completed (brk w) err (brk w3)) as Hc.
  { exists now, now', report, q, b1, report'. split; [done|]. by rewrite Hb3. }
  destruct err as [e|]; wp_steps.
  - split; [congruence|]. right; right. eauto.
  - destruct (Hok eq_refl) as [r ->]. wp_steps. split; [congruence|]. right; right.
    split; [done|]. left. by eexists.
Qed.

(** Around a slot: [Acquire] either refuses with the context's error, or takes a
    slot that [release] gives back. *)
Lemma wp_slot ctx (Q : error + concurrency.Permit -> W -> Prop) (R : W -> Prop) w :
  0 <= concurrency.in_flight (sem w) ->
  (forall w1 s1, concurrency.send (sem w) = Some s1 -> concurrency.receive s1 = Some (sem w) ->
     sem w1 = s1 -> brk w1 = brk w -> Q (inr (concurrency.mkPermit false)) w1) ->
  (forall w1 e, sem w1 = sem w -> brk w1 = brk w -> Q (inl (ESentinel e)) w1) ->
  (forall w1, may_panic -> sem w1 = sem w -> R w1) ->
  wp (concurrency.Acquire (semaphore p) ctx) Q R w.
Proof using Isolated0.
  intros Hs0 Hok Herr Hp.
  apply (concurrency.wp_Acquire (semaphore p) ctx (fun w1 => sem w1 = sem w /\ brk w1 = brk w)).
  - intros P. eapply wp_mono; [apply iso_wait|done|naive_solver].
  - intros w1 s1 [Hs1 Hb1] Es. rewrite Hs1 in Es. eapply Hok; [done|by apply send_receive| |].
    + apply ref_get_set.
    + by rewrite ref_disj_r.
  - intros w1 e [Hs1 Hb1] _. by apply Herr.
Qed.

Lemma wp_give_back (Q : unit -> W -> Prop) R w s :
  concurrency.receive (sem w) = Some s ->
  (forall w1, sem w1 = s -> brk w1 = brk w -> Q tt w1) ->
  wp (release p (concurrency.mkPermit false)) Q R w.
Proof using Isolated0.
  intros E HQ. eapply wp_release; [done|done|]. apply HQ; [apply ref_get_set|apply ref_disj_r].
Qed.


(** *** Streams *)

(** What opening a stream leaves behind: on success a stream that holds one slot
    and one permit; otherwise an error, the slot free again, and the breaker told
    nothing, refused, or told the outcome of the error. *)
Definition open_effect (w : W) (r : option (provider.Stream W) * option error) (w' : W) : Prop :=
  match r with
  | (Some st, None) =>
      exists inner cancel now q report s1,
        st = managedStream p cancel inner q (concurrency.mkPermit false) /\
        circuitbreaker.allowLocked opts now (brk w) = ((Some q, report), brk w') /\
        concurrency.send (sem w) = Some s1 /\ sem w' = s1
  | (None, Some e) =>
      sem w' = sem w /\
      ((exists s, e = ESentinel s /\ brk w' = brk w) \/
       (e = ESentinel ErrOpen /\ refused (brk w) (brk w')) \/
       completed (brk w) (Some e) (brk w'))
  | _ => False
  end.

(** Opening a governed stream. If a stream is returned, it is a managed
    stream that holds exactly one slot and one permit of the breaker (so that the
    accounting of managed streams applies to it); if an error is returned, the slot
    is free again and the breaker was told the outcome at most once. It is never
    both or neither. *)
Theorem governed_stream_opening ctx request w :
  0 <= concurrency.in_flight (sem w) -> circuitbreaker.wf opts (brk w) ->
  wp (ChatStream p ctx request) (open_effect w) (fun _ => may_panic) w.
Proof using Isolated0.
  intros Hs0 Hwf. unfold ChatStream. wp_step. apply wp_slot; [done| | |done].
  2: { intros w1 e Hs1 Hb1. wp_steps. split; [done|]. left. by exists e. }
  intros w1 s1 Es Er Hs1 Hb1. wp_step. apply wp_Allow; [| |done]; rewrite Hb1.
  2: { intros now report b1 w2 E Hs2 Hb2. wp_step. eapply wp_give_back; [by rewrite Hs2, Hs1|].
       intros w3 H3 H4. wp_steps. split; [done|]. right; left. split; [done|].
       rewrite H4, Hb2. by exists now, report. }
  intros now q report b1 w2 E Hs2 Hb2. wp_step. apply wp_retry_stream; [|done].
  intros c err st w3 Hs3 Hb3 Hok. cbn beta iota. destruct err as [e|].
  - wp_step. eapply (wp_Done _ now q report (brk w)); [done|by rewrite Hb3, Hb2| |done].
    intros now' report' b2 w4 E4 Hs4 Hb4. rewrite Hb3, Hb2 in E4. wp_step.
    eapply wp_give_back; [by rewrite Hs4, Hs3, Hs2, Hs1|]. intros w5 H5 H6. wp_steps.
    split; [done|]. right; right. exists now, now', report, q, b1, report'.
    split; [done|]. by rewrite H6, Hb4.
  - destruct (Hok eq_refl) as [[f ->] [i ->]]. wp_steps.
    exists i, f, now, q, report, s1. split_and!; [done|by rewrite Hb3, Hb2|done|congruence].
Qed.

Section stream.
Variables (cancel : context.CancelFunc) (st : provider.Stream W).
Variables (b : circuitbreaker.Breaker) (now : Z) (q : circuitbreaker.Permit)
  (report : option circuitbreaker.State) (b1 : circuitbreaker.Breaker).
Variables (s0 s1 : concurrency.Semaphore).
Hypothesis recv_quiet : forall s, quiet may_panic (provider.Recv st s).
Hypothesis close_quiet : forall s, quiet may_panic (provider.Close st s).
Hypothesis breaker_wf : circuitbreaker.wf opts b.
Hypothesis admitted : circuitbreaker.allowLocked opts now b = ((Some q, report), b1).
Hypothesis slots : 0 <= concurrency.in_flight s0.
Hypothesis taken : concurrency.send s0 = Some s1.

(** Until the first terminal event the stream holds its slot and its permit;
    afterwards both have been given back, once, with that event's outcome. *)
Definition stream_inv (t : option circuitbreaker.Outcome)
    (s : managedState (provider.stream_state st)) (w : W) : Prop :=
  match t with
  | None =>
      ms_finished s = false /\ ms_circuit s = Some q /\
      ms_concurrency s = Some (concurrency.mkPermit false) /\ sem w = s1 /\ brk w = b1
  | Some out =>
      ms_finished s = true /\ sem w = s0 /\
      exists now' report',
        circuitbreaker.completeLocked opts now' (circuitbreaker.p_state q)
          (circuitbreaker.p_generation q) out b1 = Some (report', brk w)
  end.

Lemma stream_inv_quiet t s i w w' :
  stream_inv t s w -> sem w' = sem w -> brk w' = brk w ->
  stream_inv t (mkManaged i (ms_finished s) (ms_circuit s) (ms_concurrency s)) w'.
Proof using Type. unfold stream_inv. intros Hi Hs Hb. rewrite Hs, Hb. by destruct t. Qed.

Lemma finish_spec t out s w :
  stream_inv t s w ->
  wp (finish p cancel out s)
    (stream_inv (match t with Some _ => t | None => Some out end)) (fun _ => may_panic) w.
Proof using Isolated0 breaker_wf admitted slots taken.
  intros Hi. unfold finish. destruct t as [o|]; simpl in Hi.
  { destruct Hi as (Hf & Hi). rewrite Hf. wp_steps. by split. }
  destruct Hi as (Hf & Hc & Hp & Hs & Hb). rewrite Hf, Hc, Hp. wp_step.
  unfold context.cancel. wp_steps. set (w1 := ref_set context.runtime _ w).
  assert (sem w1 = s1 /\ brk w1 = b1) as [Hs1 Hb1]
    by (unfold w1; by rewrite runtime_sem, runtime_brk). clearbody w1.
  eapply (wp_Done _ now q report b); [done|by rewrite Hb1| |done].
  intros now' report' b2 w2 E2 Hs2 Hb2. rewrite Hb1 in E2. wp_steps.
  unfold concurrency.Release. simpl. wp_steps.
  rewrite Hs2, Hs1, (send_receive s0 s1) by done. wp_steps. simpl.
  split_and!; [done|apply ref_get_set|]. exists now', report'.
  by rewrite E2, ref_disj_r, Hb2.
Qed.

Lemma run_op_spec op t s w :
  stream_inv t s w ->
  wp (provider.run_op (managedStream p cancel st q (concurrency.mkPermit false)) op s)
    (fun r w' => stream_inv (match t with Some _ => t | None => terminal r.1 end) r.2 w')
    (fun _ => may_panic) w.
Proof using All.
  intros Hi. destruct op; cbn [provider.run_op]; wp_step.
  - cbn. unfold managedRecv. wp_step. eapply wp_quiet; [apply recv_quiet| |done].
    intros [[chunk err] i] w1 Hs Hb. pose proof (stream_inv_quiet t s i w w1 Hi Hs Hb) as H1.
    cbn beta iota. destruct err as [e|]; [|wp_steps; by destruct t].
    wp_step. destruct (errors_Is e EOF) eqn:Ee;
      (eapply wp_mono; [by apply finish_spec| |done]); intros s2 w2 H2; wp_steps; simpl; by rewrite Ee.
  - cbn. unfold managedClose. wp_step. eapply wp_quiet; [apply close_quiet| |done].
    intros [err i] w1 Hs Hb. pose proof (stream_inv_quiet t s i w w1 Hi Hs Hb) as H1.
    cbn beta iota. wp_step. destruct err as [e|];
      (eapply wp_mono; [by apply finish_spec| |done]); intros s2 w2 H2; wp_steps; done.
Qed.

Lemma run_ops_spec ops t s w :
  stream_inv t s w ->
  wp (provider.run_ops (managedStream p cancel st q (concurrency.mkPermit false)) ops s)
    (fun r w' => stream_inv (first_of t r.1) r.2 w') (fun _ => may_panic) w.
Proof using All.
  revert t s w. induction ops as [|op ops IH]; intros t s w Hi; cbn [provider.run_ops]; wp_steps; [done|].
  eapply wp_mono; [by apply run_op_spec| |done]. intros [r s2] w2 H2. wp_step.
  eapply wp_mono; [by apply IH| |done]. intros [rs s3] w3 H3. by wp_steps.
Qed.


End stream.

End proofs.
End spec.

(** ** A concrete governed provider *)

Abbreviation demo := (context.world (concurrency.Semaphore * circuitbreaker.Breaker)).

Definition demo_sem : ref demo concurrency.Semaphore :=
  mkRef (fun w => w.2.1) (fun s w => (w.1, (s, w.2.2))).
Definition demo_cell : ref demo circuitbreaker.Breaker :=
  mkRef (fun w => w.2.2) (fun b w => (w.1, (w.2.1, b))).

Definition demo_response : ChatResponse :=
  mkChatResponse "" "chatcmpl-1" "chat.completion" 0 "m" [] zeroUsage.

(** A stream of one chunk. *)
Definition demo_chunk : ChatStreamChunk :=
  mkChatStreamChunk "chatcmpl-1" "chat.completion.chunk" 0 "m" [] None.
Definition demo_stream : provider.Stream demo :=
  provider.mkStream bool false
    (fun sent => if sent then ret ((None, Some (ESentinel EOF)), true)
                 else ret ((Some demo_chunk, None), true))
    (fun sent => ret (None, sent)) None.

Definition demo_provider : Provider demo :=
  mkProvider "primary"
    (provider.mkProvider (fun _ _ => ret (Some demo_response, None))
       (fun _ _ => ret (Some demo_stream, None)))
    (retry.mkPolicy 3 (10 * second) (100 * millisecond) (2 * second) (fun d => ret d)
       (fun _ => ret tt))
    (circuitbreaker.mkHandle circuitbreaker.default_options context.Now (fun _ => ret tt) demo_cell)
    demo_sem.

Definition demo_start : demo :=
  context.start (concurrency.mkSemaphore 0 2, circuitbreaker.mkBreaker
    circuitbreaker.StateClosed [] 0 0 0 0 0 0).

Definition demo_request : ChatRequest :=
  mkChatRequest "m" [mkChatMessage "user" "hi"] None None None false.

Lemma demo_wf b :
  b = circuitbreaker.mkBreaker circuitbreaker.StateClosed [] 0 0 0 0 0 0 ->
  circuitbreaker.wf circuitbreaker.default_options b.
Proof. intros ->. constructor; simpl; try lia; done. Qed.

Lemma demo_isolated : Isolated demo_provider False.
Proof.
  assert (forall (P : demo -> bool), quiet demo_provider False (context.wait_until P)) as Hw.
  { intros P w. unfold wp. simpl.
    by destruct (P w), (P (context.advance_clock hour w)). }
  constructor; try done; try (by constructor; try intros [? []]).
  - apply context.world_scheduler_ok.
Qed.


Lemma governed_stream_opening_witness :
  match ChatStream demo_provider context.Background demo_request demo_start with
  | Ret r w' => open_effect demo_provider demo_start r w' /\
      w'.2.1 = concurrency.mkSemaphore 1 2
  | _ => False
  end.
Proof.
  pose proof (governed_stream_opening demo_provider False (Isolated0 := demo_isolated)
    context.Background demo_request demo_start ltac:(simpl; lia) (demo_wf _ eq_refl)) as H.
  unfold wp in H.
  assert (match ChatStream demo_provider context.Background demo_request demo_start with
          | Ret _ w' => w'.2.1 = concurrency.mkSemaphore 1 2 | _ => False end) as Hret
    by (vm_compute; reflexivity).
  destruct (ChatStream demo_provider context.Background demo_request demo_start) as [r w'|w'|w'];
    [|destruct Hret..].
  split; [exact H|exact Hret].
Defined.


End governance.
