(* ===== verification/Routing.v ===== *)
(** * Provider routing (internal/routing/router.go)

    Round robin and smooth weighted round robin over a static list of targets,
    with re-selection only when a target's breaker refuses the call. *)

From stdpp Require Import base gmap list strings.
From Stdlib Require Import ZArith Lia.
From S2P Require Import Prelude Types GoStrings Context Provider Trace.

Local Open Scope Z_scope.
Local Open Scope go_scope.

Module routing.

(** [type Strategy string] *)
Definition Strategy : Type := string.
Definition StrategyRoundRobin : Strategy := "round_robin".
Definition StrategyWeightedRoundRobin : Strategy := "weighted_round_robin".

(** The [Target] interface: a provider with a name and an availability. *)
Record Target (W : Type) : Type := mkTarget {
  target_provider : provider.Provider W;
  target_Name : string;
  target_Available : M W bool;
}.
Arguments mkTarget {W} _ _ _.
Arguments target_provider {W} _.
Arguments target_Name {W} _.
Arguments target_Available {W} _.

(** The mutable fields: [next], and the [currentWeight] of each target. *)
Record RouterState : Type := mkRouterState {
  currentWeights : list Z;
  next : Z;
}.

(** The static fields: the strategy, and target and weight of each
    [targetState]; [cell] points to the mutable ones. *)
Record Router (W : Type) : Type := mkRouter {
  strategy : Strategy;
  targets : list (Target W * Z);
  cell : ref W RouterState;
}.
Arguments mkRouter {W} _ _ _.
Arguments strategy {W} _.
Arguments targets {W} _.
Arguments cell {W} _.

(** The checks of [New] on each candidate, in order; [names] are the names seen
    so far. A nil target is [None]. *)
Fixpoint checkTargets {W} (names : gset string) (candidates : list (option (Target W) * Z))
  : string + list (Target W * Z) :=
  match candidates with
  | [] => inr []
  | (target, weight) :: rest =>
      match target with
      | None => inl "provider target is required"
      | Some t =>
          let name := TrimSpace (target_Name t) in
          if bool_decide (name = "") then inl "provider target name is required"
          else if bool_decide (name ∈ names) then inl "provider target is duplicated"
          else if weight <=? 0 then inl "provider target weight must be positive"
          else
            match checkTargets ({[name]} ∪ names) rest with
            | inl e => inl e
            | inr states => inr ((t, weight) :: states)
            end
      end
  end.

Definition New {W} (strat : Strategy) (candidates : list (option (Target W) * Z))
    (r : ref W RouterState) : string + (Router W * RouterState) :=
  if negb (bool_decide (strat = StrategyRoundRobin)) &&
     negb (bool_decide (strat = StrategyWeightedRoundRobin))
  then inl "unsupported routing strategy"
  else if bool_decide (candidates = []) then inl "at least one provider target is required"
  else
    match checkTargets ∅ candidates with
    | inl e => inl e
    | inr states =>
        inr (mkRouter strat states r, mkRouterState (replicate (length states) 0) 0)
    end.

Definition unavailable (operation : string) (cause : error) : error :=
  EUpstream (mkUpstreamError "router" operation ErrorKindUnavailable 0 false (Some cause)).

Section operations.
Context {W : Type}.
Variables (r : Router W) (excluded : gset string).

Abbreviation size_ := (Z.of_nat (length (targets r))).

(** The candidate is excluded, or it is not available. *)
Definition skip (t : Target W) : M W bool :=
  if bool_decide (target_Name t ∈ excluded) then ret true
  else let! a := target_Available t in ret (negb a).

(** Round robin: at most [checks] candidates, starting at [next]. *)
Fixpoint roundRobin (checks : nat) : M W (option (Target W)) :=
  match checks with
  | O => ret None
  | S checks =>
      let! st := load (cell r) in
      let index := Z.rem (next st) size_ in
      store (cell r) (mkRouterState (currentWeights st) (Z.rem (next st + 1) size_)) ;!
      match targets r !! Z.to_nat index with
      | None => panic
      | Some (candidate, _) =>
          let! s := skip candidate in
          if s then roundRobin checks else ret (Some candidate)
      end
  end.

Definition weightAt (st : RouterState) (i : nat) : Z := default 0 (currentWeights st !! i).

(** The scan of smooth weighted round robin over the targets from index [i]:
    the selected index and the total weight of the candidates. *)
Fixpoint weightedScan (i : nat) (ts : list (Target W * Z)) (selected : option nat) (total : Z)
  : M W (option nat * Z) :=
  match ts with
  | [] => ret (selected, total)
  | (candidate, weight) :: ts =>
      let! s := skip candidate in
      if s then weightedScan (S i) ts selected total
      else
        let! st := load (cell r) in
        let w := wrap64 (weightAt st i + weight) in
        store (cell r) (mkRouterState (<[i := w]> (currentWeights st)) (next st)) ;!
        let selected :=
          match selected with
          | None => Some i
          | Some s => if weightAt st s <? w then Some i else selected
          end in
        weightedScan (S i) ts selected (wrap64 (total + weight))
  end.

Definition selectTarget : M W (error + Target W) :=
  if bool_decide (strategy r = StrategyRoundRobin) then
    let! t := roundRobin (length (targets r)) in
    match t with
    | Some t => ret (inr t)
    | None => ret (inl (ESentinel ErrNoHealthyProviders))
    end
  else if bool_decide (strategy r = StrategyWeightedRoundRobin) then
    let! '(selected, total) := weightedScan 0 (targets r) None 0 in
    match selected with
    | None => ret (inl (ESentinel ErrNoHealthyProviders))
    | Some i =>
        let! st := load (cell r) in
        store (cell r) (mkRouterState
          (<[i := wrap64 (weightAt st i - total)]> (currentWeights st)) (next st)) ;!
        match targets r !! i with
        | Some (t, _) => ret (inr t)
        | None => panic
        end
    end
  else ret (inl (ESentinel ErrNoHealthyProviders)).

End operations.

Section calls.
Context {W : Type}.
Variables (r : Router W) (ctx : context.Ctx) (request : ChatRequest).

(** [errors.Is(err, circuitbreaker.ErrOpen)] on a possibly nil error. *)
Definition is_open (err : option error) : bool :=
  match err with
  | Some e => errors_Is e ErrOpen
  | None => false
  end.

(** The loop of [Chat]; [fuel] bounds the iterations. *)
Fixpoint chatLoop (fuel : nat) (excluded : gset string)
  : M W (option ChatResponse * option error) :=
  if (size excluded <? length (targets r))%nat then
    match fuel with
    | O => fun w => Block w
    | S fuel =>
        let! sel := selectTarget r excluded in
        match sel with
        | inl err => ret (None, Some (unavailable "chat" err))
        | inr target =>
            let! '(response, err) := provider.Chat (target_provider target) ctx request in
            if is_open err then chatLoop fuel ({[target_Name target]} ∪ excluded)
            else
              match err with
              | Some e => ret (None, Some e)
              | None =>
                  match response with
                  | None =>
                      ret (None, Some (EUpstream (mkUpstreamError (target_Name target) "chat"
                        ErrorKindInvalidResponse 0 false
                        (Some (EText "provider returned a nil response")))))
                  | Some resp => ret (Some (set_resp_Provider (target_Name target) resp), None)
                  end
              end
        end
    end
  else ret (None, Some (unavailable "chat" (ESentinel ErrNoHealthyProviders))).

(** Each iteration excludes one more target, so as many iterations as there are
    targets are enough. *)
Definition Chat : M W (option ChatResponse * option error) :=
  chatLoop (length (targets r)) ∅.

(** A stream with the name of its target. *)
Definition namedStream (name : string) (inner : provider.Stream W) : provider.Stream W :=
  provider.mkStream (provider.stream_state inner) (provider.stream_init inner)
    (provider.Recv inner) (provider.Close inner) (Some name).

Fixpoint streamLoop (fuel : nat) (excluded : gset string)
  : M W (option (provider.Stream W) * option error) :=
  if (size excluded <? length (targets r))%nat then
    match fuel with
    | O => fun w => Block w
    | S fuel =>
        let! sel := selectTarget r excluded in
        match sel with
        | inl err => ret (None, Some (unavailable "chat stream" err))
        | inr target =>
            let! '(stream, err) := provider.ChatStream (target_provider target) ctx request in
            if is_open err then streamLoop fuel ({[target_Name target]} ∪ excluded)
            else
              match err with
              | Some e => ret (None, Some e)
              | None =>
                  match stream with
                  | None =>
                      ret (None, Some (EUpstream (mkUpstreamError (target_Name target) "chat stream"
                        ErrorKindInvalidResponse 0 false
                        (Some (EText "provider returned a nil stream")))))
                  | Some s => ret (Some (namedStream (target_Name target) s), None)
                  end
              end
        end
    end
  else ret (None, Some (unavailable "chat stream" (ESentinel ErrNoHealthyProviders))).

Definition ChatStream : M W (option (provider.Stream W) * option error) :=
  streamLoop (length (targets r)) ∅.

End calls.

(** ** The contract of a provider *)

(** The router as a provider. *)
Definition toProvider {W} (r : Router W) : provider.Provider W := provider.mkProvider (Chat r) (ChatStream r).

Section contract.
Context {W : Type} (r : Router W).

Lemma roundRobin_target excluded checks :
  yields (roundRobin r excluded checks) (fun t => forall x, t = Some x -> x ∈ (targets r).*1).
Proof using Type.
  induction checks as [|checks IH]; cbn [roundRobin]; [by apply yields_ret|]. cbn zeta.
  repeat first [apply IH | yields_step].
  intros x [= <-]. eapply list_elem_of_lookup_2. rewrite list_lookup_fmap. by match goal with H : _ !! _ = _ |- _ => rewrite H end.
Qed.

(** Only targets of the router are selected. *)
Lemma selectTarget_target excluded :
  yields (selectTarget r excluded) (fun s => forall x, s = inr x -> x ∈ (targets r).*1).
Proof using Type.
  unfold selectTarget. case_bool_decide.
  { eapply yields_bind; [apply roundRobin_target|]. intros [t|] Ht; apply yields_ret; [|done].
    intros x [= <-]. by apply Ht. }
  case_bool_decide; [|by apply yields_ret]. apply yields_then. intros [[i|] total]; [|by apply yields_ret].
  repeat yields_step. intros x [= <-]. eapply list_elem_of_lookup_2. rewrite list_lookup_fmap.
  by match goal with H : _ !! _ = _ |- _ => rewrite H end.
Qed.

Definition keeps_contract (t : Target W) : Prop := exists named, provider.Contract named (target_provider t).
Hypothesis Htargets : Forall keeps_contract (targets r).*1.

Abbreviation one_of n := (n ∈ target_Name <$> (targets r).*1).

(** A router over providers that keep the contract keeps it, under the names of its
    targets. *)
Lemma router_contract : provider.Contract (fun n => one_of n) (toProvider r).
Proof using Htargets.
  rewrite Forall_forall in Htargets.
  split; intros ctx req; cbn [toProvider provider.Chat provider.ChatStream]; unfold Chat, ChatStream;
    generalize (∅ : gset string) as excluded; induction (length (targets r)) as [|fuel IH]; intros excluded;
    cbn [chatLoop streamLoop]; (destruct (_ <? _)%nat; [|by apply yields_ret]); try apply yields_block;
    (eapply yields_bind; [apply selectTarget_target|]); (intros [e|t] Ht; [by apply yields_ret|]);
    specialize (Ht t eq_refl); destruct (Htargets t Ht) as [named Hc].
  - eapply yields_bind; [apply (@provider.contract_chat _ _ _ Hc)|]. intros [[resp|] [e|]] H; try done;
      (match goal with |- yields (if ?b then _ else _) _ => destruct b end; [apply IH|]); apply yields_ret; [|done].
    destruct H as [Hr _]. split; [exact Hr|]. exact (list_elem_of_fmap_2 target_Name _ t Ht).
  - eapply yields_bind; [apply (@provider.contract_stream _ _ _ Hc)|]. intros [[st|] [e|]] H; try done;
      (match goal with |- yields (if ?b then _ else _) _ => destruct b end; [apply IH|]); apply yields_ret; [|done].
    destruct H as [Hr _]. split; [exact Hr|]. exact (list_elem_of_fmap_2 target_Name _ t Ht).
Qed.

End contract.

(** ** Specification of the selection *)

(** Sums over the first [n] indices. *)
Fixpoint sumb (f : nat -> Z) (n : nat) : Z :=
  match n with
  | O => 0
  | S n => sumb f n + f n
  end.

Lemma sumb_ext f g n : (forall i, (i < n)%nat -> f i = g i) -> sumb f n = sumb g n.
Proof. induction n; intros H; simpl; [done|]. rewrite IHn, (H n); auto with lia. Qed.

Lemma sumb_add f g n : sumb (fun i => f i + g i) n = sumb f n + sumb g n.
Proof. induction n; simpl; lia. Qed.

Lemma sumb_scale c f n : sumb (fun i => c * f i) n = c * sumb f n.
Proof. induction n; simpl; lia. Qed.

Lemma sumb_point (s : nat) c n :
  (s < n)%nat -> sumb (fun i => if decide (i = s) then c else 0) n = c.
Proof.
  intros H. induction n as [|n IH]; [lia|]. simpl. destruct (decide (n = s)) as [->|].
  - rewrite (sumb_ext _ (fun i => 0 * 0)); [rewrite sumb_scale; lia|].
    intros i Hi. rewrite decide_False; lia.
  - rewrite IH; lia.
Qed.

Lemma sumb_le f g n : (forall i, (i < n)%nat -> f i <= g i) -> sumb f n <= sumb g n.
Proof. induction n; intros H; simpl; [lia|]. pose proof (H n). specialize (IHn ltac:(auto)). lia. Qed.

Lemma sumb_mono f i n :
  (i <= n)%nat -> (forall j, 0 <= f j) -> 0 <= sumb f i <= sumb f n.
Proof.
  intros H Hf. induction H as [|n H IH].
  - split; [|lia]. pose proof (sumb_le (fun _ => 0 * 0) f i ltac:(intros; simpl; apply Hf)) as Hs.
    rewrite sumb_scale in Hs. lia.
  - simpl. pose proof (Hf n). lia.
Qed.

(** A sum exceeds no bound that all its terms but one reach. *)
Lemma sumb_le_eq f g n :
  (forall i, (i < n)%nat -> f i <= g i) -> sumb f n = sumb g n ->
  forall i, (i < n)%nat -> f i = g i.
Proof.
  induction n as [|n IH]; intros Hle Heq i Hi; [lia|]. simpl in Heq.
  pose proof (sumb_le f g n ltac:(auto)). pose proof (Hle n ltac:(lia)).
  destruct (decide (i = n)) as [->|]; [lia|]. apply IH; auto with lia.
Qed.

Definition no_healthy : error := ESentinel ErrNoHealthyProviders.

Section selection.
Context {W : Type} (r : Router W) (excluded : gset string).

Abbreviation st w := (ref_get (cell r) w).
Abbreviation size_ := (length (targets r)).

(** [Inv] describes worlds in which a target [t] that is asked for its
    availability gives one of the answers [ans t]; asking leaves the router and
    [Inv] alone. *)
Class Answers (ans : Target W -> bool -> Prop) (Inv : W -> Prop) : Prop := {
  answers_cell :: RefOk (cell r);
  answers_store : forall s w, Inv w -> Inv (ref_set (cell r) s w);
  answers_avail : forall t weight w, (t, weight) ∈ targets r -> Inv w ->
    exists b w', target_Available t w = Ret b w' /\ ans t b /\ Inv w' /\ st w' = st w;
}.

Definition may_select (ans : Target W -> bool -> Prop) (t : Target W) : Prop :=
  (target_Name t ∉ excluded) /\ ans t true.
Definition may_skip (ans : Target W -> bool -> Prop) (t : Target W) : Prop :=
  (target_Name t ∈ excluded) \/ ans t false.

(** The availability of the targets is [av]. *)
Definition always (av : Target W -> bool) (t : Target W) (b : bool) : Prop := b = av t.
Abbreviation Stable av := (Answers (always av)).

Definition eligible (av : Target W -> bool) (t : Target W) : bool :=
  negb (bool_decide (target_Name t ∈ excluded)) && av t.

(** The target at index [i] can be selected. *)
Definition el (av : Target W -> bool) (i : nat) : bool :=
  match targets r !! i with
  | Some (t, _) => eligible av t
  | None => false
  end.

Definition weight_of (i : nat) : Z :=
  match targets r !! i with
  | Some (_, weight) => weight
  | None => 0
  end.

(** The effective weight of an index: 0 if it cannot be selected. *)
Definition ew (av : Target W -> bool) (i : nat) : Z := if el av i then weight_of i else 0.

(** The target at index [i], if any, satisfies [P]. *)
Definition at_index (P : Target W -> Prop) (i : nat) : Prop :=
  forall t weight, targets r !! i = Some (t, weight) -> P t.

Section answers.
Context (ans : Target W -> bool -> Prop) (Inv : W -> Prop) `{!Answers ans Inv}.

Lemma skip_answer t weight w :
  (t, weight) ∈ targets r -> Inv w ->
  exists b w', skip excluded t w = Ret b w' /\ (if b then may_skip ans t else may_select ans t) /\
    Inv w' /\ st w' = st w.
Proof using Answers0.
  intros Hin Hw. unfold skip, may_skip, may_select. case_bool_decide; simpl; [exists true, w; auto|].
  destruct (answers_avail t weight w Hin Hw) as (b & w' & E & Hb & HI & Hst).
  exists (negb b), w'. unfold bind. rewrite E. destruct b; simpl; auto.
Qed.

(** *** Round robin *)

Definition rot (n : nat) (next : Z) (k : nat) : nat := Z.to_nat ((next + Z.of_nat k) `mod` Z.of_nat n).

Lemma rot_lt n next k : (0 < n)%nat -> (rot n next k < n)%nat.
Proof using Type.
  intros H. unfold rot. pose proof (Z.mod_pos_bound (next + Z.of_nat k) (Z.of_nat n) ltac:(lia)). lia.
Qed.

Lemma rot_next n next k : (0 < n)%nat ->
  rot n ((next + 1) `mod` Z.of_nat n) k = rot n next (S k).
Proof using Type.
  intros H. unfold rot. rewrite Z.add_mod_idemp_l by lia. do 2 f_equal. lia.
Qed.

(** The outcome of a round robin scan of [checks] candidates. *)
Definition rr_outcome (checks : nat) (s : RouterState) (res : option (Target W))
    (s' : RouterState) : Prop :=
  (exists k t weight,
     (k < checks)%nat /\ targets r !! rot size_ (next s) k = Some (t, weight) /\
     may_select ans t /\ res = Some t /\
     (forall j, (j < k)%nat -> at_index (may_skip ans) (rot size_ (next s) j)) /\
     s' = mkRouterState (currentWeights s) ((next s + Z.of_nat k + 1) `mod` Z.of_nat size_)) \/
  (res = None /\
   (forall j, (j < checks)%nat -> at_index (may_skip ans) (rot size_ (next s) j)) /\
   s' = mkRouterState (currentWeights s)
          (if decide (checks = O) then next s else (next s + Z.of_nat checks) `mod` Z.of_nat size_)).

Lemma roundRobin_run checks w :
  (0 < size_)%nat -> 0 <= next (st w) -> Inv w ->
  exists res w', roundRobin r excluded checks w = Ret res w' /\ Inv w' /\
    rr_outcome checks (st w) res (st w').
Proof using Answers0.
  intros Hn. revert w. induction checks as [|c IH]; intros w H0 HI; simpl.
  - exists None, w. split_and!; [done..|]. right. split_and!; [done|lia|]. by destruct (st w).
  - unfold bind, load, gets, store. rewrite !Z.rem_mod_nonneg by lia.
    replace (Z.to_nat (next (st w) `mod` Z.of_nat size_)) with (rot size_ (next (st w)) 0)
      by (unfold rot; do 2 f_equal; lia).
    destruct (lookup_lt_is_Some_2 (targets r) (rot size_ (next (st w)) 0)) as [[t wt] Ht];
      [by apply rot_lt|]. rewrite Ht.
    set (s1 := mkRouterState _ _). set (w1 := ref_set (cell r) s1 w).
    destruct (skip_answer t wt w1) as (b & w2 & E & Hb & HI2 & Hst);
      [by eapply list_elem_of_lookup_2|by apply answers_store|].
    rewrite E. unfold w1 in Hst. rewrite ref_get_set in Hst.
    destruct b; cycle 1.
    + exists (Some t), w2. split_and!; [done..|]. left. exists O, t, wt.
      split_and!; [lia|done..|lia|]. rewrite Hst. unfold s1. do 2 f_equal. lia.
    + assert (Hskip : at_index (may_skip ans) (rot size_ (next (st w)) 0))
        by (intros t' wt' Ht'; by simplify_eq).
      assert (Hs1 : 0 <= next s1) by (simpl; apply Z.mod_pos_bound; lia).
      destruct (IH w2) as (res & w3 & E3 & HI3 & Ho); [by rewrite Hst|done|].
      exists res, w3. split_and!; [done..|].
      assert (Hrot : forall j, rot size_ (next s1) j = rot size_ (next (st w)) (S j))
        by (intros; by apply rot_next).
      rewrite Hst in Ho. destruct Ho as [(k & t' & wt' & Hk & Ht' & Hel' & -> & Hj & Hs)|(-> & Hj & Hs)].
      * left. exists (S k), t', wt'. rewrite <- Hrot. split_and!; [lia|done..| |].
        { intros [|j] Hlt; [done|]. rewrite <- Hrot. apply Hj. lia. }
        { rewrite Hs. unfold s1. simpl. f_equal. rewrite <- Z.add_assoc, Z.add_mod_idemp_l by lia.
          f_equal. lia. }
      * right. split_and!; [done| |].
        { intros [|j] Hlt; [done|]. rewrite <- Hrot. apply Hj. lia. }
        { rewrite Hs. unfold s1. simpl. f_equal. destruct (decide (c = O)) as [->|].
          - done.
          - rewrite Z.add_mod_idemp_l by lia. f_equal. lia. }
Qed.

Lemma rot_onto n next i : (i < n)%nat -> exists j, (j < n)%nat /\ rot n next j = i.
Proof using Type.
  intros Hi. exists (Z.to_nat ((Z.of_nat i - next) `mod` Z.of_nat n)).
  pose proof (Z.mod_pos_bound (Z.of_nat i - next) (Z.of_nat n) ltac:(lia)).
  split; [lia|]. unfold rot. rewrite Z2Nat.id, Z.add_mod_idemp_r by lia.
  replace (next + (Z.of_nat i - next)) with (Z.of_nat i) by lia.
  rewrite Z.mod_small; lia.
Qed.

(** [selectTarget] with the round robin strategy. *)
Lemma select_rr_answer w :
  strategy r = StrategyRoundRobin -> (0 < size_)%nat -> 0 <= next (st w) -> Inv w ->
  exists res w', selectTarget r excluded w = Ret res w' /\ Inv w' /\
    ((exists k t weight,
        (k < size_)%nat /\ targets r !! rot size_ (next (st w)) k = Some (t, weight) /\
        may_select ans t /\ res = inr t /\
        (forall j, (j < k)%nat -> at_index (may_skip ans) (rot size_ (next (st w)) j)) /\
        st w' = mkRouterState (currentWeights (st w))
                  ((next (st w) + Z.of_nat k + 1) `mod` Z.of_nat size_)) \/
     (res = inl no_healthy /\ (forall i, at_index (may_skip ans) i) /\
      st w' = mkRouterState (currentWeights (st w)) (next (st w) `mod` Z.of_nat size_))).
Proof using Answers0.
  intros Hs Hn Hnext HI. unfold selectTarget. rewrite bool_decide_true by done.
  destruct (roundRobin_run size_ w) as (res & w' & E & HI' & Ho); [lia|lia|done|].
  unfold bind. rewrite E. destruct Ho as [(k & t & wt & Hk & Ht & Hel & -> & Hj & Hst)|(-> & Hj & Hst)].
  - exists (inr t), w'. split_and!; [done..|]. left. by exists k, t, wt.
  - exists (inl no_healthy), w'. split_and!; [done..|]. right. split_and!; [done| |].
    + intros i. destruct (decide (i < size_)%nat) as [Hi|Hi].
      * destruct (rot_onto size_ (next (st w)) i Hi) as (j & Hlt & <-). by apply Hj.
      * intros t wt Ht. apply lookup_lt_Some in Ht. lia.
    + rewrite Hst, decide_False by lia. f_equal.
      replace (next (st w) + Z.of_nat size_) with (next (st w) + 1 * Z.of_nat size_) by lia.
      by rewrite Z.mod_add by lia.
Qed.

(** The weighted scan asks every target once. *)
Lemma weightedScan_answer i ts selected total w :
  (forall j, ts !! j = targets r !! (i + j)%nat) -> (i + length ts = size_)%nat -> Inv w ->
  match selected with
  | Some s => exists t weight, targets r !! s = Some (t, weight) /\ may_select ans t
  | None => forall j, (j < i)%nat -> at_index (may_skip ans) j
  end ->
  exists selected' total' w', weightedScan r excluded i ts selected total w = Ret (selected', total') w' /\
    Inv w' /\ next (st w') = next (st w) /\
    match selected' with
    | Some s => exists t weight, targets r !! s = Some (t, weight) /\ may_select ans t
    | None => forall j, at_index (may_skip ans) j
    end.
Proof using Answers0.
  revert i selected total w. induction ts as [|[t wt] ts IH];
    intros i selected total w Hts Hlen HI Hsel; simpl in Hlen.
  { exists selected, total, w. split_and!; [done..|]. destruct selected; [done|].
    intros j t wt Ht. apply (Hsel j) in Ht as ?; [done|]. apply lookup_lt_Some in Ht. lia. }
  pose proof (Hts 0%nat) as Ht. rewrite Nat.add_0_r in Ht. simpl in Ht.
  assert (Hts' : forall j, ts !! j = targets r !! (S i + j)%nat)
    by (intros j; rewrite Nat.add_succ_comm, <- Hts; done).
  destruct (skip_answer t wt w) as (b & w1 & E & Hb & HI1 & Hst1);
    [by eapply list_elem_of_lookup_2|done|].
  cbn [weightedScan]. unfold bind at 1. rewrite E. destruct b.
  - rewrite <- Hst1. apply IH; [done|lia|done|]. destruct selected; [done|].
    intros j Hj. destruct (decide (j = i)) as [->|]; [|apply Hsel; lia].
    intros t' wt' Ht'. rewrite <- Ht in Ht'. by simplify_eq.
  - unfold bind, load, gets, store. set (w2 := ref_set (cell r) _ w1).
    replace (next (st w)) with (next (st w2)) by (unfold w2; by rewrite ref_get_set, <- Hst1).
    apply IH; [done|lia|by apply answers_store|].
    destruct selected as [s|]; [destruct (_ <? _)|]; eauto.
Qed.

(** What every caller of [selectTarget] can rely on. *)
Lemma select_answer w :
  (0 < size_)%nat -> 0 <= next (st w) -> Inv w ->
  exists res w', selectTarget r excluded w = Ret res w' /\ Inv w' /\ 0 <= next (st w') /\
    match res with
    | inr t => (exists weight, (t, weight) ∈ targets r) /\ may_select ans t
    | inl e => e = no_healthy /\
        (strategy r = StrategyRoundRobin \/ strategy r = StrategyWeightedRoundRobin ->
         forall j, at_index (may_skip ans) j)
    end.
Proof using Answers0.
  intros Hn Hnext HI. destruct (decide (strategy r = StrategyRoundRobin)) as [Hrr|Hrr].
  - destruct (select_rr_answer w) as (res & w' & E & HI' & Ho); [done..|].
    exists res, w'. split_and!; [done..| |]; destruct Ho as [(k & t & wt & _ & Ht & Hel & -> & _ & Hst)|(-> & Hj & Hst)];
      try (rewrite Hst; apply Z.mod_pos_bound; lia); [|done].
    split; [|done]. exists wt. by eapply list_elem_of_lookup_2.
  - unfold selectTarget. rewrite bool_decide_false by done. case_bool_decide as Hw.
    + destruct (weightedScan_answer 0 (targets r) None 0 w) as (sel & total & w1 & E & HI1 & Hn1 & Hsel);
        [done..|lia|]. unfold bind at 1. rewrite E. destruct sel as [s|].
      * destruct Hsel as (t & wt & Ht & Hms). unfold bind, load, gets, store. rewrite Ht.
        eexists (inr t), _. split_and!; [done|by apply answers_store| | |done..].
        -- rewrite ref_get_set. simpl. lia.
        -- exists wt. by eapply list_elem_of_lookup_2.
      * exists (inl no_healthy), w1. split_and!; [done..|lia|done|done].
    + exists (inl no_healthy), w. split_and!; [done..|]. naive_solver.
Qed.

End answers.

Section stable.
Context (av : Target W -> bool) (Inv : W -> Prop) `{!Stable av Inv}.

Lemma may_select_stable t : may_select (always av) t <-> eligible av t = true.
Proof using Type.
  unfold may_select, eligible, always. case_bool_decide; simpl; destruct (av t); naive_solver.
Qed.

Lemma may_skip_stable t : may_skip (always av) t <-> eligible av t = false.
Proof using Type.
  unfold may_skip, eligible, always. case_bool_decide; simpl; destruct (av t); naive_solver.
Qed.

Lemma at_index_stable i : at_index (may_skip (always av)) i -> el av i = false.
Proof using Type.
  intros H. unfold el. destruct (targets r !! i) as [[t wt]|] eqn:E; [|done].
  by eapply may_skip_stable, H.
Qed.

Lemma skip_run t weight w :
  (t, weight) ∈ targets r -> Inv w ->
  exists w', skip excluded t w = Ret (negb (eligible av t)) w' /\ Inv w' /\ st w' = st w.
Proof using Stable0.
  intros Hin Hw. destruct (skip_answer (always av) Inv t weight w Hin Hw) as (b & w' & E & Hb & HI & Hst).
  exists w'. split_and!; [|done..]. rewrite E. f_equal. destruct b.
  - apply may_skip_stable in Hb. by rewrite Hb.
  - apply may_select_stable in Hb. by rewrite Hb.
Qed.

Lemma select_rr_run w :
  strategy r = StrategyRoundRobin -> (0 < size_)%nat -> 0 <= next (st w) < Z.of_nat size_ -> Inv w ->
  exists res w', selectTarget r excluded w = Ret res w' /\ Inv w' /\
    ((exists k t weight,
        (k < size_)%nat /\ targets r !! rot size_ (next (st w)) k = Some (t, weight) /\
        eligible av t = true /\ res = inr t /\
        (forall j, (j < k)%nat -> el av (rot size_ (next (st w)) j) = false) /\
        st w' = mkRouterState (currentWeights (st w))
                  ((next (st w) + Z.of_nat k + 1) `mod` Z.of_nat size_)) \/
     (res = inl no_healthy /\ (forall i, el av i = false) /\ st w' = st w)).
Proof using Stable0.
  intros Hs Hn Hnext HI.
  destruct (select_rr_answer (always av) Inv w) as (res & w' & E & HI' & Ho); [done..|lia|done|].
  exists res, w'. split_and!; [done..|].
  destruct Ho as [(k & t & wt & Hk & Ht & Hel & -> & Hj & Hst)|(-> & Hj & Hst)]; [left|right].
  - exists k, t, wt. split_and!; [done..|by apply may_select_stable|done| |done].
    intros j Hlt. by apply at_index_stable, Hj.
  - split_and!; [done|intros i; by apply at_index_stable|].
    rewrite Hst, Z.mod_small by lia. by destruct (st w).
Qed.

(** The eligible indices in the order in which round robin meets them. *)
Definition upcoming (next : Z) : list nat :=
  filter (fun i => el av i = true) (rot size_ next <$> seq 0 size_).

Lemma rot_shift next k j :
  (0 < size_)%nat -> rot size_ ((next + Z.of_nat k + 1) `mod` Z.of_nat size_) j = rot size_ next (S k + j).
Proof using Type.
  intros H. unfold rot. rewrite Z.add_mod_idemp_l by lia. do 2 f_equal. lia.
Qed.

Lemma rot_period next j : (0 < size_)%nat -> rot size_ next (size_ + j) = rot size_ next j.
Proof using Type.
  intros H. unfold rot.
  replace (next + Z.of_nat (size_ + j)) with (next + Z.of_nat j + 1 * Z.of_nat size_) by lia.
  by rewrite Z.mod_add by lia.
Qed.

Lemma upcoming_pick next k :
  (k < size_)%nat -> el av (rot size_ next k) = true ->
  (forall j, (j < k)%nat -> el av (rot size_ next j) = false) ->
  exists rest, upcoming next = rot size_ next k :: rest /\
    upcoming ((next + Z.of_nat k + 1) `mod` Z.of_nat size_) = rest ++ [rot size_ next k].
Proof using Type.
  intros Hk Hel Hbefore. unfold upcoming.
  exists (filter (fun i => el av i = true) (rot size_ next <$> seq (S k) (size_ - S k))).
  assert (Hpre : filter (fun i => el av i = true) (rot size_ next <$> seq 0 k) = []).
  { apply (filter_none (el av)). intros x (j & -> & Hj)%list_elem_of_fmap.
    apply elem_of_seq in Hj. apply Hbefore. lia. }
  split.
  - replace (seq 0 size_) with (seq 0 k ++ k :: seq (S k) (size_ - S k)).
    + rewrite fmap_app, filter_app, Hpre, fmap_cons. by rewrite filter_cons_True.
    + replace size_ with (k + S (size_ - S k))%nat at 2 by lia. by rewrite seq_app.
  - replace (rot size_ ((next + Z.of_nat k + 1) `mod` Z.of_nat size_) <$> seq 0 size_)
      with ((rot size_ next <$> seq (S k) (size_ - S k)) ++
            (rot size_ next <$> seq 0 k) ++ [rot size_ next k]).
    + by rewrite !filter_app, Hpre, filter_cons_True.
    + rewrite (list_fmap_ext _ (fun j => rot size_ next (S k + j)) (seq 0 size_));
        [|intros; apply rot_shift; lia].
      trans (rot size_ next <$> (Nat.add (S k) <$> seq 0 size_));
        [|by rewrite <- list_fmap_compose].
      rewrite fmap_add_seq, Nat.add_0_r.
      replace (seq (S k) size_) with (seq (S k) (size_ - S k) ++ seq size_ (k + 1)).
      * rewrite fmap_app. f_equal.
        replace (seq size_ (k + 1)) with (Nat.add size_ <$> seq 0 (k + 1))
          by (rewrite fmap_add_seq; f_equal; lia).
        rewrite <- list_fmap_compose, (list_fmap_ext _ (rot size_ next) (seq 0 (k + 1)));
          [by rewrite seq_app, fmap_app|]. intros; apply rot_period; lia.
      * replace (seq (S k) size_) with (seq (S k) ((size_ - S k) + (k + 1))) by (f_equal; lia).
        rewrite (seq_app (size_ - S k) (k + 1)). do 2 f_equal. lia.
Qed.

(** The target at an index, as a list. *)
Definition target_at (i : nat) : option (Target W) := fst <$> targets r !! i.

Definition eligible_targets : list (Target W) :=
  filter (fun t => eligible av t = true) (fst <$> targets r).

Lemma upcoming_perm next :
  (0 < size_)%nat -> 0 <= next < Z.of_nat size_ ->
  upcoming next ≡ₚ filter (fun i => el av i = true) (seq 0 size_).
Proof using Type.
  intros Hn Hnext. unfold upcoming. apply filter_Permutation.
  set (m := Z.to_nat next).
  replace (seq 0 size_) with (seq 0 (size_ - m) ++ seq (size_ - m) m) at 1
    by (rewrite <- seq_app; f_equal; lia).
  rewrite fmap_app.
  replace (seq 0 size_) with (seq 0 m ++ seq m (size_ - m))
    by (change m with (0 + m)%nat at 2; rewrite <- seq_app; f_equal; lia).
  rewrite (Permutation_app_comm (seq 0 m)). f_equiv.
  - replace (seq m (size_ - m)) with (Nat.add m <$> seq 0 (size_ - m))
      by (rewrite fmap_add_seq; f_equal; lia).
    apply reflexive_eq, list_fmap_ext. intros j x Hx.
    apply lookup_seq in Hx as [-> Hx]. unfold rot. rewrite Z.mod_small by lia. lia.
  - replace (seq (size_ - m) m) with (Nat.add (size_ - m) <$> seq 0 m)
      by (rewrite fmap_add_seq; f_equal; lia).
    rewrite <- list_fmap_compose. rewrite (list_fmap_ext _ id); [by rewrite list_fmap_id|].
    intros j x Hx. apply lookup_seq in Hx as [-> Hx]. unfold rot. simpl.
    replace (next + Z.of_nat (size_ - m + j)) with (Z.of_nat j + 1 * Z.of_nat size_) by lia.
    rewrite Z.mod_add, Z.mod_small by lia. lia.
Qed.

Lemma eligible_indices (ts : list (Target W * Z)) (k : nat) :
  (forall i, ts !! i = targets r !! (k + i)%nat) ->
  omap target_at (filter (fun i => el av i = true) (seq k (length ts))) =
  filter (fun t => eligible av t = true) (fst <$> ts).
Proof using Type.
  revert k. induction ts as [|[t wt] ts IH]; intros k H; [done|].
  pose proof (H 0%nat) as H0. rewrite Nat.add_0_r in H0. simpl in H0.
  assert (Hel : el av k = eligible av t) by (unfold el; by rewrite <- H0).
  assert (IH' := IH (S k) ltac:(intros i; rewrite Nat.add_succ_comm, <- H; done)).
  simpl length. simpl seq. rewrite fmap_cons. simpl fst.
  destruct (eligible av t) eqn:E.
  - rewrite !filter_cons_True by done. simpl. unfold target_at at 1. rewrite <- H0. simpl. by f_equal.
  - rewrite !filter_cons_False by congruence. done.
Qed.

End stable.

(** Repeated selection. *)
Fixpoint selects (k : nat) : M W (list (error + Target W)) :=
  match k with
  | O => ret []
  | S k =>
      let! x := selectTarget r excluded in
      let! xs := selects k in
      ret (x :: xs)
  end.

Section stable_runs.
Context (av : Target W -> bool) (Inv : W -> Prop) `{!Stable av Inv}.

Lemma selects_rr_run k w :
  strategy r = StrategyRoundRobin -> (0 < size_)%nat -> 0 <= next (st w) < Z.of_nat size_ -> Inv w ->
  (k <= length (upcoming av (next (st w))))%nat ->
  exists w', selects k w = Ret (inr <$> omap target_at (take k (upcoming av (next (st w))))) w' /\
    Inv w' /\ 0 <= next (st w') < Z.of_nat size_.
Proof using Stable0.
  intros Hs Hn. revert w. induction k as [|k IH]; intros w Hnext HI Hk; simpl.
  { by exists w. }
  destruct (select_rr_run av Inv w) as (res & w1 & E & HI1 & Ho); [done..|].
  destruct Ho as [(j & t & wt & Hj & Ht & Hel & -> & Hbefore & Hst)|(-> & Hnone & Hst)].
  - destruct (upcoming_pick av (next (st w)) j) as (rest & Hup & Hup'); [done| |done|].
    { unfold el. by rewrite Ht. }
    assert (Hnext' : next (st w1) = (next (st w) + Z.of_nat j + 1) `mod` Z.of_nat size_)
      by (by rewrite Hst).
    destruct (IH w1) as (w2 & E2 & HI2 & Hn2); [|done| |].
    + rewrite Hnext'. apply Z.mod_pos_bound. lia.
    + rewrite Hnext', Hup', length_app. rewrite Hup in Hk. simpl in *. lia.
    + exists w2. unfold bind. rewrite E, E2. split_and!; [|done|lia|lia].
      rewrite Hup. rewrite Hnext', Hup'. rewrite Hup in Hk. simpl in Hk.
      rewrite take_app_le by lia. simpl. unfold target_at at 2. rewrite Ht. done.
  - exfalso. unfold upcoming in Hk. rewrite filter_none in Hk; [simpl in Hk; lia|auto].
Qed.

(** *** Smooth weighted round robin *)

(** [s] is the first index below [i] that is eligible and has the largest
    weight [f]. *)
Definition best (f : nat -> Z) (i : nat) (selected : option nat) : Prop :=
  match selected with
  | None => forall j, (j < i)%nat -> el av j = false
  | Some s =>
      (s < i)%nat /\ el av s = true /\
      forall j, (j < i)%nat -> el av j = true -> f j <= f s /\ ((j < s)%nat -> f j < f s)
  end.

Lemma best_skip f i selected : el av i = false -> best f i selected -> best f (S i) selected.
Proof using Type.
  intros Hel Hb. destruct selected as [s|]; simpl in *.
  - destruct Hb as (Hs & Hels & Hb). split_and!; [lia|done|]. intros j Hj Hej.
    destruct (decide (j = i)) as [->|]; [congruence|]. apply Hb; [lia|done].
  - intros j Hj. destruct (decide (j = i)) as [->|]; [done|]. apply Hb. lia.
Qed.

Lemma best_extend f i selected :
  el av i = true -> best f i selected ->
  best f (S i) (match selected with
                | None => Some i
                | Some s => if f s <? f i then Some i else selected
                end).
Proof using Type.
  intros Hel Hb. destruct selected as [s|]; simpl in Hb.
  - destruct Hb as (Hs & Hels & Hb). destruct (Z.ltb_spec (f s) (f i)); simpl;
      (split_and!; [lia|done|]; intros j Hj Hej;
       destruct (decide (j = i)) as [->|]; [lia|];
       destruct (Hb j) as [? ?]; [lia|done|]; lia).
  - split_and!; [lia|done|]. intros j Hj Hej.
    destruct (decide (j = i)) as [->|]; [lia|]. rewrite Hb in Hej by lia. done.
Qed.

Lemma weightAt_insert s i j x :
  (i < length (currentWeights s))%nat ->
  weightAt (mkRouterState (<[i := x]> (currentWeights s)) (next s)) j =
    if decide (j = i) then x else weightAt s j.
Proof using Type.
  intros H. unfold weightAt. simpl. destruct (decide (j = i)) as [->|].
  - by rewrite list_lookup_insert_eq.
  - by rewrite list_lookup_insert_ne.
Qed.

Lemma ew_nonneg j : (forall i, 0 <= weight_of i) -> 0 <= ew av j.
Proof using Type. intros H. unfold ew. pose proof (H j). destruct (el av j); lia. Qed.

(** The weights do not overflow. *)
Definition fits (f : nat -> Z) : Prop :=
  (forall j, (j < size_)%nat -> in_int64 (f j + ew av j)) /\ sumb (ew av) size_ <= max_int64.

Lemma weightedScan_run (f : nat -> Z) i ts selected w :
  (forall j, 0 <= weight_of j) -> fits f -> Inv w ->
  length (currentWeights (st w)) = size_ -> (i + length ts = size_)%nat ->
  (forall j, ts !! j = targets r !! (i + j)%nat) ->
  (forall j, weightAt (st w) j = f j + if decide (j < i)%nat then ew av j else 0) ->
  best (fun j => f j + ew av j) i selected ->
  exists selected' w',
    weightedScan r excluded i ts selected (sumb (ew av) i) w =
      Ret (selected', sumb (ew av) size_) w' /\ Inv w' /\
    length (currentWeights (st w')) = size_ /\ next (st w') = next (st w) /\
    (forall j, weightAt (st w') j = f j + if decide (j < size_)%nat then ew av j else 0) /\
    best (fun j => f j + ew av j) size_ selected'.
Proof using Stable0.
  intros Hpos [Hfit Htot]. revert i selected w.
  induction ts as [|[t wt] ts IH]; intros i selected w HI Hlen Hi Hts Hw Hb; simpl in Hi.
  { rewrite Nat.add_0_r in Hi. subst i. by exists selected, w. }
  pose proof (Hts 0%nat) as Ht. rewrite Nat.add_0_r in Ht. simpl in Ht.
  assert (Hts' : forall j, ts !! j = targets r !! (S i + j)%nat)
    by (intros j; rewrite Nat.add_succ_comm, <- Hts; done).
  assert (Hwt : weight_of i = wt) by (unfold weight_of; by rewrite <- Ht).
  assert (Hel : el av i = eligible av t) by (unfold el; by rewrite <- Ht).
  destruct (skip_run av Inv t wt w) as (w1 & E & HI1 & Hst1);
    [by eapply list_elem_of_lookup_2|done|].
  cbn [weightedScan]. unfold bind at 1. rewrite E. rewrite <- Hst1 in Hw, Hlen.
  destruct (eligible av t) eqn:Et; simpl.
  - assert (Hew : ew av i = wt) by (unfold ew; by rewrite Hel).
    unfold bind, load, gets, store.
    rewrite (Hw i), decide_False, Z.add_0_r by lia. rewrite <- Hew.
    rewrite wrap64_id by (apply Hfit; lia).
    set (w2 := ref_set (cell r) _ w1).
    assert (Hst2 : st w2 = mkRouterState (<[i:=f i + ew av i]> (currentWeights (st w1))) (next (st w1)))
      by (unfold w2; by rewrite ref_get_set).
    replace (wrap64 (sumb (ew av) i + ew av i)) with (sumb (ew av) (S i)).
    2:{ simpl. symmetry. apply wrap64_id.
        pose proof (sumb_mono (ew av) (S i) size_ ltac:(lia) (fun j => ew_nonneg j Hpos)) as Hs.
        simpl in Hs. unfold in_int64, min_int64. lia. }
    rewrite <- Hst1. rewrite <- (f_equal next Hst2 : next (st w2) = next (st w1)).
    apply IH; [by apply answers_store| | |done| |].
    + rewrite Hst2. simpl. by rewrite length_insert.
    + lia.
    + intros j. rewrite Hst2, weightAt_insert by lia. rewrite Hw.
      destruct (decide (j = i)) as [->|]; [by rewrite decide_True by lia|].
      destruct (decide (j < i)%nat), (decide (j < S i)%nat); lia.
    + replace (match selected with _ => _ end)
        with (match selected with
              | None => Some i
              | Some s => if f s + ew av s <? f i + ew av i then Some i else selected
              end).
      * by apply (best_extend (fun j => f j + ew av j)).
      * destruct selected as [s|]; [|done]. destruct Hb as (Hs & _).
        by rewrite (Hw s), decide_True by lia.
  - assert (Hew : ew av i = 0) by (unfold ew; by rewrite Hel).
    replace (sumb (ew av) i) with (sumb (ew av) (S i)) by (simpl; lia).
    rewrite <- Hst1. apply IH; [done..|lia|done| |].
    + intros j. rewrite Hw. destruct (decide (j = i)) as [->|]; [rewrite Hew; by case_decide; case_decide|].
      destruct (decide (j < i)%nat), (decide (j < S i)%nat); lia.
    + by apply best_skip.
Qed.

(** The total weight of the eligible targets. *)
Definition total_weight : Z := sumb (ew av) size_.

Lemma select_wrr_run (f : nat -> Z) w :
  strategy r = StrategyWeightedRoundRobin -> (forall j, 0 <= weight_of j) ->
  fits f ->
  (forall s, best (fun j => f j + ew av j) size_ (Some s) -> in_int64 (f s + ew av s - total_weight)) ->
  length (currentWeights (st w)) = size_ -> (forall j, weightAt (st w) j = f j) -> Inv w ->
  exists res w', selectTarget r excluded w = Ret res w' /\ Inv w' /\
    length (currentWeights (st w')) = size_ /\
    match res with
    | inr t =>
        exists s, target_at s = Some t /\ best (fun j => f j + ew av j) size_ (Some s) /\
          forall j, weightAt (st w') j =
            f j + (if decide (j < size_)%nat then ew av j else 0) -
            (if decide (j = s) then total_weight else 0)
    | inl e => e = no_healthy /\ forall j, (j < size_)%nat -> el av j = false
    end.
Proof using Stable0.
  intros Hs Hpos Hfit Hsub Hlen Hw HI. unfold selectTarget.
  rewrite bool_decide_false by (rewrite Hs; done). rewrite bool_decide_true by done.
  destruct (weightedScan_run f 0 (targets r) None w) as (sel & w1 & E & HI1 & Hl1 & Hn1 & Hw1 & Hb);
    [done..| |simpl; lia|].
  { intros j. rewrite Hw. rewrite decide_False; lia. }
  unfold bind at 1. simpl sumb in E. rewrite E. destruct sel as [s|].
  - destruct Hb as (Hlt & Hel & Hb). unfold bind, load, gets, store.
    destruct (lookup_lt_is_Some_2 (targets r) s Hlt) as [[t wt] Ht]. rewrite Ht.
    set (w2 := ref_set (cell r) _ w1). exists (inr t), w2. split; [done|].
    assert (Hst2 : st w2 = mkRouterState (<[s:=wrap64 (weightAt (st w1) s - total_weight)]>
      (currentWeights (st w1))) (next (st w1))) by (unfold w2; by rewrite ref_get_set).
    split_and!; [by apply answers_store| |].
    + rewrite Hst2. simpl. by rewrite length_insert.
    + exists s. split_and!; [unfold target_at; by rewrite Ht|by split_and!|].
      intros j. rewrite Hst2, weightAt_insert, !Hw1 by lia.
      destruct (decide (j = s)) as [->|]; [|lia].
      rewrite decide_True by done. rewrite wrap64_id; [lia|]. by apply Hsub; split_and!.
  - exists (inl no_healthy), w1. done.
Qed.

(** How often the index [i] occurs in [idx]. *)
Definition occ (i : nat) (idx : list nat) : Z :=
  Z.of_nat (count (fun k => bool_decide (k = i)) idx).

Lemma occ_snoc i idx s : occ i (idx ++ [s]) = occ i idx + if decide (i = s) then 1 else 0.
Proof using Type.
  unfold occ. rewrite count_app. simpl.
  destruct (decide (i = s)) as [->|]; case_bool_decide; simplify_eq; lia.
Qed.

Lemma sumb_occ idx n : Forall (fun i => (i < n)%nat) idx -> sumb (fun i => occ i idx) n = Z.of_nat (length idx).
Proof using Type.
  induction idx as [|s idx IH] using rev_ind; intros H.
  - rewrite (sumb_ext _ (fun _ => 0 * 0)) by done. rewrite sumb_scale. simpl. lia.
  - apply Forall_app in H as [H Hs]. apply (Forall_singleton (fun i => (i < n)%nat)) in Hs. simpl in Hs.
    rewrite (sumb_ext _ (fun i => occ i idx + if decide (i = s) then 1 else 0))
      by (intros; apply occ_snoc).
    rewrite sumb_add, IH, sumb_point, length_app by done. simpl. lia.
Qed.

(** The invariant of smooth weighted round robin after the selections [idx]. *)
Record wrr_inv (idx : list nat) (f : nat -> Z) : Prop := {
  wrr_el : Forall (fun i => (i < size_)%nat /\ el av i = true) idx;
  wrr_val : forall i, (i < size_)%nat ->
    f i = Z.of_nat (length idx) * ew av i - total_weight * occ i idx;
  wrr_low : forall i, (i < size_)%nat -> - total_weight < f i;
}.

Lemma wrr_sum idx f : wrr_inv idx f -> sumb f size_ = 0.
Proof using Type.
  intros [Hel Hval _].
  rewrite (sumb_ext _ (fun i => Z.of_nat (length idx) * ew av i + - total_weight * occ i idx))
    by (intros; rewrite Hval by done; lia).
  rewrite sumb_add, !sumb_scale, sumb_occ by (eapply Forall_impl; [done|naive_solver]).
  unfold total_weight. lia.
Qed.

Lemma wrr_high idx f i :
  wrr_inv idx f -> (i < size_)%nat -> f i <= (Z.of_nat size_ - 1) * total_weight.
Proof using Type.
  intros HI Hi. pose proof (wrr_sum idx f HI) as Hsum.
  pose proof (sumb_le (fun j => - total_weight + if decide (j = i) then f i + total_weight else 0) f size_) as H.
  rewrite sumb_add, sumb_point in H by done.
  assert (Hc : forall n c, sumb (fun _ => c) n = Z.of_nat n * c) by (induction n; intros; simpl; [|rewrite IHn]; lia).
  rewrite Hc in H. cut (Z.of_nat size_ * - total_weight + (f i + total_weight) <= sumb f size_); [lia|].
  apply H. intros j Hj. pose proof (wrr_low _ _ HI j Hj). case_decide; subst; lia.
Qed.

Lemma wrr_init : 0 < total_weight -> wrr_inv [] (fun _ => 0).
Proof using Type. intros H. split; [by constructor| |]; intros; unfold occ; simpl; lia. Qed.

(** The largest weight is positive, because the weights add up to the total. *)
Lemma wrr_max_pos idx f s :
  0 < total_weight -> wrr_inv idx f -> best (fun j => f j + ew av j) size_ (Some s) ->
  0 < f s + ew av s.
Proof using Type.
  intros Htot HI (Hs & Hels & Hb). apply Z.nle_gt. intros Hle.
  pose proof (sumb_le (fun j => f j + ew av j) (fun _ => 0 * 0) size_) as H.
  rewrite sumb_add, (wrr_sum _ _ HI), sumb_scale in H. fold total_weight in H.
  cut (0 + total_weight <= 0 * sumb (fun _ => 0) size_); [lia|]. apply H.
  intros j Hj. destruct (el av j) eqn:Ej; [pose proof (Hb j Hj Ej); lia|].
  assert (ew av j = 0) by (unfold ew; by rewrite Ej).
  rewrite (wrr_val _ _ HI j Hj). unfold occ. rewrite count_zero; [lia|].
  eapply Forall_impl; [apply (wrr_el _ _ HI)|]. intros k [_ Hk]. simpl.
  case_bool_decide; congruence.
Qed.

(** A selection keeps the invariant. *)
Lemma wrr_step idx f f' s :
  (forall j, 0 <= weight_of j) -> 0 < total_weight -> wrr_inv idx f ->
  best (fun j => f j + ew av j) size_ (Some s) ->
  (forall j, (j < size_)%nat -> f' j = f j + ew av j - if decide (j = s) then total_weight else 0) ->
  wrr_inv (idx ++ [s]) f'.
Proof using Type.
  intros Hpos Htot HI Hb Hf'. pose proof (wrr_max_pos _ _ _ Htot HI Hb) as Hmax.
  destruct Hb as (Hs & Hels & _).
  split.
  - apply Forall_app. split; [apply HI|]. by apply Forall_singleton.
  - intros i Hi. rewrite Hf', (wrr_val _ _ HI), occ_snoc, length_app by done. simpl.
    case_decide; subst; lia.
  - intros i Hi. rewrite Hf' by done. pose proof (wrr_low _ _ HI i Hi).
    pose proof (ew_nonneg i Hpos). case_decide; subst; lia.
Qed.

Lemma wrr_fits idx f :
  (forall j, 0 <= weight_of j) -> 0 < total_weight -> wrr_inv idx f ->
  Z.of_nat size_ * total_weight <= max_int64 ->
  fits f /\ (forall s, best (fun j => f j + ew av j) size_ (Some s) ->
               in_int64 (f s + ew av s - total_weight)).
Proof using Type.
  intros Hpos Htot HI Hmax.
  assert (Hb : forall j, (j < size_)%nat ->
    - total_weight < f j + ew av j <= Z.of_nat size_ * total_weight /\ 0 <= ew av j <= total_weight
    /\ total_weight <= max_int64).
  { intros j Hj. pose proof (wrr_low _ _ HI j Hj). pose proof (wrr_high _ _ j HI Hj).
    assert (0 <= ew av j <= total_weight).
    { split; [by apply ew_nonneg|].
      pose proof (sumb_mono (ew av) (S j) size_ ltac:(lia) (fun k => ew_nonneg k Hpos)) as H1.
      pose proof (sumb_mono (ew av) j size_ ltac:(lia) (fun k => ew_nonneg k Hpos)) as H2.
      unfold total_weight. simpl in H1. lia. }
    split_and!; nia. }
  assert (Hw : total_weight <= max_int64).
  { destruct (decide (size_ = O)) as [E|]; [|destruct (Hb 0%nat); lia].
    unfold total_weight. rewrite E. done. }
  unfold max_int64 in *. split; [split|].
  - intros j Hj. destruct (Hb j Hj). unfold in_int64, min_int64, max_int64. lia.
  - done.
  - intros s Hbest. pose proof (wrr_max_pos _ _ _ Htot HI Hbest). destruct Hbest as (Hj & _).
    destruct (Hb s Hj). unfold in_int64, min_int64, max_int64. lia.
Qed.

Lemma selects_wrr_run k idx w :
  strategy r = StrategyWeightedRoundRobin -> (forall j, 0 <= weight_of j) -> 0 < total_weight ->
  Z.of_nat size_ * total_weight <= max_int64 ->
  length (currentWeights (st w)) = size_ -> Inv w ->
  (forall j, (size_ <= j)%nat -> weightAt (st w) j = 0) ->
  wrr_inv idx (weightAt (st w)) ->
  exists new w', selects k w = Ret (inr <$> omap target_at new) w' /\ Inv w' /\
    length new = k /\ wrr_inv (idx ++ new) (weightAt (st w')).
Proof using Stable0.
  intros Hs Hpos Htot Hmax. revert idx w. induction k as [|k IH]; intros idx w Hlen HI Hout Hinv.
  { exists [], w. rewrite app_nil_r. by split_and!. }
  destruct (wrr_fits _ _ Hpos Htot Hinv Hmax) as [Hfit Hsub].
  destruct (select_wrr_run (weightAt (st w)) w) as (res & w1 & E & HI1 & Hl1 & Hres); [done..|].
  destruct res as [e|t].
  { exfalso. destruct Hres as [_ Hnone].
    assert (total_weight = 0 * sumb (fun _ => 0) size_); [|lia].
    rewrite <- sumb_scale. apply sumb_ext. intros j Hj. unfold ew. by rewrite Hnone. }
  destruct Hres as (s & Ht & Hb & Hw1). pose proof Hb as (Hslt & _).
  destruct (IH (idx ++ [s]) w1) as (new & w2 & E2 & HI2 & Hlen2 & Hinv2); [done..| | |].
  - intros j Hj. rewrite Hw1, Hout, !decide_False by lia. lia.
  - eapply wrr_step; [done..|]. intros j Hj. by rewrite Hw1, decide_True.
  - exists (s :: new), w2. simpl. unfold bind. rewrite E, E2, Ht.
    split_and!; [done..|lia|]. by rewrite <- app_assoc in Hinv2.
Qed.

End stable_runs.

End selection.

Abbreviation Stable r av := (Answers r (always av)).

(** ** Construction *)

(** The name that [New] compares. *)
Definition trimmed {W} (c : Target W * Z) : string := TrimSpace (target_Name c.1).

Definition accepted {W} (names : gset string) (c : Target W * Z) : Prop :=
  trimmed c <> "" /\ (trimmed c ∉ names) /\ 0 < c.2.

Lemma checkTargets_sound {W} (cs : list (option (Target W) * Z)) names res :
  checkTargets names cs = inr res ->
  cs = (prod_map Some id <$> res) /\ NoDup (trimmed <$> res) /\ Forall (accepted names) res.
Proof.
  revert names res. induction cs as [|[[t|] wt] cs IH]; intros names res; simpl; [|..|done].
  { intros [= <-]. split_and!; [done|by constructor..]. }
  repeat case_bool_decide; try done. destruct (Z.leb_spec wt 0); [done|].
  destruct (checkTargets _ cs) as [e|res0] eqn:E; [done|]. intros [= <-].
  apply IH in E as (-> & Hnd & Hall). rewrite Forall_forall in Hall. split_and!; [done| |].
  - rewrite fmap_cons. apply NoDup_cons. split; [|done].
    intros (c & Hc & Hin)%list_elem_of_fmap. destruct (Hall c Hin) as (_ & Hn & _). apply Hn.
    rewrite <- Hc. set_solver.
  - constructor; [done|]. apply Forall_forall. intros c Hin.
    destruct (Hall c Hin) as (? & ? & ?). split_and!; [done|set_solver|done].
Qed.

Lemma checkTargets_complete {W} (res : list (Target W * Z)) names :
  NoDup (trimmed <$> res) -> Forall (accepted names) res ->
  checkTargets names (prod_map Some id <$> res) = inr res.
Proof.
  revert names. induction res as [|[t wt] res IH]; intros names Hnd Hall; [done|].
  rewrite fmap_cons in Hnd. apply NoDup_cons in Hnd as [Hnin Hnd].
  apply Forall_cons in Hall as [(H1 & H2 & H3) Hall]. unfold trimmed in H1, H2. simpl in *.
  rewrite !bool_decide_false by done. rewrite (proj2 (Z.leb_gt _ _)) by lia.
  rewrite IH; [done..|]. rewrite Forall_forall in *. intros c Hin.
  destruct (Hall c Hin) as (? & ? & ?). split_and!; [done| |done].
  apply not_elem_of_union. split; [|done]. apply not_elem_of_singleton. intros Heq.
  apply Hnin. apply list_elem_of_fmap. by exists c.
Qed.

Definition valid_strategy (s : Strategy) : Prop :=
  s = StrategyRoundRobin \/ s = StrategyWeightedRoundRobin.

(** [New] accepts exactly a supported strategy with at least one target,
    every target present with a non-blank name, names distinct after trimming
    and positive weights; the router keeps the targets in order and starts
    with all current weights 0 and [next] 0. *)
Theorem router_New_validates {W} strat (cs : list (option (Target W) * Z)) cell0 rt s :
  New strat cs cell0 = inr (rt, s) <->
    valid_strategy strat /\ targets rt <> [] /\ cs = (prod_map Some id <$> targets rt) /\
    NoDup (trimmed <$> targets rt) /\
    Forall (fun c => trimmed c <> "" /\ 0 < c.2) (targets rt) /\
    rt = mkRouter strat (targets rt) cell0 /\
    s = mkRouterState (replicate (length (targets rt)) 0) 0.
Proof.
  unfold New, valid_strategy. split.
  - repeat case_bool_decide; simpl; try done;
      (destruct (checkTargets ∅ cs) as [e|res] eqn:E; [done|]; intros [= <- <-]; simpl;
       apply checkTargets_sound in E as (-> & Hnd & Hall);
       split_and!; [auto|by intros ->|done|done| |done..];
       eapply Forall_impl; [done|]; intros c (? & _ & ?); done).
  - intros (Hstrat & Hne & Hcs & Hnd & Hall & Hrt & Hs).
    assert (Hneg : negb (bool_decide (strat = StrategyRoundRobin)) &&
      negb (bool_decide (strat = StrategyWeightedRoundRobin)) = false)
      by (destruct Hstrat as [-> | ->]; done). rewrite Hneg.
    rewrite bool_decide_false by (rewrite Hcs; by destruct (targets rt)).
    rewrite Hcs, checkTargets_complete; [congruence|done|].
    eapply Forall_impl; [done|]. intros c (? & ?). split_and!; set_solver.
Qed.

(** What [New] guarantees about a router. *)
Record valid {W} (r : Router W) : Prop := {
  valid_nonempty : (0 < length (targets r))%nat;
  valid_names : NoDup (target_Name <$> (targets r).*1);
  valid_weights : Forall (fun c => 0 < c.2) (targets r);
}.

Lemma router_New_valid {W} strat (cs : list (option (Target W) * Z)) cell0 rt s :
  New strat cs cell0 = inr (rt, s) -> valid rt.
Proof.
  unfold New. destruct (_ && _); [done|]. case_bool_decide as Hcs; [done|].
  destruct (checkTargets ∅ cs) as [e|res] eqn:E; [done|]. intros [= <- <-].
  apply checkTargets_sound in E as (-> & Hnd & Hall). split; simpl.
  - destruct res; [done|simpl; lia].
  - apply (NoDup_fmap_1 TrimSpace). by rewrite <- !list_fmap_compose.
  - eapply Forall_impl; [done|]. by intros c (_ & _ & ?).
Qed.

Lemma valid_weight_of {W} (r : Router W) j : valid r -> 0 <= weight_of r j.
Proof.
  intros [_ _ Hw]. unfold weight_of. destruct (targets r !! j) as [[t wt]|] eqn:E; [|done].
  rewrite Forall_lookup in Hw. specialize (Hw _ _ E). simpl in Hw. lia.
Qed.

(** How often the target named [nm] was selected. *)
Definition picked {W} (nm : string) (xs : list (error + Target W)) : nat :=
  count (fun x => match x with
                  | inr t => bool_decide (target_Name t = nm)
                  | inl _ => false
                  end) xs.

Lemma picked_occ {W} (r : Router W) idx i t weight :
  valid r -> targets r !! i = Some (t, weight) -> Forall (fun k => (k < length (targets r))%nat) idx ->
  Z.of_nat (picked (target_Name t) (inr <$> omap (target_at r) idx)) = occ i idx.
Proof.
  intros Hv Ht. unfold picked, occ. induction 1 as [|k idx Hk _ IH]; [done|]. simpl.
  destruct (lookup_lt_is_Some_2 _ _ Hk) as [[t' wt'] Ht']. unfold target_at at 1. rewrite Ht'. simpl.
  rewrite !Nat2Z.inj_add. f_equal; [|exact IH]. f_equal.
  destruct (decide (k = i)) as [->|Hne].
  - simplify_eq. by rewrite !bool_decide_true.
  - rewrite !bool_decide_false; [done..|]. intros Hn. apply Hne.
    eapply (NoDup_lookup (target_Name <$> (targets r).*1)); [apply Hv| |];
      rewrite !list_lookup_fmap; [by rewrite Ht'|]. rewrite Ht. simpl. congruence.
Qed.

Section claims.
Context {W : Type} (r : Router W) (av : Target W -> bool) (Inv : W -> Prop).

Abbreviation st w := (ref_get (cell r) w).
Abbreviation size_ := (length (targets r)).

(** Round robin selects the first eligible target (not excluded and
    available) in cyclic order from [next] and moves [next] just past it; it
    reports that no provider is healthy exactly when no target is eligible, and
    then [next] is back where it was. *)
Theorem round_robin_selects excluded `{!Stable r av Inv} w :
  strategy r = StrategyRoundRobin -> valid r -> 0 <= next (st w) < Z.of_nat size_ -> Inv w ->
  exists res w', selectTarget r excluded w = Ret res w' /\
    ((exists k t weight,
        (k < size_)%nat /\ targets r !! rot size_ (next (st w)) k = Some (t, weight) /\
        eligible excluded av t = true /\ res = inr t /\
        (forall j, (j < k)%nat -> el r excluded av (rot size_ (next (st w)) j) = false) /\
        st w' = mkRouterState (currentWeights (st w))
                  ((next (st w) + Z.of_nat k + 1) `mod` Z.of_nat size_)) \/
     (res = inl no_healthy /\ (forall i, el r excluded av i = false) /\ st w' = st w)).
Proof using Type.
  intros Hs Hv Hn HI.
  destruct (select_rr_run r excluded av Inv w Hs (valid_nonempty _ Hv) Hn HI) as (res & w' & E & _ & Ho).
  by exists res, w'.
Qed.

(** Round robin is fair: with a stable set of eligible targets, as many
    consecutive selections as there are eligible targets choose each of them
    exactly once, wherever the rotation starts. *)
Theorem round_robin_fair excluded `{!Stable r av Inv} w :
  strategy r = StrategyRoundRobin -> valid r -> 0 <= next (st w) < Z.of_nat size_ -> Inv w ->
  exists ts w', selects r excluded (length (eligible_targets r excluded av)) w = Ret (inr <$> ts) w' /\
    ts ≡ₚ eligible_targets r excluded av.
Proof using Type.
  intros Hs Hv Hn HI.
  pose proof (eligible_indices r excluded av (targets r) 0 ltac:(done)) as Hidx.
  pose proof (upcoming_perm r excluded av (next (st w)) (valid_nonempty _ Hv) Hn) as Hperm.
  assert (Hlen : length (eligible_targets r excluded av) = length (upcoming r excluded av (next (st w)))).
  { rewrite Hperm. unfold eligible_targets. rewrite <- Hidx. apply length_omap_all.
    intros i. rewrite list_elem_of_filter. intros [_ Hi%elem_of_seq].
    destruct (lookup_lt_is_Some_2 (targets r) i) as [c Hc]; [lia|].
    unfold target_at. rewrite Hc. by eexists. }
  destruct (selects_rr_run r excluded av Inv (length (eligible_targets r excluded av)) w) as (w' & E & _);
    [done|apply Hv|done|done|lia|].
  eexists _, w'. split; [exact E|].
  rewrite Hlen, take_ge by lia. rewrite Hperm. unfold eligible_targets. by rewrite <- Hidx.
Qed.

(** The selections of smooth weighted round robin from the initial state. *)
Lemma selects_wrr_initial excluded `{!Stable r av Inv} k w :
  strategy r = StrategyWeightedRoundRobin -> valid r -> Inv w ->
  0 < total_weight r excluded av -> Z.of_nat size_ * total_weight r excluded av <= max_int64 ->
  currentWeights (st w) = replicate size_ 0 ->
  exists idx w', selects r excluded k w = Ret (inr <$> omap (target_at r) idx) w' /\
    length idx = k /\ wrr_inv r excluded av idx (weightAt (st w')).
Proof using Type.
  intros Hs Hv HI Htot Hmax Hcw.
  assert (Hz : forall j, weightAt (st w) j = 0).
  { intros j. unfold weightAt. rewrite Hcw. destruct (replicate _ _ !! j) as [x|] eqn:E; [|done].
    by apply lookup_replicate in E as [-> _]. }
  destruct (selects_wrr_run r excluded av Inv k [] w) as (idx & w' & E & _ & Hlen & Hinv);
    [done|by intros; apply valid_weight_of|done|done| |done|done| |].
  - rewrite Hcw. apply length_replicate.
  - destruct (wrr_init r excluded av Htot) as [H1 H2 H3]. split; [done| |]; intros i Hi; rewrite Hz;
      [by rewrite <- (H2 i Hi)|by apply (H3 i)].
  - by exists idx, w'.
Qed.

(** C8: Smooth weighted round robin is exact over a period: with a stable
    set of eligible targets of total weight [T], the first [m * T] selections
    choose each eligible target exactly [m] times its weight, and all current
    weights are back at 0. The int64 arithmetic does not overflow as long as the
    number of targets times [T] fits. *)
Theorem weighted_round_robin_exact excluded `{!Stable r av Inv} (m : nat) w :
  strategy r = StrategyWeightedRoundRobin -> valid r -> Inv w ->
  0 < total_weight r excluded av -> Z.of_nat size_ * total_weight r excluded av <= max_int64 ->
  currentWeights (st w) = replicate size_ 0 ->
  exists xs w',
    selects r excluded (m * Z.to_nat (total_weight r excluded av)) w = Ret xs w' /\
    (forall i t weight, targets r !! i = Some (t, weight) ->
       Z.of_nat (picked (target_Name t) xs) = if eligible excluded av t then Z.of_nat m * weight else 0) /\
    forall i, (i < size_)%nat -> weightAt (st w') i = 0.
Proof using Type.
  intros Hs Hv HI Htot Hmax Hcw. set (T := total_weight r excluded av) in *.
  destruct (selects_wrr_initial excluded (m * Z.to_nat T) w) as (idx & w' & E & Hlen & Hinv); [done..|].
  assert (Hlt : Forall (fun i => (i < size_)%nat) idx)
    by (eapply Forall_impl; [apply Hinv|naive_solver]).
  assert (HlenZ : Z.of_nat (length idx) = Z.of_nat m * T) by lia.
  assert (Hocc : forall i, (i < size_)%nat -> occ i idx = Z.of_nat m * ew r excluded av i).
  { apply sumb_le_eq.
    - intros i Hi. pose proof (wrr_low _ _ _ _ _ Hinv i Hi) as Hlow.
      rewrite (wrr_val _ _ _ _ _ Hinv i Hi), HlenZ in Hlow. fold T in Hlow.
      assert (T * (occ i idx - Z.of_nat m * ew r excluded av i) < T * 1) as Hm by lia.
      apply Z.mul_lt_mono_pos_l in Hm; lia.
    - rewrite sumb_occ, sumb_scale by done. fold (total_weight r excluded av). lia. }
  exists (inr <$> omap (target_at r) idx), w'. split_and!; [done| |].
  - intros i t weight Ht. assert (Hi : (i < size_)%nat) by (by eapply lookup_lt_Some).
    erewrite picked_occ by done. rewrite Hocc by done. unfold ew, el, weight_of. rewrite Ht.
    destruct (eligible excluded av t); lia.
  - intros i Hi. rewrite (wrr_val _ _ _ _ _ Hinv i Hi), Hocc, HlenZ by done. fold T. lia.
Qed.

(** C36: Smooth weighted round robin is smooth: after any number [k] of
    selections no target is a full selection or more ahead of its share
    [k * weight / T], and the current weights stay strictly above [-T] and at
    most at [(n - 1) * T]. *)
Theorem weighted_round_robin_smooth excluded `{!Stable r av Inv} (k : nat) w :
  strategy r = StrategyWeightedRoundRobin -> valid r -> Inv w ->
  0 < total_weight r excluded av -> Z.of_nat size_ * total_weight r excluded av <= max_int64 ->
  currentWeights (st w) = replicate size_ 0 ->
  exists xs w', selects r excluded k w = Ret xs w' /\ length xs = k /\
    forall i t weight, targets r !! i = Some (t, weight) ->
      let T := total_weight r excluded av in
      let n := Z.of_nat (picked (target_Name t) xs) in
      (eligible excluded av t = true -> T * (n - 1) < Z.of_nat k * weight) /\
      (eligible excluded av t = false -> n = 0) /\
      - T < weightAt (st w') i <= (Z.of_nat size_ - 1) * T.
Proof using Type.
  intros Hs Hv HI Htot Hmax Hcw.
  destruct (selects_wrr_initial excluded k w) as (idx & w' & E & Hlen & Hinv); [done..|].
  assert (Hlt : Forall (fun i => (i < size_)%nat) idx)
    by (eapply Forall_impl; [apply Hinv|naive_solver]).
  exists (inr <$> omap (target_at r) idx), w'. split_and!; [done| |].
  { rewrite length_fmap, length_omap_all; [done|]. intros i Hi. rewrite Forall_forall in Hlt.
    destruct (lookup_lt_is_Some_2 (targets r) i) as [c Hc]; [by apply Hlt|].
    unfold target_at. rewrite Hc. by eexists. }
  intros i t weight Ht T n. assert (Hi : (i < size_)%nat) by (by eapply lookup_lt_Some).
  pose proof (wrr_low _ _ _ _ _ Hinv i Hi) as Hlow. pose proof (wrr_high _ _ _ _ _ i Hinv Hi) as Hhigh.
  pose proof (wrr_val _ _ _ _ _ Hinv i Hi) as Hval.
  assert (Hn : n = occ i idx) by (unfold n; by erewrite picked_occ).
  unfold ew, el, weight_of in Hval. rewrite Ht in Hval. fold T in Hlow, Hhigh, Hval.
  split_and!; [| |done..].
  - intros Hel. rewrite Hel in Hval. lia.
  - intros Hel. rewrite Hn. unfold occ. rewrite count_zero; [done|].
    eapply Forall_impl; [apply Hinv|]. intros k' [_ Hk']. simpl. unfold el in Hk'.
    case_bool_decide; [|done]. subst k'. rewrite Ht in Hk'. congruence.
Qed.

End claims.

(** ** Routing of calls *)

(** The loop shared by [Chat] and [ChatStream]. *)
Section route.
Context {W A B : Type} (r : Router W) (operation : string).
Context (call : Target W -> M W (option A * option error)).
Context (accept : string -> option A -> option B * option error).

Definition settle (nm : string) (res : option A * option error) : option B * option error :=
  match res.2 with
  | Some e => (None, Some e)
  | None => accept nm res.1
  end.

Fixpoint routeLoop (fuel : nat) (excluded : gset string) : M W (option B * option error) :=
  if (size excluded <? length (targets r))%nat then
    match fuel with
    | O => fun w => Block w
    | S fuel =>
        let! sel := selectTarget r excluded in
        match sel with
        | inl err => ret (None, Some (unavailable operation err))
        | inr target =>
            let! res := call target in
            if is_open res.2 then routeLoop fuel ({[target_Name target]} ∪ excluded)
            else ret (settle (target_Name target) res)
        end
    end
  else ret (None, Some (unavailable operation no_healthy)).

(** The result of the calls made, in order: that of the last call, unless it
    was refused by its breaker. *)
Definition routed (calls : list (string * (option A * option error))) : option B * option error :=
  match last calls with
  | Some (nm, res) =>
      if is_open res.2 then (None, Some (unavailable operation no_healthy)) else settle nm res
  | None => (None, Some (unavailable operation no_healthy))
  end.

(** Every call but possibly the last was refused by an open breaker. *)
Definition refusals (calls : list (string * (option A * option error))) : Prop :=
  Forall (fun c => is_open c.2.2 = true) calls.

Abbreviation st w := (ref_get (cell r) w).

(** [log] records the calls made to the providers; a target that is [up]
    answers that it is available. *)
Class Logged (up : Target W -> Prop) (log : W -> list (string * (option A * option error))) : Prop := {
  logged_answers :: forall l, Answers r (fun t b => up t -> b = true) (fun w => log w = l);
  logged_call : forall t weight w, (t, weight) ∈ targets r ->
    exists res w', call t w = Ret res w' /\ log w' = log w ++ [(target_Name t, res)] /\
      (0 <= next (st w) -> 0 <= next (st w'));
}.

Context (up : Target W -> Prop) (log : W -> list (string * (option A * option error))).
Context `{!Logged up log}.

Definition all_up_called (names : gset string) : Prop :=
  forall t weight, (t, weight) ∈ targets r -> up t -> target_Name t ∈ names.

(** The calls that the loop makes once the targets named [excluded] refused. *)
Record trace_ok (excluded : gset string) (calls : list (string * (option A * option error))) : Prop := {
  trace_nodup : NoDup calls.*1;
  trace_fresh : Forall (fun nm => nm ∉ excluded) calls.*1;
  trace_known : Forall (fun nm => nm ∈ target_Name <$> (targets r).*1) calls.*1;
  trace_refused : refusals (removelast calls);
  trace_last : refusals calls -> all_up_called (excluded ∪ list_to_set calls.*1);
}.

Lemma trace_ok_nil excluded : all_up_called excluded -> trace_ok excluded [].
Proof using Type.
  intros H. split; [apply NoDup_nil_2|by apply Forall_nil..|]. intros _ t weight Hin Hup.
  apply elem_of_union. left. by eapply H.
Qed.

Lemma trace_ok_one excluded t weight res :
  (t, weight) ∈ targets r -> target_Name t ∉ excluded -> is_open res.2 = false ->
  trace_ok excluded [(target_Name t, res)].
Proof using Type.
  intros Hin Hex Ho. split; simpl.
  - apply NoDup_singleton.
  - by apply Forall_singleton.
  - apply Forall_singleton, list_elem_of_fmap. exists t. split; [done|].
    apply list_elem_of_fmap. by exists (t, weight).
  - by constructor.
  - intros H. unfold refusals in H. rewrite Forall_singleton in H. simpl in H. congruence.
Qed.

Lemma trace_ok_cons excluded t weight res calls :
  (t, weight) ∈ targets r -> target_Name t ∉ excluded -> is_open res.2 = true ->
  trace_ok ({[target_Name t]} ∪ excluded) calls -> trace_ok excluded ((target_Name t, res) :: calls).
Proof using Type.
  clear Logged0 log accept call operation B. intros Hin Hex Ho [H1 H2 H3 H4 H5]. rewrite Forall_forall in H2. split; rewrite ?fmap_cons; simpl.
  - constructor; [|done]. intros Hc. apply H2 in Hc. set_solver.
  - constructor; [done|]. apply Forall_forall. intros nm Hnm. apply H2 in Hnm. set_solver.
  - constructor; [|done]. apply list_elem_of_fmap. exists t. split; [done|].
    apply list_elem_of_fmap. by exists (t, weight).
  - destruct calls; [by constructor|]. by constructor.
  - intros [_ H]%Forall_cons t' wt' Hin' Hup. specialize (H5 H t' wt' Hin' Hup). set_solver.
Qed.

Lemma routed_cons nm res calls : is_open res.2 = true -> routed ((nm, res) :: calls) = routed calls.
Proof using Type.
  intros H. unfold routed. destruct calls as [|c calls]; simpl; [by rewrite H|done].
Qed.

Definition names_of : gset string := list_to_set (target_Name <$> (targets r).*1).

Lemma size_names_of : NoDup (target_Name <$> (targets r).*1) -> size names_of = length (targets r).
Proof using Type. intros H. unfold names_of. rewrite size_list_to_set by done. by rewrite !length_fmap. Qed.

Lemma routeLoop_run fuel excluded w :
  valid r -> valid_strategy (strategy r) -> 0 <= next (st w) ->
  excluded ⊆ names_of -> (length (targets r) <= size excluded + fuel)%nat ->
  exists calls w', routeLoop fuel excluded w = Ret (routed calls) w' /\
    log w' = log w ++ calls /\ trace_ok excluded calls.
Proof using Logged0.
  intros Hv Hstrat. revert excluded w. induction fuel as [|fuel IH]; intros excluded w Hnext Hsub Hfuel; simpl;
    destruct (Nat.ltb_spec (size excluded) (length (targets r))) as [Hlt|Hge]; [lia| | |];
    pose proof (size_names_of (valid_names r Hv)) as Hsz.
  2: {
    destruct (select_answer r excluded _ _ w (valid_nonempty r Hv) Hnext (eq_refl (log w)))
      as (sel & w1 & E & Hlog1 & Hn1 & Hsel).
    unfold bind at 1. rewrite E. destruct sel as [e|t].
    - destruct Hsel as [-> Hskip]. exists [], w1. split_and!; [done|by rewrite app_nil_r|].
      apply trace_ok_nil. intros t weight Hin Hup. apply list_elem_of_lookup in Hin as [i Hi].
      destruct (Hskip Hstrat i t weight Hi) as [?|Hf]; [done|]. by specialize (Hf Hup).
    - destruct Hsel as [(weight & Hin) [Hex _]].
      destruct (logged_call t weight w1 Hin) as (res & w2 & E2 & Hlog2 & Hn2).
      unfold bind at 1. rewrite E2. destruct (is_open res.2) eqn:Ho.
      + assert (Hnm : target_Name t ∈ names_of).
        { unfold names_of. apply elem_of_list_to_set, list_elem_of_fmap. exists t. split; [done|].
          apply list_elem_of_fmap. by exists (t, weight). }
        destruct (IH ({[target_Name t]} ∪ excluded) w2) as (calls & w3 & E3 & Hlog3 & Htr).
        { by apply Hn2. }
        { set_solver. }
        { rewrite size_union by set_solver. rewrite size_singleton. lia. }
        exists ((target_Name t, res) :: calls), w3. rewrite E3, Hlog3, Hlog2, Hlog1, <- app_assoc.
        split_and!; [by rewrite routed_cons|done|]. by eapply trace_ok_cons.
      + exists [(target_Name t, res)], w2. rewrite Hlog2, Hlog1. unfold routed. simpl. rewrite Ho.
        split_and!; [done..|]. by eapply trace_ok_one. }
  all: exists [], w; split_and!; [done|by rewrite app_nil_r|]; apply trace_ok_nil;
    intros t weight Hin _; assert (excluded ≡ names_of) as -> by (apply set_subseteq_size_equiv; [done|lia]);
    unfold names_of; apply elem_of_list_to_set, list_elem_of_fmap; exists t; split; [done|];
    apply list_elem_of_fmap; by exists (t, weight).
Qed.

End route.

(** The result for a provider that returned without an error. *)
Definition acceptChat (nm : string) (response : option ChatResponse) : option ChatResponse * option error :=
  match response with
  | None =>
      (None, Some (EUpstream (mkUpstreamError nm "chat" ErrorKindInvalidResponse 0 false
        (Some (EText "provider returned a nil response")))))
  | Some resp => (Some (set_resp_Provider nm resp), None)
  end.

Definition acceptStream {W} (nm : string) (stream : option (provider.Stream W))
  : option (provider.Stream W) * option error :=
  match stream with
  | None =>
      (None, Some (EUpstream (mkUpstreamError nm "chat stream" ErrorKindInvalidResponse 0 false
        (Some (EText "provider returned a nil stream")))))
  | Some s => (Some (namedStream nm s), None)
  end.

Section routed_claims.
Context {W : Type} (r : Router W) (ctx : context.Ctx) (request : ChatRequest).

Definition call_chat (t : Target W) : M W (option ChatResponse * option error) :=
  provider.Chat (target_provider t) ctx request.
Definition call_stream (t : Target W) : M W (option (provider.Stream W) * option error) :=
  provider.ChatStream (target_provider t) ctx request.

Lemma chatLoop_route fuel excluded w :
  chatLoop r ctx request fuel excluded w = routeLoop r "chat" call_chat acceptChat fuel excluded w.
Proof using Type.
  revert excluded w. induction fuel as [|fuel IH]; intros excluded w; simpl; [done|].
  destruct (_ <? _)%nat; [|done]. unfold bind. destruct (selectTarget r excluded w) as [[e|t] w1|w1|w1]; try done.
  unfold call_chat. destruct (provider.Chat _ _ _ w1) as [[resp err] w2|w2|w2]; try done. simpl.
  destruct (is_open err); [apply IH|]. unfold settle. simpl. destruct err, resp; done.
Qed.

Lemma streamLoop_route fuel excluded w :
  streamLoop r ctx request fuel excluded w =
    routeLoop r "chat stream" call_stream acceptStream fuel excluded w.
Proof using Type.
  revert excluded w. induction fuel as [|fuel IH]; intros excluded w; simpl; [done|].
  destruct (_ <? _)%nat; [|done]. unfold bind. destruct (selectTarget r excluded w) as [[e|t] w1|w1|w1]; try done.
  unfold call_stream. destruct (provider.ChatStream _ _ _ w1) as [[stream err] w2|w2|w2]; try done. simpl.
  destruct (is_open err); [apply IH|]. unfold settle. simpl. destruct err, stream; done.
Qed.

(** C5: [Chat] terminates after calling some targets of the router, each at
    most once, where every call but the last was refused by an open breaker (so
    no second provider is tried after a call that reached one); the result is
    that of the last call, with the provider's name filled in, and the
    "unavailable" error only if every target that is up has refused. *)
Theorem router_chat_spec up log `{!Logged r call_chat up log} w :
  valid r -> valid_strategy (strategy r) -> 0 <= next (ref_get (cell r) w) ->
  exists calls w', Chat r ctx request w = Ret (routed "chat" acceptChat calls) w' /\
    log w' = log w ++ calls /\
    NoDup calls.*1 /\ Forall (fun nm => nm ∈ target_Name <$> (targets r).*1) calls.*1 /\
    refusals (removelast calls) /\
    (refusals calls -> all_up_called r up (list_to_set calls.*1)).
Proof using Type.
  intros Hv Hs Hn. unfold Chat. rewrite chatLoop_route.
  destruct (routeLoop_run r "chat" call_chat acceptChat up log (length (targets r)) ∅ w)
    as (calls & w' & E & Hlog & [H1 _ H3 H4 H5]); [done..|set_solver|lia|].
  exists calls, w'. rewrite union_empty_l_L in H5. done.
Qed.

(** [ChatStream] routes like [Chat]: each target at most once, another
    target only after a refusal by an open breaker, and the stream carries the
    name of the target that opened it. *)
Theorem router_stream_spec up log `{!Logged r call_stream up log} w :
  valid r -> valid_strategy (strategy r) -> 0 <= next (ref_get (cell r) w) ->
  exists calls w', ChatStream r ctx request w = Ret (routed "chat stream" acceptStream calls) w' /\
    log w' = log w ++ calls /\
    NoDup calls.*1 /\ Forall (fun nm => nm ∈ target_Name <$> (targets r).*1) calls.*1 /\
    refusals (removelast calls) /\
    (refusals calls -> all_up_called r up (list_to_set calls.*1)).
Proof using Type.
  intros Hv Hs Hn. unfold ChatStream. rewrite streamLoop_route.
  destruct (routeLoop_run r "chat stream" call_stream acceptStream up log (length (targets r)) ∅ w)
    as (calls & w' & E & Hlog & [H1 _ H3 H4 H5]); [done..|set_solver|lia|].
  exists calls, w'. rewrite union_empty_l_L in H5. done.
Qed.

End routed_claims.

(** ** Examples *)

Module examples.

(** A world with the router's state and the names of the targets called. *)
Definition dworld : Type := RouterState * list string.

Definition dcell : ref dworld RouterState := mkRef fst (fun s w => (s, snd w)).

#[global] Instance dcell_ok : RefOk dcell.
Proof. constructor; try done. by intros []. Qed.

Definition demo_response : ChatResponse :=
  mkChatResponse "" "" "chat.completion" 0 "m" [] (mkChatUsage 0 0 0).
Definition demo_request : ChatRequest := mkChatRequest "m" [] None None None false.
Definition demo_stream : provider.Stream dworld :=
  provider.mkStream unit tt (fun s => ret ((None, Some (ESentinel EOF)), s)) (fun s => ret (None, s)) None.

(** The breaker of "a" refuses, "b" answers. *)
Definition answer {A} (x : A) (nm : string) : option A * option error :=
  if bool_decide (nm = "a") then (None, Some (ESentinel ErrOpen)) else (Some x, None).

Definition demo_target (nm : string) (up : bool) : Target dworld :=
  mkTarget
    (provider.mkProvider (fun _ _ w => Ret (answer demo_response nm) (w.1, w.2 ++ [nm]))
       (fun _ _ w => Ret (answer demo_stream nm) (w.1, w.2 ++ [nm])))
    nm (ret up).

Definition demo_log {A} (x : A) (w : dworld) : list (string * (option A * option error)) :=
  (fun nm => (nm, answer x nm)) <$> w.2.

Definition demo_router (s : Strategy) : Router dworld :=
  mkRouter s [(demo_target "a" true, 5); (demo_target "b" true, 1); (demo_target "c" false, 2)] dcell.

Definition demo_start : dworld := (mkRouterState (replicate 3 0) 0, []).

Definition demo_up (t : Target dworld) : bool :=
  bool_decide (target_Name t = "a") || bool_decide (target_Name t = "b").

Lemma demo_targets s (P : Target dworld * Z -> Prop) :
  P (demo_target "a" true, 5) -> P (demo_target "b" true, 1) -> P (demo_target "c" false, 2) ->
  forall c, c ∈ targets (demo_router s) -> P c.
Proof.
  intros Ha Hb Hc. apply Forall_forall. by repeat constructor.
Qed.

Lemma demo_valid s : valid (demo_router s).
Proof.
  split; simpl; [lia| |by repeat constructor].
  apply (bool_decide_unpack _). vm_compute. done.
Qed.

Lemma demo_answers s (ans : Target dworld -> bool -> Prop) (Inv : dworld -> Prop) :
  (forall t, ans t (demo_up t)) -> (forall s w, Inv w -> Inv (ref_set dcell s w)) ->
  Answers (demo_router s) ans Inv.
Proof.
  intros Hans Hinv. split; [apply _|done|]. intros t weight w Hin HI.
  exists (demo_up t), w. split_and!; [|apply Hans|done..].
  by apply (demo_targets s (fun c => target_Available c.1 w = Ret (demo_up c.1) w)
    eq_refl eq_refl eq_refl (t, weight)).
Qed.

Lemma demo_logged {A} s (x : A) (call : Target dworld -> M dworld (option A * option error)) :
  (forall nm up w, call (demo_target nm up) w = Ret (answer x nm) (w.1, w.2 ++ [nm])) ->
  Logged (demo_router s) call (fun t => demo_up t = true) (demo_log x).
Proof.
  intros Hcall. split.
  - intros l. by apply demo_answers.
  - intros t weight w Hin. exists (answer x (target_Name t)), (w.1, w.2 ++ [target_Name t]).
    split_and!; [|unfold demo_log; simpl; by rewrite fmap_app|done].
    by apply (demo_targets s (fun c => call c.1 w = Ret (answer x (target_Name c.1)) (w.1, w.2 ++ [target_Name c.1]))
      (Hcall _ _ _) (Hcall _ _ _) (Hcall _ _ _) (t, weight)).
Qed.

End examples.

Lemma round_robin_selects_witness :
  exists res w', selectTarget (examples.demo_router StrategyRoundRobin) ∅ examples.demo_start = Ret res w' /\
    next (ref_get (cell (examples.demo_router StrategyRoundRobin)) w') = 1.
Proof.
  destruct (round_robin_selects (examples.demo_router StrategyRoundRobin) examples.demo_up (fun _ => True)
    ∅ (Stable0 := examples.demo_answers _ _ _ (fun _ => eq_refl) (fun _ _ _ => I)) examples.demo_start)
    as (res & w' & E & _); [done|apply examples.demo_valid|simpl; lia|done|].
  exists res, w'. split; [done|]. vm_compute in E. injection E as _ <-. done.
Defined.

Lemma round_robin_fair_witness :
  exists ts w', selects (examples.demo_router StrategyRoundRobin) ∅ 2 examples.demo_start = Ret (inr <$> ts) w' /\
    length ts = 2%nat.
Proof.
  destruct (round_robin_fair (examples.demo_router StrategyRoundRobin) examples.demo_up (fun _ => True)
    ∅ (Stable0 := examples.demo_answers _ _ _ (fun _ => eq_refl) (fun _ _ _ => I)) examples.demo_start)
    as (ts & w' & E & Hp); [done|apply examples.demo_valid|simpl; lia|done|].
  exists ts, w'. split; [exact E|]. by rewrite Hp.
Defined.

Lemma weighted_round_robin_exact_witness :
  exists xs w', selects (examples.demo_router StrategyWeightedRoundRobin) ∅ 12 examples.demo_start = Ret xs w' /\
    Z.of_nat (picked "a" xs) = 10.
Proof.
  destruct (weighted_round_robin_exact (examples.demo_router StrategyWeightedRoundRobin) examples.demo_up
    (fun _ => True) ∅ (Stable0 := examples.demo_answers _ _ _ (fun _ => eq_refl) (fun _ _ _ => I)) 2 examples.demo_start)
    as (xs & w' & E & Hp & _);
    [done|apply examples.demo_valid|done|by vm_compute|by vm_compute|done|].
  exists xs, w'. split; [exact E|]. exact (Hp 0%nat (examples.demo_target "a" true) 5 eq_refl).
Defined.

Lemma weighted_round_robin_smooth_witness :
  exists xs w', selects (examples.demo_router StrategyWeightedRoundRobin) ∅ 3 examples.demo_start = Ret xs w' /\
    6 * (Z.of_nat (picked "b" xs) - 1) < 3 * 1.
Proof.
  destruct (weighted_round_robin_smooth (examples.demo_router StrategyWeightedRoundRobin) examples.demo_up
    (fun _ => True) ∅ (Stable0 := examples.demo_answers _ _ _ (fun _ => eq_refl) (fun _ _ _ => I)) 3 examples.demo_start)
    as (xs & w' & E & _ & Hp);
    [done|apply examples.demo_valid|done|by vm_compute|by vm_compute|done|].
  exists xs, w'. split; [exact E|].
  destruct (Hp 1%nat (examples.demo_target "b" true) 1 eq_refl) as (H & _). by apply H.
Defined.

Lemma router_chat_spec_witness :
  exists calls w',
    Chat (examples.demo_router StrategyRoundRobin) context.Background examples.demo_request examples.demo_start =
      Ret (routed "chat" acceptChat calls) w' /\
    calls.*1 = ["a"; "b"].
Proof.
  destruct (router_chat_spec (examples.demo_router StrategyRoundRobin) context.Background examples.demo_request
    _ _ (Logged0 := examples.demo_logged _ examples.demo_response _ (fun _ _ _ => eq_refl)) examples.demo_start)
    as (calls & w' & E & Hlog & _); [apply examples.demo_valid|by left|done|].
  exists calls, w'. split; [done|].
  assert (Hw : w'.2 = ["a"; "b"]) by (vm_compute in E; by injection E as _ <-).
  unfold examples.demo_log in Hlog. rewrite Hw in Hlog. simpl in Hlog. by rewrite <- Hlog.
Defined.

Lemma router_stream_spec_witness :
  exists calls w',
    ChatStream (examples.demo_router StrategyWeightedRoundRobin) context.Background examples.demo_request
      examples.demo_start = Ret (routed "chat stream" acceptStream calls) w' /\
    NoDup calls.*1 /\ refusals (removelast calls).
Proof.
  destruct (router_stream_spec (examples.demo_router StrategyWeightedRoundRobin) context.Background
    examples.demo_request _ _
    (Logged0 := examples.demo_logged _ examples.demo_stream _ (fun _ _ _ => eq_refl)) examples.demo_start)
    as (calls & w' & E & _ & H1 & _ & H2 & _); [apply examples.demo_valid|by right|done|].
  by exists calls, w'.
Defined.

End routing.
