(* ===== verification/Redis.v ===== *)
(** * Redis and Lua

    What the Redis-backed components rely on. The server, its Lua interpreter
    and the client library are not part of the program: they are classes of
    operations with their documented laws, and a concrete instance shows that
    the laws can hold. *)

From stdpp Require Import base gmap list strings.
From Stdlib Require Import ZArith QArith Qabs Qround Qminmax Lqa Lia.
From S2P Require Import Prelude Types Context.

Local Open Scope Z_scope.

Module redis.

(** ** Numbers of Lua

    A Lua number is a binary64 number; its value is a rational, and the result
    of an operation is the exact result rounded by [rnd]. *)
Class Rounding : Type := rnd : Q -> Q.

Section arithmetic.
Context `{!Rounding}.
Definition ladd (x y : Q) : Q := rnd (x + y).
Definition lsub (x y : Q) : Q := rnd (x - y).
Definition lmul (x y : Q) : Q := rnd (x * y).
Definition ldiv (x y : Q) : Q := rnd (x / y).
End arithmetic.

Local Open Scope Q_scope.

(** The magnitudes within which the laws are stated: far from overflow and from
    subnormal numbers. *)
Definition huge : Q := inject_Z (2 ^ 200).
Definition tiny : Q := 1 # (2 ^ 200).
Definition ulp : Q := 1 # (2 ^ 53).

Definition in_scale (x : Q) : Prop := - huge <= x <= huge.

(** Correct rounding (IEEE 754): monotone, exact on integers of 53 bits, and with
    a relative error of at most [2^-53]. *)
Class RoundingOk {R : Rounding} : Prop := {
  rnd_mono : forall x y, in_scale x -> in_scale y -> x <= y -> rnd x <= rnd y;
  rnd_int : forall n : Z, (Z.abs n <= 2 ^ 53)%Z -> rnd (inject_Z n) == inject_Z n;
  rnd_rel : forall x, tiny <= x -> x <= huge -> x - ulp * x <= rnd x <= x + ulp * x;
}.

Section rounding_lemmas.
Context `{RoundingOk}.

Lemma tiny_pos : 0 < tiny.
Proof using Type. done. Qed.

Lemma int_in_scale (n : Z) : (Z.abs n <= 2 ^ 53)%Z -> in_scale (inject_Z n).
Proof using Type.
  intros Hn. unfold in_scale, huge. rewrite <- inject_Z_opp, <- !Zle_Qle.
  assert (2 ^ 53 <= 2 ^ 200)%Z by done. lia.
Qed.

Lemma rnd_eq x y : in_scale x -> x == y -> rnd x == rnd y.
Proof using H.
  intros Hx Hxy. assert (in_scale y) by (unfold in_scale in *; lra).
  apply Qle_antisym; apply rnd_mono; try done; lra.
Qed.

(** Rounding does not cross an integer. *)
Lemma rnd_ge_int (n : Z) x : (Z.abs n <= 2 ^ 53)%Z -> in_scale x -> inject_Z n <= x -> inject_Z n <= rnd x.
Proof using H.
  intros Hn Hs Hx. rewrite <- (rnd_int n Hn). apply rnd_mono; [by apply int_in_scale|done..].
Qed.

Lemma rnd_le_int (n : Z) x : (Z.abs n <= 2 ^ 53)%Z -> in_scale x -> x <= inject_Z n -> rnd x <= inject_Z n.
Proof using H.
  intros Hn Hs Hx. rewrite <- (rnd_int n Hn). apply rnd_mono; [done|by apply int_in_scale|done].
Qed.

Lemma rnd_nonneg x : 0 <= x -> x <= huge -> 0 <= rnd x.
Proof using H.
  intros H0 H1. apply (rnd_ge_int 0); [done| |done]. unfold in_scale. split; [|done].
  assert (0 <= huge) by done. lra.
Qed.

Lemma rnd_upper x : 0 <= x -> x <= huge -> rnd x <= x + ulp * x + 2 * tiny.
Proof using H.
  intros H0 H1. destruct (Qlt_le_dec x tiny) as [Hlt|Hge].
  - assert (rnd x <= rnd tiny).
    { apply rnd_mono; [|by unfold in_scale; vm_compute|lra]. unfold in_scale.
      assert (0 <= huge) by done. lra. }
    pose proof (rnd_rel tiny ltac:(lra) ltac:(by vm_compute)) as [_ Ht].
    assert (ulp * tiny <= tiny) by done. assert (0 <= ulp * x) by (apply Qmult_le_0_compat; done). lra.
  - pose proof (rnd_rel x Hge H1) as [_ Ht]. pose proof tiny_pos. lra.
Qed.

Lemma rnd_lower x : 0 <= x -> x <= huge -> x - ulp * x - tiny <= rnd x.
Proof using H.
  intros H0 H1. assert (0 <= ulp * x) by (apply Qmult_le_0_compat; done).
  destruct (Qlt_le_dec x tiny) as [Hlt|Hge].
  - pose proof (rnd_nonneg x H0 H1). lra.
  - pose proof (rnd_rel x Hge H1) as [Ht _]. pose proof tiny_pos. lra.
Qed.

(** Sums, differences and products of integers of 53 bits are exact. *)
Lemma lsub_int (a b : Z) x y :
  x == inject_Z a -> y == inject_Z b -> (Z.abs (a - b) <= 2 ^ 53)%Z -> lsub x y == inject_Z (a - b).
Proof using H.
  intros Hx Hy Hab. unfold lsub. rewrite <- (rnd_int (a - b) Hab). symmetry.
  apply rnd_eq; [by apply int_in_scale|].
  rewrite Hx, Hy. unfold Z.sub, Qminus. by rewrite inject_Z_plus, inject_Z_opp.
Qed.

Lemma ladd_int (a b : Z) x y :
  x == inject_Z a -> y == inject_Z b -> (Z.abs (a + b) <= 2 ^ 53)%Z -> ladd x y == inject_Z (a + b).
Proof using H.
  intros Hx Hy Hab. unfold ladd. rewrite <- (rnd_int (a + b) Hab). symmetry.
  apply rnd_eq; [by apply int_in_scale|]. by rewrite Hx, Hy, inject_Z_plus.
Qed.

Lemma lmul_int (a b : Z) x y :
  x == inject_Z a -> y == inject_Z b -> (Z.abs (a * b) <= 2 ^ 53)%Z -> lmul x y == inject_Z (a * b).
Proof using H.
  intros Hx Hy Hab. unfold lmul. rewrite <- (rnd_int (a * b) Hab). symmetry.
  apply rnd_eq; [by apply int_in_scale|]. by rewrite Hx, Hy, inject_Z_mult.
Qed.

End rounding_lemmas.

Lemma Qfloor_unique x (n : Z) : inject_Z n <= x -> x < inject_Z (n + 1) -> Qfloor x = n.
Proof.
  intros H1 H2. pose proof (Qfloor_le x) as H3. pose proof (Qlt_floor x) as H4.
  assert (inject_Z n < inject_Z (Qfloor x + 1)) as H5 by lra.
  assert (inject_Z (Qfloor x) < inject_Z (n + 1)) as H6 by lra.
  rewrite <- Zlt_Qlt in H5, H6. lia.
Qed.

Lemma Qceiling_lt_succ x : inject_Z (Qceiling x) < x + 1.
Proof.
  unfold Qceiling. pose proof (Qlt_floor (- x)) as H. rewrite inject_Z_opp.
  rewrite inject_Z_plus in H. change (inject_Z 1) with 1 in H. lra.
Qed.

Lemma Qceiling_lt x (n : Z) : inject_Z n < x -> (n < Qceiling x)%Z.
Proof. intros H1. pose proof (Qle_ceiling x). rewrite Zlt_Qlt. lra. Qed.

(** ** The database

    The live hashes with their deadlines (in milliseconds), and the clock (in
    microseconds); [tick] lets time pass. *)
Abbreviation hash := (gmap string string).

Class Redis (D : Type) : Type := {
  now_us : D -> Z;
  view : D -> string -> option (hash * option Z);
  hset : string -> list (string * string) -> D -> D;
  pexpire : string -> Z -> D -> D;
  del : string -> D -> Z * D;
  tick : Z -> D -> D;
}.

Local Open Scope Z_scope.

(** The server's clock in milliseconds. *)
Definition clock_ms {D} `{!Redis D} (d : D) : Z := now_us d `div` 1000.

Definition fields {D} `{!Redis D} (d : D) (key : string) : hash :=
  match view d key with Some (h, _) => h | None => ∅ end.

(** One field of [HMGET]: nil ([None]) if the key or the field is missing. *)
Definition hmget {D} `{!Redis D} (d : D) (key field : string) : option string := fields d key !! field.

Class RedisOk (D : Type) `{!Redis D} : Prop := {
  hset_now : forall k fs d, now_us (hset k fs d) = now_us d;
  hset_view : forall k fs d k',
    view (hset k fs d) k' =
      if decide (k' = k)
      then Some (list_to_map (rev fs) ∪ fields d k,
                 match view d k with Some (_, dl) => dl | None => None end)
      else view d k';
  pexpire_now : forall k ms d, now_us (pexpire k ms d) = now_us d;
  pexpire_view : forall k ms d k',
    view (pexpire k ms d) k' =
      if decide (k' = k)
      then match view d k with
           | Some (h, _) => if 0 <? ms then Some (h, Some (clock_ms d + ms)) else None
           | None => None
           end
      else view d k';
  del_now : forall k d, now_us (del k d).2 = now_us d;
  del_view : forall k d k', view (del k d).2 k' = if decide (k' = k) then None else view d k';
  del_count : forall k d, (del k d).1 = if decide (view d k = None) then 0 else 1;
  tick_now : forall t d, 0 <= t -> now_us (tick t d) = now_us d + t;
  tick_kept : forall t d k, 0 <= t ->
    match view d k with
    | Some (_, Some dl) => clock_ms (tick t d) < dl
    | _ => True
    end -> view (tick t d) k = view d k;
  tick_gone : forall t d k, 0 <= t -> view (tick t d) k = view d k \/ view (tick t d) k = None;
}.

(** ** Evaluation of scripts *)

(** Go's [any], as far as script arguments and replies use it. *)
#[warnings="-register-all"]
Inductive any : Type :=
| AInt (n : Z)
| AFloat (x : Q)
| AStr (s : string)
| ABytes (s : string)
| AList (l : list any)
| ANil.

(** What a script does to the database when the server runs it. *)
Definition script (D : Type) : Type := list string -> list any -> D -> any * D.

(** The [Evaluator] interface of the rate limiter and the idempotency store. *)
Record Evaluator (W D : Type) : Type := mkEvaluator {
  Eval : context.Ctx -> script D -> list string -> list any -> M W (error + any);
}.
Arguments mkEvaluator {W D} _.
Arguments Eval {W D} _ _ _ _ _.

(** What other clients and the passing of time do to a key this client owns:
    nothing, except that it may expire. *)
Record environment {D} `{!Redis D} (key : string) (d d' : D) : Prop := {
  env_now : now_us d <= now_us d';
  env_view : view d' key = view d key \/
    (view d' key = None /\
     exists h dl, view d key = Some (h, Some dl) /\ dl <= clock_ms d');
}.

Lemma environment_refl {D} `{!Redis D} key (d : D) : environment key d d.
Proof. split; [lia|by left]. Qed.

Lemma clock_ms_mono {D} `{!Redis D} (d d' : D) : now_us d <= now_us d' -> clock_ms d <= clock_ms d'.
Proof. intros H. unfold clock_ms. apply Z.div_le_mono; lia. Qed.

(** The server's clock is after 1970 and its milliseconds fit in 53 bits. *)
Definition time_ok {D} `{!Redis D} (d : D) : Prop := (0 <= now_us d /\ clock_ms d <= 2 ^ 53)%Z.

(** What the callers rely on: the server runs a script atomically at some later
    moment, and then the call returns its reply; a call that fails may or may not
    have run the script. *)
Class EvaluatorOk {W D} {RD : Redis D} (e : Evaluator W D) (db : ref W D) : Prop :=
  eval_atomic : forall ctx s key args w,
    wp (Eval e ctx s [key] args)
      (fun r w' => exists d1, environment key (ref_get db w) d1 /\ time_ok d1 /\
         match r with
         | inr v => s [key] args d1 = (v, ref_get db w')
         | inl _ => ref_get db w' = d1 \/ ref_get db w' = (s [key] args d1).2
         end)
      (fun _ => False) w.

(** Time alone is such an environment. *)
Lemma tick_environment {D} `{!Redis D, !RedisOk D} key t (d : D) : 0 <= t -> environment key d (tick t d).
Proof.
  intros Ht. pose proof (tick_now t d Ht). split; [lia|].
  pose proof (tick_kept t d key Ht) as Hkept. pose proof (tick_gone t d key Ht) as Hgone.
  destruct (view d key) as [[h [dl|]]|]; [|left; by apply Hkept..].
  destruct (decide (clock_ms (tick t d) < dl)) as [Hlt|Hge]; [left; by apply Hkept|].
  destruct Hgone as [Hg|Hg]; [by left|right].
  split; [done|]. exists h, dl. split; [done|lia].
Qed.

Lemma hmget_hset {D} `{!Redis D, !RedisOk D} k fs (d : D) k' f :
  hmget (hset k fs d) k' f =
    if decide (k' = k) then
      match (list_to_map (rev fs) : hash) !! f with Some v => Some v | None => hmget d k f end
    else hmget d k' f.
Proof.
  unfold hmget, fields. rewrite hset_view. destruct (decide (k' = k)) as [->|]; [|done].
  rewrite lookup_union. unfold fields. destruct (list_to_map _ !! f) as [v|]; simpl;
    by destruct (match view d k with _ => _ end !! f).
Qed.

(** ** A database

    A clock and a finite map of hashes with deadlines. *)
Record db : Type := mkDb {
  db_now : Z;
  db_data : gmap string (hash * option Z);
}.

Definition db_live (now : Z) (e : hash * option Z) : bool :=
  match e.2 with
  | Some dl => now `div` 1000 <? dl
  | None => true
  end.

Definition db_view (d : db) (k : string) : option (hash * option Z) :=
  match db_data d !! k with
  | Some e => if db_live (db_now d) e then Some e else None
  | None => None
  end.

#[global] Instance db_redis : Redis db := {
  now_us := db_now;
  view := db_view;
  hset k fs d :=
    mkDb (db_now d) (<[k := match db_view d k with
                            | Some (h, dl) => (list_to_map (rev fs) ∪ h, dl)
                            | None => (list_to_map (rev fs), None)
                            end]> (db_data d));
  pexpire k ms d :=
    mkDb (db_now d) (match db_view d k with
                     | Some (h, _) =>
                         if 0 <? ms then <[k := (h, Some (db_now d `div` 1000 + ms))]> (db_data d)
                         else delete k (db_data d)
                     | None => delete k (db_data d)
                     end);
  del k d :=
    (if decide (db_view d k = None) then 0 else 1, mkDb (db_now d) (delete k (db_data d)));
  tick t d := mkDb (db_now d + t) (db_data d);
}.

Lemma db_view_live d k h dl : db_view d k = Some (h, dl) -> db_live (db_now d) (h, dl) = true.
Proof.
  unfold db_view. destruct (db_data d !! k) as [e|]; [|done].
  destruct (db_live (db_now d) e) eqn:E; [|done]. by intros [= ->].
Qed.

#[global] Instance db_redis_ok : RedisOk db.
Proof.
  split; try done.
  - intros k fs d k'. simpl. unfold db_view at 1. simpl. destruct (decide (k' = k)) as [->|].
    + rewrite lookup_insert_eq. unfold fields. simpl.
      destruct (db_view d k) as [[h dl]|] eqn:E; [|by rewrite (right_id_L ∅ (∪))].
      apply db_view_live in E. unfold db_live in *. simpl in *. by rewrite E.
    + by rewrite lookup_insert_ne.
  - intros k ms d k'. simpl. unfold db_view at 1. simpl. destruct (decide (k' = k)) as [->|].
    + destruct (db_view d k) as [[h dl]|]; [|by rewrite lookup_delete_eq].
      destruct (Z.ltb_spec 0 ms); [|by rewrite lookup_delete_eq].
      rewrite lookup_insert_eq. unfold db_live, clock_ms. simpl.
      by rewrite (proj2 (Z.ltb_lt _ _)) by lia.
    + destruct (db_view d k) as [[h dl]|]; [destruct (0 <? ms)|];
        by rewrite ?lookup_insert_ne, ?lookup_delete_ne.
  - intros k d k'. simpl. unfold db_view at 1. simpl. destruct (decide (k' = k)) as [->|].
    + by rewrite lookup_delete_eq.
    + by rewrite lookup_delete_ne.
  - intros t d k Ht. simpl. unfold db_view. simpl. destruct (db_data d !! k) as [[h [dl|]]|]; try done.
    unfold db_live, clock_ms. simpl. destruct (Z.ltb_spec (db_now d `div` 1000) dl) as [H|H].
    + intros Hdl. by rewrite (proj2 (Z.ltb_lt _ _)).
    + intros _. pose proof (Z.div_le_mono (db_now d) (db_now d + t) 1000).
      rewrite (proj2 (Z.ltb_ge _ _)); [done|lia].
  - intros t d k Ht. simpl. unfold db_view. simpl. destruct (db_data d !! k) as [[h [dl|]]|]; auto.
    pose proof (Z.div_le_mono (db_now d) (db_now d + t) 1000). unfold db_live. simpl.
    destruct (Z.ltb_spec ((db_now d + t) `div` 1000) dl), (Z.ltb_spec (db_now d `div` 1000) dl); auto; lia.
Qed.

(** Exact arithmetic is an instance of correct rounding. *)
Definition exact_rounding : Rounding := fun x => x.

Lemma exact_rounding_ok : @RoundingOk exact_rounding.
Proof.
  split; unfold rnd, exact_rounding; [done|done|]. intros x Hx _.
  assert (0 < tiny)%Q by done. assert (0 < ulp)%Q by done. split; nra.
Qed.

(** A new server, at [t] milliseconds. *)
Definition fresh (t : Z) : db := mkDb (t * 1000) ∅.

Lemma time_ok_fresh t : 0 <= t <= 2 ^ 53 -> time_ok (fresh t).
Proof. intros H. unfold time_ok, clock_ms. simpl. rewrite Z.div_mul by lia. lia. Qed.

(** A client that waits for the server's reply; the database is the world. *)
Definition direct : Evaluator db db :=
  mkEvaluator (fun _ s keys args d =>
    if decide (time_ok d) then let '(v, d') := s keys args d in Ret (inr v) d' else Block d).

Definition whole : ref db db := mkRef id (fun d _ => d).

Lemma direct_ok : EvaluatorOk direct whole.
Proof.
  intros ctx s key args d. unfold wp. simpl. destruct (decide (time_ok d)); [|done].
  destruct (s [key] args d) as [v d'] eqn:E. exists d. split; [apply environment_refl|done].
Qed.

End redis.
