(* ===== verification/RateLimit.v ===== *)
(** * The Redis token bucket (internal/ratelimit/redis.go)

    The Lua script that keeps one token bucket per client, and the limiter that
    calls it. *)

From stdpp Require Import base gmap list strings.
From Stdlib Require Import ZArith Ascii QArith Qabs Qround Qminmax Lqa Lia.
From S2P Require Import Prelude Types GoStrings Context Codec Redis.

Local Open Scope Z_scope.
Local Open Scope go_scope.

Module ratelimit.

Import redis.

(** Conversion of Lua numbers to the strings that Redis stores, and back. *)
Class LuaStrings : Type := {
  tostring : Q -> string;
  tonumber : string -> option Q;
}.

Definition is_number `{!Rounding} (x : Q) : Prop := exists y, x = rnd y.

(** Redis writes numbers with 17 significant digits, from which they are read
    back unchanged. *)
Class LuaStringsOk {R : Rounding} {S : LuaStrings} : Prop :=
  tonumber_tostring : forall x, is_number x -> tonumber (tostring x) = Some x.

Section script.
Context `{!Rounding, !LuaStrings} {D : Type} `{!Redis D}.

(** [tonumber(ARGV[i])] *)
Definition number_of (a : any) : option Q :=
  match a with
  | AInt n => Some (rnd (inject_Z n))
  | AFloat x => Some x
  | AStr s => tonumber s
  | _ => None
  end.

Definition lfloor (x : Q) : Q := inject_Z (Qfloor x).
Definition lceil (x : Q) : Q := inject_Z (Qceiling x).

(** The current time in milliseconds, from the seconds and microseconds of
    [TIME]. *)
Definition script_now (d : D) : Q :=
  let sec := rnd (inject_Z (now_us d `div` 1000000)) in
  let usec := rnd (inject_Z (now_us d `mod` 1000000)) in
  ladd (lmul sec 1000) (lfloor (ldiv usec 1000)).

(** [tonumber(state[i]) or v] *)
Definition stored (d : D) (key field : string) (v : Q) : Q :=
  match hmget d key field with
  | Some s => match tonumber s with Some x => x | None => v end
  | None => v
  end.

(** The tokens in the bucket at the time of the call. *)
Definition refill (rate_per_ms capacity : Q) (key : string) (d : D) : Q :=
  let now_ms := script_now d in
  let tokens := stored d key "tokens" capacity in
  let timestamp_ms := stored d key "timestamp_ms" now_ms in
  let elapsed := Qmax 0 (lsub now_ms timestamp_ms) in
  Qmin capacity (ladd tokens (lmul elapsed rate_per_ms)).

Definition tokenBucket (rate_per_ms capacity requested : Q) (key : string) (d : D)
  : (Z * Z * Z) * D :=
  let now_ms := script_now d in
  let tokens := refill rate_per_ms capacity key d in
  let '(tokens, allowed, retry_after_ms) :=
    if Qle_bool requested tokens then (lsub tokens requested, 1, 0%Q)
    else (tokens, 0, lceil (ldiv (lsub requested tokens) rate_per_ms)) in
  let d := hset key [("tokens", tostring tokens); ("timestamp_ms", tostring now_ms)] d in
  let fill_time_ms := lceil (ldiv capacity rate_per_ms) in
  let d := pexpire key (Qfloor (Qmax 1000 (lmul fill_time_ms 2))) d in
  ((allowed, Qfloor tokens, Qfloor retry_after_ms), d).

(** The script, on its keys and arguments. Arguments that are not numbers make
    it fail. *)
Definition tokenBucketScript : script D := fun keys args d =>
  match keys, args with
  | [key], [a1; a2; a3] =>
      match number_of a1, number_of a2, number_of a3 with
      | Some rate_per_ms, Some capacity, Some requested =>
          let '((allowed, remaining, retry), d) := tokenBucket rate_per_ms capacity requested key d in
          (AList [AInt allowed; AInt remaining; AInt retry], d)
      | _, _, _ => (ANil, d)
      end
  | _, _ => (ANil, d)
  end.

End script.

(** ** The limiter *)

(** [evaluator], [rpm] and [burst]. *)
Record RedisLimiter (W D : Type) : Type := mkRedisLimiter {
  evaluator : Evaluator W D;
  rpm : Z;
  burst : Z;
}.
Arguments mkRedisLimiter {W D} _ _ _.
Arguments evaluator {W D} _.
Arguments rpm {W D} _.
Arguments burst {W D} _.

(** The [Limiter] interface. *)
Record Limiter (W : Type) : Type := mkLimiter {
  limiter_Allow : context.Ctx -> string -> M W (Decision * option error);
}.
Arguments mkLimiter {W} _.
Arguments limiter_Allow {W} _ _ _.

Definition NewRedisLimiter {W D} (evaluator : option (Evaluator W D)) (requestsPerMinute burst : Z)
  : string + RedisLimiter W D :=
  match evaluator with
  | None => inl "rate limiter evaluator is required"
  | Some e =>
      if (requestsPerMinute <=? 0) || (burst <=? 0)
      then inl "rate limiter rpm and burst must be positive"
      else inr (mkRedisLimiter e requestsPerMinute burst)
  end.

Definition integer (value : any) : error + Z :=
  let bad := inl (EText "token bucket returned a non-integer value") in
  match value with
  | AInt n => inr n
  | AStr s | ABytes s => match ParseInt s with Some n => inr n | None => bad end
  | _ => bad
  end.

(** [float64(rpm) / float64(time.Minute/time.Millisecond)] *)
Definition ratePerMillisecond `{!Rounding} (rpm : Z) : Q := ldiv (rnd (inject_Z rpm)) 60000.

Definition limiter_key `{!codec.Sha256} (identity : string) : string :=
  "modelgate:ratelimit:" +:+ codec.hex_digest identity.

(** The decision that the reply of the script stands for. *)
Definition decode_reply (burst : Z) (result : any) : Decision * option error :=
  match result with
  | AList [v0; v1; v2] =>
      match integer v0 with
      | inl e => (zeroDecision, Some e)
      | inr allowed =>
          match integer v1 with
          | inl e => (zeroDecision, Some e)
          | inr remaining =>
              match integer v2 with
              | inl e => (zeroDecision, Some e)
              | inr retryMilliseconds =>
                  (mkDecision (allowed =? 1) burst remaining
                     (wrap64 (retryMilliseconds * millisecond)), None)
              end
          end
      end
  | _ => (zeroDecision, Some (EText "token bucket returned an invalid result"))
  end.

Definition Allow `{!Rounding, !LuaStrings, !codec.Sha256} {W D} `{!Redis D} (l : RedisLimiter W D)
    (ctx : context.Ctx) (identity : string) : M W (Decision * option error) :=
  let key := limiter_key identity in
  let! result := Eval (evaluator l) ctx tokenBucketScript [key]
                   [AFloat (ratePerMillisecond (rpm l)); AInt (burst l); AInt 1] in
  match result with
  | inl err => ret (zeroDecision, Some (EWrap "evaluate token bucket" err))
  | inr result => ret (decode_reply (burst l) result)
  end.

Definition redisLimiter `{!Rounding, !LuaStrings, !codec.Sha256} {W D} `{!Redis D}
    (l : RedisLimiter W D) : Limiter W := mkLimiter (Allow l).

(** ** Specification *)

Section bucket.
Context {R : Rounding} {ROk : RoundingOk} {LS : LuaStrings} {LSOk : LuaStringsOk}.
Context {D : Type} {RD : Redis D} {RDOk : RedisOk D}.
Context (rate capacity : Q) (key : string).

Local Open Scope Q_scope.

(** The parameters of a bucket: the rate is that of between one request per
    minute and [2^53] requests per minute, up to rounding; the capacity is an
    integer. *)
Record bucket_params : Prop := {
  rate_low : 1 # 65536 <= rate;
  rate_high : rate <= inject_Z (2 ^ 40);
  capacity_number : is_number capacity;
  capacity_int : exists n : Z, (1 <= n <= 2 ^ 53)%Z /\ capacity == inject_Z n;
}.

(** The time to live that the script sets. *)
Definition bucket_ttl : Z := Qfloor (Qmax 1000 (lmul (lceil (ldiv capacity rate)) 2)).

(** The database holds a bucket with [tokens] tokens, last updated at [ts]. *)
Record holds (d : D) (tokens : Q) (ts : Z) : Prop := {
  holds_view : exists h, view d key = Some (h, Some (ts + bucket_ttl)%Z) /\
    h !! "tokens" = Some (tostring tokens) /\
    exists t, h !! "timestamp_ms" = Some (tostring t) /\ is_number t /\ t == inject_Z ts;
  holds_number : is_number tokens;
  holds_tokens : 0 <= tokens <= capacity;
  holds_time : (0 <= ts <= clock_ms d)%Z;
}.

Context (Hp : bucket_params).

(** The milliseconds of a number of microseconds below one second. *)
Lemma floor_thousandth (m : Z) :
  (0 <= m < 1000000)%Z -> Qfloor (ldiv (rnd (inject_Z m)) 1000) = (m / 1000)%Z.
Proof using ROk.
  intros Hm0. assert (Hr : ldiv (rnd (inject_Z m)) 1000 == rnd (inject_Z m / 1000)).
  { unfold ldiv. symmetry. apply rnd_eq.
    - unfold in_scale. assert (inject_Z m / 1000 <= inject_Z m).
      { apply Qle_shift_div_r; [done|]. change 1000 with (inject_Z 1000).
        rewrite <- inject_Z_mult, <- Zle_Qle. lia. }
      assert (0 <= inject_Z m / 1000).
      { apply Qle_shift_div_l; [done|]. change 0 with (inject_Z 0). change 1000 with (inject_Z 1000).
        rewrite <- inject_Z_mult, <- Zle_Qle. lia. }
      pose proof (int_in_scale m ltac:(lia)) as [_ ?]. assert (0 <= huge) by done. lra.
    - by rewrite (rnd_int m ltac:(lia)). }
  rewrite Hr.
  pose proof (Z.div_mod m 1000 ltac:(lia)) as Hm. pose proof (Z.mod_pos_bound m 1000 ltac:(lia)).
  assert (Hlow : inject_Z (m / 1000) <= inject_Z m / 1000).
  { apply Qle_shift_div_l; [done|]. change 1000 with (inject_Z 1000).
    rewrite <- inject_Z_mult, <- Zle_Qle. lia. }
  assert (Hhigh : inject_Z m / 1000 <= inject_Z (m / 1000) + (999 # 1000)).
  { apply Qle_shift_div_r; [done|]. rewrite Qmult_plus_distr_l.
    change ((999 # 1000) * 1000) with (inject_Z 999000 * / inject_Z 1000).
    assert (inject_Z 999000 * / inject_Z 1000 == inject_Z 999) as -> by done.
    change 1000 with (inject_Z 1000). rewrite <- inject_Z_mult, <- inject_Z_plus, <- Zle_Qle. lia. }
  assert (Hb : inject_Z (m / 1000) <= 1000).
  { change 1000 with (inject_Z 1000). rewrite <- Zle_Qle. apply Z.div_le_upper_bound; lia. }
  assert (H00 : 0 <= inject_Z (m / 1000)) by (change 0 with (inject_Z 0); rewrite <- Zle_Qle; lia).
  assert (Hhuge : 1001 <= huge) by done.
  apply Qfloor_unique.
  - apply rnd_ge_int; [|unfold in_scale; lra|done].
    rewrite Z.abs_eq by lia. assert (m / 1000 <= 1000)%Z; [|lia]. apply Z.div_le_upper_bound; lia.
  - pose proof (rnd_upper (inject_Z m / 1000) ltac:(lra) ltac:(lra)) as Hu.
    assert (ulp * (inject_Z m / 1000) <= ulp * 1001) by (apply Qmult_le_l; [done|lra]).
    assert (ulp * 1001 + 2 * tiny < 1 # 1000) by done.
    rewrite inject_Z_plus. change (inject_Z 1) with 1. lra.
Qed.

Lemma script_now_spec d : time_ok d -> script_now d == inject_Z (clock_ms d).
Proof using ROk.
  intros [H0 H1]. unfold script_now, clock_ms in *.
  set (us := now_us d) in *.
  assert (Hus : (us = 1000000 * (us / 1000000) + us mod 1000000)%Z) by (apply Z.div_mod; lia).
  assert (Hms : (us / 1000 = us / 1000000 * 1000 + us mod 1000000 / 1000)%Z).
  { rewrite Hus at 1. replace (1000000 * (us / 1000000))%Z with (us / 1000000 * 1000 * 1000)%Z by lia.
    rewrite Z.div_add_l by lia. done. }
  pose proof (Z.mod_pos_bound us 1000000 ltac:(lia)).
  pose proof (Z.div_pos us 1000000 H0 ltac:(lia)).
  pose proof (Z.div_pos (us mod 1000000) 1000 ltac:(lia) ltac:(lia)).
  set (m := (us mod 1000000)%Z) in *. set (s := (us / 1000000)%Z) in *.
  pose proof (floor_thousandth m ltac:(lia)) as Hfl.
  assert (Hs : lmul (rnd (inject_Z s)) 1000 == inject_Z (s * 1000)).
  { apply lmul_int; [by apply rnd_int; lia|done|lia]. }
  unfold lfloor. rewrite Hfl, Hms. apply ladd_int; [done|done|lia].
Qed.

Lemma capacity_bounds : 1 <= capacity <= inject_Z (2 ^ 53).
Proof using Hp.
  destruct (capacity_int Hp) as (n & Hn & ->). change 1 with (inject_Z 1). rewrite <- !Zle_Qle. lia.
Qed.

Lemma rate_pos : 0 < rate.
Proof using Hp. pose proof (rate_low Hp). lra. Qed.

Lemma capacity_exact x : in_scale x -> x == capacity -> rnd x == capacity.
Proof using Hp ROk.
  intros Hx Heq. destruct (capacity_int Hp) as (n & Hn & Hc). rewrite Hc in *.
  rewrite (rnd_eq x (inject_Z n)), rnd_int by (done || lia). done.
Qed.

(** The exact amount of an elapsed time. *)
Definition accrued (e : Z) : Q := inject_Z e * rate.

Lemma accrued_bounds e : (0 <= e <= 2 ^ 53)%Z -> 0 <= accrued e <= inject_Z (2 ^ 93).
Proof using Hp.
  intros He. pose proof rate_pos. pose proof (rate_high Hp). unfold accrued.
  assert (0 <= inject_Z e <= inject_Z (2 ^ 53)).
  { change 0 with (inject_Z 0). rewrite <- !Zle_Qle. lia. }
  split; [apply Qmult_le_0_compat; lra|].
  replace (inject_Z (2 ^ 93)) with (inject_Z (2 ^ 53 * 2 ^ 40)) by done. rewrite inject_Z_mult.
  apply Qle_trans with (inject_Z (2 ^ 53) * rate); [apply Qmult_le_compat_r; lra|].
  apply Qmult_le_l; [done|lra].
Qed.

Lemma stored_hold d T ts v :
  holds d T ts -> stored d key "tokens" v = T /\ stored d key "timestamp_ms" v == inject_Z ts.
Proof using LSOk.
  intros [(h & Hv & Ht & t & Hts & Hn & Heq) HnT _ _].
  unfold stored, hmget, fields. rewrite Hv, Ht, Hts, !tonumber_tostring by done. done.
Qed.

(** The bucket after a time [clock - ts], with the rounding of each operation. *)
Lemma refill_hold d T ts :
  time_ok d -> holds d T ts ->
  exists y, y == accrued (clock_ms d - ts) /\ refill rate capacity key d = Qmin capacity (ladd T (rnd y)).
Proof using ROk LSOk.
  intros Htime Hh. pose proof (script_now_spec d Htime) as Hnow. destruct Htime as [Ht0 Ht1].
  destruct (stored_hold d T ts capacity Hh) as [HT _].
  destruct (stored_hold d T ts (script_now d) Hh) as [_ Hts].
  destruct Hh as [_ _ _ Htm]. unfold refill. rewrite HT.
  eexists. split; [|reflexivity]. unfold accrued.
  assert (Hsub : lsub (script_now d) (stored d key "timestamp_ms" (script_now d)) ==
    inject_Z (clock_ms d - ts)) by (apply lsub_int; [done|done|lia]).
  rewrite Hsub, Q.max_r; [done|]. change 0 with (inject_Z 0). rewrite <- Zle_Qle. lia.
Qed.

Lemma refill_fresh d : time_ok d -> view d key = None -> refill rate capacity key d == capacity.
Proof using Hp ROk.
  intros Htime Hv. pose proof (script_now_spec d Htime) as Hnow.
  unfold refill, stored, hmget, fields. rewrite Hv, !lookup_empty.
  pose proof capacity_bounds as [Hc0 Hc1]. assert (inject_Z (2 ^ 53) <= huge) by done.
  assert (Hsub : lsub (script_now d) (script_now d) == 0).
  { rewrite (lsub_int (clock_ms d) (clock_ms d) _ _ Hnow Hnow); rewrite Z.sub_diag; done. }
  assert (Hz : lmul (Qmax 0 (lsub (script_now d) (script_now d))) rate == 0).
  { unfold lmul. rewrite (rnd_eq _ (inject_Z 0)); [by rewrite rnd_int| |].
    - unfold in_scale. rewrite Hsub, Q.max_id, Qmult_0_l. done.
    - rewrite Hsub, Q.max_id. apply Qmult_0_l. }
  assert (Ha : ladd capacity (lmul (Qmax 0 (lsub (script_now d) (script_now d))) rate) == capacity).
  { unfold ladd. apply capacity_exact; [unfold in_scale|]; rewrite Hz; lra. }
  rewrite Ha. apply Q.min_id.
Qed.

(** The rounding error of one call. *)
Definition slack : Q := 8 * (ulp * capacity).

Lemma refill_range d T ts : time_ok d -> holds d T ts -> 0 <= refill rate capacity key d <= capacity.
Proof using Hp ROk LSOk.
  intros Htime Hh. destruct (refill_hold d T ts Htime Hh) as (y & Hy & ->).
  pose proof (holds_tokens d T ts Hh). pose proof capacity_bounds as [Hc0 Hc1].
  destruct Htime as [Ht0 Ht1]. pose proof (holds_time d T ts Hh).
  assert (He : (0 <= clock_ms d - ts <= 2 ^ 53)%Z) by lia.
  pose proof (accrued_bounds _ He) as [Ha0 Ha1].
  assert (inject_Z (2 ^ 93) <= huge - inject_Z (2 ^ 54)) by done.
  assert (inject_Z (2 ^ 54) == 2 * inject_Z (2 ^ 53)) by done.
  pose proof (rnd_nonneg y ltac:(lra) ltac:(lra)) as Hr0.
  pose proof (rnd_upper y ltac:(lra) ltac:(lra)) as Hr1.
  assert (ulp * y <= 1 * inject_Z (2 ^ 40)).
  { rewrite Hy. apply Qle_trans with (ulp * inject_Z (2 ^ 93)); [apply Qmult_le_l; [done|lra]|done]. }
  assert (2 * tiny <= 1) by done. assert (inject_Z (2 ^ 40) + 1 <= inject_Z (2 ^ 53)) by done.
  split; [|apply Q.le_min_l].
  apply Q.min_glb; [lra|]. unfold ladd. apply rnd_nonneg; lra.
Qed.

Lemma ulp_le x y : x <= y -> ulp * x <= ulp * y.
Proof using Type. intros H. by apply Qmult_le_l. Qed.

Lemma slack_tiny : 100 * tiny <= ulp * capacity.
Proof using Hp.
  apply Qle_trans with (ulp * 1); [done|]. apply ulp_le. apply capacity_bounds.
Qed.

(** The refill never exceeds what accrued by more than the slack. *)
Lemma refill_upper d T ts :
  time_ok d -> holds d T ts ->
  refill rate capacity key d <= T + accrued (clock_ms d - ts) + 5 * (ulp * capacity).
Proof using Hp ROk LSOk.
  intros Htime Hh. destruct (refill_hold d T ts Htime Hh) as (y & Hy & ->).
  destruct (holds_tokens d T ts Hh) as [HT0 HT1]. pose proof capacity_bounds as [Hc0 Hc1].
  destruct Htime as [Ht0 Ht1]. pose proof (holds_time d T ts Hh).
  assert (He : (0 <= clock_ms d - ts <= 2 ^ 53)%Z) by lia.
  pose proof (accrued_bounds _ He) as [Ha0 Ha1]. rewrite <- Hy in *.
  pose proof slack_tiny. pose proof tiny_pos. assert (0 <= ulp * capacity) by lra.
  destruct (Qlt_le_dec y capacity) as [Hlt|Hge].
  - assert (Hhuge : 4 * inject_Z (2 ^ 53) <= huge) by done.
    pose proof (rnd_nonneg y ltac:(lra) ltac:(lra)) as Hr0.
    pose proof (rnd_upper y ltac:(lra) ltac:(lra)) as Hr1.
    pose proof (ulp_le y capacity ltac:(lra)).
    assert (ulp * capacity <= (1 # 2) * capacity) by (apply Qmult_le_compat_r; [done|lra]).
    assert (Hs0 : 0 <= T + rnd y) by lra. assert (Hs1 : T + rnd y <= 3 * capacity) by lra.
    assert (Hs2 : T + rnd y <= huge) by lra.
    pose proof (rnd_upper _ Hs0 Hs2) as Hr2. pose proof (ulp_le _ _ Hs1) as Hu.
    assert (ulp * (3 * capacity) == 3 * (ulp * capacity)) as Hu2 by ring. rewrite Hu2 in Hu.
    apply Qle_trans with (ladd T (rnd y)); [apply Q.le_min_r|]. unfold ladd. lra.
  - apply Qle_trans with capacity; [apply Q.le_min_l|]. lra.
Qed.

(** *** Expiry *)

Lemma fill_time_bounds : 0 < capacity / rate /\ capacity / rate <= inject_Z (2 ^ 69).
Proof using Hp.
  pose proof rate_pos as Hr. pose proof (rate_low Hp) as Hl. pose proof capacity_bounds as [Hc0 Hc1]. split.
  - apply Qlt_shift_div_l; lra.
  - apply Qle_shift_div_r; [done|]. apply Qle_trans with (inject_Z (2 ^ 69) * (1 # 65536)).
    + assert (inject_Z (2 ^ 53) <= inject_Z (2 ^ 69) * (1 # 65536)) by done. lra.
    + apply Qmult_le_l; [done|lra].
Qed.

Lemma ttl_large : (1000 <= bucket_ttl)%Z.
Proof using Type.
  unfold bucket_ttl. change 1000%Z with (Qfloor 1000). apply Qfloor_resp_le, Q.le_max_l.
Qed.

(** A bucket lives at least as long as it takes to fill it. *)
Lemma ttl_covers : capacity / rate <= inject_Z bucket_ttl.
Proof using Hp ROk.
  pose proof fill_time_bounds as [Hq0 Hq1]. pose proof ttl_large as Ht.
  destruct (Qlt_le_dec (capacity / rate) 999) as [Hlt|Hge].
  - assert (999 <= inject_Z bucket_ttl) by (change 999 with (inject_Z 999); rewrite <- Zle_Qle; lia). lra.
  - unfold bucket_ttl. set (q := capacity / rate) in *. unfold ldiv. fold q.
    assert (Hh : inject_Z (2 ^ 69) * 4 + 8 <= huge) by done.
    assert (Hqh : q <= huge) by lra. assert (Hq0' : 0 <= q) by lra.
    pose proof (rnd_lower q Hq0' Hqh) as Hr. pose proof (rnd_upper q Hq0' Hqh) as Hr'.
    assert (Hu : ulp * q <= (1 # 16) * q) by (apply Qmult_le_compat_r; [done|lra]).
    assert (2 * tiny <= 1) by done. pose proof tiny_pos.
    pose proof (Qle_ceiling (rnd q)) as Hc.
    pose proof (Qceiling_lt_succ (rnd q)) as Hc'.
    set (c := inject_Z (Qceiling (rnd q))) in *.
    unfold lmul, lceil. fold c.
    assert (Hs0 : 0 <= c * 2) by lra. assert (Hs1 : c * 2 <= huge) by lra.
    pose proof (rnd_lower (c * 2) Hs0 Hs1) as Hr2.
    assert (Hu2 : ulp * (c * 2) <= (1 # 16) * (c * 2)) by (apply Qmult_le_compat_r; [done|lra]).
    pose proof (Q.le_max_r 1000 (rnd (c * 2))) as Hm.
    pose proof (Qlt_floor (Qmax 1000 (rnd (c * 2)))) as Hf. rewrite inject_Z_plus in Hf.
    change (inject_Z 1) with 1 in Hf. lra.
Qed.

(** When a bucket can have expired, it would be full again. *)
Lemma expired_full ts now : (ts + bucket_ttl <= now)%Z -> capacity <= accrued (now - ts).
Proof using Hp ROk.
  intros H. pose proof ttl_covers as Ht. pose proof rate_pos as Hr. unfold accrued.
  assert (Hle : inject_Z bucket_ttl <= inject_Z (now - ts)) by (rewrite <- Zle_Qle; lia).
  assert (Heq : capacity == capacity / rate * rate) by (field; lra).
  rewrite Heq. apply Qmult_le_compat_r; lra.
Qed.

(** *** One call *)

Context (requested : Q) (Hreq : requested == 1).

(** The state before a call: no bucket, or a bucket that was not updated in the
    future. *)
Definition bucket_state (d : D) : Prop :=
  view d key = None \/ exists tokens ts, holds d tokens ts.

Lemma refill_number d : is_number (refill rate capacity key d).
Proof using Hp.
  unfold refill. destruct (Q.min_spec_le capacity
    (ladd (stored d key "tokens" capacity)
       (lmul (Qmax 0 (lsub (script_now d) (stored d key "timestamp_ms" (script_now d)))) rate))) as [_|_].
  all: unfold Qmin, GenericMinMax.gmin; destruct (_ ?= _); first [apply (capacity_number Hp) | by eexists].
Qed.

Lemma refill_state d : time_ok d -> bucket_state d -> 0 <= refill rate capacity key d <= capacity.
Proof using Hp ROk LSOk.
  intros Ht [Hv|(T & ts & Hh)]; [|by eapply refill_range].
  rewrite (refill_fresh d Ht Hv). pose proof capacity_bounds. lra.
Qed.

(** What a call does: it takes a token if there is one, reports the tokens left
    or the time to wait, and leaves a bucket that was updated now. *)
Record call_spec (d : D) (reply : Z * Z * Z) (d' : D) : Prop := {
  call_now : now_us d' = now_us d;
  call_frame : forall k, k <> key -> view d' k = view d k;
  call_effect :
    let t := refill rate capacity key d in
    (1 <= t /\ exists tokens, reply = (1%Z, Qfloor tokens, 0%Z) /\ tokens = lsub t requested /\
       0 <= tokens <= capacity - 1 /\ holds d' tokens (clock_ms d)) \/
    (t < 1 /\ exists retry, reply = (0%Z, 0%Z, retry) /\
       retry = Qceiling (ldiv (lsub requested t) rate) /\ holds d' t (clock_ms d));
}.

Lemma stored_bucket d tokens :
  time_ok d -> is_number tokens -> 0 <= tokens <= capacity ->
  holds (pexpire key bucket_ttl
    (hset key [("tokens", tostring tokens); ("timestamp_ms", tostring (script_now d))] d)) tokens (clock_ms d).
Proof using ROk RDOk.
  intros Htime Hn Ht. pose proof ttl_large.
  assert (Hc : clock_ms (hset key [("tokens", tostring tokens); ("timestamp_ms", tostring (script_now d))] d)
    = clock_ms d) by (unfold clock_ms; by rewrite hset_now).
  split; [|done|done|].
  - eexists. rewrite pexpire_view, decide_True, hset_view, decide_True by done.
    rewrite (proj2 (Z.ltb_lt _ _)) by lia. rewrite Hc. split; [done|]. split.
    + rewrite lookup_union. change (list_to_map _ !! "tokens") with (Some (tostring tokens)).
      by destruct (fields d key !! "tokens").
    + exists (script_now d). split_and!; [|by eexists|by apply script_now_spec].
      rewrite lookup_union. change (list_to_map _ !! "timestamp_ms") with (Some (tostring (script_now d))).
      by destruct (fields d key !! "timestamp_ms").
  - unfold clock_ms. rewrite pexpire_now, hset_now.
    destruct Htime. split; [|lia]. apply Z.div_pos; lia.
Qed.

Lemma tokenBucket_spec d :
  time_ok d -> bucket_state d ->
  call_spec d (tokenBucket rate capacity requested key d).1 (tokenBucket rate capacity requested key d).2.
Proof using All.
  intros Htime Hst. pose proof (refill_state d Htime Hst) as Hr. pose proof capacity_bounds as [Hc0 Hc1].
  assert (Hhuge : inject_Z (2 ^ 53) + 1 <= huge) by done.
  unfold tokenBucket. set (t := refill rate capacity key d) in *.
  destruct (Qle_bool requested t) eqn:E; cbn [fst snd].
  - apply Qle_bool_iff in E. assert (H1 : 1 <= t) by lra.
    assert (Hb : 0 <= lsub t requested <= capacity - 1).
    { unfold lsub. split; [apply rnd_nonneg; lra|].
      destruct (capacity_int Hp) as (n & Hn & Hcap).
      assert (Hn1 : inject_Z (n - 1) == capacity - 1).
      { unfold Z.sub. rewrite inject_Z_plus, Hcap. done. }
      rewrite <- Hn1. apply rnd_le_int; [lia|unfold in_scale; lra|]. rewrite Hn1. lra. }
    split.
    + by rewrite pexpire_now, hset_now.
    + intros k Hk. by rewrite pexpire_view, decide_False, hset_view, decide_False.
    + left. split; [done|]. exists (lsub t requested). split; [done|]. split; [done|].
      split; [done|]. apply stored_bucket; [done|by eexists|lra].
  - assert (H1 : t < 1).
    { apply Qnot_le_lt. intros Hle. assert (Qle_bool requested t = true); [|congruence].
      apply Qle_bool_iff. lra. }
    split.
    + by rewrite pexpire_now, hset_now.
    + intros k Hk. by rewrite pexpire_view, decide_False, hset_view, decide_False.
    + right. split; [done|]. eexists. split_and!; [|done|].
      * f_equal; [|unfold lceil; by rewrite Qfloor_Z]. f_equal. apply Qfloor_unique; [apply Hr|done].
      * apply stored_bucket; [done|apply refill_number|exact Hr].
Qed.

(** *** Sequences of calls *)

Lemma holds_env d d' T ts :
  holds d T ts -> environment key d d' ->
  holds d' T ts \/ (view d' key = None /\ (ts + bucket_ttl <= clock_ms d')%Z).
Proof using Type.
  intros [(h & Hv & Hf) Hn Ht Htm] [Henv Hview]. apply clock_ms_mono in Henv.
  destruct Hview as [Hview|(Hview & h' & dl & Hv' & Hdl)].
  - left. split; [|done|done|lia]. exists h. by rewrite Hview.
  - right. rewrite Hv in Hv'. injection Hv' as <- <-. done.
Qed.

Lemma bucket_state_env d d' : bucket_state d -> environment key d d' -> bucket_state d'.
Proof using Type.
  intros [Hv|(T & ts & Hh)] Henv.
  - left. destruct (env_view _ _ _ Henv) as [->|[-> _]]; done.
  - destruct (holds_env d d' T ts Hh Henv) as [Hh'|[Hv _]]; [right; by exists T, ts|by left].
Qed.

(** The tokens after the environment's step and the refill: at most what accrued
    since the last update. *)
Lemma refill_env d d' T ts :
  holds d T ts -> environment key d d' -> time_ok d' ->
  refill rate capacity key d' <= T + accrued (clock_ms d' - ts) + 5 * (ulp * capacity).
Proof using Hp ROk LSOk.
  intros Hh Henv Htime. destruct (holds_env d d' T ts Hh Henv) as [Hh'|[Hv Hexp]].
  - by apply refill_upper.
  - rewrite (refill_fresh d' Htime Hv). pose proof (expired_full ts _ Hexp).
    destruct (holds_tokens d T ts Hh). pose proof slack_tiny. pose proof tiny_pos. lra.
Qed.

(** A sequence of calls on the bucket, with the times and verdicts; between
    them other clients run and time passes. *)
Inductive run : D -> list (Z * bool) -> D -> Prop :=
| run_nil d : run d [] d
| run_call d d1 l d2 :
    environment key d d1 -> time_ok d1 ->
    run (tokenBucket rate capacity requested key d1).2 l d2 ->
    run d ((clock_ms d1, bool_decide ((tokenBucket rate capacity requested key d1).1.1.1 = 1%Z)) :: l) d2.

Lemma run_step d d1 t b l d2 :
  environment key d d1 -> time_ok d1 -> clock_ms d1 = t ->
  bool_decide ((tokenBucket rate capacity requested key d1).1.1.1 = 1%Z) = b ->
  run (tokenBucket rate capacity requested key d1).2 l d2 -> run d ((t, b) :: l) d2.
Proof using Type. intros. subst. by apply run_call. Qed.

Definition granted (l : list (Z * bool)) : Z := Z.of_nat (count snd l).

Fixpoint end_time (t : Z) (l : list (Z * bool)) : Z :=
  match l with
  | [] => t
  | (t', _) :: l => end_time t' l
  end.

Lemma accrued_add a b : accrued a + accrued b == accrued (a + b).
Proof using Type. unfold accrued. rewrite inject_Z_plus. ring. Qed.

(** A call leaves at most the tokens there were, minus the one it granted. *)
Lemma call_balance d :
  time_ok d -> bucket_state d ->
  let reply := (tokenBucket rate capacity requested key d).1 in
  exists T', holds (tokenBucket rate capacity requested key d).2 T' (clock_ms d) /\
    T' + inject_Z (if bool_decide (reply.1.1 = 1%Z) then 1 else 0) <=
      refill rate capacity key d + 3 * (ulp * capacity).
Proof using All.
  intros Htime Hst. destruct (tokenBucket_spec d Htime Hst) as [_ _ He].
  pose proof (refill_state d Htime Hst) as [Hr0 Hr1]. pose proof capacity_bounds as [Hc0 Hc1].
  pose proof slack_tiny. pose proof tiny_pos. assert (Hhuge : inject_Z (2 ^ 53) <= huge) by done.
  set (t := refill rate capacity key d) in *. cbn zeta.
  destruct He as [(Ht & T' & -> & HT' & Hb & Hh)|(Ht & retry & -> & _ & Hh)].
  - exists T'. split; [done|]. simpl. rewrite HT'. unfold lsub.
    assert (Hs0 : 0 <= t - requested) by lra. assert (Hs1 : t - requested <= huge) by lra.
    pose proof (rnd_upper _ Hs0 Hs1). pose proof (ulp_le (t - requested) capacity ltac:(lra)).
    change (inject_Z 1) with 1. lra.
  - exists t. split; [done|]. simpl. change (inject_Z 0) with 0. lra.
Qed.

Lemma granted_cons t b l :
  inject_Z (granted ((t, b) :: l)) == inject_Z (if b then 1 else 0) + inject_Z (granted l).
Proof using Type.
  unfold granted. simpl. rewrite Nat2Z.inj_add, inject_Z_plus. by destruct b.
Qed.

Lemma length_slack {A} (x : A) l : inject_Z (Z.of_nat (length (x :: l))) * slack == slack + inject_Z (Z.of_nat (length l)) * slack.
Proof using Type.
  simpl length. rewrite Nat2Z.inj_succ. unfold Z.succ. rewrite inject_Z_plus.
  change (inject_Z 1) with 1. ring.
Qed.

Lemma run_bound d l d' T ts :
  run d l d' -> holds d T ts ->
  inject_Z (granted l) <= T + accrued (end_time ts l - ts) + inject_Z (Z.of_nat (length l)) * slack.
Proof using All.
  intros Hrun. revert T ts. induction Hrun as [d|d d1 l d2 Henv Htime Hrun IH]; intros T ts Hh.
  - destruct (holds_tokens d T ts Hh). simpl end_time. rewrite Z.sub_diag. unfold accrued.
    change (inject_Z (granted [])) with 0. change (inject_Z (Z.of_nat (length []))) with 0.
    change (inject_Z 0) with 0. lra.
  - assert (Hst : bucket_state d1) by (eapply bucket_state_env; [|done]; right; by exists T, ts).
    destruct (call_balance d1 Htime Hst) as (T' & Hh' & Hbal).
    pose proof (refill_env d d1 T ts Hh Henv Htime) as Hup.
    specialize (IH T' (clock_ms d1) Hh'). rewrite granted_cons, length_slack.
    assert (Hacc : accrued (clock_ms d1 - ts) + accrued (end_time (clock_ms d1) l - clock_ms d1) ==
      accrued (end_time (clock_ms d1) l - ts)).
    { rewrite accrued_add. apply reflexive_eq. f_equal. lia. }
    simpl end_time. unfold slack in *. lra.
Qed.

(** C6: The rate limit holds over every window. Whatever other clients do and
    however the calls are spread, from the first call of a window at [t1] to its
    last at [tn] a client is granted at most [burst + rate * (tn - t1)] requests,
    up to a rounding error of [2^-50 * burst] per call; keys that expire in
    between give nothing away. *)
Theorem rate_limit_bound d t1 b1 l d' :
  bucket_state d -> run d ((t1, b1) :: l) d' ->
  inject_Z (granted ((t1, b1) :: l)) <=
    capacity + inject_Z (end_time t1 l - t1) * rate +
    inject_Z (Z.of_nat (length ((t1, b1) :: l))) * (8 * (ulp * capacity)).
Proof using All.
  intros Hst Hrun. inversion Hrun as [|? d1 ? ? Henv Htime Hrun' E1 [E2 E3] E4]; subst.
  assert (Hst1 : bucket_state d1) by (by eapply bucket_state_env).
  destruct (call_balance d1 Htime Hst1) as (T' & Hh' & Hbal).
  pose proof (refill_state d1 Htime Hst1) as [_ Hr].
  pose proof (run_bound _ _ _ _ _ Hrun' Hh') as Hb.
  rewrite granted_cons. fold slack. rewrite length_slack. unfold accrued, slack in *. pose proof slack_tiny. pose proof tiny_pos. lra.
Qed.

(** The announced wait, times the rate, covers the missing tokens up to
    rounding. *)
Lemma wait_covers t :
  0 <= t < 1 ->
  let z := ldiv (lsub requested t) rate in
  0 <= z <= 65537 /\ 1 - t - 3 * ulp - tiny <= z * rate.
Proof using Hp ROk Hreq.
  intros Ht z. pose proof rate_pos as Hr. pose proof (rate_low Hp) as Hrl. pose proof (rate_high Hp) as Hrh.
  assert (Hhuge : 65537 <= huge) by done.
  set (x := lsub requested t) in *.
  assert (Hx0 : 0 <= requested - t) by lra. assert (Hx1 : requested - t <= huge) by lra.
  pose proof (rnd_lower _ Hx0 Hx1) as Hxl. pose proof (rnd_nonneg _ Hx0 Hx1) as Hxp.
  assert (Hxu : x <= 1) by (apply (rnd_le_int 1); [lia|unfold in_scale; lra|change (inject_Z 1) with 1; lra]).
  change (rnd (requested - t)) with x in *.
  pose proof (ulp_le (requested - t) 1 ltac:(lra)) as Hu1. pose proof (ulp_le x 1 Hxu) as Hu2.
  unfold z, ldiv. clear z. set (v := x / rate) in *.
  assert (Hv : v * rate == x) by (unfold v; field; lra).
  assert (Hv0 : 0 <= v) by (unfold v; apply Qle_shift_div_l; lra).
  assert (Hv1 : v <= 65536).
  { unfold v. apply Qle_shift_div_r; [done|].
    apply Qle_trans with (65536 * (1 # 65536)); [|apply Qmult_le_l; done].
    apply Qle_trans with 1; [done|by vm_compute]. }
  assert (Hv2 : v <= huge) by (apply Qle_trans with 65536; [done|by vm_compute]).
  pose proof (rnd_lower v Hv0 Hv2) as Hz. pose proof (rnd_upper v Hv0 Hv2) as Hz'.
  pose proof (rnd_nonneg v Hv0 Hv2). pose proof (ulp_le v 65536 Hv1).
  assert (ulp * 65536 + 2 * tiny <= 1) by done.
  assert (Hz2 : (v - ulp * v - tiny) * rate <= rnd v * rate) by (apply Qmult_le_compat_r; lra).
  assert (Hz3 : (v - ulp * v - tiny) * rate == x - ulp * x - tiny * rate) by (rewrite <- Hv; ring).
  assert (Ht1 : tiny * rate <= tiny * inject_Z (2 ^ 40)) by (apply Qmult_le_l; [done|lra]).
  assert (Hk : tiny * inject_Z (2 ^ 40) <= ulp) by done. split; lra.
Qed.

(** One millisecond more makes up for the rounding. *)
Lemma retry_accrues t (e : Z) :
  0 <= t < 1 -> (Qceiling (ldiv (lsub requested t) rate) + 1 <= e <= 2 ^ 53)%Z ->
  1 - t <= rnd (accrued e).
Proof using Hp ROk Hreq.
  intros Ht He. pose proof rate_pos as Hr. pose proof (rate_low Hp) as Hrl. pose proof (rate_high Hp) as Hrh.
  destruct (wait_covers t Ht) as [[Hz0 Hz1] Hz]. cbn zeta in *.
  set (z := ldiv (lsub requested t) rate) in *. pose proof (Qle_ceiling z) as Hc.
  assert (Hhuge : inject_Z (2 ^ 93) + 1 <= huge) by done.
  assert (Hsm : inject_Z (2 ^ 40) * 65536 <= inject_Z (2 ^ 93)) by done.
  assert (Hez : z + 1 <= inject_Z e).
  { assert (Hle : inject_Z (Qceiling z + 1) <= inject_Z e) by (rewrite <- Zle_Qle; lia).
    rewrite inject_Z_plus in Hle. change (inject_Z 1) with 1 in Hle. lra. }
  assert (Hy : (z + 1) * rate <= accrued e) by (unfold accrued; apply Qmult_le_compat_r; lra).
  assert (Hk2 : 8 * ulp + 2 * tiny <= (1 # 4) * (1 # 65536)) by done.
  pose proof tiny_pos. assert (Hulp : 0 < ulp) by done.
  set (y0 := (1 - t) + (1 # 2) * rate).
  assert (Hy0 : y0 <= accrued e) by (unfold y0; lra).
  assert (Hy00 : 0 <= y0) by (unfold y0; lra). assert (Hy01 : y0 <= huge) by (unfold y0; lra).
  pose proof (rnd_lower y0 Hy00 Hy01) as Hry.
  assert (Hu3 : ulp * y0 <= ulp + (1 # 4) * ((1 # 2) * rate)).
  { unfold y0. rewrite Qmult_plus_distr_r.
    assert (ulp * (1 - t) <= ulp * 1) by (apply ulp_le; lra).
    assert (ulp * ((1 # 2) * rate) <= (1 # 4) * ((1 # 2) * rate)) by (apply Qmult_le_compat_r; [done|lra]).
    lra. }
  assert (He0 : (0 <= Qceiling z)%Z).
  { apply Z.lt_pred_le. apply (Qceiling_lt z (-1)%Z). change (inject_Z (-1)) with (-(1)). lra. }
  assert (He2 : (0 <= e <= 2 ^ 53)%Z) by lia.
  pose proof (accrued_bounds e He2) as [Hae0 Hae1].
  assert (rnd y0 <= rnd (accrued e)) by (apply rnd_mono; unfold in_scale; lra).
  unfold y0 in *. lra.
Qed.

(** C32: The wait that a refusal announces is sufficient. A client whose call is
    refused and that is alone on its key is granted its next call, if it waits
    the announced number of milliseconds plus one (the extra millisecond makes up
    for the rounding of the announced time). *)
Theorem retry_after_suffices d d2 retry :
  time_ok d -> bucket_state d ->
  (tokenBucket rate capacity requested key d).1 = (0%Z, 0%Z, retry) ->
  environment key (tokenBucket rate capacity requested key d).2 d2 -> time_ok d2 ->
  (clock_ms d + retry + 1 <= clock_ms d2)%Z ->
  (tokenBucket rate capacity requested key d2).1.1.1 = 1%Z.
Proof using All.
  intros Htime Hst Hreply Henv Htime2 Hwait.
  destruct (tokenBucket_spec d Htime Hst) as [_ _ He]. rewrite Hreply in He.
  destruct He as [(_ & T & [=] & _)|(Ht & r & [= ->] & -> & Hh)].
  pose proof (refill_state d Htime Hst) as [Ht0 _].
  set (t := refill rate capacity key d) in *.
  assert (Hst2 : bucket_state d2) by (eapply bucket_state_env; [|done]; right; by exists t, (clock_ms d)).
  cut (1 <= refill rate capacity key d2).
  { intros H1. destruct (tokenBucket_spec d2 Htime2 Hst2) as [_ _ He2].
    destruct He2 as [(_ & T & -> & _)|(Hlt & _)]; [done|lra]. }
  pose proof capacity_bounds as [Hc0 Hc1].
  destruct (holds_env _ _ _ _ Hh Henv) as [Hh2|[Hv _]]; [|rewrite (refill_fresh d2 Htime2 Hv); lra].
  destruct (refill_hold d2 t _ Htime2 Hh2) as (y & Hy & ->).
  pose proof (holds_time _ _ _ Hh2). destruct Htime2 as [Hn2 Hc2]. destruct Htime as [Hn1 Hc3].
  assert (Hclk : (0 <= clock_ms d)%Z) by (apply Z.div_pos; lia).
  set (e := (clock_ms d2 - clock_ms d)%Z) in *.
  assert (He : (Qceiling (ldiv (lsub requested t) rate) + 1 <= e <= 2 ^ 53)%Z) by lia.
  pose proof (retry_accrues t e (conj Ht0 Ht) He) as Hacc.
  assert (He2 : (0 <= e <= 2 ^ 53)%Z) by lia. pose proof (accrued_bounds e He2) as [Ha0 Ha1].
  assert (Hhuge : inject_Z (2 ^ 93) + inject_Z (2 ^ 93) + 3 <= huge) by done.
  assert (Hyr : rnd y == rnd (accrued e)) by (apply rnd_eq; [unfold in_scale; lra|done]).
  assert (Hyu : rnd y <= y + ulp * y + 2 * tiny) by (apply rnd_upper; lra).
  assert (ulp * y <= 1 * inject_Z (2 ^ 93)).
  { apply Qmult_le_compat_nonneg; split; (done || lra). }
  assert (2 * tiny <= 1) by done.
  apply Q.min_glb; [done|]. unfold ladd. apply (rnd_ge_int 1); [lia|unfold in_scale; lra|].
  change (inject_Z 1) with 1. lra.
Qed.

End bucket.

(** ** The limiter *)

Section limiter.
Context {R : Rounding} {ROk : RoundingOk} {LS : LuaStrings} {LSOk : LuaStringsOk}.
Context `{!codec.Sha256}.
Context {W D : Type} {RD : Redis D} {RDOk : RedisOk D}.
Context (l : RedisLimiter W D) (db : ref W D) {EOk : EvaluatorOk (evaluator l) db}.

Definition limiter_ok : Prop := 1 <= rpm l <= 2 ^ 53 /\ 1 <= burst l <= 2 ^ 53.

Abbreviation rate := (ratePerMillisecond (rpm l)).
Abbreviation capacity := (rnd (inject_Z (burst l))).
Abbreviation one := (rnd (inject_Z 1)).

Local Open Scope Q_scope.

Lemma limiter_params : limiter_ok -> bucket_params rate capacity.
Proof using ROk.
  intros [Hr Hb].
  assert (Hn : rnd (inject_Z (rpm l)) == inject_Z (rpm l)) by (apply rnd_int; lia).
  assert (Hn0 : 1 <= inject_Z (rpm l) <= inject_Z (2 ^ 53)).
  { change 1 with (inject_Z 1). rewrite <- !Zle_Qle. lia. }
  set (x := rnd (inject_Z (rpm l)) / 60000).
  assert (Hx0 : (1 # 60000) <= x).
  { unfold x. apply Qle_shift_div_l; [done|]. assert ((1 # 60000) * 60000 == 1) by done. lra. }
  assert (Hx1 : x <= inject_Z (2 ^ 39)).
  { unfold x. apply Qle_shift_div_r; [done|].
    assert (inject_Z (2 ^ 53) <= inject_Z (2 ^ 39) * 60000) by done. lra. }
  assert (Hh : inject_Z (2 ^ 39) <= huge) by done.
  assert (Hx2 : 0 <= x) by lra. assert (Hx3 : x <= huge) by lra.
  pose proof (rnd_lower x Hx2 Hx3) as Hl. pose proof (rnd_upper x Hx2 Hx3) as Hu.
  assert (Hux : ulp * x <= (1 # 1024) * x) by (apply Qmult_le_compat_r; [done|lra]).
  assert (tiny <= 1 # 1000000) by done.
  change (ratePerMillisecond (rpm l)) with (rnd x). split.
  - change (1 # 65536 <= rnd x). lra.
  - change (rnd x <= inject_Z (2 ^ 40)). assert (inject_Z (2 ^ 40) == inject_Z (2 ^ 39) + inject_Z (2 ^ 39)) by done. lra.
  - by eexists.
  - exists (burst l). split; [lia|]. apply rnd_int. lia.
Qed.

Lemma one_eq : one == 1.
Proof using ROk. rewrite (rnd_int 1); done. Qed.

(** What the caller sees of a call on the bucket in [d1]. *)
Record decided (key : string) (d1 : D) (dec : Decision) : Prop := {
  dec_allowed : Allowed dec = true <-> 1 <= refill rate capacity key d1;
  dec_limit : Limit dec = burst l;
  dec_remaining : (0 <= Remaining dec <= burst l)%Z;
  dec_granted : Allowed dec = true -> RetryAfter dec = 0%Z /\ (Remaining dec < burst l)%Z;
  dec_refused : Allowed dec = false ->
    Remaining dec = 0%Z /\ (0 <= RetryAfter dec <= 65538 * millisecond)%Z;
}.

Lemma decide_call key d1 :
  limiter_ok -> time_ok d1 -> bucket_state rate capacity key d1 ->
  exists dec, decode_reply (burst l) (tokenBucketScript [key] [AFloat rate; AInt (burst l); AInt 1] d1).1 = (dec, None) /\
    decided key d1 dec /\
    bucket_state rate capacity key (tokenBucketScript [key] [AFloat rate; AInt (burst l); AInt 1] d1).2.
Proof using ROk LSOk RDOk.
  intros Hl Htime Hst. pose proof (limiter_params Hl) as Hp. destruct Hl as [_ Hb].
  destruct (tokenBucket_spec rate capacity key Hp one one_eq d1 Htime Hst) as [_ _ He].
  pose proof (refill_state rate capacity key Hp d1 Htime Hst) as Hr.
  assert (Hcap : capacity == inject_Z (burst l)) by (apply rnd_int; lia).
  unfold tokenBucketScript. cbn [number_of].
  destruct (tokenBucket rate capacity one key d1) as [reply d2]. cbn [fst snd] in He. cbn zeta in He.
  set (t := refill rate capacity key d1) in *.
  destruct He as [(Ht & T & -> & _ & HT & Hh)|(Ht & retry & -> & Hretry & Hh)]; cbn.
  - eexists. split; [done|]. split; [|right; by eexists _, _].
    assert (HT0 : (0 <= Qfloor T)%Z) by (change 0%Z with (Qfloor 0); apply Qfloor_resp_le; lra).
    assert (HT1 : (Qfloor T < burst l)%Z).
    { rewrite Zlt_Qlt. pose proof (Qfloor_le T). lra. }
    split; cbn; [by split|done|lia|done|done].
  - eexists. split; [done|]. split; [|right; by eexists _, _].
    destruct (wait_covers rate capacity Hp one one_eq t ltac:(split; [apply Hr|done])) as [[Hz0 Hz1] _].
    assert (Hretry1 : (0 <= retry <= 65537)%Z).
    { rewrite Hretry. split.
      - change 0%Z with (Qceiling 0). by apply Qceiling_resp_le.
      - change 65537%Z with (Qceiling 65537). by apply Qceiling_resp_le. }
    rewrite wrap64_id by (unfold in_int64, min_int64, max_int64, millisecond; lia).
    split; cbn; [|done|lia|done|].
    + split; [done|]. intros Hle. by apply (Qlt_not_le _ _ Ht) in Hle.
    + intros _. unfold millisecond. lia.
Qed.

(** The limiter's decision. On every reply of the server the decision says
    "allowed" exactly if the bucket held a token when the script ran, the limit is
    the burst size, the remaining count is within it, a refusal reports no tokens
    and a wait of at most 65.6 seconds; if the server cannot be reached the error
    is returned with the zero decision. In both cases the database holds a
    well-formed bucket afterwards. *)
Theorem limiter_decision ctx identity w :
  limiter_ok -> bucket_state rate capacity (limiter_key identity) (ref_get db w) ->
  wp (Allow l ctx identity)
    (fun r w' =>
       bucket_state rate capacity (limiter_key identity) (ref_get db w') /\
       match r with
       | (dec, None) => exists d1,
           environment (limiter_key identity) (ref_get db w) d1 /\ decided (limiter_key identity) d1 dec
       | (dec, Some e) => dec = zeroDecision /\ exists cause, e = EWrap "evaluate token bucket" cause
       end)
    (fun _ => False) w.
Proof using ROk LSOk RDOk EOk.
  intros Hl Hst. unfold Allow. apply wp_bind. eapply wp_mono; [apply eval_atomic| |done].
  intros r w' (d1 & Henv & Htime & Hr). cbn beta.
  pose proof (bucket_state_env _ _ _ _ _ Hst Henv) as Hst1.
  destruct (decide_call _ d1 Hl Htime Hst1) as (dec & Hdec & Hd & Hst2).
  destruct r as [e|v]; apply wp_ret.
  - split; [destruct Hr as [->| ->]; done|]. split; [done|]. by exists e.
  - rewrite Hr in Hdec, Hst2. simpl in Hdec, Hst2. rewrite Hdec. split; [done|]. by exists d1.
Qed.

End limiter.

(** ** An instance

    Exact arithmetic, numbers stored as strings of bits, and the database
    itself as the world. *)
Module examples.

Fixpoint bits (p : positive) : string :=
  match p with
  | xH => ""
  | xO p => String "0"%char (bits p)
  | xI p => String "1"%char (bits p)
  end.

Fixpoint of_bits (s : string) : positive :=
  match s with
  | EmptyString => xH
  | String c s => if decide (c = "1"%char) then xI (of_bits s) else xO (of_bits s)
  end.

Lemma of_bits_bits p : of_bits (bits p) = p.
Proof. induction p; simpl; by rewrite ?IHp. Qed.

#[global] Instance bit_strings : LuaStrings := {
  tostring x := bits (encode (Qnum x, Qden x));
  tonumber s := '(n, d) ← decode (of_bits s); Some (Qmake n d);
}.

Lemma bit_strings_ok : @LuaStringsOk exact_rounding bit_strings.
Proof. intros [n d] _. simpl. rewrite of_bits_bits, decode_encode. done. Qed.

Definition demo_rate : Q := 1 # 1000.
Definition demo_capacity : Q := 2.

Lemma demo_params : @bucket_params exact_rounding demo_rate demo_capacity.
Proof.
  split; [done|done|by exists demo_capacity|]. exists 2. split; [lia|done].
Qed.

Lemma fresh_state r c k t : @bucket_state exact_rounding bit_strings db _ r c k (fresh t).
Proof. by left. Qed.

#[global] Instance zero_sha : codec.Sha256 := fun _ => replicate 32 0.

End examples.

Section witnesses.
Import examples.
#[local] Existing Instance exact_rounding.
#[local] Existing Instance exact_rounding_ok.
#[local] Existing Instance bit_strings_ok.

Definition three_calls : list (Z * bool) := [(5, true); (5, true); (5, false)].
Definition call3 (d : db) : db := (tokenBucket demo_rate demo_capacity 1 "k" d).2.

Lemma call3_state d :
  time_ok d -> bucket_state demo_rate demo_capacity "k" d -> bucket_state demo_rate demo_capacity "k" (call3 d).
Proof.
  intros Ht Hst. destruct (call_balance demo_rate demo_capacity "k" demo_params 1 (Qeq_refl 1) d Ht Hst)
    as (T & Hh & _). right. by exists T, (clock_ms d).
Qed.

(** Three calls at once on a bucket of two tokens: two are granted. *)
Lemma rate_limit_bound_witness :
  run demo_rate demo_capacity "k" 1 (fresh 5) three_calls
    (call3 (call3 (call3 (fresh 5)))) /\
  (inject_Z (granted three_calls) <=
    demo_capacity + inject_Z (end_time 5 (tail three_calls) - 5) * demo_rate +
    inject_Z 3 * (8 * (ulp * demo_capacity)))%Q.
Proof.
  assert (Hrun : run demo_rate demo_capacity "k" 1 (fresh 5) three_calls
    (call3 (call3 (call3 (fresh 5))))).
  { unfold three_calls. repeat (eapply run_step;
      [apply environment_refl|split; by vm_compute|by vm_compute|by vm_compute|]).
    unfold call3. apply run_nil. }
  split; [exact Hrun|].
  exact (rate_limit_bound demo_rate demo_capacity "k" demo_params 1 (Qeq_refl 1) (fresh 5) 5 true _ _
    (fresh_state _ _ _ _) Hrun).
Defined.

(** A client refused at 5 ms is told to wait 1000 ms; at 1006 ms it is granted. *)
Lemma retry_after_suffices_witness :
  (tokenBucket demo_rate demo_capacity 1 "k" (call3 (call3 (fresh 5)))).1 = (0, 0, 1000) /\
  (tokenBucket demo_rate demo_capacity 1 "k" (tick 1001000 (call3 (call3 (call3 (fresh 5)))))).1.1.1 = 1.
Proof.
  assert (Hr : (tokenBucket demo_rate demo_capacity 1 "k" (call3 (call3 (fresh 5)))).1 = (0, 0, 1000))
    by (by vm_compute).
  split; [exact Hr|].
  assert (Hst : bucket_state demo_rate demo_capacity "k" (call3 (call3 (fresh 5)))).
  { apply call3_state; [split; by vm_compute|].
    apply call3_state; [apply time_ok_fresh; lia|by left]. }
  refine (retry_after_suffices demo_rate demo_capacity "k" demo_params 1 (Qeq_refl 1)
    (call3 (call3 (fresh 5))) (tick 1001000 (call3 (call3 (call3 (fresh 5))))) 1000 _ Hst Hr _ _ _).
  - split; by vm_compute.
  - unfold call3. apply tick_environment; lia.
  - split; by vm_compute.
  - by vm_compute.
Defined.

Definition demo_limiter : RedisLimiter db db := mkRedisLimiter direct 60 2.

Lemma limiter_decision_witness :
  wp (Allow demo_limiter context.Background "client")
    (fun r w' =>
       bucket_state (ratePerMillisecond 60) (rnd (inject_Z 2)) (limiter_key "client") w' /\
       match r with
       | (dec, None) => exists d1,
           environment (limiter_key "client") (fresh 5) d1 /\
           decided demo_limiter (limiter_key "client") d1 dec
       | (dec, Some e) => dec = zeroDecision /\ exists cause, e = EWrap "evaluate token bucket" cause
       end)
    (fun _ => False) (fresh 5).
Proof.
  apply (limiter_decision demo_limiter whole (EOk := direct_ok) context.Background "client" (fresh 5));
    [split; by vm_compute|apply fresh_state].
Defined.

End witnesses.

End ratelimit.
