(* ===== verification/Idempotency.v ===== *)
(** * The Redis idempotency store (internal/idempotency/redis.go)

    The three Lua scripts and the store that calls them. A key goes from free to
    pending to completed; an entry expires after its time to live. *)

From stdpp Require Import base gmap list strings.
From Stdlib Require Import ZArith Lia.
From S2P Require Import Prelude Types GoStrings Context Codec Redis.

Local Open Scope Z_scope.
Local Open Scope go_scope.

Module idempotency.

Import redis.

(** [type Status string] *)
Inductive Status : Type := StatusAcquired | StatusPending | StatusCompleted | StatusConflict.

#[global] Instance Status_eq_dec : EqDecision Status.
Proof. solve_decision. Defined.

Definition Status_text (s : Status) : string :=
  match s with
  | StatusAcquired => "acquired"
  | StatusPending => "pending"
  | StatusCompleted => "completed"
  | StatusConflict => "conflict"
  end.

Record Result : Type := mkResult {
  res_Status : Status;
  res_Response : string;
}.

(** ** The scripts *)

Section scripts.
Context {D : Type} `{!Redis D}.

Definition text_of (a : any) : option string :=
  match a with
  | AStr s | ABytes s => Some s
  | _ => None
  end.

Definition beginScript : script D := fun keys args d =>
  match keys, args with
  | [key], [a1; AInt ttl] =>
      match text_of a1 with
      | None => (ANil, d)
      | Some fp =>
          match hmget d key "fingerprint" with
          | None =>
              let d := hset key [("fingerprint", fp); ("state", "pending")] d in
              let d := pexpire key ttl d in
              (AList [AStr "acquired"], d)
          | Some current =>
              if negb (bool_decide (current = fp)) then (AList [AStr "conflict"], d)
              else if bool_decide (hmget d key "state" = Some "completed")
              then (AList [AStr "completed"; AStr (default "" (hmget d key "response"))], d)
              else (AList [AStr "pending"], d)
          end
      end
  | _, _ => (ANil, d)
  end.

Definition completeScript : script D := fun keys args d =>
  match keys, args with
  | [key], [a1; a2; AInt ttl] =>
      match text_of a1, text_of a2 with
      | Some fp, Some response =>
          if negb (bool_decide (hmget d key "fingerprint" = Some fp)) ||
             negb (bool_decide (hmget d key "state" = Some "pending"))
          then (AInt 0, d)
          else
            let d := hset key [("state", "completed"); ("response", response)] d in
            let d := pexpire key ttl d in
            (AInt 1, d)
      | _, _ => (ANil, d)
      end
  | _, _ => (ANil, d)
  end.

Definition releaseScript : script D := fun keys args d =>
  match keys, args with
  | [key], [a1] =>
      match text_of a1 with
      | None => (ANil, d)
      | Some fp =>
          if bool_decide (hmget d key "fingerprint" = Some fp) &&
             bool_decide (hmget d key "state" = Some "pending")
          then let '(n, d) := del key d in (AInt n, d)
          else (AInt 0, d)
      end
  | _, _ => (ANil, d)
  end.

End scripts.

(** ** The store *)

(** The [Store] interface. *)
Record Store (W : Type) : Type := mkStore {
  store_Begin : context.Ctx -> string -> string -> M W (error + Result);
  store_Complete : context.Ctx -> string -> string -> string -> M W (option error);
  store_Release : context.Ctx -> string -> string -> M W (option error);
}.
Arguments mkStore {W} _ _ _.
Arguments store_Begin {W} _ _ _ _.
Arguments store_Complete {W} _ _ _ _ _.
Arguments store_Release {W} _ _ _ _.

Record RedisStore (W D : Type) : Type := mkRedisStore {
  evaluator : Evaluator W D;
  lockTTL : Z;
  resultTTL : Z;
}.
Arguments mkRedisStore {W D} _ _ _.
Arguments evaluator {W D} _.
Arguments lockTTL {W D} _.
Arguments resultTTL {W D} _.

Definition NewRedisStore {W D} (evaluator : option (Evaluator W D)) (lockTTL resultTTL : Z)
  : string + RedisStore W D :=
  match evaluator with
  | None => inl "idempotency evaluator is required"
  | Some e =>
      if (lockTTL <=? 0) || (resultTTL <=? 0) then inl "idempotency TTLs must be positive"
      else inr (mkRedisStore e lockTTL resultTTL)
  end.

Definition zero_byte : string := String (of_byte 0) EmptyString.

Definition ScopedKey `{!codec.Sha256} (identity idempotencyKey : string) : string :=
  codec.hex_digest (identity +:+ zero_byte +:+ idempotencyKey).

Definition redisKey (key : string) : string := "modelgate:idempotency:" +:+ key.

Definition text (value : any) : option string :=
  match value with
  | AStr s => Some s
  | ABytes s => Some s
  | _ => None
  end.

Definition bytes (value : any) : option string :=
  match value with
  | AStr s => Some s
  | ABytes s => Some s
  | _ => None
  end.

Definition integer (value : any) : error + Z :=
  match value with
  | AInt n => inr n
  | _ => inl (EText "idempotency script returned a non-integer value")
  end.

(** The reply of [beginScript], as [Begin] reads it. *)
Definition parseBegin (result : any) : error + Result :=
  match result with
  | AList (v0 :: rest) =>
      match text v0 with
      | None => inl (EText "idempotency begin returned an invalid status")
      | Some status =>
          if bool_decide (status = "acquired") then inr (mkResult StatusAcquired "")
          else if bool_decide (status = "pending") then inr (mkResult StatusPending "")
          else if bool_decide (status = "conflict") then inr (mkResult StatusConflict "")
          else if bool_decide (status = "completed") then
            match rest with
            | [v1] =>
                match bytes v1 with
                | Some response => inr (mkResult StatusCompleted response)
                | None => inl (EText "completed idempotency response is invalid")
                end
            | _ => inl (EText "completed idempotency result is missing its response")
            end
          else inl (EText "idempotency begin returned unknown status")
      end
  | _ => inl (EText "idempotency begin returned an invalid result")
  end.

Section operations.
Context {W D : Type} `{!Redis D}.
Implicit Types (s : RedisStore W D).

Definition Begin s (ctx : context.Ctx) (key fingerprint : string) : M W (error + Result) :=
  let! result := Eval (evaluator s) ctx beginScript [redisKey key]
                   [AStr fingerprint; AInt (milliseconds (lockTTL s))] in
  match result with
  | inl err => ret (inl (EWrap "begin idempotency request" err))
  | inr result => ret (parseBegin result)
  end.

Definition Complete s (ctx : context.Ctx) (key fingerprint response : string) : M W (option error) :=
  let! result := Eval (evaluator s) ctx completeScript [redisKey key]
                   [AStr fingerprint; ABytes response; AInt (milliseconds (resultTTL s))] in
  match result with
  | inl err => ret (Some (EWrap "complete idempotency request" err))
  | inr result =>
      match integer result with
      | inr 1 => ret None
      | _ => ret (Some (EText "idempotency request is no longer pending"))
      end
  end.

Definition Release s (ctx : context.Ctx) (key fingerprint : string) : M W (option error) :=
  let! result := Eval (evaluator s) ctx releaseScript [redisKey key] [AStr fingerprint] in
  match result with
  | inl err => ret (Some (EWrap "release idempotency request" err))
  | inr _ => ret None
  end.

Definition redisStore s : Store W := mkStore (Begin s) (Complete s) (Release s).

End operations.

(** ** Specification: free, pending, completed *)

Inductive entry : Type := Pending (fp : string) | Completed (fp response : string).

(** The entry of a key and its deadline; [None] is a free key. *)
Definition slot : Type := option (entry * Z).

(** An entry with a time to live of [ttl] milliseconds. *)
Definition until (now ttl : Z) (e : entry) : slot := if 0 <? ttl then Some (e, now + ttl) else None.

Definition begin_spec (now ttl : Z) (fp : string) (s : slot) : Result * slot :=
  match s with
  | None => (mkResult StatusAcquired "", until now ttl (Pending fp))
  | Some (Pending fp', _) =>
      (mkResult (if decide (fp' = fp) then StatusPending else StatusConflict) "", s)
  | Some (Completed fp' response, _) =>
      (if decide (fp' = fp) then mkResult StatusCompleted response else mkResult StatusConflict "", s)
  end.

Definition complete_spec (now ttl : Z) (fp response : string) (s : slot) : bool * slot :=
  match s with
  | Some (Pending fp', _) =>
      if decide (fp' = fp) then (true, until now ttl (Completed fp response)) else (false, s)
  | _ => (false, s)
  end.

Definition release_spec (fp : string) (s : slot) : bool * slot :=
  match s with
  | Some (Pending fp', _) => if decide (fp' = fp) then (true, None) else (false, s)
  | _ => (false, s)
  end.

(** Time may remove an entry whose deadline has come. *)
Definition expires (now : Z) (s s' : slot) : Prop :=
  s' = s \/ (s' = None /\ exists e dl, s = Some (e, dl) /\ dl <= now).

(** ** The scripts implement the specification *)

Section refinement.
Context {D : Type} {RD : Redis D} {RDOk : RedisOk D} (key : string).

Definition encodes (h : hash) (e : entry) : Prop :=
  match e with
  | Pending fp => h !! "fingerprint" = Some fp /\ h !! "state" = Some "pending"
  | Completed fp response =>
      h !! "fingerprint" = Some fp /\ h !! "state" = Some "completed" /\ h !! "response" = Some response
  end.

Definition represents (d : D) (s : slot) : Prop :=
  match s with
  | None => view d key = None
  | Some (e, dl) => exists h, view d key = Some (h, Some dl) /\ encodes h e
  end.

Lemma represents_env d d' s :
  represents d s -> environment key d d' -> exists s', represents d' s' /\ expires (clock_ms d') s s'.
Proof using Type.
  intros Hr [_ [Hv|(Hv & h & dl & Hd & Hdl)]].
  - exists s. split; [|by left]. unfold represents in *. by rewrite Hv.
  - exists None. split; [done|]. right. split; [done|].
    destruct s as [[e dl']|]; [|unfold represents in Hr; congruence].
    destruct Hr as (h' & Hv' & _). exists e, dl. split; [congruence|done].
Qed.

(** What [HMGET] sees of the three kinds of key. *)
Lemma hmget_represents d s :
  represents d s ->
  match s with
  | None => forall f, hmget d key f = None
  | Some (Pending fp, _) => hmget d key "fingerprint" = Some fp /\ hmget d key "state" = Some "pending"
  | Some (Completed fp response, _) =>
      hmget d key "fingerprint" = Some fp /\ hmget d key "state" = Some "completed" /\
      hmget d key "response" = Some response
  end.
Proof using Type.
  unfold hmget, fields. destruct s as [[[fp|fp r] dl]|]; simpl.
  - intros (h & -> & H). done.
  - intros (h & -> & H). done.
  - intros -> f. apply lookup_empty.
Qed.

Lemma represents_until d h e ttl :
  (exists dl, view d key = Some (h, dl)) -> encodes h e ->
  represents (pexpire key ttl d) (until (clock_ms d) ttl e).
Proof using RDOk.
  intros (dl & Hv) He. unfold until, represents. rewrite pexpire_view, decide_True, Hv by done.
  destruct (0 <? ttl); [|done]. by exists h.
Qed.

Lemma begin_refines d s fp ttl :
  represents d s ->
  let run := beginScript [key] [AStr fp; AInt ttl] d in
  let '(r, s') := begin_spec (clock_ms d) ttl fp s in
  parseBegin run.1 = inr r /\ represents run.2 s'.
Proof using RDOk.
  intros Hr. pose proof (hmget_represents d s Hr) as Hg. cbn zeta. unfold beginScript. cbn [text_of].
  destruct s as [[[fp'|fp' response] dl]|]; simpl begin_spec.
  - destruct Hg as [-> ->]. destruct (decide (fp' = fp)) as [->|Hne].
    + by rewrite (bool_decide_true (fp = fp)).
    + by rewrite (bool_decide_false (fp' = fp)).
  - destruct Hg as (-> & -> & ->). destruct (decide (fp' = fp)) as [->|Hne].
    + by rewrite (bool_decide_true (fp = fp)).
    + by rewrite (bool_decide_false (fp' = fp)).
  - rewrite Hg. simpl. split; [done|].
    replace (clock_ms d) with (clock_ms (hset key [("fingerprint", fp); ("state", "pending")] d))
      by (unfold clock_ms; by rewrite hset_now).
    eapply represents_until; [rewrite hset_view, decide_True by done; by eexists|].
    unfold fields. rewrite (Hr : view d key = None). by split; rewrite (right_id_L ∅ (∪)).
Qed.

Lemma complete_slot_refines d s fp response ttl :
  represents d s ->
  let run := completeScript [key] [AStr fp; ABytes response; AInt ttl] d in
  let '(ok, s') := complete_spec (clock_ms d) ttl fp response s in
  run.1 = AInt (if ok then 1 else 0) /\ represents run.2 s'.
Proof using RDOk.
  intros Hr. pose proof (hmget_represents d s Hr) as Hg. cbn zeta. unfold completeScript. cbn [text_of].
  destruct s as [[[fp'|fp' response'] dl]|]; simpl complete_spec.
  - destruct Hg as [-> ->]. destruct (decide (fp' = fp)) as [->|Hne].
    + rewrite !bool_decide_true by done. simpl. split; [done|]. destruct Hr as (h & Hv & Hf & _).
      replace (clock_ms d) with (clock_ms (hset key [("state", "completed"); ("response", response)] d))
        by (unfold clock_ms; by rewrite hset_now).
      eapply represents_until; [rewrite hset_view, decide_True by done; by eexists|].
      unfold fields. rewrite Hv. simpl.
      split_and!; [|by destruct (h !! "state") eqn:E; rewrite lookup_union, E..|];
        rewrite lookup_union; [by rewrite Hf|]. by destruct (h !! "response").
    + rewrite (bool_decide_false (Some fp' = Some fp)) by congruence. done.
  - destruct Hg as (-> & -> & _). rewrite (bool_decide_false (Some "completed" = Some "pending")) by done.
    rewrite orb_true_r. done.
  - rewrite !Hg. done.
Qed.

Lemma release_refines d s fp :
  represents d s ->
  let run := releaseScript [key] [AStr fp] d in
  let '(ok, s') := release_spec fp s in
  run.1 = AInt (if ok then 1 else 0) /\ represents run.2 s'.
Proof using RDOk.
  intros Hr. pose proof (hmget_represents d s Hr) as Hg. cbn zeta. unfold releaseScript. cbn [text_of].
  destruct s as [[[fp'|fp' response'] dl]|]; simpl release_spec.
  - destruct Hg as [-> ->]. destruct (decide (fp' = fp)) as [->|Hne].
    + rewrite !bool_decide_true by done. simpl.
      pose proof (del_count key d) as Hc. pose proof (del_view key d key) as Hd.
      destruct Hr as (h & Hv & _). rewrite Hv, decide_False in Hc by done. rewrite decide_True in Hd by done.
      destruct (del key d) as [n d']. simpl in *. by subst.
    + rewrite (bool_decide_false (Some fp' = Some fp)) by congruence. done.
  - destruct Hg as (-> & -> & _). rewrite (bool_decide_false (Some "completed" = Some "pending")) by done.
    rewrite andb_false_r. done.
  - rewrite !Hg. done.
Qed.

End refinement.

(** ** The store refines the specification *)

Section store.
Context {W D : Type} {RD : Redis D} {RDOk : RedisOk D}.
Context (s : RedisStore W D) (db : ref W D) {EOk : EvaluatorOk (evaluator s) db}.

(** The key of [w'] holds what [f] makes of the slot, at some later moment,
    with the result [a]; without a result [f] may or may not have happened. *)
Definition stepped {A} (key : string) (x : slot) (f : Z -> slot -> A * slot) (a : option A) (w' : W) : Prop :=
  exists now x1, expires now x x1 /\
    match a with
    | Some a => f now x1 = (a, (f now x1).2) /\ represents (redisKey key) (ref_get db w') (f now x1).2
    | None => represents (redisKey key) (ref_get db w') x1 \/
              represents (redisKey key) (ref_get db w') (f now x1).2
    end.

Lemma Begin_spec ctx key fp x w :
  represents (redisKey key) (ref_get db w) x ->
  wp (Begin s ctx key fp)
    (fun r w' =>
       match r with
       | inr res => stepped key x (fun now => begin_spec now (milliseconds (lockTTL s)) fp) (Some res) w'
       | inl e => stepped key x (fun now => begin_spec now (milliseconds (lockTTL s)) fp) None w'
       end) (fun _ => False) w.
Proof using RDOk EOk.
  intros Hr. unfold Begin. apply wp_bind. eapply wp_mono; [apply eval_atomic| |done].
  intros r w' (d1 & Henv & _ & Hev). cbn beta.
  destruct (represents_env _ _ d1 _ Hr Henv) as (x1 & Hx1 & Hexp).
  pose proof (begin_refines (redisKey key) d1 x1 fp (milliseconds (lockTTL s)) Hx1) as Href.
  cbn zeta in Href. destruct (begin_spec _ _ fp x1) as [res x2] eqn:E. destruct Href as [Hp Hx2].
  destruct r as [e|v]; apply wp_ret.
  - exists (clock_ms d1), x1. split; [done|]. rewrite E. destruct Hev as [->| ->]; [by left|by right].
  - rewrite Hev in Hp, Hx2. simpl in Hp, Hx2. rewrite Hp.
    exists (clock_ms d1), x1. split; [done|]. rewrite E. done.
Qed.

Lemma Complete_spec ctx key fp response x w :
  represents (redisKey key) (ref_get db w) x ->
  wp (Complete s ctx key fp response)
    (fun r w' =>
       match r with
       | None => stepped key x (fun now => complete_spec now (milliseconds (resultTTL s)) fp response) (Some true) w'
       | Some e =>
           (e = EText "idempotency request is no longer pending" /\
            stepped key x (fun now => complete_spec now (milliseconds (resultTTL s)) fp response) (Some false) w') \/
           stepped key x (fun now => complete_spec now (milliseconds (resultTTL s)) fp response) None w'
       end) (fun _ => False) w.
Proof using RDOk EOk.
  intros Hr. unfold Complete. apply wp_bind. eapply wp_mono; [apply eval_atomic| |done].
  intros r w' (d1 & Henv & _ & Hev). cbn beta.
  destruct (represents_env _ _ d1 _ Hr Henv) as (x1 & Hx1 & Hexp).
  pose proof (complete_slot_refines (redisKey key) d1 x1 fp response (milliseconds (resultTTL s)) Hx1) as Href.
  cbn zeta in Href. destruct (complete_spec _ _ fp response x1) as [ok x2] eqn:E. destruct Href as [Hp Hx2].
  destruct r as [e|v].
  - apply wp_ret. right. exists (clock_ms d1), x1. split; [done|]. rewrite E.
    destruct Hev as [->| ->]; [by left|by right].
  - rewrite Hev in Hp, Hx2. simpl in Hp, Hx2. subst v. simpl. destruct ok; apply wp_ret; [|left; split; [done|]];
      (exists (clock_ms d1), x1; split; [done|]; by rewrite E).
Qed.

Lemma Release_spec ctx key fp x w :
  represents (redisKey key) (ref_get db w) x ->
  wp (Release s ctx key fp)
    (fun r w' =>
       match r with
       | None => exists ok, stepped key x (fun _ => release_spec fp) (Some ok) w'
       | Some e => stepped key x (fun _ => release_spec fp) None w'
       end) (fun _ => False) w.
Proof using RDOk EOk.
  intros Hr. unfold Release. apply wp_bind. eapply wp_mono; [apply eval_atomic| |done].
  intros r w' (d1 & Henv & _ & Hev). cbn beta.
  destruct (represents_env _ _ d1 _ Hr Henv) as (x1 & Hx1 & Hexp).
  pose proof (release_refines (redisKey key) d1 x1 fp Hx1) as Href.
  cbn zeta in Href. destruct (release_spec fp x1) as [ok x2] eqn:E. destruct Href as [Hp Hx2].
  destruct r as [e|v]; apply wp_ret.
  - exists (clock_ms d1), x1. split; [done|]. rewrite E. destruct Hev as [->| ->]; [by left|by right].
  - rewrite Hev in Hx2. exists ok, (clock_ms d1), x1. split; [done|]. by rewrite E.
Qed.

(** C7: The store implements the free/pending/completed machine. From a key in
    any state, each of [Begin], [Complete] and [Release] performs exactly the
    transition of the specification at some moment (the entry may expire before)
    and reports its outcome; when the server cannot be reached an error is
    returned and the transition happened once or not at all. None of them
    panics. *)
Theorem idempotency_store_refines ctx key fp response x w :
  represents (redisKey key) (ref_get db w) x ->
  let lock := milliseconds (lockTTL s) in
  let keep := milliseconds (resultTTL s) in
  wp (Begin s ctx key fp)
    (fun r w' =>
       match r with
       | inr res => stepped key x (fun now => begin_spec now lock fp) (Some res) w'
       | inl e => stepped key x (fun now => begin_spec now lock fp) None w'
       end) (fun _ => False) w /\
  wp (Complete s ctx key fp response)
    (fun r w' =>
       match r with
       | None => stepped key x (fun now => complete_spec now keep fp response) (Some true) w'
       | Some e =>
           (e = EText "idempotency request is no longer pending" /\
            stepped key x (fun now => complete_spec now keep fp response) (Some false) w') \/
           stepped key x (fun now => complete_spec now keep fp response) None w'
       end) (fun _ => False) w /\
  wp (Release s ctx key fp)
    (fun r w' =>
       match r with
       | None => exists ok, stepped key x (fun _ => release_spec fp) (Some ok) w'
       | Some e => stepped key x (fun _ => release_spec fp) None w'
       end) (fun _ => False) w.
Proof using RDOk EOk.
  intros Hr lock keep. split_and!; [by apply Begin_spec|by apply Complete_spec|by apply Release_spec].
Qed.

End store.

(** ** Histories of one key *)

Inductive op : Type :=
| OBegin (fp : string)
| OComplete (fp response : string)
| ORelease (fp : string).

Section history.
Context {D : Type} {RD : Redis D} {RDOk : RedisOk D} (key : string) (lock keep : Z).

(** What the server does for a request of a client. *)
Definition exec (o : op) (d : D) : any * D :=
  match o with
  | OBegin fp => beginScript [key] [AStr fp; AInt lock] d
  | OComplete fp response => completeScript [key] [AStr fp; ABytes response; AInt keep] d
  | ORelease fp => releaseScript [key] [AStr fp] d
  end.

(** The requests of any number of clients in the order in which the server runs
    them, with the time and the reply of each. *)
Inductive history : D -> list (Z * op * any) -> D -> Prop :=
| history_nil d : history d [] d
| history_op d d1 o h d2 :
    environment key d d1 -> history (exec o d1).2 h d2 ->
    history d ((clock_ms d1, o, (exec o d1).1) :: h) d2.

Lemma history_step d d1 t o h d2 :
  environment key d d1 -> clock_ms d1 = t -> history (exec o d1).2 h d2 ->
  history d ((t, o, (exec o d1).1) :: h) d2.
Proof using Type. intros H <- Hh. by apply history_op. Qed.

(** An entry that the operations of [h] do not touch stays until its deadline. *)
Lemma history_stays (e : entry) dl d h d' (P : op -> any -> Prop) (ok : op -> Prop) :
  (forall d1 o, represents key d1 (Some (e, dl)) -> ok o ->
     P o (exec o d1).1 /\ represents key (exec o d1).2 (Some (e, dl))) ->
  history d h d' -> represents key d (Some (e, dl)) ->
  Forall (fun x => x.1.1 < dl /\ ok x.1.2) h -> Forall (fun x => P x.1.2 x.2) h.
Proof using Type.
  intros Hstep Hh. induction Hh as [d|d d1 o h d2 Henv Hh IH]; intros Hr Hall; [constructor|].
  apply Forall_cons in Hall as [[Ht Ho] Hall]. simpl in Ht, Ho.
  destruct (represents_env key d d1 _ Hr Henv) as (s' & Hs' & [->|(-> & e' & dl' & [= <- <-] & Hdl)]); [|lia].
  destruct (Hstep d1 o Hs' Ho) as [HP Hr']. constructor; [done|]. by apply IH.
Qed.

(** [o] does not end the reservation of [fp]. *)
Definition keeps (fp : string) (o : op) : Prop :=
  match o with
  | OBegin _ => True
  | OComplete fp' _ | ORelease fp' => fp' <> fp
  end.

Definition answers_begin (o : op) (v : any) (f : string -> Result) : Prop :=
  match o with
  | OBegin fp' => parseBegin v = inr (f fp')
  | _ => True
  end.


(** C11: Replay. Once a pending request completed with a response, and until the
    result's time to live has passed, every [Begin] with the same fingerprint
    gets exactly that response and every other one is told "conflict"; no
    operation of any client changes it. *)
Theorem idempotency_replays fp response dl d h d' :
  0 < keep -> represents key d (Some (Pending fp, dl)) ->
  history (exec (OComplete fp response) d).2 h d' ->
  Forall (fun x => x.1.1 < clock_ms d + keep) h ->
  (exec (OComplete fp response) d).1 = AInt 1 /\
  Forall (fun x => answers_begin x.1.2 x.2
            (fun fp' => if decide (fp' = fp) then mkResult StatusCompleted response
                        else mkResult StatusConflict "")) h.
Proof using RDOk.
  intros Hkeep Hp Hh Hall.
  pose proof (complete_slot_refines key d _ fp response keep Hp) as Hc. simpl in Hc.
  rewrite decide_True in Hc by done. destruct Hc as [Hv Hr].
  unfold until in Hr. rewrite (proj2 (Z.ltb_lt 0 keep)) in Hr by done.
  split; [done|].
  eapply (history_stays _ _ _ _ _ (fun o v => answers_begin o v _) (fun _ => True)); [|done..|].
  2:{ eapply Forall_impl; [done|]. done. }
  clear -RDOk. intros d1 o Hr _. destruct o as [fp'|fp' r|fp']; simpl exec; simpl answers_begin.
  - pose proof (begin_refines key d1 _ fp' lock Hr) as Hb. simpl in Hb.
    destruct (decide (fp = fp')) as [->|]; [rewrite decide_True by done; done|].
    rewrite decide_False by congruence. done.
  - pose proof (complete_slot_refines key d1 _ fp' r keep Hr) as Hb. split; [done|]. apply Hb.
  - pose proof (release_refines key d1 _ fp' Hr) as Hb. split; [done|]. apply Hb.
Qed.

End history.

(** ** Sub-millisecond locks *)

(** [NewRedisStore] accepts a lock of less than a millisecond, but its time to
    live is rounded down to 0, and [PEXPIRE] with 0 deletes the key: the key is
    free again as soon as it was acquired, so every [Begin] acquires it. *)
Lemma sub_millisecond_lock {W D} {RD : Redis D} {RDOk : RedisOk D} (e : Evaluator W D) ttl keep key fp d :
  0 < ttl < millisecond -> 0 < keep ->
  view d key = None ->
  NewRedisStore (Some e) ttl keep = inr (mkRedisStore e ttl keep) /\
  parseBegin (beginScript [key] [AStr fp; AInt (milliseconds ttl)] d).1 = inr (mkResult StatusAcquired "") /\
  view (beginScript [key] [AStr fp; AInt (milliseconds ttl)] d).2 key = None.
Proof.
  intros Ht Hk Hv. assert (Hms : milliseconds ttl = 0) by (unfold milliseconds; apply Z.quot_small; lia).
  split.
  - unfold NewRedisStore. rewrite !(proj2 (Z.leb_gt _ _)) by lia. done.
  - rewrite Hms. apply (begin_refines key d None fp 0 Hv).
Qed.

(** ** Examples *)

Section witnesses.

Definition demo_store : RedisStore db db := mkRedisStore direct (30 * second) hour.

Lemma idempotency_store_refines_witness :
  wp (Begin demo_store context.Background "k" "f")
    (fun r w' =>
       match r with
       | inr res => stepped whole "k" None (fun now => begin_spec now 30000 "f") (Some res) w'
       | inl e => stepped whole "k" None (fun now => begin_spec now 30000 "f") None w'
       end) (fun _ => False) (fresh 5).
Proof.
  apply (idempotency_store_refines demo_store whole (EOk := direct_ok) context.Background "k" "f" "r" None (fresh 5)).
  done.
Defined.

(** A second request with the same fingerprint, and one with another. *)
Definition after_begin : db := (exec "k" 30000 3600000 (OBegin "f") (fresh 5)).2.

Lemma after_begin_history :
  exists v1 v2 d', history "k" 30000 3600000 after_begin [(5, OBegin "f", v1); (5, OBegin "g", v2)] d'.
Proof.
  eexists _, _, _. eapply history_step; [apply environment_refl|by vm_compute|].
  eapply history_step; [apply environment_refl|by vm_compute|]. apply history_nil.
Qed.


Lemma after_begin_pending : represents "k" after_begin (Some (Pending "f", 30005)).
Proof.
  assert (Hfree : view (fresh 5) "k" = None) by (by vm_compute).
  apply (begin_refines "k" (fresh 5) None "f" 30000 Hfree).
Qed.

Definition after_complete : db := (exec "k" 30000 3600000 (OComplete "f" "answer") after_begin).2.

Lemma after_complete_history :
  exists v1 d', history "k" 30000 3600000 after_complete [(5, OBegin "f", v1)] d'.
Proof.
  eexists _, _. eapply history_step; [apply environment_refl|by vm_compute|]. apply history_nil.
Qed.

Lemma idempotency_replays_witness :
  exists v1, parseBegin v1 = inr (mkResult StatusCompleted "answer").
Proof.
  destruct after_complete_history as (v1 & d' & Hh). exists v1.
  destruct (idempotency_replays "k" 30000 3600000 "f" "answer" 30005 after_begin _ d' ltac:(lia)
    after_begin_pending Hh) as [_ H].
  { constructor; [by vm_compute|constructor]. }
  by apply Forall_cons in H as [H1 _].
Defined.

End witnesses.

End idempotency.
