(* ===== verification/Cache.v ===== *)
(** * The response cache (internal/cache/cache.go)

    The Redis-backed store and the policy that decides what is cached and under
    which key; also the separation of the keys of different clients. *)

From stdpp Require Import base gmap list strings.
From Stdlib Require Import ZArith Lia.
From S2P Require Import Prelude Float64 Types GoStrings Context Codec Redis RateLimit Idempotency.

Local Open Scope Z_scope.
Local Open Scope go_scope.

Module cache.

Definition StatusBypass : string := "BYPASS".
Definition StatusMiss : string := "MISS".
Definition StatusHit : string := "HIT".

(** The [KeyValueStore] and [Store] interfaces. *)
Record KeyValueStore (W : Type) : Type := mkKeyValueStore {
  kv_Get : context.Ctx -> string -> M W (error + string);
  kv_Set : context.Ctx -> string -> string -> Z -> M W (option error);
}.
Arguments mkKeyValueStore {W} _ _.
Arguments kv_Get {W} _ _ _.
Arguments kv_Set {W} _ _ _ _ _.

Record Store (W : Type) : Type := mkStore {
  store_Get : context.Ctx -> string -> M W (error + option string);
  store_Set : context.Ctx -> string -> string -> M W (option error);
}.
Arguments mkStore {W} _ _.
Arguments store_Get {W} _ _ _.
Arguments store_Set {W} _ _ _ _.

Record RedisCache (W : Type) : Type := mkRedisCache {
  store : KeyValueStore W;
  ttl : Z;
}.
Arguments mkRedisCache {W} _ _.
Arguments store {W} _.
Arguments ttl {W} _.

Definition NewRedisCache {W} (store : option (KeyValueStore W)) (ttl : Z) : string + RedisCache W :=
  match store with
  | None => inl "cache store is required"
  | Some s => if ttl <=? 0 then inl "cache TTL must be positive" else inr (mkRedisCache s ttl)
  end.

Definition cache_key (key : string) : string := "modelgate:cache:" +:+ key.

(** A missing key is no error: ([]byte, false, nil). *)
Definition Get {W} (c : RedisCache W) (ctx : context.Ctx) (key : string) : M W (error + option string) :=
  let! r := kv_Get (store c) ctx (cache_key key) in
  match r with
  | inl err =>
      if errors_Is err ErrNotFound then ret (inr None)
      else ret (inl (EWrap "get cached response" err))
  | inr value => ret (inr (Some value))
  end.

Definition Set_ {W} (c : RedisCache W) (ctx : context.Ctx) (key response : string) : M W (option error) :=
  let! err := kv_Set (store c) ctx (cache_key key) response (ttl c) in
  match err with
  | Some e => ret (Some (EWrap "set cached response" e))
  | None => ret None
  end.

Definition redisCache {W} (c : RedisCache W) : Store W := mkStore (Get c) (Set_ c).

(** [Policy.Key]: [inr None] is ("", false, nil). *)
Definition Key `{!codec.Sha256, !codec.Json} (identity : string) (req : option ChatRequest)
  : error + option string :=
  match req with
  | None => inr None
  | Some req =>
      if Stream req ||
         match Temperature req with None => true | Some t => negb (feq t (float_of_Z 0)) end
      then inr None
      else
        match codec.MarshalRequest req with
        | inl err => inl (EWrap "encode cache fingerprint" err)
        | inr canonical =>
            inr (Some (codec.hex_digest (identity +:+ idempotency.zero_byte +:+ canonical)))
        end
  end.

(** ** Keys of different clients *)

Lemma bytes_of_inj s t : bytes_of s = bytes_of t -> s = t.
Proof. intros H. rewrite <- (of_bytes_of s), <- (of_bytes_of t). by rewrite H. Qed.

(** Texts joined by a zero byte are determined by the result, if the second has
    no zero byte. *)
Lemma last_zero_split (a a' b b' : list Z) :
  a ++ 0 :: b = a' ++ 0 :: b' -> Forall (fun x => x <> 0) b -> Forall (fun x => x <> 0) b' ->
  a = a' /\ b = b'.
Proof.
  revert a'. induction a as [|x a IH]; intros [|x' a'] H Hb Hb'; simplify_eq/=; [by split| | |].
  - exfalso. apply Forall_app in Hb as [_ Hb]. by apply Forall_cons in Hb as [? _].
  - exfalso. apply Forall_app in Hb' as [_ Hb']. by apply Forall_cons in Hb' as [? _].
  - destruct (IH a') as [-> ->]; [done..|]. by split.
Qed.

Definition no_nul (s : string) : Prop := Forall (fun b => b <> 0) (bytes_of s).

Lemma joined_inj i i' k k' :
  no_nul k -> no_nul k' ->
  i +:+ idempotency.zero_byte +:+ k = i' +:+ idempotency.zero_byte +:+ k' -> i = i' /\ k = k'.
Proof.
  intros Hk Hk' H. apply (f_equal bytes_of) in H. rewrite !bytes_of_app in H.
  change (bytes_of idempotency.zero_byte) with [0] in H. simpl in H.
  destruct (last_zero_split _ _ _ _ H Hk Hk') as [H1 H2]. split; by apply bytes_of_inj.
Qed.

(** The texts that are hashed for a client. *)
Definition scoped (i text : string) : string := i +:+ idempotency.zero_byte +:+ text.

Section separation.
Context `{!codec.Sha256, !codec.Sha256Ok, !codec.Json, !codec.JsonOk}.

Lemma Key_inv i req key :
  Key i (Some req) = inr (Some key) ->
  Stream req = false /\ (exists t, Temperature req = Some t /\ feq t (float_of_Z 0) = true) /\
  exists c, codec.MarshalRequest req = inr c /\ key = codec.hex_digest (scoped i c).
Proof.
  unfold Key. set (zero := float_of_Z 0). destruct (Stream req); [done|]. simpl.
  destruct (Temperature req) as [t|]; [|done]. destruct (feq t zero) eqn:E; [|done]. simpl.
  destruct (codec.MarshalRequest req) as [e|c]; [done|]. intros [= <-].
  split_and!; [done|by exists t|by exists c].
Qed.

(** C29: No two clients share state. As long as SHA-256 has no collision among
    the texts [P] in use, two requests get the same cache key only if the clients
    and the encoded requests agree, the same idempotency key only if client and
    key agree, and the same rate-limit bucket only if the client is the same; and
    a request is cached only if it is no stream and its temperature is present
    and zero. *)
Theorem keys_separate_clients (P : string -> Prop) i i' req req' k k' key :
  codec.collision_free P -> P i -> P i' -> P (scoped i k) -> P (scoped i' k') ->
  (forall c, codec.MarshalRequest req = inr c -> P (scoped i c)) ->
  (forall c, codec.MarshalRequest req' = inr c -> P (scoped i' c)) ->
  no_nul k -> no_nul k' ->
  (Key i (Some req) = inr (Some key) ->
     Stream req = false /\ (exists t, Temperature req = Some t /\ feq t (float_of_Z 0) = true) /\
     (Key i' (Some req') = inr (Some key) ->
        i = i' /\ codec.MarshalRequest req = codec.MarshalRequest req')) /\
  (idempotency.ScopedKey i k = idempotency.ScopedKey i' k' -> i = i' /\ k = k') /\
  (ratelimit.limiter_key i = ratelimit.limiter_key i' -> i = i').
Proof.
  intros Hc Hi Hi' Hs Hs' Hr Hr' Hk Hk'. split_and!.
  - intros Ha. apply Key_inv in Ha as (Hst & Ht & c & Hm & ->). split_and!; [done..|].
    intros Hb. apply Key_inv in Hb as (_ & _ & c' & Hm' & Hd).
    apply (codec.hex_digest_inj P) in Hd; [|by auto..].
    apply joined_inj in Hd as [-> ->]; [|by eapply codec.request_no_nul..].
    split; [done|congruence].
  - intros Hb. apply (codec.hex_digest_inj P) in Hb; [|done..]. by apply joined_inj.
  - intros Hb. apply (inj (String.append "modelgate:ratelimit:")) in Hb.
    by apply (codec.hex_digest_inj P) in Hb.
Qed.

End separation.

(** ** An instance

    A digest that pads or cuts to 32 bytes, and an encoder that keeps the model
    of a request. *)
Module examples.

#[global] Instance pad_sha : codec.Sha256 := fun s => take 32 (bytes_of s ++ replicate 32 0).

#[global] Instance pad_sha_ok : codec.Sha256Ok.
Proof.
  split; intros s; unfold codec.Sum256, pad_sha.
  - rewrite length_take, length_app, length_replicate. lia.
  - apply Forall_take, Forall_app. split; [apply bytes_of_range|]. by apply Forall_replicate.
Qed.

(** Only requests for the model "m" and nothing else are encoded. *)
#[global] Instance tiny_json : codec.Json := {
  codec.MarshalRequest r := if bool_decide (Model r = "m") then inr "m" else inl (EText "unsupported");
  codec.MarshalResponse _ := inl (EText "unsupported");
  codec.UnmarshalResponse _ := inl (EText "unsupported");
  codec.MarshalChunk _ := inl (EText "unsupported");
  codec.UnmarshalChunk _ := inl (EText "unsupported");
}.

#[global] Instance tiny_json_ok : codec.JsonOk.
Proof.
  split; try done. intros r s H. simpl in H. case_bool_decide; [|done]. injection H as <-.
  by repeat constructor.
Qed.

Definition demo_request : ChatRequest := mkChatRequest "m" [] (Some (float_of_Z 0)) None None false.

Definition demo_texts : list string :=
  ["10.0.0.1"; "10.0.0.2"; scoped "10.0.0.1" "key"; scoped "10.0.0.2" "key";
   scoped "10.0.0.1" "m"; scoped "10.0.0.2" "m"].

Lemma demo_collision_free : codec.collision_free (fun s => s ∈ demo_texts).
Proof.
  intros s t Hs Ht Heq.
  assert (Hall : Forall (fun s => Forall (fun t => codec.Sum256 s = codec.Sum256 t -> s = t) demo_texts) demo_texts).
  { apply (bool_decide_unpack _). by vm_compute. }
  rewrite Forall_forall in Hall. specialize (Hall s Hs). rewrite Forall_forall in Hall. by apply Hall.
Qed.

End examples.

Lemma keys_separate_clients_witness :
  (idempotency.ScopedKey "10.0.0.1" "key" = idempotency.ScopedKey "10.0.0.2" "key" ->
     "10.0.0.1" = "10.0.0.2") /\
  Stream examples.demo_request = false.
Proof.
  destruct (keys_separate_clients (fun s => s ∈ examples.demo_texts) "10.0.0.1" "10.0.0.2"
    examples.demo_request examples.demo_request "key" "key"
    (codec.hex_digest (scoped "10.0.0.1" "m"))) as (Hcache & Hscoped & _).
  - apply examples.demo_collision_free.
  - apply (bool_decide_unpack _). by vm_compute.
  - apply (bool_decide_unpack _). by vm_compute.
  - apply (bool_decide_unpack _). by vm_compute.
  - apply (bool_decide_unpack _). by vm_compute.
  - intros c [= <-]. apply (bool_decide_unpack _). by vm_compute.
  - intros c [= <-]. apply (bool_decide_unpack _). by vm_compute.
  - by repeat constructor.
  - by repeat constructor.
  - split; [apply Hscoped|]. apply Hcache. done.
Defined.

End cache.
