(* ===== verification/RedisStore.v ===== *)
(** * The Redis client (internal/redisstore/client.go)

    The wrapper around the go-redis client, which is a parameter, and what the
    response cache over it returns. *)

From stdpp Require Import base gmap list strings.
From Stdlib Require Import ZArith Lia.
From S2P Require Import Prelude Types GoStrings Context Redis Cache.

Local Open Scope Z_scope.
Local Open Scope go_scope.

Module redisstore.

(** The commands of [redis.Client] that are used, with the results of [Bytes] and
    [Err]. *)
Record Inner (W D : Type) : Type := mkInner {
  inner_Ping : context.Ctx -> M W (option error);
  inner_Eval : context.Ctx -> redis.script D -> list string -> list redis.any -> M W (error + redis.any);
  inner_Get : context.Ctx -> string -> M W (string * option error);
  inner_Set : context.Ctx -> string -> string -> Z -> M W (option error);
  inner_Close : M W (option error);
}.
Arguments mkInner {W D} _ _ _ _ _.
Arguments inner_Ping {W D} _ _.
Arguments inner_Eval {W D} _ _ _ _ _.
Arguments inner_Get {W D} _ _ _.
Arguments inner_Set {W D} _ _ _ _ _.
Arguments inner_Close {W D} _.

Record Client (W D : Type) : Type := mkClient { inner : Inner W D }.
Arguments mkClient {W D} _.
Arguments inner {W D} _.

(** The options that [New] passes to the library. *)
Record Options : Type := mkOptions {
  Addr : string;
  Password : string;
  DB : Z;
  DialTimeout : Z;
  ReadTimeout : Z;
  WriteTimeout : Z;
}.

Section operations.
Context {W D : Type}.

Definition New (NewClient : Options -> Inner W D) (addr password : string) (database timeout : Z) : Client W D :=
  mkClient (NewClient (mkOptions addr password database timeout timeout timeout)).

Definition Ping (c : Client W D) (ctx : context.Ctx) : M W (option error) := inner_Ping (inner c) ctx.

Definition Eval (c : Client W D) (ctx : context.Ctx) (s : redis.script D) (keys : list string) (args : list redis.any)
  : M W (error + redis.any) := inner_Eval (inner c) ctx s keys args.

Definition Get (c : Client W D) (ctx : context.Ctx) (key : string) : M W (error + string) :=
  let! '(value, err) := inner_Get (inner c) ctx key in
  match err with
  | Some e => if errors_Is e RedisNil then ret (inl (ESentinel ErrNotFound)) else ret (inl e)
  | None => ret (inr value)
  end.

Definition Set_ (c : Client W D) (ctx : context.Ctx) (key value : string) (ttl : Z) : M W (option error) :=
  inner_Set (inner c) ctx key value ttl.

Definition Close (c : Client W D) : M W (option error) := inner_Close (inner c).

Definition keyValueStore (c : Client W D) : cache.KeyValueStore W := cache.mkKeyValueStore (Get c) (Set_ c).
Definition evaluator (c : Client W D) : redis.Evaluator W D := redis.mkEvaluator (Eval c).

End operations.

(** ** The cache over the client *)

Section properties.
Context {W D : Type} {HR : context.HasRuntime W} (c : Client W D).
(** The texts in the database, each with the time at which it expires. *)
Context (kv : W -> gmap string (string * Z)).

Definition live_at (now : Z) (w : W) (key : string) : option string :=
  match kv w !! key with
  | Some (v, expiry) => if now <? expiry then Some v else None
  | None => None
  end.

(** GET and SET with an expiry, as documented: the command takes effect at some
    time during the call, or fails with an error other than redis.Nil. *)
Class ClientOk : Prop := {
  get_ok : forall ctx key w, twp (inner_Get (inner c) ctx key) (fun r w' =>
    kv w' = kv w /\ exists now, context.Now w <= now <= context.Now w' /\
    match r with
    | (v, None) => live_at now w key = Some v
    | (_, Some e) => errors_Is e RedisNil = true -> live_at now w key = None
    end) w;
  set_ok : forall ctx key v ttl w, twp (inner_Set (inner c) ctx key v ttl) (fun r w' =>
    exists now, context.Now w <= now <= context.Now w' /\
    (r = None -> kv w' = <[key := (v, now + ttl)]> (kv w))) w;
  (** the client does not return the cache's own error *)
  get_not_found : forall ctx key w v e w', inner_Get (inner c) ctx key w = Ret (v, Some e) w' ->
    errors_Is e ErrNotFound = false;
}.
Context {HC : ClientOk}.

Abbreviation cache_ ttl := (cache.mkRedisCache (keyValueStore c) ttl).

(** A lookup in the cache: the live entry, a miss if there is none, or a failure of
    the client. *)
Lemma cache_Get_spec ttl ctx key w :
  twp (cache.Get (cache_ ttl) ctx key) (fun r w' =>
    kv w' = kv w /\ exists now, context.Now w <= now <= context.Now w' /\
    match r with
    | inr o => o = live_at now w (cache.cache_key key)
    | inl _ => True
    end) w.
Proof using HC.
  unfold cache.Get. cbn [cache.kv_Get keyValueStore cache.store]. unfold Get.
  pose proof (get_ok ctx (cache.cache_key key) w) as H. apply twp_Ret in H as ([v err] & w1 & E & Hkv & now & Hnow & Hr).
  apply twp_Ret. unfold bind. rewrite E. destruct err as [e|].
  - destruct (errors_Is e RedisNil) eqn:Hnil.
    + do 2 eexists. split; [done|]. cbn. split; [done|]. exists now. split; [done|]. by rewrite Hr.
    + cbn. rewrite (get_not_found _ _ _ _ _ _ E). do 2 eexists. split; [done|]. split; [done|]. by exists now.
  - do 2 eexists. split; [done|]. cbn. split; [done|]. exists now. by rewrite Hr.
Qed.


End properties.

Module witnesses.

(** A database in the world; every command takes one nanosecond. *)
Definition demo : Type := context.world (gmap string (string * Z)).
Definition demo_kv (w : demo) : gmap string (string * Z) := w.2.

Definition demo_inner : Inner demo unit := mkInner
  (fun _ => ret None)
  (fun _ _ _ _ => ret (inr redis.ANil))
  (fun _ key w => Ret (match live_at demo_kv (context.Now w) w key with
                       | Some v => (v, None)
                       | None => ("", Some (ESentinel RedisNil))
                       end) w)
  (fun _ key v ttl w => Ret None ((context.advance_clock 1 w).1, <[key := (v, context.Now w + ttl)]> w.2))
  (ret None).

Lemma demo_inner_ok : ClientOk (mkClient demo_inner) demo_kv.
Proof.
  constructor.
  - intros ctx key w. cbn. split; [done|]. exists (context.Now w). split; [lia|].
    by destruct (live_at demo_kv (context.Now w) w key).
  - intros ctx key v ttl w. cbn. exists (context.Now w). split; [|done].
    unfold context.Now. cbn. lia.
  - intros ctx key w v e w'. cbn. destruct (live_at _ _ _ _); [done|]. by intros [= _ <- _].
Qed.


End witnesses.
End redisstore.
