(* ===== verification/Storage.v ===== *)
(** * Usage storage (internal/storage)

    Recording of requests in PostgreSQL and the migrations. The database is a
    parameter: a transaction is an interface of operations, and the statements
    that the code sends are values of the type [sql]. The adapter of the pgx pool
    (transaction.go) implements the interface over the driver. *)

From stdpp Require Import base list strings sorting.
From Stdlib Require Import ZArith Lia.
From S2P Require Import Prelude Float64 Types GoStrings Context.

Local Open Scope Z_scope.
Local Open Scope go_scope.

Module storage.

Definition StatusSucceeded : string := "succeeded".
Definition StatusFailed : string := "failed".
Definition StatusRateLimited : string := "rate_limited".
Definition StatusIdempotencyReplay : string := "idempotency_replay".
Definition StatusCacheHit : string := "cache_hit".
Definition StatusRejected : string := "rejected".

(** [CreatedAt] is [None] for the zero time. *)
Record RequestRecord : Type := mkRequestRecord {
  rec_RequestID : string;
  rec_Provider : string;
  rec_Model : string;
  rec_Status : string;
  rec_InputTokens : Z;
  rec_OutputTokens : Z;
  rec_TotalTokens : Z;
  rec_Latency : Z;
  rec_EstimatedCost : float64;
  rec_CacheStatus : string;
  rec_ErrorCode : string;
  rec_CreatedAt : option Z;
}.

(** The [Recorder] interface. *)
Record Recorder (W : Type) : Type := mkRecorder {
  Recorder_Record : context.Ctx -> RequestRecord -> M W (option error);
}.
Arguments mkRecorder {W} _.
Arguments Recorder_Record {W} _ _ _.

(** The statements that the package sends. *)
Inductive sql : Type :=
| InsertProvider (name : string)
| InsertRequest (id provider model status : string) (latency_ms : Z) (cache_status : string)
    (error_code : option string) (created_at : Z)
| InsertUsage (request_id : string) (input output total : Z) (cost : float64) (created_at : Z)
| AdvisoryLock (id : Z)
| CreateSchemaMigrations
| ApplyFile (contents : string)
| InsertVersion (version : string).

(** The one query of the package: whether a version is in [schema_migrations]. *)
Inductive query : Type := SelectApplied (version : string).

(** The [Row] interface; the one destination that the package scans into is a bool. *)
Record Row (W : Type) : Type := mkRow {
  Scan : M W (error + bool);
}.
Arguments mkRow {W} _.
Arguments Scan {W} _.

(** The [Transaction] interface. *)
Record Transaction (W : Type) : Type := mkTransaction {
  Exec : context.Ctx -> sql -> M W (option error);
  QueryRow : context.Ctx -> query -> M W (Row W);
  Commit : context.Ctx -> M W (option error);
  Rollback : context.Ctx -> M W (option error);
}.
Arguments mkTransaction {W} _ _ _ _.
Arguments Exec {W} _ _ _.
Arguments QueryRow {W} _ _ _.
Arguments Commit {W} _ _.
Arguments Rollback {W} _ _.

Record Beginner (W : Type) : Type := mkBeginner {
  Begin : context.Ctx -> M W (error + Transaction W);
}.
Arguments mkBeginner {W} _.
Arguments Begin {W} _ _.

(** ** The adapter of the driver *)

(** [pgx.Tx] and [pgxpool.Pool], as far as the code uses them: [Exec] returns a
    command tag beside its error. *)
Record Tx (W : Type) : Type := mkTx {
  tx_Exec : context.Ctx -> sql -> M W (string * option error);
  tx_QueryRow : context.Ctx -> query -> M W (Row W);
  tx_Commit : context.Ctx -> M W (option error);
  tx_Rollback : context.Ctx -> M W (option error);
}.
Arguments mkTx {W} _ _ _ _.
Arguments tx_Exec {W} _ _ _.
Arguments tx_QueryRow {W} _ _ _.
Arguments tx_Commit {W} _ _.
Arguments tx_Rollback {W} _ _.

Record Pool (W : Type) : Type := mkPool {
  pool_Begin : context.Ctx -> M W (error + Tx W);
  pool_Ping : context.Ctx -> M W (option error);
  pool_Close : M W unit;
}.
Arguments mkPool {W} _ _ _.
Arguments pool_Begin {W} _ _.
Arguments pool_Ping {W} _ _.
Arguments pool_Close {W} _.

Section adapter.
Context {W : Type}.

(** The methods of [pgxTransaction]. *)
Definition pgxExec (t : Tx W) (ctx : context.Ctx) (q : sql) : M W (option error) :=
  let! r := tx_Exec t ctx q in
  ret r.2.

Definition pgxQueryRow (t : Tx W) (ctx : context.Ctx) (q : query) : M W (Row W) := tx_QueryRow t ctx q.

Definition pgxCommit (t : Tx W) (ctx : context.Ctx) : M W (option error) := tx_Commit t ctx.

Definition pgxRollback (t : Tx W) (ctx : context.Ctx) : M W (option error) := tx_Rollback t ctx.

Definition pgxTransaction (t : Tx W) : Transaction W :=
  mkTransaction (pgxExec t) (pgxQueryRow t) (pgxCommit t) (pgxRollback t).

(** [PoolAdapter.Begin] *)
Definition poolBegin (pool : Pool W) (ctx : context.Ctx) : M W (error + Transaction W) :=
  let! begun := pool_Begin pool ctx in
  match begun with
  | inl err => ret (inl err)
  | inr tx => ret (inr (pgxTransaction tx))
  end.

Definition NewPoolAdapter (pool : Pool W) : Beginner W := mkBeginner (poolBegin pool).

End adapter.

Definition NewUsageRepository {W} (database : option (Beginner W)) : string + Beginner W :=
  match database with
  | None => inl "usage database is required"
  | Some d => inr d
  end.

(** [NULLIF(s, '')] *)
Definition nullif (s : string) : option string := if bool_decide (s = "") then None else Some s.

Section operations.
Context {W : Type} {HR : context.HasRuntime W}.

(** Run a statement and go on, or return its error under a message. *)
Definition execOr (tx : Transaction W) (ctx : context.Ctx) (q : sql) (msg : string)
    (k : M W (option error)) : M W (option error) :=
  let! err := Exec tx ctx q in
  match err with
  | Some e => ret (Some (EWrap msg e))
  | None => k
  end.

Definition rollback (tx : Transaction W) : M W unit :=
  Rollback tx context.Background ;! ret tt.

Definition commitOr (tx : Transaction W) (ctx : context.Ctx) (msg : string) : M W (option error) :=
  let! err := Commit tx ctx in
  match err with
  | Some e => ret (Some (EWrap msg e))
  | None => ret None
  end.

Definition recordTx (tx : Transaction W) ctx (r : RequestRecord) (createdAt : Z) : M W (option error) :=
  execOr tx ctx (InsertProvider (rec_Provider r)) "ensure provider" (
  execOr tx ctx (InsertRequest (rec_RequestID r) (rec_Provider r) (rec_Model r) (rec_Status r)
      (milliseconds (rec_Latency r)) (rec_CacheStatus r) (nullif (rec_ErrorCode r)) createdAt)
    "insert request record" (
  execOr tx ctx (InsertUsage (rec_RequestID r) (rec_InputTokens r) (rec_OutputTokens r)
      (rec_TotalTokens r) (rec_EstimatedCost r) createdAt)
    "insert usage record" (
  commitOr tx ctx "commit usage transaction"))).

Definition RecordUsage (database : Beginner W) (ctx : context.Ctx) (r : RequestRecord)
  : M W (option error) :=
  let! now := gets context.Now in
  let createdAt := default now (rec_CreatedAt r) in
  if bool_decide (rec_Provider r = "") || bool_decide (rec_Model r = "") ||
     bool_decide (rec_RequestID r = "")
  then ret (Some (EText "request id, provider, and model are required"))
  else if (rec_Latency r <? 0) || (rec_InputTokens r <? 0) || (rec_OutputTokens r <? 0) ||
          (rec_TotalTokens r <? 0)
  then ret (Some (EText "usage counters and latency must be non-negative"))
  else
    let! begun := Begin database ctx in
    match begun with
    | inl e => ret (Some (EWrap "begin usage transaction" e))
    | inr tx => defer (rollback tx) (recordTx tx ctx r createdAt)
    end.

(** ** Migrations *)

(** An [fs.FS] with the entries of its root (name, is it a directory) and the
    contents of its files. *)
Record migrationFS : Type := mkFS {
  ReadDir : error + list (string * bool);
  ReadFile : string -> error + string;
}.

Definition migrationLockID : Z := 684625419732495031.

(** The names that are not directories and end in .sql, in the order of
    [sort.Strings] (byte-wise). *)
Definition isMigration (entry : string * bool) : bool := negb entry.2 && HasSuffix entry.1 ".sql".

Definition sortStrings (l : list string) : list string := merge_sort String.le l.

Definition migrationFiles (entries : list (string * bool)) : list string :=
  sortStrings (filter (fun e => isMigration e = true) entries).*1.

Fixpoint applyFiles (tx : Transaction W) ctx (fs : migrationFS) (files : list string)
  : M W (option error) :=
  match files with
  | [] => commitOr tx ctx "commit migrations"
  | name :: files =>
      let! row := QueryRow tx ctx (SelectApplied name) in
      let! applied := Scan row in
      match applied with
      | inl e => ret (Some (EWrap ("check migration " +:+ name) e))
      | inr true => applyFiles tx ctx fs files
      | inr false =>
          match ReadFile fs name with
          | inl e => ret (Some (EWrap ("read migration " +:+ name) e))
          | inr contents =>
              execOr tx ctx (ApplyFile contents) ("apply migration " +:+ name) (
              execOr tx ctx (InsertVersion name) ("record migration " +:+ name) (
              applyFiles tx ctx fs files))
          end
      end
  end.

Definition migrateTx (tx : Transaction W) ctx (fs : migrationFS) : M W (option error) :=
  execOr tx ctx (AdvisoryLock migrationLockID) "acquire migration lock" (
  execOr tx ctx CreateSchemaMigrations "create schema_migrations" (
  match ReadDir fs with
  | inl e => ret (Some (EWrap "list migrations" e))
  | inr entries => applyFiles tx ctx fs (migrationFiles entries)
  end)).

Definition ApplyMigrations (database : Beginner W) (ctx : context.Ctx) (fs : migrationFS)
  : M W (option error) :=
  let! begun := Begin database ctx in
  match begun with
  | inl e => ret (Some (EWrap "begin migration transaction" e))
  | inr tx => defer (rollback tx) (migrateTx tx ctx fs)
  end.

End operations.

(** ** Specification *)

#[global] Instance float64_eq_dec : EqDecision float64.
Proof. unfold float64. solve_decision. Defined.

#[global] Instance sql_eq_dec : EqDecision sql.
Proof. solve_decision. Defined.

Section spec.
Context {W : Type} {HR : context.HasRuntime W}.

(** [committed] lists the statements whose effects are durable, [working] those
    of the open transaction. A commit that fails may or may not have happened. *)
Class Transactional (database : Beginner W) (good : Transaction W -> Prop)
    (committed : W -> list sql) (working : W -> list sql) : Prop := {
  begin_law : forall ctx w,
    twp (Begin database ctx) (fun r w' => committed w' = committed w /\
      match r with inl _ => True | inr tx => good tx /\ working w' = [] end) w;
  exec_law : forall tx ctx q w, good tx ->
    twp (Exec tx ctx q) (fun err w' => committed w' = committed w /\
      match err with None => working w' = working w ++ [q] | Some _ => True end) w;
  query_law : forall tx ctx name w, good tx ->
    twp (QueryRow tx ctx (SelectApplied name)) (fun row =>
      twp (Scan row) (fun r w' => committed w' = committed w /\ working w' = working w /\
        match r with inr b => b = bool_decide (InsertVersion name ∈ committed w ++ working w) | inl _ => True end)) w;
  commit_law : forall tx ctx w, good tx ->
    twp (Commit tx ctx) (fun err w' =>
      match err with
      | None => committed w' = committed w ++ working w
      | Some _ => committed w' = committed w \/ committed w' = committed w ++ working w
      end) w;
  rollback_law : forall tx ctx w, good tx ->
    twp (Rollback tx ctx) (fun _ w' => committed w' = committed w) w;
}.

Context (database : Beginner W) (good : Transaction W -> Prop) (committed working : W -> list sql).
Context `{!Transactional database good committed working}.

(** The outcome of a transaction that sends [q]: everything or nothing, where only
    a failing commit leaves open which. *)
Definition all_or_nothing (msg : string) (q : list sql) (w : W) (err : option error) (w' : W) : Prop :=
  match err with
  | None => committed w' = committed w ++ q
  | Some e =>
      committed w' = committed w \/
      ((exists c, e = EWrap msg c) /\ committed w' = committed w ++ q)
  end.

(** A body that starts with the statements [l] sent and ends like [all_or_nothing]. *)
Definition body_spec (msg : string) (l q : list sql) (m : M W (option error)) : Prop :=
  forall w, working w = l -> twp m (all_or_nothing msg q w) w.

Lemma commit_body msg tx ctx l : good tx -> body_spec msg l l (commitOr tx ctx msg).
Proof using Transactional0.
  intros Hg w Hl. unfold commitOr. apply twp_bind. eapply twp_mono; [by apply commit_law|].
  intros [e|] w' H; apply twp_ret; simpl; subst l; [|done].
  destruct H as [H|H]; [by left|]. right. split; [by exists e|done].
Qed.

Lemma exec_body msg tx ctx s m k l q :
  good tx -> body_spec msg (l ++ [s]) q k -> body_spec msg l q (execOr tx ctx s m k).
Proof using Transactional0.
  intros Hg Hk w Hl. unfold execOr. apply twp_bind. eapply twp_mono; [by apply exec_law|].
  intros [e|] w' [Hc Hw]; [apply twp_ret; by left|].
  eapply twp_mono; [apply Hk; by rewrite Hw, Hl|].
  unfold all_or_nothing. by rewrite Hc.
Qed.

(** The deferred rollback changes nothing that is durable. *)
Lemma with_rollback msg tx q m :
  good tx -> body_spec msg [] q m -> body_spec msg [] q (defer (rollback tx) m).
Proof using Transactional0.
  intros Hg Hm w Hl. apply twp_defer. eapply twp_mono; [by apply Hm|].
  intros err w' H. unfold rollback. apply twp_bind. eapply twp_mono; [by apply rollback_law|].
  intros ? w2 Hc. apply twp_ret. unfold all_or_nothing in *. by rewrite Hc.
Qed.

(** The statements of one usage record. *)
Definition usage_statements (r : RequestRecord) (createdAt : Z) : list sql :=
  [InsertProvider (rec_Provider r);
   InsertRequest (rec_RequestID r) (rec_Provider r) (rec_Model r) (rec_Status r)
     (milliseconds (rec_Latency r)) (rec_CacheStatus r) (nullif (rec_ErrorCode r)) createdAt;
   InsertUsage (rec_RequestID r) (rec_InputTokens r) (rec_OutputTokens r) (rec_TotalTokens r)
     (rec_EstimatedCost r) createdAt].

(** A record that is complete, with non-negative counters. *)
Definition valid_record (r : RequestRecord) : Prop :=
  rec_Provider r <> "" /\ rec_Model r <> "" /\ rec_RequestID r <> "" /\
  0 <= rec_Latency r /\ 0 <= rec_InputTokens r /\ 0 <= rec_OutputTokens r /\ 0 <= rec_TotalTokens r.

(** C31: Recording is atomic. [Record] returns; if it returns nil the record was
    valid and exactly its three statements (provider, request, usage) are
    durable, with the current time if it had none; if it returns an error
    nothing of it is durable, except that a failing commit may have stored all of
    it. There is never a request without its usage row. *)
Theorem usage_record_atomic ctx r w :
  twp (RecordUsage database ctx r)
    (fun err w' =>
       all_or_nothing "commit usage transaction"
         (usage_statements r (default (context.Now w) (rec_CreatedAt r))) w err w' /\
       (err = None -> valid_record r) /\
       (committed w' <> committed w -> valid_record r)) w.
Proof using Transactional0.
  unfold RecordUsage. twp_steps. unfold valid_record.
  destruct (_ || _) eqn:E1; [apply twp_ret; by split_and!; [left|..]|].
  destruct (_ || _ || _ || _) eqn:E2; [apply twp_ret; by split_and!; [left|..]|].
  repeat rewrite orb_false_iff in E1. repeat rewrite orb_false_iff in E2.
  destruct E1 as [[H1 H2] H3]. destruct E2 as [[[H4 H5] H6] H7].
  apply bool_decide_eq_false in H1, H2, H3. apply Z.ltb_ge in H4, H5, H6, H7.
  apply twp_bind. eapply twp_mono; [apply begin_law|].
  intros [e|tx] w1 [Hc Hw]; [apply twp_ret; split_and!; [by left|done..]|]. destruct Hw as [Hg Hw].
  eapply twp_mono; [eapply with_rollback; [done| |done]|].
  { apply exec_body; [done|]. apply exec_body; [done|]. apply exec_body; [done|]. by apply commit_body. }
  intros err w2 Ho. split_and!; [|done..]. unfold all_or_nothing in *. by rewrite Hc in Ho.
Qed.

(** What a run of the migrations sends after its preamble, given what has been
    applied before; [None] if a file cannot be read. *)
Fixpoint plan (fs : migrationFS) (done : list sql) (files : list string) : option (list sql) :=
  match files with
  | [] => Some []
  | name :: files =>
      if bool_decide (InsertVersion name ∈ done) then plan fs done files
      else
        match ReadFile fs name with
        | inl _ => None
        | inr contents =>
            let step := [ApplyFile contents; InsertVersion name] in
            app step <$> plan fs (done ++ step) files
        end
  end.

Lemma applyFiles_spec tx ctx fs files w :
  good tx ->
  twp (applyFiles tx ctx fs files)
    (fun err w' =>
       match plan fs (committed w ++ working w) files with
       | Some q => all_or_nothing "commit migrations" (working w ++ q) w err w'
       | None => err <> None /\ committed w' = committed w
       end) w.
Proof using Transactional0.
  intros Hg. revert w. induction files as [|name files IH]; intros w; simpl.
  { rewrite app_nil_r. by apply (commit_body "commit migrations" tx ctx (working w)). }
  apply twp_bind. eapply twp_mono; [by apply query_law|]. intros row w0 Hrow.
  apply twp_bind. eapply twp_mono; [exact Hrow|].
  intros [e|b] w1 (Hc & Hw & Hb).
  { apply twp_ret. case_bool_decide; [destruct (plan _ _ _); [by left|done]|].
    destruct (ReadFile fs name); [done|]. destruct (plan _ _ _); [by left|done]. }
  rewrite Hb. case_bool_decide.
  { eapply twp_mono; [apply IH|]. rewrite Hc, Hw. unfold all_or_nothing. by rewrite Hc. }
  destruct (ReadFile fs name) as [e|contents]; [by apply twp_ret|].
  assert (Hfail : forall e w2, committed w2 = committed w ->
    match app [ApplyFile contents; InsertVersion name] <$>
            plan fs ((committed w ++ working w) ++ [ApplyFile contents; InsertVersion name]) files with
    | Some q => all_or_nothing "commit migrations" (working w ++ q) w (Some e) w2
    | None => Some e <> None /\ committed w2 = committed w
    end) by (intros e w2 H2; destruct (_ <$> _); [by left|done]).
  unfold execOr. apply twp_bind. eapply twp_mono; [by apply exec_law|].
  intros [e|] w2 [Hc2 Hw2]; [apply twp_ret, Hfail; congruence|].
  apply twp_bind. eapply twp_mono; [by apply exec_law|].
  intros [e|] w3 [Hc3 Hw3]; [apply twp_ret, Hfail; congruence|].
  eapply twp_mono; [apply IH|]. intros err w' Hp.
  assert (Hcc : committed w3 = committed w) by congruence.
  assert (Hww : working w3 = working w ++ [ApplyFile contents; InsertVersion name])
    by (rewrite Hw3, Hw2, Hw, <- app_assoc; done).
  rewrite Hcc, Hww, (app_assoc (committed w)) in Hp.
  destruct (plan fs _ files) as [q|]; simpl; [|done].
  unfold all_or_nothing in *. rewrite Hcc, <- app_assoc in Hp. done.
Qed.

Definition preamble : list sql := [AdvisoryLock migrationLockID; CreateSchemaMigrations].

(** The outcome of a run of the migrations. *)
Definition migrated (fs : migrationFS) (entries : list (string * bool)) (w : W) (err : option error)
    (w' : W) : Prop :=
  match plan fs (committed w ++ preamble) (migrationFiles entries) with
  | Some q => all_or_nothing "commit migrations" (preamble ++ q) w err w'
  | None => err <> None /\ committed w' = committed w
  end.

Lemma migrated_fail fs entries w e w' : committed w' = committed w -> migrated fs entries w (Some e) w'.
Proof using Type. intros H. unfold migrated. destruct (plan _ _ _); [by left|done]. Qed.

Lemma migrated_rollback fs entries tx w err w' :
  good tx -> migrated fs entries w err w' -> twp (rollback tx) (fun _ => migrated fs entries w err) w'.
Proof using Transactional0.
  intros Hg H. unfold rollback. apply twp_bind. eapply twp_mono; [by apply rollback_law|].
  intros ? w3 H3. cbn beta in H3. apply twp_ret. unfold migrated, all_or_nothing in *. by rewrite H3.
Qed.


End spec.

(** ** The adapter keeps the promise *)

Section driver.
Context {W : Type}.

(** What the driver promises of its transactions. *)
Class Driver (pool : Pool W) (good : Tx W -> Prop) (committed working : W -> list sql) : Prop := {
  driver_begin : forall ctx w,
    twp (pool_Begin pool ctx) (fun r w' => committed w' = committed w /\
      match r with inl _ => True | inr tx => good tx /\ working w' = [] end) w;
  driver_exec : forall tx ctx q w, good tx ->
    twp (tx_Exec tx ctx q) (fun r w' => committed w' = committed w /\
      match r.2 with None => working w' = working w ++ [q] | Some _ => True end) w;
  driver_query : forall tx ctx name w, good tx ->
    twp (tx_QueryRow tx ctx (SelectApplied name)) (fun row =>
      twp (Scan row) (fun r w' => committed w' = committed w /\ working w' = working w /\
        match r with inr b => b = bool_decide (InsertVersion name ∈ committed w ++ working w) | inl _ => True end)) w;
  driver_commit : forall tx ctx w, good tx ->
    twp (tx_Commit tx ctx) (fun err w' =>
      match err with
      | None => committed w' = committed w ++ working w
      | Some _ => committed w' = committed w \/ committed w' = committed w ++ working w
      end) w;
  driver_rollback : forall tx ctx w, good tx ->
    twp (tx_Rollback tx ctx) (fun _ w' => committed w' = committed w) w;
}.

(** The transactions of the adapter are those of the driver. *)
Definition adapted (good : Tx W -> Prop) (t : Transaction W) : Prop := exists tx, t = pgxTransaction tx /\ good tx.

#[global] Instance adapter_transactional pool good committed working `{!Driver pool good committed working} :
  Transactional (NewPoolAdapter pool) (adapted good) committed working.
Proof.
  split.
  - intros ctx w. apply twp_bind. eapply twp_mono; [apply driver_begin|].
    intros [e|tx] w' H; apply twp_ret; [done|]. destruct H as (Hc & Hg & Hw).
    split; [done|]. split; [by exists tx|done].
  - intros ? ctx q w (tx & -> & Hg). apply twp_bind. eapply twp_mono; [by apply driver_exec|].
    intros r w' H. by apply twp_ret.
  - intros ? ctx name w (tx & -> & Hg). by apply driver_query.
  - intros ? ctx w (tx & -> & Hg). by apply driver_commit.
  - intros ? ctx w (tx & -> & Hg). by apply driver_rollback.
Qed.

End driver.

(** ** A database *)

Module examples.

(** The durable statements and those of the open transaction. *)
Definition pg : Type := context.world (list sql * list sql).

Definition pg_set (c l : list sql) (w : pg) : pg := (w.1, (c, l)).

Definition pg_row (q : query) : Row pg :=
  let 'SelectApplied name := q in
  mkRow (fun w => Ret (inr (bool_decide (InsertVersion name ∈ w.2.1 ++ w.2.2))) w).

Definition pg_tx : Tx pg :=
  mkTx
    (fun _ q w => Ret ("OK", None) (pg_set w.2.1 (w.2.2 ++ [q]) w))
    (fun _ q w => Ret (pg_row q) w)
    (fun _ w => Ret None (pg_set (w.2.1 ++ w.2.2) [] w))
    (fun _ w => Ret None (pg_set w.2.1 [] w)).

Definition pg_pool : Pool pg :=
  mkPool (fun _ w => Ret (inr pg_tx) (pg_set w.2.1 [] w)) (fun _ => ret None) (ret tt).

Definition pg_database : Beginner pg := NewPoolAdapter pg_pool.

#[global] Instance pg_driver : Driver pg_pool (fun tx => tx = pg_tx) (fun w => w.2.1) (fun w => w.2.2).
Proof. split; intros; subst; unfold twp; simpl; by split_and?. Qed.

Definition pg_start : pg := context.start ([], []).

(** Two migrations in the wrong order and a file that is not one. *)
Definition demo_entries : list (string * bool) :=
  [("002_more.sql", false); ("001_init.sql", false); ("README.md", false); ("old.sql", true)].

Definition demo_fs : migrationFS := mkFS (inr demo_entries) (fun name => inr name).

End examples.


Definition demo_record : RequestRecord :=
  mkRequestRecord "id" "mock" "m" StatusSucceeded 3 4 7 (5 * millisecond) (float_of_Z 0) "BYPASS" "" None.

Lemma usage_record_atomic_witness :
  exists err w', RecordUsage examples.pg_database context.Background demo_record examples.pg_start = Ret err w' /\
    err = None /\ w'.2.1 = usage_statements demo_record 0.
Proof.
  pose proof (usage_record_atomic examples.pg_database _ _ _ context.Background demo_record examples.pg_start) as H.
  apply twp_Ret in H as (err & w' & E & Ha & _). exists err, w'. split; [done|].
  assert (Herr : err = None) by (vm_compute in E; by injection E as <- _).
  split; [done|]. rewrite Herr in Ha. exact Ha.
Defined.

End storage.
