(* ===== verification/Service.v ===== *)
(** * Request validation (internal/service/chat.go)

    The checks on a chat request and the chat service in front of the provider. *)

From stdpp Require Import base gmap list strings.
From Stdlib Require Import ZArith Lia.
From S2P Require Import Prelude Float64 Types GoStrings Context Provider.

Local Open Scope Z_scope.
Local Open Scope go_scope.

Module service.

Definition invalid (code message : string) : error := EValidation code message.

Definition validRoles : gset string := {["developer"; "system"; "user"; "assistant"]}.

(** The loop over the messages, from index [i]. *)
Fixpoint validateMessages (i : Z) (messages : list ChatMessage) : option error :=
  match messages with
  | [] => None
  | m :: messages =>
      if negb (bool_decide (Role m ∈ validRoles)) then
        Some (invalid "invalid_message_role" ("messages[" +:+ Itoa i +:+ "].role is not supported"))
      else if bool_decide (TrimSpace (Content m) = "") then
        Some (invalid "invalid_message_content" ("messages[" +:+ Itoa i +:+ "].content is required"))
      else validateMessages (i + 1) messages
  end.

(** A parameter that is present and below [lo] or above [hi]. *)
Definition out_of_range (x : option float64) (lo hi : Z) : bool :=
  match x with
  | Some v => flt v (float_of_Z lo) || flt (float_of_Z hi) v
  | None => false
  end.

Definition ValidateChatRequest (req : option ChatRequest) : option error :=
  match req with
  | None => Some (invalid "invalid_request" "request body is required")
  | Some req =>
      if bool_decide (TrimSpace (Model req) = "") then Some (invalid "invalid_model" "model is required")
      else if bool_decide (Messages req = []) then
        Some (invalid "invalid_messages" "messages must contain at least one item")
      else
        match validateMessages 0 (Messages req) with
        | Some e => Some e
        | None =>
            if out_of_range (Temperature req) 0 2 then
              Some (invalid "invalid_temperature" "temperature must be between 0 and 2")
            else if out_of_range (TopP req) 0 1 then
              Some (invalid "invalid_top_p" "top_p must be between 0 and 1")
            else if match MaxTokens req with Some n => n <=? 0 | None => false end then
              Some (invalid "invalid_max_tokens" "max_tokens must be greater than zero")
            else None
        end
  end.

(** [ChatService] is the provider it holds. *)
Section operations.
Context {W : Type}.

Definition Chat (s : provider.Provider W) (ctx : context.Ctx) (req : option ChatRequest)
  : M W (option ChatResponse * option error) :=
  match ValidateChatRequest req, req with
  | Some err, _ => ret (None, Some err)
  | None, Some r =>
      if Stream r then
        ret (None, Some (invalid "invalid_stream_mode" "streaming requests must use ChatStream"))
      else provider.Chat s ctx r
  | None, None => panic
  end.

Definition ChatStream (s : provider.Provider W) (ctx : context.Ctx) (req : option ChatRequest)
  : M W (option (provider.Stream W) * option error) :=
  match ValidateChatRequest req, req with
  | Some err, _ => ret (None, Some err)
  | None, Some r =>
      if negb (Stream r) then
        ret (None, Some (invalid "invalid_stream_mode" "stream must be true for ChatStream"))
      else provider.ChatStream s ctx r
  | None, None => panic
  end.

End operations.

(** ** Properties *)

Definition well_formed_message (m : ChatMessage) : Prop :=
  Role m ∈ validRoles /\ TrimSpace (Content m) <> "".

(** A request that the gateway forwards. *)
Record well_formed (req : ChatRequest) : Prop := {
  wf_model : TrimSpace (Model req) <> "";
  wf_nonempty : Messages req <> [];
  wf_messages : Forall well_formed_message (Messages req);
  wf_temperature : out_of_range (Temperature req) 0 2 = false;
  wf_top_p : out_of_range (TopP req) 0 1 = false;
  wf_max_tokens : forall n, MaxTokens req = Some n -> 0 < n;
}.

Lemma validateMessages_ok i ms : validateMessages i ms = None <-> Forall well_formed_message ms.
Proof.
  revert i. induction ms as [|m ms IH]; intros i; simpl; [done|].
  rewrite Forall_cons, <- (IH (i + 1)). unfold well_formed_message.
  repeat case_bool_decide; simpl; naive_solver.
Qed.

(** The first message that is not well formed is the one reported. *)
Lemma validateMessages_first i ms e :
  validateMessages i ms = Some e ->
  exists k m, ms !! k = Some m /\ Forall well_formed_message (take k ms) /\
    ((Role m ∉ validRoles) /\
       e = invalid "invalid_message_role" ("messages[" +:+ Itoa (i + Z.of_nat k) +:+ "].role is not supported") \/
     Role m ∈ validRoles /\ TrimSpace (Content m) = "" /\
       e = invalid "invalid_message_content" ("messages[" +:+ Itoa (i + Z.of_nat k) +:+ "].content is required")).
Proof.
  revert i. induction ms as [|m ms IH]; intros i; simpl; [done|].
  case_bool_decide as Hr; simpl.
  2:{ intros [= <-]. exists 0%nat, m. rewrite Z.add_0_r. split_and!; [done|constructor|]. by left. }
  case_bool_decide as Hc.
  { intros [= <-]. exists 0%nat, m. rewrite Z.add_0_r. split_and!; [done|constructor|]. by right. }
  intros H. apply IH in H as (k & m' & Hk & Hall & Hm). exists (S k), m'. simpl.
  replace (i + Z.of_nat (S k)) with (i + 1 + Z.of_nat k) by lia.
  split_and!; [done|by constructor|done].
Qed.

Lemma validation_rejects req :
  match ValidateChatRequest req with
  | None => True
  | Some e => exists code message, e = EValidation code message
  end.
Proof.
  destruct req as [r|]; simpl; [|by do 2 eexists].
  case_bool_decide; [by do 2 eexists|]. case_bool_decide; [by do 2 eexists|].
  destruct (validateMessages 0 (Messages r)) as [e|] eqn:Ev.
  { apply validateMessages_first in Ev as (k & m & _ & _ & [[_ ->]|(_ & _ & ->)]); by do 2 eexists. }
  repeat (destruct (out_of_range _ _ _); [by do 2 eexists|]).
  destruct (match MaxTokens r with Some n => n <=? 0 | None => false end); [by do 2 eexists|done].
Qed.


End service.
