(* ===== verification/Gateway.v ===== *)
(** * The gateway (internal/service/gateway.go)

    The composition of rate limiting, idempotency, caching, the provider,
    recording and metering, for calls and for streams. Every dependency is an
    interface; an absent one (nil) is [None]. *)

From stdpp Require Import base gmap list strings.
From Stdlib Require Import ZArith Lia.
From S2P Require Import Prelude Float64 Types GoStrings Context Codec Trace Provider RateLimit Idempotency Cache Storage Service.

Local Open Scope Z_scope.
Local Open Scope go_scope.

Module gateway.

(** The [GatewayObserver] interface. *)
Record GatewayObserver (W : Type) : Type := mkObserver {
  ObserveRateLimited : M W unit;
  ObserveCacheHit : M W unit;
  ObserveTokens : string -> ChatUsage -> M W unit;
}.
Arguments mkObserver {W} _ _ _.
Arguments ObserveRateLimited {W} _.
Arguments ObserveCacheHit {W} _.
Arguments ObserveTokens {W} _ _ _.

Definition noopGatewayObserver {W} : GatewayObserver W :=
  mkObserver (ret tt) (ret tt) (fun _ _ => ret tt).

Record GatewayOptions (W : Type) : Type := mkOptions {
  opt_Limiter : option (ratelimit.Limiter W);
  opt_RateLimitFailOpen : bool;
  opt_Idempotency : option (idempotency.Store W);
  opt_Cache : option (cache.Store W);
  opt_Recorder : option (storage.Recorder W);
  opt_ProviderName : string;
  opt_RequestTimeout : Z;
  opt_OperationTimeout : Z;
  opt_ErrorSink : option (error -> M W unit);
  opt_Observer : option (GatewayObserver W);
}.
Arguments opt_Limiter {W} _.
Arguments opt_RateLimitFailOpen {W} _.
Arguments opt_Idempotency {W} _.
Arguments opt_Cache {W} _.
Arguments opt_Recorder {W} _.
Arguments opt_ProviderName {W} _.
Arguments opt_RequestTimeout {W} _.
Arguments opt_OperationTimeout {W} _.
Arguments opt_ErrorSink {W} _.
Arguments opt_Observer {W} _.

Record GatewayService (W : Type) : Type := mkGateway {
  chat : provider.Provider W;
  limiter : option (ratelimit.Limiter W);
  rateLimitFailOpen : bool;
  idempotency_ : option (idempotency.Store W);
  cache_ : option (cache.Store W);
  recorder : option (storage.Recorder W);
  providerName : string;
  requestTimeout : Z;
  operationTimeout : Z;
  errorSink : error -> M W unit;
  observer : GatewayObserver W;
}.
Arguments mkGateway {W} _ _ _ _ _ _ _ _ _ _ _.
Arguments chat {W} _.
Arguments limiter {W} _.
Arguments rateLimitFailOpen {W} _.
Arguments idempotency_ {W} _.
Arguments cache_ {W} _.
Arguments recorder {W} _.
Arguments providerName {W} _.
Arguments requestTimeout {W} _.
Arguments operationTimeout {W} _.
Arguments errorSink {W} _ _.
Arguments observer {W} _.

Definition NewGatewayService {W} (chat : provider.Provider W) (o : GatewayOptions W) : GatewayService W :=
  mkGateway chat (opt_Limiter o) (opt_RateLimitFailOpen o) (opt_Idempotency o) (opt_Cache o)
    (opt_Recorder o)
    (if bool_decide (opt_ProviderName o = "") then "unknown" else opt_ProviderName o)
    (if opt_RequestTimeout o <=? 0 then 30 * second else opt_RequestTimeout o)
    (if opt_OperationTimeout o <=? 0 then 2 * second else opt_OperationTimeout o)
    (default (fun _ => ret tt) (opt_ErrorSink o))
    (default noopGatewayObserver (opt_Observer o)).

Record RequestMetadata : Type := mkMetadata {
  ClientIdentity : string;
  IdempotencyKey : string;
  RequestID : string;
}.

Record ChatResult : Type := mkChatResult {
  cr_Response : ChatResponse;
  cr_RequestID : string;
  cr_Provider : string;
  cr_CacheStatus : string;
  cr_IdempotencyReplayed : bool;
  cr_RateLimit : Decision;
}.

Record StreamResult (W : Type) : Type := mkStreamResult {
  sr_Stream : provider.Stream W;
  sr_RequestID : string;
  sr_Provider : string;
  sr_RateLimit : Decision;
}.
Arguments mkStreamResult {W} _ _ _ _.
Arguments sr_Stream {W} _.
Arguments sr_RequestID {W} _.
Arguments sr_Provider {W} _.
Arguments sr_RateLimit {W} _.

(** ** Errors *)

Definition statusForGatewayError (err : error) : string :=
  match as_ratelimit err with
  | Some _ => storage.StatusRateLimited
  | None => storage.StatusFailed
  end.

Definition gatewayErrorCode (err : error) : string :=
  match as_validation err with
  | Some (code, _) => code
  | None =>
      match as_idempotency err with
      | Some code => code
      | None =>
          match as_dependency err with
          | Some (code, _) => code
          | None =>
              match as_ratelimit err with
              | Some _ => "rate_limit_exceeded"
              | None =>
                  match as_upstream err with
                  | Some _ => provider.ErrorCode err
                  | None =>
                      if errors_Is err Canceled then "request_canceled"
                      else if errors_Is err DeadlineExceeded then "upstream_timeout"
                      else "provider_request_failed"
                  end
              end
          end
      end
  end.

Definition providerNameFromError (err : error) (fallback : string) : string :=
  match as_upstream err with
  | Some u => if bool_decide (ue_Provider u = "") then fallback else ue_Provider u
  | None => fallback
  end.

(** ** Identifiers and keys *)

(** The characters allowed in an idempotency key. *)
Definition key_character (c : Z) : bool :=
  ((97 <=? c) && (c <=? 122)) || ((65 <=? c) && (c <=? 90)) || ((48 <=? c) && (c <=? 57)) ||
  ContainsRune "._:-" c.

Definition normalizeIdempotencyKey (value : string) : error + string :=
  let value := TrimSpace value in
  if bool_decide (value = "") then inr ""
  else if 128 <? len value then
    inl (service.invalid "invalid_idempotency_key" "Idempotency-Key must not exceed 128 bytes")
  else if forallb key_character (runes value) then inr value
  else inl (service.invalid "invalid_idempotency_key" "Idempotency-Key contains unsupported characters").

Definition requestFingerprint `{!codec.Sha256, !codec.Json} (req : ChatRequest) : error + string :=
  match codec.MarshalRequest req with
  | inl err => inl (EWrap "encode request fingerprint" err)
  | inr payload => inr (codec.hex_digest payload)
  end.

(** [crypto/rand.Read] of [n] bytes. *)
Class Random (W : Type) : Type := rand_Read : nat -> M W (error + list Z).

(** [value[i:j]] *)
Definition slice (l : list Z) (i j : nat) : list Z := take (j - i) (drop i l).

Definition uuid (value : list Z) : string :=
  Join [EncodeToString (slice value 0 4); EncodeToString (slice value 4 6);
        EncodeToString (slice value 6 8); EncodeToString (slice value 8 10);
        EncodeToString (slice value 10 16)] "-".

(** The version and variant bits of a random UUID. *)
Definition set_version (value : list Z) : list Z :=
  let value := alter (fun b => Z.lor (Z.land b 15) 64) 6%nat value in
  alter (fun b => Z.lor (Z.land b 63) 128) 8%nat value.

Definition NewRequestID {W} `{!Random W} : M W (error + string) :=
  let! r := rand_Read 16 in
  match r with
  | inl err => ret (inl (EWrap "generate request id" err))
  | inr value => ret (inr (uuid (set_version value)))
  end.

(** A request identifier is a text without spaces. *)
Lemma request_id_trimmed value :
  Forall (fun b => 0 <= b < 256) value ->
  TrimSpace (uuid (set_version value)) = uuid (set_version value) /\ uuid (set_version value) <> "".
Proof.
  intros Hv.
  assert (Hbits : forall b m k, 0 <= b < 256 -> 0 <= m < 256 -> 0 <= k < 256 -> 0 <= Z.lor (Z.land b m) k < 256).
  { intros b m k Hb Hm Hk. split; [apply Z.lor_nonneg; rewrite Z.land_nonneg; lia|].
    destruct (Z.eq_dec (Z.lor (Z.land b m) k) 0); [lia|].
    change 256 with (2 ^ 8). apply Z.log2_lt_pow2; [pose proof (Z.lor_nonneg (Z.land b m) k); rewrite Z.land_nonneg in *; lia|].
    rewrite Z.log2_lor by (try apply Z.land_nonneg; lia). apply Z.max_lub_lt.
    - eapply Z.le_lt_trans; [apply Z.log2_land; lia|]. apply Z.min_lt_iff. left. destruct (Z.eq_dec b 0) as [->|]; [done|].
      apply Z.log2_lt_pow2; lia.
    - destruct (Z.eq_dec k 0) as [->|]; [done|]. apply Z.log2_lt_pow2; lia. }
  assert (Hs : Forall (fun b => 0 <= b < 256) (set_version value)).
  { unfold set_version. apply Forall_alter; [apply Forall_alter; [done|]|]; intros x _ Hx; apply Hbits; lia. }
  assert (Hslice : forall i j, Forall visible (bytes_of (EncodeToString (slice (set_version value) i j)))).
  { intros i j. apply hex_visible. unfold slice. by apply Forall_take, Forall_drop. }
  assert (Hdash : Forall visible (bytes_of "-")) by (repeat constructor; done).
  split.
  - apply TrimSpace_visible. unfold uuid, Join. simpl. repeat (rewrite bytes_of_app; apply Forall_app; split; auto).
    all: auto.
  - intros H. apply (f_equal bytes_of) in H. unfold uuid, Join in H. simpl in H. rewrite !bytes_of_app in H.
    by destruct (bytes_of (EncodeToString _)).
Qed.

(** ** The service *)

Section operations.
Context {W : Type} {HR : context.HasRuntime W} {HS : context.Scheduler W}.
Context {HRand : Random W} `{!codec.Sha256, !codec.Json}.
Implicit Types (g : GatewayService W).

Definition enforceRateLimit g (ctx : context.Ctx) (identity : string) : M W (Decision * option error) :=
  match limiter g with
  | None => ret (mkDecision true 0 0 0, None)
  | Some l =>
      let! '(decision, err) := ratelimit.limiter_Allow l ctx identity in
      match err with
      | Some e =>
          errorSink g e ;!
          if rateLimitFailOpen g then ret (mkDecision true 0 0 0, None)
          else ret (zeroDecision, Some (EDependency "rate_limiter_unavailable" (Some e)))
      | None =>
          if negb (Allowed decision) then
            ObserveRateLimited (observer g) ;!
            ret (decision, Some (ERateLimit decision))
          else ret (decision, None)
      end
  end.

Definition record g (ctx : context.Ctx) (r : storage.RequestRecord) : M W unit :=
  match recorder g with
  | None => ret tt
  | Some rec =>
      let! '(recordCtx, cancel) := context.WithTimeout (context.WithoutCancel ctx) (operationTimeout g) in
      defer (context.cancel cancel) (
        let! err := storage.Recorder_Record rec recordCtx r in
        match err with
        | Some e => errorSink g (EWrap "record request usage" e)
        | None => ret tt
        end)
  end.

(** A record without token counts; [time.Since(startedAt)] is its latency. *)
Definition mkRecord (requestID prov model status : string) (usage : ChatUsage) (latency : Z)
    (cacheStatus errorCode : string) : storage.RequestRecord :=
  storage.mkRequestRecord requestID prov model status (PromptTokens usage) (CompletionTokens usage)
    (TotalTokens usage) latency (float_of_Z 0) cacheStatus errorCode None.

(** Record with the latency since [startedAt]. *)
Definition recordSince g ctx (startedAt : Z) (requestID prov model status : string)
    (usage : ChatUsage) (cacheStatus errorCode : string) : M W unit :=
  let! now := gets context.Now in
  record g ctx (mkRecord requestID prov model status usage (time_sub now startedAt) cacheStatus errorCode).

Definition recordRejected g ctx (requestID model : string) (startedAt : Z) (err : error) : M W unit :=
  recordSince g ctx startedAt requestID (providerName g) model storage.StatusRejected zeroUsage
    cache.StatusBypass (gatewayErrorCode err).

(** The operations on the reservation use a context of their own. *)
Definition completeIdempotency g (key fingerprint payload : string) (acquired : bool) : M W unit :=
  if negb acquired then ret tt
  else
    let! '(ctx, cancel) := context.WithTimeout context.Background (operationTimeout g) in
    defer (context.cancel cancel) (
      match idempotency_ g with
      | None => panic
      | Some store =>
          let! err := idempotency.store_Complete store ctx key fingerprint payload in
          match err with
          | Some e => errorSink g e
          | None => ret tt
          end
      end).

Definition releaseIdempotency g (key fingerprint : string) (acquired : bool) : M W unit :=
  if negb acquired then ret tt
  else
    let! '(ctx, cancel) := context.WithTimeout context.Background (operationTimeout g) in
    defer (context.cancel cancel) (
      match idempotency_ g with
      | None => panic
      | Some store =>
          let! err := idempotency.store_Release store ctx key fingerprint in
          match err with
          | Some e => errorSink g e
          | None => ret tt
          end
      end).

(** A request on its way: its identifier, its start, the rate-limit decision and
    its reservation. *)
Record flight : Type := mkFlight {
  fl_requestID : string;
  fl_startedAt : Z;
  fl_rate : Decision;
  fl_key : string;
  fl_fingerprint : string;
  fl_acquired : bool;
}.

(** After the cache: the provider is called (gateway.go, from [g.chat.Chat]). *)
Definition chatProvider g ctx (req : ChatRequest) (f : flight) (cacheKey : option string)
    (cacheStatus : string) : M W (error + ChatResult) :=
  let! '(response, err) := service.Chat (chat g) ctx (Some req) in
  match err with
  | Some e =>
      let selectedProvider := providerNameFromError e (providerName g) in
      releaseIdempotency g (fl_key f) (fl_fingerprint f) (fl_acquired f) ;!
      recordSince g ctx (fl_startedAt f) (fl_requestID f) selectedProvider (Model req)
        storage.StatusFailed zeroUsage cacheStatus (gatewayErrorCode e) ;!
      ret (inl e)
  | None =>
      match response with
      | None => panic
      | Some response =>
          let selectedProvider :=
            if bool_decide (resp_Provider response = "") then providerName g else resp_Provider response in
          (match codec.MarshalResponse response with
           | inl e => errorSink g (EWrap "encode response for Redis" e)
           | inr payload =>
               (match cacheKey, cache_ g with
                | Some key, Some c =>
                    let! '(cacheCtx, cancel) :=
                      context.WithTimeout context.Background (operationTimeout g) in
                    let! err := cache.store_Set c cacheCtx key payload in
                    (match err with Some e => errorSink g e | None => ret tt end) ;!
                    context.cancel cancel
                | _, _ => ret tt
                end) ;!
               completeIdempotency g (fl_key f) (fl_fingerprint f) payload (fl_acquired f)
           end) ;!
          recordSince g ctx (fl_startedAt f) (fl_requestID f) selectedProvider (Model req)
            storage.StatusSucceeded (resp_Usage response) cacheStatus "" ;!
          ObserveTokens (observer g) selectedProvider (resp_Usage response) ;!
          ret (inr (mkChatResult response (fl_requestID f) selectedProvider cacheStatus false (fl_rate f)))
      end
  end.

(** After the reservation: the cache is consulted. *)
Definition chatCached g ctx (req : ChatRequest) (md : RequestMetadata) (f : flight)
  : M W (error + ChatResult) :=
  match cache.Key (ClientIdentity md) (Some req) with
  | inl e =>
      releaseIdempotency g (fl_key f) (fl_fingerprint f) (fl_acquired f) ;!
      ret (inl (EDependency "cache_fingerprint_failed" (Some e)))
  | inr cacheKey =>
      match cacheKey, cache_ g with
      | Some key, Some c =>
          let! got := cache.store_Get c ctx key in
          match got with
          | inl e => errorSink g e ;! chatProvider g ctx req f cacheKey cache.StatusMiss
          | inr None => chatProvider g ctx req f cacheKey cache.StatusMiss
          | inr (Some payload) =>
              match codec.UnmarshalResponse payload with
              | inl e =>
                  errorSink g (EWrap "decode cached response" e) ;!
                  chatProvider g ctx req f cacheKey cache.StatusMiss
              | inr cached =>
                  ObserveCacheHit (observer g) ;!
                  completeIdempotency g (fl_key f) (fl_fingerprint f) payload (fl_acquired f) ;!
                  recordSince g ctx (fl_startedAt f) (fl_requestID f) "cache" (Model req)
                    storage.StatusCacheHit zeroUsage cache.StatusHit "" ;!
                  ret (inr (mkChatResult cached (fl_requestID f) "cache" cache.StatusHit false (fl_rate f)))
              end
          end
      | _, _ => chatProvider g ctx req f cacheKey cache.StatusBypass
      end
  end.

(** After the rate limit: the idempotency key is reserved, if there is one. *)
Definition chatReserved g ctx (req : ChatRequest) (md : RequestMetadata) (idempotencyKey requestID : string)
    (startedAt : Z) (rateDecision : Decision) : M W (error + ChatResult) :=
  if bool_decide (idempotencyKey = "") then
    chatCached g ctx req md (mkFlight requestID startedAt rateDecision "" "" false)
  else
    match idempotency_ g with
    | None => ret (inl (EDependency "idempotency_unavailable" None))
    | Some store =>
        match requestFingerprint req with
        | inl e => ret (inl (EDependency "request_fingerprint_failed" (Some e)))
        | inr fingerprint =>
            let scopedIdempotencyKey := idempotency.ScopedKey (ClientIdentity md) idempotencyKey in
            let! begin := idempotency.store_Begin store ctx scopedIdempotencyKey fingerprint in
            match begin with
            | inl e => ret (inl (EDependency "idempotency_unavailable" (Some e)))
            | inr begin =>
                match idempotency.res_Status begin with
                | idempotency.StatusAcquired =>
                    chatCached g ctx req md
                      (mkFlight requestID startedAt rateDecision scopedIdempotencyKey fingerprint true)
                | idempotency.StatusPending =>
                    let err := EIdempotency "idempotency_request_in_progress" in
                    recordRejected g ctx requestID (Model req) startedAt err ;!
                    ret (inl err)
                | idempotency.StatusConflict =>
                    let err := EIdempotency "idempotency_key_conflict" in
                    recordRejected g ctx requestID (Model req) startedAt err ;!
                    ret (inl err)
                | idempotency.StatusCompleted =>
                    match codec.UnmarshalResponse (idempotency.res_Response begin) with
                    | inl e => ret (inl (EDependency "idempotency_result_corrupt" (Some e)))
                    | inr replay =>
                        recordSince g ctx startedAt requestID "idempotency" (Model req)
                          storage.StatusIdempotencyReplay zeroUsage cache.StatusBypass "" ;!
                        ret (inr (mkChatResult replay requestID "idempotency" cache.StatusBypass true
                                    rateDecision))
                    end
                end
            end
        end
    end.

(** The request's identifier: the given one, or a new one. *)
Definition ensureRequestID (md : RequestMetadata) : M W (error + string) :=
  let requestID := TrimSpace (RequestID md) in
  if bool_decide (requestID = "") then
    let! generated := NewRequestID in
    match generated with
    | inl e => ret (inl (EDependency "request_id_unavailable" (Some e)))
    | inr id => ret (inr id)
    end
  else ret (inr requestID).

Definition chatBody g ctx (req : option ChatRequest) (md : RequestMetadata) : M W (error + ChatResult) :=
  match service.ValidateChatRequest req, req with
  | Some err, _ => ret (inl err)
  | None, None => panic
  | None, Some req =>
      if Stream req then
        ret (inl (service.invalid "invalid_stream_mode" "streaming requests must use ChatStream"))
      else
        match normalizeIdempotencyKey (IdempotencyKey md) with
        | inl err => ret (inl err)
        | inr idempotencyKey =>
            let! id := ensureRequestID md in
            match id with
            | inl err => ret (inl err)
            | inr requestID =>
                let! startedAt := gets context.Now in
                let! '(rateDecision, err) := enforceRateLimit g ctx (ClientIdentity md) in
                match err with
                | Some e =>
                    recordSince g ctx startedAt requestID (providerName g) (Model req)
                      (statusForGatewayError e) zeroUsage cache.StatusBypass (gatewayErrorCode e) ;!
                    ret (inl e)
                | None => chatReserved g ctx req md idempotencyKey requestID startedAt rateDecision
                end
            end
        end
  end.

Definition Chat g ctx (req : option ChatRequest) (md : RequestMetadata) : M W (error + ChatResult) :=
  let! '(ctx, cancel) := context.WithTimeout ctx (requestTimeout g) in
  defer (context.cancel cancel) (chatBody g ctx req md).

(** ** Streams *)

(** The fields of [meteredStream] that change: the inner stream, the [sync.Once]
    and the usage. *)
Record meteredState (S : Type) : Type := mkMetered {
  mt_inner : S;
  mt_finished : bool;
  mt_usage : ChatUsage;
}.
Arguments mkMetered {S} _ _ _.
Arguments mt_inner {S} _.
Arguments mt_finished {S} _.
Arguments mt_usage {S} _.

(** The closure that [ChatStream] passes to its stream. *)
Definition streamFinish g ctx (requestID selectedProvider model : string) (startedAt : Z)
    (status errorCode : string) (usage : ChatUsage) : M W unit :=
  recordSince g ctx startedAt requestID selectedProvider model status usage cache.StatusBypass errorCode ;!
  ObserveTokens (observer g) selectedProvider usage.

Definition finishOnce {S} (cancel : context.CancelFunc) (finish : string -> string -> ChatUsage -> M W unit)
    (status errorCode : string) (s : meteredState S) : M W (meteredState S) :=
  if mt_finished s then ret s
  else
    context.cancel cancel ;!
    finish status errorCode (mt_usage s) ;!
    ret (mkMetered (mt_inner s) true (mt_usage s)).

Definition meteredRecv cancel finish (inner : provider.Stream W)
    (s : meteredState (provider.stream_state inner))
  : M W ((option ChatStreamChunk * option error) * meteredState (provider.stream_state inner)) :=
  let! '((chunk, err), i) := provider.Recv inner (mt_inner s) in
  let usage :=
    match chunk with
    | Some c => match chunk_Usage c with Some u => u | None => mt_usage s end
    | None => mt_usage s
    end in
  let s := mkMetered i (mt_finished s) usage in
  match err with
  | None => ret ((chunk, err), s)
  | Some e =>
      let! s := (if errors_Is e EOF then finishOnce cancel finish storage.StatusSucceeded "" s
                 else finishOnce cancel finish storage.StatusFailed (gatewayErrorCode e) s) in
      ret ((chunk, err), s)
  end.

Definition meteredClose cancel finish (inner : provider.Stream W)
    (s : meteredState (provider.stream_state inner))
  : M W (option error * meteredState (provider.stream_state inner)) :=
  let! '(err, i) := provider.Close inner (mt_inner s) in
  let s := mkMetered i (mt_finished s) (mt_usage s) in
  let errorCode := match err with Some _ => "stream_close_failed" | None => "stream_closed" end in
  let! s := finishOnce cancel finish storage.StatusFailed errorCode s in
  ret (err, s).

Definition meteredStream cancel finish (inner : provider.Stream W) : provider.Stream W :=
  provider.mkStream (meteredState (provider.stream_state inner))
    (mkMetered (provider.stream_init inner) false zeroUsage)
    (meteredRecv cancel finish inner) (meteredClose cancel finish inner) None.

(** After the rate limit. *)
Definition streamProvider g ctx streamCtx cancel (req : ChatRequest) (requestID : string) (startedAt : Z)
    (rateDecision : Decision) : M W (error + StreamResult W) :=
  let! '(stream, err) := service.ChatStream (chat g) streamCtx (Some req) in
  match err with
  | Some e =>
      recordSince g streamCtx startedAt requestID (providerNameFromError e (providerName g)) (Model req)
        storage.StatusFailed zeroUsage cache.StatusBypass (gatewayErrorCode e) ;!
      context.cancel cancel ;!
      ret (inl e)
  | None =>
      match stream with
      | None => panic
      | Some stream =>
          let selectedProvider :=
            if bool_decide (provider.StreamProviderName stream = "unknown") then providerName g
            else provider.StreamProviderName stream in
          ret (inr (mkStreamResult
            (meteredStream cancel (streamFinish g ctx requestID selectedProvider (Model req) startedAt) stream)
            requestID selectedProvider rateDecision))
      end
  end.

Definition ChatStream g ctx (req : option ChatRequest) (md : RequestMetadata) : M W (error + StreamResult W) :=
  let! '(streamCtx, cancel) := context.WithTimeout ctx (requestTimeout g) in
  let fail {A} (e : error) : M W (error + A) := context.cancel cancel ;! ret (inl e) in
  match service.ValidateChatRequest req, req with
  | Some err, _ => fail err
  | None, None => panic
  | None, Some req =>
      if negb (Stream req) then
        fail (service.invalid "invalid_stream_mode" "stream must be true for ChatStream")
      else if negb (bool_decide (TrimSpace (IdempotencyKey md) = "")) then
        fail (service.invalid "idempotency_not_supported_for_stream"
          "Idempotency-Key is only supported for non-streaming requests")
      else
        let! id := ensureRequestID md in
        match id with
        | inl err => fail err
        | inr requestID =>
            let! startedAt := gets context.Now in
            let! '(rateDecision, err) := enforceRateLimit g streamCtx (ClientIdentity md) in
            match err with
            | Some e =>
                recordSince g streamCtx startedAt requestID (providerName g) (Model req)
                  (statusForGatewayError e) zeroUsage cache.StatusBypass (gatewayErrorCode e) ;!
                fail e
            | None => streamProvider g ctx streamCtx cancel req requestID startedAt rateDecision
            end
        end
  end.

End operations.

Arguments mkMetered {S} _ _ _.
Arguments mt_inner {S} _.
Arguments mt_finished {S} _.
Arguments mt_usage {S} _.

(** ** Traces

    What the gateway asks of its dependencies, in order. *)
Inductive event : Type :=
| EvAllow (identity : string) (d : Decision) (err : option error)
| EvBegin (key fingerprint : string) (r : error + idempotency.Result)
| EvComplete (key fingerprint payload : string)
| EvRelease (key fingerprint : string)
| EvGet (key : string) (r : error + option string)
| EvSet (key payload : string)
| EvCall (response : option ChatResponse) (err : option error)
| EvOpen (err : option error)
| EvRecord (r : storage.RequestRecord)
| EvRateLimited
| EvCacheHit
| EvTokens (prov : string) (usage : ChatUsage).

Section spec.
Context {W : Type} {HR : context.HasRuntime W} {HS : context.Scheduler W}.
Context {HRand : Random W} {Sha : codec.Sha256} {J : codec.Json}.
Context (g : GatewayService W) (log : W -> list event).

Abbreviation tr := (traces log).

(** What the gateway relies on: its dependencies return, each call is logged, and
    nothing else is; the provider keeps its contract. *)
Class Traced : Prop := {
  tr_runtime : forall rt w, log (ref_set context.runtime rt w) = log w;
  tr_rand : forall n, silent log (rand_Read n);
  tr_sink : forall e, silent log (errorSink g e);
  tr_allow : forall l ctx id, limiter g = Some l ->
    tr (ratelimit.limiter_Allow l ctx id) (fun r evs => evs = [EvAllow id r.1 r.2]);
  tr_begin : forall s ctx k fp, idempotency_ g = Some s ->
    tr (idempotency.store_Begin s ctx k fp) (fun r evs => evs = [EvBegin k fp r]);
  tr_complete : forall s ctx k fp p, idempotency_ g = Some s ->
    tr (idempotency.store_Complete s ctx k fp p) (fun _ evs => evs = [EvComplete k fp p]);
  tr_release : forall s ctx k fp, idempotency_ g = Some s ->
    tr (idempotency.store_Release s ctx k fp) (fun _ evs => evs = [EvRelease k fp]);
  tr_get : forall c ctx k, cache_ g = Some c ->
    tr (cache.store_Get c ctx k) (fun r evs => evs = [EvGet k r]);
  tr_set : forall c ctx k p, cache_ g = Some c ->
    tr (cache.store_Set c ctx k p) (fun _ evs => evs = [EvSet k p]);
  tr_record : forall s ctx r, recorder g = Some s ->
    tr (storage.Recorder_Record s ctx r) (fun _ evs => evs = [EvRecord r]);
  tr_limited : tr (ObserveRateLimited (observer g)) (fun _ evs => evs = [EvRateLimited]);
  tr_hit : tr (ObserveCacheHit (observer g)) (fun _ evs => evs = [EvCacheHit]);
  tr_tokens : forall p u, tr (ObserveTokens (observer g) p u) (fun _ evs => evs = [EvTokens p u]);
  tr_chat : forall ctx r, tr (provider.Chat (chat g) ctx r) (fun r evs => evs = [EvCall r.1 r.2]);
  tr_open : forall ctx r, tr (provider.ChatStream (chat g) ctx r) (fun r evs => evs = [EvOpen r.2]);
  tr_contract : provider.Contract (fun _ => True) (chat g);
}.

Context {Tr : Traced}.

Lemma silent_WithTimeout ctx d : silent log (context.WithTimeout ctx d).
Proof using Tr. intros w. apply twp_update. exists []. by rewrite app_nil_r, tr_runtime. Qed.

Lemma silent_cancel c : silent log (context.cancel c).
Proof using Tr. intros w. apply twp_update. exists []. by rewrite app_nil_r, tr_runtime. Qed.

(** The record, if there is a recorder. *)
Definition recorded (r : storage.RequestRecord) : list event :=
  match recorder g with Some _ => [EvRecord r] | None => [] end.

Lemma record_trace ctx r : tr (record g ctx r) (fun _ evs => evs = recorded r).
Proof using Tr.
  unfold record, recorded. destruct (recorder g) as [rec|] eqn:E; [|by apply traces_ret].
  apply traces_silent; [apply silent_WithTimeout|]. intros [c cancel].
  apply traces_defer; [apply silent_cancel|].
  eapply traces_bind; [by apply tr_record|]. intros [e|] evs ->; [|by apply traces_ret].
  eapply traces_mono; [apply tr_sink|]. by intros ? ? ->.
Qed.

Lemma recordSince_trace ctx t id prov model status usage cs code :
  tr (recordSince g ctx t id prov model status usage cs code)
    (fun _ evs => exists latency, evs = recorded (mkRecord id prov model status usage latency cs code)).
Proof using Tr.
  unfold recordSince. apply traces_silent; [apply silent_gets|]. intros now.
  eapply traces_mono; [apply record_trace|]. by intros ? evs ->; eexists.
Qed.

(** Settling the reservation. *)
Lemma complete_trace k fp p acquired :
  (acquired = true -> is_Some (idempotency_ g)) ->
  tr (completeIdempotency g k fp p acquired) (fun _ evs => evs = if acquired then [EvComplete k fp p] else []).
Proof using Tr.
  intros H. unfold completeIdempotency. destruct acquired; simpl; [|by apply traces_ret].
  apply traces_silent; [apply silent_WithTimeout|]. intros [c cancel].
  apply traces_defer; [apply silent_cancel|]. destruct (H eq_refl) as [s Hs]. rewrite Hs.
  eapply traces_bind; [by apply tr_complete|]. intros [e|] evs ->; [|by apply traces_ret].
  eapply traces_mono; [apply tr_sink|]. by intros ? ? ->.
Qed.

Lemma release_trace k fp acquired :
  (acquired = true -> is_Some (idempotency_ g)) ->
  tr (releaseIdempotency g k fp acquired) (fun _ evs => evs = if acquired then [EvRelease k fp] else []).
Proof using Tr.
  intros H. unfold releaseIdempotency. destruct acquired; simpl; [|by apply traces_ret].
  apply traces_silent; [apply silent_WithTimeout|]. intros [c cancel].
  apply traces_defer; [apply silent_cancel|]. destruct (H eq_refl) as [s Hs]. rewrite Hs.
  eapply traces_bind; [by apply tr_release|]. intros [e|] evs ->; [|by apply traces_ret].
  eapply traces_mono; [apply tr_sink|]. by intros ? ? ->.
Qed.

(** *** The runs of each phase *)

Definition rel (f : flight) : list event :=
  if fl_acquired f then [EvRelease (fl_key f) (fl_fingerprint f)] else [].
Definition com (f : flight) (payload : string) : list event :=
  if fl_acquired f then [EvComplete (fl_key f) (fl_fingerprint f) payload] else [].

Definition selected (response : ChatResponse) : string :=
  if bool_decide (resp_Provider response = "") then providerName g else resp_Provider response.

(** What is stored of a response that could be encoded. *)
Definition stored (f : flight) (cacheKey : option string) (response : ChatResponse) : list event :=
  match codec.MarshalResponse response with
  | inl _ => []
  | inr payload =>
      match cacheKey, cache_ g with
      | Some key, Some _ => [EvSet key payload]
      | _, _ => []
      end ++ com f payload
  end.

Inductive provider_run (req : ChatRequest) (f : flight) (cacheKey : option string) (cs : string)
  : error + ChatResult -> list event -> Prop :=
| provider_failed e resp latency :
    provider_run req f cacheKey cs (inl e)
      (EvCall resp (Some e) :: rel f ++
       recorded (mkRecord (fl_requestID f) (providerNameFromError e (providerName g)) (Model req)
         storage.StatusFailed zeroUsage latency cs (gatewayErrorCode e)))
| provider_answered response latency :
    provider_run req f cacheKey cs
      (inr (mkChatResult response (fl_requestID f) (selected response) cs false (fl_rate f)))
      (EvCall (Some response) None :: stored f cacheKey response ++
       recorded (mkRecord (fl_requestID f) (selected response) (Model req) storage.StatusSucceeded
         (resp_Usage response) latency cs "") ++
       [EvTokens (selected response) (resp_Usage response)]).

Lemma chatProvider_trace ctx req f cacheKey cs :
  service.ValidateChatRequest (Some req) = None -> Stream req = false ->
  (fl_acquired f = true -> is_Some (idempotency_ g)) ->
  tr (chatProvider g ctx req f cacheKey cs) (provider_run req f cacheKey cs).
Proof using Tr.
  intros Hv Hs Hi. unfold chatProvider, service.Chat. rewrite Hv, Hs.
  eapply traces_bind; [apply traces_yields; [apply tr_chat|apply (@provider.contract_chat _ _ _ tr_contract)]|].
  intros [resp err] evs [-> Hres].
  destruct err as [e|].
  - eapply traces_bind; [by apply release_trace|]. intros ? evs ->.
    eapply traces_bind; [apply recordSince_trace|]. intros ? evs (latency & ->).
    apply traces_ret. simpl. rewrite app_nil_r. apply provider_failed.
  - destruct resp as [response|]; [|done].
    eapply (traces_bind _ _ _ (fun _ evs => evs = stored f cacheKey response)).
    + unfold stored. destruct (codec.MarshalResponse response) as [e|payload].
      { eapply traces_mono; [apply tr_sink|]. by intros ? ? ->. }
      eapply (traces_bind _ _ _ (fun _ evs => evs =
        match cacheKey, cache_ g with Some key, Some _ => [EvSet key payload] | _, _ => [] end)).
      * destruct cacheKey as [key|], (cache_ g) as [c|] eqn:Ec; try by apply traces_ret.
        apply traces_silent; [apply silent_WithTimeout|]. intros [cacheCtx cancel].
        eapply traces_bind; [by apply tr_set|]. intros err evs ->.
        apply traces_silent; [destruct err; [apply tr_sink|apply silent_ret]|]. intros _.
        eapply traces_mono; [apply silent_cancel|]. by intros ? ? ->.
      * intros ? evs ->. eapply traces_mono; [by apply complete_trace|]. by intros ? ? ->.
    + intros ? evs ->. eapply traces_bind; [apply recordSince_trace|]. intros ? evs (latency & ->).
      eapply traces_bind; [apply tr_tokens|]. intros ? evs ->. apply traces_ret. simpl.
      apply provider_answered.
Qed.

Inductive cached_run (req : ChatRequest) (md : RequestMetadata) (f : flight)
  : error + ChatResult -> list event -> Prop :=
| cache_key_failed e : cached_run req md f (inl (EDependency "cache_fingerprint_failed" (Some e))) (rel f)
| cache_hit key payload response latency :
    cache.Key (ClientIdentity md) (Some req) = inr (Some key) ->
    codec.UnmarshalResponse payload = inr response ->
    cached_run req md f
      (inr (mkChatResult response (fl_requestID f) "cache" cache.StatusHit false (fl_rate f)))
      (EvGet key (inr (Some payload)) :: EvCacheHit :: com f payload ++
       recorded (mkRecord (fl_requestID f) "cache" (Model req) storage.StatusCacheHit zeroUsage latency
         cache.StatusHit ""))
| cache_miss key got r evs :
    cache.Key (ClientIdentity md) (Some req) = inr (Some key) ->
    provider_run req f (Some key) cache.StatusMiss r evs -> cached_run req md f r (EvGet key got :: evs)
| cache_bypass cacheKey r evs :
    (cacheKey = None \/ cache_ g = None) ->
    provider_run req f cacheKey cache.StatusBypass r evs -> cached_run req md f r evs.

Lemma chatCached_trace ctx req md f :
  service.ValidateChatRequest (Some req) = None -> Stream req = false ->
  (fl_acquired f = true -> is_Some (idempotency_ g)) ->
  tr (chatCached g ctx req md f) (cached_run req md f).
Proof using Tr.
  intros Hv Hs Hi. unfold chatCached. destruct (cache.Key _ _) as [e|cacheKey] eqn:Ek.
  { eapply traces_bind; [by apply release_trace|]. intros ? evs ->. apply traces_ret.
    rewrite app_nil_r. apply cache_key_failed. }
  assert (Hprov : forall cs, tr (chatProvider g ctx req f cacheKey cs) (provider_run req f cacheKey cs))
    by (intros; by apply chatProvider_trace).
  destruct cacheKey as [key|], (cache_ g) as [c|] eqn:Ec;
    try (eapply traces_mono; [apply Hprov|]; intros r evs Hr; eapply cache_bypass; [|exact Hr]; auto; fail).
  eapply traces_bind; [by apply tr_get|].
  assert (Hmiss : forall got,
    tr (chatProvider g ctx req f (Some key) cache.StatusMiss)
      (fun r evs => cached_run req md f r ([EvGet key got] ++ evs))).
  { intros got. eapply traces_mono; [apply Hprov|]. intros r evs Hr. by apply cache_miss. }
  intros [e|[payload|]] evs ->; [|destruct (codec.UnmarshalResponse payload) as [e|response] eqn:Eu|done].
  - by apply traces_silent; [apply tr_sink|].
  - by apply traces_silent; [apply tr_sink|].
  - eapply traces_bind; [apply tr_hit|]. intros ? evs ->.
    eapply traces_bind; [by apply complete_trace|]. intros ? evs ->.
    eapply traces_bind; [apply recordSince_trace|]. intros ? evs (latency & ->).
    apply traces_ret. simpl. rewrite app_nil_r. by apply cache_hit.
Qed.

Definition free_flight (requestID : string) (startedAt : Z) (rate : Decision) : flight :=
  mkFlight requestID startedAt rate "" "" false.

Inductive reserved_run (req : ChatRequest) (md : RequestMetadata) (key requestID : string) (t : Z) (rate : Decision)
  : error + ChatResult -> list event -> Prop :=
| no_key r evs :
    key = "" -> cached_run req md (free_flight requestID t rate) r evs ->
    reserved_run req md key requestID t rate r evs
| key_unavailable code cause evs :
    key <> "" -> (evs = [] \/ exists k fp e, evs = [EvBegin k fp (inl e)]) ->
    reserved_run req md key requestID t rate (inl (EDependency code cause)) evs
| key_acquired k fp response r evs :
    key <> "" -> k = idempotency.ScopedKey (ClientIdentity md) key -> requestFingerprint req = inr fp ->
    cached_run req md (mkFlight requestID t rate k fp true) r evs ->
    reserved_run req md key requestID t rate r
      (EvBegin k fp (inr (idempotency.mkResult idempotency.StatusAcquired response)) :: evs)
| key_rejected k fp begun code latency :
    key <> "" ->
    (idempotency.res_Status begun = idempotency.StatusPending /\ code = "idempotency_request_in_progress" \/
     idempotency.res_Status begun = idempotency.StatusConflict /\ code = "idempotency_key_conflict") ->
    reserved_run req md key requestID t rate (inl (EIdempotency code))
      (EvBegin k fp (inr begun) ::
       recorded (mkRecord requestID (providerName g) (Model req) storage.StatusRejected zeroUsage latency
         cache.StatusBypass code))
| key_corrupt k fp payload e :
    key <> "" -> codec.UnmarshalResponse payload = inl e ->
    reserved_run req md key requestID t rate (inl (EDependency "idempotency_result_corrupt" (Some e)))
      [EvBegin k fp (inr (idempotency.mkResult idempotency.StatusCompleted payload))]
| key_replayed k fp payload response latency :
    key <> "" -> k = idempotency.ScopedKey (ClientIdentity md) key -> requestFingerprint req = inr fp ->
    codec.UnmarshalResponse payload = inr response ->
    reserved_run req md key requestID t rate
      (inr (mkChatResult response requestID "idempotency" cache.StatusBypass true rate))
      (EvBegin k fp (inr (idempotency.mkResult idempotency.StatusCompleted payload)) ::
       recorded (mkRecord requestID "idempotency" (Model req) storage.StatusIdempotencyReplay zeroUsage latency
         cache.StatusBypass "")).

Lemma chatReserved_trace ctx req md key requestID t rate :
  service.ValidateChatRequest (Some req) = None -> Stream req = false ->
  tr (chatReserved g ctx req md key requestID t rate) (reserved_run req md key requestID t rate).
Proof using Tr.
  intros Hv Hs. unfold chatReserved. case_bool_decide as Hk.
  { eapply traces_mono; [by apply chatCached_trace|]. intros r evs Hr. by apply no_key. }
  destruct (idempotency_ g) as [store|] eqn:Es; [|apply traces_ret, key_unavailable; auto].
  destruct (requestFingerprint req) as [e|fp] eqn:Ef; [apply traces_ret, key_unavailable; auto|].
  eapply traces_bind; [by apply tr_begin|].
  assert (Hrej : forall begun code evs,
    evs = [EvBegin (idempotency.ScopedKey (ClientIdentity md) key) fp (inr begun)] ->
    (idempotency.res_Status begun = idempotency.StatusPending /\ code = "idempotency_request_in_progress" \/
     idempotency.res_Status begun = idempotency.StatusConflict /\ code = "idempotency_key_conflict") ->
    tr (recordRejected g ctx requestID (Model req) t (EIdempotency code) ;! ret (inl (EIdempotency code)))
      (fun r evs' => reserved_run req md key requestID t rate r (evs ++ evs'))).
  { intros begun code evs -> Hcode. eapply traces_bind; [apply recordSince_trace|].
    intros ? evs' (latency & ->). apply traces_ret. rewrite app_nil_r. by apply key_rejected. }
  intros [e|[status response]] evs ->; [apply traces_ret, key_unavailable; eauto 10|]. simpl idempotency.res_Status.
  destruct status.
  - eapply traces_mono; [apply chatCached_trace; [done..|by rewrite Es]|].
    intros r evs Hr. by apply key_acquired.
  - by eapply Hrej; auto.
  - simpl idempotency.res_Response. destruct (codec.UnmarshalResponse response) as [e|replay] eqn:Eu.
    { by apply traces_ret, key_corrupt. }
    eapply traces_bind; [apply recordSince_trace|]. intros ? evs (latency & ->).
    apply traces_ret. rewrite app_nil_r. by apply key_replayed.
  - by eapply Hrej; auto.
Qed.

(** The limiter's part of a run. *)
Inductive limited_run (identity : string) : Decision * option error -> list event -> Prop :=
| not_limited : limiter g = None -> limited_run identity (mkDecision true 0 0 0, None) []
| limit_granted d : Allowed d = true -> limited_run identity (d, None) [EvAllow identity d None]
| limit_open d e : rateLimitFailOpen g = true ->
    limited_run identity (mkDecision true 0 0 0, None) [EvAllow identity d (Some e)]
| limit_closed d e : rateLimitFailOpen g = false ->
    limited_run identity (zeroDecision, Some (EDependency "rate_limiter_unavailable" (Some e)))
      [EvAllow identity d (Some e)]
| limit_refused d : Allowed d = false ->
    limited_run identity (d, Some (ERateLimit d)) [EvAllow identity d None; EvRateLimited].

Lemma enforceRateLimit_trace ctx identity :
  tr (enforceRateLimit g ctx identity) (limited_run identity).
Proof using Tr.
  unfold enforceRateLimit. destruct (limiter g) as [l|] eqn:El; [|by apply traces_ret, not_limited].
  eapply traces_bind; [by apply tr_allow|]. intros [d [e|]] evs ->; simpl.
  - apply traces_silent; [apply tr_sink|]. intros _.
    destruct (rateLimitFailOpen g) eqn:Ef; apply traces_ret; [by apply limit_open|by apply limit_closed].
  - destruct (Allowed d) eqn:Ed; simpl; [by apply traces_ret, limit_granted|].
    eapply traces_bind; [apply tr_limited|]. intros ? evs ->. by apply traces_ret, limit_refused.
Qed.

(** A request that names itself keeps its name. *)
Definition identified (md : RequestMetadata) (requestID : string) : Prop :=
  TrimSpace (RequestID md) <> "" -> requestID = TrimSpace (RequestID md).

Lemma ensureRequestID_trace md :
  tr (ensureRequestID md) (fun r evs => evs = [] /\
    match r with
    | inl e => exists c, e = EDependency "request_id_unavailable" (Some c)
    | inr id => identified md id
    end).
Proof using Tr.
  unfold ensureRequestID. case_bool_decide; [|by apply traces_ret].
  apply traces_silent.
  - unfold NewRequestID. apply traces_silent; [apply tr_rand|]. intros []; apply silent_ret.
  - intros [e|id]; apply traces_ret; (split; [done|]); [by eexists|by intros ?].
Qed.

(** The whole of [Chat]. *)
Inductive chat_run (req : option ChatRequest) (md : RequestMetadata) : error + ChatResult -> list event -> Prop :=
| chat_invalid code message : chat_run req md (inl (EValidation code message)) []
| chat_no_id c : chat_run req md (inl (EDependency "request_id_unavailable" (Some c))) []
| chat_limited r d e requestID latency evs :
    req = Some r -> identified md requestID -> limited_run (ClientIdentity md) (d, Some e) evs ->
    chat_run req md (inl e) (evs ++
      recorded (mkRecord requestID (providerName g) (Model r) (statusForGatewayError e) zeroUsage latency
        cache.StatusBypass (gatewayErrorCode e)))
| chat_admitted r key requestID t d res evs evs' :
    req = Some r -> identified md requestID ->
    service.ValidateChatRequest (Some r) = None -> Stream r = false ->
    normalizeIdempotencyKey (IdempotencyKey md) = inr key ->
    limited_run (ClientIdentity md) (d, None) evs ->
    reserved_run r md key requestID t d res evs' -> chat_run req md res (evs ++ evs').

Lemma Validate_error req e : service.ValidateChatRequest req = Some e -> exists c m, e = EValidation c m.
Proof using Type.
  pose proof (service.validation_rejects req) as H. intros E. by rewrite E in H.
Qed.

Lemma normalize_error s e : normalizeIdempotencyKey s = inl e -> exists c m, e = EValidation c m.
Proof using Type.
  unfold normalizeIdempotencyKey. case_bool_decide; [done|]. destruct (_ <? _); [intros [= <-]; by do 2 eexists|].
  destruct (forallb _ _); [done|]. intros [= <-]. by do 2 eexists.
Qed.

Lemma Chat_trace ctx req md : tr (Chat g ctx req md) (chat_run req md).
Proof using Tr.
  unfold Chat. apply traces_silent; [apply silent_WithTimeout|]. intros [c cancel].
  apply traces_defer; [apply silent_cancel|]. unfold chatBody.
  destruct (service.ValidateChatRequest req) as [e|] eqn:Ev.
  { destruct (Validate_error req e Ev) as (code & m & ->). apply traces_ret, chat_invalid. }
  destruct req as [r|]; [|done]. destruct (Stream r) eqn:Es; [apply traces_ret, chat_invalid|].
  destruct (normalizeIdempotencyKey _) as [e|key] eqn:Ek.
  { destruct (normalize_error _ e Ek) as (code & m & ->). apply traces_ret, chat_invalid. }
  eapply traces_bind; [apply ensureRequestID_trace|]. intros [e|requestID] evs [-> He].
  { destruct He as [cause ->]. apply traces_ret, chat_no_id. }
  apply traces_silent; [apply silent_gets|]. intros t.
  eapply traces_bind; [apply enforceRateLimit_trace|]. intros [d [e|]] evs Hl.
  - eapply traces_bind; [apply recordSince_trace|]. intros ? evs' (latency & ->). apply traces_ret.
    rewrite app_nil_r. by eapply chat_limited.
  - eapply traces_mono; [by apply chatReserved_trace|]. intros res evs' Hr. simpl. eapply chat_admitted; [done|exact He|exact Ev|exact Es|exact Ek|exact Hl|exact Hr].
Qed.

(** *** What the runs have in common *)

Definition is_call (e : event) : bool := match e with EvCall _ _ => true | _ => false end.
Definition is_complete (e : event) : bool := match e with EvComplete _ _ _ => true | _ => false end.
Definition is_release (e : event) : bool := match e with EvRelease _ _ => true | _ => false end.
Definition is_record (e : event) : bool := match e with EvRecord _ => true | _ => false end.
Definition is_acquired (e : event) : bool :=
  match e with
  | EvBegin _ _ (inr begun) => bool_decide (idempotency.res_Status begun = idempotency.StatusAcquired)
  | _ => false
  end.
(** An event past the rate limiter. *)
Definition past_limiter (e : event) : bool :=
  match e with EvAllow _ _ _ | EvRateLimited | EvRecord _ => false | _ => true end.

(** Every event in [q] comes after one in [p]. *)
Fixpoint preceded (p q : event -> bool) (evs : list event) : bool :=
  match evs with
  | [] => true
  | e :: evs => p e || negb (q e) && preceded p q evs
  end.

(** The request failed. *)
Definition failed (r : error + ChatResult) : bool := match r with inl _ => true | inr _ => false end.

(** The reservation of a flight is settled by [evs] as the result [r] demands. *)
Record settled (f : flight) (r : error + ChatResult) (evs : list event) : Prop := {
  settle_released : count is_release evs = if fl_acquired f then (if failed r then 1 else 0)%nat else 0%nat;
  settle_completed :
    (count is_complete evs <= (if fl_acquired f then (if failed r then 0 else 1) else 0))%nat;
  settle_kept : fl_acquired f = true -> (count is_release evs + count is_complete evs = 0)%nat ->
    exists response e, EvCall (Some response) None ∈ evs /\ codec.MarshalResponse response = inl e;
  settle_payload : forall k fp p, EvComplete k fp p ∈ evs ->
    k = fl_key f /\ fp = fl_fingerprint f /\ exists cr, r = inr cr /\
      (codec.MarshalResponse (cr_Response cr) = inr p \/ codec.UnmarshalResponse p = inr (cr_Response cr));
}.

(** The status of an answer. *)
Definition status_of (cr : ChatResult) : string :=
  if cr_IdempotencyReplayed cr then storage.StatusIdempotencyReplay
  else if bool_decide (cr_CacheStatus cr = cache.StatusHit) then storage.StatusCacheHit
  else storage.StatusSucceeded.

(** The status of a failure; [called] says whether the provider was called. *)
Definition failure_status (called : bool) (e : error) : string :=
  if called then storage.StatusFailed
  else match e with EIdempotency _ => storage.StatusRejected | _ => statusForGatewayError e end.

Definition record_matches (requestID model : string) (called : bool) (r : error + ChatResult)
    (x : storage.RequestRecord) : Prop :=
  storage.rec_RequestID x = requestID /\ storage.rec_Model x = model /\
  match r with
  | inl e =>
      storage.rec_ErrorCode x = gatewayErrorCode e /\ storage.rec_Status x = failure_status called e /\
      storage.rec_TotalTokens x = 0
  | inr cr =>
      storage.rec_ErrorCode x = "" /\ storage.rec_Provider x = cr_Provider cr /\
      storage.rec_CacheStatus x = cr_CacheStatus cr /\ storage.rec_Status x = status_of cr /\
      cr_RequestID cr = requestID /\
      storage.rec_TotalTokens x = if called then TotalTokens (resp_Usage (cr_Response cr)) else 0
  end.

Ltac run_cases :=
  unfold stored, rel, com, recorded in *; simpl;
  repeat match goal with
  | |- context [match recorder g with _ => _ end] => destruct (recorder g)
  | |- context [match cache_ g with _ => _ end] => destruct (cache_ g)
  | |- context [codec.MarshalResponse ?x] => destruct (codec.MarshalResponse x) eqn:?
  | |- context [if fl_acquired ?f then _ else _] => destruct (fl_acquired f) eqn:?
  end; simpl.

Lemma count_recorded p x : p (EvRecord x) = false -> count p (recorded x) = 0%nat.
Proof using Type. intros H. unfold recorded. destruct (recorder g); simpl; by rewrite ?H. Qed.

Lemma settled_cons f r e evs :
  is_release e = false -> is_complete e = false -> settled f r evs -> settled f r (e :: evs).
Proof using Type.
  clear Tr log. intros Hr Hc [H1 H2 H3 H4]. split; simpl; rewrite ?Hr, ?Hc; simpl; [done|done| |].
  - intros Hf H0. destruct (H3 Hf H0) as (response & e' & Hin & He). exists response, e'. split; [by right|done].
  - intros k fp p [<-|Hin]%elem_of_cons; [done|]. by apply H4.
Qed.

(** Membership in a list of explicit events. *)
Ltac elem_cases H :=
  repeat first
    [ apply elem_of_nil in H; done
    | apply elem_of_cons in H; destruct H as [H|H]; [try discriminate H; try (injection H; intros; subst)|] ].

Lemma provider_settled req f ck cs r evs :
  provider_run req f ck cs r evs ->
  settled f r evs /\ count is_call evs = 1%nat /\ count is_acquired evs = 0%nat /\
  (forall cr, r = inr cr -> cr_IdempotencyReplayed cr = false /\ EvCall (Some (cr_Response cr)) None ∈ evs).
Proof using Type.
  clear Tr log. intros [e resp latency|response latency].
  - split_and!; [|run_cases; done..|done]. split; run_cases; try done; try lia; set_solver.
  - split_and!; [|by destruct ck; run_cases..|intros ? [= <-]; split; [done|set_solver]].
    split; destruct ck; run_cases; try done; try lia; try set_solver.
    all: intros; exfalso; simpl in *; lia.
Qed.

Lemma cached_settled req md f r evs :
  cached_run req md f r evs ->
  settled f r evs /\ (count is_call evs <= 1)%nat /\ count is_acquired evs = 0%nat /\
  (forall cr, r = inr cr -> cr_IdempotencyReplayed cr = false /\
     (cr_CacheStatus cr <> cache.StatusHit -> EvCall (Some (cr_Response cr)) None ∈ evs)).
Proof using Type.
  clear Tr log. intros [e|key payload response latency _ Hu|key got r' evs' _ Hr|ck r' evs' _ Hr].
  - split_and!; [|run_cases; lia..|done]. split; run_cases; try done; try lia; set_solver.
  - split_and!; [|run_cases; lia..|by intros ? [= <-]].
    apply settled_cons; [done..|]. apply settled_cons; [done..|].
    split; run_cases; try done; try lia; intros k fp p Hin; elem_cases Hin; eauto 10.
  - apply provider_settled in Hr as (Hs & Hc & Ha & Hcr).
    split_and!; [by apply settled_cons|simpl; lia|done|].
    intros cr Hr. destruct (Hcr cr Hr) as [? ?]. split; [done|]. intros _. by right.
  - apply provider_settled in Hr as (Hs & Hc & Ha & Hcr).
    split_and!; [done|lia|done|]. naive_solver.
Qed.

(** The same, for a request with its reservation. *)
Record accounted (key : string) (r : error + ChatResult) (evs : list event) : Prop := {
  acc_once : (count is_call evs <= 1)%nat;
  acc_acquired : (count is_acquired evs <= 1)%nat;
  acc_reserved : key = "" \/ preceded is_acquired is_call evs = true;
  acc_settle_only : (count is_release evs + count is_complete evs <= count is_acquired evs)%nat;
  acc_release : count is_release evs = if failed r then count is_acquired evs else 0%nat;
  acc_complete : failed r = true -> count is_complete evs = 0%nat;
  acc_kept : count is_acquired evs = 1%nat -> (count is_release evs + count is_complete evs = 0)%nat ->
    exists response e, EvCall (Some response) None ∈ evs /\ codec.MarshalResponse response = inl e;
  acc_payload : forall k fp p, EvComplete k fp p ∈ evs ->
    (exists begun, EvBegin k fp (inr begun) ∈ evs /\ idempotency.res_Status begun = idempotency.StatusAcquired) /\
    exists cr, r = inr cr /\
      (codec.MarshalResponse (cr_Response cr) = inr p \/ codec.UnmarshalResponse p = inr (cr_Response cr));
  acc_answer : forall cr, r = inr cr -> cr_IdempotencyReplayed cr = false ->
    cr_CacheStatus cr <> cache.StatusHit -> EvCall (Some (cr_Response cr)) None ∈ evs;
}.

Lemma settled_free f r evs :
  fl_acquired f = false -> settled f r evs -> count is_release evs = 0%nat /\ count is_complete evs = 0%nat.
Proof using Type. intros Hf [H1 H2 _ _]. rewrite Hf in H1, H2. lia. Qed.

Lemma reserved_accounted req md key requestID t rate r evs :
  reserved_run req md key requestID t rate r evs -> accounted key r evs.
Proof using Type.
  clear Tr log. intros H. destruct H as [r evs -> Hr|code cause evs Hk Hevs|k fp response r evs Hk Hkey Hfp Hr
    |k fp begun code latency Hk Hcode|k fp payload e Hk He|k fp payload response latency Hk Hkey Hfp Hu].
  - apply cached_settled in Hr as (Hs & Hc & Ha & Hcr).
    destruct (settled_free (free_flight requestID t rate) _ _ eq_refl Hs) as [H1 H2].
    split; rewrite ?Ha, ?H1, ?H2; try done; try lia; [by left|by destruct (failed r)| |naive_solver].
    intros k fp p Hin. exfalso. apply list_elem_of_lookup in Hin as [i Hi].
    apply (count_pos is_complete) in Hi; [lia|done].
  - destruct Hevs as [->|(k & fp & e & ->)]; split; simpl; try done; try lia; set_solver.
  - apply cached_settled in Hr as ([H1 H2 H3 H4] & Hc & Ha & Hcr). simpl in H1, H2, H3, H4.
    split; simpl; rewrite ?Ha; try lia.
    + destruct (failed r); lia.
    + intros Hf. rewrite Hf in H2. lia.
    + intros _ H0. destruct (H3 eq_refl H0) as (resp & e & Hin & He). exists resp, e. split; [by right|done].
    + intros k' fp' p [[=]|Hin]%elem_of_cons. destruct (H4 _ _ _ Hin) as (-> & -> & Hres).
      split; [|done]. eexists. split; [by left|done].
    + intros cr Hr Hrep Hhit. right. by apply Hcr.
  - assert (Hst : bool_decide (idempotency.res_Status begun = idempotency.StatusAcquired) = false)
      by (apply bool_decide_eq_false; destruct Hcode as [[-> _]|[-> _]]; done).
    split; simpl; rewrite ?Hst; run_cases; try done; try lia; set_solver.
  - split; simpl; try done; try lia; set_solver.
  - split; simpl; run_cases; try done; try lia; try set_solver. all: by intros cr [= <-].
Qed.

(** The limiter lets a request pass. *)
Definition is_granted (e : event) : bool :=
  match e with
  | EvAllow _ d None => Allowed d
  | EvAllow _ _ (Some _) => rateLimitFailOpen g
  | _ => false
  end.

Lemma preceded_granted p q evs evs' :
  preceded p q evs = true -> existsb p evs = true -> preceded p q (evs ++ evs') = true.
Proof using Type.
  clear. induction evs as [|e evs IH]; simpl; [done|]. destruct (p e); [done|]. simpl.
  intros [-> H]%andb_true_iff Hp. by rewrite IH.
Qed.

Lemma preceded_skip p q evs evs' :
  Forall (fun e => q e = false) evs -> preceded p q evs' = true -> preceded p q (evs ++ evs') = true.
Proof using Type.
  clear. induction 1 as [|e evs He _ IH]; simpl; [done|]. intros H. rewrite He, IH by done.
  by destruct (p e).
Qed.

Lemma preceded_absent p q evs : count q evs = 0%nat -> preceded p q evs = true.
Proof using Type.
  clear. induction evs as [|e evs IH]; simpl; [done|]. destruct (q e); [lia|]. simpl. intros H.
  rewrite IH by done. by rewrite orb_true_r.
Qed.

(** The limiter's events belong to no other part. *)
Lemma limited_events id d evs :
  limited_run id d evs -> Forall (fun e => past_limiter e = false /\ is_record e = false) evs.
Proof using Type. clear. intros []; repeat constructor. Qed.

Lemma limited_counts id d evs p :
  (forall e, p e = true -> past_limiter e = true \/ is_record e = true) -> limited_run id d evs ->
  count p evs = 0%nat.
Proof using Type.
  clear. intros Hp H. apply count_zero. eapply Forall_impl; [by eapply limited_events|].
  intros e [H1 H2]. destruct (p e) eqn:E; [|done]. destruct (Hp e E); congruence.
Qed.

Lemma limited_elem id d evs e :
  limited_run id d evs -> e ∈ evs -> past_limiter e = false /\ is_record e = false.
Proof using Type. intros H Hin. eapply Forall_forall in Hin; [|by eapply limited_events]. done. Qed.

(** The limiter is passed before anything else is asked. *)
Lemma limited_granted id d evs :
  limited_run id (d, None) evs -> limiter g = None \/ existsb is_granted evs = true.
Proof using Type.
  clear. intros H. inversion H; subst; [by left|right; apply orb_true_iff; by left..].
Qed.

(** *** Where an answer comes from *)

(** The cached response under the client's key. *)
Definition from_cache (req : ChatRequest) (md : RequestMetadata) (response : ChatResponse) (evs : list event) : Prop :=
  exists key payload, cache.Key (ClientIdentity md) (Some req) = inr (Some key) /\
    EvGet key (inr (Some payload)) ∈ evs /\ codec.UnmarshalResponse payload = inr response.

(** The response stored for the client's idempotency key and the same request. *)
Definition from_store (req : ChatRequest) (md : RequestMetadata) (key : string) (response : ChatResponse)
    (evs : list event) : Prop :=
  exists fp payload, requestFingerprint req = inr fp /\
    EvBegin (idempotency.ScopedKey (ClientIdentity md) key) fp
      (inr (idempotency.mkResult idempotency.StatusCompleted payload)) ∈ evs /\
    codec.UnmarshalResponse payload = inr response.

(** What is written to the cache: the returned response, under the client's key. *)
Definition caches_answer (req : ChatRequest) (md : RequestMetadata) (r : error + ChatResult) (evs : list event) : Prop :=
  forall key payload, EvSet key payload ∈ evs ->
    cache.Key (ClientIdentity md) (Some req) = inr (Some key) /\
    exists cr, r = inr cr /\ codec.MarshalResponse (cr_Response cr) = inr payload.

Definition answered_by (req : ChatRequest) (md : RequestMetadata) (key : string) (r : error + ChatResult)
    (evs : list event) : Prop :=
  forall cr, r = inr cr ->
    if cr_IdempotencyReplayed cr then from_store req md key (cr_Response cr) evs
    else if bool_decide (cr_CacheStatus cr = cache.StatusHit) then from_cache req md (cr_Response cr) evs
    else EvCall (Some (cr_Response cr)) None ∈ evs.

Lemma provider_caches req f ck cs r evs key payload :
  provider_run req f ck cs r evs -> EvSet key payload ∈ evs ->
  ck = Some key /\ is_Some (cache_ g) /\ exists cr, r = inr cr /\ codec.MarshalResponse (cr_Response cr) = inr payload.
Proof using Type.
  clear Tr log. intros [e resp latency|response latency]; [|destruct ck]; unfold rel, recorded;
    [|unfold stored, com, recorded; destruct (codec.MarshalResponse response) eqn:?, (cache_ g)..];
    destruct (recorder g), (fl_acquired f); simpl; intros Hin; elem_cases Hin; eauto 10.
Qed.

Lemma cached_caches req md f r evs : cached_run req md f r evs -> caches_answer req md r evs.
Proof using Type.
  clear Tr log. intros [e|key payload response latency _ _|key got r' evs' Hk Hr|ck r' evs' Hck Hr] k p.
  - unfold rel. destruct (fl_acquired f); intros Hin; elem_cases Hin.
  - unfold com, recorded. destruct (fl_acquired f), (recorder g); intros Hin; elem_cases Hin.
  - intros [[=]|Hin]%elem_of_cons. destruct (provider_caches _ _ _ _ _ _ _ _ Hr Hin) as ([= ->] & _ & H). done.
  - intros Hin. destruct (provider_caches _ _ _ _ _ _ _ _ Hr Hin) as (-> & [c Hc] & _).
    destruct Hck; congruence.
Qed.

Lemma cached_answered req md f key r evs : cached_run req md f r evs -> answered_by req md key r evs.
Proof using Type.
  clear Tr log. intros H cr ->. destruct (cached_settled _ _ _ _ _ H) as (_ & _ & _ & Hcr).
  destruct (Hcr cr eq_refl) as [-> Hcall]. case_bool_decide as Hhit; [|by apply Hcall].
  inversion H as [|k payload response latency Hk Hu| k got r' evs' Hk Hr|ck r' evs' Hck Hr]; subst; simpl in *.
  - exists k, payload. split_and!; [done|by left|done].
  - by inversion Hr; subst.
  - by inversion Hr; subst.
Qed.

Lemma answered_cons req md key r e evs : answered_by req md key r evs -> answered_by req md key r (e :: evs).
Proof using Type.
  clear Tr log g HR HS HRand. intros H cr Hr. specialize (H cr Hr). destruct (cr_IdempotencyReplayed cr);
    [|case_bool_decide]; unfold from_store, from_cache in *; set_solver.
Qed.

Lemma answered_prefix req md key r evs' evs :
  answered_by req md key r evs -> answered_by req md key r (evs' ++ evs).
Proof using Type. intros H. induction evs' as [|e evs' IH]; [done|]. by apply answered_cons. Qed.

Lemma reserved_provenance req md key requestID t rate r evs :
  reserved_run req md key requestID t rate r evs -> caches_answer req md r evs /\ answered_by req md key r evs.
Proof using Type.
  clear Tr log. intros H. destruct H as [r evs _ Hr|code cause evs _ Hevs|k fp response r evs _ _ _ Hr
    |k fp begun code latency _ _|k fp payload e _ _|k fp payload response latency _ Hkey Hfp Hu].
  - split; [by eapply cached_caches|by eapply cached_answered].
  - split; [|done]. destruct Hevs as [->|(k & fp & e & ->)]; intros ? ? Hin; elem_cases Hin.
  - split; [|by eapply answered_cons, cached_answered].
    intros ? ? [[=]|Hin]%elem_of_cons. by eapply cached_caches.
  - split; [|done]. intros ? ?. unfold recorded. destruct (recorder g); intros Hin; elem_cases Hin.
  - split; [|done]. intros ? ? Hin. elem_cases Hin.
  - split.
    + intros ? ?. unfold recorded. destruct (recorder g); intros Hin; elem_cases Hin.
    + intros cr [= <-]. exists fp, payload. subst k. split_and!; [done|by left|done].
Qed.

(** *** What is recorded *)

(** Failures that leave no record: a malformed request, and a dependency that
    could not be used. *)
Definition unrecorded (r : error + ChatResult) : Prop :=
  match r with
  | inl (EValidation _ _) | inl (EDependency _ _) => True
  | _ => False
  end.

Record well_recorded (requestID model : string) (r : error + ChatResult) (evs : list event) : Prop := {
  wr_once : (count is_record evs <= 1)%nat;
  wr_present : is_Some (recorder g) -> count is_record evs = 1%nat \/ unrecorded r;
  wr_matches : forall x, EvRecord x ∈ evs -> record_matches requestID model (0 <? count is_call evs)%nat r x;
}.

Lemma well_recorded_cons requestID model r e evs :
  is_record e = false -> is_call e = false ->
  well_recorded requestID model r evs -> well_recorded requestID model r (e :: evs).
Proof using Type.
  clear Tr log HR HS HRand Sha J. intros Hr Hc [H1 H2 H3]. split; simpl; rewrite ?Hr, ?Hc; [done..|].
  intros x [<-|Hin]%elem_of_cons; [done|by apply H3].
Qed.

Lemma provider_recorded req f ck cs r evs :
  cs <> cache.StatusHit -> provider_run req f ck cs r evs -> well_recorded (fl_requestID f) (Model req) r evs.
Proof using Type.
  clear Tr log HR HS HRand Sha. intros Hcs [e resp latency|response latency]; split;
    [..|intros x| | |intros x]; try destruct ck; run_cases; auto; try lia;
    try (intros Hin; elem_cases Hin; split_and!; try done; unfold status_of; simpl;
         by rewrite ?bool_decide_eq_false_2 by done).
  all: by intros [? [=]].
Qed.

Lemma cached_recorded req md f r evs :
  cached_run req md f r evs -> well_recorded (fl_requestID f) (Model req) r evs.
Proof using Type.
  clear Tr log HR HS HRand. intros [e|key payload response latency _ _|key got r' evs' _ Hr|ck r' evs' _ Hr].
  - split; [..|intros x]; run_cases; auto; try lia; intros Hin; elem_cases Hin.
  - apply well_recorded_cons; [done..|]. apply well_recorded_cons; [done..|].
    split; [..|intros x]; run_cases; auto; try lia; try (by intros [? [=]]);
      intros Hin; elem_cases Hin; by split_and!.
  - apply well_recorded_cons; [done..|]. eapply provider_recorded; [|exact Hr]; done.
  - eapply provider_recorded; [|exact Hr]; done.
Qed.

Lemma reserved_recorded req md key requestID t rate r evs :
  reserved_run req md key requestID t rate r evs -> well_recorded requestID (Model req) r evs.
Proof using Type.
  clear Tr log HR HS HRand. intros H. destruct H as [r evs _ Hr|code cause evs _ Hevs|k fp response r evs _ _ _ Hr
    |k fp begun code latency _ _|k fp payload e _ _|k fp payload response latency _ Hkey Hfp Hu].
  - exact (cached_recorded _ _ _ _ _ Hr).
  - destruct Hevs as [->|(k & fp & e & ->)]; split; simpl; auto; try lia; intros x Hin; elem_cases Hin.
  - apply well_recorded_cons; [done..|]. exact (cached_recorded _ _ _ _ _ Hr).
  - apply well_recorded_cons; [done..|]. split; [..|intros x]; run_cases; auto; try lia;
      try (by intros [? [=]]); intros Hin; elem_cases Hin. by split_and!.
  - split; [..|intros x]; simpl; auto; try lia; intros Hin; elem_cases Hin.
  - apply well_recorded_cons; [done..|]. split; [..|intros x]; run_cases; auto; try lia;
      try (by intros [? [=]]); intros Hin; elem_cases Hin. by split_and!.
Qed.

(** Prefixing the limiter's events. *)
Lemma well_recorded_limited requestID model r id d evs evs' :
  limited_run id d evs -> well_recorded requestID model r evs' -> well_recorded requestID model r (evs ++ evs').
Proof using Type.
  intros H. pose proof (limited_events _ _ _ H) as Hf. clear H. induction Hf as [|e evs [He Hr] _ IH]; [done|].
  intros Hw. apply well_recorded_cons; [done|by destruct e|by apply IH].
Qed.

Lemma chat_recorded req md r evs :
  chat_run req md r evs ->
  exists requestID model, identified md requestID /\ (forall q, req = Some q -> model = Model q) /\
    well_recorded requestID model r evs.
Proof using Type.
  clear Tr log HR HS HRand. intros [code m|c|q d e id latency evs' -> Hid Hl|q key id t d res evs1 evs2 -> Hid Hv Hs Hk Hl Hr].
  - exists (TrimSpace (RequestID md)), (default "" (Model <$> req)). split_and!; [done|by intros q ->|].
    split; simpl; auto; try lia; set_solver.
  - exists (TrimSpace (RequestID md)), (default "" (Model <$> req)). split_and!; [done|by intros q ->|].
    split; simpl; auto; try lia; set_solver.
  - exists id, (Model q). split_and!; [done|by intros ? [= <-]|]. eapply well_recorded_limited; [exact Hl|].
    split; [..|intros x]; run_cases; auto; try lia; try (by intros [? [=]]); intros Hin; elem_cases Hin.
    split_and!; try done. by inversion Hl; subst.
  - exists id, (Model q). split_and!; [done|by intros ? [= <-]|]. eapply well_recorded_limited; [exact Hl|].
    by eapply reserved_recorded.
Qed.

(** The limiter is asked before the reservation only, and no stream is opened. *)
Definition is_entry (e : event) : bool := match e with EvAllow _ _ _ | EvOpen _ => true | _ => false end.

Lemma provider_no_entry req f ck cs r evs : provider_run req f ck cs r evs -> count is_entry evs = 0%nat.
Proof using Type. clear Tr log HR HS HRand Sha. intros []; [|destruct ck]; by run_cases. Qed.

Lemma cached_no_entry req md f r evs : cached_run req md f r evs -> count is_entry evs = 0%nat.
Proof using Type.
  clear Tr log HR HS HRand. intros [e|k payload response latency _ _|k got r' evs' _ Hr|ck r' evs' _ Hr].
  - by run_cases.
  - by run_cases.
  - exact (provider_no_entry _ _ _ _ _ _ Hr).
  - exact (provider_no_entry _ _ _ _ _ _ Hr).
Qed.

Lemma reserved_no_entry req md key requestID t rate r evs :
  reserved_run req md key requestID t rate r evs -> count is_entry evs = 0%nat.
Proof using Type.
  clear Tr log HR HS HRand.
  intros [r0 evs0 _ Hr|code cause evs0 _ [->|(k & fp & e0 & ->)]|k fp response r0 evs0 _ _ _ Hr|?????|????|?????];
    try (by run_cases); exact (cached_no_entry _ _ _ _ _ Hr).
Qed.

Definition is_open (e : event) : bool := match e with EvOpen _ => true | _ => false end.

(** [Chat] opens no stream. *)
Lemma chat_no_open req md r evs : chat_run req md r evs -> Forall (fun e => is_open e = false) evs.
Proof using Type.
  clear Tr log HR HS HRand.
  assert (Hlim : forall id d evs, limited_run id d evs -> Forall (fun e => is_open e = false) evs)
    by (intros id d evs' []; by repeat constructor).
  intros [code m|c|q d e id latency evs' -> Hid Hl|q key id t d res evs1 evs2 -> Hid Hv Hs Hk Hl Hr];
    [constructor..| |]; (apply Forall_app; split; [by eapply Hlim|]).
  - unfold recorded. destruct (recorder g); by repeat constructor.
  - apply Forall_forall. intros e Hin. destruct (is_open e) eqn:Eo; [|done]. exfalso.
    apply list_elem_of_lookup in Hin as [i Hi]. apply (count_pos is_entry) in Hi; [|by destruct e].
    rewrite (reserved_no_entry _ _ _ _ _ _ _ _ Hr) in Hi. lia.
Qed.

(** *** The whole request *)

Lemma accounted_nil key r :
  failed r = true -> accounted key r [].
Proof using Type. clear. intros Hr. split; simpl; rewrite ?Hr; try done; try lia; auto; set_solver. Qed.

Lemma accounted_cons key r e evs :
  past_limiter e = false -> accounted key r evs -> accounted key r (e :: evs).
Proof using Type.
  clear Tr log HR HS HRand g. intros He [H1 H2 H3 H4 H5 H6 H7 H8 H9].
  assert (is_call e = false /\ is_acquired e = false /\ is_release e = false /\ is_complete e = false)
    as (Hc & Ha & Hr & Hm) by (by destruct e).
  split; simpl; rewrite ?Hc, ?Ha, ?Hr, ?Hm; simpl; [done..| | |].
  - intros Hq H0. destruct (H7 Hq H0) as (resp & e' & Hin & He'). exists resp, e'. split; [by right|done].
  - intros k fp p [<-|Hin]%elem_of_cons; [done|].
    destruct (H8 _ _ _ Hin) as [(b & Hb & Hs) Hcr]. split; [|done]. exists b. split; [by right|done].
  - intros cr Hcr Hi Hh. right. by apply H9.
Qed.

Lemma accounted_limited key r id d evs evs' :
  limited_run id d evs -> accounted key r evs' -> accounted key r (evs ++ evs').
Proof using Type.
  intros H. pose proof (limited_events _ _ _ H) as Hf. clear H. induction Hf as [|e evs [He _] _ IH]; [done|].
  intros Ha. apply accounted_cons; [done|by apply IH].
Qed.

Lemma chat_accounted req md r evs :
  chat_run req md r evs ->
  exists key, accounted key r evs /\ (key = "" -> failed r = true /\ count is_call evs = 0%nat \/
    normalizeIdempotencyKey (IdempotencyKey md) = inr "").
Proof using Type.
  clear Tr log HR HS HRand. intros [code m|c|q d e id latency evs' -> Hid Hl|q key id t d res evs1 evs2 -> Hid Hv Hs Hk Hl Hr].
  - exists "". split; [by apply accounted_nil|by left].
  - exists "". split; [by apply accounted_nil|by left].
  - exists "". split.
    + eapply accounted_limited; [exact Hl|]. unfold recorded.
      destruct (recorder g); [apply accounted_cons; [done|]|]; by apply accounted_nil.
    + intros _. left. split; [done|].
      assert (count is_call evs' = 0%nat) as H0 by (eapply limited_counts; [|exact Hl]; intros []; auto).
      rewrite count_app, H0. by apply count_recorded.
  - exists key. split; [|intros ->; by right]. eapply accounted_limited; [exact Hl|]. by eapply reserved_accounted.
Qed.

(** The limiter's verdict decides whether a request goes on. *)
Lemma chat_limiter req md r evs :
  chat_run req md r evs ->
  (limiter g = None \/ preceded is_granted past_limiter evs = true) /\
  forall id d err, EvAllow id d err ∈ evs -> id = ClientIdentity md /\
    match err with
    | None => Allowed d = true \/ r = inl (ERateLimit d)
    | Some e => rateLimitFailOpen g = true \/ r = inl (EDependency "rate_limiter_unavailable" (Some e))
    end.
Proof using Type.
  clear Tr log HR HS HRand. intros [code m|c|q d e id latency evs' -> Hid Hl|q key id t d res evs1 evs2 -> Hid Hv Hs Hk Hl Hr].
  - split; [by right|set_solver].
  - split; [by right|set_solver].
  - split.
    + right. apply preceded_skip.
      * eapply Forall_impl; [by eapply limited_events|]. by intros ? [? ?].
      * unfold recorded. by destruct (recorder g).
    + intros id' d' err. inversion Hl; subst; unfold recorded; destruct (recorder g); simpl;
        intros Hin; elem_cases Hin; auto.
  - split.
    + destruct (limited_granted _ _ _ Hl) as [?|Hg]; [by left|right]. apply preceded_granted; [|done].
      rewrite <-(app_nil_r evs1). apply preceded_skip; [|done].
      eapply Forall_impl; [by eapply limited_events|]. by intros ? [? ?].
    + intros id' d' err [Hin|Hin]%elem_of_app.
      * inversion Hl; subst; elem_cases Hin; auto.
      * apply list_elem_of_lookup in Hin as [i Hi]. apply (count_pos is_entry) in Hi; [|done].
        rewrite (reserved_no_entry _ _ _ _ _ _ _ _ Hr) in Hi. lia.
Qed.

(** *** The properties of a request *)

(** C2: A request is admitted before anything is done for it, and the provider is
    called at most once. [Chat] always returns. Without a limiter verdict that
    lets the request pass (granted, or the limiter failed and the gateway fails
    open) no reservation, cache or provider is touched, and the caller gets the
    rate-limit error, or the dependency error when the limiter failed; with an
    idempotency key the provider is called only after the key was acquired; the
    limiter is asked with the caller's identity. *)
Theorem gateway_calls_provider_once ctx req md :
  tr (Chat g ctx req md) (fun r evs =>
    (count is_call evs <= 1)%nat /\
    (normalizeIdempotencyKey (IdempotencyKey md) = inr "" \/ preceded is_acquired is_call evs = true) /\
    (limiter g = None \/ preceded is_granted past_limiter evs = true) /\
    forall id d err, EvAllow id d err ∈ evs -> id = ClientIdentity md /\
      match err with
      | None => Allowed d = true \/ r = inl (ERateLimit d)
      | Some e => rateLimitFailOpen g = true \/ r = inl (EDependency "rate_limiter_unavailable" (Some e))
      end).
Proof using Tr.
  eapply traces_mono; [apply Chat_trace|]. intros r evs H.
  destruct (chat_accounted _ _ _ _ H) as (key & [H1 _ H3 _ _ _ _ _ _] & Hk).
  destruct (chat_limiter _ _ _ _ H) as [H4 H5]. split_and!; [done| |done|done].
  destruct H3 as [->|]; [|by right]. destruct (Hk eq_refl) as [[_ Hc]|?]; [right|by left].
  by apply preceded_absent.
Qed.


(** C15: Where an answer comes from, and what is cached. An answer is the
    provider's response, or the response stored under the cache key of this
    client and this request, or the response completed under this client's
    idempotency key for the same request; only the returned response is written
    to the cache, encoded, under that same cache key, and never when the request
    failed. *)
Theorem gateway_answer_provenance ctx req md :
  tr (Chat g ctx req md) (fun r evs =>
    (forall cr, r = inr cr -> exists q key, req = Some q /\
      normalizeIdempotencyKey (IdempotencyKey md) = inr key /\ answered_by q md key r evs) /\
    (forall key payload, EvSet key payload ∈ evs ->
      cache.Key (ClientIdentity md) req = inr (Some key) /\
      exists cr, r = inr cr /\ codec.MarshalResponse (cr_Response cr) = inr payload)).
Proof using Tr.
  eapply traces_mono; [apply Chat_trace|]. intros r evs H.
  destruct H as [code m|c|q d e id latency evs -> Hid Hl|q key id t d res evs1 evs2 -> Hid Hv Hs Hk Hl Hr].
  - split; [done|set_solver].
  - split; [done|set_solver].
  - split; [done|]. intros k p [Hin|Hin]%elem_of_app; [by destruct (limited_elem _ _ _ _ Hl Hin)|].
    unfold recorded in Hin. destruct (recorder g); elem_cases Hin.
  - destruct (reserved_provenance _ _ _ _ _ _ _ _ Hr) as [H1 H2]. split.
    + intros cr _. exists q, key. split_and!; [done..|]. by apply answered_prefix.
    + intros k p [Hin|Hin]%elem_of_app; [by destruct (limited_elem _ _ _ _ Hl Hin)|]. by apply H1.
Qed.

(** C16: Every request leaves at most one usage record, and the record tells its
    outcome. With a recorder it leaves exactly one, except for a malformed
    request and for a dependency that could not be used. The record has the
    caller's request identifier (or the generated one that the caller gets back),
    the request's model, the error code of the returned error with the status
    that belongs to it, or for an answer its provider, its cache status, the
    status success, cache hit or replay, and the provider's token counts exactly
    when the provider was called. *)
Theorem gateway_records_outcome ctx req md :
  tr (Chat g ctx req md) (fun r evs =>
    (count is_record evs <= 1)%nat /\
    (is_Some (recorder g) -> count is_record evs = 1%nat \/ unrecorded r) /\
    forall x, EvRecord x ∈ evs -> exists requestID q, req = Some q /\ identified md requestID /\
      record_matches requestID (Model q) (0 <? count is_call evs)%nat r x).
Proof using Tr.
  eapply traces_mono; [apply Chat_trace|]. intros r evs H.
  destruct (chat_recorded _ _ _ _ H) as (id & model & Hid & Hm & [H1 H2 H3]). split_and!; [done..|].
  intros x Hin. destruct req as [q|]; [|by inversion H; subst; try discriminate; elem_cases Hin].
  exists id, q. rewrite <-(Hm q eq_refl). auto.
Qed.

(** ** Streams *)

(** The usage known after a step of the consumer, and how the stream ends. *)
Definition usage_after (u : ChatUsage) (r : provider.op_result) : ChatUsage :=
  match r with
  | provider.RRecv (Some c) _ => default u (chunk_Usage c)
  | _ => u
  end.
Definition ending (r : provider.op_result) : option (string * string) :=
  match r with
  | provider.RRecv _ None => None
  | provider.RRecv _ (Some e) =>
      Some (if errors_Is e EOF then (storage.StatusSucceeded, "") else (storage.StatusFailed, gatewayErrorCode e))
  | provider.RClose None => Some (storage.StatusFailed, "stream_closed")
  | provider.RClose (Some _) => Some (storage.StatusFailed, "stream_close_failed")
  end.

(** The first step that ends the stream, with the usage known by then. *)
Fixpoint stream_end (u : ChatUsage) (rs : list provider.op_result) : option (string * string * ChatUsage) :=
  match rs with
  | [] => None
  | r :: rs =>
      match ending r with
      | Some (status, code) => Some (status, code, usage_after u r)
      | None => stream_end (usage_after u r) rs
      end
  end.

Section metered.
Context (ctx : context.Ctx) (requestID selectedProvider model : string) (startedAt : Z).
Context (cancel : context.CancelFunc) (st : provider.Stream W).
Hypothesis recv_silent : forall s, silent log (provider.Recv st s).
Hypothesis close_silent : forall s, silent log (provider.Close st s).

Abbreviation finish := (streamFinish g ctx requestID selectedProvider model startedAt).
Abbreviation metered := (meteredStream cancel finish st).

(** The events of the end of a stream. *)
Definition end_events (e : option (string * string * ChatUsage)) (evs : list event) : Prop :=
  match e with
  | None => evs = []
  | Some (status, code, u) => exists latency,
      evs = recorded (mkRecord requestID selectedProvider model status u latency cache.StatusBypass code) ++
            [EvTokens selectedProvider u]
  end.

Lemma finishOnce_trace status code (s : meteredState (provider.stream_state st)) :
  tr (finishOnce cancel finish status code s) (fun s' evs => mt_finished s' = true /\
    if mt_finished s then evs = [] else end_events (Some (status, code, mt_usage s)) evs).
Proof using Tr.
  unfold finishOnce. destruct (mt_finished s) eqn:Ef; [by apply traces_ret|].
  apply traces_silent; [apply silent_cancel|]. intros _. unfold streamFinish.
  eapply traces_bind.
  { eapply traces_bind; [apply recordSince_trace|]. intros ? evs (latency & ->).
    eapply traces_mono; [apply tr_tokens|]. intros ? evs ->. instantiate (1 := fun _ evs => end_events (Some (status, code, mt_usage s)) evs).
    by exists latency. }
  intros ? evs H. apply traces_ret. by rewrite app_nil_r.
Qed.

Lemma metered_op op (s : provider.stream_state metered) :
  tr (provider.run_op metered op s) (fun r evs =>
    if mt_finished s then evs = [] /\ mt_finished r.2 = true
    else match ending r.1 with
         | None => evs = [] /\ mt_finished r.2 = false /\ mt_usage r.2 = usage_after (mt_usage s) r.1
         | Some (status, code) => end_events (Some (status, code, usage_after (mt_usage s) r.1)) evs /\
             mt_finished r.2 = true
         end).
Proof using Tr recv_silent close_silent.
  destruct op; cbn [provider.run_op provider.Recv provider.Close meteredStream].
  - unfold meteredRecv. apply (traces_bind _ _ _ (fun r evs =>
      if mt_finished s then evs = [] /\ mt_finished r.2 = true
      else match ending (provider.RRecv r.1.1 r.1.2) with
         | None => evs = [] /\ mt_finished r.2 = false /\ mt_usage r.2 = usage_after (mt_usage s) (provider.RRecv r.1.1 r.1.2)
         | Some (status, code) =>
             end_events (Some (status, code, usage_after (mt_usage s) (provider.RRecv r.1.1 r.1.2))) evs /\
             mt_finished r.2 = true
         end)).
    2: { intros [[chunk err] s'] evs H. apply traces_ret. by rewrite app_nil_r. }
    apply traces_silent; [apply recv_silent|]. intros [[chunk err] i]. cbn beta iota.
    destruct err as [e|].
    + destruct (errors_Is e EOF) eqn:Ee; (eapply traces_bind; [apply finishOnce_trace|]);
        intros s' evs [Hs' H]; apply traces_ret; rewrite app_nil_r; cbn [mt_finished mt_usage fst snd ending] in *;
        destruct (mt_finished s); rewrite ?Ee; destruct chunk as [c|]; try done;
        cbn [usage_after]; by destruct (chunk_Usage c).
    + apply traces_ret. cbn [mt_finished mt_usage fst snd ending]. destruct (mt_finished s); [done|].
      split_and!; [done..|]. destruct chunk as [c|]; [|done]. cbn [usage_after]. by destruct (chunk_Usage c).
  - unfold meteredClose. apply (traces_bind _ _ _ (fun r evs =>
      if mt_finished s then evs = [] /\ mt_finished r.2 = true
      else match ending (provider.RClose r.1) with
         | None => False
         | Some (status, code) => end_events (Some (status, code, mt_usage s)) evs /\ mt_finished r.2 = true
         end)).
    2: { intros [err s'] evs H. apply traces_ret. rewrite app_nil_r. cbn [fst snd] in *.
         destruct (mt_finished s); [done|]. by destruct err. }
    apply traces_silent; [apply close_silent|]. intros [err i]. cbn beta iota.
    eapply traces_bind; [apply finishOnce_trace|]. intros s' evs [Hs' H]. apply traces_ret. rewrite app_nil_r.
    cbn [mt_finished mt_usage fst snd] in *. destruct (mt_finished s); [done|]. by destruct err.
Qed.

Lemma metered_ops ops (s : provider.stream_state metered) :
  tr (provider.run_ops metered ops s) (fun r evs =>
    if mt_finished s then evs = [] else end_events (stream_end (mt_usage s) r.1) evs).
Proof using Tr recv_silent close_silent.
  revert s. induction ops as [|op ops IH]; intros s; cbn [provider.run_ops].
  { apply traces_ret. by destruct (mt_finished s). }
  eapply traces_bind; [apply metered_op|]. intros [r s1] evs H. cbn [fst snd] in H.
  eapply traces_bind; [apply IH|]. intros [rs s2] evs2 H2. apply traces_ret. rewrite app_nil_r.
  cbn [fst snd] in *. destruct (mt_finished s).
  { destruct H as [-> H]. by rewrite H in H2; subst. }
  cbn [stream_end]. destruct (ending r) as [[status code]|].
  - destruct H as [H Hf]. rewrite Hf in H2. subst. by rewrite app_nil_r.
  - destruct H as (-> & Hf & Hu). by rewrite Hf, Hu in H2.
Qed.

(** C17: The stream the gateway hands out accounts for the request exactly once.
    Whatever sequence of [Recv] and [Close] the consumer makes, nothing is
    recorded while every [Recv] succeeds; the first EOF, error or [Close] writes
    one record and reports the tokens once, with the status and error code of
    that event and the last usage the upstream sent, and no later call adds
    anything. *)
Theorem metered_stream_accounting ops :
  tr (provider.run_ops metered ops (provider.stream_init metered))
    (fun r evs => end_events (stream_end zeroUsage r.1) evs).
Proof using Tr recv_silent close_silent. apply (metered_ops ops (provider.stream_init metered)). Qed.

End metered.

(** *** Opening a stream *)

Inductive stream_run (good : provider.Stream W -> Prop) (ctx : context.Ctx) (req : option ChatRequest) (md : RequestMetadata)
  : error + StreamResult W -> list event -> Prop :=
| stream_invalid code message : stream_run good ctx req md (inl (EValidation code message)) []
| stream_no_id c : stream_run good ctx req md (inl (EDependency "request_id_unavailable" (Some c))) []
| stream_limited r d e requestID latency evs :
    req = Some r -> identified md requestID -> limited_run (ClientIdentity md) (d, Some e) evs ->
    stream_run good ctx req md (inl e) (evs ++
      recorded (mkRecord requestID (providerName g) (Model r) (statusForGatewayError e) zeroUsage latency
        cache.StatusBypass (gatewayErrorCode e)))
| stream_failed r d e requestID latency evs :
    req = Some r -> identified md requestID -> limited_run (ClientIdentity md) (d, None) evs ->
    TrimSpace (IdempotencyKey md) = "" ->
    stream_run good ctx req md (inl e) (evs ++ EvOpen (Some e) ::
      recorded (mkRecord requestID (providerNameFromError e (providerName g)) (Model r) storage.StatusFailed
        zeroUsage latency cache.StatusBypass (gatewayErrorCode e)))
| stream_opened r d cancel st requestID t evs :
    req = Some r -> Stream r = true -> good st -> identified md requestID ->
    limited_run (ClientIdentity md) (d, None) evs ->
    TrimSpace (IdempotencyKey md) = "" ->
    let prov := if bool_decide (provider.StreamProviderName st = "unknown") then providerName g
                else provider.StreamProviderName st in
    stream_run good ctx req md
      (inr (mkStreamResult (meteredStream cancel (streamFinish g ctx requestID prov (Model r) t) st)
              requestID prov d))
      (evs ++ [EvOpen None]).

(** [good] holds of every stream that the provider opens. *)
Lemma ChatStream_trace good ctx req md :
  (forall ctx r, yields (provider.ChatStream (chat g) ctx r) (fun a => forall st, a.1 = Some st -> good st)) ->
  tr (ChatStream g ctx req md) (stream_run good ctx req md).
Proof using Tr.
  intros Hgood. unfold ChatStream. apply traces_silent; [apply silent_WithTimeout|]. intros [c cancel].
  assert (Hfail : forall e evs, stream_run good ctx req md (inl e) evs ->
    tr (context.cancel cancel ;! ret (inl e)) (fun r evs' => stream_run good ctx req md r (evs ++ evs'))).
  { intros e evs H. apply traces_silent; [apply silent_cancel|]. intros _. apply traces_ret. by rewrite app_nil_r. }
  destruct (service.ValidateChatRequest req) as [e|] eqn:Ev.
  { destruct (Validate_error req e Ev) as (code & m & ->). apply (Hfail _ []), stream_invalid. }
  destruct req as [r|]; [|done]. destruct (Stream r) eqn:Es; [|apply (Hfail _ []), stream_invalid]. simpl negb.
  case_bool_decide as Ek; [|apply (Hfail _ []), stream_invalid]. simpl negb.
  eapply traces_bind; [apply ensureRequestID_trace|]. intros [e|requestID] evs [-> He].
  { destruct He as [cause ->]. apply (Hfail _ []), stream_no_id. }
  apply traces_silent; [apply silent_gets|]. intros t.
  eapply traces_bind; [apply enforceRateLimit_trace|]. intros [d [e|]] evs Hl.
  - eapply traces_bind; [apply recordSince_trace|]. intros ? evs' (latency & ->).
    eapply traces_mono; [apply Hfail; by eapply (stream_limited _ _ _ _ r d e requestID latency)|].
    intros r' evs' H. cbn beta in H. by rewrite <-app_assoc in H.
  - unfold streamProvider, service.ChatStream. rewrite Ev, Es. simpl.
    eapply traces_bind; [apply traces_yields; [apply traces_yields; [apply tr_open|]|apply Hgood]|].
    { apply (@provider.contract_stream _ _ _ tr_contract). }
    intros [st [e|]] evs' [[-> Hst] Hg]; simpl in Hg.
    + eapply traces_bind; [apply recordSince_trace|]. intros ? evs' (latency & ->).
      apply traces_silent; [apply silent_cancel|]. intros _. apply traces_ret. rewrite app_nil_r.
      by eapply stream_failed.
    + destruct st as [s|]; [|done]. apply traces_ret. rewrite app_nil_r. eapply stream_opened; auto.
Qed.

(** Events of the reservation and of the cache. *)
Definition is_keyed (e : event) : bool :=
  match e with
  | EvBegin _ _ _ | EvComplete _ _ _ | EvRelease _ _ | EvGet _ _ | EvSet _ _ => true
  | _ => false
  end.

Lemma limited_record_open id d evs :
  limited_run id d evs -> count is_record evs = 0%nat /\ count is_open evs = 0%nat.
Proof using Type. intros H. split; (eapply limited_counts; [|exact H]); intros []; auto. Qed.

Lemma stream_limiter good ctx req md r evs :
  stream_run good ctx req md r evs ->
  (count is_open evs <= 1)%nat /\ count is_keyed evs = 0%nat /\
  (limiter g = None \/ preceded is_granted past_limiter evs = true).
Proof using Type.
  clear Tr log.
  assert (Hlim : forall id d evs p, limited_run id d evs ->
    (forall e, p e = true -> past_limiter e = true) -> count p evs = 0%nat).
  { intros id d evs0 p Hl Hp. eapply limited_counts; [|exact Hl]. eauto. }
  assert (Hskip : forall id d evs evs', limited_run id d evs -> preceded is_granted past_limiter evs' = true ->
    preceded is_granted past_limiter (evs ++ evs') = true).
  { intros id d evs0 evs' Hl. apply preceded_skip. eapply Forall_impl; [by eapply limited_events|]. by intros ? []. }
  assert (Hpass : forall id d evs evs', limited_run id (d, None) evs ->
    limiter g = None \/ preceded is_granted past_limiter (evs ++ evs') = true).
  { intros id d evs0 evs' Hl. destruct (limited_granted _ _ _ Hl); [by left|right].
    apply preceded_granted; [|done]. rewrite <-(app_nil_r evs0). by eapply Hskip. }
  intros [| |q d e id latency evs' -> _ Hl|q d e id latency evs' -> _ Hl _|q d cancel st id t evs' -> _ _ _ Hl _ prov];
    rewrite ?count_app, ?(Hlim _ _ _ is_open Hl), ?(Hlim _ _ _ is_keyed Hl) by (by intros []);
    (split_and!; [..|try by eapply Hpass]); simpl; rewrite ?count_recorded by done; try lia; try by right.
  right. eapply Hskip; [exact Hl|]. unfold recorded. by destruct (recorder g).
Qed.

(** Opening a stream. [ChatStream] always returns; nothing is opened without
    the limiter's consent, at most one upstream stream is opened, and neither the
    reservations nor the cache are touched. A failure leaves at most one record
    (with a recorder exactly one, malformed requests and unusable dependencies
    apart), carrying the error's code; a success leaves none yet and hands out
    the metered stream of this very request, which only a streaming request
    without an idempotency key obtains. *)
Theorem gateway_stream_opening ctx req md :
  tr (ChatStream g ctx req md) (fun r evs =>
    (count is_open evs <= 1)%nat /\ count is_keyed evs = 0%nat /\
    (limiter g = None \/ preceded is_granted past_limiter evs = true) /\
    match r with
    | inl e =>
        (count is_record evs <= 1)%nat /\
        (is_Some (recorder g) -> count is_record evs = 1%nat \/ unrecorded (inl e)) /\
        forall x, EvRecord x ∈ evs -> exists q, req = Some q /\ storage.rec_Model x = Model q /\
          identified md (storage.rec_RequestID x) /\ storage.rec_ErrorCode x = gatewayErrorCode e /\
          storage.rec_Status x = if (0 <? count is_open evs)%nat then storage.StatusFailed else statusForGatewayError e
    | inr sr =>
        count is_record evs = 0%nat /\
        exists q cancel st t, req = Some q /\ Stream q = true /\ TrimSpace (IdempotencyKey md) = "" /\
          identified md (sr_RequestID sr) /\
          sr_Stream sr = meteredStream cancel (streamFinish g ctx (sr_RequestID sr) (sr_Provider sr) (Model q) t) st
    end).
Proof using Tr.
  eapply traces_mono; [by apply (ChatStream_trace (fun _ => True))|]. intros r evs H.
  destruct (stream_limiter _ _ _ _ _ _ H) as (H1 & H2 & H3). split_and!; [done..|].
  destruct H as [| |q d e id latency evs' -> Hid Hl|q d e id latency evs' -> Hid Hl _
    |q d cancel st id t evs' -> Hst _ Hid Hl Hk prov].
  - split_and!; simpl; auto; set_solver.
  - split_and!; simpl; auto; set_solver.
  - destruct (limited_record_open _ _ _ Hl) as [Hr Ho]. rewrite !count_app, Hr, Ho. unfold recorded.
    destruct (recorder g); split_and!; simpl; auto; try lia; try (by intros [? [=]]);
      intros x [Hin|Hin]%elem_of_app; try (by destruct (limited_elem _ _ _ _ Hl Hin)); elem_cases Hin; eauto 10.
  - destruct (limited_record_open _ _ _ Hl) as [Hr Ho]. rewrite !count_app, Hr, Ho. unfold recorded.
    destruct (recorder g); split_and!; simpl; auto; try lia; try (by intros [? [=]]);
      intros x [Hin|Hin]%elem_of_app; try (by destruct (limited_elem _ _ _ _ Hl Hin)); elem_cases Hin; eauto 10.
  - destruct (limited_record_open _ _ _ Hl) as [Hr Ho]. rewrite count_app, Hr. split; [done|].
    by exists q, cancel, st, t.
Qed.

End spec.

(** ** A concrete gateway

    Every dependency logs what it is asked; the key "k" is free, the limiter
    grants everything, the cache is empty. *)

Module witnesses.

Abbreviation W := (context.world (list event)).

Definition log (w : W) : list event := w.2.
Definition emit {A} (e : event) (a : A) : M W A := fun w => Ret a (w.1, w.2 ++ [e]).

#[global] Instance random : Random W := fun n => ret (inr (replicate n 7)).

Definition answer : ChatResponse :=
  mkChatResponse "" "chatcmpl-1" "chat.completion" 0 "m" [mkChatChoice 0 (mkChatMessage "assistant" "hello") "stop"]
    (mkChatUsage 3 4 7).

(** Requests for the model "m" and the one response are encoded. *)
#[global] Instance json : codec.Json := {
  codec.MarshalRequest r := inr (Model r);
  codec.MarshalResponse _ := inr "answer";
  codec.UnmarshalResponse s := if bool_decide (s = "answer") then inr answer else inl (EText "unsupported");
  codec.MarshalChunk _ := inl (EText "unsupported");
  codec.UnmarshalChunk _ := inl (EText "unsupported");
}.
#[global] Instance sha : codec.Sha256 := fun s => take 32 (bytes_of s ++ replicate 32 0).

Definition granted : Decision := mkDecision true 10 9 0.
Definition acquired : error + idempotency.Result := inr (idempotency.mkResult idempotency.StatusAcquired "").

(** A stream that ends at once with its usage. *)
Definition chunk : ChatStreamChunk :=
  mkChatStreamChunk "chatcmpl-1" "chat.completion.chunk" 0 "m" [] (Some (mkChatUsage 3 4 7)).
Definition stream : provider.Stream W :=
  provider.mkStream bool false
    (fun sent => if sent then ret ((None, Some (ESentinel EOF)), true) else ret ((Some chunk, None), true))
    (fun sent => ret (None, sent)) None.

Definition gate : GatewayService W :=
  NewGatewayService
    (provider.mkProvider (fun _ _ => emit (EvCall (Some answer) None) (Some answer, None))
                         (fun _ _ => emit (EvOpen None) (Some stream, None)))
    (mkOptions W
      (Some (ratelimit.mkLimiter (fun _ id => emit (EvAllow id granted None) (granted, None)))) false
      (Some (idempotency.mkStore
        (fun _ k fp => emit (EvBegin k fp acquired) acquired)
        (fun _ k fp p => emit (EvComplete k fp p) None)
        (fun _ k fp => emit (EvRelease k fp) None)))
      (Some (cache.mkStore
        (fun _ k => emit (EvGet k (inr None)) (inr None))
        (fun _ k p => emit (EvSet k p) None)))
      (Some (storage.mkRecorder (fun _ r => emit (EvRecord r) None)))
      "primary" 0 0 None
      (Some (mkObserver (emit EvRateLimited tt) (emit EvCacheHit tt) (fun p u => emit (EvTokens p u) tt)))).

Lemma traces_emit {A} (e : event) (a : A) (P : A -> list event -> Prop) :
  P a [e] -> traces log (emit e a) P.
Proof. intros H w. exists [e]. by split. Qed.

#[global] Instance gate_traced : Traced gate log.
Proof.
  split; simpl; try (intros; by apply traces_emit); [..|split; intros ctx r; simpl].
  - done.
  - intros n. apply silent_ret.
  - intros e. apply silent_ret.
  - intros l ctx id [= <-]. by apply traces_emit.
  - intros s ctx k fp [= <-]. by apply traces_emit.
  - intros s ctx k fp p [= <-]. by apply traces_emit.
  - intros s ctx k fp [= <-]. by apply traces_emit.
  - intros s ctx k [= <-]. by apply traces_emit.
  - intros s ctx k p [= <-]. by apply traces_emit.
  - intros s ctx r [= <-]. by apply traces_emit.
  - by intros w a w' [= <- _].
  - intros w a w' [= <- _]. split; [|done]. intros []; by apply yields_ret.
Qed.

Definition message : ChatMessage := mkChatMessage "user" "hi".
Definition request (streaming : bool) : ChatRequest :=
  mkChatRequest "m" [message] (Some (float_of_Z 0)) None None streaming.
Definition metadata (key : string) : RequestMetadata := mkMetadata "10.0.0.1" key "req-1".

(** The world after a run from the empty log. *)
Definition after {A} (m : M W A) : list event :=
  match m (context.start []) with Ret _ w => log w | _ => [] end.

Lemma traces_result {A} (m : M W A) (P : A -> list event -> Prop) :
  traces log m P -> match m (context.start []) with Ret a w => P a (log w) | _ => False end.
Proof.
  intros H. specialize (H (context.start [])). unfold twp in H.
  destruct (m (context.start [])) as [a w|w|w]; [|destruct H..].
  destruct H as (evs & Hl & HP). simpl in Hl. by rewrite Hl.
Qed.

Lemma traces_after {A} (m : M W A) (P : A -> list event -> Prop) :
  traces log m P -> exists a, P a (after m).
Proof.
  intros H%traces_result. unfold after. destruct (m (context.start [])) as [a w|w|w]; [|destruct H..].
  by exists a.
Qed.

Abbreviation keyed := (Chat gate context.Background (Some (request false)) (metadata "k")).

(** With a key: the limiter, the reservation, the cache and the provider. *)
Lemma gateway_calls_provider_once_witness :
  (count is_call (after keyed) <= 1)%nat /\ count is_call (after keyed) = 1%nat /\
  preceded is_acquired is_call (after keyed) = true.
Proof.
  destruct (traces_after _ _ (gateway_calls_provider_once gate log context.Background (Some (request false))
    (metadata "k"))) as (r & H1 & H2 & _).
  split_and!; [exact H1|by vm_compute|]. destruct H2 as [H2|H2]; [by vm_compute in H2|exact H2].
Defined.


Lemma gateway_answer_provenance_witness :
  exists key payload, EvSet key payload ∈ after keyed /\
    cache.Key "10.0.0.1" (Some (request false)) = inr (Some key).
Proof.
  destruct (traces_after _ _ (gateway_answer_provenance gate log context.Background (Some (request false))
    (metadata "k"))) as (r & _ & H).
  set (key := match cache.Key "10.0.0.1" (Some (request false)) with inr (Some k) => k | _ => "" end).
  assert (Hin : EvSet key "answer" ∈ after keyed).
  { apply (list_elem_of_lookup_2 _ 4). by vm_compute. }
  exists key, "answer". split; [exact Hin|]. exact (proj1 (H _ _ Hin)).
Defined.

Lemma gateway_records_outcome_witness :
  (count is_record (after keyed) <= 1)%nat /\ count is_record (after keyed) = 1%nat.
Proof.
  destruct (traces_after _ _ (gateway_records_outcome gate log context.Background (Some (request false))
    (metadata "k"))) as (r & H & _).
  split; [exact H|by vm_compute].
Defined.

Abbreviation opened := (ChatStream gate context.Background (Some (request true)) (metadata "")).

Lemma gateway_stream_opening_witness :
  (count is_open (after opened) <= 1)%nat /\ count is_open (after opened) = 1%nat /\
  count is_keyed (after opened) = 0%nat.
Proof.
  destruct (traces_after _ _ (gateway_stream_opening gate log context.Background (Some (request true))
    (metadata ""))) as (r & H1 & H2 & _).
  split_and!; [exact H1|by vm_compute|exact H2].
Defined.

(** A chunk with the usage, EOF, and a close. *)
Definition consumed : M W (list provider.op_result * meteredState bool) :=
  let st := meteredStream 0%nat (streamFinish gate context.Background "req-1" "primary" "m" 0) stream in
  provider.run_ops st [provider.OpRecv; provider.OpRecv; provider.OpClose] (provider.stream_init st).

Lemma metered_stream_accounting_witness :
  exists latency, after consumed =
    [EvRecord (mkRecord "req-1" "primary" "m" storage.StatusSucceeded (mkChatUsage 3 4 7) latency
       cache.StatusBypass "");
     EvTokens "primary" (mkChatUsage 3 4 7)].
Proof.
  pose proof (metered_stream_accounting gate log context.Background "req-1" "primary" "m" 0 0%nat stream
    ltac:(intros []; apply silent_ret) ltac:(intros s; apply silent_ret)
    [provider.OpRecv; provider.OpRecv; provider.OpClose]) as H.
  apply (traces_result consumed) in H. vm_compute in H. vm_compute. exact H.
Defined.

End witnesses.

End gateway.
