(* ===== verification/Api.v ===== *)
(** * The HTTP API (internal/api/handler.go, internal/api/request_id.go)

    The handlers over the gateway: decoding, the mapping of errors to responses,
    response headers, and the event stream to the client. The web framework is a
    parameter: a [Context] offers its operations on the request and the response. *)

From stdpp Require Import base gmap list strings.
From Stdlib Require Import ZArith Ascii Lia.
From S2P Require Import Prelude Float64 Types GoStrings Context Codec Trace Provider Sse Service Gateway.

Local Open Scope Z_scope.
Local Open Scope go_scope.

Module api.

Record errorDetail : Type := mkErrorDetail {
  Message : string;
  Type_ : string;
  Code : string;
}.

(** The values the handlers encode as a body. *)
Inductive Body : Type :=
| BodyError (e : errorDetail)
| BodyResponse (r : ChatResponse)
| BodyHealth (status : string).

(** [gin.Context]: the request, and operations on the response. *)
Record Context (W : Type) : Type := mkContext {
  RemoteAddr : string;
  RequestContext : context.Ctx;
  GetHeader : string -> string;
  (** [ShouldBindJSON] on a body limited to the given number of bytes *)
  ShouldBindJSON : Z -> M W (error + ChatRequest);
  ResponseHeader : string -> M W string;
  Header : string -> string -> M W unit;
  JSON : Z -> Body -> M W unit;
  Status : Z -> M W unit;
  WriteString : string -> M W (option error);
  Flush : M W unit;
  Abort : M W unit;
  Next : M W unit;
  (** [metrics.SetModel] *)
  SetModel : string -> M W unit;
}.
Arguments RemoteAddr {W} _.
Arguments RequestContext {W} _.
Arguments GetHeader {W} _ _.
Arguments ShouldBindJSON {W} _ _.
Arguments ResponseHeader {W} _ _.
Arguments Header {W} _ _ _.
Arguments JSON {W} _ _ _.
Arguments Status {W} _ _.
Arguments WriteString {W} _ _.
Arguments Flush {W} _.
Arguments Abort {W} _.
Arguments Next {W} _.
Arguments SetModel {W} _ _.

Definition maxRequestBodyBytes : Z := Z.shiftl 1 20.

(** ** The caller's address *)

(** [bytealg.IndexByteString] and [LastIndexByteString] *)
Fixpoint index_byte (c : Z) (l : list Z) : option nat :=
  match l with
  | [] => None
  | x :: l => if x =? c then Some 0%nat else S <$> index_byte c l
  end.
Fixpoint last_index_byte (c : Z) (l : list Z) : option nat :=
  match l with
  | [] => None
  | x :: l =>
      match last_index_byte c l with
      | Some i => Some (S i)
      | None => if x =? c then Some 0%nat else None
      end
  end.

(** [net.SplitHostPort]: the host, if the address is well formed. *)
Definition SplitHostPort (hostport : string) : option string :=
  let l := bytes_of hostport in
  match last_index_byte 58 l with
  | None => None
  | Some i =>
      let finish (host : list Z) (j k : nat) :=
        if bool_decide (is_Some (index_byte 91 (drop j l))) then None
        else if bool_decide (is_Some (index_byte 93 (drop k l))) then None
        else Some (of_bytes host) in
      if bool_decide (head l = Some 91) then
        match index_byte 93 l with
        | None => None
        | Some e =>
            if bool_decide (S e = length l) then None
            else if bool_decide (S e = i) then finish (take (e - 1) (drop 1 l)) 1%nat (S e)
            else None
        end
      else if bool_decide (is_Some (index_byte 58 (take i l))) then None
      else finish (take i l) 0%nat 0%nat
  end.

Section handlers.
Context {W : Type} {HR : context.HasRuntime W} {HS : context.Scheduler W}.
Context {HRand : gateway.Random W} `{!codec.Sha256, !codec.Json}.
Context (g : gateway.GatewayService W) (c : Context W).

Definition requestMetadata : M W gateway.RequestMetadata :=
  let identity := default (RemoteAddr c) (SplitHostPort (RemoteAddr c)) in
  let identity := if bool_decide (TrimSpace identity = "") then "unknown" else identity in
  let! id := ResponseHeader c "X-Request-ID" in
  ret (gateway.mkMetadata identity (GetHeader c "Idempotency-Key") id).

Definition writeError (status : Z) (errorType code message : string) : M W unit :=
  JSON c status (BodyError (mkErrorDetail message errorType code)).

Definition applyRateLimitHeaders (d : Decision) : M W unit :=
  if Limit d <=? 0 then ret tt
  else
    Header c "X-RateLimit-Limit" (Itoa (Limit d)) ;!
    Header c "X-RateLimit-Remaining" (Itoa (Z.max 0 (Remaining d))).

Definition applyResultHeaders (r : gateway.ChatResult) : M W unit :=
  Header c "X-Request-ID" (gateway.cr_RequestID r) ;!
  Header c "X-ModelGate-Cache" (gateway.cr_CacheStatus r) ;!
  Header c "X-ModelGate-Provider" (gateway.cr_Provider r) ;!
  (if gateway.cr_IdempotencyReplayed r then Header c "Idempotency-Replayed" "true" else ret tt) ;!
  applyRateLimitHeaders (gateway.cr_RateLimit r).

(** The value of Retry-After: whole seconds, at least one. *)
Definition retryAfterSeconds (d : Decision) : Z :=
  Z.max 1 (Z.quot (wrap64 (RetryAfter d + second - 1)) second).

Definition writeMappedError (err : error) : M W unit :=
  (match as_upstream err with
   | Some u => if bool_decide (ue_Provider u = "") then ret tt else Header c "X-ModelGate-Provider" (ue_Provider u)
   | None => ret tt
   end) ;!
  match as_validation err with
  | Some (code, message) => writeError 400 "invalid_request_error" code message
  | None =>
  match as_ratelimit err with
  | Some d =>
      applyRateLimitHeaders d ;!
      Header c "Retry-After" (Itoa (retryAfterSeconds d)) ;!
      writeError 429 "rate_limit_error" "rate_limit_exceeded" "request rate limit exceeded"
  | None =>
  match as_idempotency err with
  | Some code =>
      let message :=
        if bool_decide (code = "idempotency_key_conflict")
        then "Idempotency-Key was already used with a different request"
        else "a request with this Idempotency-Key is already in progress" in
      Header c "Retry-After" "1" ;!
      writeError 409 "invalid_request_error" code message
  | None =>
  match as_dependency err with
  | Some (code, _) =>
      writeError 503 "service_unavailable_error" code "a required gateway dependency is unavailable"
  | None =>
  match as_upstream err with
  | Some _ =>
      let code := provider.ErrorCode err in
      if bool_decide (code = "upstream_timeout") then
        writeError 504 "upstream_error" code "provider request timed out"
      else if bool_decide (code = "no_healthy_provider") then
        writeError 503 "upstream_error" code "no healthy provider is available"
      else writeError 502 "upstream_error" code "provider request failed"
  | None =>
      if errors_Is err DeadlineExceeded then
        writeError 504 "upstream_error" "upstream_timeout" "provider request timed out"
      else if errors_Is err Canceled then
        writeError 408 "request_error" "request_canceled" "request was canceled"
      else writeError 502 "upstream_error" "provider_request_failed" "provider request failed"
  end end end end end.

(** [json.Marshal] of a pointer: nil is encoded as null. *)
Definition marshalChunk (chunk : option ChatStreamChunk) : error + string :=
  match chunk with
  | Some chunk => codec.MarshalChunk chunk
  | None => inr "null"
  end.

Definition writeSSEChunk (chunk : option ChatStreamChunk) : M W (option error) :=
  match marshalChunk chunk with
  | inl err => ret (Some (EWrap "encode stream chunk" err))
  | inr payload =>
      let! err := WriteString c (sse.frame payload) in
      match err with
      | Some err => ret (Some (EWrap "write stream chunk" err))
      | None => Flush c ;! ret None
      end
  end.

(** [defer result.Stream.Close()] during [m], when the stream is in state [s]: a
    panic of [m] closes it. (Where [m] is a [Recv], [s] is the state before it.) *)
Definition closing {A} (st : provider.Stream W) (s : provider.stream_state st) (m : M W A) : M W A :=
  onPanic (let! _ := provider.Close st s in ret tt) m.

(** The loop after the first chunk; the code has no bound, [fuel] bounds the
    number of [Recv] calls. *)
Fixpoint serveLoop (st : provider.Stream W) (fuel : nat) (s : provider.stream_state st)
  : M W (provider.stream_state st) :=
  match fuel with
  | O => fun w => Block w
  | S fuel =>
      let! '((chunk, err), s) := closing st s (provider.Recv st s) in
      match err with
      | None =>
          let! werr := closing st s (writeSSEChunk chunk) in
          match werr with
          | Some _ => ret s
          | None => serveLoop st fuel s
          end
      | Some e =>
          if errors_Is e EOF then
            closing st s (let! _ := WriteString c (sse.frame "[DONE]") in Flush c) ;!
            ret s
          else ret s
      end
  end.

(** The headers of an event stream and its first chunk. *)
Definition beginStream (firstChunk : option ChatStreamChunk) : M W (option error) :=
  Header c "Content-Type" "text/event-stream" ;!
  Header c "Cache-Control" "no-cache" ;!
  Header c "Connection" "keep-alive" ;!
  Header c "X-Accel-Buffering" "no" ;!
  Status c 200 ;!
  writeSSEChunk firstChunk.

(** From the first [Recv]; the stream is closed when the handler returns. *)
Definition serveStream (st : provider.Stream W) (fuel : nat) : M W unit :=
  let! '((firstChunk, err), s) := closing st (provider.stream_init st) (provider.Recv st (provider.stream_init st)) in
  let! s :=
    match err with
    | Some e =>
        closing st s
          (writeMappedError (if errors_Is e EOF then EText "provider stream ended before the first chunk" else e)) ;!
        ret s
    | None =>
        let! werr := closing st s (beginStream firstChunk) in
        match werr with
        | Some _ => ret s
        | None => serveLoop st fuel s
        end
    end in
  let! _ := provider.Close st s in
  ret tt.

(** The response to a request whose stream was opened. *)
Definition serveResult (result : gateway.StreamResult W) (fuel : nat) : M W unit :=
  let st := gateway.sr_Stream result in
  closing st (provider.stream_init st)
    (applyRateLimitHeaders (gateway.sr_RateLimit result) ;!
     Header c "X-Request-ID" (gateway.sr_RequestID result) ;!
     Header c "X-ModelGate-Provider" (gateway.sr_Provider result)) ;!
  serveStream st fuel.

Definition streamChatCompletions (fuel : nat) (req : ChatRequest) : M W unit :=
  let! md := requestMetadata in
  let! r := gateway.ChatStream g (RequestContext c) (Some req) md in
  match r with
  | inl err => writeMappedError err
  | inr result => serveResult result fuel
  end.

Definition ChatCompletions (fuel : nat) : M W unit :=
  let! bound := ShouldBindJSON c maxRequestBodyBytes in
  match bound with
  | inl _ =>
      writeError 400 "invalid_request_error" "invalid_json"
        "request body must be valid JSON and no larger than 1 MiB"
  | inr req =>
      SetModel c (Model req) ;!
      if Stream req then streamChatCompletions fuel req
      else
        let! md := requestMetadata in
        let! r := gateway.Chat g (RequestContext c) (Some req) md in
        match r with
        | inr result =>
            applyResultHeaders result ;!
            JSON c 200 (BodyResponse (gateway.cr_Response result))
        | inl err => writeMappedError err
        end
  end.

Definition Health : M W unit := JSON c 200 (BodyHealth "ok").

Definition RequestIDMiddleware : M W unit :=
  let! r := gateway.NewRequestID in
  match r with
  | inl _ =>
      writeError 503 "service_unavailable_error" "request_id_unavailable"
        "request identifier generation is unavailable" ;!
      Abort c
  | inr requestID =>
      Header c "X-Request-ID" requestID ;!
      Next c
  end.

End handlers.

(** ** Traces of a response *)

Inductive http : Type :=
| HHeader (key value : string)
| HJSON (status : Z) (body : Body)
| HStatus (status : Z)
| HWrite (text : string) (err : option error)
| HFlush
| HRecv (chunk : option ChatStreamChunk) (err : option error)
| HClose.

Section spec.
Context {W : Type} {J : codec.Json} (c : Context W) (log : W -> list http).

Abbreviation tr := (traces log).

(** What the handlers rely on: the operations on the response return and do what
    their name says. *)
Class TracedContext : Prop := {
  tr_header : forall k v, tr (Header c k v) (fun _ evs => evs = [HHeader k v]);
  tr_json : forall s b, tr (JSON c s b) (fun _ evs => evs = [HJSON s b]);
  tr_status : forall s, tr (Status c s) (fun _ evs => evs = [HStatus s]);
  tr_write : forall s, tr (WriteString c s) (fun err evs => evs = [HWrite s err]);
  tr_flush : tr (Flush c) (fun _ evs => evs = [HFlush]);
}.

Context {Tc : TracedContext}.

(** *** Errors *)

(** A header that does not identify the request. *)
Definition is_header (e : http) : bool :=
  match e with HHeader k _ => negb (bool_decide (k = "X-Request-ID")) | _ => false end.

(** Headers, then one error body. *)
Definition one_error (evs : list http) (status : Z) (detail : errorDetail) : Prop :=
  exists hs, evs = hs ++ [HJSON status (BodyError detail)] /\ Forall (fun e => is_header e = true) hs.

Lemma rate_headers_trace d :
  tr (applyRateLimitHeaders c d) (fun _ evs => Forall (fun e => is_header e = true) evs).
Proof using Tc.
  unfold applyRateLimitHeaders. destruct (_ <=? _); [by apply traces_ret|].
  eapply traces_bind; [apply tr_header|]. intros ? evs ->.
  eapply traces_mono; [apply tr_header|]. intros ? evs ->. by repeat constructor.
Qed.

(** The response to an error: status, type and code. *)
Definition response_of (err : error) : Z * string * string :=
  match as_validation err with
  | Some (code, _) => (400, "invalid_request_error", code)
  | None =>
  match as_ratelimit err with
  | Some _ => (429, "rate_limit_error", "rate_limit_exceeded")
  | None =>
  match as_idempotency err with
  | Some code => (409, "invalid_request_error", code)
  | None =>
  match as_dependency err with
  | Some (code, _) => (503, "service_unavailable_error", code)
  | None =>
  match as_upstream err with
  | Some _ =>
      let code := provider.ErrorCode err in
      (if bool_decide (code = "upstream_timeout") then 504
       else if bool_decide (code = "no_healthy_provider") then 503 else 502, "upstream_error", code)
  | None =>
      if errors_Is err DeadlineExceeded then (504, "upstream_error", "upstream_timeout")
      else if errors_Is err Canceled then (408, "request_error", "request_canceled")
      else (502, "upstream_error", "provider_request_failed")
  end end end end end.

(** The texts that clients are told, apart from those of the validation. *)
Definition public_messages : list string :=
  ["request rate limit exceeded"; "Idempotency-Key was already used with a different request";
   "a request with this Idempotency-Key is already in progress"; "a required gateway dependency is unavailable";
   "provider request timed out"; "no healthy provider is available"; "provider request failed";
   "request was canceled"].

Definition public (err : error) (msg : string) : Prop :=
  msg ∈ public_messages \/ exists code, as_validation err = Some (code, msg).

Lemma writeMappedError_trace err :
  tr (writeMappedError c err) (fun _ evs => exists msg, public err msg /\
    one_error evs (response_of err).1.1 (mkErrorDetail msg (response_of err).1.2 (response_of err).2) /\
    (forall d, as_validation err = None -> as_ratelimit err = Some d ->
       HHeader "Retry-After" (Itoa (retryAfterSeconds d)) ∈ evs)).
Proof using Tc.
  unfold writeMappedError, response_of.
  eapply (traces_bind _ _ _ (fun _ evs => Forall (fun e => is_header e = true) evs)).
  { destruct (as_upstream err); [|by apply traces_ret]. case_bool_decide; [by apply traces_ret|].
    eapply traces_mono; [apply tr_header|]. intros ? evs ->. by repeat constructor. }
  intros u hs Hhs.
  assert (Hplain : forall status ty code msg, public err msg ->
    (as_validation err = None -> as_ratelimit err = None) ->
    tr (writeError c status ty code msg) (fun _ evs => exists msg, public err msg /\
      one_error (hs ++ evs) status (mkErrorDetail msg ty code) /\
      (forall d, as_validation err = None -> as_ratelimit err = Some d ->
         HHeader "Retry-After" (Itoa (retryAfterSeconds d)) ∈ hs ++ evs))).
  { intros status ty code msg Hp Hno. eapply traces_mono; [apply tr_json|]. intros ? evs ->.
    exists msg. split; [done|]. split; [by exists hs|]. intros d Hv Hr. by rewrite Hno in Hr. }
  assert (Htext : forall i msg, public_messages !! i = Some msg -> public err msg).
  { intros i msg Hi. left. by eapply list_elem_of_lookup_2. }
  destruct (as_validation err) as [[code msg]|] eqn:Ev.
  { apply Hplain; [|done]. right. by exists code. }
  destruct (as_ratelimit err) as [d|] eqn:Er.
  { eapply traces_bind; [apply rate_headers_trace|]. intros u2 hs2 Hhs2.
    eapply traces_bind; [apply tr_header|]. intros u3 hs3 ->.
    eapply traces_mono; [apply tr_json|]. intros ? evs ->. eexists. split; [by apply (Htext 0%nat)|]. split.
    - exists (hs ++ hs2 ++ [HHeader "Retry-After" (Itoa (retryAfterSeconds d))]). split; [by rewrite <-!app_assoc|].
      apply Forall_app. split; [done|]. apply Forall_app. split; [done|]. by repeat constructor.
    - intros d' _ [= <-]. set_solver. }
  destruct (as_idempotency err) as [code|] eqn:Ei.
  { eapply traces_bind; [apply tr_header|]. intros u2 hs2 ->.
    eapply traces_mono; [apply tr_json|]. intros ? evs ->.
    exists (if bool_decide (code = "idempotency_key_conflict")
            then "Idempotency-Key was already used with a different request"
            else "a request with this Idempotency-Key is already in progress").
    split; [case_bool_decide; [by apply (Htext 1%nat)|by apply (Htext 2%nat)]|]. split; [|done].
    exists (hs ++ [HHeader "Retry-After" "1"]). split; [by rewrite <-app_assoc|].
    apply Forall_app. split; [done|]. by repeat constructor. }
  destruct (as_dependency err) as [[code cause]|]; [apply Hplain; [by apply (Htext 3%nat)|done]|].
  destruct (as_upstream err).
  - cbn zeta. repeat case_bool_decide; (apply Hplain; [|done]);
      [by apply (Htext 4%nat)|by apply (Htext 5%nat)|by apply (Htext 6%nat)].
  - destruct (errors_Is err DeadlineExceeded); [apply Hplain; [by apply (Htext 4%nat)|done]|].
    destruct (errors_Is err Canceled); (apply Hplain; [|done]); [by apply (Htext 7%nat)|by apply (Htext 6%nat)].
Qed.

Lemma retryAfterSeconds_spec d :
  min_int64 <= RetryAfter d <= max_int64 - second ->
  1 <= retryAfterSeconds d /\ RetryAfter d <= retryAfterSeconds d * second /\
  (retryAfterSeconds d - 1) * second < Z.max 1 (RetryAfter d).
Proof using Type.
  clear. intros H. unfold retryAfterSeconds. unfold min_int64, max_int64 in H.
  assert (Hs : second = 1000000000) by done. rewrite Hs in *.
  rewrite wrap64_id by (unfold in_int64, min_int64, max_int64; lia).
  assert (Hq : (RetryAfter d + 1000000000 - 1) `quot` 1000000000 = (RetryAfter d + 1000000000 - 1) `div` 1000000000 \/
    (RetryAfter d + 1000000000 - 1) `quot` 1000000000 <= 0 /\ RetryAfter d <= 0).
  { destruct (Z.le_gt_cases 0 (RetryAfter d + 1000000000 - 1)); [left; apply Z.quot_div_nonneg; lia|right].
    split; [|lia]. apply Z.quot_le_upper_bound; lia. }
  pose proof (Z.div_mod (RetryAfter d + 1000000000 - 1) 1000000000) as Hd.
  pose proof (Z.mod_pos_bound (RetryAfter d + 1000000000 - 1) 1000000000) as Hm. lia.
Qed.

(** The errors whose kind is clear: the handlers and the usage records look for
    the kinds in different orders. *)
Definition unambiguous (err : error) : Prop :=
  (as_ratelimit err = None \/ as_idempotency err = None /\ as_dependency err = None) /\
  (as_upstream err = None -> errors_Is err Canceled = false \/ errors_Is err DeadlineExceeded = false).

Lemma response_code err : unambiguous err -> (response_of err).2 = gateway.gatewayErrorCode err.
Proof using Type.
  clear. intros [Hk Hc]. unfold response_of, gateway.gatewayErrorCode.
  destruct (as_validation err) as [[]|]; [done|].
  destruct (as_ratelimit err) as [d|].
  - by destruct Hk as [|[-> ->]].
  - destruct (as_idempotency err); [done|]. destruct (as_dependency err) as [[]|]; [done|].
    destruct (as_upstream err); [done|]. destruct (Hc eq_refl) as [->| ->]; [|by destruct (errors_Is err Canceled)].
    by destruct (errors_Is err DeadlineExceeded).
Qed.


(** *** Streams *)

Section stream.
Context (st : provider.Stream W) (left_ : provider.stream_state st -> nat).

(** The stream logs what it delivers, and it delivers finitely many chunks. *)
Hypothesis recv_trace : forall s, tr (provider.Recv st s) (fun r evs =>
  evs = [HRecv r.1.1 r.1.2] /\ (r.1.2 = None -> (left_ r.2 < left_ s)%nat)).
Hypothesis close_trace : forall s, tr (provider.Close st s) (fun _ evs => evs = [HClose]).

Lemma traces_closing {A} s (m : M W A) P : tr m P -> tr (closing st s m) P.
Proof using Type. intros Hm w. specialize (Hm w). unfold twp, closing, onPanic in *. by destruct (m w). Qed.

(** What is sent after the response has begun: each chunk is written before the
    next is asked for; EOF is announced; anything else ends the response. *)
Inductive sends : list http -> Prop :=
| send_done chunk e werr : errors_Is e EOF = true ->
    sends [HRecv chunk (Some e); HWrite (sse.frame "[DONE]") werr; HFlush]
| send_failed chunk e : errors_Is e EOF = false -> sends [HRecv chunk (Some e)]
| send_chunk chunk evs : sends_chunk chunk evs -> sends (HRecv chunk None :: evs)
with sends_chunk : option ChatStreamChunk -> list http -> Prop :=
| send_unencodable chunk e : marshalChunk chunk = inl e -> sends_chunk chunk []
| send_broken chunk payload e : marshalChunk chunk = inr payload ->
    sends_chunk chunk [HWrite (sse.frame payload) (Some e)]
| send_sent chunk payload evs : marshalChunk chunk = inr payload -> sends evs ->
    sends_chunk chunk (HWrite (sse.frame payload) None :: HFlush :: evs).

(** The outcome of writing a chunk. *)
Definition chunk_written (chunk : option ChatStreamChunk) (err : option error) (evs : list http) : Prop :=
  match marshalChunk chunk with
  | inl _ => evs = [] /\ is_Some err
  | inr payload =>
      (exists e, evs = [HWrite (sse.frame payload) (Some e)] /\ is_Some err) \/
      (evs = [HWrite (sse.frame payload) None; HFlush] /\ err = None)
  end.

Lemma writeSSEChunk_trace chunk : tr (writeSSEChunk c chunk) (chunk_written chunk).
Proof using Tc.
  unfold writeSSEChunk, chunk_written. destruct (marshalChunk chunk) as [e|payload]; [by apply traces_ret; eauto|].
  eapply traces_bind; [apply tr_write|]. intros [e|] evs ->.
  - apply traces_ret. rewrite app_nil_r. left. eauto.
  - eapply traces_bind; [apply tr_flush|]. intros ? evs ->. apply traces_ret. by right.
Qed.

(** The headers of an event stream. *)
Definition stream_headers : list http :=
  [HHeader "Content-Type" "text/event-stream"; HHeader "Cache-Control" "no-cache";
   HHeader "Connection" "keep-alive"; HHeader "X-Accel-Buffering" "no"; HStatus 200].

Lemma beginStream_trace chunk :
  tr (beginStream c chunk) (fun err evs => exists evs', evs = stream_headers ++ evs' /\ chunk_written chunk err evs').
Proof using Tc.
  unfold beginStream. do 4 (eapply traces_bind; [apply tr_header|]; intros ? ? ->).
  eapply traces_bind; [apply tr_status|]; intros ? ? ->.
  eapply traces_mono; [apply writeSSEChunk_trace|]. intros err evs H. by exists evs.
Qed.

(** A chunk written by [m], after [pre], and what follows it. *)
Lemma send_then chunk (m : M W (option error)) pre (s : provider.stream_state st) (k : M W (provider.stream_state st)) :
  tr m (fun err evs => exists evs', evs = pre ++ evs' /\ chunk_written chunk err evs') ->
  tr k (fun _ evs => sends evs) ->
  tr (let! werr := closing st s m in match werr with Some _ => ret s | None => k end)
    (fun _ evs => exists body, evs = pre ++ body /\ sends_chunk chunk body).
Proof using Type.
  intros Hm Hk. eapply traces_bind; [apply traces_closing, Hm|]. intros err ? (evs & -> & Hevs). unfold chunk_written in Hevs.
  destruct (marshalChunk chunk) as [e|payload] eqn:Em.
  - destruct Hevs as [-> [e' ->]]. apply traces_ret. exists []. split; [by rewrite app_nil_r|]. by eapply send_unencodable.
  - destruct Hevs as [(e & -> & [e' ->])|[-> ->]].
    + apply traces_ret. rewrite app_nil_r. eexists. split; [done|]. by eapply send_broken.
    + eapply traces_mono; [exact Hk|]. intros ? evs Hs. rewrite <-app_assoc. eexists. split; [done|]. by eapply send_sent.
Qed.

Lemma serveLoop_trace fuel s :
  (left_ s < fuel)%nat -> tr (serveLoop c st fuel s) (fun _ evs => sends evs).
Proof using Tc recv_trace.
  revert s. induction fuel as [|fuel IH]; intros s Hf; [lia|]. cbn [serveLoop].
  eapply traces_bind; [apply traces_closing, recv_trace|]. intros [[chunk err] s'] evs [-> Hleft]. cbn [fst snd] in *.
  destruct err as [e|].
  - destruct (errors_Is e EOF) eqn:Ee; [|by apply traces_ret, send_failed].
    apply (traces_bind _ _ _ (fun _ evs => exists werr, evs = [HWrite (sse.frame "[DONE]") werr; HFlush])).
    { apply traces_closing. eapply traces_bind; [apply tr_write|]. intros werr evs ->.
      eapply traces_mono; [apply tr_flush|]. intros ? evs ->. by exists werr. }
    intros ? evs (werr & ->). apply traces_ret. by apply send_done.
  - eapply traces_mono; [apply (send_then chunk _ []), IH; [|specialize (Hleft eq_refl); lia]|].
    + eapply traces_mono; [apply writeSSEChunk_trace|]. intros err evs H. by exists evs.
    + intros ? evs (body & -> & Hs). by apply send_chunk.
Qed.

(** The error that answers a stream whose first [Recv] fails. *)
Definition first_error (e : error) : error :=
  if errors_Is e EOF then EText "provider stream ended before the first chunk" else e.

Lemma serveStream_trace fuel :
  (left_ (provider.stream_init st) <= fuel)%nat ->
  tr (serveStream c st fuel) (fun _ evs =>
    (exists chunk e hs status detail, evs = HRecv chunk (Some e) :: hs ++ [HClose] /\ one_error hs status detail /\
       (status, Type_ detail, Code detail) = response_of (first_error e)) \/
    (exists chunk body, evs = HRecv chunk None :: stream_headers ++ body ++ [HClose] /\ sends_chunk chunk body)).
Proof using Tc recv_trace close_trace.
  intros Hf. unfold serveStream. eapply traces_bind; [apply traces_closing, recv_trace|].
  intros [[chunk err] s] evs [-> Hleft]. cbn [fst snd] in *. destruct err as [e|].
  - eapply (traces_bind _ _ _ (fun _ evs => exists status detail, one_error evs status detail /\
      (status, Type_ detail, Code detail) = response_of (first_error e))).
    { eapply traces_bind; [apply traces_closing, writeMappedError_trace|]. intros ? evs (msg & _ & H & _). apply traces_ret.
      rewrite app_nil_r. eexists _, _. split; [exact H|]. unfold first_error. simpl.
      by destruct (response_of _) as [[] ?]. }
    intros s' evs (status & detail & Hone & Hd). eapply traces_bind; [apply close_trace|]. intros ? evs' ->.
    apply traces_ret. left. exists chunk, e, evs, status, detail. split_and!; [done|exact Hone|exact Hd].
  - eapply traces_bind; [apply send_then; [apply beginStream_trace|apply serveLoop_trace; specialize (Hleft eq_refl); lia]|].
    intros s' evs (body & -> & Hb). eapply traces_bind; [apply close_trace|]. intros ? evs' ->.
    apply traces_ret. right. exists chunk, body. split; [by rewrite <-app_assoc|done].
Qed.

(** What was received, what was written, and whether the stream came to its end. *)
Definition received (evs : list http) : list (option ChatStreamChunk) :=
  omap (fun e => match e with HRecv chunk None => Some chunk | _ => None end) evs.
Definition written (evs : list http) : list string :=
  omap (fun e => match e with HWrite s _ => Some s | _ => None end) evs.
Definition at_eof (e : http) : bool := match e with HRecv _ (Some e) => errors_Is e EOF | _ => false end.
Definition is_close (e : http) : bool := match e with HClose => true | _ => false end.
Definition is_json (e : http) : bool := match e with HJSON _ _ => true | _ => false end.
Definition broken (e : http) : bool := match e with HWrite _ (Some _) => true | _ => false end.

(** The frames of the received chunks, in order, up to the first that could not be
    sent; the end is announced exactly if the stream reached it. *)
Definition delivered (evs : list http) : Prop :=
  exists payloads,
    written evs = (sse.frame <$> payloads) ++ (if existsb at_eof evs then [sse.frame "[DONE]"] else []) /\
    Forall2 (fun chunk p => marshalChunk chunk = inr p) (take (length payloads) (received evs)) payloads /\
    (length payloads <= length (received evs) <= S (length payloads))%nat /\
    (existsb at_eof evs = true -> length payloads = length (received evs)).

Scheme sends_min := Minimality for sends Sort Prop
  with sends_chunk_min := Minimality for sends_chunk Sort Prop.

Lemma chunk_delivered chunk evs :
  sends_chunk chunk evs -> delivered (HRecv chunk None :: evs) /\ count is_close evs = 0%nat /\ count is_json evs = 0%nat.
Proof using Type.
  clear. revert chunk evs.
  apply (sends_chunk_min (fun evs => delivered evs /\ count is_close evs = 0%nat /\ count is_json evs = 0%nat)
    (fun chunk evs => delivered (HRecv chunk None :: evs) /\ count is_close evs = 0%nat /\ count is_json evs = 0%nat)).
  - intros chunk e werr He. split; [|done]. exists []. unfold written, received. simpl. rewrite He. split_and!; (done || lia).
  - intros chunk e He. split; [|done]. exists []. unfold written, received. simpl. rewrite He. split_and!; (done || lia).
  - intros chunk evs _ [H ?]. by split.
  - intros chunk e He. split; [|done]. exists []. unfold written, received. simpl. split_and!; (done || lia).
  - intros chunk p e He. split; [|done]. exists [p]. unfold written, received. simpl.
    split_and!; (done || lia || by repeat constructor).
  - intros chunk p evs Hm _ [(ps & H1 & H2 & H3 & H4) [H5 H6]]. split; [|done]. exists (p :: ps).
    change (written (_ :: _ :: HFlush :: evs)) with (sse.frame p :: written evs).
    change (received (_ :: _ :: HFlush :: evs)) with (chunk :: received evs).
    change (existsb at_eof (_ :: _ :: HFlush :: evs)) with (existsb at_eof evs).
    simpl length. simpl take. split_and!; [by rewrite H1|by constructor|lia|lia|].
    intros He. by rewrite H4.
Qed.

(** The headers and the closing do not count. *)
Abbreviation framed chunk body := (HRecv chunk None :: stream_headers ++ body ++ [HClose]).

Lemma framed_written chunk body : written (framed chunk body) = written (HRecv chunk None :: body).
Proof using Type. clear. unfold written. simpl. rewrite omap_app. simpl. by rewrite app_nil_r. Qed.

Lemma framed_received chunk body : received (framed chunk body) = received (HRecv chunk None :: body).
Proof using Type. clear. unfold received. simpl. rewrite omap_app. simpl. by rewrite app_nil_r. Qed.

Lemma framed_eof chunk body : existsb at_eof (framed chunk body) = existsb at_eof (HRecv chunk None :: body).
Proof using Type. clear. simpl. rewrite existsb_app. simpl. by rewrite orb_false_r. Qed.

(** C21: The event stream to the client. For every stream that ends, the handler
    returns and closes it exactly once, as its last act. If the first [Recv] fails
    the client gets exactly one error response and no event; otherwise no error
    body is sent, each chunk is written as one frame before the next is asked for,
    in order and up to the first that cannot be sent, and "[DONE]" is written
    exactly if the stream reached its end. *)
Theorem stream_delivery fuel :
  (left_ (provider.stream_init st) <= fuel)%nat ->
  tr (serveStream c st fuel) (fun _ evs =>
    last evs = Some HClose /\ count is_close evs = 1%nat /\
    ((exists chunk e, head evs = Some (HRecv chunk (Some e)) /\ count is_json evs = 1%nat /\ written evs = []) \/
     (exists chunk, head evs = Some (HRecv chunk None) /\ count is_json evs = 0%nat /\ delivered evs))).
Proof using Tc recv_trace close_trace.
  intros Hf. eapply traces_mono; [by apply serveStream_trace|].
  intros ? evs [(chunk & e & hs & status & detail & -> & (hs' & -> & Hh) & _)|(chunk & body & -> & Hb)].
  - split_and!; [by rewrite app_comm_cons, last_snoc| |].
    + simpl. rewrite !count_app. simpl. rewrite count_zero; [done|].
      eapply Forall_impl; [exact Hh|]. by intros [].
    + left. exists chunk, e. split_and!; [done| |].
      * simpl. rewrite !count_app. simpl. rewrite count_zero; [done|]. eapply Forall_impl; [exact Hh|]. by intros [].
      * unfold written. simpl. rewrite !omap_app. simpl. rewrite !app_nil_r.
        clear -Hh. induction Hh as [|x hs Hx _ IH]; [done|]. by destruct x.
  - destruct (chunk_delivered _ _ Hb) as (Hd & Hc & Hj).
    split_and!; [by rewrite !app_comm_cons, app_assoc, last_snoc| |].
    + simpl. rewrite count_app, Hc. done.
    + right. exists chunk. split_and!; [done|simpl; by rewrite count_app, Hj|].
      unfold delivered. by rewrite framed_written, framed_received, framed_eof.
Qed.

(** A delivered stream is the text of the frames of its payloads. *)
Lemma delivered_text {JOk : codec.JsonOk} evs chunks :
  delivered evs -> existsb at_eof evs = true -> received evs = Some <$> chunks ->
  Forall (fun chunk => forall p, codec.MarshalChunk chunk = inr p -> len p + 8 < sse.maxSSEEventBytes) chunks ->
  exists payloads,
    String.concat "" (written evs) = sse.events_text (sse.frame_event <$> payloads ++ ["[DONE]"]) /\
    Forall2 (fun chunk p => codec.MarshalChunk chunk = inr p) chunks payloads /\
    Forall sse.payload_ok (payloads ++ ["[DONE]"]).
Proof using Type.
  intros (ps & Hw & Hm & _ & Hlen) He Hrec Hsize. exists ps. specialize (Hlen He).
  rewrite He in Hw. rewrite take_ge in Hm by lia. rewrite Hrec, Forall2_fmap_l in Hm. simpl in Hm.
  split_and!; [|done|].
  - rewrite Hw, sse.frames_text, fmap_app. done.
  - apply Forall_app. split; [|constructor; [|constructor]; split; [by repeat constructor|done]].
    clear Hw Hlen Hrec He. induction Hm as [|chunk p chunks ps Hp _ IH]; [done|].
    apply Forall_cons in Hsize as [H1 H2]. constructor; [|by apply IH].
    split; [by eapply codec.chunk_no_newline|by apply H1].
Qed.


End stream.

End spec.

(** *** Panics *)

Section panics.
Context {W : Type} {J : codec.Json} (c : Context W) (log : W -> list http).

(** Code that returns or panics, and closes nothing. *)
Definition open_still (evs : list http) : Prop := count is_close evs = 0%nat.
Definition harmless {A} (m : M W A) (P : A -> Prop) : Prop :=
  outcomes log m (fun a evs => P a /\ open_still evs) open_still.
Abbreviation harmless_ m := (harmless m (fun _ => True)).

(** The operations on the response may panic at any time. *)
Class FallibleContext : Prop := {
  fc_header : forall k v, harmless_ (Header c k v);
  fc_json : forall s b, harmless_ (JSON c s b);
  fc_status : forall s, harmless_ (Status c s);
  fc_write : forall s, harmless_ (WriteString c s);
  fc_flush : harmless_ (Flush c);
}.
Context {Fc : FallibleContext}.

Lemma harmless_ret {A} (a : A) (P : A -> Prop) : P a -> harmless (ret a) P.
Proof using Type. intros H. by apply outcomes_ret. Qed.

Lemma harmless_bind {A B} (m : M W A) (f : A -> M W B) (P : A -> Prop) (Q : B -> Prop) :
  harmless m P -> (forall a, P a -> harmless (f a) Q) -> harmless (bind m f) Q.
Proof using Type.
  intros Hm Hf. eapply outcomes_bind; [exact Hm|]. intros a evs [Ha He]. unfold open_still in *.
  eapply outcomes_mono; [by apply Hf| |]; cbn beta; unfold open_still; intros; rewrite count_app; intuition lia.
Qed.

Lemma harmless_then {A B} (m : M W A) (k : A -> M W B) (Q : B -> Prop) :
  harmless_ m -> (forall a, harmless (k a) Q) -> harmless (bind m k) Q.
Proof using Type. intros Hm Hk. eapply harmless_bind; [exact Hm|]. intros a _. apply Hk. Qed.

Ltac harmless_steps :=
  repeat first
    [ apply fc_header | apply fc_json | apply fc_status | apply fc_write | apply fc_flush
    | by apply harmless_ret
    | apply harmless_then; [|intros ?]
    | match goal with |- harmless (match ?x with _ => _ end) _ => destruct x end ].

Lemma harmless_error err : harmless_ (writeMappedError c err).
Proof using Fc. unfold writeMappedError, writeError, applyRateLimitHeaders. cbn zeta. harmless_steps. Qed.

Lemma harmless_chunk chunk : harmless_ (writeSSEChunk c chunk).
Proof using Fc. unfold writeSSEChunk. harmless_steps. Qed.

Lemma harmless_begin chunk : harmless_ (beginStream c chunk).
Proof using Fc. unfold beginStream. harmless_steps. apply harmless_chunk. Qed.

(** Closed once, as the last act. *)
Definition closed_once (evs : list http) : Prop := last evs = Some HClose /\ count is_close evs = 1%nat.

Lemma closed_once_snoc evs : open_still evs -> closed_once (evs ++ [HClose]).
Proof using Type. intros H. unfold closed_once. by rewrite last_snoc, count_app, H. Qed.

Lemma closed_once_app evs evs' : open_still evs -> closed_once evs' -> closed_once (evs ++ evs').
Proof using Type.
  intros H [Hl Hc]. unfold closed_once. rewrite last_app, Hl, count_app, H, Hc. done.
Qed.

(** Code during which the stream is open: it hands over an open stream or it has
    closed it. *)
Definition guarded {A} (m : M W A) (P : A -> Prop) : Prop :=
  outcomes log m (fun a evs => P a /\ open_still evs) closed_once.

Lemma guarded_ret {A} (a : A) (P : A -> Prop) : P a -> guarded (ret a) P.
Proof using Type. intros H. by apply outcomes_ret. Qed.

Lemma guarded_bind {A B} (m : M W A) (f : A -> M W B) (P : A -> Prop) Q :
  guarded m P -> (forall a, P a -> outcomes log (f a) (fun b evs => forall pre, open_still pre -> Q b (pre ++ evs)) closed_once) ->
  outcomes log (bind m f) Q closed_once.
Proof using Type.
  intros Hm Hf. eapply outcomes_bind; [exact Hm|]. intros a evs [Ha He].
  eapply outcomes_mono; [by apply Hf| |]; cbn beta.
  - intros b evs' H. by apply H.
  - intros evs' H. by apply closed_once_app.
Qed.

Lemma guarded_then {A B} (m : M W A) (f : A -> M W B) (P : A -> Prop) (Q : B -> Prop) :
  guarded m P -> (forall a, P a -> guarded (f a) Q) -> guarded (bind m f) Q.
Proof using Type.
  intros Hm Hf. eapply guarded_bind; [exact Hm|]. intros a Ha. eapply outcomes_mono; [by apply Hf| |done].
  intros b evs [Hb He] pre Hp. split; [done|]. unfold open_still in *. by rewrite count_app, Hp.
Qed.

Section stream.
Context (st : provider.Stream W) (left_ : provider.stream_state st -> nat).

(** [Recv] may panic; the stream delivers finitely many chunks, and closing it
    returns. *)
Hypothesis recv_outcome : forall s, harmless (provider.Recv st s) (fun r => r.1.2 = None -> (left_ r.2 < left_ s)%nat).
Hypothesis close_trace : forall s, traces log (provider.Close st s) (fun _ evs => evs = [HClose]).

Lemma closing_guarded {A} s (m : M W A) (P : A -> Prop) : harmless m P -> guarded (closing st s m) P.
Proof using close_trace.
  intros Hm. eapply outcomes_mono; [eapply (outcomes_onPanic _ _ _ _ _ (fun evs => evs = [HClose])); [exact Hm|]|done|].
  - eapply traces_bind; [apply close_trace|]. intros ? ? ->. by apply traces_ret.
  - intros ? (before & after & -> & Hb & ->). by apply closed_once_snoc.
Qed.

Lemma serveLoop_guarded fuel s : (left_ s < fuel)%nat -> guarded (serveLoop c st fuel s) (fun _ => True).
Proof using Fc recv_outcome close_trace.
  revert s. induction fuel as [|fuel IH]; intros s Hf; [lia|]. cbn [serveLoop].
  eapply guarded_then; [apply closing_guarded, recv_outcome|].
  intros [[chunk err] s'] Hleft. cbn [fst snd] in *. destruct err as [e|].
  - destruct (errors_Is e EOF); [|by apply guarded_ret].
    eapply guarded_then; [apply closing_guarded; harmless_steps|]. intros. by apply guarded_ret.
  - eapply guarded_then; [apply closing_guarded, harmless_chunk|].
    intros [e|] _; [by apply guarded_ret|]. apply IH. specialize (Hleft eq_refl). lia.
Qed.

Lemma serveStream_closes fuel :
  (left_ (provider.stream_init st) <= fuel)%nat ->
  outcomes log (serveStream c st fuel) (fun _ evs => closed_once evs) closed_once.
Proof using Fc recv_outcome close_trace.
  intros Hf. unfold serveStream.
  assert (Hclose : forall s, outcomes log (let! _ := provider.Close st s in ret tt)
    (fun _ evs => forall pre, open_still pre -> closed_once (pre ++ evs)) closed_once).
  { intros s. apply outcomes_traces. eapply traces_bind; [apply close_trace|]. intros ? ? ->.
    apply traces_ret. intros pre Hp. by apply closed_once_snoc. }
  eapply guarded_bind; [apply closing_guarded, recv_outcome|].
  intros [[chunk err] s] Hleft. cbn [fst snd] in *.
  eapply (guarded_bind _ _ (fun _ => True)).
  - destruct err as [e|].
    + eapply guarded_then; [apply closing_guarded, harmless_error|]. intros. by apply guarded_ret.
    + eapply guarded_then; [apply closing_guarded, harmless_begin|].
      intros [e|] _; [by apply guarded_ret|]. apply serveLoop_guarded. specialize (Hleft eq_refl). lia.
  - intros s' _. eapply outcomes_mono; [apply Hclose| |done]. cbn beta.
    intros [] evs H pre Hp pre' Hp'. rewrite app_assoc. apply H. unfold open_still in *. by rewrite count_app, Hp, Hp'.
Qed.

End stream.

(** C14: A stream that was opened is closed exactly once. Whatever the response
    writer and the stream do, each of their operations returning or panicking, the
    handler comes to an end (it returns or passes the panic on), and it has then
    closed the stream exactly once, as its last act: the upstream connection and
    the slot of the request are never leaked, nor released twice. *)
Theorem stream_always_closed (result : gateway.StreamResult W)
    (left_ : provider.stream_state (gateway.sr_Stream result) -> nat) fuel :
  (forall s, harmless (provider.Recv (gateway.sr_Stream result) s)
     (fun r => r.1.2 = None -> (left_ r.2 < left_ s)%nat)) ->
  (forall s, traces log (provider.Close (gateway.sr_Stream result) s) (fun _ evs => evs = [HClose])) ->
  (left_ (provider.stream_init (gateway.sr_Stream result)) <= fuel)%nat ->
  outcomes log (serveResult c result fuel) (fun _ evs => closed_once evs) closed_once.
Proof using Fc.
  intros Hrecv Hclose Hf. unfold serveResult. cbn zeta.
  eapply guarded_bind; [apply closing_guarded; [done|]|].
  - unfold applyRateLimitHeaders. harmless_steps.
  - intros [] _. eapply outcomes_mono; [by eapply serveStream_closes| |done].
    intros [] evs H pre Hp. by apply closed_once_app.
Qed.

End panics.

(** ** The identity of a client *)

Lemma index_byte_none b l : Forall (fun x => x <> b) l -> index_byte b l = None.
Proof. induction 1 as [|x l Hx _ IH]; simpl; [done|]. rewrite (proj2 (Z.eqb_neq _ _)) by done. by rewrite IH. Qed.

Lemma index_byte_app b l l' : Forall (fun x => x <> b) l -> index_byte b (l ++ b :: l') = Some (length l).
Proof.
  induction 1 as [|x l Hx _ IH]; simpl; [by rewrite Z.eqb_refl|].
  rewrite (proj2 (Z.eqb_neq _ _)) by done. by rewrite IH.
Qed.

Lemma last_index_byte_none b l : Forall (fun x => x <> b) l -> last_index_byte b l = None.
Proof. induction 1 as [|x l Hx _ IH]; simpl; [done|]. rewrite IH. by rewrite (proj2 (Z.eqb_neq _ _)). Qed.

Lemma last_index_byte_app b l l' :
  Forall (fun x => x <> b) l' -> last_index_byte b (l ++ b :: l') = Some (length l).
Proof.
  intros H. induction l as [|x l IH]; simpl; [|by rewrite IH].
  rewrite last_index_byte_none by done. by rewrite Z.eqb_refl.
Qed.

(** The bytes of a host name or IPv4 address, of an IPv6 address, and of a port. *)
Definition host_byte (b : Z) : Prop := b <> 58 /\ b <> 91 /\ b <> 93.
Definition bracketed_byte (b : Z) : Prop := b <> 91 /\ b <> 93.

Lemma split_plain host port :
  Forall host_byte (bytes_of host) -> Forall host_byte (bytes_of port) ->
  SplitHostPort (host +:+ ":" +:+ port) = Some host.
Proof.
  intros Hh Hp. unfold SplitHostPort.
  assert (Hl : bytes_of (host +:+ ":" +:+ port) = bytes_of host ++ 58 :: bytes_of port)
    by (by rewrite !bytes_of_app).
  assert (Hno : forall b, b = 91 \/ b = 93 -> index_byte b (bytes_of host ++ 58 :: bytes_of port) = None).
  { intros b Hb. apply index_byte_none, Forall_app. split; [|constructor; [lia|]];
      (eapply Forall_impl; [eassumption|]); unfold host_byte; lia. }
  rewrite Hl, last_index_byte_app by (eapply Forall_impl; [exact Hp|]; by intros ? [? _]).
  rewrite bool_decide_eq_false_2.
  2: { destruct (bytes_of host); [done|]. apply Forall_cons in Hh as [(_ & H & _) _]. simpl. congruence. }
  rewrite take_app_length, (index_byte_none 58) by (eapply Forall_impl; [exact Hh|]; by intros ? [? _]).
  rewrite !drop_0, !Hno by auto. simpl. by rewrite of_bytes_of.
Qed.

Lemma split_bracketed host port :
  Forall bracketed_byte (bytes_of host) -> Forall host_byte (bytes_of port) ->
  SplitHostPort ("[" +:+ host +:+ "]:" +:+ port) = Some host.
Proof.
  intros Hh Hp. unfold SplitHostPort.
  assert (Hl : bytes_of ("[" +:+ host +:+ "]:" +:+ port) =
    (91 :: bytes_of host ++ [93]) ++ 58 :: bytes_of port)
    by (rewrite !bytes_of_app; simpl; by rewrite <-app_assoc).
  rewrite Hl, last_index_byte_app by (eapply Forall_impl; [exact Hp|]; by intros ? [? _]).
  rewrite bool_decide_eq_true_2 by done.
  assert (He : index_byte 93 ((91 :: bytes_of host ++ [93]) ++ 58 :: bytes_of port) = Some (S (length (bytes_of host)))).
  { simpl. rewrite <-app_assoc. simpl. rewrite index_byte_app; [done|].
    eapply Forall_impl; [exact Hh|]. by intros ? [_ ?]. }
  rewrite He. rewrite bool_decide_eq_false_2 by (rewrite length_app; simpl; rewrite length_app; simpl; lia).
  rewrite bool_decide_eq_true_2 by (simpl; rewrite length_app; simpl; lia).
  assert (Hd : drop (S (S (length (bytes_of host)))) ((91 :: bytes_of host ++ [93]) ++ 58 :: bytes_of port) =
    58 :: bytes_of port).
  { apply drop_app_length'. simpl. rewrite length_app. simpl. lia. }
  rewrite Hd, !index_byte_none; [simpl|..].
  - rewrite Nat.sub_0_r, drop_0, <-app_assoc, take_app_length. by rewrite of_bytes_of.
  - constructor; [lia|]. eapply Forall_impl; [exact Hp|]. unfold host_byte. lia.
  - simpl. rewrite drop_0, <-app_assoc. apply Forall_app. split; [eapply Forall_impl; [exact Hh|]; by intros ? [? _]|].
    simpl. repeat (constructor; [lia|]). eapply Forall_impl; [exact Hp|]. unfold host_byte. lia.
Qed.

(** A client is identified by its host. For the address of a connection over
    IPv4 or IPv6 the identity that limits, caches and reservations use is the host
    without the port, so that all connections of a host share one identity. *)
Theorem identity_is_host {W} (c : Context W) log host port (v6 : bool) :
  (forall k, silent (W := W) (E := http) log (ResponseHeader c k)) ->
  RemoteAddr c = (if v6 then "[" +:+ host +:+ "]:" +:+ port else host +:+ ":" +:+ port) ->
  Forall (if v6 then bracketed_byte else host_byte) (bytes_of host) -> Forall host_byte (bytes_of port) ->
  TrimSpace host <> "" ->
  traces log (requestMetadata c) (fun md _ => gateway.ClientIdentity md = host).
Proof.
  intros Hsilent Haddr Hh Hp Hne. unfold requestMetadata. apply traces_silent; [apply Hsilent|].
  intros id. apply traces_ret. simpl.
  assert (Hsplit : SplitHostPort (RemoteAddr c) = Some host)
    by (rewrite Haddr; destruct v6; [by apply split_bracketed|by apply split_plain]).
  rewrite Hsplit. simpl. by rewrite bool_decide_eq_false_2.
Qed.

(** ** A concrete exchange *)

Module witnesses.

#[local] Existing Instance sse.witnesses.chunk_json.
#[local] Existing Instance sse.witnesses.chunk_json_ok.

Abbreviation W := (context.world (list http)).

Definition log (w : W) : list http := w.2.
Definition emit {A} (e : http) (a : A) : M W A := fun w => Ret a (w.1, w.2 ++ [e]).

Definition ctx : Context W :=
  mkContext W "10.0.0.1:50123" context.Background (fun _ => "") (fun _ => ret (inl (EText "no body")))
    (fun _ => ret "req-1") (fun k v => emit (HHeader k v) tt) (fun s b => emit (HJSON s b) tt)
    (fun s => emit (HStatus s) tt) (fun s => emit (HWrite s None) None) (emit HFlush tt) (ret tt) (ret tt)
    (fun _ => ret tt).

Lemma http_emit {A} (e : http) (a : A) (P : A -> list http -> Prop) :
  P a [e] -> traces log (emit e a) P.
Proof. intros H w. exists [e]. by split. Qed.

#[global] Instance ctx_traced : TracedContext ctx log.
Proof. split; intros; by apply http_emit. Qed.

(** A stream of the chunks that are left. *)
Definition chunk : ChatStreamChunk := mkChatStreamChunk "1" "chat.completion.chunk" 0 "m" [] None.
Definition stream (chunks : list ChatStreamChunk) : provider.Stream W :=
  provider.mkStream (list ChatStreamChunk) chunks
    (fun l => match l with
              | [] => emit (HRecv None (Some (ESentinel EOF))) ((None, Some (ESentinel EOF)), [])
              | x :: l => emit (HRecv (Some x) None) ((Some x, None), l)
              end)
    (fun l => emit HClose (None, l)) None.

Lemma stream_recv chunks : forall s, traces log (provider.Recv (stream chunks) s) (fun r evs =>
  evs = [HRecv r.1.1 r.1.2] /\ (r.1.2 = None -> (length r.2 < length s)%nat)).
Proof. intros [|x l]; apply http_emit; split; [done..|simpl; lia]. Qed.

Lemma stream_close chunks : forall s, traces log (provider.Close (stream chunks) s) (fun _ evs => evs = [HClose]).
Proof. intros l. by apply http_emit. Qed.

Definition after {A} (m : M W A) : list http :=
  match m (context.start []) with Ret _ w => log w | _ => [] end.

Lemma http_after {A} (m : M W A) (P : A -> list http -> Prop) :
  traces log m P -> exists a, P a (after m).
Proof.
  intros H. specialize (H (context.start [])). unfold twp, after in *.
  destruct (m (context.start [])) as [a w|w|w]; [|destruct H..].
  destruct H as (evs & Hl & HP). exists a. simpl in Hl. by rewrite Hl.
Qed.

(** A refusal with a wait of 1.2 seconds. *)
Definition refusal : error := ERateLimit (mkDecision false 10 0 (1200 * millisecond)).


Lemma stream_delivery_witness :
  count is_close (after (serveStream ctx (stream [chunk]) 1)) = 1%nat /\
  written (after (serveStream ctx (stream [chunk]) 1)) = [sse.frame "{1}"; sse.frame "[DONE]"].
Proof.
  destruct (http_after _ _ (stream_delivery ctx log (stream [chunk]) length (stream_recv [chunk])
    (stream_close [chunk]) 1 ltac:(simpl; lia))) as (u & _ & H & _).
  split; [exact H|by vm_compute].
Defined.


(** A response writer that panics on the first write. *)
Definition torn_ctx : Context W :=
  mkContext W "10.0.0.1:50123" context.Background (fun _ => "") (fun _ => ret (inl (EText "no body")))
    (fun _ => ret "req-1") (fun k v => emit (HHeader k v) tt) (fun s b => emit (HJSON s b) tt)
    (fun s => emit (HStatus s) tt) (fun s => panic) (emit HFlush tt) (ret tt) (ret tt) (fun _ => ret tt).

Lemma harmless_emit {A} (e : http) (a : A) (P : A -> Prop) : is_close e = false -> P a -> harmless log (emit e a) P.
Proof. intros He Ha. apply outcomes_traces, http_emit. split; [done|]. unfold open_still. simpl. by rewrite He. Qed.

#[global] Instance torn_fallible : FallibleContext torn_ctx log.
Proof.
  split; intros; try (by apply harmless_emit).
  intros w. exists []. by rewrite app_nil_r.
Qed.

Definition opened : gateway.StreamResult W :=
  gateway.mkStreamResult (stream [chunk]) "req-1" "mock" (mkDecision true 10 9 0).

Lemma stream_always_closed_witness :
  exists w, serveResult torn_ctx opened 1 (context.start []) = Panic w /\ count is_close (log w) = 1%nat.
Proof.
  pose proof (stream_always_closed torn_ctx log opened length 1
    ltac:(intros [|x l]; apply harmless_emit; simpl; (done || lia)) (stream_close [chunk]) ltac:(simpl; lia)
    (context.start [])) as H.
  destruct (serveResult torn_ctx opened 1 (context.start [])) as [u w|w|w] eqn:E; [exfalso|exists w|destruct H].
  - apply (f_equal (fun o => match o with Panic _ => true | _ => false end)) in E. vm_compute in E. discriminate E.
  - destruct H as (evs & Hl & _ & Hc). split; [done|]. simpl in Hl. by rewrite Hl.
Defined.

Lemma identity_is_host_witness :
  exists md, gateway.ClientIdentity md = "10.0.0.1" /\ requestMetadata ctx (context.start []) = Ret md (context.start []).
Proof.
  pose proof (identity_is_host ctx log "10.0.0.1" "50123" false (fun k => silent_ret log _) eq_refl) as H.
  specialize (H ltac:(by repeat constructor) ltac:(by repeat constructor) ltac:(by vm_compute) (context.start [])).
  unfold twp in H. destruct (requestMetadata ctx (context.start [])) as [md w|w|w] eqn:E; [|destruct H..].
  destruct H as (evs & _ & H). exists md. split; [exact H|]. by injection E as <- <-.
Defined.

End witnesses.

End api.
