(* ===== verification/Exchange.v ===== *)
(** * The handler over the gateway

    The composition of internal/api/handler.go with internal/service/gateway.go:
    what the client of a request receives beside what the gateway asks of its
    dependencies, in two logs of the same run. The stream that the handler serves
    is the metered stream of the gateway over the provider's stream. *)

From stdpp Require Import base gmap list strings.
From Stdlib Require Import ZArith Lia.
From S2P Require Import Prelude Float64 Types GoStrings Context Codec Trace Provider Sse RateLimit Idempotency Cache.
From S2P Require Import Storage Service Gateway Api.

Local Open Scope Z_scope.
Local Open Scope go_scope.

Module exchange.

(** The value of a header of the response: the last one that was set. *)
Definition header_of (k : string) (he : list api.http) : string :=
  default "" (last (omap (fun e => match e with
    | api.HHeader k' v => if bool_decide (k' = k) then Some v else None
    | _ => None
    end) he)).

Lemma header_of_snoc k v he : header_of k (he ++ [api.HHeader k v]) = v.
Proof. unfold header_of. rewrite omap_app. simpl. rewrite bool_decide_eq_true_2 by done. by rewrite last_snoc. Qed.

Section compose.
Context {W : Type} {HR : context.HasRuntime W} {HS : context.Scheduler W}.
Context {HRand : gateway.Random W} {Sha : codec.Sha256} {J : codec.Json}.
Context (g : gateway.GatewayService W) (c : api.Context W).
Context (glog : W -> list gateway.event) (hlog : W -> list api.http).

(** The dependencies of the gateway do not write to the client, and the web
    framework does not touch the dependencies. *)
Class Separate : Prop := {
  sep_runtime : forall rt w, hlog (ref_set context.runtime rt w) = hlog w;
  sep_rand : forall n, mute hlog (gateway.rand_Read n);
  sep_sink : forall e, mute hlog (gateway.errorSink g e);
  sep_allow : forall l ctx id, gateway.limiter g = Some l -> mute hlog (ratelimit.limiter_Allow l ctx id);
  sep_begin : forall s ctx k fp, gateway.idempotency_ g = Some s -> mute hlog (idempotency.store_Begin s ctx k fp);
  sep_complete : forall s ctx k fp p, gateway.idempotency_ g = Some s ->
    mute hlog (idempotency.store_Complete s ctx k fp p);
  sep_release : forall s ctx k fp, gateway.idempotency_ g = Some s -> mute hlog (idempotency.store_Release s ctx k fp);
  sep_get : forall s ctx k, gateway.cache_ g = Some s -> mute hlog (cache.store_Get s ctx k);
  sep_set : forall s ctx k p, gateway.cache_ g = Some s -> mute hlog (cache.store_Set s ctx k p);
  sep_record : forall s ctx r, gateway.recorder g = Some s -> mute hlog (storage.Recorder_Record s ctx r);
  sep_limited : mute hlog (gateway.ObserveRateLimited (gateway.observer g));
  sep_hit : mute hlog (gateway.ObserveCacheHit (gateway.observer g));
  sep_tokens : forall p u, mute hlog (gateway.ObserveTokens (gateway.observer g) p u);
  sep_chat : forall ctx r, mute hlog (provider.Chat (gateway.chat g) ctx r);
  sep_open : forall ctx r, mute hlog (provider.ChatStream (gateway.chat g) ctx r);
  sep_header : forall k v, mute glog (api.Header c k v);
  sep_json : forall s b, mute glog (api.JSON c s b);
  sep_status : forall s, mute glog (api.Status c s);
  sep_write : forall s, mute glog (api.WriteString c s);
  sep_flush : mute glog (api.Flush c);
  sep_decode : forall n, silent hlog (api.ShouldBindJSON c n) /\ mute glog (api.ShouldBindJSON c n);
  sep_model : forall m, silent hlog (api.SetModel c m) /\ mute glog (api.SetModel c m);
  sep_sent : forall k, mute glog (api.ResponseHeader c k);
  sep_header_of : forall k w,
    twp (api.ResponseHeader c k) (fun v w' => v = header_of k (hlog w) /\ hlog w' = hlog w) w;
}.
Context {Sep : Separate}.

(** *** The gateway is mute towards the client *)

Lemma mute_WithTimeout ctx d : mute hlog (context.WithTimeout ctx d).
Proof using Sep. apply mute_update, sep_runtime. Qed.

Lemma mute_cancel f : mute hlog (context.cancel f).
Proof using Sep. apply mute_update, sep_runtime. Qed.

Ltac gateway_steps :=
  repeat first
    [ eassumption | mute_step
    | apply mute_WithTimeout | apply mute_cancel | apply sep_rand | apply sep_sink | by eapply sep_allow
    | by eapply sep_begin | by eapply sep_complete | by eapply sep_release | by eapply sep_get | by eapply sep_set
    | by eapply sep_record | apply sep_limited | apply sep_hit | apply sep_tokens | apply sep_chat | apply sep_open ].

Lemma mute_record ctx t id prov model status usage cs code :
  mute hlog (gateway.recordSince g ctx t id prov model status usage cs code).
Proof using Sep. unfold gateway.recordSince, gateway.record. gateway_steps. Qed.

Lemma mute_complete k fp p acquired : mute hlog (gateway.completeIdempotency g k fp p acquired).
Proof using Sep. unfold gateway.completeIdempotency. gateway_steps. Qed.

Lemma mute_release k fp acquired : mute hlog (gateway.releaseIdempotency g k fp acquired).
Proof using Sep. unfold gateway.releaseIdempotency. gateway_steps. Qed.

Lemma mute_chatProvider ctx req f ck cs : mute hlog (gateway.chatProvider g ctx req f ck cs).
Proof using Sep.
  unfold gateway.chatProvider, service.Chat.
  repeat first [progress gateway_steps | apply mute_record | apply mute_complete | apply mute_release].
Qed.

Lemma mute_chatCached ctx req md f : mute hlog (gateway.chatCached g ctx req md f).
Proof using Sep.
  unfold gateway.chatCached.
  repeat first [apply mute_chatProvider | progress gateway_steps | apply mute_record | apply mute_complete | apply mute_release].
Qed.

Lemma mute_requestID md : mute hlog (gateway.ensureRequestID md).
Proof using Sep. unfold gateway.ensureRequestID, gateway.NewRequestID. gateway_steps. Qed.

Lemma mute_rateLimit ctx id : mute hlog (gateway.enforceRateLimit g ctx id).
Proof using Sep. unfold gateway.enforceRateLimit. gateway_steps. Qed.

Lemma mute_Chat ctx req md : mute hlog (gateway.Chat g ctx req md).
Proof using Sep.
  unfold gateway.Chat, gateway.chatBody, gateway.chatReserved, gateway.recordRejected. cbn zeta.
  repeat first [apply mute_chatCached | apply mute_record | apply mute_requestID | apply mute_rateLimit | progress gateway_steps].
Qed.

Lemma mute_ChatStream ctx req md : mute hlog (gateway.ChatStream g ctx req md).
Proof using Sep.
  unfold gateway.ChatStream, gateway.streamProvider, service.ChatStream. cbn zeta.
  repeat first [apply mute_record | apply mute_requestID | apply mute_rateLimit | progress gateway_steps].
Qed.

(** *** The handler is mute towards the dependencies *)

Ltac context_steps :=
  repeat first [apply sep_header | apply sep_json | apply sep_status | apply sep_write | apply sep_flush | mute_step].

Lemma mute_error err : mute glog (api.writeMappedError c err).
Proof using Sep. unfold api.writeMappedError, api.writeError, api.applyRateLimitHeaders. cbn zeta. context_steps. Qed.

Lemma mute_chunk chunk : mute glog (api.writeSSEChunk c chunk).
Proof using Sep. unfold api.writeSSEChunk. context_steps. Qed.

Lemma mute_beginStream chunk : mute glog (api.beginStream c chunk).
Proof using Sep. unfold api.beginStream. context_steps. apply mute_chunk. Qed.

Lemma mute_resultHeaders r : mute glog (api.applyResultHeaders c r).
Proof using Sep. unfold api.applyResultHeaders, api.applyRateLimitHeaders. context_steps. Qed.

Lemma mute_closing {A} st s (m : M W A) : mute glog m -> mute glog (api.closing st s m).
Proof using Type.
  intros Hm w a w' H. unfold api.closing, onPanic, bind, ret, panic in H.
  destruct (m w) as [x w1|w1|w1] eqn:E; [injection H as <- <-; by eapply Hm| |done].
  by destruct (provider.Close st s w1).
Qed.

(** *** What the consumer of a stream received *)

Context {Tr : gateway.Traced g glog} {Tc : api.TracedContext c hlog}.

Abbreviation tr2 := (traces2 glog hlog).

Lemma traces2_closing {A} st s (m : M W A) P : tr2 m P -> tr2 (api.closing st s m) P.
Proof using Type. intros Hm w. specialize (Hm w). unfold twp, api.closing, onPanic in *. by destruct (m w). Qed.

Definition recvs (he : list api.http) : list provider.op_result :=
  omap (fun e => match e with api.HRecv chunk err => Some (provider.RRecv chunk err) | _ => None end) he.

Lemma recvs_app l l' : recvs (l ++ l') = recvs l ++ recvs l'.
Proof using Type. apply omap_app. Qed.

(** Code that receives nothing and asks nothing of the dependencies. *)
Definition aside {A} (m : M W A) : Prop := tr2 m (fun _ ge he => ge = [] /\ recvs he = []).

Lemma aside_intro {A} (m : M W A) (P : A -> list api.http -> Prop) :
  mute glog m -> traces hlog m P -> (forall a he, P a he -> recvs he = []) -> aside m.
Proof using Type. intros Hm Ht HP. eapply traces2_mono; [by eapply traces2_right|]. intros a ge he [-> H]. eauto. Qed.

Lemma one_error_recvs he status detail : api.one_error he status detail -> recvs he = [].
Proof using Type.
  intros (hs & -> & Hh). rewrite recvs_app. simpl. rewrite app_nil_r.
  induction Hh as [|x hs Hx _ IH]; [done|]. by destruct x.
Qed.

Lemma chunk_written_recvs chunk err he : api.chunk_written chunk err he -> recvs he = [].
Proof using Type.
  unfold api.chunk_written. destruct (api.marshalChunk chunk); [by intros [-> _]|].
  intros [(e & -> & _)|[-> _]]; done.
Qed.

Lemma aside_error err : aside (api.writeMappedError c err).
Proof using Sep Tc.
  eapply aside_intro; [apply mute_error|by apply api.writeMappedError_trace|].
  intros ? he (msg & _ & H & _). by eapply one_error_recvs.
Qed.

Lemma aside_chunk chunk : aside (api.writeSSEChunk c chunk).
Proof using Sep Tc.
  eapply aside_intro; [apply mute_chunk|by apply api.writeSSEChunk_trace|]. intros err he. apply chunk_written_recvs.
Qed.

Lemma aside_begin chunk : aside (api.beginStream c chunk).
Proof using Sep Tc.
  eapply aside_intro; [apply mute_beginStream|by apply api.beginStream_trace|].
  intros err ? (he & -> & H). rewrite recvs_app. by apply (chunk_written_recvs chunk err).
Qed.

Section served.
Context (st : provider.Stream W) (left_ : provider.stream_state st -> nat).

(** [acc s rs ge]: from the state [s], calls with the results [rs] cause the events
    [ge]. *)
Context (acc : provider.stream_state st -> list provider.op_result -> list gateway.event -> Prop).

Hypothesis recv_step : forall s, tr2 (provider.Recv st s) (fun r ge he =>
  he = [api.HRecv r.1.1 r.1.2] /\ (r.1.2 = None -> (left_ r.2 < left_ s)%nat) /\
  forall rs ge', acc r.2 rs ge' -> acc s (provider.RRecv r.1.1 r.1.2 :: rs) (ge ++ ge')).
Hypothesis close_step : forall s, tr2 (provider.Close st s) (fun r ge he =>
  he = [api.HClose] /\ acc s [provider.RClose r.1] ge).

(** From [s] to the state that is returned. *)
Definition leads (s s' : provider.stream_state st) (ge : list gateway.event) (he : list api.http) : Prop :=
  forall rs ge', acc s' rs ge' -> acc s (recvs he ++ rs) (ge ++ ge').

(** What happens aside changes nothing. *)
Lemma leads_aside {A} s (m : M W A) s0 (f : A -> M W (provider.stream_state st)) :
  aside m -> (forall a, tr2 (f a) (leads s)) -> tr2 (bind (api.closing st s0 m) f) (leads s).
Proof using Type.
  intros Hm Hf. eapply traces2_bind; [apply traces2_closing, Hm|]. intros a ge he [-> Hr].
  eapply traces2_mono; [apply Hf|]. intros s' ge' he' H. unfold leads. by rewrite recvs_app, Hr.
Qed.

Lemma leads_refl s : tr2 (ret s) (leads s).
Proof using Type. apply traces2_ret. intros rs ge H. exact H. Qed.

Lemma leads_loop fuel s : (left_ s < fuel)%nat -> tr2 (api.serveLoop c st fuel s) (leads s).
Proof using Sep Tc recv_step.
  revert s. induction fuel as [|fuel IH]; intros s Hf; [lia|]. cbn [api.serveLoop].
  eapply traces2_bind; [apply traces2_closing, recv_step|].
  intros [[chunk err] s1] ge he (-> & Hleft & Hacc). cbn [fst snd] in *.
  eapply (traces2_mono _ _ _ (leads s1)).
  - destruct err as [e|].
    + destruct (errors_Is e EOF); [|apply leads_refl]. apply leads_aside; [|intros; apply leads_refl].
      eapply (aside_intro _ (fun _ he => exists werr, he = [api.HWrite (sse.frame "[DONE]") werr; api.HFlush])).
      * context_steps.
      * eapply traces_bind; [by apply api.tr_write|]. intros werr he ->.
        eapply traces_mono; [by apply api.tr_flush|]. intros ? he ->. by exists werr.
      * by intros ? he (werr & ->).
    + apply leads_aside; [apply aside_chunk|]. intros [e|]; [apply leads_refl|].
      apply IH. specialize (Hleft eq_refl). lia.
  - intros s' ge' he' H rs ge2 Hrs. rewrite <-app_assoc. apply Hacc. by apply H.
Qed.

Lemma serveStream_accounts fuel :
  (left_ (provider.stream_init st) <= fuel)%nat ->
  tr2 (api.serveStream c st fuel) (fun _ ge he =>
    exists err, acc (provider.stream_init st) (recvs he ++ [provider.RClose err]) ge).
Proof using Sep Tc recv_step close_step.
  intros Hf. unfold api.serveStream. eapply traces2_bind; [apply traces2_closing, recv_step|].
  intros [[chunk err] s] ge he (-> & Hleft & Hacc). cbn [fst snd] in *.
  eapply (traces2_bind _ _ _ _ (leads s)).
  { destruct err as [e|].
    - apply leads_aside; [apply aside_error|]. intros. apply leads_refl.
    - apply leads_aside; [apply aside_begin|]. intros [e|]; [apply leads_refl|].
      apply leads_loop. specialize (Hleft eq_refl). lia. }
  intros s' ge1 he1 H. eapply traces2_bind; [apply close_step|]. intros [cerr s2] ge2 he2 [-> Hc]. cbn [fst snd] in *.
  apply traces2_ret. exists cerr. rewrite !app_nil_r. simpl. rewrite recvs_app. simpl. rewrite app_nil_r.
  apply Hacc. by apply H.
Qed.

End served.

(** *** The metered stream over the provider's *)

Section metered.
Context (ctx : context.Ctx) (requestID selectedProvider model : string) (startedAt : Z).
Context (cancel : context.CancelFunc) (inner : provider.Stream W) (left_ : provider.stream_state inner -> nat).

(** The provider's stream: what it delivers is logged for the client, it asks
    nothing of the gateway's dependencies, and it comes to an end. *)
Definition upstream : Prop :=
  (forall s, tr2 (provider.Recv inner s) (fun r ge he =>
     (ge = [] /\ he = [api.HRecv r.1.1 r.1.2]) /\ (r.1.2 = None -> (left_ r.2 < left_ s)%nat))) /\
  (forall s, tr2 (provider.Close inner s) (fun _ ge he => ge = [] /\ he = [api.HClose])).
Hypothesis Hup : upstream.

Abbreviation finish := (gateway.streamFinish g ctx requestID selectedProvider model startedAt).
Abbreviation metered := (gateway.meteredStream cancel finish inner).
Abbreviation ended := (gateway.end_events g requestID selectedProvider model).

(** The accounting of the metered stream, from any state. *)
Definition accounts (s : provider.stream_state metered) (rs : list provider.op_result)
    (ge : list gateway.event) : Prop :=
  if gateway.mt_finished s then ge = [] else ended (gateway.stream_end (gateway.mt_usage s) rs) ge.

Lemma finish_step status code (s : gateway.meteredState (provider.stream_state inner)) :
  tr2 (gateway.finishOnce cancel finish status code s) (fun s' ge he => (gateway.mt_finished s' = true /\
    if gateway.mt_finished s then ge = [] else ended (Some (status, code, gateway.mt_usage s)) ge) /\ he = []).
Proof using Sep Tr.
  eapply traces2_left; [by apply gateway.finishOnce_trace|].
  unfold gateway.finishOnce, gateway.streamFinish. gateway_steps. apply mute_record.
Qed.

Lemma metered_recv_step s : tr2 (provider.Recv metered s) (fun r ge he =>
  he = [api.HRecv r.1.1 r.1.2] /\
  (r.1.2 = None -> (left_ (gateway.mt_inner r.2) < left_ (gateway.mt_inner s))%nat) /\
  forall rs ge', accounts r.2 rs ge' -> accounts s (provider.RRecv r.1.1 r.1.2 :: rs) (ge ++ ge')).
Proof using Sep Tr Hup.
  destruct Hup as [Hrecv _]. cbn [provider.Recv gateway.meteredStream]. unfold gateway.meteredRecv.
  eapply traces2_bind; [apply Hrecv|]. intros [[chunk err] i] ge he [[-> ->] Hleft]. cbn [fst snd] in *.
  set (u := match chunk with Some _ => _ | None => _ end).
  assert (Hu : u = gateway.usage_after (gateway.mt_usage s) (provider.RRecv chunk err)).
  { unfold u. destruct chunk as [k|]; [|done]. simpl. by destruct (chunk_Usage k). }
  clearbody u. destruct err as [e|].
  - assert (Hend : gateway.ending (provider.RRecv chunk (Some e)) =
      Some (if errors_Is e EOF then (storage.StatusSucceeded, "")
            else (storage.StatusFailed, gateway.gatewayErrorCode e))) by done.
    destruct (errors_Is e EOF); (eapply traces2_bind; [apply finish_step|]);
      intros s' ge he [[Hf Hge] ->]; apply traces2_ret; cbn [fst snd]; (split_and!; [done..|]);
      unfold accounts; rewrite Hf; intros rs ge' ->; cbn [gateway.mt_finished gateway.mt_usage] in Hge;
      destruct (gateway.mt_finished s); try (by subst); cbn [gateway.stream_end];
      rewrite Hend, <-Hu; rewrite !app_nil_r; exact Hge.
  - apply traces2_ret. cbn [fst snd gateway.mt_inner]. split_and!; [done..|].
    unfold accounts. cbn [gateway.mt_finished gateway.mt_usage]. intros rs ge'.
    destruct (gateway.mt_finished s); [done|]. cbn [gateway.stream_end gateway.ending]. by rewrite <-Hu.
Qed.

Lemma metered_close_step s : tr2 (provider.Close metered s) (fun r ge he =>
  he = [api.HClose] /\ accounts s [provider.RClose r.1] ge).
Proof using Sep Tr Hup.
  destruct Hup as [_ Hclose]. cbn [provider.Close gateway.meteredStream]. unfold gateway.meteredClose.
  eapply traces2_bind; [apply Hclose|]. intros [err i] ge he [-> ->]. cbn [fst snd] in *.
  eapply traces2_bind; [apply finish_step|]. intros s' ge he [[_ Hge] ->]. apply traces2_ret.
  split; [done|]. unfold accounts. cbn [fst gateway.mt_finished gateway.mt_usage] in *. rewrite app_nil_r.
  destruct (gateway.mt_finished s); [done|]. cbn [gateway.stream_end]. by destruct err.
Qed.

(** The client's stream and the record of the request, in one run. *)
Lemma metered_served fuel :
  (left_ (provider.stream_init inner) <= fuel)%nat ->
  tr2 (api.serveStream c metered fuel) (fun _ ge he =>
    (exists err, ended (gateway.stream_end zeroUsage (recvs he ++ [provider.RClose err])) ge) /\
    ((exists chunk e hs status detail, he = api.HRecv chunk (Some e) :: hs ++ [api.HClose] /\
        api.one_error hs status detail /\
        (status, api.Type_ detail, api.Code detail) = api.response_of (api.first_error e)) \/
     (exists chunk body, he = api.HRecv chunk None :: api.stream_headers ++ body ++ [api.HClose] /\
        api.sends_chunk chunk body))).
Proof using Sep Tr Tc Hup.
  intros Hf. eapply traces2_mono; [apply traces2_with|].
  - apply (serveStream_accounts metered (fun s => left_ (gateway.mt_inner s)) accounts);
      [apply metered_recv_step|apply metered_close_step|exact Hf].
  - apply (api.serveStream_trace c hlog metered (fun s => left_ (gateway.mt_inner s))); [| |exact Hf].
    + intros s. eapply traces2_snd; [apply metered_recv_step|]. intros r ge he (-> & Hl & _). by split.
    + intros s. eapply traces2_snd; [apply metered_close_step|]. by intros r ge he (-> & _).
  - intros [] ge he H. exact H.
Qed.

End metered.

(** *** What the client sees *)

Section identified.
(** The identifier of the request, in the header of its response. *)
Context (hid : string).

Definition own (requestID : string) : Prop := TrimSpace hid <> "" -> requestID = TrimSpace hid.

Definition is_status (e : api.http) : bool := match e with api.HStatus _ => true | _ => false end.
(** The body of an answer. *)
Definition is_answer (e : api.http) : bool := match e with api.HJSON _ (api.BodyResponse _) => true | _ => false end.
Definition is_id (e : api.http) : bool := match e with api.HHeader k _ => bool_decide (k = "X-Request-ID") | _ => false end.
Definition is_opened (e : gateway.event) : bool := match e with gateway.EvOpen None => true | _ => false end.

(** The client got an answer, or the stream came to its end. *)
Definition served (he : list api.http) : bool := existsb is_answer he || existsb api.at_eof he.

Definition success (status : string) : Prop :=
  status ∈ [storage.StatusSucceeded; storage.StatusCacheHit; storage.StatusIdempotencyReplay].

(** The error [e] is what the client was told. *)
Definition told (e : error) (he : list api.http) : Prop :=
  exists status detail, api.HJSON status (api.BodyError detail) ∈ he /\
    (status, api.Type_ detail, api.Code detail) = api.response_of e.

(** The record of a request has its identifier and says what the client saw:
    success if it was served, and otherwise the error it was told, or else a
    response that broke off. *)
Record tells (x : storage.RequestRecord) (he : list api.http) : Prop := {
  tell_id : own (storage.rec_RequestID x);
  tell_status : success (storage.rec_Status x) <-> served he = true;
  tell_error : forall status detail, api.HJSON status (api.BodyError detail) ∈ he ->
    existsb api.at_eof he = true \/ exists e, storage.rec_ErrorCode x = gateway.gatewayErrorCode e /\ told e he;
}.

(** One response, with the identifier of the request if with any; every stream that
    was opened is closed; one record, except for failures that leave none. *)
Record accounted (ge : list gateway.event) (he : list api.http) : Prop := {
  ac_id : forall v, api.HHeader "X-Request-ID" v ∈ he -> own v;
  ac_response : (count api.is_json he + count is_status he = 1)%nat;
  ac_closed : count api.is_close he = count is_opened ge;
  ac_once : (count gateway.is_record ge <= 1)%nat;
  ac_recorded : is_Some (gateway.recorder g) -> count gateway.is_record ge = 1%nat \/
    exists e, gateway.unrecorded (inl e) /\ told e he;
  ac_tells : forall x, gateway.EvRecord x ∈ ge -> tells x he;
}.

(** **** Headers do not matter *)

Definition fine (e : api.http) : Prop :=
  match e with api.HHeader k v => k = "X-Request-ID" -> own v | _ => False end.
Abbreviation headers := (Forall fine).

Lemma fine_header e : api.is_header e = true -> fine e.
Proof using Type. destruct e; try done. simpl. intros H ->. by rewrite bool_decide_eq_true_2 in H. Qed.

Lemma headers_count p hs : (forall e, fine e -> p e = false) -> headers hs -> count p hs = 0%nat.
Proof using Type. intros Hp Hh. apply count_zero. eapply Forall_impl; [exact Hh|]. exact Hp. Qed.

Lemma headers_existsb p hs : (forall e, fine e -> p e = false) -> headers hs -> existsb p hs = false.
Proof using Type. intros Hp. induction 1 as [|e hs He _ IH]; simpl; [done|]. by rewrite (Hp e He). Qed.

Lemma accounted_headers hs ge he : headers hs -> accounted ge he -> accounted ge (hs ++ he).
Proof using Type.
  intros Hh [H0 H1 H2 H3 H4 H5].
  assert (Htold : forall e, told e he -> told e (hs ++ he)).
  { intros e (status & detail & Hin & He). exists status, detail. split; [|done]. apply elem_of_app. by right. }
  split; rewrite ?count_app, ?(headers_count _ hs) by (done || by intros []); [|done..| |].
  - intros v [Hin|Hin]%elem_of_app; [|by apply H0]. rewrite Forall_forall in Hh. by apply (Hh _ Hin).
  - intros Hr. destruct (H4 Hr) as [?|(e & Hu & Ht)]; [by left|right]. exists e. auto.
  - intros x Hx. destruct (H5 x Hx) as [H8 H6 H7]. split; [done| |].
    + unfold served in *. rewrite !existsb_app, !(headers_existsb _ hs) by (done || by intros []). done.
    + intros status detail [Hin|Hin]%elem_of_app.
      { rewrite Forall_forall in Hh. by apply Hh in Hin. }
      rewrite existsb_app, (headers_existsb _ hs) by (done || by intros []).
      destruct (H7 _ _ Hin) as [?|(e & Hc & Ht)]; [by left|right]. exists e. auto.
Qed.

Lemma tr2_headers {A B} (m : M W A) (k : A -> M W B) ge0 :
  mute glog m -> traces hlog m (fun _ he => headers he) ->
  (forall a, tr2 (k a) (fun _ ge he => accounted (ge0 ++ ge) he)) ->
  tr2 (bind m k) (fun _ ge he => accounted (ge0 ++ ge) he).
Proof using Type.
  intros Hm Ht Hk. eapply traces2_bind; [by eapply traces2_right|]. intros a ge hs [-> Hh].
  eapply traces2_mono; [apply Hk|]. intros b ge he H. by apply accounted_headers.
Qed.

(** **** Failures *)

(** The record of a failure. *)
Definition failure_record (e : error) (x : storage.RequestRecord) : Prop :=
  own (storage.rec_RequestID x) /\ storage.rec_ErrorCode x = gateway.gatewayErrorCode e /\
  ~ success (storage.rec_Status x).

Lemma accounted_failure e ge :
  (count gateway.is_record ge <= 1)%nat -> count is_opened ge = 0%nat ->
  (is_Some (gateway.recorder g) -> count gateway.is_record ge = 1%nat \/ gateway.unrecorded (inl e)) ->
  (forall x, gateway.EvRecord x ∈ ge -> failure_record e x) ->
  tr2 (api.writeMappedError c e) (fun _ ge' he => accounted (ge ++ ge') he).
Proof using Sep Tc.
  intros H1 H2 H3 H4. eapply traces2_mono; [eapply traces2_right; [apply mute_error|by apply api.writeMappedError_trace]|].
  intros ? ge' he [-> (msg & _ & (hs & -> & Hh) & _)]. rewrite app_nil_r. apply accounted_headers.
  { eapply Forall_impl; [exact Hh|]. apply fine_header. }
  assert (Htold : told e [api.HJSON (api.response_of e).1.1
    (api.BodyError (api.mkErrorDetail msg (api.response_of e).1.2 (api.response_of e).2))]).
  { eexists _, _. split; [by left|]. simpl. by destruct (api.response_of e) as [[] ?]. }
  split; simpl; [|done|done|done| |].
  - intros v Hin. by rewrite elem_of_cons, elem_of_nil in Hin; destruct Hin.
  - intros Hr. destruct (H3 Hr); [by left|right]. by exists e.
  - intros x Hx. destruct (H4 x Hx) as (Hi & Hc & Hs). split; [done|by split|]. intros. right. by exists e.
Qed.

Lemma failed_statuses e called :
  ~ success (gateway.statusForGatewayError e) /\ ~ success storage.StatusFailed /\
  ~ success (gateway.failure_status called e).
Proof using Type.
  clear. assert (H : forall s, s ∈ [storage.StatusRateLimited; storage.StatusFailed; storage.StatusRejected] -> ~ success s).
  { intros s Hs Hn. unfold success in Hn. rewrite !elem_of_cons, elem_of_nil in Hs, Hn. naive_solver congruence. }
  assert (Hg : gateway.statusForGatewayError e ∈ [storage.StatusRateLimited; storage.StatusFailed; storage.StatusRejected]).
  { unfold gateway.statusForGatewayError. destruct (as_ratelimit e); set_solver. }
  split_and!; apply H; [done|set_solver|]. unfold gateway.failure_status. destruct called; [set_solver|].
  destruct e; try done; set_solver.
Qed.

(** **** Streams *)

(** How a response that has begun ends, in the usage records: as a success exactly
    if the end of the stream was reached. *)
Definition ends (he : list api.http) : Prop := forall u err, exists status code u',
  gateway.stream_end u (recvs he ++ [provider.RClose err]) = Some (status, code, u') /\
  status = if existsb api.at_eof he then storage.StatusSucceeded else storage.StatusFailed.

(** A body of frames. *)
Definition framed (he : list api.http) : Prop :=
  count api.is_json he = 0%nat /\ count is_status he = 0%nat /\ count api.is_close he = 0%nat /\
  count is_id he = 0%nat /\ existsb is_answer he = false.

Lemma ends_chunk chunk he : ends he -> ends (api.HRecv chunk None :: he).
Proof using Type. intros H u err. apply H. Qed.

Lemma ends_closed he : recvs he = [] -> existsb api.at_eof he = false -> ends he.
Proof using Type.
  intros Hr He u err. rewrite Hr, He. destruct err; by eexists _, _, _.
Qed.

Lemma chunk_ends chunk body : api.sends_chunk chunk body -> ends body /\ framed body.
Proof using Type.
  clear. revert chunk body.
  apply (api.sends_chunk_min (fun he => ends he /\ framed he) (fun _ he => ends he /\ framed he)).
  - intros chunk e werr He. split; [|done]. intros u err. simpl. rewrite He. by eexists _, _, _.
  - intros chunk e He. split; [|done]. intros u err. simpl. rewrite He. by eexists _, _, _.
  - intros chunk he _ [H1 H2]. split; [by apply ends_chunk|done].
  - intros chunk e _. split; [by apply ends_closed|done].
  - intros chunk payload e _. split; [by apply ends_closed|done].
  - intros chunk payload he _ _ [H1 H2]. by split.
Qed.

Lemma accounted_ended requestID prov model status code u ge0 ge he :
  gateway.end_events g requestID prov model (Some (status, code, u)) ge ->
  count gateway.is_record ge0 = 0%nat -> count is_opened ge0 = 1%nat ->
  own requestID -> count is_id he = 0%nat ->
  (count api.is_json he + count is_status he = 1)%nat -> count api.is_close he = 1%nat ->
  (success status <-> served he = true) ->
  (forall s d, api.HJSON s (api.BodyError d) ∈ he ->
     existsb api.at_eof he = true \/ exists e, code = gateway.gatewayErrorCode e /\ told e he) ->
  accounted (ge0 ++ ge) he.
Proof using Type.
  intros (latency & ->) H0 H1 Hown Hid H2 H3 H4 H5.
  assert (Hrec : forall x, gateway.EvRecord x ∈ ge0 ++ gateway.recorded g
      (gateway.mkRecord requestID prov model status u latency cache.StatusBypass code) ++ [gateway.EvTokens prov u] ->
    storage.rec_RequestID x = requestID /\ storage.rec_Status x = status /\ storage.rec_ErrorCode x = code).
  { intros x [Hin|Hin]%elem_of_app.
    { apply list_elem_of_lookup in Hin as [i Hi]. apply (count_pos gateway.is_record) in Hi; [lia|done]. }
    unfold gateway.recorded in Hin. destruct (gateway.recorder g); simpl in Hin;
      rewrite !elem_of_cons, ?elem_of_nil in Hin; naive_solver. }
  split; rewrite ?count_app, ?H0, ?H1; unfold gateway.recorded; [|done|rewrite H3; by destruct (gateway.recorder g)|..].
  - intros v Hin. apply list_elem_of_lookup in Hin as [i Hi]. apply (count_pos is_id) in Hi; [lia|done].
  - destruct (gateway.recorder g); simpl; lia.
  - intros [rec ->]. by left.
  - intros x Hx. destruct (Hrec x Hx) as (Hi & Hs & Hc). split; rewrite ?Hi, ?Hs, ?Hc; auto.
Qed.

Lemma success_succeeded (b : bool) :
  success (if b then storage.StatusSucceeded else storage.StatusFailed) <-> b = true.
Proof using Type.
  clear. destruct b; [split; [done|set_solver]|]. split; [|done]. intros H. by destruct (failed_statuses (EText "") true) as (_ & []).
Qed.

Lemma stream_accounted ctx requestID prov model t cancel inner left_ fuel ge0 :
  upstream inner left_ -> (left_ (provider.stream_init inner) <= fuel)%nat ->
  count gateway.is_record ge0 = 0%nat -> count is_opened ge0 = 1%nat -> own requestID ->
  tr2 (api.serveStream c (gateway.meteredStream cancel (gateway.streamFinish g ctx requestID prov model t) inner) fuel)
    (fun _ ge he => accounted (ge0 ++ ge) he).
Proof using Sep Tr Tc.
  intros Hup Hf H0 H1 Hown. eapply traces2_mono; [by eapply metered_served|].
  intros [] ge he [(err & Hge) [(chunk & e & hs & status & detail & -> & Hone & Hd)|(chunk & body & -> & Hb)]].
  - pose proof (one_error_recvs _ _ _ Hone) as Hr. destruct Hone as (hs' & -> & Hh).
    assert (Hnid : count is_id hs' = 0%nat).
    { apply count_zero. eapply Forall_impl; [exact Hh|]. intros []; try done. simpl. by case_bool_decide. }
    assert (Hh' : headers hs') by (eapply Forall_impl; [exact Hh|apply fine_header]). clear Hh. rename Hh' into Hh.
    assert (Hrecv : recvs (api.HRecv chunk (Some e) :: (hs' ++ [api.HJSON status (api.BodyError detail)]) ++ [api.HClose]) =
      [provider.RRecv chunk (Some e)]) by (rewrite app_comm_cons, recvs_app; simpl; by rewrite Hr).
    rewrite Hrecv in Hge. cbn [app gateway.stream_end gateway.ending] in Hge.
    assert (Hserved : served (api.HRecv chunk (Some e) :: (hs' ++ [api.HJSON status (api.BodyError detail)]) ++ [api.HClose])
      = errors_Is e EOF).
    { unfold served. simpl. rewrite !existsb_app, !(headers_existsb _ hs') by (done || by intros []). simpl. by rewrite orb_false_r. }
    destruct (if errors_Is e EOF then _ else _) as [st code] eqn:Est.
    eapply accounted_ended; [exact Hge|done|done|done|..].
    + simpl. rewrite !count_app, Hnid. done.
    + simpl. rewrite !count_app, !(headers_count _ hs') by (done || by intros []). done.
    + simpl. rewrite !count_app, !(headers_count _ hs') by (done || by intros []). done.
    + rewrite Hserved, <-success_succeeded. by destruct (errors_Is e EOF); injection Est as <- <-.
    + intros s d Hin. simpl. destruct (errors_Is e EOF) eqn:Ee; [by left|right]. injection Est as <- <-.
      exists e. split; [done|]. exists status, detail. split; [set_solver|]. rewrite Hd. unfold api.first_error. by rewrite Ee.
  - destruct (chunk_ends _ _ Hb) as [Hends (Hj & Hs & Hc & Hni & Ha)].
    assert (Hrecv : recvs (api.HRecv chunk None :: api.stream_headers ++ body ++ [api.HClose]) =
      recvs (api.HRecv chunk None :: body))
      by (unfold recvs; simpl; rewrite omap_app; simpl; by rewrite app_nil_r).
    rewrite Hrecv in Hge. destruct (ends_chunk chunk body Hends zeroUsage err) as (st & code & u' & Heq & Hst).
    rewrite Heq in Hge.
    assert (Hserved : served (api.HRecv chunk None :: api.stream_headers ++ body ++ [api.HClose]) = existsb api.at_eof body).
    { unfold served. simpl. rewrite !existsb_app, Ha. simpl. by rewrite orb_false_r. }
    eapply accounted_ended; [exact Hge|done|done|done|..].
    + simpl. rewrite !count_app, Hni. done.
    + simpl. rewrite !count_app, Hj, Hs. done.
    + simpl. rewrite !count_app, Hc. done.
    + rewrite Hserved, Hst. apply success_succeeded.
    + intros s d Hin. exfalso. apply list_elem_of_lookup in Hin as [i Hi]. apply (count_pos api.is_json) in Hi; [|done].
      simpl in Hi. rewrite !count_app, Hj in Hi. simpl in Hi. lia.
Qed.

(** *** A request *)

Lemma rate_headers d : traces hlog (api.applyRateLimitHeaders c d) (fun _ he => headers he).
Proof using Tc.
  eapply traces_mono; [by apply api.rate_headers_trace|]. intros ? he H. eapply Forall_impl; [exact H|apply fine_header].
Qed.

Lemma one_header k v : (k = "X-Request-ID" -> own v) -> traces hlog (api.Header c k v) (fun _ he => headers he).
Proof using Tc. intros H. eapply traces_mono; [by apply api.tr_header|]. intros ? he ->. by repeat constructor. Qed.

Lemma headers_then {A B} (m : M W A) (k : A -> M W B) :
  traces hlog m (fun _ he => headers he) -> (forall a, traces hlog (k a) (fun _ he => headers he)) ->
  traces hlog (bind m k) (fun _ he => headers he).
Proof using Type.
  intros Hm Hk. eapply traces_bind; [exact Hm|]. intros a hs Hh. eapply traces_mono; [apply Hk|].
  intros b hs' Hh'. by apply Forall_app.
Qed.

Lemma result_headers r :
  own (gateway.cr_RequestID r) -> traces hlog (api.applyResultHeaders c r) (fun _ he => headers he).
Proof using Tc.
  intros Hown. unfold api.applyResultHeaders. do 3 (apply headers_then; [by apply one_header|intros _]).
  apply headers_then; [destruct (gateway.cr_IdempotencyReplayed r); [by apply one_header|by apply traces_ret]|].
  intros _. apply rate_headers.
Qed.

(** An answer and a stream have the identifier of the request. *)
Lemma result_id ctx req md : yields (gateway.Chat g ctx req md) (fun r => forall cr, r = inr cr ->
  gateway.identified md (gateway.cr_RequestID cr)).
Proof using Type.
  clear. unfold gateway.Chat, gateway.chatBody. apply yields_then. intros [ctx' cancel]. apply yields_defer.
  destruct (service.ValidateChatRequest req); [by apply yields_ret|]. destruct req as [req|]; [|apply yields_panic].
  destruct (Stream req); [by apply yields_ret|]. destruct (gateway.normalizeIdempotencyKey _); [by apply yields_ret|].
  apply (yields_bind _ _ (fun r => forall id, r = inr id -> gateway.identified md id)).
  { unfold gateway.ensureRequestID. case_bool_decide; repeat yields_step; [done|..]; intros ? [= <-]; by intros ?. }
  intros [e|id] Hid; [by apply yields_ret|]. specialize (Hid id eq_refl).
  assert (Hprov : forall f ck cs, gateway.fl_requestID f = id ->
    yields (gateway.chatProvider g ctx' req f ck cs) (fun r => forall cr, r = inr cr -> gateway.identified md (gateway.cr_RequestID cr))).
  { intros f ck cs Hf. unfold gateway.chatProvider. repeat yields_step; try done. intros ? [= <-]. simpl. by rewrite Hf. }
  assert (Hcached : forall f, gateway.fl_requestID f = id ->
    yields (gateway.chatCached g ctx' req md f) (fun r => forall cr, r = inr cr -> gateway.identified md (gateway.cr_RequestID cr))).
  { intros f Hf. unfold gateway.chatCached. repeat first [by apply Hprov | yields_step]; try done. intros ? [= <-]. simpl. by rewrite Hf. }
  unfold gateway.chatReserved. cbn zeta. repeat first [by apply Hcached | yields_step]; try done. by intros ? [= <-].
Qed.

Lemma answer_status cr : success (gateway.status_of cr).
Proof using Type.
  clear. unfold gateway.status_of, success. destruct (gateway.cr_IdempotencyReplayed cr); [set_solver|].
  case_bool_decide; set_solver.
Qed.

Lemma answer_accounted req md :
  (forall requestID, gateway.identified md requestID -> own requestID) ->
  tr2 (let! r := gateway.Chat g (api.RequestContext c) (Some req) md in
       match r with
       | inr result =>
           api.applyResultHeaders c result ;! api.JSON c 200 (api.BodyResponse (gateway.cr_Response result))
       | inl err => api.writeMappedError c err
       end) (fun _ ge he => accounted ge he).
Proof using Sep Tr Tc.
  intros Hown.
  eapply traces2_bind; [eapply traces2_left; [apply traces_yields; [by apply gateway.Chat_trace|apply result_id]|apply mute_Chat]|].
  intros r ge he [[Hrun Hcr] ->].
  destruct (gateway.chat_recorded _ _ _ _ _ Hrun) as (id & model & Hident & _ & [H1 H2 H3]). apply Hown in Hident.
  assert (Hopen : count is_opened ge = 0%nat).
  { apply count_zero. eapply Forall_impl; [by eapply gateway.chat_no_open|]. by intros []. }
  destruct r as [e|cr]; simpl app.
  - apply accounted_failure; [done..|]. intros x Hx. destruct (H3 x Hx) as (Hi & _ & Hc & Hs & _).
    split; [by rewrite Hi|]. split; [done|]. rewrite Hs. by destruct (failed_statuses e (0 <? count gateway.is_call ge)%nat) as (_ & _ & ?).
  - apply tr2_headers; [apply mute_resultHeaders|by apply result_headers, Hown, Hcr|]. intros _.
    eapply traces2_mono; [eapply traces2_right; [apply sep_json|by apply api.tr_json]|].
    intros [] ge' he [-> ->]. rewrite app_nil_r. split; simpl; [|done|done|done| |].
    + intros v [[=]|[]%elem_of_nil]%elem_of_cons.
    + intros Hr. destruct (H2 Hr) as [?|[]]. by left.
    + intros x Hx. destruct (H3 x Hx) as (Hi & _ & _ & _ & _ & Hs & _). split; [by rewrite Hi| |].
      * rewrite Hs. split; [done|]. intros _. apply answer_status.
      * intros s d [[=]|[]%elem_of_nil]%elem_of_cons.
Qed.

Lemma limited_accounts id d evs :
  gateway.limited_run g id d evs -> count gateway.is_record evs = 0%nat /\ count is_opened evs = 0%nat.
Proof using Type. by intros []. Qed.

(** A failure after the limiter, with its record. *)
Lemma refused_accounted id d e evs more x :
  gateway.limited_run g id d evs -> count gateway.is_record more = 0%nat -> count is_opened more = 0%nat ->
  failure_record e x ->
  tr2 (api.writeMappedError c e) (fun _ ge he => accounted ((evs ++ more ++ gateway.recorded g x) ++ ge) he).
Proof using Sep Tc.
  intros Hl Hm Hmo Hx. destruct (limited_accounts _ _ _ Hl) as [Hr Ho].
  apply accounted_failure; rewrite ?count_app, ?Hr, ?Ho, ?Hm, ?Hmo.
  - unfold gateway.recorded. destruct (gateway.recorder g); simpl; lia.
  - unfold gateway.recorded. by destruct (gateway.recorder g).
  - unfold gateway.recorded. intros [rec ->]. by left.
  - intros y Hin. rewrite app_assoc, elem_of_app in Hin. destruct Hin as [Hin|Hin].
    + apply list_elem_of_lookup in Hin as [i Hi]. apply (count_pos gateway.is_record) in Hi; [|done].
      rewrite count_app in Hi. lia.
    + unfold gateway.recorded in Hin. destruct (gateway.recorder g); rewrite ?elem_of_cons, elem_of_nil in Hin; naive_solver.
Qed.

Lemma stream_chat_accounted fuel req md :
  (forall requestID, gateway.identified md requestID -> own requestID) ->
  (forall ctx r, yields (provider.ChatStream (gateway.chat g) ctx r) (fun a => forall st, a.1 = Some st ->
     exists left_, upstream st left_ /\ (left_ (provider.stream_init st) <= fuel)%nat)) ->
  tr2 (let! r := gateway.ChatStream g (api.RequestContext c) (Some req) md in
       match r with
       | inl err => api.writeMappedError c err
       | inr result => api.serveResult c result fuel
       end) (fun _ ge he => accounted ge he).
Proof using Sep Tr Tc.
  intros Hown Hup.
  eapply traces2_bind; [eapply traces2_left; [eapply gateway.ChatStream_trace; [done|exact Hup]|apply mute_ChatStream]|].
  intros r ge he [Hrun ->]. simpl app.
  assert (Hfail : forall e x, own (storage.rec_RequestID x) -> storage.rec_ErrorCode x = gateway.gatewayErrorCode e ->
    storage.rec_Status x = gateway.statusForGatewayError e \/ storage.rec_Status x = storage.StatusFailed ->
    failure_record e x).
  { intros e x Hi Hc Hs. split_and!; [done..|]. destruct (failed_statuses e true) as (? & ? & _). by destruct Hs as [->| ->]. }
  destruct Hrun as [code m|cause|q d e id latency evs _ Hi Hl|q d e id latency evs _ Hi Hl _
    |q d cancel st id t evs _ _ (left_ & Hst & Hle) Hi Hl _ prov]; try apply Hown in Hi.
  - apply accounted_failure; [simpl; lia|done|by right|set_solver].
  - apply accounted_failure; [simpl; lia|done|by right|set_solver].
  - eapply (refused_accounted _ _ _ _ []); [exact Hl|done..|]. apply Hfail; auto.
  - eapply (refused_accounted _ _ _ _ [gateway.EvOpen (Some e)]); [exact Hl|done..|]. apply Hfail; auto.
  - destruct (limited_accounts _ _ _ Hl) as [Hr Ho]. unfold api.serveResult. cbn zeta. cbn [gateway.sr_Stream
      gateway.sr_RateLimit gateway.sr_RequestID gateway.sr_Provider].
    apply tr2_headers.
    + apply mute_closing. unfold api.applyRateLimitHeaders. context_steps.
    + apply api.traces_closing, headers_then; [apply rate_headers|]. intros _.
      apply headers_then; [by apply one_header|]. intros _. by apply one_header.
    + intros _. apply (stream_accounted _ _ _ _ _ _ _ left_); [done|done|by rewrite count_app, Hr|by rewrite count_app, Ho|done].
Qed.

End identified.

(** The handler finds the identifier in the header of the response. *)
Lemma requestMetadata_run w : twp (api.requestMetadata c) (fun md w' =>
  gateway.RequestID md = header_of "X-Request-ID" (hlog w) /\ glog w' = glog w /\ hlog w' = hlog w) w.
Proof using Sep.
  unfold api.requestMetadata. cbn zeta. apply twp_bind. apply twp_Ret.
  destruct (proj1 (twp_Ret _ _ _) (sep_header_of "X-Request-ID" w)) as (v & w' & E & -> & Hh).
  exists (header_of "X-Request-ID" (hlog w)), w'. split; [done|]. apply twp_ret. split_and!; [done| |done].
  by apply (sep_sent _ _ _ _ E).
Qed.

(** A run of the handler, where the identifier is the one in the header. *)
Definition handled (w : W) {A} (_ : A) (w' : W) : Prop :=
  exists ge he, glog w' = glog w ++ ge /\ hlog w' = hlog w ++ he /\
    accounted (header_of "X-Request-ID" (hlog w)) ge he.

Lemma handled_tr2 {A} (m : M W A) w w1 :
  glog w1 = glog w -> hlog w1 = hlog w ->
  tr2 m (fun _ ge he => accounted (header_of "X-Request-ID" (hlog w)) ge he) -> twp m (handled w) w1.
Proof using Type.
  intros Hg Hh Hm. eapply twp_mono; [apply Hm|]. intros a w' (ge & he & Hg' & Hh' & H). exists ge, he.
  by rewrite Hg', Hh', Hg, Hh.
Qed.

(** A step that neither log notices. *)
Lemma handled_quiet {A B} (m : M W A) (k : A -> M W B) w w1 :
  glog w1 = glog w -> hlog w1 = hlog w -> silent hlog m /\ mute glog m ->
  (forall a w2, glog w2 = glog w -> hlog w2 = hlog w -> twp (k a) (handled w) w2) -> twp (bind m k) (handled w) w1.
Proof using Type.
  intros Hg Hh [Hs Hm] Hk. apply twp_bind. apply twp_Ret.
  destruct (proj1 (twp_Ret _ _ _) (Hs w1)) as (a & w2 & E & evs & Hl & ->). rewrite app_nil_r in Hl.
  exists a, w2. split; [done|]. apply Hk; [|congruence]. by rewrite (Hm _ _ _ E).
Qed.

Lemma own_identified md w requestID :
  gateway.RequestID md = header_of "X-Request-ID" (hlog w) -> gateway.identified md requestID ->
  own (header_of "X-Request-ID" (hlog w)) requestID.
Proof using Type. intros Hmd. unfold gateway.identified, own. by rewrite Hmd. Qed.

(** The handler, from any world. *)
Lemma completions_accounted fuel w :
  (forall ctx r, yields (provider.ChatStream (gateway.chat g) ctx r) (fun a => forall st, a.1 = Some st ->
     exists left_, upstream st left_ /\ (left_ (provider.stream_init st) <= fuel)%nat)) ->
  twp (api.ChatCompletions g c fuel) (handled w) w.
Proof using Sep Tr Tc.
  intros Hup. unfold api.ChatCompletions. apply handled_quiet; [done|done|apply sep_decode|]. intros [err|req] w1 Hg Hh.
  - apply handled_tr2; [done..|].
    eapply traces2_mono; [eapply traces2_right; [apply sep_json|by apply api.tr_json]|].
    intros [] ge he [-> ->]. split; simpl; [by intros v [[=]|[]%elem_of_nil]%elem_of_cons|done|done|lia| |by intros x []%elem_of_nil].
    intros _. right. exists (EValidation "invalid_json" ""). split; [done|].
    eexists _, _. split; [by left|done].
  - apply handled_quiet; [done|done|apply sep_model|]. intros _ w2 Hg2 Hh2. destruct (Stream req).
    + unfold api.streamChatCompletions. apply twp_bind. eapply twp_mono; [apply requestMetadata_run|].
      intros md w3 (Hmd & Hg3 & Hh3). rewrite Hh2 in Hmd.
      apply handled_tr2; [congruence..|]. apply stream_chat_accounted; [intros; by eapply own_identified|done].
    + apply twp_bind. eapply twp_mono; [apply requestMetadata_run|].
      intros md w3 (Hmd & Hg3 & Hh3). rewrite Hh2 in Hmd.
      apply handled_tr2; [congruence..|]. apply answer_accounted. intros. by eapply own_identified.
Qed.

End compose.

(** ** A concrete exchange *)

Module witnesses.

Abbreviation W := (context.world (list gateway.event * list api.http)).

Definition glog (w : W) : list gateway.event := w.2.1.
Definition hlog (w : W) : list api.http := w.2.2.
Definition ask {A} (e : gateway.event) (a : A) : M W A := fun w => Ret a (w.1, (w.2.1 ++ [e], w.2.2)).
Definition send {A} (e : api.http) (a : A) : M W A := fun w => Ret a (w.1, (w.2.1, w.2.2 ++ [e])).

#[global] Instance random : gateway.Random W := fun n => ret (inr (replicate n 7)).
#[local] Existing Instance gateway.witnesses.sha.
#[local] Instance json : codec.Json := {
  codec.MarshalRequest r := inr (Model r);
  codec.MarshalResponse _ := inr "answer";
  codec.UnmarshalResponse s := inl (EText "unsupported");
  codec.MarshalChunk _ := inr "{}";
  codec.UnmarshalChunk _ := inl (EText "unsupported");
}.

(** A stream with the index of the next chunk. *)
Definition stream (chunks : list ChatStreamChunk) : provider.Stream W :=
  provider.mkStream nat 0%nat
    (fun i => match chunks !! i with
              | None => send (api.HRecv None (Some (ESentinel EOF))) ((None, Some (ESentinel EOF)), i)
              | Some x => send (api.HRecv (Some x) None) ((Some x, None), S i)
              end)
    (fun i => send api.HClose (None, i)) None.

Definition gate (chunks : list ChatStreamChunk) : gateway.GatewayService W :=
  gateway.NewGatewayService
    (provider.mkProvider (fun _ _ => ask (gateway.EvCall (Some gateway.witnesses.answer) None) (Some gateway.witnesses.answer, None))
       (fun _ _ => ask (gateway.EvOpen None) (Some (stream chunks), None)))
    (gateway.mkOptions W None false None None
      (Some (storage.mkRecorder (fun _ r => ask (gateway.EvRecord r) None)))
      "primary" 0 0 None
      (Some (gateway.mkObserver (ask gateway.EvRateLimited tt) (ask gateway.EvCacheHit tt)
        (fun p u => ask (gateway.EvTokens p u) tt)))).

(** A client that asks for a stream. *)
Definition client : api.Context W :=
  api.mkContext W "10.0.0.1:50123" context.Background (fun _ => "") (fun _ => ret (inr (gateway.witnesses.request true)))
    (fun k w => Ret (header_of k (hlog w)) w) (fun k v => send (api.HHeader k v) tt) (fun s b => send (api.HJSON s b) tt)
    (fun s => send (api.HStatus s) tt) (fun s => send (api.HWrite s None) None) (send api.HFlush tt) (ret tt) (ret tt)
    (fun _ => ret tt).

Lemma traces_ask {A} (e : gateway.event) (a : A) (P : A -> list gateway.event -> Prop) :
  P a [e] -> traces glog (ask e a) P.
Proof. intros H w. exists [e]. by split. Qed.

Lemma traces_send {A} (e : api.http) (a : A) (P : A -> list api.http -> Prop) : P a [e] -> traces hlog (send e a) P.
Proof. intros H w. exists [e]. by split. Qed.

Lemma mute_ask {A} e (a : A) : mute hlog (ask e a).
Proof. by intros w ? ? [= _ <-]. Qed.

Lemma mute_send {A} e (a : A) : mute glog (send e a).
Proof. by intros w ? ? [= _ <-]. Qed.

Lemma yields_send {A} e (a : A) (Q : A -> Prop) : Q a -> yields (send e a) Q.
Proof. by intros H w ? ? [= <- _]. Qed.

Lemma gate_traced chunks : Forall provider.complete_chunk chunks -> gateway.Traced (gate chunks) glog.
Proof.
  intros Hc. split; simpl; try (intros; by apply traces_ask); try done; try (intros; apply silent_ret).
  - intros s ctx r [= <-]. by apply traces_ask.
  - split; intros ctx r w a w' [= <- _]; [done|]. split; [|done]. intros i.
    change (provider.stream_state _) with nat in i. simpl.
    destruct (chunks !! i) as [x|] eqn:E; apply yields_send; [|done].
    exact (Forall_lookup_1 _ _ _ _ Hc E).
Qed.

#[global] Instance client_traced : api.TracedContext client hlog.
Proof. split; intros; by apply traces_send. Qed.

#[global] Instance separate chunks : Separate (gate chunks) client glog hlog.
Proof.
  split; simpl; try (intros; first [done | apply mute_ask | apply mute_send | apply mute_ret]).
  - intros s ctx r [= <-]. apply mute_ask.
  - intros n. split; [apply silent_ret|apply mute_ret].
  - intros m. split; [apply silent_ret|apply mute_ret].
  - by intros k w a w' [= _ <-].
Qed.

Lemma traces2_send {A} e (a : A) (P : A -> list gateway.event -> list api.http -> Prop) :
  P a [] [e] -> traces2 glog hlog (send e a) P.
Proof. intros H w. exists [], [e]. split_and!; [by rewrite app_nil_r|done|done]. Qed.

Lemma stream_upstream chunks : upstream glog hlog (stream chunks) (fun i => length chunks - i)%nat.
Proof.
  split; [intros i|intros i; by apply traces2_send]. change (provider.stream_state _) with nat in i. simpl. destruct (chunks !! i) as [x|] eqn:E; apply traces2_send;
    (split; [done|]); [|done]. apply lookup_lt_Some in E. simpl. lia.
Qed.

Definition after (chunks : list ChatStreamChunk) : list gateway.event * list api.http :=
  match api.ChatCompletions (gate chunks) client 2 (context.start ([], [])) with Ret _ w => w.2 | _ => ([], []) end.

(** A stream that ends before its first chunk: the client is told an error and the
    record reports a success. *)
Lemma empty_stream_recorded_as_success :
  (exists detail, api.HJSON 502 (api.BodyError detail) ∈ (after []).2) /\
  exists x, gateway.EvRecord x ∈ (after []).1 /\ storage.rec_Status x = storage.StatusSucceeded.
Proof.
  split.
  - eexists. apply (list_elem_of_lookup_2 _ 3). by vm_compute.
  - eexists. split; [apply (list_elem_of_lookup_2 _ 1); by vm_compute|done].
Qed.

End witnesses.

End exchange.
