(* ===== verification/Metrics.v ===== *)
(** * Metrics (internal/metrics/metrics.go)

    What the program reports to Prometheus: the outcome of every upstream attempt,
    token counts, circuit states and requests. The client library is a parameter. *)

From stdpp Require Import base gmap list strings.
From Stdlib Require Import ZArith Lia.
From S2P Require Import Prelude Float64 Types GoStrings Context Trace CircuitBreaker Retry Provider Gateway.

Local Open Scope Z_scope.
Local Open Scope go_scope.

Module metrics.

(** The collectors that [New] registers, in the order of the fields. *)
Inductive collector : Type :=
| requests
| requestDuration
| tokens
| providerErrors
| rateLimited
| cacheHits
| upstream
| circuitState.

#[global] Instance collector_eq_dec : EqDecision collector.
Proof. solve_decision. Defined.

(** The full name and the labels of a collector. *)
Definition describe (c : collector) : string * list string :=
  match c with
  | requests => ("modelgate_requests_total", ["route"; "status"])
  | requestDuration => ("modelgate_request_duration_seconds", ["route"; "status"])
  | tokens => ("modelgate_tokens_total", ["provider"; "type"])
  | providerErrors => ("modelgate_provider_errors_total", ["provider"; "code"])
  | rateLimited => ("modelgate_rate_limited_total", [])
  | cacheHits => ("modelgate_cache_hits_total", [])
  | upstream => ("modelgate_upstream_requests_total", ["provider"; "result"])
  | circuitState => ("modelgate_circuit_breaker_state", ["provider"])
  end.

(** The operations of a collector at given label values: [Add] of a counter, [Set]
    of a gauge, [Observe] of a histogram. *)
Class Prometheus (W : Type) : Type := {
  Add : collector -> list string -> float64 -> M W unit;
  Set_ : collector -> list string -> float64 -> M W unit;
  Observe : collector -> list string -> float64 -> M W unit;
}.

Inductive Level : Type := LevelInfo | LevelError.

(** The attributes of a log line. *)
Record attributes : Type := mkAttributes {
  log_method : string;
  log_route : string;
  log_status : Z;
  log_latency_ms : Z;
  log_request_id : string;
  log_provider : string;
  log_model : string;
}.

(** What [HTTPMiddleware] uses of the request and its response. *)
Record Exchange (W : Type) : Type := mkExchange {
  Next : M W unit;
  Path : string;
  FullPath : string;
  HTTPMethod : string;
  Writer_Status : M W Z;
  Writer_Header : string -> M W string;
  GetString_model : M W string;
}.
Arguments Next {W} _.
Arguments Path {W} _.
Arguments FullPath {W} _.
Arguments HTTPMethod {W} _.
Arguments Writer_Status {W} _.
Arguments Writer_Header {W} _ _.
Arguments GetString_model {W} _.

(** [Duration.Seconds] *)
Definition Seconds (d : Z) : float64 :=
  fadd (float_of_Z (Z.quot d second)) (fdiv (float_of_Z (Z.rem d second)) (float_of_Z second)).

Definition state_number (s : circuitbreaker.State) : Z :=
  match s with
  | circuitbreaker.StateClosed => 0
  | circuitbreaker.StateOpen => 1
  | circuitbreaker.StateHalfOpen => 2
  end.

Section operations.
Context {W : Type} {HR : context.HasRuntime W} `{!Prometheus W}.

(** [Inc] of a counter *)
Definition Inc (c : collector) (labels : list string) : M W unit := Add c labels (float_of_Z 1).

Definition HTTPMiddleware (LogAttrs : Level -> string -> attributes -> M W unit) (c : Exchange W) : M W unit :=
  let! startedAt := gets context.Now in
  Next c ;!
  if bool_decide (Path c = "/metrics") then ret tt
  else
    let route := if bool_decide (FullPath c = "") then "unmatched" else FullPath c in
    let! code := Writer_Status c in
    let status := Itoa code in
    let! now := gets context.Now in
    let duration := time_sub now startedAt in
    Inc requests [route; status] ;!
    Observe requestDuration [route; status] (Seconds duration) ;!
    let! code := Writer_Status c in
    let level := if 500 <=? code then LevelError else LevelInfo in
    let! requestID := Writer_Header c "X-Request-ID" in
    let! providerName := Writer_Header c "X-ModelGate-Provider" in
    let! model := GetString_model c in
    LogAttrs level "request completed"
      (mkAttributes (HTTPMethod c) route code (milliseconds duration) requestID providerName model).

Definition ObserveRateLimited : M W unit := Inc rateLimited [].

Definition ObserveCacheHit : M W unit := Inc cacheHits [].

Definition ObserveTokens (providerName : string) (usage : ChatUsage) : M W unit :=
  let providerName := if bool_decide (providerName = "") then "unknown" else providerName in
  Add tokens [providerName; "input"] (float_of_Z (PromptTokens usage)) ;!
  Add tokens [providerName; "output"] (float_of_Z (CompletionTokens usage)) ;!
  Add tokens [providerName; "total"] (float_of_Z (TotalTokens usage)).

Definition ObserveUpstreamAttempt (providerName : string) (attempt : retry.Attempt) : M W unit :=
  match retry.AttemptErr attempt with
  | Some err =>
      let result := if provider.IsRetryable err then "retryable_error" else "error" in
      Inc providerErrors [providerName; provider.ErrorCode err] ;!
      Inc upstream [providerName; result]
  | None => Inc upstream [providerName; "success"]
  end.

Definition SetCircuitState (providerName : string) (state : circuitbreaker.State) : M W unit :=
  Set_ circuitState [providerName] (float_of_Z (state_number state)).

(** [Metrics] as the observer of the gateway. *)
Definition observer : gateway.GatewayObserver W :=
  gateway.mkObserver ObserveRateLimited ObserveCacheHit ObserveTokens.

End operations.

(** ** What is reported *)

Inductive sample : Type :=
| Added (c : collector) (labels : list string) (v : float64)
| SetTo (c : collector) (labels : list string) (v : float64)
| Observed (c : collector) (labels : list string) (v : float64).

Section properties.
Context {W : Type} {HR : context.HasRuntime W} {HP : Prometheus W} (log : W -> list sample).

(** The number of label values must be that of the collector's labels. *)
Definition labelled (c : collector) (l : list string) : Prop := length l = length (describe c).2.

(** The documented behaviour of the library: a collector panics if the label values
    do not fit its labels, and a counter if a negative value is added; otherwise the
    sample is recorded. *)
Class PrometheusOk : Prop := {
  add_ok : forall c l v, labelled c l -> flt v (float_of_Z 0) = false ->
    traces log (Add c l v) (fun _ evs => evs = [Added c l v]);
  add_negative : forall c l v w, flt v (float_of_Z 0) = true -> Add c l v w = Panic w;
  set_ok : forall c l v, labelled c l -> traces log (Set_ c l v) (fun _ evs => evs = [SetTo c l v]);
  observe_ok : forall c l v, labelled c l -> traces log (Observe c l v) (fun _ evs => evs = [Observed c l v]);
}.
Context {HPok : PrometheusOk}.

Lemma inc_traces c l : labelled c l -> traces log (Inc c l) (fun _ evs => evs = [Added c l (float_of_Z 1)]).
Proof using HPok. intros Hl. by apply add_ok. Qed.

(** No two collectors have the same name, so that [MustRegister] does not panic. *)
Lemma describe_distinct c c' : (describe c).1 = (describe c').1 -> c = c'.
Proof using Type. by destruct c, c'. Qed.

(** Every upstream attempt is counted exactly once, as a success, a retryable
    error or another error, with the classification that the retry loop uses; a
    failed attempt is counted once more under its error code. *)
Theorem attempt_counted name attempt :
  traces log (ObserveUpstreamAttempt name attempt) (fun _ evs =>
    exists result failures, evs = failures ++ [Added upstream [name; result] (float_of_Z 1)] /\
      match retry.AttemptErr attempt with
      | None => result = "success" /\ failures = []
      | Some err =>
          (result = "retryable_error" <-> provider.IsRetryable err = true) /\ result <> "success" /\
          failures = [Added providerErrors [name; provider.ErrorCode err] (float_of_Z 1)]
      end).
Proof using HPok.
  unfold ObserveUpstreamAttempt. destruct (retry.AttemptErr attempt) as [err|].
  - eapply traces_bind; [by apply inc_traces|]. intros _ evs ->. eapply traces_mono; [by apply inc_traces|].
    intros _ evs ->. do 2 eexists. split; [done|]. by destruct (provider.IsRetryable err).
  - eapply traces_mono; [by apply inc_traces|]. intros _ evs ->. by exists "success", [].
Qed.

(** Every request but those for /metrics is counted once and measured once, under
    its route and status; a request without a route is counted as unmatched. *)
Theorem request_counted LogAttrs (c : Exchange W) :
  silent log (Next c) -> silent log (Writer_Status c) -> (forall k, silent log (Writer_Header c k)) ->
  silent log (GetString_model c) -> (forall l m a, silent log (LogAttrs l m a)) ->
  traces log (HTTPMiddleware LogAttrs c) (fun _ evs =>
    (Path c = "/metrics" /\ evs = []) \/
    Path c <> "/metrics" /\ exists route code duration,
      (route = "unmatched" /\ FullPath c = "" \/ route = FullPath c /\ route <> "") /\
      evs = [Added requests [route; Itoa code] (float_of_Z 1);
             Observed requestDuration [route; Itoa code] (Seconds duration)]).
Proof using HPok.
  intros Hnext Hstatus Hheader Hmodel Hlog. unfold HTTPMiddleware.
  apply traces_silent; [apply silent_gets|]. intros startedAt. apply traces_silent; [done|]. intros _.
  case_bool_decide as Hpath; [apply traces_ret; by left|]. set (route := if bool_decide _ then _ else _).
  apply traces_silent; [done|]. intros code. apply traces_silent; [apply silent_gets|]. intros now.
  eapply traces_bind; [by apply inc_traces|]. intros _ evs ->.
  eapply traces_bind; [by apply observe_ok|]. intros _ evs ->.
  apply traces_silent; [done|]. intros code'. apply traces_silent; [done|]. intros requestID.
  apply traces_silent; [done|]. intros providerName. apply traces_silent; [done|]. intros model.
  eapply traces_mono; [apply Hlog|]. intros _ evs ->. right. split; [done|].
  exists route, code, (time_sub now startedAt). split; [|done]. unfold route.
  case_bool_decide as Hf; [by left|by right].
Qed.

(** The label of a provider. *)
Definition label (name : string) : string := if bool_decide (name = "") then "unknown" else name.

(** Token counts. Counts that are not negative are added to the provider's
    three series. The counts are those the upstream sent, and nothing checks them:
    a negative one makes the counter, and with it the request, panic. *)
Theorem tokens_counted name u :
  (0 <= PromptTokens u -> 0 <= CompletionTokens u -> 0 <= TotalTokens u ->
   traces log (ObserveTokens name u) (fun _ evs =>
     evs = [Added tokens [label name; "input"] (float_of_Z (PromptTokens u));
            Added tokens [label name; "output"] (float_of_Z (CompletionTokens u));
            Added tokens [label name; "total"] (float_of_Z (TotalTokens u))])) /\
  ((exists n, n ∈ [PromptTokens u; CompletionTokens u; TotalTokens u] /\
              flt (float_of_Z n) (float_of_Z 0) = true) ->
   forall w, exists w', ObserveTokens name u w = Panic w').
Proof using HPok.
  split.
  - intros Hp Hc Ht. unfold ObserveTokens. fold (label name).
    eapply traces_bind; [by apply add_ok; [|apply float_of_Z_nonneg]|]. intros _ evs ->.
    eapply traces_bind; [by apply add_ok; [|apply float_of_Z_nonneg]|]. intros _ evs ->.
    eapply traces_mono; [by apply add_ok; [|apply float_of_Z_nonneg]|]. by intros _ evs ->.
  - intros (n & Hn & Hneg) w. unfold ObserveTokens. fold (label name).
    assert (Hadd : forall l m w, labelled tokens l -> (exists w', Add tokens l (float_of_Z m) w = Ret tt w') \/ Add tokens l (float_of_Z m) w = Panic w).
    { intros l m w1 Hl. destruct (flt (float_of_Z m) (float_of_Z 0)) eqn:E; [right; by apply add_negative|].
      left. pose proof (add_ok tokens l _ Hl E w1) as Ha. apply twp_Ret in Ha as ([] & w' & Ha & _). by exists w'. }
    unfold bind.
    destruct (Hadd [label name; "input"] (PromptTokens u) w eq_refl) as [[w1 E1]| ->]; [rewrite E1|by eexists].
    destruct (Hadd [label name; "output"] (CompletionTokens u) w1 eq_refl) as [[w2 E2]| ->]; [rewrite E2|by eexists].
    rewrite !elem_of_cons, elem_of_nil in Hn. destruct Hn as [->|[->|[->|[]]]].
    + by rewrite add_negative in E1.
    + by rewrite add_negative in E2.
    + rewrite add_negative by done. by eexists.
Qed.

End properties.

Module witnesses.

(** A library that keeps the samples. *)
Definition demo : Type := context.world (list sample).
Definition demo_log (w : demo) : list sample := snd w.
Definition push (e : sample) : M demo unit := fun w => Ret tt (fst w, snd w ++ [e]).

#[local] Instance demo_prometheus : Prometheus demo := {|
  Add c l v := if flt v (float_of_Z 0) then panic else push (Added c l v);
  Set_ c l v := push (SetTo c l v);
  Observe c l v := push (Observed c l v);
|}.

Lemma prometheus_ok : PrometheusOk demo_log.
Proof.
  constructor; simpl.
  - intros c l v _ -> w. cbn. by eexists.
  - by intros c l v w ->.
  - intros c l v _ w. cbn. by eexists.
  - intros c l v _ w. cbn. by eexists.
Qed.

Lemma attempt_counted_witness :
  traces demo_log (ObserveUpstreamAttempt "p" (retry.mkAttempt 1 5 (Some (ESentinel DeadlineExceeded)))) (fun _ evs =>
    evs = [Added providerErrors ["p"; "upstream_timeout"] (float_of_Z 1);
           Added upstream ["p"; "retryable_error"] (float_of_Z 1)]).
Proof.
  eapply traces_mono; [apply (attempt_counted demo_log (HPok := prometheus_ok))|].
  intros _ evs (result & failures & -> & Hr & _ & ->). by rewrite (proj2 Hr).
Defined.

Lemma tokens_counted_witness :
  (exists w', ObserveTokens "p" (mkChatUsage 1 2 (-3)) (context.start [] : demo) = Panic w') /\
  traces demo_log (ObserveTokens "" (mkChatUsage 1 2 3)) (fun _ evs => length evs = 3%nat).
Proof.
  split.
  - apply (tokens_counted demo_log (HPok := prometheus_ok) "p" (mkChatUsage 1 2 (-3))).
    exists (-3). split; [set_solver|by vm_compute].
  - eapply traces_mono; [by apply (tokens_counted demo_log (HPok := prometheus_ok) "" (mkChatUsage 1 2 3))|].
    by intros _ evs ->.
Defined.

End witnesses.

End metrics.
