(* ===== verification/Main.v ===== *)
(** * Building the providers (internal/provider/factory.go, cmd/server/main.go)

    From a configuration to the router with its governed targets. The objects that
    the code allocates are cells of the world, one per target; allocating an object
    stores its initial value. *)

From stdpp Require Import base gmap list strings.
From Stdlib Require Import ZArith Ascii Lia.
From S2P Require Import Prelude Float64 Types GoStrings GoParse Config Context Codec CircuitBreaker Semaphore Trace.
From S2P Require Import Retry Provider Sse Mock OpenAI Governance Routing Gateway Metrics.

Local Open Scope Z_scope.
Local Open Scope go_scope.

Module server.

(** The cells of the target with a given index, and the router's. *)
Record Cells (W : Type) : Type := mkCells {
  sequence_cell : nat -> ref W Z;
  breaker_cell : nat -> ref W circuitbreaker.Breaker;
  semaphore_cell : nat -> ref W concurrency.Semaphore;
  router_cell : ref W routing.RouterState;
}.
Arguments sequence_cell {W} _ _.
Arguments breaker_cell {W} _ _.
Arguments semaphore_cell {W} _ _.
Arguments router_cell {W} _.

Section build.
Context {W : Type} {HR : context.HasRuntime W} {HS : context.Scheduler W}.
Context {HJ : codec.Json} {HU : openai.UrlParser} {HM : openai.MediaTypes} {HC : openai.HttpClient W}.
Context {HP : metrics.Prometheus W}.
(** The random source of the jitter. *)
Context (source : Z -> M W Z) (cells : Cells W).
Implicit Types cfg : config.Config.

(** ** The factory *)

Definition new_mock (seq : ref W Z) : M W (provider.Provider W) :=
  store seq 0 ;! ret (mock.NewMockProvider seq).

Definition lift_openai (r : string + openai.OpenAICompatibleProvider) : string + provider.Provider W :=
  match r with
  | inl e => inl e
  | inr p => inr (openai.toProvider p)
  end.

Definition NewTargetFromConfig cfg (target : config.ProviderTarget) (seq : ref W Z)
  : M W (string + provider.Provider W) :=
  let client := openai.mkClient (config.RequestTimeout cfg) in
  if bool_decide (config.Kind target = config.ProviderMock) then
    let! p := new_mock seq in ret (inr p)
  else if bool_decide (config.Kind target = config.ProviderDeepSeek) then
    ret (lift_openai (openai.NewOpenAICompatibleProvider (config.Name target) (config.DeepSeekBaseURL cfg)
      (config.DeepSeekAPIKey cfg) (Some client)))
  else if bool_decide (config.Kind target = config.ProviderOpenAICompatible) then
    ret (lift_openai (openai.NewOpenAICompatibleProvider (config.Name target) (config.OpenAIBaseURL cfg)
      (config.OpenAIAPIKey cfg) (Some client)))
  else ret (inl ("unsupported provider type " +:+ config.quote (config.Kind target) +:+ " for target " +:+
                 config.quote (config.Name target))).

Definition NewFromConfig cfg (seq : ref W Z) : M W (string + provider.Provider W) :=
  let client := openai.mkClient (config.RequestTimeout cfg) in
  if bool_decide (config.Provider cfg = config.ProviderMock) then
    let! p := new_mock seq in ret (inr p)
  else if bool_decide (config.Provider cfg = config.ProviderDeepSeek) then
    ret (lift_openai (openai.NewDeepSeekProvider (config.DeepSeekBaseURL cfg) (config.DeepSeekAPIKey cfg) (Some client)))
  else if bool_decide (config.Provider cfg = config.ProviderOpenAICompatible) then
    ret (lift_openai (openai.NewOpenAICompatibleProvider "openai-compatible" (config.OpenAIBaseURL cfg)
      (config.OpenAIAPIKey cfg) (Some client)))
  else ret (inl ("unsupported provider " +:+ config.quote (config.Provider cfg))).

(** ** The router *)

Definition retryOptions cfg (providerName : string) : retry.Options W :=
  retry.mkOptions (config.RetryMaxAttempts cfg) (config.UpstreamAttemptTimeout cfg) (config.RetryBaseBackoff cfg)
    (config.RetryMaxBackoff cfg) None (Some (metrics.ObserveUpstreamAttempt providerName)).

Definition breakerOptions cfg : circuitbreaker.Options :=
  circuitbreaker.mkOptions (config.CircuitBreakerWindowSize cfg) (config.CircuitBreakerMinimumRequests cfg)
    (config.CircuitBreakerFailureRatio cfg) (config.CircuitBreakerOpenTimeout cfg)
    (config.CircuitBreakerHalfOpenMaxRequests cfg).

(** [OnStateChange] reads the state of the very breaker that calls it, which may
    call it again; [depth] bounds the nesting of these calls. *)
Fixpoint onStateChange (depth : nat) (o : circuitbreaker.Options) (providerName : string)
    (cell : ref W circuitbreaker.Breaker) (_ : circuitbreaker.State) : M W unit :=
  match depth with
  | O => fun w => Block w
  | S depth =>
      let breaker := circuitbreaker.mkHandle o context.Now (onStateChange depth o providerName cell) cell in
      let! state := circuitbreaker.State_ breaker in
      metrics.SetCircuitState providerName state
  end.

(** Reading the state changes it at most once, so two levels are enough. *)
Definition callback_depth : nat := 2.

(** A governed provider as a target of the router. *)
Definition governedTarget (p : governance.Provider W) : routing.Target W :=
  routing.mkTarget (governance.toProvider p) (governance.Name p)
    (governance.Available p).

(** One iteration of the loop, for the target at [index]. *)
Definition buildTarget cfg (index : nat) (targetConfig : config.ProviderTarget)
  : M W (string + governance.Provider W) :=
  let providerName := config.Name targetConfig in
  let! raw := NewTargetFromConfig cfg targetConfig (sequence_cell cells index) in
  match raw with
  | inl err => ret (inl ("create provider " +:+ config.quote providerName +:+ ": " +:+ err))
  | inr rawProvider =>
  match retry.New source (retryOptions cfg providerName) with
  | inl err => ret (inl ("create retry policy for " +:+ config.quote providerName +:+ ": " +:+ err))
  | inr retryPolicy =>
  let o := breakerOptions cfg in
  let cell := breaker_cell cells index in
  match circuitbreaker.NewHandle o None context.Now (Some (onStateChange callback_depth o providerName cell)) cell with
  | inl err => ret (inl ("create circuit breaker for " +:+ config.quote providerName +:+ ": " +:+ err))
  | inr (breaker, initial) =>
      store cell initial ;!
      metrics.SetCircuitState providerName circuitbreaker.StateClosed ;!
      match concurrency.New (config.ProviderMaxConcurrency cfg) with
      | inl err => ret (inl ("create concurrency limit for " +:+ config.quote providerName +:+ ": " +:+ err))
      | inr sem =>
          store (semaphore_cell cells index) sem ;!
          match governance.NewProvider providerName (Some rawProvider) (Some retryPolicy) (Some breaker)
                  (Some (semaphore_cell cells index)) with
          | inl err => ret (inl ("govern provider " +:+ config.quote providerName +:+ ": " +:+ err))
          | inr governed => ret (inr governed)
          end
      end
  end end end.

Fixpoint buildTargets cfg (index : nat) (targets : list config.ProviderTarget)
  : M W (string + list (option (routing.Target W) * Z)) :=
  match targets with
  | [] => ret (inr [])
  | targetConfig :: targets =>
      let! built := buildTarget cfg index targetConfig in
      match built with
      | inl err => ret (inl err)
      | inr governed =>
          let! rest := buildTargets cfg (S index) targets in
          match rest with
          | inl err => ret (inl err)
          | inr rest => ret (inr ((Some (governedTarget governed), config.Weight targetConfig) :: rest))
          end
      end
  end.

Definition buildRouter cfg : M W (string + routing.Router W) :=
  let! built := buildTargets cfg 0 (config.Providers cfg) in
  match built with
  | inl err => ret (inl err)
  | inr targets =>
      match routing.New (config.RoutingStrategy cfg) targets (router_cell cells) with
      | inl err => ret (inl ("create provider router: " +:+ err))
      | inr (router, initial) => store (router_cell cells) initial ;! ret (inr router)
      end
  end.

Definition buildProviderRouter cfg : M W (string + provider.Provider W) :=
  let! r := buildRouter cfg in
  match r with
  | inl err => ret (inl err)
  | inr r => ret (inr (routing.toProvider r))
  end.

(** *** The provider that is built keeps the contract *)

Lemma factory_contract cfg target seq :
  yields (NewTargetFromConfig cfg target seq) (fun r => forall p, r = inr p -> provider.Contract (fun _ => True) p).
Proof using Type.
  assert (Hlift : forall r p, lift_openai r = inr p -> provider.Contract (fun _ => True) p).
  { intros [e|o] p; [done|]. intros [= <-]. apply openai.openai_contract. }
  unfold NewTargetFromConfig, new_mock. cbn zeta. case_bool_decide.
  { apply (yields_bind _ _ (provider.Contract (fun _ => True))).
    - apply yields_then. intros _. apply yields_ret. apply mock.mock_contract.
    - intros p Hp. apply yields_ret. by intros ? [= <-]. }
  repeat case_bool_decide; apply yields_ret; [apply Hlift..|done].
Qed.

(** What is known of a target that was built. *)
Definition target_contract (t : config.ProviderTarget) (target : routing.Target W) : Prop :=
  routing.keeps_contract target /\ routing.target_Name target = TrimSpace (config.Name t).

Lemma buildTarget_contract cfg index t :
  yields (buildTarget cfg index t) (fun r => forall p, r = inr p -> target_contract t (governedTarget p)).
Proof using Type.
  unfold buildTarget. cbn zeta. eapply yields_bind; [apply factory_contract|]. intros [e|raw] Hraw; [by apply yields_ret|].
  specialize (Hraw raw eq_refl).
  repeat yields_step; try done. unfold governance.NewProvider in *. case_bool_decide; [done|].
  simplify_eq. intros gp [= <-]. split; [|done]. eexists. by eapply governance.governed_contract.
Qed.

Lemma buildTargets_contract cfg index ts :
  yields (buildTargets cfg index ts) (fun r => forall l, r = inr l ->
    Forall2 (fun t c => exists target, c.1 = Some target /\ target_contract t target) ts l).
Proof using Type.
  revert index. induction ts as [|t ts IH]; intros index; cbn [buildTargets]; [apply yields_ret; by intros ? [= <-]|].
  eapply yields_bind; [apply buildTarget_contract|]. intros [e|p] Hp; [by apply yields_ret|].
  eapply yields_bind; [apply IH|]. intros [e|l] Hl; apply yields_ret; [done|].
  intros ? [= <-]. constructor; [|by apply Hl]. eexists. split; [done|]. by apply Hp.
Qed.

Lemma checkTargets_same (candidates : list (option (routing.Target W) * Z)) names states :
  routing.checkTargets names candidates = inr states -> prod_map Some id <$> states = candidates.
Proof using Type.
  revert names states. induction candidates as [|[[t|] weight] l IH]; intros names states; cbn [routing.checkTargets];
    [by intros [= <-]| |done].
  repeat case_bool_decide; try done. destruct (_ <=? _); [done|].
  destruct (routing.checkTargets _ l) as [e|states'] eqn:E; [done|]. intros [= <-]. simpl. f_equal. by eapply IH.
Qed.

Lemma build_contract cfg :
  yields (buildProviderRouter cfg) (fun r => forall p, r = inr p ->
    provider.Contract (fun n => n ∈ TrimSpace <$> (config.Name <$> config.Providers cfg)) p).
Proof using Type.
  unfold buildProviderRouter, buildRouter.
  apply (yields_bind _ _ (fun r => forall rt, r = inr rt ->
    provider.Contract (fun n => n ∈ TrimSpace <$> (config.Name <$> config.Providers cfg)) (routing.toProvider rt))).
  2: { intros [e|rt] H; apply yields_ret; [done|]. intros ? [= <-]. by apply H. }
  eapply yields_bind; [apply buildTargets_contract|]. intros [e|l] Hl; [by apply yields_ret|]. specialize (Hl l eq_refl).
  destruct (routing.New _ _ _) as [e|[rt st]] eqn:EN; [by apply yields_ret|]. apply yields_then. intros _. apply yields_ret.
  intros ? [= <-]. unfold routing.New in EN. destruct (_ && _); [done|]. case_bool_decide; [done|].
  destruct (routing.checkTargets _ _) as [e|states] eqn:Ec; [done|]. injection EN as <- _.
  apply checkTargets_same in Ec. subst l. rewrite Forall2_fmap_r in Hl.
  assert (Hnames : routing.target_Name <$> states.*1 = TrimSpace <$> (config.Name <$> config.Providers cfg)).
  { clear -Hl. induction Hl as [|t [target w] ts l (x & Hx & _ & Hn) _ IH]; [done|].
    injection Hx as <-. cbn [fmap list_fmap fst]. rewrite Hn. f_equal. exact IH. }
  eapply provider.contract_mono; [|apply routing.router_contract].
  - intros n Hn. by rewrite <-Hnames.
  - simpl. clear -Hl. induction Hl as [|t [target w] ts l (x & Hx & Hk & _) _ IH]; [constructor|].
    injection Hx as <-. by constructor.
Qed.

End build.

(** ** The gauge of the circuit state *)

(** A callback is about to read the state, about to publish what it read, or
    done. Callbacks of different goroutines interleave between the two. *)
Inductive callback : Type :=
| CRead
| CSet (s : circuitbreaker.State)
| CDone.

Record Gauged : Type := mkGauged {
  g_sys : circuitbreaker.Sys;
  g_gauge : Z;
  g_callbacks : list callback;
}.

Inductive gevent : Type :=
| GBreaker (e : circuitbreaker.Event)
| GRead (i : nat) (now : Z)
| GSet (i : nat).

(** A state change starts a callback. *)
Definition started (b b' : circuitbreaker.Breaker) : list callback :=
  if bool_decide (circuitbreaker.state b = circuitbreaker.state b') then [] else [CRead].

Definition gexec (o : circuitbreaker.Options) (e : gevent) (g : Gauged) : option Gauged :=
  let b := circuitbreaker.sys_breaker (g_sys g) in
  match e with
  | GBreaker e =>
      match circuitbreaker.exec o e (g_sys g) with
      | Some s' => Some (mkGauged s' (g_gauge g) (g_callbacks g ++ started b (circuitbreaker.sys_breaker s')))
      | None => None
      end
  | GRead i now =>
      match g_callbacks g !! i with
      | Some CRead =>
          let '((state, _), b') := circuitbreaker.stateLocked o now b in
          Some (mkGauged (circuitbreaker.mkSys b' (circuitbreaker.sys_permits (g_sys g))) (g_gauge g)
            (<[i := CSet state]> (g_callbacks g) ++ started b b'))
      | _ => None
      end
  | GSet i =>
      match g_callbacks g !! i with
      | Some (CSet state) => Some (mkGauged (g_sys g) (metrics.state_number state) (<[i := CDone]> (g_callbacks g)))
      | _ => None
      end
  end.

Fixpoint grun (o : circuitbreaker.Options) (es : list gevent) (g : Gauged) : option Gauged :=
  match es with
  | [] => Some g
  | e :: es => match gexec o e g with Some g => grun o es g | None => None end
  end.

(** The gauge can be left at an older state for good, against what the comment
    at the callback says: reading the state and publishing it are two steps, and a
    callback that read the open state may publish it after another has published
    the half-open state. All callbacks are finished then. *)
Theorem gauge_can_be_stale : exists es g,
  grun circuitbreaker.small_options es (mkGauged circuitbreaker.fresh 0 []) = Some g /\
  Forall (fun c => c = CDone) (g_callbacks g) /\
  g_gauge g <> metrics.state_number (circuitbreaker.state (circuitbreaker.sys_breaker (g_sys g))).
Proof.
  eexists ((GBreaker <$> circuitbreaker.opening) ++
    [GRead 0 3; GBreaker (circuitbreaker.EvAllow 12); GRead 1 12; GSet 1; GSet 0]), _.
  split; [by vm_compute|]. split; [by repeat constructor|]. by vm_compute.
Qed.

Section gauge.
Context {W : Type} {HR : context.HasRuntime W} {HP : metrics.Prometheus W} (log : W -> list metrics.sample).
Context (o : circuitbreaker.Options) (name : string) (cell : ref W circuitbreaker.Breaker).

(** The collectors and the breaker are different objects. *)
Class GaugeOk : Prop := {
  gauge_cell : forall b w, ref_get cell (ref_set cell b w) = b;
  gauge_log : forall b w, log (ref_set cell b w) = log w;
  gauge_set : forall c l v w, exists w', metrics.Set_ c l v w = Ret tt w' /\
    log w' = log w ++ [metrics.SetTo c l v] /\ ref_get cell w' = ref_get cell w;
}.
Context {HG : GaugeOk}.

(** The last sample is the state of the breaker. *)
Definition published (w : W) : Prop :=
  last (log w) = Some (metrics.SetTo metrics.circuitState [name]
    (float_of_Z (metrics.state_number (circuitbreaker.state (ref_get cell w))))).

Lemma SetCircuitState_published state w :
  state = circuitbreaker.state (ref_get cell w) ->
  twp (metrics.SetCircuitState name state) (fun _ w' => published w' /\ ref_get cell w' = ref_get cell w) w.
Proof using HG.
  intros ->. unfold metrics.SetCircuitState, twp. set (v := float_of_Z _).
  destruct (gauge_set metrics.circuitState [name] v w) as (w' & -> & Hl & Hc).
  split; [|done]. unfold published. by rewrite Hl, last_snoc, Hc.
Qed.

(** Reading the state of a breaker that is not open changes nothing. *)
Lemma stateLocked_stable now b : circuitbreaker.state b <> circuitbreaker.StateOpen ->
  circuitbreaker.stateLocked o now b = ((circuitbreaker.state b, None), b).
Proof using Type.
  intros H. unfold circuitbreaker.stateLocked, circuitbreaker.advanceLocked. by rewrite bool_decide_false.
Qed.

Lemma stateLocked_cases now b :
  circuitbreaker.stateLocked o now b = ((circuitbreaker.state b, None), b) \/
  exists b', circuitbreaker.stateLocked o now b = ((circuitbreaker.StateHalfOpen, Some circuitbreaker.StateHalfOpen), b') /\
    circuitbreaker.state b' = circuitbreaker.StateHalfOpen.
Proof using Type.
  unfold circuitbreaker.stateLocked, circuitbreaker.advanceLocked. destruct (_ || _); [by left|]. right. by eexists.
Qed.

Lemma state_stable depth w : circuitbreaker.state (ref_get cell w) <> circuitbreaker.StateOpen ->
  twp (onStateChange (S depth) o name cell circuitbreaker.StateClosed) (fun _ w' => published w' /\ ref_get cell w' = ref_get cell w) w.
Proof using HG.
  intros H. cbn [onStateChange]. unfold circuitbreaker.State_. twp_steps. cbn [circuitbreaker.options circuitbreaker.cell].
  rewrite stateLocked_stable by done. cbn [fst snd circuitbreaker.notify]. twp_steps.
  eapply twp_mono; [apply SetCircuitState_published; by rewrite gauge_cell|].
  intros _ w1 [? Hc]. split; [done|]. by rewrite Hc, gauge_cell.
Qed.

(** Reading the state and publishing it, if a nested callback [f] in the half-open
    state ends and changes nothing. *)
Lemma read_and_publish (f : circuitbreaker.State -> M W unit) w :
  (forall s w, circuitbreaker.state (ref_get cell w) = circuitbreaker.StateHalfOpen ->
     twp (f s) (fun _ w' => published w' /\ ref_get cell w' = ref_get cell w) w) ->
  twp (let! state := circuitbreaker.State_ (circuitbreaker.mkHandle o context.Now f cell) in
       metrics.SetCircuitState name state) (fun _ => published) w.
Proof using HG.
  intros Hf. unfold circuitbreaker.State_. twp_steps.
  cbn [circuitbreaker.options circuitbreaker.cell circuitbreaker.Now].
  destruct (stateLocked_cases (context.Now w) (ref_get cell w)) as [E|(b' & E & Hb)]; rewrite E;
    cbn [fst snd circuitbreaker.notify circuitbreaker.OnStateChange].
  - twp_steps. eapply twp_mono; [apply SetCircuitState_published; by rewrite gauge_cell|]. by intros ? ? [].
  - eapply twp_mono; [apply Hf; by rewrite gauge_cell, Hb|].
    intros _ w1 [_ Hc]. twp_steps. eapply twp_mono; [apply SetCircuitState_published|by intros ? ? []].
    by rewrite Hc, gauge_cell, Hb.
Qed.


End gauge.

(** ** A loaded configuration builds *)

Section composition.
Context {W : Type} {HR : context.HasRuntime W} {HS : context.Scheduler W}.
Context {HJ : codec.Json} {HU : openai.UrlParser} {HM : openai.MediaTypes} {HC : openai.HttpClient W}.
Context {HP : metrics.Prometheus W}.
Context (source : Z -> M W Z) (cells : Cells W).

(** The breakers and semaphores are different objects, and not part of the
    collectors, the mock sequences or the router's state. *)
Class CellsOk : Prop := {
  breaker_same : forall i b w, ref_get (breaker_cell cells i) (ref_set (breaker_cell cells i) b w) = b;
  semaphore_same : forall i s w, ref_get (semaphore_cell cells i) (ref_set (semaphore_cell cells i) s w) = s;
  router_same : forall s w, ref_get (router_cell cells) (ref_set (router_cell cells) s w) = s;
  breaker_other : forall i j, i <> j -> RefDisjoint (breaker_cell cells i) (breaker_cell cells j);
  semaphore_other : forall i j, i <> j -> RefDisjoint (semaphore_cell cells i) (semaphore_cell cells j);
  breaker_semaphore :: forall i j, RefDisjoint (breaker_cell cells i) (semaphore_cell cells j);
  breaker_sequence :: forall i j, RefDisjoint (breaker_cell cells i) (sequence_cell cells j);
  semaphore_sequence :: forall i j, RefDisjoint (semaphore_cell cells i) (sequence_cell cells j);
  breaker_router :: forall i, RefDisjoint (breaker_cell cells i) (router_cell cells);
  semaphore_router :: forall i, RefDisjoint (semaphore_cell cells i) (router_cell cells);
  set_returns : forall c l v w, exists w', metrics.Set_ c l v w = Ret tt w' /\
    forall i, ref_get (breaker_cell cells i) w' = ref_get (breaker_cell cells i) w /\
              ref_get (semaphore_cell cells i) w' = ref_get (semaphore_cell cells i) w;
}.
Context {HCells : CellsOk}.

Context (cfg : config.Config).

(** A base URL that the upstream client accepts. *)
Definition good_url (base : string) : Prop :=
  exists scheme host, openai.url_Parse (TrimRight (TrimSpace base) "/") = inr (scheme, host) /\
    scheme ∈ ["http"; "https"] /\ host <> "".

Definition urls_good : Prop := forall t, t ∈ config.Providers cfg ->
  (config.Kind t = config.ProviderDeepSeek -> good_url (config.DeepSeekBaseURL cfg)) /\
  (config.Kind t = config.ProviderOpenAICompatible -> good_url (config.OpenAIBaseURL cfg)).

(** What is built for the target [t] at index [i]: the options of the
    configuration, in the ranges the components ask for. *)
Record governed_for (i : nat) (t : config.ProviderTarget) (p : governance.Provider W) : Prop := {
  gf_name : governance.name p = config.Name t;
  gf_policy : retry.valid_policy (governance.retryPolicy p);
  gf_attempts : retry.maxAttempts (governance.retryPolicy p) = config.RetryMaxAttempts cfg;
  gf_timeout : retry.attemptTimeout (governance.retryPolicy p) = config.UpstreamAttemptTimeout cfg;
  gf_options : circuitbreaker.options (governance.breaker p) = breakerOptions cfg;
  gf_valid : circuitbreaker.valid_options (breakerOptions cfg);
  gf_breaker : circuitbreaker.cell (governance.breaker p) = breaker_cell cells i;
  gf_semaphore : governance.semaphore p = semaphore_cell cells i;
}.

(** The breaker at [i] is closed without history, and no slot is taken. *)
Definition idle (i : nat) (w : W) : Prop :=
  ref_get (breaker_cell cells i) w = circuitbreaker.mkBreaker circuitbreaker.StateClosed [] 0 0 0 0 0 0 /\
  ref_get (semaphore_cell cells i) w = concurrency.mkSemaphore 0 (config.ProviderMaxConcurrency cfg).

Definition untouched (i : nat) (w w' : W) : Prop :=
  ref_get (breaker_cell cells i) w' = ref_get (breaker_cell cells i) w /\
  ref_get (semaphore_cell cells i) w' = ref_get (semaphore_cell cells i) w.

Lemma idle_untouched i w w' : untouched i w w' -> idle i w -> idle i w'.
Proof using Type. unfold untouched, idle. by intros [-> ->]. Qed.

Lemma valid_breakerOptions : config.valid cfg -> circuitbreaker.valid_options (breakerOptions cfg).
Proof using Type.
  intros []. unfold config.positive64 in *. constructor; simpl; try lia; naive_solver.
Qed.

Lemma NewOpenAI_accepts nm base key cl : TrimSpace nm <> "" -> TrimSpace key <> "" -> good_url base ->
  exists p, openai.NewOpenAICompatibleProvider nm base key (Some cl) = inr p.
Proof using Type.
  intros Hn Hk (scheme & host & Hu & Hs & Hh). unfold openai.NewOpenAICompatibleProvider. rewrite Hu.
  rewrite (bool_decide_false (TrimSpace nm = "")), (bool_decide_false (host = "")),
    (bool_decide_false (TrimSpace key = "")) by done.
  rewrite !elem_of_cons, elem_of_nil in Hs. destruct Hs as [->|[->|[]]]; simpl; by eexists.
Qed.

Lemma target_name_trimmed t : config.valid_target t -> TrimSpace (config.Name t) = config.Name t /\ config.Name t <> "".
Proof using Type. intros [[Hne _] Hc _ _]. split; [|done]. by apply config.name_characters. Qed.

Lemma NewTarget_accepts i t w : config.valid cfg -> urls_good -> t ∈ config.Providers cfg ->
  twp (NewTargetFromConfig cfg t (sequence_cell cells i))
    (fun r w' => (exists p, r = inr p) /\ forall j, untouched j w w') w.
Proof using HCells.
  intros Hv Hurls Ht. pose proof (config.v_targets _ Hv) as (_ & Hall & _). rewrite Forall_forall in Hall.
  pose proof (Hall t Ht) as Hvt. destruct (target_name_trimmed t Hvt) as [Hn Hne].
  destruct (config.v_keys _ Hv t Ht) as [Hk1 Hk2]. destruct (Hurls t Ht) as [Hu1 Hu2].
  assert (Hu : forall j, untouched j w w) by done.
  unfold NewTargetFromConfig. pose proof (config.vt_kind _ Hvt) as Hkind.
  unfold config.known_kind in Hkind. rewrite !elem_of_cons, elem_of_nil in Hkind.
  destruct Hkind as [->|[Hk|[Hk|[]]]].
  - rewrite bool_decide_true by done. cbn. split; [by eexists|]. intros j. split; apply ref_disj_l.
  - rewrite Hk. simpl. apply twp_ret. split; [|done].
    destruct (NewOpenAI_accepts (config.Name t) (config.DeepSeekBaseURL cfg) (config.DeepSeekAPIKey cfg)
      (openai.mkClient (config.RequestTimeout cfg))) as [p ->]; [by rewrite Hn|auto..|]. by eexists.
  - rewrite Hk. simpl. apply twp_ret. split; [|done].
    destruct (NewOpenAI_accepts (config.Name t) (config.OpenAIBaseURL cfg) (config.OpenAIAPIKey cfg)
      (openai.mkClient (config.RequestTimeout cfg))) as [p ->]; [by rewrite Hn|auto..|]. by eexists.
Qed.

Lemma retry_accepts nm : config.valid cfg -> exists p, retry.New source (retryOptions cfg nm) = inr p /\
  retry.valid_policy p /\ retry.maxAttempts p = config.RetryMaxAttempts cfg /\
  retry.attemptTimeout p = config.UpstreamAttemptTimeout cfg.
Proof using Type.
  intros []. unfold config.positive64 in *. destruct (retry.New source (retryOptions cfg nm)) as [e|p] eqn:E.
  - exfalso. unfold retry.New in E. simpl in E.
    rewrite !(proj2 (Z.leb_gt _ _)), (proj2 (Z.ltb_ge _ _)) in E by lia. done.
  - exists p. apply retry.New_policy in E; [naive_solver|simpl; lia].
Qed.

Lemma buildTarget_spec i t w : config.valid cfg -> urls_good -> t ∈ config.Providers cfg ->
  twp (buildTarget source cells cfg i t)
    (fun r w' => (exists p, r = inr p /\ governed_for i t p) /\ idle i w' /\ forall j, j <> i -> untouched j w w') w.
Proof using HCells.
  intros Hv Hurls Ht. unfold buildTarget. apply twp_bind. eapply twp_mono; [by apply NewTarget_accepts|].
  intros r w1 [[raw ->] H1]. destruct (retry_accepts (config.Name t) Hv) as (policy & Hpol & Hvp & Hma & Hat).
  pose proof (valid_breakerOptions Hv) as Hvo. rewrite Hpol. unfold circuitbreaker.NewHandle.
  rewrite (circuitbreaker.New_accepts _ Hvo). cbn beta iota zeta. apply twp_bind. unfold store at 1. unfold twp at 1.
  set (w2 := ref_set (breaker_cell cells i) _ w1). apply twp_bind. unfold metrics.SetCircuitState.
  set (v := float_of_Z _). destruct (set_returns metrics.circuitState [config.Name t] v w2) as (w3 & E3 & H3).
  unfold twp at 1. rewrite E3. pose proof (config.v_concurrency _ Hv) as Hc.
  unfold concurrency.New. rewrite (proj2 (Z.leb_gt _ _)) by lia. cbn beta iota zeta. apply twp_bind.
  unfold store at 1. unfold twp at 1. set (w4 := ref_set (semaphore_cell cells i) _ w3).
  pose proof (config.v_targets _ Hv) as (_ & Hall & _). rewrite Forall_forall in Hall.
  destruct (target_name_trimmed t (Hall t Ht)) as [Hn Hne].
  unfold governance.NewProvider. rewrite Hn, bool_decide_false by done. apply twp_ret. split_and!.
  - eexists. split; [done|]. by constructor.
  - unfold idle, w4. rewrite semaphore_same, ref_disj_l. destruct (H3 i) as [-> _]. split; [|done]. apply breaker_same.
  - intros j Hj. destruct (H1 j) as [Hb1 Hs1], (H3 j) as [Hb3 Hs3].
    assert (Hd : RefDisjoint (breaker_cell cells j) (breaker_cell cells i)) by by apply breaker_other.
    assert (Hd' : RefDisjoint (semaphore_cell cells j) (semaphore_cell cells i)) by by apply semaphore_other.
    unfold untouched, w4. rewrite !ref_disj_l, Hb3, Hs3. unfold w2. rewrite ref_disj_l, ref_disj_r. done.
Qed.

(** The targets of the router for the providers [ps]. *)
Definition router_targets (ps : list (governance.Provider W)) (ts : list config.ProviderTarget)
  : list (routing.Target W * Z) :=
  zip_with (fun p t => (governedTarget p, config.Weight t)) ps ts.

Lemma buildTargets_spec ts : config.valid cfg -> urls_good -> ts ⊆ config.Providers cfg -> forall i w,
  twp (buildTargets source cells cfg i ts) (fun r w' => exists ps,
    r = inr (prod_map Some id <$> router_targets ps ts) /\ length ps = length ts /\
    (forall k p t, ps !! k = Some p -> ts !! k = Some t -> governed_for (i + k) t p /\ idle (i + k) w') /\
    forall j, (j < i)%nat -> untouched j w w') w.
Proof using HCells.
  intros Hv Hurls. induction ts as [|t ts IH]; intros Hsub i w; cbn [buildTargets].
  { apply twp_ret. exists []. split_and!; done. }
  assert (Ht : t ∈ config.Providers cfg) by (apply Hsub, elem_of_cons; by left).
  assert (Hsub' : ts ⊆ config.Providers cfg) by (intros x Hx; apply Hsub, elem_of_cons; by right).
  apply twp_bind. eapply twp_mono; [by apply buildTarget_spec|].
  intros r w1 ((p & -> & Hp) & Hidle & Hother). apply twp_bind.
  eapply twp_mono; [by apply IH|]. intros r w2 (ps & -> & Hlen & Hps & Hkeep). apply twp_ret.
  exists (p :: ps). split_and!; [done|simpl; by rewrite Hlen| |].
  - intros [|k] p' t' Hp' Ht'; simplify_eq/=.
    + rewrite Nat.add_0_r. split; [done|]. apply (idle_untouched i w1); [apply Hkeep; lia|done].
    + replace (i + S k)%nat with (S i + k)%nat by lia. by apply Hps.
  - intros j Hj. destruct (Hother j) as [Hb Hs]; [lia|]. destruct (Hkeep j) as [Hb' Hs']; [lia|].
    unfold untouched. by rewrite Hb', Hs'.
Qed.

Lemma router_targets_names ps ts :
  length ps = length ts -> (forall k p t, ps !! k = Some p -> ts !! k = Some t -> governance.name p = config.Name t) ->
  routing.target_Name <$> (router_targets ps ts).*1 = config.Name <$> ts /\ (router_targets ps ts).*2 = config.Weight <$> ts.
Proof using Type.
  revert ts. induction ps as [|p ps IH]; intros [|t ts] Hlen H; try done. simpl in Hlen. injection Hlen as Hlen.
  destruct (IH ts Hlen) as [IH1 IH2]; [intros k; by apply (H (S k))|]. unfold router_targets in *. cbn [zip_with fmap list_fmap fst snd].
  rewrite IH1, IH2. split; [|done]. f_equal. by apply (H 0%nat).
Qed.

(** A router is accepted if its targets have the names and weights of a valid
    configuration. *)
Lemma router_accepts (T : list (routing.Target W * Z)) ts strategy :
  strategy ∈ [config.RoutingRoundRobin; config.RoutingWeightedRoundRobin] -> config.valid_targets ts ->
  routing.target_Name <$> T.*1 = config.Name <$> ts -> T.*2 = config.Weight <$> ts ->
  routing.New strategy (prod_map Some id <$> T) (router_cell cells) =
    inr (routing.mkRouter strategy T (router_cell cells), routing.mkRouterState (replicate (length ts) 0) 0).
Proof using Type.
  intros Hs (Hne & Hall & Hnd) Hnames Hweights.
  assert (Hlen : length T = length ts) by (rewrite <-(length_fmap snd), Hweights; apply length_fmap).
  assert (Htrim : routing.trimmed <$> T = config.Name <$> ts).
  { transitivity (TrimSpace <$> (routing.target_Name <$> T.*1)); [by rewrite <-!list_fmap_compose|].
    rewrite Hnames, <-list_fmap_compose. apply list_fmap_ext. intros k t Ht. rewrite Forall_lookup in Hall.
    by apply target_name_trimmed, (Hall k). }
  apply routing.router_New_validates. split_and!; try done; simpl.
  - rewrite !elem_of_cons, elem_of_nil in Hs. destruct Hs as [->|[->|[]]]; [by left|by right].
  - intros ->. by destruct ts.
  - by rewrite Htrim.
  - rewrite Forall_forall in Hall. apply Forall_forall. intros c Hc. split.
    + assert (Hin : routing.trimmed c ∈ config.Name <$> ts) by (rewrite <-Htrim; by apply list_elem_of_fmap_2).
      apply list_elem_of_fmap in Hin as (t & -> & Ht). exact (proj2 (target_name_trimmed t (Hall t Ht))).
    + assert (Hin : c.2 ∈ config.Weight <$> ts) by (rewrite <-Hweights; by apply list_elem_of_fmap_2).
      apply list_elem_of_fmap in Hin as (t & -> & Ht). destruct (Hall t Ht). lia.
  - by rewrite Hlen.
Qed.

(** The router of a loaded configuration. *)
Lemma builds_router `{!Floats, !Unicode, !config.Urls} env w :
  config.Load env = inr cfg -> urls_good ->
  twp (buildRouter source cells cfg) (fun r w' => exists rt ps, r = inr rt /\
    routing.valid rt /\ routing.strategy rt = config.RoutingStrategy cfg /\
    routing.targets rt = router_targets ps (config.Providers cfg) /\
    routing.target_Name <$> (routing.targets rt).*1 = config.Name <$> config.Providers cfg /\
    (routing.targets rt).*2 = config.Weight <$> config.Providers cfg /\
    (forall k p t, ps !! k = Some p -> config.Providers cfg !! k = Some t -> governed_for k t p /\ idle k w') /\
    ref_get (router_cell cells) w' =
      routing.mkRouterState (replicate (length (config.Providers cfg)) 0) 0) w.
Proof using HCells.
  intros Hv%config.loaded_valid Hurls. unfold buildRouter. apply twp_bind.
  eapply twp_mono; [by apply buildTargets_spec|]. intros r w1 (ps & -> & Hlen & Hps & _).
  pose proof (config.v_targets _ Hv) as (Hne & Hall & Hnd).
  destruct (router_targets_names ps _ Hlen) as [Hnames Hweights];
    [intros k p t Hp Ht; by apply (gf_name k), (Hps k)|].
  set (rt := routing.mkRouter (config.RoutingStrategy cfg) (router_targets ps (config.Providers cfg)) (router_cell cells)).
  assert (HNew : routing.New (config.RoutingStrategy cfg)
      (prod_map Some id <$> router_targets ps (config.Providers cfg)) (router_cell cells) =
    inr (rt, routing.mkRouterState (replicate (length (config.Providers cfg)) 0) 0)).
  { apply router_accepts; [by apply config.v_strategy|done..]. }
  rewrite HNew. cbn. exists rt, ps. split_and!; try done.
  - by eapply routing.router_New_valid.
  - intros k p t Hp Ht. destruct (Hps k p t Hp Ht) as [? Hi]. split; [done|].
    eapply idle_untouched; [|done]. split; apply ref_disj_l.
  - apply router_same.
Qed.

(** C18: A configuration that was loaded builds the gateway's provider: given base
    URLs that the upstream client accepts, [buildProviderRouter] does not fail. The
    router has the configured strategy and one target per configured provider, in
    order, with its name and weight. Every target is governed by the configured
    retry policy, breaker and limit, which satisfy what the theorems about these
    components require; at the start every breaker is closed without history, no
    slot is taken, and the router is at its initial state. *)
Theorem loaded_config_builds `{!Floats, !Unicode, !config.Urls} env w :
  config.Load env = inr cfg -> urls_good ->
  twp (buildRouter source cells cfg) (fun r w' => exists rt ps, r = inr rt /\
    routing.valid rt /\ routing.strategy rt = config.RoutingStrategy cfg /\
    routing.targets rt = router_targets ps (config.Providers cfg) /\
    routing.target_Name <$> (routing.targets rt).*1 = config.Name <$> config.Providers cfg /\
    (routing.targets rt).*2 = config.Weight <$> config.Providers cfg /\
    (forall k p t, ps !! k = Some p -> config.Providers cfg !! k = Some t -> governed_for k t p /\ idle k w') /\
    ref_get (router_cell cells) w' =
      routing.mkRouterState (replicate (length (config.Providers cfg)) 0) 0) w.
Proof using HCells. apply builds_router. Qed.

(** C13: The provider that the gateway is given keeps its contract. For a loaded
    configuration (with base URLs that the upstream client accepts)
    [buildProviderRouter] returns a provider, and whatever the mock, the upstream
    services, the retries and the breakers behind the router do, a call of it that
    returns gives either an error or a complete response (with an identifier and a
    choice), never both and never neither; a stream that it opens delivers only
    complete chunks or errors; and both carry the name of a configured target. *)
Theorem provider_stack_contract `{!Floats, !Unicode, !config.Urls} env w :
  config.Load env = inr cfg -> urls_good ->
  twp (buildProviderRouter source cells cfg) (fun r _ => exists p, r = inr p /\
    provider.Contract (fun n => n ∈ config.Name <$> config.Providers cfg) p) w.
Proof using HCells.
  intros Hload Hurls. pose proof (builds_router env w Hload Hurls) as Hb.
  assert (Hr : twp (buildProviderRouter source cells cfg) (fun r _ => exists p, r = inr p) w).
  { unfold buildProviderRouter. apply twp_bind. eapply twp_mono; [exact Hb|].
    intros r w' (rt & ps & -> & _). apply twp_ret. by eexists. }
  destruct (proj1 (twp_Ret _ _ _) Hr) as (r & w' & E & p & ->). apply twp_Ret. exists (inr p), w'. split; [done|].
  exists p. split; [done|]. eapply provider.contract_mono; [|by eapply (build_contract source cells cfg w _ w' E)].
  apply config.loaded_valid, config.v_targets in Hload as (_ & Hall & _).
  intros n (m & -> & (t & -> & Ht)%list_elem_of_fmap)%list_elem_of_fmap. rewrite Forall_forall in Hall.
  rewrite (proj1 (target_name_trimmed t (Hall t Ht))). by apply list_elem_of_fmap_2.
Qed.

End composition.

Module witnesses.

(** A world with the samples and the objects of every target. *)
Record heap : Type := mkHeap {
  h_samples : list metrics.sample;
  h_sequences : nat -> Z;
  h_breakers : nat -> circuitbreaker.Breaker;
  h_semaphores : nat -> concurrency.Semaphore;
  h_router : routing.RouterState;
}.
Definition demo : Type := context.world heap.

Definition upd {A} (f : nat -> A) (i : nat) (a : A) : nat -> A := fun j => if decide (j = i) then a else f j.

Definition demo_cells : Cells demo := mkCells demo
  (fun i => mkRef (fun w => h_sequences w.2 i)
    (fun a w => (w.1, mkHeap (h_samples w.2) (upd (h_sequences w.2) i a) (h_breakers w.2) (h_semaphores w.2) (h_router w.2))))
  (fun i => mkRef (fun w => h_breakers w.2 i)
    (fun a w => (w.1, mkHeap (h_samples w.2) (h_sequences w.2) (upd (h_breakers w.2) i a) (h_semaphores w.2) (h_router w.2))))
  (fun i => mkRef (fun w => h_semaphores w.2 i)
    (fun a w => (w.1, mkHeap (h_samples w.2) (h_sequences w.2) (h_breakers w.2) (upd (h_semaphores w.2) i a) (h_router w.2))))
  (mkRef (fun w => h_router w.2)
    (fun a w => (w.1, mkHeap (h_samples w.2) (h_sequences w.2) (h_breakers w.2) (h_semaphores w.2) a))).

Definition demo_push (e : metrics.sample) : M demo unit := fun w =>
  Ret tt (w.1, mkHeap (h_samples w.2 ++ [e]) (h_sequences w.2) (h_breakers w.2) (h_semaphores w.2) (h_router w.2)).

#[local] Instance demo_prometheus : metrics.Prometheus demo := {|
  metrics.Add c l v := demo_push (metrics.Added c l v);
  metrics.Set_ c l v := demo_push (metrics.SetTo c l v);
  metrics.Observe c l v := demo_push (metrics.Observed c l v);
|}.
#[local] Instance demo_client : openai.HttpClient demo := fun _ _ _ => ret (inl (EText "offline")).
#[local] Existing Instances openai.witnesses.demo_urls openai.witnesses.demo_media openai.witnesses.demo_json
  config.witnesses.half_only config.witnesses.no_unicode config.witnesses.plain_urls.

Lemma upd_same {A} (f : nat -> A) i a : upd f i a i = a.
Proof. unfold upd. by rewrite decide_True. Qed.

Lemma upd_other {A} (f : nat -> A) i j a : j <> i -> upd f i a j = f j.
Proof. intros H. unfold upd. by rewrite decide_False. Qed.

Lemma demo_cells_ok : CellsOk demo_cells.
Proof.
  constructor; try (intros; simpl; apply upd_same); try done; intros; try (by constructor);
    try (constructor; intros; simpl; apply upd_other; congruence).
  eexists. split; [done|]. by intros i.
Qed.

Definition demo_start : demo :=
  context.start (mkHeap [] (fun _ => 7) (fun _ => circuitbreaker.mkBreaker circuitbreaker.StateOpen [] 0 0 0 0 0 0)
    (fun _ => concurrency.mkSemaphore 0 0) (routing.mkRouterState [] 0)).

Lemma demo_urls_good cfg : urls_good cfg.
Proof.
  assert (H : forall base, good_url base).
  { intros base. exists "https", "h". split_and!; [done| |done]. apply elem_of_cons. right. by apply elem_of_cons; left. }
  intros t _. split; intros _; apply H.
Qed.

Lemma loaded_config_builds_witness : exists cfg rt w',
  config.Load config.witnesses.demo_env = inr cfg /\
  buildRouter (fun _ => ret 0) demo_cells cfg demo_start = Ret (inr rt) w' /\
  routing.target_Name <$> (routing.targets rt).*1 = ["a"; "b.2"] /\ (routing.targets rt).*2 = [3; 97].
Proof.
  destruct (config.Load config.witnesses.demo_env) as [e|cfg] eqn:E; [by vm_compute in E|].
  pose proof (loaded_config_builds (fun _ => ret 0) demo_cells (HCells := demo_cells_ok) cfg
    config.witnesses.demo_env demo_start E) as H.
  destruct (proj1 (twp_Ret _ _ _) (H (demo_urls_good cfg)))
    as (r & w' & Er & rt & ps & -> & _ & _ & _ & Hn & Hw & _).
  exists cfg, rt, w'. split; [done|]. split; [done|]. rewrite Hn, Hw. vm_compute in E. by injection E as <-.
Defined.

Lemma provider_stack_contract_witness : exists cfg p w',
  config.Load config.witnesses.demo_env = inr cfg /\
  buildProviderRouter (fun _ => ret 0) demo_cells cfg demo_start = Ret (inr p) w' /\
  provider.Contract (fun n => n ∈ ["a"; "b.2"]) p.
Proof.
  destruct (config.Load config.witnesses.demo_env) as [e|cfg] eqn:E; [by vm_compute in E|].
  pose proof (provider_stack_contract (fun _ => ret 0) demo_cells (HCells := demo_cells_ok) cfg
    config.witnesses.demo_env demo_start E) as H.
  destruct (proj1 (twp_Ret _ _ _) (H (demo_urls_good cfg))) as (r & w' & Er & p & -> & Hc).
  exists cfg, p, w'. split; [done|]. split; [done|].
  assert (Hn : config.Name <$> config.Providers cfg = ["a"; "b.2"]) by (vm_compute in E; by injection E as <-).
  rewrite Hn in Hc. exact Hc.
Defined.

Lemma demo_gauge_ok : GaugeOk (fun w => h_samples w.2) (breaker_cell demo_cells 0).
Proof. constructor; [intros; apply upd_same|done|]. intros. eexists. split; [done|]. done. Qed.


End witnesses.
End server.
