(* ===== verification/Run.v ===== *)
(** * The process (cmd/server/main.go) and the table of routes (internal/api/router.go)

    Start, wiring and end of the process, how a request reaches its handler, and
    what a whole request does for the client and for the records.
    The drivers of Redis and PostgreSQL, the HTTP server and the web framework are
    parameters. *)

From stdpp Require Import base gmap list strings.
From Stdlib Require Import ZArith Ascii Lia.
From S2P Require Import Prelude Float64 Types GoStrings GoParse Config Context Trace Codec CircuitBreaker.
From S2P Require Import Semaphore Retry Provider Sse OpenAI Governance Routing Redis RateLimit Idempotency Cache.
From S2P Require Import RedisStore Storage Service Gateway Api Exchange Metrics Main.

Local Open Scope Z_scope.
Local Open Scope go_scope.

Module process.

(** ** Libraries *)

(** [pgxpool.Config], as far as the code sets it. *)
Record PoolConfig : Type := mkPoolConfig {
  ConnString : string;
  MaxConns : Z;
  ConnectTimeout : Z;
}.
(** [http.Server]; the handler is the router over the gateway. *)
Record Server (W : Type) : Type := mkServer {
  srv_Addr : string;
  srv_Gateway : gateway.GatewayService W;
  ReadHeaderTimeout : Z;
  IdleTimeout : Z;
}.
Arguments mkServer {W} _ _ _ _.
Arguments srv_Addr {W} _.
Arguments srv_Gateway {W} _.

(** What ends the wait of [run]: the server stopped, with http.ErrServerClosed or
    another error, or a signal arrived. *)
Inductive ServeOutcome : Type :=
| ServerClosed
| ServeFailed (err : error)
| SignalReceived.

Class Libraries (W D : Type) : Type := {
  redis_NewClient : redisstore.Options -> redisstore.Inner W D;
  pgxpool_ParseConfig : string -> error + PoolConfig;
  pgxpool_NewWithConfig : context.Ctx -> PoolConfig -> M W (error + storage.Pool W);
  ListenAndServe : Server W -> M W ServeOutcome;
  Shutdown : context.Ctx -> M W (option error);
  (** the structured logger at level error *)
  logger_Error : error -> M W unit;
  (** the files embedded by migrations/embed.go *)
  migrations_FS : storage.migrationFS;
}.

Inductive LogLevel : Type := LevelDebug | LevelInfo | LevelWarn | LevelError.

(** The level of [newLogger]. *)
Definition newLogger (levelName : string) : LogLevel :=
  if bool_decide (levelName = "debug") then LevelDebug
  else if bool_decide (levelName = "warn") then LevelWarn
  else if bool_decide (levelName = "error") then LevelError
  else LevelInfo.

Section run.
Context {W D : Type} {HR : context.HasRuntime W} {HS : context.Scheduler W} {HL : Libraries W D}.
Context {HF : Floats} {HUni : Unicode} {HUrls : config.Urls}.
Context {HJ : codec.Json} {HSha : codec.Sha256} {HU : openai.UrlParser} {HM : openai.MediaTypes}.
Context {HC : openai.HttpClient W} {HP : metrics.Prometheus W}.
Context {HRnd : redis.Rounding} {HLua : ratelimit.LuaStrings} {HRedis : redis.Redis D}.
Context (source : Z -> M W Z) (cells : server.Cells W) (Getenv : string -> string).
Implicit Types cfg : config.Config.

(** What Redis adds to the options of the gateway. *)
Record redisParts : Type := mkParts {
  part_limiter : ratelimit.Limiter W;
  part_idempotency : idempotency.Store W;
  part_cache : cache.Store W;
}.

Definition gatewayOptions cfg (parts : option redisParts) (recorder : option (storage.Recorder W))
  : gateway.GatewayOptions W :=
  gateway.mkOptions W (part_limiter <$> parts) (config.RateLimitFailOpen cfg) (part_idempotency <$> parts)
    (part_cache <$> parts) recorder "router" (config.RequestTimeout cfg) (config.StorageTimeout cfg)
    (Some logger_Error) (Some metrics.observer).

(** The constructors that use the client. *)
Definition makeParts cfg (client : redisstore.Client W D) : error + redisParts :=
  match ratelimit.NewRedisLimiter (Some (redisstore.evaluator client)) (config.RateLimitRPM cfg)
          (config.RateLimitBurst cfg) with
  | inl e => inl (EWrap "create rate limiter" (EText e))
  | inr limiter =>
      match idempotency.NewRedisStore (Some (redisstore.evaluator client)) (config.IdempotencyLockTTL cfg)
              (config.IdempotencyTTL cfg) with
      | inl e => inl (EWrap "create idempotency store" (EText e))
      | inr store =>
          match cache.NewRedisCache (Some (redisstore.keyValueStore client)) (config.CacheTTL cfg) with
          | inl e => inl (EWrap "create response cache" (EText e))
          | inr responseCache =>
              inr (mkParts (ratelimit.redisLimiter limiter) (idempotency.redisStore store)
                     (cache.redisCache responseCache))
          end
      end
  end.

(** The rest of [run] with Redis, if it is enabled; the client is closed when
    [run] returns. *)
Definition withRedis cfg (k : option redisParts -> M W (option error)) : M W (option error) :=
  if config.RedisEnabled cfg then
    let client := redisstore.New redis_NewClient (config.RedisAddr cfg) (config.RedisPassword cfg)
                    (config.RedisDB cfg) (config.RedisTimeout cfg) in
    defer (redisstore.Close client ;! ret tt) (
      let! '(redisCtx, cancel) := context.WithTimeout context.Background (config.RedisTimeout cfg) in
      let! err := redisstore.Ping client redisCtx in
      match err with
      | Some err => context.cancel cancel ;! ret (Some (EWrap "ping Redis" err))
      | None =>
          context.cancel cancel ;!
          match makeParts cfg client with
          | inl err => ret (Some err)
          | inr parts => k (Some parts)
          end
      end)
  else k None.

(** With PostgreSQL, if it is enabled. *)
Definition withPostgres cfg (k : option (storage.Recorder W) -> M W (option error)) : M W (option error) :=
  if config.PostgresEnabled cfg then
    match pgxpool_ParseConfig (config.PostgresDSN cfg) with
    | inl err => ret (Some (EWrap "parse PostgreSQL config" err))
    | inr poolConfig =>
        let poolConfig := mkPoolConfig (ConnString poolConfig) (config.PostgresMaxConns cfg)
                            (config.StorageTimeout cfg) in
        let! '(storageCtx, cancel) := context.WithTimeout context.Background (config.RequestTimeout cfg) in
        let! created := pgxpool_NewWithConfig storageCtx poolConfig in
        match created with
        | inl err => context.cancel cancel ;! ret (Some (EWrap "create PostgreSQL pool" err))
        | inr pool =>
            defer (storage.pool_Close pool) (
              let! err := storage.pool_Ping pool storageCtx in
              match err with
              | Some err => context.cancel cancel ;! ret (Some (EWrap "ping PostgreSQL" err))
              | None =>
                  let adapter := storage.NewPoolAdapter pool in
                  let! err := storage.ApplyMigrations adapter storageCtx migrations_FS in
                  match err with
                  | Some err => context.cancel cancel ;! ret (Some (EWrap "apply PostgreSQL migrations" err))
                  | None =>
                      context.cancel cancel ;!
                      match storage.NewUsageRepository (Some adapter) with
                      | inl err => ret (Some (EWrap "create usage repository" (EText err)))
                      | inr repository => k (Some (storage.mkRecorder (storage.RecordUsage repository)))
                      end
                  end
              end)
        end
    end
  else k None.

(** Serving until the server stops or a signal arrives. *)
Definition serve cfg (chatProvider : provider.Provider W) (options : gateway.GatewayOptions W) : M W (option error) :=
  let gw := gateway.NewGatewayService chatProvider options in
  let! outcome := ListenAndServe (mkServer (config.HTTPAddr cfg) gw (5 * second) (60 * second)) in
  match outcome with
  | ServerClosed => ret None
  | ServeFailed err => ret (Some (EWrap "serve HTTP" err))
  | SignalReceived =>
      let! '(shutdownCtx, cancel) := context.WithTimeout context.Background (config.ShutdownGracePeriod cfg) in
      defer (context.cancel cancel) (
        let! err := Shutdown shutdownCtx in
        match err with
        | Some err => ret (Some (EWrap "shutdown HTTP server" err))
        | None => ret None
        end)
  end.

Definition run : M W (option error) :=
  match config.Load Getenv with
  | inl err => ret (Some (EWrap "load config" (EText err)))
  | inr cfg =>
      let! built := server.buildProviderRouter source cells cfg in
      match built with
      | inl err => ret (Some (EText err))
      | inr chatProvider =>
          withRedis cfg (fun parts =>
          withPostgres cfg (fun recorder =>
          serve cfg chatProvider (gatewayOptions cfg parts recorder)))
      end
  end.

(** [main]: the exit status. *)
Definition main : M W Z :=
  let! err := run in
  match err with
  | Some err => logger_Error err ;! ret 1
  | None => ret 0
  end.

End run.

(** ** The table of routes *)

Inductive Route : Type := RouteHealth | RouteChat | RouteMetrics.

(** A route matches a method and a path; /metrics exists if there are metrics. *)
Definition matchRoute (withMetrics : bool) (method path : string) : option Route :=
  if bool_decide (method = "GET") && bool_decide (path = "/health") then Some RouteHealth
  else if bool_decide (method = "POST") && bool_decide (path = "/v1/chat/completions") then Some RouteChat
  else if withMetrics && bool_decide (method = "GET") && bool_decide (path = "/metrics") then Some RouteMetrics
  else None.

(** What the web framework and the exporter of the metrics do: [Recovery] runs the
    handlers that follow it. *)
Class Framework (W : Type) : Type := {
  Recovery : api.Context W -> M W unit -> M W unit;
  NotFound : api.Context W -> M W unit;
  metrics_Handler : api.Context W -> M W unit;
  Writer_Status : api.Context W -> M W Z;
  GetString_model : api.Context W -> M W string;
}.

Definition with_Next {W} (c : api.Context W) (next : M W unit) : api.Context W :=
  api.mkContext W (api.RemoteAddr c) (api.RequestContext c) (api.GetHeader c) (api.ShouldBindJSON c)
    (api.ResponseHeader c) (api.Header c) (api.JSON c) (api.Status c) (api.WriteString c) (api.Flush c) (api.Abort c)
    next (api.SetModel c).

Section router.
Context {W : Type} {HR : context.HasRuntime W} {HS : context.Scheduler W} {HRand : gateway.Random W}.
Context {HJ : codec.Json} {HSha : codec.Sha256} {HP : metrics.Prometheus W} {HFw : Framework W}.
(** The log of the metrics, if there are metrics. *)
Context (logger : option (metrics.Level -> string -> metrics.attributes -> M W unit)) (g : gateway.GatewayService W).

Definition routeHandler (fuel : nat) (c : api.Context W) (route : option Route) : M W unit :=
  match route with
  | Some RouteHealth => api.Health c
  | Some RouteChat => api.ChatCompletions g c fuel
  | Some RouteMetrics => metrics_Handler c
  | None => NotFound c
  end.

(** What follows the request identifier: the metrics, and the handler under
    [Recovery]. *)
Definition afterRequestID (fuel : nat) (c : api.Context W) (method path : string) : M W unit :=
  let route := matchRoute (match logger with Some _ => true | None => false end) method path in
  let handler := Recovery c (routeHandler fuel c route) in
  match logger with
  | None => handler
  | Some LogAttrs =>
      metrics.HTTPMiddleware LogAttrs (metrics.mkExchange W handler path
        (match route with Some _ => path | None => "" end) method (Writer_Status c) (api.ResponseHeader c)
        (GetString_model c))
  end.

(** [NewRouter]: how a request is served. *)
Definition NewRouter (fuel : nat) (c : api.Context W) (method path : string) : M W unit :=
  api.RequestIDMiddleware (with_Next c (afterRequestID fuel c method path)).

(** The framework: its operations return, and [Recovery] also if the handlers
    panic. *)
Class FrameworkOk (c : api.Context W) : Prop := {
  fw_recovery : forall m, (forall w, exists w', m w = Ret tt w' \/ m w = Panic w') -> returns (Recovery c m);
  fw_status : returns (Writer_Status c);
  fw_header : forall k, returns (api.ResponseHeader c k);
  fw_model : returns (GetString_model c);
  fw_Header : forall k v, returns (api.Header c k v);
  fw_JSON : forall s b, returns (api.JSON c s b);
  fw_Abort : returns (api.Abort c);
  fw_log : forall f l m a, logger = Some f -> returns (f l m a);
  fw_count : forall k l, returns (metrics.Inc k l);
  fw_observe : forall k l v, returns (metrics.Observe k l v);
  fw_random : forall n, returns (gateway.rand_Read n);
}.

(** A request is always answered: if the handler returns or panics, the request
    is served to its end, and the process goes on. *)
Theorem router_contains_panics fuel c method path : FrameworkOk c ->
  (forall route w, exists w', routeHandler fuel c route w = Ret tt w' \/ routeHandler fuel c route w = Panic w') ->
  returns (NewRouter fuel c method path).
Proof using Type.
  intros [] Hh.
  assert (Hafter : returns (afterRequestID fuel c method path)).
  { unfold afterRequestID. destruct logger as [f|]; [|by apply fw_recovery0].
    unfold metrics.HTTPMiddleware. returns_steps; cbn; auto. }
  unfold NewRouter, api.RequestIDMiddleware, gateway.NewRequestID, api.writeError. cbn [api.JSON api.Abort api.Header api.Next with_Next].
  returns_steps; auto.
Qed.

(** *** A request and its record *)

Section accounting.
Context (c : api.Context W) (glog : W -> list gateway.event) (hlog : W -> list api.http).

(** Code that returns and that neither log notices. *)
Definition unlogged {A} (m : M W A) : Prop := silent hlog m /\ mute glog m.

(** The framework around the handler: [Recovery] passes a return on, the rest does
    not write to the client; the random source delivers bytes. *)
Class FrameworkQuiet : Prop := {
  fq_recovery : forall m w w', m w = Ret tt w' -> Recovery c m w = Ret tt w';
  fq_status : unlogged (Writer_Status c);
  fq_model : unlogged (GetString_model c);
  fq_abort : unlogged (api.Abort c);
  fq_log : forall f l m a, logger = Some f -> unlogged (f l m a);
  fq_count : forall k l, unlogged (metrics.Inc k l);
  fq_observe : forall k l v, unlogged (metrics.Observe k l v);
  fq_random : yields (gateway.rand_Read 16) (fun r => forall v, r = inr v -> Forall (fun b => 0 <= b < 256) v);
}.
Context {Hq : FrameworkQuiet} {Sep : exchange.Separate g c glog hlog}.
Context {Tr : gateway.Traced g glog} {Tc : api.TracedContext c hlog}.

(** What was added to the logs since [w]. *)
Abbreviation since w P := (fun w' => exists ge he, glog w' = glog w ++ ge /\ hlog w' = hlog w ++ he /\ P ge he).

Lemma unlogged_bind {A B} (m : M W A) (k : A -> M W B) : unlogged m -> (forall a, unlogged (k a)) -> unlogged (bind m k).
Proof using Type.
  intros [Hs Hm] Hk. split; [apply traces_silent; [done|]|apply mute_bind; [done|]]; intros a; apply (Hk a).
Qed.

Lemma unlogged_ret {A} (a : A) : unlogged (ret a).
Proof using Type. split; [apply silent_ret|apply mute_ret]. Qed.

Lemma unlogged_gets {A} (f : W -> A) : unlogged (gets f).
Proof using Type. split; [apply silent_gets|apply mute_gets]. Qed.

Lemma unlogged_header k : unlogged (api.ResponseHeader c k).
Proof using Sep.
  split; [|by eapply exchange.sep_sent]. intros w. eapply twp_mono; [by eapply exchange.sep_header_of|].
  intros v w' [_ Hh]. exists []. by rewrite app_nil_r.
Qed.

(** Such code keeps what was added since [w]. *)
Lemma unlogged_since {A} (m : M W A) w P w1 : unlogged m -> since w P w1 -> twp m (fun _ => since w P) w1.
Proof using Type.
  intros [Hs Hm] (ge & he & Hg & Hh & H). destruct (proj1 (twp_Ret _ _ _) (Hs w1)) as (a & w2 & E & evs & Hl & ->).
  rewrite app_nil_r in Hl. apply twp_Ret. exists a, w2. split; [done|]. exists ge, he.
  by rewrite (Hm _ _ _ E), Hl.
Qed.

(** The middlewares keep what the handler did. *)
Lemma afterRequestID_run fuel w P :
  twp (api.ChatCompletions g c fuel) (fun _ => since w P) w ->
  twp (afterRequestID fuel c "POST" "/v1/chat/completions") (fun _ => since w P) w.
Proof using Hq Sep.
  intros H. destruct (proj1 (twp_Ret _ _ _) H) as ([] & w1 & E & Hafter). unfold afterRequestID.
  assert (Hroute : forall b, matchRoute b "POST" "/v1/chat/completions" = Some RouteChat) by (by intros []).
  assert (Hrec : Recovery c (routeHandler fuel c (Some RouteChat)) w = Ret tt w1) by (by apply fq_recovery).
  rewrite Hroute. destruct logger as [f|] eqn:El; [|apply twp_Ret; by exists tt, w1].
  unfold metrics.HTTPMiddleware. apply twp_bind, twp_gets, twp_bind. apply twp_Ret. exists tt, w1. split; [exact Hrec|].
  apply unlogged_since; [|done]. cbn [metrics.Path]. case_bool_decide; [apply unlogged_ret|]. cbn zeta.
  repeat first [apply fq_status | apply unlogged_gets | apply fq_count | apply fq_observe | apply unlogged_header
    | apply fq_model | by apply fq_log | apply unlogged_bind; [|intros ?]].
Qed.


End accounting.

End router.

(** ** The life of the process *)

(** What a gateway is put together from. *)
Record Wiring : Type := mkWiring {
  has_limiter : bool;
  has_idempotency : bool;
  has_cache : bool;
  has_recorder : bool;
  fails_open : bool;
  request_timeout : Z;
  operation_timeout : Z;
}.

Definition present {A} (o : option A) : bool := match o with Some _ => true | None => false end.

Definition wiring {W} (gw : gateway.GatewayService W) : Wiring :=
  mkWiring (present (gateway.limiter gw)) (present (gateway.idempotency_ gw)) (present (gateway.cache_ gw))
    (present (gateway.recorder gw)) (gateway.rateLimitFailOpen gw) (gateway.requestTimeout gw)
    (gateway.operationTimeout gw).

(** What the configuration asks for. *)
Definition configured (cfg : config.Config) : Wiring :=
  mkWiring (config.RedisEnabled cfg) (config.RedisEnabled cfg) (config.RedisEnabled cfg) (config.PostgresEnabled cfg)
    (config.RateLimitFailOpen cfg) (config.RequestTimeout cfg) (config.StorageTimeout cfg).

Inductive lifecycle : Type :=
| RedisClosed
| PoolOpened
| PoolClosed
| Served (w : Wiring).

Section lifecycle.
Context {W D : Type} {HR : context.HasRuntime W} {HS : context.Scheduler W} {HL : Libraries W D}.
Context {HF : Floats} {HUni : Unicode} {HUrls : config.Urls}.
Context {HJ : codec.Json} {HSha : codec.Sha256} {HU : openai.UrlParser} {HM : openai.MediaTypes}.
Context {HC : openai.HttpClient W} {HP : metrics.Prometheus W}.
Context {HRnd : redis.Rounding} {HLua : ratelimit.LuaStrings} {HRedis : redis.Redis D}.
Context (source : Z -> M W Z) (cells : server.Cells W) (log : W -> list lifecycle).

Abbreviation tr := (traces log).
Abbreviation quiet m := (silent log m).

Definition tx_quiet (tx : storage.Tx W) : Prop :=
  (forall ctx q, quiet (storage.tx_Exec tx ctx q)) /\
  (forall ctx q, tr (storage.tx_QueryRow tx ctx q) (fun row evs => evs = [] /\ quiet (storage.Scan row))) /\
  (forall ctx, quiet (storage.tx_Commit tx ctx)) /\ (forall ctx, quiet (storage.tx_Rollback tx ctx)).

Record pool_ok (pool : storage.Pool W) : Prop := {
  po_ping : forall ctx, quiet (storage.pool_Ping pool ctx);
  po_close : tr (storage.pool_Close pool) (fun _ evs => evs = [PoolClosed]);
  po_begin : forall ctx, tr (storage.pool_Begin pool ctx) (fun r evs => evs = [] /\ forall tx, r = inr tx -> tx_quiet tx);
}.

(** The libraries do what their operations say: each returns, and opens, closes and
    serves what it is asked to. *)
Class LibrariesOk : Prop := {
  lo_runtime : forall rt w, log (ref_set context.runtime rt w) = log w;
  lo_sequence : forall i a w, log (ref_set (server.sequence_cell cells i) a w) = log w;
  lo_breaker : forall i a w, log (ref_set (server.breaker_cell cells i) a w) = log w;
  lo_semaphore : forall i a w, log (ref_set (server.semaphore_cell cells i) a w) = log w;
  lo_router : forall a w, log (ref_set (server.router_cell cells) a w) = log w;
  lo_set : forall c l v, quiet (metrics.Set_ c l v);
  lo_ping : forall o ctx, quiet (redisstore.inner_Ping (redis_NewClient o) ctx);
  lo_close : forall o, tr (redisstore.inner_Close (redis_NewClient o)) (fun _ evs => evs = [RedisClosed]);
  lo_pool : forall ctx pc, tr (pgxpool_NewWithConfig ctx pc) (fun r evs =>
    match r with inl _ => evs = [] | inr pool => evs = [PoolOpened] /\ pool_ok pool end);
  lo_serve : forall s, tr (ListenAndServe s) (fun _ evs => evs = [Served (wiring (srv_Gateway s))]);
  lo_shutdown : forall ctx, quiet (Shutdown ctx);
}.
Context {HLok : LibrariesOk}.

Lemma quiet_store {A} (r : ref W A) a : (forall a w, log (ref_set r a w) = log w) -> quiet (store r a).
Proof using Type. intros H w. unfold store, twp. exists []. by rewrite H, app_nil_r. Qed.

Lemma quiet_WithTimeout parent d : quiet (context.WithTimeout parent d).
Proof using HLok. intros w. apply twp_update. exists []. by rewrite app_nil_r, lo_runtime. Qed.

Lemma quiet_cancel f : quiet (context.cancel f).
Proof using HLok. intros w. apply twp_update. exists []. by rewrite app_nil_r, lo_runtime. Qed.

(** Step through code that is quiet. *)
Ltac quiet_step :=
  match goal with
  | |- traces _ (ret _) _ => by apply traces_ret
  | |- traces _ (bind _ _) _ => apply traces_silent; [|intros ?]
  | |- traces _ (match ?x with _ => _ end) _ => destruct x
  | |- silent _ (bind _ _) => unfold silent
  | |- silent _ (ret _) => apply silent_ret
  | |- silent _ (match ?x with _ => _ end) => destruct x
  end.

Lemma quiet_build cfg : quiet (server.buildProviderRouter source cells cfg).
Proof using HLok.
  assert (Htarget : forall i t, quiet (server.buildTarget source cells cfg i t)).
  { intros i t. unfold server.buildTarget, server.NewTargetFromConfig, server.new_mock, metrics.SetCircuitState.
    repeat first [quiet_step | apply lo_set
      | apply quiet_store; first [apply lo_sequence | apply lo_breaker | apply lo_semaphore]]. }
  assert (Htargets : forall ts i, quiet (server.buildTargets source cells cfg i ts)).
  { induction ts as [|t ts IH]; intros i; cbn [server.buildTargets]; [by apply traces_ret|].
    repeat first [quiet_step | apply Htarget | apply IH]. }
  unfold server.buildProviderRouter, server.buildRouter.
  repeat first [quiet_step | apply Htargets | apply quiet_store, lo_router].
Qed.

Lemma quiet_migrations pool ctx fs : pool_ok pool -> quiet (storage.ApplyMigrations (storage.NewPoolAdapter pool) ctx fs).
Proof using Type.
  intros Hp. unfold storage.ApplyMigrations. apply (traces_bind log _ _
    (fun r evs => evs = [] /\ forall t, r = inr t -> exists tx, t = storage.pgxTransaction tx /\ tx_quiet tx)).
  { eapply traces_bind; [apply (po_begin _ Hp)|].
    intros [err|tx] evs [-> Htx]; apply traces_ret; (split; [done|]); [done|].
    intros t [= <-]. exists tx. by split; [|apply Htx]. }
  intros [err|t] evs [-> Ht]; [by apply traces_ret|]. destruct (Ht t eq_refl) as (tx & -> & He & Hq & Hc & Hr).
  assert (Hexec : forall q, quiet (storage.Exec (storage.pgxTransaction tx) ctx q)).
  { intros q. cbn. unfold storage.pgxExec. repeat first [quiet_step | apply He]. }
  eapply traces_mono; [apply (traces_defer log _ _ (fun _ evs => evs = []))|done].
  { unfold storage.rollback. repeat first [quiet_step | apply Hr]. }
  assert (Hfiles : forall files, quiet (storage.applyFiles (storage.pgxTransaction tx) ctx fs files)).
  { induction files as [|f files IH]; cbn [storage.applyFiles]; unfold storage.commitOr, storage.execOr;
      [repeat first [quiet_step | apply Hc]|].
    eapply traces_bind; [apply Hq|]. intros row evs [-> Hrow].
    repeat first [quiet_step | apply Hrow | apply Hexec | apply IH]. }
  unfold storage.migrateTx, storage.execOr. repeat first [quiet_step | apply Hexec | apply Hfiles].
Qed.

(** The constructors accept the settings of a loaded configuration. *)
Lemma makeParts_accepts cfg (client : redisstore.Client W D) : config.valid cfg -> exists parts, makeParts cfg client = inr parts.
Proof using Type.
  intros []. unfold config.positive64 in *. unfold makeParts, ratelimit.NewRedisLimiter, idempotency.NewRedisStore, cache.NewRedisCache.
  rewrite !(proj2 (Z.leb_gt _ _)) by lia. by eexists.
Qed.

(** The outcome of the inner part: an error of a library, or the gateway was
    served. *)
Definition attempted (steps : list string) (good : Wiring -> Prop) (r : option error)
    (evs : list lifecycle) : Prop :=
  (evs = [] /\ exists m e, m ∈ steps /\ r = Some (EWrap m e)) \/ (exists w, evs = [Served w] /\ good w).

Definition pg_steps : list string :=
  ["parse PostgreSQL config"; "create PostgreSQL pool"; "ping PostgreSQL"; "apply PostgreSQL migrations"].

(** The events around a pool. *)
Definition pooled (cfg : config.Config) (good : Wiring -> Prop) (r : option error)
    (evs : list lifecycle) : Prop :=
  if config.PostgresEnabled cfg then
    attempted pg_steps (fun _ => False) r evs \/
    exists inner, evs = PoolOpened :: inner ++ [PoolClosed] /\ attempted pg_steps good r inner
  else attempted [] good r evs.

Lemma serve_traces cfg chat o :
  tr (serve cfg chat o) (fun _ evs => evs = [Served (wiring (gateway.NewGatewayService chat o))]).
Proof using HLok.
  unfold serve. eapply traces_bind; [apply lo_serve|]. intros outcome evs ->. destruct outcome; [by apply traces_ret..|].
  eapply (traces_mono log _ (fun _ evs => evs = [])); [|by intros _ evs ->].
  apply traces_silent; [apply quiet_WithTimeout|]. intros [shutdownCtx cancel].
  apply traces_defer; [apply quiet_cancel|]. repeat first [quiet_step | apply lo_shutdown].
Qed.

Lemma withPostgres_traces cfg k (good : Wiring -> Prop) :
  (forall recorder, present recorder = config.PostgresEnabled cfg ->
     tr (k recorder) (fun _ evs => exists w, evs = [Served w] /\ good w)) ->
  tr (withPostgres cfg k) (pooled cfg good).
Proof using HLok.
  intros Hk. unfold withPostgres, pooled. destruct (config.PostgresEnabled cfg) eqn:Hpg.
  2:{ eapply traces_mono; [by apply Hk|]. intros r evs H. by right. }
  assert (Hfail : forall m e, m ∈ pg_steps -> attempted pg_steps (fun _ => False) (Some (EWrap m e)) []).
  { intros m e Hm. left. split; [done|]. by exists m, e. }
  assert (Hin : forall m e, m ∈ pg_steps -> attempted pg_steps good (Some (EWrap m e)) []).
  { intros m e Hm. left. split; [done|]. by exists m, e. }
  destruct (pgxpool_ParseConfig _) as [err|pc].
  { apply traces_ret. left. apply Hfail. by apply elem_of_cons; left. }
  apply traces_silent; [apply quiet_WithTimeout|]. intros [storageCtx cancel].
  eapply traces_bind; [apply lo_pool|]. intros [err|pool] evs.
  { intros ->. apply traces_silent; [apply quiet_cancel|]. intros _. apply traces_ret. left. apply Hfail. set_solver. }
  intros [-> Hp]. eapply traces_mono; [apply (traces_defer_last log _ _ (attempted pg_steps good) [PoolClosed])|].
  - apply (po_close _ Hp).
  - apply traces_silent; [apply (po_ping _ Hp)|]. intros [err|].
    { apply traces_silent; [apply quiet_cancel|]. intros _. apply traces_ret. apply Hin. set_solver. }
    apply traces_silent; [by apply quiet_migrations|]. intros [err|].
    { apply traces_silent; [apply quiet_cancel|]. intros _. apply traces_ret. apply Hin. set_solver. }
    apply traces_silent; [apply quiet_cancel|]. intros _. cbn [storage.NewUsageRepository].
    eapply traces_mono; [by apply Hk|]. intros r evs H. by right.
  - intros r evs (before & -> & H). right. by exists before.
Qed.

Lemma withRedis_traces cfg k (P : option error -> list lifecycle -> Prop) :
  config.valid cfg ->
  (forall parts, present parts = config.RedisEnabled cfg -> tr (k parts) P) ->
  (config.RedisEnabled cfg = true -> forall e, P (Some (EWrap "ping Redis" e)) []) ->
  tr (withRedis cfg k) (fun r evs => exists before,
    evs = before ++ (if config.RedisEnabled cfg then [RedisClosed] else []) /\ P r before).
Proof using HLok.
  intros Hv Hk Hping. unfold withRedis. destruct (config.RedisEnabled cfg) eqn:Hr.
  2:{ eapply traces_mono; [by apply Hk|]. intros r evs H. exists evs. by rewrite app_nil_r. }
  apply traces_defer_last.
  { eapply traces_bind; [apply lo_close|]. intros err evs ->. by apply traces_ret. }
  apply traces_silent; [apply quiet_WithTimeout|]. intros [redisCtx cancel].
  apply traces_silent; [apply lo_ping|]. intros [err|].
  { apply traces_silent; [apply quiet_cancel|]. intros _. apply traces_ret. by apply Hping. }
  apply traces_silent; [apply quiet_cancel|]. intros _.
  match goal with |- context [makeParts cfg ?c] => destruct (makeParts_accepts cfg c Hv) as [parts ->] end.
  by apply Hk.
Qed.

Lemma wired_options cfg chat parts recorder : config.valid cfg ->
  present parts = config.RedisEnabled cfg -> present recorder = config.PostgresEnabled cfg ->
  wiring (gateway.NewGatewayService chat (gatewayOptions cfg parts recorder)) = configured cfg.
Proof using Type.
  intros Hv Hp Hr. destruct (config.v_timeouts _ Hv) as [_ [? _]], (config.v_postgres _ Hv) as [_ [? _]].
  unfold wiring, configured. simpl. rewrite !(proj2 (Z.leb_gt _ _)) by done. rewrite <-Hp, <-Hr. by destruct parts.
Qed.

(** C19: The life of the process. [run] fails before it opens anything if the
    configuration or a provider is refused. Otherwise it serves at most one gateway,
    and whatever fails, what it opened is closed exactly once, in reverse order: the
    Redis client last, the pool before it. The only errors before serving are those of
    the libraries, none of the constructors refuses a loaded setting, and the gateway
    that is served has the dependencies, and only those, that the configuration
    enables. *)
Theorem process_lifecycle Getenv :
  tr (run source cells Getenv) (fun r evs =>
    (evs = [] /\ is_Some r) \/
    exists cfg before, config.Load Getenv = inr cfg /\
      evs = before ++ (if config.RedisEnabled cfg then [RedisClosed] else []) /\
      ((config.RedisEnabled cfg = true /\ before = [] /\ exists e, r = Some (EWrap "ping Redis" e)) \/
       pooled cfg (fun w => w = configured cfg) r before)).
Proof using HLok.
  unfold run. destruct (config.Load Getenv) as [err|cfg] eqn:E.
  { apply traces_ret. left. split; [done|by eexists]. }
  pose proof (config.loaded_valid _ _ E) as Hv.
  apply traces_silent; [apply quiet_build|]. intros [err|chat].
  { apply traces_ret. left. split; [done|by eexists]. }
  eapply traces_mono; [apply (withRedis_traces cfg _ (fun r before =>
    (config.RedisEnabled cfg = true /\ before = [] /\ exists e, r = Some (EWrap "ping Redis" e)) \/
    pooled cfg (fun w => w = configured cfg) r before) Hv)|].
  - intros parts Hparts. eapply traces_mono; [apply withPostgres_traces|by right].
    intros recorder Hrec. eapply traces_mono; [apply serve_traces|]. intros r evs ->.
    eexists. split; [done|]. by apply wired_options.
  - intros Hr e. left. split; [done|]. split; [done|]. by exists e.
  - intros r evs (before & -> & H). right. exists cfg, before. done.
Qed.

End lifecycle.

Module witnesses.

(** The events beside the world of the providers. *)
Definition demo : Type := list lifecycle * server.witnesses.demo.
Definition demo_log (w : demo) : list lifecycle := fst w.
Definition lift {A} (r : ref server.witnesses.demo A) : ref demo A :=
  mkRef (fun w => ref_get r (snd w)) (fun a w => (fst w, ref_set r a (snd w))).
Definition emit {A} (e : lifecycle) (a : A) : M demo A := fun w => Ret a (fst w ++ [e], snd w).

#[local] Instance demo_runtime : context.HasRuntime demo := lift context.runtime.
#[local] Instance demo_scheduler : context.Scheduler demo := {|
  context.wait_until P w := if P w then Ret tt w else Block w;
  context.choose _ := true;
|}.
Definition demo_cells : server.Cells demo :=
  server.mkCells demo (fun i => lift (server.sequence_cell server.witnesses.demo_cells i))
    (fun i => lift (server.breaker_cell server.witnesses.demo_cells i))
    (fun i => lift (server.semaphore_cell server.witnesses.demo_cells i))
    (lift (server.router_cell server.witnesses.demo_cells)).
#[local] Instance demo_prometheus : metrics.Prometheus demo := {|
  metrics.Add _ _ _ := ret tt;
  metrics.Set_ _ _ _ := ret tt;
  metrics.Observe _ _ _ := ret tt;
|}.
#[local] Instance demo_http : openai.HttpClient demo := fun _ _ _ => ret (inl (EText "offline")).
#[local] Existing Instances openai.witnesses.demo_urls openai.witnesses.demo_media
  config.witnesses.half_only config.witnesses.no_unicode config.witnesses.plain_urls redis.exact_rounding.

Definition demo_tx : storage.Tx demo := storage.mkTx
  (fun _ _ => ret ("OK", None)) (fun _ _ => ret (storage.mkRow (ret (inr true)))) (fun _ => ret None) (fun _ => ret None).
Definition demo_pool : storage.Pool demo := storage.mkPool (fun _ => ret (inr demo_tx)) (fun _ => ret None) (emit PoolClosed tt).

(** Every library call succeeds; a signal ends the service. *)
#[local] Instance demo_libraries : Libraries demo redis.db := {|
  redis_NewClient _ := redisstore.mkInner (fun _ => ret None) (fun _ _ _ _ => ret (inr redis.ANil))
    (fun _ _ => ret ("", Some (ESentinel RedisNil))) (fun _ _ _ _ => ret None) (emit RedisClosed None);
  pgxpool_ParseConfig dsn := inr (mkPoolConfig dsn 4 0);
  pgxpool_NewWithConfig _ _ := emit PoolOpened (inr demo_pool);
  ListenAndServe s := emit (Served (wiring (srv_Gateway s))) SignalReceived;
  Shutdown _ := ret None;
  logger_Error _ := ret tt;
  migrations_FS := storage.mkFS (inr []) (fun _ => inr "");
|}.

Lemma emit_traces {A} e (a : A) : traces demo_log (emit e a) (fun _ evs => evs = [e]).
Proof. intros w. cbn. by eexists. Qed.

Lemma demo_pool_ok : pool_ok demo_log demo_pool.
Proof.
  constructor; [intros; apply silent_ret|apply emit_traces|].
  intros ctx. apply traces_ret. split; [done|]. intros tx [= <-].
  split_and!; try (intros; apply silent_ret). intros c q. apply traces_ret. split; [done|apply silent_ret].
Qed.

Lemma demo_libraries_ok : LibrariesOk demo_cells demo_log.
Proof.
  constructor; try done; intros; try apply silent_ret; try apply emit_traces.
  intros w. cbn. eexists. split; [done|]. split; [done|apply demo_pool_ok].
Qed.

Definition demo_env (name : string) : string :=
  if bool_decide (name = "REDIS_ENABLED") then "1" else config.witnesses.demo_env name.

Lemma process_lifecycle_witness : exists w',
  run (D := redis.db) (fun _ => ret 0) demo_cells demo_env ([], server.witnesses.demo_start) = Ret None w' /\
  demo_log w' = [PoolOpened; Served (mkWiring true true true true true (30 * second) (2 * second)); PoolClosed; RedisClosed].
Proof.
  pose proof (process_lifecycle (D := redis.db) (fun _ => ret 0) demo_cells demo_log (HLok := demo_libraries_ok) demo_env)
    as H.
  destruct (proj1 (twp_Ret _ _ _) (H ([], server.witnesses.demo_start))) as (r & w' & E & evs & Hl & _). exists w'.
  assert (E' := f_equal (fun o => match o with Ret r w => Some (r, demo_log w) | _ => None end) E).
  vm_compute in E'. injection E' as Er Elog. rewrite <-Er in E. split; [exact E|]. symmetry. exact Elog.
Defined.

(** *** A streamed request through the router *)

#[local] Existing Instances exchange.witnesses.json gateway.witnesses.sha.
#[local] Instance quiet_prometheus : metrics.Prometheus exchange.witnesses.W := {|
  metrics.Add _ _ _ := ret tt;
  metrics.Set_ _ _ _ := ret tt;
  metrics.Observe _ _ _ := ret tt;
|}.
#[local] Instance demo_framework : Framework exchange.witnesses.W := {|
  Recovery _ m := fun w => match m w with Panic w' => Ret tt w' | o => o end;
  NotFound _ := ret tt;
  metrics_Handler _ := ret tt;
  Writer_Status _ := ret 200;
  GetString_model _ := ret "m";
|}.
Definition demo_logger : option (metrics.Level -> string -> metrics.attributes -> M exchange.witnesses.W unit) :=
  Some (fun _ _ _ => ret tt).

Lemma demo_framework_quiet : FrameworkQuiet demo_logger exchange.witnesses.client exchange.witnesses.glog exchange.witnesses.hlog.
Proof.
  constructor; try (intros; apply unlogged_ret).
  - intros m w w' H. simpl. by rewrite H.
  - intros f l m a [= <-]. apply unlogged_ret.
  - intros w r w' [= <- _] v [= <-]. by repeat constructor.
Qed.


End witnesses.
End process.
